(* ===== verification/_CoqProject ===== *)
-Q . S2P
Prelude.v
Fairness.v
ErrorCode.v
TimedBase.v
TimedMove.v
IoLoop.v
BaseSocket.v
Transfer.v
StreamSocket.v
DgramSocket.v
SslSocket.v
SslDeadline.v
PoolStrategy.v
ConnectionPool.v
PoolSystem.v
PoolRefine.v
PoolWait.v
StaticAllocator.v
LogTime.v
Logger.v
Resolver.v
HttpSocket.v
Connector.v
HttpClient.v
HttpsClient.v
HttpSession.v
HttpsSession.v
ConnectorSystem.v
ConnectorRefine.v
ConnectorLiveness.v
PoolConnector.v
PoolLiveness.v
PoolRefill.v
ExampleUri.v
ExampleHttp.v
