(* ===== verification/Prelude.v ===== *)
(** * stream-client: a verification library for the C++ sources

    stream-client (src/include/stream-client/) is a header-only C++ library of blocking
    network clients with timeouts over Boost.Asio and Boost.Beast.  A blocking object owns
    an io_service and a deadline timer ([timed_base]); sockets ([base_socket],
    [stream_socket], [datagram_socket], [ssl::stream_socket], [http::base_socket]) start one
    asynchronous operation under an [expiration] and run the io_service until it completes;
    a [base_connector] keeps the endpoints of a host resolved in a thread of its own and
    makes new sessions; a [base_connection_pool] keeps a list of sessions filled by a
    watcher thread through a refill strategy, and lends them to client threads.  Two example
    programs (src/example/http/) drive the pool and the connector over HTTP.

    This development models these parts as they are written and proves what makes them
    correct, or what they do instead.

    ** Files, and the sources they model

    - [Prelude]: machine integers, reachability and invariants of transition systems,
      tactics, hint databases, lemmas the components share.
    - [Fairness]: infinite executions of a transition system, weak and strong fairness of an
      action, and the rules by which the liveness theorems are proved.
    - [ErrorCode]: error codes by category and value, exceptions, results of blocking calls.
      The errno values are those of a [Platform]; Linux and Windows are instances.
    - [TimedBase] (detail/timed_base.hpp): the constants, [expiration] with its
      constructors, destructor and move, the timer, [scope_expire], [check_deadline].
      A [timed D] is an object of a derived class [D] with its base part and the clock.
      [TimedMove]: the defaulted moves over a heap of io_services and timers, and the
      handler that captured [this].
    - [IoLoop]: the loop [while (ec == would_block) run_one()] over a sequence of handlers
      with their clock readings.  [run_loop_spec] characterises it once for all users.
    - [BaseSocket] (stream/base_socket.hpp, impl/base_socket.ipp): constructor, destructor,
      [close], options, endpoints, timeouts, move.  The asio socket is the class [AsioSocket].
    - [Transfer]: the retrying transfer and the single one, which stream and datagram
      sockets share (impl/stream_socket.ipp, impl/dgram_socket.ipp).
    - [StreamSocket] (stream/stream_socket.hpp, impl/stream_socket.ipp) and [DgramSocket]
      (stream/dgram_socket.hpp, impl/dgram_socket.ipp): every overload, [close].
    - [SslSocket] (stream/ssl_stream_socket.hpp, impl/ssl_stream_socket.ipp): the calls
      that switch the next layer's I/O timeout off and back, the [send] and [receive] loops,
      handshake, constructor, [close].  [boost::asio::ssl::stream] is [SslLayer].
      A step of the constructor that asio documents to throw is an [outcome].
      [SslDeadline]: the calls that layer makes of the socket underneath, and the deadline
      they all run under.
    - [HttpSocket] (stream/http_socket.hpp, impl/http_socket.ipp): [send_request],
      [recv_response], [perform], over the interface [HttpStream], which the TLS stream is
      shown to implement; Boost.Beast is [Beast].  [HttpClient] and [HttpsClient]: the TCP
      and TLS streams as implementations of it with a peer, and the HTTP specializations of
      [connect_until]; [HttpSession], [HttpsSession]: a session of an HTTP or HTTPS connector
      through its exchanges.
    - [Resolver] (resolver/resolver.hpp, impl/resolver.ipp): the query and [resolve].
    - [Connector] (connector/connector.hpp, impl/connector.ipp): the members, [new_session]
      and a round of [resolve_routine] as functions of what locks and waits give them, the
      specializations of [connect_until]; [ConnectorSystem]: the same as a transition system
      of the resolving thread and any number of callers; [ConnectorRefine]: the functions are
      runs of that system; [ConnectorLiveness]: its threads make progress.
    - [PoolStrategy] (connector/pool_strategy.hpp, impl/pool_strategy.ipp): the interface
      [PoolStrategy] and its two instances, the back-off with its double arithmetic exact.
    - [ConnectionPool] (connector/connection_pool.hpp, impl/connection_pool.ipp): the member
      functions and an undisturbed round of the watcher; [PoolSystem]: watcher, adders,
      clients and destructor as a transition system, for any strategy, and the abstract
      queue [PoolSpec] it refines; [PoolRefine]: the round is a run of it; [PoolWait]: the
      waits for a session, thread by thread, with the notifications; [PoolConnector]: the
      pool and the connector it owns as one system, the adders being the callers;
      [PoolLiveness]: its threads make progress; [PoolRefill]: what its refills achieve.
    - [StaticAllocator] (stream/detail/static_allocator.hpp): the bump pool at 64-bit
      addresses and the reference-counted handles on a heap of pools.
    - [Logger] (logger.hpp, impl/logger.ipp): the interface [LogInterface] of a class of
      loggers, the library's and a user's; loggers behind shared pointers, the setters,
      the filter of [STREAM_LOG_CALL], the lines on std::cout; [LogTime]: the time in them.
    - [ExampleUri], [ExampleHttp] (example/http/example_pool.cpp, example_connector.cpp): the
      regular expression for URLs with a backtracking matcher, [main], and the process: its
      threads interleaved, their joins, and [std::terminate] when an exception leaves one.

    ** How the code is represented

    A [std::size_t] or address is a [Z] modulo 2^64, a duration or time point a [Z] modulo
    2^64 with sign ([+u], [+i] and the like wrap); [boost::asio]'s timer saturates
    instead, by the law of [AsioTimer].  A function that may throw returns an [outcome], a
    blocking one an [io_result], whose [IoBlocked] is a call that waits for an event that
    never comes.  A null [unique_ptr] is [None].  The clock is read where the code reads it.
    Threads are steps of a relation, one per critical section.  A wait on a mutex or condition
    variable is a function of an environment that says when the mutex was free and what was
    under it.

    ** What the theorems show

    - Deadlines: a transfer returns when its operation completes, reports [timed_out]
      exactly when the wait handler saw the deadline first, then closes the socket, and
      leaves nothing armed; no timeout is applied when the I/O timeout is disabled; the
      constructor's and the resolver's outcomes case by case.  The retry after [try_again]
      has no deadline, and on Linux it is dead code.
    - TLS: what [send] puts on the wire and [receive] leaves in the buffer, where they are
      right and where not; a deadline covers every call of an operation, closes the
      connection exactly when one of them sees it reached and is not left armed; the I/O
      timeout mode is restored, except after a short timeout; the steps of the constructor
      and which one's error it throws; when [close] closes.
    - HTTP: the request is sent completely and exactly once, the parser is fed the peer's
      bytes in order without gaps; both loops end, unless the parser comes to take nothing of
      a full buffer ([parser_stalls]), on which the loop of [recv_response] spins
      ([recv_response_spins]): its [buffer_overflow] is dead code.  Over TCP and over TLS an
      exchange on a connection that works in time returns the response the peer sent; a
      session is ready for the next exchange after any number of them.
    - Connector: no session without an error code, sessions come from resolved endpoints, no
      request to resolve is lost, what a failed call waits for; what the functions return
      the transition system can do; under fair scheduling every request is served and every
      call returns.
    - Moves: nothing is leaked or owned twice; when a move assignment is undefined.
    - Pool: refinement of the abstract queue, ownership of the sessions, bound on their number,
      first in first out and eviction of the oldest, the filling by the greedy strategy,
      the back-off of the conservative one, shutdown; no wake-up of a waiting call is lost,
      unless another one waits in [is_connected], all of them return, and the functions are
      runs of them. With its connector: every session is one to a resolved endpoint, the
      connector outlives its callers; under fair scheduling the watcher completes round after
      round as long as the pool lives, each with the refill its vacant places call for; while
      connecting and appending succeed, a round of the greedy strategy fills the pool but for
      what clients take during it; and the destructor of the whole terminates.
    - Allocator: disjoint blocks, until a request that wraps around the address space is
      granted, and when that happens; reference counts.
    - Logger: what a history of messages, loggers and levels logs; the time a line claims.
    - Examples: the URLs that are read, stated without the expression, and their parts; a
      printed URL is read back; what [main] and the threads of the process do on every path.

    ** Fuel and bounds

    [transfer] gives its loop one unit of fuel more than there are events; each attempt uses
    one ([transfer_loop_fuel]).  The loops of TLS and HTTP take their fuel as an argument:
    the HTTP theorems show that the bytes of the request, and twice those of the peer and
    two, bound it ([exchange_fuel]), unless the parser stalls on a full buffer, which less
    than 11 MiB from the peer cannot make it do; the TLS [send] does run out of any fuel
    ([ssl_send_never_returns]).  Matching is structural on
    the expression.  Liveness is about infinite executions in which every thread is scheduled
    fairly: weakly, but strongly where it competes for a mutex; the proofs are by measures
    that a step of the thread in question reduces and no step of another adds to.  Clock
    readings are assumed short of the end of the clock's range ([clock_ok]), pool sizes
    below 2^64 - 2; the years of log lines have four digits.

    ** Not modelled

    Accessors that only return a reference to a layer, options and endpoints beyond passing
    them to asio, the creation of threads failing, numbers [std::atoi] overflows on, and what
    asio, OpenSSL, Beast and the operating system do inside: they are classes whose laws
    state the documented behaviour used, each with a concrete instance.  The generator of
    [shuffle_vector] is any permutation.  The tests and the build files carry no logic of
    the library. *)

From Stdlib Require Export ZArith Lia.
From stdpp Require Export base tactics option list gmap strings numbers sorting.

#[export] Set Default Goal Selector "!".

Declare Scope sc_scope.
Delimit Scope sc_scope with sc.
Open Scope Z_scope.

(** ** Machine integers

    [std::size_t] and [unsigned long] are 64-bit unsigned, the tick count of a
    [std::chrono::steady_clock] duration or time point is a 64-bit signed
    integer of nanoseconds. *)

Definition u64 (z : Z) : Z := z mod 2 ^ 64.

Definition i64 (z : Z) : Z := (z + 2 ^ 63) mod 2 ^ 64 - 2 ^ 63.

Definition u64_max : Z := 2 ^ 64 - 1.

Definition i64_max : Z := 2 ^ 63 - 1.

Notation "a +u b" := (u64 (a + b)) (at level 50, left associativity) : sc_scope.
Notation "a -u b" := (u64 (a - b)) (at level 50, left associativity) : sc_scope.
Notation "a *u b" := (u64 (a * b)) (at level 40, left associativity) : sc_scope.
Notation "a +i b" := (i64 (a + b)) (at level 50, left associativity) : sc_scope.
Notation "a -i b" := (i64 (a - b)) (at level 50, left associativity) : sc_scope.

(** ** Reachability in a transition system *)

Section Reach.
Context {St : Type} (init : St → Prop) (step : St → St → Prop).

Inductive reachable : St → Prop :=
| reach_init s : init s → reachable s
| reach_step s s' : reachable s → step s s' → reachable s'.

Definition invariant (I : St → Prop) : Prop := ∀ s, reachable s → I s.

Definition inductive_invariant (I : St → Prop) : Prop :=
  (∀ s, init s → I s) ∧ (∀ s s', I s → step s s' → I s').

End Reach.

(** ** Hint databases and tactics of the library *)

Create HintDb timed discriminated.

(** Booleans of the executable definitions to propositions. *)
Ltac bool_prop :=
  repeat match goal with
  | H : _ && _ = true |- _ => apply andb_prop in H as [? ?]
  | H : (_ <=? _) = true |- _ => apply Z.leb_le in H
  | H : (_ <=? _) = false |- _ => apply Z.leb_gt in H
  | H : (_ <? _) = true |- _ => apply Z.ltb_lt in H
  | H : (_ <? _) = false |- _ => apply Z.ltb_ge in H
  | H : (_ =? _) = true |- _ => apply Z.eqb_eq in H
  | H : (_ =? _) = false |- _ => apply Z.eqb_neq in H
  | H : negb _ = true |- _ => apply negb_true_iff in H
  | H : negb _ = false |- _ => apply negb_false_iff in H
  end.

(** ** Lemmas on machine integers *)

Lemma u64_range z : 0 ≤ u64 z < 2 ^ 64.
Proof. unfold u64. apply Z.mod_pos_bound. lia. Qed.

Lemma u64_id z : 0 ≤ z < 2 ^ 64 → u64 z = z.
Proof. intros. unfold u64. by apply Z.mod_small. Qed.

Lemma u64_idem z : u64 (u64 z) = u64 z.
Proof. unfold u64. by rewrite Z.mod_mod. Qed.

Lemma u64_add_l a b : u64 (u64 a + b) = u64 (a + b).
Proof. unfold u64. by rewrite Zplus_mod_idemp_l. Qed.

Lemma u64_wrap z k : u64 (z + k * 2 ^ 64) = u64 z.
Proof. unfold u64. by rewrite Z_mod_plus_full. Qed.

Lemma i64_range z : - 2 ^ 63 ≤ i64 z < 2 ^ 63.
Proof.
  unfold i64. pose proof (Z.mod_pos_bound (z + 2 ^ 63) (2 ^ 64)). lia.
Qed.

Lemma i64_id z : - 2 ^ 63 ≤ z < 2 ^ 63 → i64 z = z.
Proof. intros. unfold i64. rewrite Z.mod_small; lia. Qed.

Lemma i64_over z : 2 ^ 63 ≤ z < 2 ^ 64 + 2 ^ 63 → i64 z = z - 2 ^ 64.
Proof.
  intros. unfold i64.
  replace (z + 2 ^ 63) with (z - 2 ^ 63 + 1 * 2 ^ 64) by lia.
  rewrite Z_mod_plus_full, Z.mod_small; lia.
Qed.

(** ** Lemmas on reachability *)

Lemma inductive_invariant_holds {St} (init : St → Prop) (step : St → St → Prop) (I : St → Prop) :
  inductive_invariant init step I → invariant init step I.
Proof. intros [Hi Hs] s Hr. induction Hr; eauto. Qed.

(** What every step keeps, a sequence of steps keeps. *)
Lemma rtc_keeps {A} (R : relation A) (P : A → Prop) x y :
  (∀ x y, P x → R x y → P y) → P x → rtc R x y → P y.
Proof. intros Hk Hx Hr. induction Hr; eauto. Qed.

Lemma reachable_steps {St} (init : St → Prop) (step : St → St → Prop) s s' :
  reachable init step s → rtc step s s' → reachable init step s'.
Proof. intros Hr Hs. induction Hs; eauto using reach_step. Qed.

(** ** Lemmas on lists *)

Lemma filter_all {A} (P : A → Prop) `{∀ x, Decision (P x)} (l : list A) :
  Forall P l → filter P l = l.
Proof.
  induction 1 as [|x l Hx _ IH]; [done|].
  rewrite filter_cons_True by done. by rewrite IH.
Qed.

Lemma filter_none {A} (P : A → Prop) `{∀ x, Decision (P x)} (l : list A) :
  Forall (λ x, ¬ P x) l → filter P l = [].
Proof.
  induction 1 as [|x l Hx _ IH]; [done|].
  by rewrite filter_cons_False.
Qed.
