(* ===== verification/Fairness.v ===== *)
(** * Executions and fairness

    Infinite executions of a transition system as functions of time, with stuttering; weak
    and strong fairness of an action (a set of steps, usually those of one thread); and the
    rules the liveness theorems of the components apply: what a fair execution cannot
    do is stay for ever where an action that would change it is enabled. *)

From S2P Require Import Prelude.
From Stdlib Require Import Classical_Prop.

Section Executions.
Context {A : Type} (step : relation A).
Implicit Types (e : nat → A) (act : relation A).

(** Nothing happens at some instants; a step of the system at the others. *)
Definition execution e : Prop := ∀ n : nat, e (S n) = e n ∨ step (e n) (e (S n)).

Definition enabled act (s : A) : Prop := ∃ s', act s s'.

(** An action that is enabled from some time on is taken some time after. *)
Definition weakly_fair act e : Prop :=
  ∀ n : nat, (∀ m : nat, (n ≤ m)%nat → enabled act (e m)) → ∃ m : nat, (n ≤ m)%nat ∧ act (e m) (e (S m)).

(** An action that is enabled again and again is taken some time after. *)
Definition strongly_fair act e : Prop :=
  ∀ n : nat, (∀ k : nat, (n ≤ k)%nat → ∃ m : nat, (k ≤ m)%nat ∧ enabled act (e m)) →
    ∃ m : nat, (n ≤ m)%nat ∧ act (e m) (e (S m)).

Lemma strongly_weakly_fair act e : strongly_fair act e → weakly_fair act e.
Proof. intros Hf n He. apply Hf. intros k Hk. exists k. split; [done|by apply He]. Qed.

(** Whether an execution is fair is decided by any tail of it. *)
Lemma weakly_fair_tail act e d : weakly_fair act (λ k, e (d + k)%nat) → weakly_fair act e.
Proof.
  intros Hf n He. destruct (Hf n) as (m & Hm & Ha); [intros m Hm; apply He; lia|].
  exists (d + m)%nat. split; [lia|]. by rewrite <- Nat.add_succ_r.
Qed.

Lemma strongly_fair_tail act e d : strongly_fair act (λ k, e (d + k)%nat) → strongly_fair act e.
Proof.
  intros Hf n He. destruct (Hf n) as (m & Hm & Ha).
  - intros k Hk. destruct (He (d + k)%nat) as (m & Hm & Ha); [lia|]. exists (m - d)%nat. split; [lia|].
    by replace (d + (m - d))%nat with m by lia.
  - exists (d + m)%nat. split; [lia|]. by rewrite <- Nat.add_succ_r.
Qed.

(** ** Rules *)

(** What the steps preserve holds from then on. *)
Lemma execution_keeps e (P : A → Prop) n :
  execution e → (∀ s s', P s → step s s' → P s') → P (e n) → ∀ m, (n ≤ m)%nat → P (e m).
Proof.
  intros He Hk Hn m Hle. induction Hle as [|m Hle IH]; [done|].
  destruct (He m) as [E|Hs]; [by rewrite E|by eapply Hk].
Qed.

(** The states of an execution are reachable when the first one is. *)
Lemma execution_reachable (init : A → Prop) e n :
  execution e → reachable init step (e 0%nat) → reachable init step (e n).
Proof.
  intros He Hr. apply (execution_keeps e _ 0 He); [|done|lia]. intros s s' Hs Hst. by eapply reach_step.
Qed.

(** What each step keeps or leaves for [Q], once it has been left, was left for [Q]; it
    held until then. *)
Lemma execution_until e (P Q : A → Prop) n m :
  execution e → (n ≤ m)%nat →
  (∀ i, (n ≤ i < m)%nat → P (e i) → step (e i) (e (S i)) → P (e (S i)) ∨ Q (e (S i))) →
  P (e n) → ¬ P (e m) → ∃ j, (n < j ≤ m)%nat ∧ Q (e j) ∧ ∀ i, (n ≤ i < j)%nat → P (e i).
Proof.
  intros He Hle. remember (m - n)%nat as d eqn:Ed. revert n Hle Ed.
  induction d as [|d IH]; intros n Hle Ed Hk Hn Hm; [by replace m with n in Hm by lia|].
  assert (Hs : P (e (S n)) ∨ Q (e (S n))).
  { destruct (He n) as [E|Hs]; [rewrite E; by left|apply Hk; [lia|done..]]. }
  destruct Hs as [Hp|Hq].
  - destruct (IH (S n)) as (j & Hj & Hq & Hb); [lia|lia|intros i ?; apply Hk; lia|done..|].
    exists j. split; [lia|]. split; [done|]. intros i Hi.
    destruct (decide (i = n)) as [->|]; [done|]. apply Hb. lia.
  - exists (S n). split; [lia|]. split; [done|]. intros i Hi. by replace i with n by lia.
Qed.

(** The rule for termination: short of the target no step adds to the measure, and nowhere
    can it stay the same for ever; then the target is reached. *)
Lemma fair_descent e (P T : A → Prop) (μ : A → nat) n :
  execution e → (∀ s s', P s → ¬ T s → step s s' → P s' ∧ (μ s' ≤ μ s)%nat) → P (e n) →
  (∀ k, (∀ m, (k ≤ m)%nat → P (e m) ∧ μ (e m) = μ (e k) ∧ ¬ T (e m)) → False) →
  ∃ m, (n ≤ m)%nat ∧ T (e m).
Proof.
  intros He Hk Hn Hstuck. remember (μ (e n)) as w eqn:Ew. revert n Hn Ew.
  induction (lt_wf w) as [w _ IH]. intros n Hn ->.
  destruct (classic (∃ m, (n ≤ m)%nat ∧ T (e m))) as [?|Hno]; [done|].
  assert (Hd : ∀ m, (n ≤ m)%nat → P (e m) ∧ (μ (e m) ≤ μ (e n))%nat ∧ ¬ T (e m)).
  { intros m Hle. assert (Hnt : ∀ m, (n ≤ m)%nat → ¬ T (e m)) by (intros j Hj Ht; apply Hno; by exists j).
    induction Hle as [|m Hle (IH1 & IH2 & _)]; [by split_and!; [..|apply Hnt]|].
    destruct (He m) as [E|Hs]; [by rewrite E; split_and!; [..|apply Hnt]|].
    destruct (Hk _ _ IH1 (Hnt m Hle) Hs). split_and!; [done|lia|apply Hnt; lia]. }
  destruct (classic (∃ m, (n ≤ m)%nat ∧ (μ (e m) < μ (e n))%nat)) as [(m & Hm & Hlt)|Hc].
  - destruct (IH _ Hlt m (proj1 (Hd m Hm)) eq_refl) as (m' & ? & ?). exists m'. split; [lia|done].
  - exfalso. apply (Hstuck n). intros m Hm. destruct (Hd m Hm) as (Hp & Hle & Hnt). split_and!; [done| |done].
    destruct (decide (μ (e m) = μ (e n))); [done|]. exfalso. apply Hc. exists m. split; [done|lia].
Qed.

(** The rule for one action, along an execution: [P] leads to [Q] when from time [n] on [P] is
    only left for [Q], the action is enabled wherever [P] holds, and it leaves [P]. *)
Lemma fair_leads_to_at e (P Q : A → Prop) act n :
  execution e → weakly_fair act e →
  (∀ m, (n ≤ m)%nat → P (e m) → step (e m) (e (S m)) → P (e (S m)) ∨ Q (e (S m))) →
  (∀ m, (n ≤ m)%nat → P (e m) → enabled act (e m)) →
  (∀ m, (n ≤ m)%nat → P (e m) → act (e m) (e (S m)) → Q (e (S m))) →
  P (e n) → ∃ m, (n ≤ m)%nat ∧ Q (e m).
Proof.
  intros He Hf Hk Hen Hact Hn. apply NNPP. intros Hno.
  assert (Hp : ∀ m, (n ≤ m)%nat → P (e m)).
  { intros m Hle. induction Hle as [|m Hle IH]; [done|].
    destruct (He m) as [E|Hs]; [by rewrite E|]. destruct (Hk m Hle IH Hs) as [?|Hq]; [done|].
    exfalso. apply Hno. exists (S m). split; [lia|done]. }
  destruct (Hf n) as (m & Hm & Ha); [intros m Hm; by apply Hen, Hp|].
  apply Hno. exists (S m). split; [lia|]. apply Hact; [done|by apply Hp|done].
Qed.

(** The same with conditions on all states. *)
Lemma fair_leads_to e (P Q : A → Prop) act n :
  execution e → weakly_fair act e →
  (∀ s s', P s → step s s' → P s' ∨ Q s') → (∀ s, P s → enabled act s) →
  (∀ s s', P s → act s s' → Q s') →
  P (e n) → ∃ m, (n ≤ m)%nat ∧ Q (e m).
Proof. intros He Hf Hk Hen Hact. apply fair_leads_to_at with act; eauto. Qed.

End Executions.
