(* ===== verification/ErrorCode.v ===== *)
(** * Error codes, exceptions and results

    [boost::system::error_code] as the sources use it: a category and a value,
    compared on both.  The values of the platform's errno constants are a
    parameter: POSIX lets [EAGAIN] and [EWOULDBLOCK] coincide (they do on Linux)
    and the retry loops of the sockets depend on that. *)

From S2P Require Import Prelude.

Inductive category :=
| cat_system      (** [boost::system::system_category] *)
| cat_misc        (** [boost::asio::error::get_misc_category] *)
| cat_ssl         (** [boost::asio::error::get_ssl_category] *)
| cat_ssl_stream  (** the category of [boost::asio::ssl::error::stream_errors] *)
| cat_http.       (** [boost::beast::http] errors *)

Record error_code := mk_ec { ec_cat : category; ec_value : Z }.

#[export] Instance category_eq_dec : EqDecision category.
Proof. solve_decision. Defined.

#[export] Instance error_code_eq_dec : EqDecision error_code.
Proof. solve_decision. Defined.

(** [explicit operator bool]: an error is a non-zero value, whatever its category. *)
Definition ec_failed (ec : error_code) : bool := negb (ec_value ec =? 0).

(** The value of a default-constructed error code. *)
Definition ec_ok : error_code := mk_ec cat_system 0.

(** The platform's errno values; only [EAGAIN] and [EWOULDBLOCK] may coincide. *)
Class Platform := {
  EWOULDBLOCK : Z;
  EAGAIN : Z;
  ETIMEDOUT : Z;
  ECANCELED : Z;
  ENOTCONN : Z;
  EWOULDBLOCK_nz : EWOULDBLOCK ≠ 0;
  EAGAIN_nz : EAGAIN ≠ 0;
  ETIMEDOUT_nz : ETIMEDOUT ≠ 0;
  ECANCELED_nz : ECANCELED ≠ 0;
  ENOTCONN_nz : ENOTCONN ≠ 0;
  ETIMEDOUT_EWOULDBLOCK : ETIMEDOUT ≠ EWOULDBLOCK;
  ETIMEDOUT_EAGAIN : ETIMEDOUT ≠ EAGAIN;
}.

Section Codes.
Context `{Platform}.

Definition would_block : error_code := mk_ec cat_system EWOULDBLOCK.
Definition try_again : error_code := mk_ec cat_system EAGAIN.
Definition timed_out : error_code := mk_ec cat_system ETIMEDOUT.
Definition operation_aborted : error_code := mk_ec cat_system ECANCELED.
Definition not_connected : error_code := mk_ec cat_system ENOTCONN.

End Codes.

Definition asio_eof : error_code := mk_ec cat_misc 2.
Definition not_found : error_code := mk_ec cat_misc 3.

(** [boost::system::system_error]: the code and the message given at the throw. *)
Record system_error := mk_se { se_code : error_code; se_what : string }.

(** What a function returns: a value or an exception in flight. *)
Inductive outcome (A : Type) :=
| Normal (a : A)
| Throw (e : system_error).
Arguments Normal {A} a.
Arguments Throw {A} e.

(** What a blocking call does with the handlers the io_service has run for it: it
    returns, with [ec] set and a value; it throws; or it is still waiting. *)
Inductive io_result (A : Type) :=
| IoDone (ec : error_code) (a : A)
| IoThrow (e : system_error)
| IoBlocked.
Arguments IoDone {A} ec a.
Arguments IoThrow {A} e.
Arguments IoBlocked {A}.

(** The throwing overload every [error_code&] call has:
    [if (ec) throw system_error{ec, what}; return value]. *)
Definition throw_on_error {A} (what : string) (r : io_result A) : io_result A :=
  match r with
  | IoDone ec a => if ec_failed ec then IoThrow (mk_se ec what) else r
  | _ => r
  end.

(** Linux: [EAGAIN = EWOULDBLOCK = 11]. *)
#[export, program] Instance linux : Platform := {|
  EWOULDBLOCK := 11; EAGAIN := 11; ETIMEDOUT := 110; ECANCELED := 125; ENOTCONN := 107
|}.
Solve Obligations with done.

(** Windows sockets: [WSAEWOULDBLOCK] and [ERROR_RETRY] differ. *)
#[program] Definition windows : Platform := {|
  EWOULDBLOCK := 10035; EAGAIN := 1237; ETIMEDOUT := 10060; ECANCELED := 995; ENOTCONN := 10057
|}.
Solve Obligations with done.

Lemma ec_failed_true ec : ec_failed ec = true ↔ ec_value ec ≠ 0.
Proof. unfold ec_failed. rewrite negb_true_iff. apply Z.eqb_neq. Qed.

Section CodeLemmas.
Context `{Platform}.

Lemma timed_out_failed : ec_failed timed_out = true.
Proof. apply ec_failed_true. apply ETIMEDOUT_nz. Qed.

Lemma timed_out_not_would_block : timed_out ≠ would_block.
Proof. intros [=]. by apply ETIMEDOUT_EWOULDBLOCK. Qed.

Lemma timed_out_not_try_again : timed_out ≠ try_again.
Proof. intros [=]. by apply ETIMEDOUT_EAGAIN. Qed.

Lemma operation_aborted_failed : ec_failed operation_aborted = true.
Proof. apply ec_failed_true. apply ECANCELED_nz. Qed.

Lemma ok_not_would_block : ec_ok ≠ would_block.
Proof. intros [= Heq]. by apply EWOULDBLOCK_nz. Qed.

End CodeLemmas.

#[export] Hint Resolve timed_out_not_would_block timed_out_not_try_again ok_not_would_block : timed.

