(* ===== verification/TimedBase.v ===== *)
(** * [detail::timed_base]: the deadline timer every blocking object owns

    Models detail/timed_base.hpp: the RAII class [expiration], the timer, the flag
    [deadline_fired_] and the self-reposting wait handler [check_deadline].  The
    derived class is a parameter, through the virtual [deadline_actor]. *)

From S2P Require Import Prelude ErrorCode.
Open Scope sc_scope.

(** The duration constants, in clock ticks (nanoseconds). *)
Definition kInfiniteDuration : Z := i64_max.
Definition kZeroDuration : Z := 0.
Definition kDurationResolution : Z := 1000.
Definition kMinTimeout : Z := 2 * kDurationResolution.

(** [time_point::max()]. *)
Definition time_point_max : Z := i64_max.

(** [boost::asio::basic_waitable_timer::expires_from_now] adds a duration to the
    clock; asio's time traits saturate at the end of the clock's range. *)
Class AsioTimer := {
  timer_add : Z → Z → Z;
  timer_add_saturates now d :
    0 ≤ now ≤ time_point_max → 0 ≤ d → timer_add now d = Z.min time_point_max (now + d)
}.

#[export, program] Instance asio_saturating_timer : AsioTimer := {|
  timer_add now d := Z.min time_point_max (now + d)
|}.
Solve Obligations with done.

(** The interface of the derived class: the virtual [deadline_actor() = 0]. *)
Class TimedDerived (D : Type) := deadline_actor : D → D.

(** [Time] of the template functions: a duration or a time point. *)
Inductive timeout_or_deadline :=
| Timeout (duration : Z)
| Deadline (deadline : Z).

(** The members of [timed_base]: the flag, the timer's expiry, the wait handlers
    outstanding on it, and whether the io_service has been stopped. *)
Record timed_base := mk_timed_base {
  deadline_fired_ : bool;
  timer_expiry : Z;
  timer_waits : nat;
  io_stopped : bool
}.

(** An object of a class derived from [timed_base], with the reading of the clock. *)
Record timed (D : Type) := mk_timed { base : timed_base; self : D; now : Z }.
Arguments mk_timed {D} base self now.
Arguments base {D} t.
Arguments self {D} t.
Arguments now {D} t.

(** [expiration]: [timer_] is null or the object's timer. *)
Record expiration := mk_expiration { exp_timer : bool }.

Section TimedBase.
Context {D : Type} `{TimedDerived D, tm : AsioTimer, pl : Platform}.

Definition set_base (f : timed_base → timed_base) (w : timed D) : timed D :=
  mk_timed (f (base w)) (self w) (now w).

Definition set_self (f : D → D) (w : timed D) : timed D :=
  mk_timed (base w) (f (self w)) (now w).

Definition set_fired (b : bool) (w : timed D) : timed D :=
  set_base (λ t, mk_timed_base b (timer_expiry t) (timer_waits t) (io_stopped t)) w.

Definition expires_at (t : Z) (w : timed D) : timed D :=
  set_base (λ b, mk_timed_base (deadline_fired_ b) t (timer_waits b) (io_stopped b)) w.

Definition expires_from_now (d : Z) (w : timed D) : timed D :=
  expires_at (timer_add (now w) d) w.

(** Time passes; the steady clock never goes back. *)
Definition advance (t : Z) (w : timed D) : timed D :=
  mk_timed (base w) (self w) (Z.max (now w) t).

(** [expiration(timer_type* timer = nullptr)]. *)
Definition expiration_ptr (timer : bool) : expiration := mk_expiration timer.

(** [~expiration()]. *)
Definition expiration_dtor (e : expiration) (w : timed D) : timed D :=
  if exp_timer e then expires_from_now kInfiniteDuration w else w.

(** [expiration(timer, duration)].  The constructor delegates, so when its body throws
    the object is already complete and its destructor runs. *)
Definition expiration_duration (timer : bool) (duration : Z) (w : timed D)
    : timed D * outcome expiration :=
  let e := expiration_ptr timer in
  if duration <? kDurationResolution then
    (expiration_dtor e w, Throw (mk_se timed_out ""))
  else if duration =? kInfiniteDuration then
    (w, Normal (mk_expiration false))
  else
    (if exp_timer e then expires_from_now duration w else w, Normal e).

(** [expiration(timer, deadline)]. *)
Definition expiration_deadline (timer : bool) (deadline : Z) (w : timed D)
    : timed D * outcome expiration :=
  let e := expiration_ptr timer in
  (if exp_timer e then expires_at deadline w else w, Normal e).

(** [operator=(expiration&& other)]: (this, other) after the move; the expiration that
    [this] held before is overwritten without being reset. *)
Definition expiration_move_assign (this other : expiration) : expiration * expiration :=
  (mk_expiration (exp_timer other), mk_expiration false).

(** [scope_expire(timeout_or_deadline)]. *)
Definition scope_expire (t : timeout_or_deadline) (w : timed D)
    : timed D * outcome expiration :=
  let w := set_fired false w in
  match t with
  | Timeout d => expiration_duration true d w
  | Deadline p => expiration_deadline true p w
  end.

(** [post_deadline()]: one more wait handler is outstanding. *)
Definition post_deadline (w : timed D) : timed D :=
  set_base (λ b, mk_timed_base (deadline_fired_ b) (timer_expiry b) (S (timer_waits b)) (io_stopped b)) w.

(** [timed_base()], for a derived part [d] constructed at clock reading [t]. *)
Definition timed_base_ctor (d : D) (t : Z) : timed D :=
  let w := mk_timed (mk_timed_base false 0 0 false) d t in
  post_deadline (expires_from_now kInfiniteDuration w).

(** [~timed_base()]. *)
Definition timed_base_dtor (w : timed D) : timed D :=
  set_base (λ b, mk_timed_base (deadline_fired_ b) (timer_expiry b) (timer_waits b) true) w.

(** [check_deadline(ec)]. *)
Definition check_deadline (w : timed D) : timed D :=
  let w :=
    if timer_expiry (base w) <=? now w then
      expires_from_now kInfiniteDuration (set_fired true (set_self deadline_actor w))
    else w in
  post_deadline w.

(** The io_service invokes the outstanding wait handler at clock reading [t], because
    the timer expired or because its expiry was changed. *)
Definition run_timer (t : Z) (w : timed D) : timed D :=
  let w := advance t w in
  match timer_waits (base w) with
  | O => w
  | S k =>
      check_deadline
        (set_base (λ b, mk_timed_base (deadline_fired_ b) (timer_expiry b) k (io_stopped b)) w)
  end.

(** [get_io_service().reset()]. *)
Definition io_reset (w : timed D) : timed D :=
  set_base (λ b, mk_timed_base (deadline_fired_ b) (timer_expiry b) (timer_waits b) false) w.

(** The state between operations: no deadline is set and the wait handler is posted. *)
Definition disarmed (w : timed D) : Prop :=
  timer_expiry (base w) = time_point_max ∧ timer_waits (base w) = 1%nat ∧ 0 ≤ now w.

(** The clock reads of a run are within the clock's range, short of its end. *)
Definition clock_ok (t : Z) : Prop := 0 ≤ t < time_point_max.

End TimedBase.

Section Lemmas.
Context {D : Type} `{TimedDerived D, tm : AsioTimer, pl : Platform}.

Lemma timer_add_infinite t : clock_ok t → timer_add t kInfiniteDuration = time_point_max.
Proof.
  intros [??]. rewrite timer_add_saturates; unfold kInfiniteDuration, time_point_max, i64_max in *; lia.
Qed.

Lemma timer_add_exact t d :
  clock_ok t → 0 ≤ d → t + d ≤ time_point_max → timer_add t d = t + d.
Proof. intros [??] ??. rewrite timer_add_saturates; lia. Qed.

Lemma expiration_dtor_disarms e (w : timed D) :
  clock_ok (now w) → timer_waits (base w) = 1%nat →
  exp_timer e = true ∨ timer_expiry (base w) = time_point_max →
  disarmed (expiration_dtor e w).
Proof.
  intros Hc Hw He. pose proof Hc as [??]. unfold expiration_dtor, disarmed.
  destruct (exp_timer e) eqn:E; simpl.
  - rewrite timer_add_infinite by done. done.
  - destruct He as [?|?]; done.
Qed.

(** A duration shorter than the resolution is a time-out at once. *)
Lemma scope_expire_short d (w : timed D) :
  d < kDurationResolution →
  scope_expire (Timeout d) w =
    (expires_from_now kInfiniteDuration (set_fired false w), Throw (mk_se timed_out "")).
Proof.
  intros. unfold scope_expire, expiration_duration.
  by rewrite (proj2 (Z.ltb_lt _ _)).
Qed.

Lemma scope_expire_infinite (w : timed D) :
  scope_expire (Timeout kInfiniteDuration) w = (set_fired false w, Normal (mk_expiration false)).
Proof. done. Qed.

Lemma scope_expire_finite d (w : timed D) :
  kDurationResolution ≤ d → d ≠ kInfiniteDuration →
  scope_expire (Timeout d) w = (expires_from_now d (set_fired false w), Normal (mk_expiration true)).
Proof.
  intros. unfold scope_expire, expiration_duration.
  by rewrite (proj2 (Z.ltb_ge _ _)), (proj2 (Z.eqb_neq _ _)).
Qed.

Lemma scope_expire_deadline p (w : timed D) :
  scope_expire (Deadline p) w = (expires_at p (set_fired false w), Normal (mk_expiration true)).
Proof. done. Qed.

(** Arming touches the flag and the expiry only. *)
Lemma scope_expire_keeps t (w w' : timed D) r :
  scope_expire t w = (w', r) →
  timer_waits (base w') = timer_waits (base w) ∧ now w' = now w ∧ self w' = self w.
Proof.
  unfold scope_expire, expiration_duration, expiration_deadline. destruct t as [d|p]; [|by intros [= <- _]].
  destruct (d <? _); [by intros [= <- _]|]. destruct (d =? _); by intros [= <- _].
Qed.

(** The wait handler is reposted by every run of it: exactly one stays outstanding. *)
Lemma run_timer_waits t (w : timed D) :
  timer_waits (base w) = 1%nat → timer_waits (base (run_timer t w)) = 1%nat.
Proof.
  intros Hw. unfold run_timer; simpl. rewrite Hw.
  unfold check_deadline; simpl. by case_match.
Qed.

Lemma run_timer_early t (w : timed D) :
  timer_waits (base w) = 1%nat → Z.max (now w) t < timer_expiry (base w) →
  run_timer t w = advance t w.
Proof.
  intros Hw Ht. unfold run_timer; simpl. rewrite Hw. unfold check_deadline; simpl.
  rewrite (proj2 (Z.leb_gt _ _)) by lia.
  unfold post_deadline, set_base, advance; simpl. destruct w as [[] ??]; simpl in *. by subst.
Qed.

Lemma run_timer_late t (w : timed D) :
  timer_waits (base w) = 1%nat → timer_expiry (base w) ≤ Z.max (now w) t →
  clock_ok (Z.max (now w) t) →
  run_timer t w =
    mk_timed (mk_timed_base true time_point_max 1 (io_stopped (base w)))
      (deadline_actor (self w)) (Z.max (now w) t).
Proof.
  intros Hw Ht Hc. unfold run_timer; simpl. rewrite Hw. unfold check_deadline; simpl.
  rewrite (proj2 (Z.leb_le _ _)) by lia.
  unfold post_deadline, expires_from_now, expires_at, set_fired, set_self, set_base; simpl.
  by rewrite timer_add_infinite.
Qed.

End Lemmas.

#[export] Hint Resolve run_timer_waits expiration_dtor_disarms : timed.
