(* ===== verification/TimedMove.v ===== *)
(** * Moving objects of [timed_base]

    Models the defaulted move constructor of detail/timed_base.hpp together with the wait
    handler [post_deadline] leaves with the timer: the handler is a lambda that captured
    [this].  Objects live at addresses; the [unique_ptr]s of an object that has been moved
    from are null, and using a null one has no result ([None]).  The second part follows
    what the pointers own through construction, both moves and destruction. *)

From S2P Require Import Prelude ErrorCode TimedBase.
Open Scope sc_scope.

(** The objects alive: the derived part, and what [io_service_] and [timer_] point to,
    unless they are null; the address the posted wait handler has captured; the clock. *)
Record timed_objects (D : Type) := mk_timed_objects {
  object_at : gmap nat (D * option timed_base);
  wait_this : nat;
  objects_now : Z
}.
Arguments mk_timed_objects {D}.
Arguments object_at {D}.
Arguments wait_this {D}.
Arguments objects_now {D}.

Section Move.
Context {D : Type} `{TimedDerived D, tm : AsioTimer, pl : Platform}.
Implicit Types (os : timed_objects D).

(** Constructing an object at address [a]: the handler captures [a]. *)
Definition construct_at (a : nat) (d : D) (t : Z) : timed_objects D :=
  let w := timed_base_ctor d t in
  mk_timed_objects {[a := (self w, Some (base w))]} a (now w).

(** [timed_base(timed_base&& other) = default]: the new object at [a'] takes the pointers of
    the one at [a]; [moved_from] is what the derived part leaves behind. *)
Definition move_ctor (moved_from : D → D) (a a' : nat) os : option (timed_objects D) :=
  '(d, b) ← object_at os !! a;
  Some (mk_timed_objects (<[a' := (d, b)]> (<[a := (moved_from d, None)]> (object_at os)))
          (wait_this os) (objects_now os)).

(** The io_service runs the wait handler at clock reading [t]: [this->check_deadline(ec)]
    on the captured address; reposting captures the same [this] again. *)
Definition run_wait (t : Z) os : option (timed_objects D) :=
  '(d, b) ← object_at os !! wait_this os;
  b ← b;
  let w := run_timer t (mk_timed b d (objects_now os)) in
  Some (mk_timed_objects (<[wait_this os := (self w, Some (base w))]> (object_at os)) (wait_this os) (now w)).

(** [scope_expire] on the object at [a]. *)
Definition scope_expire_at (a : nat) (t : timeout_or_deadline) os
    : option (timed_objects D * outcome expiration) :=
  '(d, b) ← object_at os !! a;
  b ← b;
  let '(w, r) := scope_expire t (mk_timed b d (objects_now os)) in
  Some (mk_timed_objects (<[a := (self w, Some (base w))]> (object_at os)) (wait_this os) (now w), r).

(** An object that stays where it was constructed has its deadline checked: the run
    of the handler is the [run_timer] of the other files.  Once it has been moved, arming
    a deadline on the new object still works, but the first run of the wait handler, which
    the rearming itself causes, uses the null timer of the old one. *)
Theorem moved_object_loses_its_timer moved_from a a' d t0 :
  a ≠ a' →
  (∀ t, ∃ os, run_wait t (construct_at a d t0) = Some os ∧
     object_at os !! a =
       let w := run_timer t (timed_base_ctor d t0) in Some (self w, Some (base w))) ∧
  (∃ os, move_ctor moved_from a a' (construct_at a d t0) = Some os ∧
     (∀ e, is_Some (scope_expire_at a' e os)) ∧
     (∀ e os' r, scope_expire_at a' e os = Some (os', r) → ∀ t, run_wait t os' = None)).
Proof.
  intros Hne. split.
  - intros t. unfold run_wait, construct_at. cbn [object_at wait_this objects_now].
    rewrite lookup_singleton_eq. eexists. split; [done|]. cbn [object_at]. by rewrite lookup_insert_eq.
  - unfold move_ctor, construct_at. cbn [object_at wait_this objects_now].
    rewrite lookup_singleton_eq. eexists. split; [done|]. unfold scope_expire_at. cbn [object_at objects_now].
    rewrite lookup_insert_eq. cbn [mbind option_bind]. split.
    + intros e. by destruct (scope_expire e _).
    + intros e os' r. destruct (scope_expire e _) as [w r']. intros [= <- _] t.
      unfold run_wait. cbn [object_at wait_this].
      by rewrite !(lookup_insert_ne _ a' a), lookup_insert_eq by done.
Qed.

End Move.

#[export] Instance nat_timed_derived : TimedDerived nat := S.

Lemma moved_object_loses_its_timer_witness :
  ∃ os, move_ctor (λ n, n) 1 2 (construct_at 1 0%nat 100) = Some os ∧
    is_Some (scope_expire_at 2 (Timeout 5000) os).
Proof.
  destruct (moved_object_loses_its_timer (λ n : nat, n) 1 2 0%nat 100) as [_ (os & E & Hs & _)]; [lia|].
  exists os. split; [exact E|apply Hs].
Defined.

(** ** What the objects own

    The two [unique_ptr]s of every object alive, and what they own: the io_services, and the
    timers with the io_service each was built over.  An operation that destroys a timer whose
    io_service is gone calls into freed memory: it has no result ([None]). *)
Record owned := mk_owned { io_service_ : option nat; timer_ : option nat }.

#[export] Instance owned_eq_dec : EqDecision owned.
Proof. solve_decision. Defined.

Record arena := mk_arena {
  services : gset nat;
  timers : gmap nat nat;
  objects : gmap nat owned
}.

Definition null_owned : owned := mk_owned None None.

Definition arena_initial : arena := mk_arena ∅ ∅ ∅.

(** [timed_base()] at address [a]: a new io_service, then a timer over it. *)
Definition owned_ctor (a : nat) (ar : arena) : arena :=
  let n := fresh (services ar ∪ dom (timers ar)) in
  mk_arena ({[n]} ∪ services ar) (<[n := n]> (timers ar)) (<[a := mk_owned (Some n) (Some n)]> (objects ar)).

(** What a [unique_ptr] destroys when it gives up its pointer. *)
Definition destroy_io_service (p : option nat) (ar : arena) : option arena :=
  match p with
  | None => Some ar
  | Some s => guard (s ∈ services ar);; Some (mk_arena (services ar ∖ {[s]}) (timers ar) (objects ar))
  end.

Definition destroy_timer (p : option nat) (ar : arena) : option arena :=
  match p with
  | None => Some ar
  | Some t =>
      s ← timers ar !! t;
      guard (s ∈ services ar);;
      Some (mk_arena (services ar) (delete t (timers ar)) (objects ar))
  end.

(** [~timed_base()]: the members are destroyed in the reverse of their declaration's order. *)
Definition owned_dtor (a : nat) (ar : arena) : option arena :=
  o ← objects ar !! a;
  ar ← destroy_timer (timer_ o) ar;
  ar ← destroy_io_service (io_service_ o) ar;
  Some (mk_arena (services ar) (timers ar) (delete a (objects ar))).

(** [timed_base(timed_base&& other) = default] at [a'] from the object at [a]. *)
Definition owned_move_ctor (a a' : nat) (ar : arena) : option arena :=
  o ← objects ar !! a;
  Some (mk_arena (services ar) (timers ar) (<[a' := o]> (<[a := null_owned]> (objects ar)))).

(** [unique_ptr::operator=(unique_ptr&&)] on one member: the source is released, the target
    takes the pointer, what the target held is destroyed. *)
Definition assign_io_service (a a' : nat) (ar : arena) : option arena :=
  src ← objects ar !! a;
  let objs := <[a := mk_owned None (timer_ src)]> (objects ar) in
  dst ← objs !! a';
  destroy_io_service (io_service_ dst)
    (mk_arena (services ar) (timers ar) (<[a' := mk_owned (io_service_ src) (timer_ dst)]> objs)).

Definition assign_timer (a a' : nat) (ar : arena) : option arena :=
  src ← objects ar !! a;
  let objs := <[a := mk_owned (io_service_ src) None]> (objects ar) in
  dst ← objs !! a';
  destroy_timer (timer_ dst)
    (mk_arena (services ar) (timers ar) (<[a' := mk_owned (io_service_ dst) (timer_ src)]> objs)).

(** [operator=(timed_base&& other) = default], from the object at [a] to the one at [a']:
    the members in the order of their declaration. *)
Definition owned_move_assign (a a' : nat) (ar : arena) : option arena :=
  ar ← assign_io_service a a' ar; assign_timer a a' ar.

(** The arenas a program can come to without running into undefined behaviour. *)
Inductive arena_step : arena → arena → Prop :=
| step_ctor a ar : objects ar !! a = None → arena_step ar (owned_ctor a ar)
| step_dtor a ar ar' : owned_dtor a ar = Some ar' → arena_step ar ar'
| step_move_ctor a a' ar ar' :
    objects ar !! a' = None → owned_move_ctor a a' ar = Some ar' → arena_step ar ar'
| step_move_assign a a' ar ar' : owned_move_assign a a' ar = Some ar' → arena_step ar ar'.

(** Every object owns an io_service and the timer over it, or nothing; nothing is owned
    twice, and nothing is alive without an owner. *)
Record arena_inv (ar : arena) : Prop := {
  inv_owned a o : objects ar !! a = Some o →
    o = null_owned ∨ ∃ n, o = mk_owned (Some n) (Some n) ∧ n ∈ services ar ∧ timers ar !! n = Some n;
  inv_once a b n : objects ar !! a = Some (mk_owned (Some n) (Some n)) →
    objects ar !! b = Some (mk_owned (Some n) (Some n)) → a = b;
  inv_service n : n ∈ services ar → ∃ a, objects ar !! a = Some (mk_owned (Some n) (Some n));
  inv_timer t s : timers ar !! t = Some s → ∃ a, objects ar !! a = Some (mk_owned (Some t) (Some t))
}.


Section Lifetimes.
Implicit Types (ar : arena) (a b : nat) (o : owned).

Lemma move_assign_self a ar o :
  objects ar !! a = Some o → owned_move_assign a a ar = Some ar.
Proof.
  intros Ho. destruct ar as [ss ts os], o as [p q]; simpl in *.
  unfold owned_move_assign, assign_io_service, assign_timer. cbn [objects services timers io_service_ timer_].
  rewrite Ho; simpl. rewrite lookup_insert_eq; simpl. rewrite insert_insert_eq, lookup_insert_eq; simpl.
  rewrite lookup_insert_eq; simpl. by rewrite !insert_insert_eq, insert_id.
Qed.

(** An object moved to another place, over nothing or over a null object. *)
Lemma transfer_inv a a' ar o :
  arena_inv ar → a ≠ a' → objects ar !! a = Some o →
  objects ar !! a' = None ∨ objects ar !! a' = Some null_owned →
  arena_inv (mk_arena (services ar) (timers ar) (<[a' := o]> (<[a := null_owned]> (objects ar)))).
Proof.
  intros [I1 I2 I3 I4] Hne Ho Ha'.
  assert (Hat : ∀ b n, objects ar !! b = Some (mk_owned (Some n) (Some n)) →
    ∃ b', <[a' := o]> (<[a := null_owned]> (objects ar)) !! b' = Some (mk_owned (Some n) (Some n))).
  { intros b n Hb. destruct (decide (b = a)) as [->|].
    - exists a'. rewrite lookup_insert_eq. congruence.
    - exists b. rewrite !lookup_insert_ne; [done|done|].
      intros <-. rewrite Hb in Ha'. destruct Ha'; discriminate. }
  split; simpl.
  - intros b o'. rewrite !lookup_insert_Some. intros [[_ <-]|[_ [[_ <-]|[_ Hb]]]]; [eauto|by left|eauto].
  - intros b b' n. rewrite !lookup_insert_Some.
    intros [[<- ->]|[? [[_ ?]|[? Hb]]]]; [|done|];
      (intros [[<- Hb2]|[? [[_ ?]|[? Hb2]]]]; [|done|]); try done; subst; eauto;
      exfalso; eauto using I2.
  - intros n Hn. destruct (I3 n Hn) as [b Hb]. eauto.
  - intros t s Ht. destruct (I4 t s Ht) as [b Hb]. eauto.
Qed.

(** Over a null object the assignment is the move; over one that owns its pointers the
    timer it gives up is destroyed after its io_service. *)
Lemma move_assign_other a a' ar src dst :
  arena_inv ar → a ≠ a' → objects ar !! a = Some src → objects ar !! a' = Some dst →
  owned_move_assign a a' ar =
    if decide (dst = null_owned)
    then Some (mk_arena (services ar) (timers ar) (<[a' := src]> (<[a := null_owned]> (objects ar))))
    else None.
Proof.
  intros [I1 _ _ _] Hne Hs Hd. unfold owned_move_assign, assign_io_service, assign_timer.
  rewrite Hs; simpl. rewrite lookup_insert_ne, Hd by done; simpl.
  destruct src as [p q]. destruct (I1 _ _ Hd) as [->|(n & -> & Hn & Ht)]; simpl.
  - rewrite lookup_insert_ne, lookup_insert_eq by done; simpl.
    rewrite lookup_insert_ne, lookup_insert_eq by done; simpl.
    by rewrite (insert_insert_ne _ a a'), !insert_insert_eq by done.
  - rewrite option_guard_True by done; simpl.
    rewrite lookup_insert_ne, lookup_insert_eq by done; simpl.
    rewrite lookup_insert_ne, lookup_insert_eq by done; simpl.
    rewrite Ht; simpl. rewrite option_guard_False; [done|set_solver].
Qed.

Lemma ctor_inv a ar : arena_inv ar → objects ar !! a = None → arena_inv (owned_ctor a ar).
Proof.
  intros [I1 I2 I3 I4] Ha. unfold owned_ctor.
  pose proof (is_fresh (services ar ∪ dom (timers ar))) as Hf.
  set (n := fresh _) in *. apply not_elem_of_union in Hf as [Hs Ht%not_elem_of_dom].
  assert (Hold : ∀ b m, objects ar !! b = Some (mk_owned (Some m) (Some m)) → m ≠ n ∧ b ≠ a).
  { intros b m Hb. split; intros ->; [|congruence].
    destruct (I1 _ _ Hb) as [?|(m' & [= <-] & ? & ?)]; [done|congruence]. }
  split; simpl.
  - intros b o [[<- <-]|[? Hb]]%lookup_insert_Some; [right; exists n; rewrite lookup_insert_eq; set_solver|].
    destruct (I1 _ _ Hb) as [->|(m & -> & ? & ?)]; [by left|right]. exists m.
    destruct (Hold _ _ Hb). rewrite lookup_insert_ne by done. set_solver.
  - intros b b' m [[<- [= <-]]|[? Hb]]%lookup_insert_Some [[<- Hm]|[? Hb']]%lookup_insert_Some;
      [done|by destruct (Hold _ _ Hb')|injection Hm as ->; by destruct (Hold _ _ Hb)|eauto].
  - intros m [->%elem_of_singleton|Hm]%elem_of_union; [exists a; by rewrite lookup_insert_eq|].
    destruct (I3 _ Hm) as [b Hb]. exists b. rewrite lookup_insert_ne; [done|]. by destruct (Hold _ _ Hb).
  - intros t s [[<- <-]|[? Hm]]%lookup_insert_Some; [exists a; by rewrite lookup_insert_eq|].
    destruct (I4 _ _ Hm) as [b Hb]. exists b. rewrite lookup_insert_ne; [done|]. by destruct (Hold _ _ Hb).
Qed.

(** The destructor is always defined: the timer goes before its io_service. *)
Lemma dtor_spec a ar o :
  arena_inv ar → objects ar !! a = Some o →
  ∃ ar', owned_dtor a ar = Some ar' ∧ arena_inv ar' ∧ objects ar' = delete a (objects ar).
Proof.
  intros [I1 I2 I3 I4] Ho. unfold owned_dtor. rewrite Ho; simpl.
  destruct (I1 _ _ Ho) as [->|(n & -> & Hn & Ht)]; simpl.
  - eexists. split; [done|]. split; [|done].
    assert (Hat : ∀ b m, objects ar !! b = Some (mk_owned (Some m) (Some m)) →
      delete a (objects ar) !! b = Some (mk_owned (Some m) (Some m))).
    { intros b m Hb. rewrite lookup_delete_ne; [done|]. intros ->. by rewrite Ho in Hb. }
    split; simpl.
    + intros b o' [_ Hb]%lookup_delete_Some. eauto.
    + intros b b' m [_ Hb]%lookup_delete_Some [_ Hb']%lookup_delete_Some. eauto.
    + intros m Hm. destruct (I3 _ Hm) as [b Hb]. eauto.
    + intros t s Hm. destruct (I4 _ _ Hm) as [b Hb]. eauto.
  - rewrite Ht; simpl. do 2 (rewrite option_guard_True by done; simpl).
    eexists. split; [done|]. split; [|done].
    split; simpl.
    + intros b o' [? Hb]%lookup_delete_Some. destruct (I1 _ _ Hb) as [->|(m & -> & ? & ?)]; [by left|right].
      assert (m ≠ n) by (intros ->; eauto). exists m. rewrite lookup_delete_ne by done. set_solver.
    + intros b b' m [_ Hb]%lookup_delete_Some [_ Hb']%lookup_delete_Some. eauto.
    + intros m [Hm Hne%not_elem_of_singleton]%elem_of_difference. destruct (I3 _ Hm) as [b Hb].
      exists b. rewrite lookup_delete_ne; [done|]. intros ->. congruence.
    + intros t s [? Hm]%lookup_delete_Some. destruct (I4 _ _ Hm) as [b Hb].
      exists b. rewrite lookup_delete_ne; [done|]. intros ->. congruence.
Qed.

Lemma arena_step_inv ar ar' : arena_step ar ar' → arena_inv ar → arena_inv ar'.
Proof.
  intros [a s Ha|a s s' Hd|a a' s s' Ha Hm|a a' s s' Hm] Hi.
  - by apply ctor_inv.
  - destruct (objects s !! a) as [o|] eqn:Ho; [|unfold owned_dtor in Hd; by rewrite Ho in Hd].
    destruct (dtor_spec a s o Hi Ho) as (x & E & ? & _). congruence.
  - unfold owned_move_ctor in Hm. destruct (objects s !! a) as [o|] eqn:Ho; simplify_eq/=.
    apply transfer_inv; [done| |done|by left]. intros ->. congruence.
  - destruct (objects s !! a) as [src|] eqn:Hs.
    2:{ unfold owned_move_assign, assign_io_service in Hm. by rewrite Hs in Hm. }
    destruct (decide (a = a')) as [<-|Hne]; [rewrite (move_assign_self _ _ _ Hs) in Hm; by simplify_eq|].
    destruct (objects s !! a') as [dst|] eqn:Hd.
    2:{ unfold owned_move_assign, assign_io_service in Hm. rewrite Hs in Hm; simpl in Hm.
        by rewrite lookup_insert_ne, Hd in Hm. }
    rewrite (move_assign_other _ _ _ _ _ Hi Hne Hs Hd) in Hm. case_decide; simplify_eq.
    apply transfer_inv; auto.
Qed.

Lemma arena_reachable_inv ar : rtc arena_step arena_initial ar → arena_inv ar.
Proof.
  assert (Hi : arena_inv arena_initial).
  { split; simpl; intros *; rewrite ?lookup_empty; set_solver. }
  induction 1; eauto using arena_step_inv.
Qed.

(** C30: however objects were constructed, moved and destroyed, no io_service or timer is
    leaked or owned twice, destroying an object is safe, its timer going before the
    io_service under it, and moving into a new object is; but the defaulted move assignment
    is only safe on an object that owns nothing any more: on any other it destroys the
    io_service before the timer that uses it. *)
Theorem move_assignment_needs_null_target ar a a' src dst :
  rtc arena_step arena_initial ar → a ≠ a' →
  objects ar !! a = Some src → objects ar !! a' = Some dst →
  is_Some (owned_dtor a ar) ∧
  (owned_move_assign a a' ar = None ↔ io_service_ dst ≠ None) ∧
  (∀ ar', owned_move_assign a a' ar = Some ar' →
     objects ar' !! a = Some null_owned ∧ objects ar' !! a' = Some src ∧
     services ar' = services ar ∧ timers ar' = timers ar) ∧
  (∀ n, n ∈ services ar ↔ ∃ b, objects ar !! b = Some (mk_owned (Some n) (Some n))) ∧
  (∀ n, is_Some (timers ar !! n) ↔ n ∈ services ar).
Proof.
  intros Hi%arena_reachable_inv Hne Hs Hd. pose proof Hi as [I1 I2 I3 I4].
  rewrite (move_assign_other _ _ _ _ _ Hi Hne Hs Hd). split_and!.
  - destruct (dtor_spec a ar src Hi Hs) as (ar' & -> & _). by eexists.
  - destruct (I1 _ _ Hd) as [->|(n & -> & _)]; by case_decide.
  - intros ar'. case_decide; [|done]. intros [= <-]; simpl.
    by rewrite lookup_insert_ne, !lookup_insert_eq.
  - intros n. split; [apply I3|]. intros [b Hb]. by destruct (I1 _ _ Hb) as [|(m & [= <-] & ? & ?)].
  - intros n. split; [intros [s Hn]; destruct (I4 _ _ Hn) as [b Hb]|intros Hn; destruct (I3 _ Hn) as [b Hb]];
      by destruct (I1 _ _ Hb) as [|(m & [= <-] & ? & ?)].
Qed.

End Lifetimes.

(** Two objects constructed one after the other: assigning one to the other is undefined. *)
Lemma move_assignment_needs_null_target_witness :
  owned_move_assign 1 2 (owned_ctor 2 (owned_ctor 1 arena_initial)) = None.
Proof.
  set (ar := owned_ctor 2 (owned_ctor 1 arena_initial)).
  apply (move_assignment_needs_null_target ar 1 2 (mk_owned (Some 0%nat) (Some 0%nat))
    (mk_owned (Some 1%nat) (Some 1%nat))); [|done..].
  eapply rtc_l; [by apply (step_ctor 1)|]. eapply rtc_l; [by apply (step_ctor 2)|]. apply rtc_refl.
Defined.
