(* ===== verification/IoLoop.v ===== *)
(** * The blocking loop over the io_service

    Every blocking call of the library starts one asynchronous operation and then
    runs [while (ec == would_block) get_io_service().run_one();].  The io_service is
    not under src/: the handlers it dispatches, in order, are the input of the model
    (a list of [io_event]), and this file interprets them the way the wait handler
    and the completion lambdas of the sources do. *)

From S2P Require Import Prelude ErrorCode TimedBase.
Open Scope sc_scope.

(** One handler invocation by [run_one()], at a reading of the clock: the wait handler
    of the timer, or the completion of the operation with its arguments. *)
Inductive io_event (P : Type) :=
| EvTimer (t : Z)
| EvOp (t : Z) (err : error_code) (payload : P).
Arguments EvTimer {P} t.
Arguments EvOp {P} t err payload.

Definition event_time {P} (ev : io_event P) : Z :=
  match ev with EvTimer t => t | EvOp t _ _ => t end.

(** The handlers dispatched before the operation completes, and its completion. *)
Fixpoint first_op {P} (evs : list (io_event P))
    : option (list Z * (Z * error_code * P) * list (io_event P)) :=
  match evs with
  | [] => None
  | EvTimer t :: evs =>
      match first_op evs with
      | Some (ts, op, rest) => Some (t :: ts, op, rest)
      | None => None
      end
  | EvOp t err p :: evs => Some ([], (t, err, p), evs)
  end.

Section IoLoop.
Context {D P A : Type} `{TimedDerived D, tm : AsioTimer, pl : Platform}.
Variable acc : A → P → A. (** how the lambda updates the call's local variable *)

(** The completion handler: the lambda stores the payload and the error, reporting a
    time-out when the deadline fired, and its closure then destroys the [expiration]. *)
Definition complete (e : expiration) (err : error_code) (p : P) (w : timed D) (a : A)
    : timed D * error_code * A :=
  let ec := if deadline_fired_ (base w) then timed_out else err in
  (expiration_dtor e w, ec, acc a p).

(** [while (ec == would_block) run_one();] with the completion handler [pend] pending.
    [None]: the events run out and the call is still waiting. *)
Fixpoint run_loop (evs : list (io_event P)) (pend : option expiration) (w : timed D)
    (ec : error_code) (a : A) : option (timed D * error_code * A * list (io_event P)) :=
  if decide (ec = would_block) then
    match evs with
    | [] => None
    | EvTimer t :: evs => run_loop evs pend (run_timer t w) ec a
    | EvOp t err p :: evs =>
        match pend with
        | None => run_loop evs None (advance t w) ec a
        | Some e =>
            let '(w, ec, a) := complete e err p (advance t w) a in
            run_loop evs None w ec a
        end
    end
  else Some (w, ec, a, evs).

End IoLoop.

(** ** What the loop does *)

(** The clock after the events at [ts]. *)
Definition clock_after (t0 : Z) (ts : list Z) : Z := foldl Z.max t0 ts.

(** Whether one of the wait-handler runs at [ts] finds the expiry reached. *)
Definition fires (expiry t0 : Z) (ts : list Z) : bool :=
  existsb (λ t, expiry <=? Z.max t0 t) ts.

Section Lemmas.
Context {D P A : Type} `{TimedDerived D, tm : AsioTimer, pl : Platform}.
Variable acc : A → P → A.

(** The state in which the pending operation completes. *)
Definition after_events (w : timed D) (ts : list Z) (t : Z) : timed D :=
  let f := fires (timer_expiry (base w)) (now w) ts in
  mk_timed
    (mk_timed_base (f || deadline_fired_ (base w))
       (if f then time_point_max else timer_expiry (base w)) 1 (io_stopped (base w)))
    (if f then deadline_actor (self w) else self w)
    (clock_after (now w) (ts ++ [t])).

Lemma fires_never t0 ts :
  clock_ok t0 → Forall clock_ok ts → fires time_point_max t0 ts = false.
Proof.
  intros Hc Hts. unfold fires. induction Hts as [|t ts Ht _ IH]; simpl; [done|].
  rewrite IH, orb_false_r. apply Z.leb_gt. unfold clock_ok in *. lia.
Qed.

Lemma fires_max expiry t0 t ts :
  t0 ≤ t → fires expiry t0 (t :: ts) = (expiry <=? t) || fires expiry t ts.
Proof.
  intros Ht. unfold fires. simpl. rewrite Z.max_r by done.
  destruct (expiry <=? t) eqn:E; simpl; [done|].
  induction ts as [|u ts IH]; simpl; [done|]. rewrite IH. f_equal.
  destruct (expiry <=? Z.max t0 u) eqn:E1, (expiry <=? Z.max t u) eqn:E2; bool_prop; lia.
Qed.

Lemma fires_idle expiry t0 t ts :
  t ≤ t0 → fires expiry t0 (t :: ts) = (expiry <=? t0) || fires expiry t0 ts.
Proof. intros Ht. unfold fires. simpl. by rewrite Z.max_l by done. Qed.

Lemma fires_step expiry t0 t ts :
  fires expiry t0 (t :: ts) = (expiry <=? Z.max t0 t) || fires expiry (Z.max t0 t) ts.
Proof.
  destruct (Z.le_ge_cases t0 t).
  - rewrite Z.max_r by done. by apply fires_max.
  - rewrite Z.max_l by done. by apply fires_idle.
Qed.

Lemma clock_ok_max t0 t : clock_ok t0 → clock_ok t → clock_ok (Z.max t0 t).
Proof. unfold clock_ok. lia. Qed.

Lemma clock_after_ok t0 ts : clock_ok t0 → Forall clock_ok ts → clock_ok (clock_after t0 ts).
Proof.
  intros Hc Hts. revert t0 Hc. induction Hts as [|t ts ? _ IH]; intros t0 ?; simpl; [done|].
  unfold clock_after in *. simpl. apply IH. by apply clock_ok_max.
Qed.

Lemma first_op_times (evs : list (io_event P)) ts op rest :
  first_op evs = Some (ts, op, rest) →
  Forall (λ ev, clock_ok (event_time ev)) evs →
  Forall clock_ok ts ∧ clock_ok op.1.1.
Proof.
  revert ts. induction evs as [|[t|t err p] evs IH]; simpl; intros ts He Hf; [done| |].
  - destruct (first_op evs) as [[[ts' op'] rest']|] eqn:E; [|done].
    simplify_eq. inversion Hf; subst; simpl in *. destruct (IH ts') as [??]; auto.
  - simplify_eq. inversion Hf; subst. simpl. auto.
Qed.

Lemma first_op_rest (evs : list (io_event P)) ts op rest :
  first_op evs = Some (ts, op, rest) →
  Forall (λ ev, clock_ok (event_time ev)) evs →
  Forall (λ ev, clock_ok (event_time ev)) rest.
Proof.
  revert ts. induction evs as [|[t|t err p] evs IH]; simpl; intros ts He Hf; [done| |].
  - destruct (first_op evs) as [[[ts' op'] rest']|] eqn:E; [|done].
    simplify_eq. inversion Hf; subst. eauto.
  - simplify_eq. by inversion Hf.
Qed.

(** Running the wait handler first and the rest after is running them all. *)
Lemma after_events_cons (w : timed D) u ts t :
  timer_waits (base w) = 1%nat → clock_ok (now w) → clock_ok u → Forall clock_ok ts →
  after_events (run_timer u w) ts t = after_events w (u :: ts) t.
Proof.
  intros Hw Hc Hu Hts. unfold after_events. rewrite fires_step.
  destruct (timer_expiry (base w) <=? Z.max (now w) u) eqn:E; bool_prop.
  - rewrite run_timer_late by auto using clock_ok_max. simpl.
    rewrite fires_never by auto using clock_ok_max. done.
  - rewrite run_timer_early by auto. done.
Qed.

Lemma run_timer_clock u (w : timed D) :
  timer_waits (base w) = 1%nat → clock_ok (now w) → clock_ok u → clock_ok (now (run_timer u w)).
Proof.
  intros. destruct (timer_expiry (base w) <=? Z.max (now w) u) eqn:E; bool_prop.
  - rewrite run_timer_late by auto using clock_ok_max. simpl. by apply clock_ok_max.
  - rewrite run_timer_early by auto. simpl. by apply clock_ok_max.
Qed.

Lemma advance_after_events t (w : timed D) :
  timer_waits (base w) = 1%nat → advance t w = after_events w [] t.
Proof.
  intros. unfold after_events, advance, clock_after; simpl.
  destruct w as [[] ??]; simpl in *. by subst.
Qed.

Lemma run_loop_done evs pend (w : timed D) ec a :
  ec ≠ would_block → run_loop acc evs pend w ec a = Some (w, ec, a, evs).
Proof. intros. destruct evs; simpl; by rewrite decide_False. Qed.

(** The characterisation of the loop: it waits exactly until the operation completes,
    reports [timed_out] exactly when the wait handler found the deadline reached before
    that, runs the derived class's actor in that case only, and destroys the
    operation's expiration. *)
Lemma run_loop_spec evs e (w : timed D) a :
  timer_waits (base w) = 1%nat → clock_ok (now w) →
  Forall (λ ev, clock_ok (event_time ev)) evs →
  match first_op evs with
  | None => run_loop acc evs (Some e) w would_block a = None
  | Some (ts, (t, err, p), rest) =>
      let w' := after_events w ts t in
      let ec := if deadline_fired_ (base w') then timed_out else err in
      ec ≠ would_block →
      run_loop acc evs (Some e) w would_block a =
        Some (expiration_dtor e w', ec, acc a p, rest)
  end.
Proof.
  revert w. induction evs as [|[u|t err p] evs IH]; intros w Hw Hc Hf.
  - simpl. by rewrite decide_True.
  - inversion Hf as [|?? Hu Hf']; subst. simpl in Hu.
    assert (Hc' : clock_ok (now (run_timer u w))) by auto using run_timer_clock.
    specialize (IH (run_timer u w) ltac:(auto with timed) Hc' Hf'). simpl.
    rewrite decide_True by done.
    destruct (first_op evs) as [[[ts [[t err] p]] rest]|] eqn:E; [|done].
    destruct (first_op_times _ _ _ _ E Hf') as [Hts _].
    rewrite after_events_cons in IH by auto. exact IH.
  - cbn [first_op]. intros Hec. cbn [run_loop]. rewrite decide_True by done.
    unfold complete. rewrite advance_after_events by done. by apply run_loop_done.
Qed.

(** With no handler pending and [ec] still [would_block] the loop waits for ever. *)
Lemma run_loop_stuck evs (w : timed D) a :
  run_loop acc evs None w would_block a = None.
Proof.
  revert w. induction evs as [|[t|t err p] evs IH]; intros w; simpl; by rewrite decide_True.
Qed.

(** The converse of [run_loop_spec]: how a call that returned did so. *)
Lemma run_loop_inv evs e (w w' : timed D) a a' ec rest :
  timer_waits (base w) = 1%nat → clock_ok (now w) →
  Forall (λ ev, clock_ok (event_time ev)) evs →
  run_loop acc evs (Some e) w would_block a = Some (w', ec, a', rest) →
  ∃ ts t err p, first_op evs = Some (ts, (t, err, p), rest) ∧
    w' = expiration_dtor e (after_events w ts t) ∧ a' = acc a p ∧ ec ≠ would_block ∧
    ec = (if deadline_fired_ (base (after_events w ts t)) then timed_out else err).
Proof.
  revert w. induction evs as [|[u|t err p] evs IH]; intros w Hw Hc Hf Hr; cbn [run_loop] in Hr;
    rewrite decide_True in Hr by done; [done| |].
  - inversion Hf as [|?? Hu Hf']; subst. simpl in Hu.
    assert (Hc' : clock_ok (now (run_timer u w))) by auto using run_timer_clock.
    destruct (IH (run_timer u w) ltac:(auto with timed) Hc' Hf' Hr)
      as (ts & t & err & p & Ho & -> & -> & Hec & ->).
    destruct (first_op_times _ _ _ _ Ho Hf') as [Hts _].
    exists (u :: ts), t, err, p. cbn [first_op]. rewrite Ho, <- after_events_cons by done. split_and!; done.
  - assert (Hadv : advance t w = after_events w [] t) by (by apply advance_after_events).
    unfold complete in Hr. rewrite Hadv in Hr.
    destruct (decide ((if deadline_fired_ (base (after_events w [] t)) then timed_out else err)
      = would_block)) as [Heq|Hne].
    + by rewrite Heq, run_loop_stuck in Hr.
    + rewrite run_loop_done in Hr by done. simplify_eq. by exists [], t, err, p.
Qed.

(** What the derived class's actor preserves, the loop preserves. *)
Lemma run_loop_self (Q : D → Prop) evs pend (w w' : timed D) ec ec' a a' rest :
  (∀ d, Q d → Q (deadline_actor d)) → Q (self w) →
  run_loop acc evs pend w ec a = Some (w', ec', a', rest) → Q (self w').
Proof.
  intros Hact. revert pend w ec a. induction evs as [|[t|t err p] evs IH]; intros pend w ec a Hq;
    cbn [run_loop]; case_decide; try done; try (by intros [= <- _ _ _]).
  - apply IH. unfold run_timer. cbn. destruct (timer_waits (base w)); [done|].
    unfold check_deadline. cbn. destruct (_ <=? _); [by apply Hact|done].
  - destruct pend as [e|]; [|by apply IH]. unfold complete. apply IH.
    unfold expiration_dtor. by destruct (exp_timer e).
Qed.

End Lemmas.
