(* ===== verification/BaseSocket.v ===== *)
(** * [base_socket]: a timed wrapper of an asio socket

    Models stream/base_socket.hpp and stream/impl/base_socket.ipp: construction by a
    connect under a deadline, the socket options, the I/O timeout accessors, [close] and
    the defaulted move.  The asio socket itself is a parameter ([AsioSocket]). *)

From S2P Require Import Prelude ErrorCode TimedBase TimedMove IoLoop.
Open Scope sc_scope.

(** The options the library sets, and any other one a caller passes. *)
Inductive socket_option :=
| keep_alive (v : bool)
| no_delay (v : bool)
| tcp_quickack (v : bool)
| other_option (id v : Z).

(** [boost::asio::basic_socket]: what the library calls of it. *)
Class AsioSocket (S E : Type) := {
  sk_new : S;
  sk_connect : E → S → S;
  sk_is_open : S → bool;
  sk_close : S → S * error_code;
  sk_shutdown : S → S * error_code;
  sk_set_option : socket_option → S → S * error_code;
  sk_get_option : Z → S → Z * error_code;
  sk_local_endpoint : S → E * error_code;
  sk_remote_endpoint : S → E * error_code
}.

(** Documented behaviour of [basic_socket]: "even if the function indicates an error,
    the underlying descriptor is closed"; shutdown disables sends and receives and
    leaves the descriptor open. *)
Class AsioSocketLaws (S E : Type) `{AsioSocket S E} := {
  sk_close_closes s : sk_is_open (sk_close s).1 = false;
  sk_shutdown_open s : sk_is_open (sk_shutdown s).1 = sk_is_open s;
  sk_option_open o s : sk_is_open (sk_set_option o s).1 = sk_is_open s
}.

(** The protocol of the socket: TCP sockets get more options. *)
Inductive protocol := tcp | udp.

#[export] Instance protocol_eq_dec : EqDecision protocol.
Proof. solve_decision. Defined.

(** The members of [base_socket]. *)
Record base_socket (S : Type) := mk_base_socket {
  socket_ : S;
  connection_timeout_ : Z;
  io_operation_timeout_ : Z;
  io_timeouted_ : bool
}.
Arguments mk_base_socket {S}.
Arguments socket_ {S}.
Arguments connection_timeout_ {S}.
Arguments io_operation_timeout_ {S}.
Arguments io_timeouted_ {S}.

(** [struct config]. *)
Record config (E : Type) := mk_config {
  cfg_peer_endpoint : E;
  cfg_connect_timeout : Z;
  cfg_operation_timeout : Z
}.
Arguments mk_config {E}.
Arguments cfg_peer_endpoint {E}.
Arguments cfg_connect_timeout {E}.
Arguments cfg_operation_timeout {E}.

Section BaseSocket.
Context {S E : Type} `{AsioSocket S E, tm : AsioTimer, pl : Platform}.

Definition next_layer (b : base_socket S) : S := socket_ b.

Definition set_socket (s : S) (b : base_socket S) : base_socket S :=
  mk_base_socket s (connection_timeout_ b) (io_operation_timeout_ b) (io_timeouted_ b).

Definition is_open (b : base_socket S) : bool := sk_is_open (next_layer b).

(** [error_code close()]. *)
Definition close (b : base_socket S) : base_socket S * error_code :=
  let '(s, ec) := sk_close (next_layer b) in (set_socket s b, ec).

(** [close(ec)]: [ec = close()], whatever [ec] was before. *)
Definition close_ec (ec : error_code) (b : base_socket S) : base_socket S * error_code :=
  close b.

(** [deadline_actor()]: close the socket, ignoring the error. *)
#[export] Instance base_socket_deadline_actor : TimedDerived (base_socket S) :=
  λ b, (close_ec ec_ok b).1.

(** [set_option(option, ec)]. *)
Definition set_option (o : socket_option) (b : base_socket S) : base_socket S * error_code :=
  let '(s, ec) := sk_set_option o (next_layer b) in (set_socket s b, ec).

(** [set_option(option)], throwing. *)
Definition set_option_throw (o : socket_option) (b : base_socket S)
    : base_socket S * outcome unit :=
  let '(b, ec) := set_option o b in
  if ec_failed ec then (b, Throw (mk_se ec "Socket set_option() failed")) else (b, Normal tt).

(** [get_option(option, ec)] and its throwing overload. *)
Definition get_option (o : Z) (b : base_socket S) : Z * error_code :=
  sk_get_option o (next_layer b).

Definition get_option_throw (o : Z) (b : base_socket S) : outcome Z :=
  let '(v, ec) := get_option o b in
  if ec_failed ec then Throw (mk_se ec "Socket get_option() failed") else Normal v.

(** [local_endpoint(ec)], [remote_endpoint(ec)] and their throwing overloads. *)
Definition local_endpoint (b : base_socket S) : E * error_code := sk_local_endpoint (next_layer b).

Definition local_endpoint_throw (b : base_socket S) : outcome E :=
  let '(ep, ec) := local_endpoint b in
  if ec_failed ec then Throw (mk_se ec "Socket local_endpoint() failed") else Normal ep.

Definition remote_endpoint (b : base_socket S) : E * error_code := sk_remote_endpoint (next_layer b).

Definition remote_endpoint_throw (b : base_socket S) : outcome E :=
  let '(ep, ec) := remote_endpoint b in
  if ec_failed ec then Throw (mk_se ec "Socket remote_endpoint() failed") else Normal ep.

(** [connection_timeout()], [io_timeout()]. *)
Definition connection_timeout (b : base_socket S) : Z := connection_timeout_ b.

Definition io_timeout (b : base_socket S) : Z :=
  if io_timeouted_ b then io_operation_timeout_ b else kInfiniteDuration.

(** [io_timeout(new)]: swap, returning the previous value. *)
Definition set_io_timeout (d : Z) (b : base_socket S) : base_socket S * Z :=
  (mk_base_socket (socket_ b) (connection_timeout_ b) d (io_timeouted_ b), io_operation_timeout_ b).

Definition io_timeout_enabled (b : base_socket S) : bool := io_timeouted_ b.

(** [io_timeout_enabled(new_mode)]: swap, returning the previous mode. *)
Definition set_io_timeout_enabled (m : bool) (b : base_socket S) : base_socket S * bool :=
  (mk_base_socket (socket_ b) (connection_timeout_ b) (io_operation_timeout_ b) m, io_timeouted_ b).

(** The options the constructor sets, in order; the last one on Linux only. *)
Definition ctor_options (p : protocol) (on_linux : bool) : list socket_option :=
  keep_alive true ::
  (if decide (p = tcp) then
     no_delay true :: (if on_linux then [tcp_quickack true] else [])
   else []).

(** The constructor's [set_option] calls: the first failure is thrown. *)
Fixpoint set_options (os : list socket_option) (b : base_socket S)
    : base_socket S * outcome unit :=
  match os with
  | [] => (b, Normal tt)
  | o :: os =>
      match set_option_throw o b with
      | (b, Normal _) => set_options os b
      | (b, Throw e) => (b, Throw e)
      end
  end.

(** What follows the connect loop in the constructor: the error checks, the options and
    [io_timeout_enabled(true)]. *)
Definition ctor_finish (p : protocol) (on_linux : bool) (ec : error_code) (b : base_socket S)
    : base_socket S * outcome unit :=
  if ec_failed ec then
    if decide (ec = timed_out) then (b, Throw (mk_se ec "Socket connection timed out"))
    else (b, Throw (mk_se ec "Socket connection failed"))
  else if negb (is_open b) then
    (b, Throw (mk_se operation_aborted "Socket connection failed"))
  else
    match set_options (ctor_options p on_linux) b with
    | (b, Normal _) => ((set_io_timeout_enabled true b).1, Normal tt)
    | (b, Throw e) => (b, Throw e)
    end.

(** [base_socket(peer_endpoint, connect_timeout, operation_timeout)] at clock reading
    [t0]; [evs] are the handlers the io_service runs.  The connect handler does not own
    the expiration: it lives until the end of the constructor. *)
Definition base_socket_ctor (p : protocol) (on_linux : bool) (evs : list (io_event unit))
    (ep : E) (connect_timeout operation_timeout : Z) (t0 : Z)
    : io_result (timed (base_socket S)) :=
  let w := timed_base_ctor (mk_base_socket sk_new connect_timeout operation_timeout false) t0 in
  let w := set_self (λ b, (set_io_timeout_enabled false b).1) w in
  match scope_expire (Timeout connect_timeout) w with
  | (_, Throw e) => IoThrow e
  | (w, Normal e) =>
      let w := set_self (λ b, set_socket (sk_connect ep (socket_ b)) b) w in
      match run_loop (λ _ _, tt) evs (Some (mk_expiration false)) w would_block tt with
      | None => IoBlocked
      | Some (w, ec, _, _) =>
          match ctor_finish p on_linux ec (self w) with
          | (_, Throw e) => IoThrow e
          | (b, Normal _) => IoDone ec (expiration_dtor e (set_self (λ _, b) w))
          end
      end
  end.

(** [base_socket(const config& cfg)]. *)
Definition base_socket_ctor_config (p : protocol) (on_linux : bool)
    (evs : list (io_event unit)) (cfg : config E) (t0 : Z) : io_result (timed (base_socket S)) :=
  base_socket_ctor p on_linux evs (cfg_peer_endpoint cfg) (cfg_connect_timeout cfg)
    (cfg_operation_timeout cfg) t0.

(** [~base_socket()], then [~timed_base()]. *)
Definition base_socket_dtor (w : timed (base_socket S)) : timed (base_socket S) :=
  timed_base_dtor (set_self (λ b, (close_ec ec_ok b).1) w).

End BaseSocket.

(** A concrete asio socket, for the witnesses: open flag, shutdown flag, and whether the
    next [shutdown] fails with "not connected". *)
Record toy_socket := mk_toy { toy_open : bool; toy_peer : bool; toy_shut : bool }.

#[export] Instance toy_asio_socket : AsioSocket toy_socket nat := {|
  sk_new := mk_toy false false false;
  sk_connect _ _ := mk_toy true true false;
  sk_is_open := toy_open;
  sk_close s := (mk_toy false false (toy_shut s), ec_ok);
  sk_shutdown s :=
    if toy_peer s then (mk_toy (toy_open s) true true, ec_ok) else (s, @not_connected linux);
  sk_set_option _ s := (s, ec_ok);
  sk_get_option _ _ := (0, ec_ok);
  sk_local_endpoint _ := (0%nat, ec_ok);
  sk_remote_endpoint _ := (0%nat, ec_ok)
|}.

#[export] Instance toy_asio_socket_laws : AsioSocketLaws toy_socket nat.
Proof. split; [done|by intros [? [] ?]|done]. Qed.

Section Lemmas.
Context {S E : Type} `{AsioSocketLaws S E, tm : AsioTimer, pl : Platform}.

Lemma close_closes (b : base_socket S) : is_open (close b).1 = false.
Proof.
  unfold close, is_open, next_layer. pose proof (sk_close_closes (socket_ b)) as Hc.
  destruct (sk_close (socket_ b)) as [s ec]. done.
Qed.

Lemma set_options_keeps os (b : base_socket S) :
  let b' := (set_options os b).1 in
  is_open b' = is_open b ∧ io_timeouted_ b' = io_timeouted_ b ∧
  io_operation_timeout_ b' = io_operation_timeout_ b ∧
  connection_timeout_ b' = connection_timeout_ b.
Proof.
  revert b. induction os as [|o os IH]; intros b; [done|]. simpl.
  unfold set_option_throw, set_option, next_layer.
  pose proof (sk_option_open o (socket_ b)) as Ho.
  destruct (sk_set_option o (socket_ b)) as [s ec]. simpl in Ho.
  destruct (ec_failed ec); [by repeat split|].
  specialize (IH (set_socket s b)). cbv zeta in IH. destruct IH as (E1 & -> & -> & ->).
  rewrite E1. done.
Qed.

Lemma set_options_error os (b : base_socket S) :
  match (set_options os b).2 with
  | Normal _ => True
  | Throw e => se_what e = "Socket set_option() failed"
  end.
Proof.
  revert b. induction os as [|o os IH]; intros b; [done|]. simpl.
  unfold set_option_throw. destruct (set_option o b) as [b' ec].
  destruct (ec_failed ec); [done|apply IH].
Qed.

End Lemmas.

Section Claims.
Context {S E : Type} `{AsioSocketLaws S E, tm : AsioTimer, pl : Platform}.

(** The error checks and options after the connect loop, case by case. *)
Lemma ctor_finish_spec p on_linux ec (b : base_socket S) :
  match ctor_finish p on_linux ec b with
  | (b', Normal _) =>
      ec_failed ec = false ∧ is_open b' = true ∧ io_timeouted_ b' = true ∧
      io_operation_timeout_ b' = io_operation_timeout_ b ∧
      connection_timeout_ b' = connection_timeout_ b
  | (_, Throw e) =>
      if ec_failed ec then
        e = mk_se ec (if decide (ec = timed_out) then "Socket connection timed out"
                      else "Socket connection failed")
      else if is_open b then se_what e = "Socket set_option() failed"
      else e = mk_se operation_aborted "Socket connection failed"
  end.
Proof.
  unfold ctor_finish. destruct (ec_failed ec); [by case_decide|].
  destruct (is_open b) eqn:Eo; cbn [negb]; [|done].
  pose proof (set_options_keeps (ctor_options p on_linux) b) as Hk.
  pose proof (set_options_error (ctor_options p on_linux) b) as He.
  destruct (set_options _ b) as [b' [[]|e]]; cbn in Hk, He |- *; [|done].
  destruct Hk as (E1 & _ & E3 & E4). rewrite Eo in E1. done.
Qed.

(** C29: the constructor under a finite connection timeout, on every path: it never blocks
    for longer than its connect operation; it throws "timed out" exactly when the wait
    handler ran at or after the deadline, the operation's error when connecting failed,
    and [operation_aborted] or an option's error after that; a constructed socket is
    open, has its I/O timeout enabled with the value given, and has no deadline armed. *)
Theorem base_socket_ctor_outcome p on_linux evs ep ct ot t0 ts t err u rest :
  clock_ok t0 → kDurationResolution ≤ ct → ct ≠ kInfiniteDuration → t0 + ct ≤ time_point_max →
  Forall (λ ev, clock_ok (event_time ev)) evs →
  first_op evs = Some (ts, (t, err, u), rest) → err ≠ would_block →
  let expired := fires (t0 + ct) t0 ts in
  match base_socket_ctor p on_linux evs ep ct ot t0 with
  | IoBlocked => False
  | IoDone ec w =>
      expired = false ∧ ec = err ∧ ec_failed err = false ∧
      is_open (self w) = true ∧ io_timeout (self w) = ot ∧ connection_timeout (self w) = ct ∧
      disarmed w ∧ deadline_fired_ (base w) = false
  | IoThrow e =>
      if expired then e = mk_se timed_out "Socket connection timed out"
      else if ec_failed err then
        e = mk_se err (if decide (err = timed_out) then "Socket connection timed out"
                       else "Socket connection failed")
      else if sk_is_open (sk_connect ep sk_new) then se_what e = "Socket set_option() failed"
      else e = mk_se operation_aborted "Socket connection failed"
  end.
Proof.
  intros Hc Hr Hi Hm Hev Ho Hnb expired. unfold base_socket_ctor.
  rewrite scope_expire_finite by done.
  assert (Hd : 0 < ct) by (unfold kDurationResolution in *; lia).
  destruct (first_op_times _ _ _ _ Ho Hev) as [Hts Ht].
  set (w := set_self (λ b, set_socket _ b) _).
  assert (Hexp : timer_expiry (base w) = t0 + ct) by (simpl; apply timer_add_exact; [done|lia|done]).
  pose proof (run_loop_spec (λ _ _ : unit, tt) evs (mk_expiration false) w tt eq_refl Hc Hev) as Hs.
  rewrite Ho in Hs. cbv zeta in Hs.
  assert (Hf : deadline_fired_ (base (after_events w ts t)) = expired).
  { unfold after_events. cbn [deadline_fired_ base]. rewrite Hexp. apply orb_false_r. }
  rewrite Hf in Hs. rewrite Hs by (destruct expired; auto with timed). clear Hs.
  set (w' := expiration_dtor (mk_expiration false) (after_events w ts t)).
  pose proof (ctor_finish_spec p on_linux (if expired then timed_out else err) (self w')) as Hfin.
  assert (Hself : self w' = if expired then deadline_actor (self w) else self w).
  { unfold w'. cbn [expiration_dtor exp_timer after_events self]. by rewrite Hexp. }
  destruct (ctor_finish _ _ _ _) as [b' [[]|e]].
  - destruct Hfin as (He & Eo & Et & Eot & Ect).
    destruct expired; [by rewrite timed_out_failed in He|].
    unfold io_timeout, connection_timeout. cbn [self expiration_dtor exp_timer set_self expires_from_now expires_at set_base].
    rewrite Et, Eot, Ect, Hself. split_and!; try done.
    apply (expiration_dtor_disarms (mk_expiration true) (set_self (λ _, b') w')); [|done|by left].
    apply clock_after_ok; [done|]. by apply Forall_app_2, Forall_cons_2.
  - rewrite Hself in Hfin. destruct expired; [|done].
    rewrite timed_out_failed, decide_True in Hfin by done. done.
Qed.

End Claims.

(** A constructed socket is open and has the timeouts it was given, enabled, whatever
    the io_service did meanwhile. *)
Lemma base_socket_ctor_settings {S E : Type} `{AsioSocketLaws S E, tm : AsioTimer, pl : Platform}
    p on_linux evs (ep : E) ct ot t0 ec w :
  base_socket_ctor (S := S) p on_linux evs ep ct ot t0 = IoDone ec w →
  is_open (self w) = true ∧ connection_timeout_ (self w) = ct ∧
  io_operation_timeout_ (self w) = ot ∧ io_timeouted_ (self w) = true.
Proof.
  unfold base_socket_ctor, scope_expire, expiration_duration.
  destruct (ct <? kDurationResolution); [done|].
  set (Q := λ b : base_socket S, connection_timeout_ b = ct ∧ io_operation_timeout_ b = ot).
  assert (Hact : ∀ b, Q b → Q (deadline_actor b)).
  { intros b. unfold Q, deadline_actor, base_socket_deadline_actor, close_ec, close. by destruct (sk_close _). }
  destruct (ct =? kInfiniteDuration);
    (destruct (run_loop _ _ _ _ _ _) as [[[[w1 ec1] u] rest]|] eqn:Er; [|done];
     assert (Hq : Q (self w1)) by (eapply (run_loop_self _ Q); [exact Hact| |exact Er]; done);
     destruct Hq as [Hq1 Hq2]; pose proof (ctor_finish_spec p on_linux ec1 (self w1)) as Hf;
     destruct (ctor_finish _ _ _ _) as [b [[]|e]]; [|done]; intros [= _ <-];
     destruct Hf as (_ & E1 & E2 & E3 & E4); unfold expiration_dtor; simpl; by rewrite E3, E4).
Qed.

(** ... and it has no deadline armed, whatever its connection timeout was. *)
Lemma base_socket_ctor_disarmed {S E : Type} `{AsioSocketLaws S E, tm : AsioTimer, pl : Platform}
    p on_linux evs (ep : E) ct ot t0 ec w :
  clock_ok t0 → Forall (λ ev, clock_ok (event_time ev)) evs →
  base_socket_ctor (S := S) p on_linux evs ep ct ot t0 = IoDone ec w → disarmed w ∧ clock_ok (now w).
Proof.
  intros Hc Hev. unfold base_socket_ctor.
  set (w0 := set_self _ _). assert (Hw0 : timer_expiry (base w0) = time_point_max ∧ timer_waits (base w0) = 1%nat ∧ now w0 = t0).
  { split_and!; [by apply timer_add_infinite|done..]. }
  destruct (scope_expire (Timeout ct) w0) as [w1 [e|e]] eqn:Es; [|done].
  assert (He : exp_timer e = true ∨ timer_expiry (base w1) = time_point_max).
  { revert Es. unfold scope_expire, expiration_duration. destruct (ct <? _); [done|].
    destruct (ct =? _); intros [= <- <-]; [right; apply Hw0|by left]. }
  destruct (scope_expire_keeps _ _ _ _ Es) as (E1 & E2 & _). destruct Hw0 as (_ & Ew & En).
  destruct (run_loop _ _ _ _ _ _) as [[[[w2 ec2] u] rest]|] eqn:Er; [|done].
  apply run_loop_inv in Er as (ts & t & err & v & Ho & -> & _); [|by rewrite <- Ew, <- E1|cbn [now set_self]; congruence|done].
  destruct (first_op_times _ _ _ _ Ho Hev) as [Hts Ht].
  destruct (ctor_finish _ _ _ _) as [b [[]|e']]; [|done]. intros [= _ <-].
  assert (Hclock : clock_ok (clock_after (now w1) (ts ++ [t]))).
  { apply clock_after_ok; [by rewrite E2, En|]. by apply Forall_app_2, Forall_cons_2. }
  split.
  - apply expiration_dtor_disarms; [exact Hclock|done|]. destruct He as [?|He]; [by left|right].
    simpl. rewrite He. by destruct (fires _ _ _).
  - unfold expiration_dtor. by destruct (exp_timer e).
Qed.

(** ** Moving a socket *)

Section Moving.
Context {S E : Type} `{AsioSocket S E, tm : AsioTimer, pl : Platform}.

(** [base_socket(base_socket&& other) = default], from the object at [a] to [a']: the asio
    socket moved from is one as its constructor leaves it; the numbers are copied. *)
Definition base_socket_move_ctor (a a' : nat) (os : timed_objects (base_socket S))
    : option (timed_objects (base_socket S)) :=
  move_ctor (set_socket sk_new) a a' os.

(** The move takes the connection and copies the settings, but the socket moved to has no
    working deadline: the handler that would check it belongs to the one moved from, whose
    timer is null, also once the new object is armed. *)
Theorem moved_socket_loses_its_deadline a a' b t os :
  a ≠ a' → wait_this os = a → object_at os !! a = Some (b, Some t) →
  ∃ os', base_socket_move_ctor a a' os = Some os' ∧
    object_at os' !! a' = Some (b, Some t) ∧
    (∃ b0, object_at os' !! a = Some (b0, None) ∧ socket_ b0 = sk_new ∧ io_timeout b0 = io_timeout b) ∧
    ∀ d os'' r, scope_expire_at a' d os' = Some (os'', r) → ∀ u, run_wait u os'' = None.
Proof.
  intros Hne Hw Ha. unfold base_socket_move_ctor, move_ctor. rewrite Ha. cbn [mbind option_bind].
  eexists. split; [done|]. cbn [object_at]. rewrite lookup_insert_eq. split; [done|]. split.
  - rewrite lookup_insert_ne, lookup_insert_eq by done. by eexists.
  - intros d os'' r. unfold scope_expire_at. cbn [object_at objects_now wait_this]. rewrite lookup_insert_eq.
    cbn [mbind option_bind]. destruct (scope_expire d _) as [w r']. intros [= <- _] u.
    unfold run_wait. cbn [object_at wait_this]. rewrite Hw.
    by rewrite !(lookup_insert_ne _ a' a), lookup_insert_eq by done.
Qed.

End Moving.

(** Whatever the constructor throws carries a failing error code. *)
Section Failures.
Context {S E : Type} `{AsioSocket S E, tm : AsioTimer, pl : Platform}.

Lemma set_options_fails os (b : base_socket S) e :
  (set_options os b).2 = Throw e → ec_failed (se_code e) = true.
Proof.
  revert b. induction os as [|o os IH]; intros b; [done|]. simpl. unfold set_option_throw.
  destruct (set_option o b) as [b' ec]. destruct (ec_failed ec) eqn:Ef; [by intros [= <-]|apply IH].
Qed.

Lemma ctor_finish_fails p on_linux ec (b : base_socket S) e :
  (ctor_finish p on_linux ec b).2 = Throw e → ec_failed (se_code e) = true.
Proof.
  unfold ctor_finish. destruct (ec_failed ec) eqn:Ef; [by case_decide; intros [= <-]|].
  destruct (is_open b); cbn [negb]; [|intros [= <-]; apply operation_aborted_failed].
  pose proof (set_options_fails (ctor_options p on_linux) b) as Hs.
  destruct (set_options _ b) as [b' [[]|e']]; [done|]. intros [= <-]. by apply Hs.
Qed.

Lemma base_socket_ctor_fails p on_linux evs (ep : E) ct ot t0 e :
  base_socket_ctor (S := S) p on_linux evs ep ct ot t0 = IoThrow e → ec_failed (se_code e) = true.
Proof.
  unfold base_socket_ctor, scope_expire, expiration_duration.
  destruct (ct <? kDurationResolution).
  { intros [= <-]. apply timed_out_failed. }
  destruct (ct =? kInfiniteDuration);
    (destruct (run_loop _ _ _ _ _ _) as [[[[w ec] u] rest]|]; [|done]);
    pose proof (ctor_finish_fails p on_linux ec (self w)) as Hf;
    (destruct (ctor_finish _ _ _ _) as [b [[]|e']]; [done|]; intros [= <-]; by apply Hf).
Qed.

End Failures.

Lemma moved_socket_loses_its_deadline_witness :
  let b := mk_base_socket (mk_toy true true false) 5000 5000 true in
  ∃ os', base_socket_move_ctor 1 2 (construct_at 1 b 100) = Some os' ∧
    ∃ t, object_at os' !! 2%nat = Some (b, Some t).
Proof.
  destruct (moved_socket_loses_its_deadline 1 2 (mk_base_socket (mk_toy true true false) 5000 5000 true)
    (base (timed_base_ctor (mk_base_socket (mk_toy true true false) 5000 5000 true) 100))
    (construct_at 1 (mk_base_socket (mk_toy true true false) 5000 5000 true) 100)) as (os' & E1 & E2 & _);
    [done..|]. exists os'. split; [exact E1|]. eexists. exact E2.
Defined.

Lemma base_socket_ctor_outcome_witness :
  match base_socket_ctor (S := toy_socket) tcp true [EvTimer 200; EvOp 2500 ec_ok tt] 7%nat 3000 5000 100 with
  | IoDone ec w => is_open (self w) = true ∧ io_timeout (self w) = 5000
  | _ => False
  end.
Proof.
  pose proof (base_socket_ctor_outcome (S := toy_socket) tcp true [EvTimer 200; EvOp 2500 ec_ok tt] 7%nat
    3000 5000 100 [200] 2500 ec_ok tt []) as Hc.
  assert (Hok : clock_ok 100) by done.
  specialize (Hc Hok ltac:(done) ltac:(done) ltac:(done) ltac:(repeat constructor; done) eq_refl ltac:(done)).
  cbv zeta in Hc. vm_compute in Hc. destruct Hc as (_ & _ & _ & E1 & E2 & _). done.
Defined.
