(* ===== verification/Transfer.v ===== *)
(** * Timed transfers shared by the stream and datagram sockets

    [send]/[receive] of stream_socket.ipp and dgram_socket.ipp are the same two
    functions over different asio operations: start the operation under an
    expiration, run the io_service until it completes, retry while the error is
    [try_again].  [write_some]/[read_some] are the variant without the retry.  How the
    operation is started is an argument: the [async_*] member of the socket. *)

From S2P Require Import Prelude ErrorCode TimedBase IoLoop.
Open Scope sc_scope.

(** The events of a socket carry the number of bytes the operation transferred. *)
Abbreviation sock_event := (io_event Z).

Section Transfer.
Context {D : Type} `{TimedDerived D, tm : AsioTimer, pl : Platform}.

(** A member function's effect: the object afterwards, the handlers not run yet, and
    the result. *)
Definition call_result (A : Type) : Type := timed D * list sock_event * io_result A.

(** The body that [async_send] and [async_receive] have in common: the expiration the
    completion closure will own; the retries ([setup_expiration = false]) own a null one. *)
Definition async_start (t : timeout_or_deadline) (setup_expiration : bool) (w : timed D)
    : timed D * outcome expiration :=
  if setup_expiration then scope_expire t w else (w, Normal (expiration_ptr false)).

(** ... and that of [async_write_some] and [async_read_some]: an expiration of their own. *)
Definition async_start_some (t : timeout_or_deadline) (w : timed D) : timed D * outcome expiration :=
  scope_expire t w.

(** The [do { ... } while (ec == try_again)] loop of [send] and [receive], over the [start]
    of their operation. *)
Fixpoint transfer_loop (start : timeout_or_deadline → bool → timed D → timed D * outcome expiration)
    (fuel : nat) (evs : list sock_event) (t : timeout_or_deadline)
    (setup_expiration : bool) (w : timed D) (transfered_bytes : Z) : call_result Z :=
  match fuel with
  | O => (w, evs, IoBlocked)
  | S fuel =>
      match start t setup_expiration w with
      | (w, Throw e) => (w, evs, IoThrow e)
      | (w, Normal e) =>
          match run_loop (λ b n, b +u n) evs (Some e) w would_block transfered_bytes with
          | None => (w, [], IoBlocked)
          | Some (w, ec, transfered_bytes, evs) =>
              if decide (ec = try_again) then transfer_loop start fuel evs t false w transfered_bytes
              else (io_reset w, evs, IoDone ec transfered_bytes)
          end
      end
  end.

(** Every attempt consumes at least the event of its completion. *)
Definition transfer (start : timeout_or_deadline → bool → timed D → timed D * outcome expiration)
    (evs : list sock_event) (t : timeout_or_deadline) (w : timed D) : call_result Z :=
  transfer_loop start (S (length evs)) evs t true w 0.

(** [write_some]/[read_some]: one attempt, and the count is assigned, not added. *)
Definition transfer_some (start : timeout_or_deadline → timed D → timed D * outcome expiration)
    (evs : list sock_event) (t : timeout_or_deadline) (w : timed D) : call_result Z :=
  match start t w with
  | (w, Throw e) => (w, evs, IoThrow e)
  | (w, Normal e) =>
      match run_loop (λ _ n, n) evs (Some e) w would_block 0 with
      | None => (w, [], IoBlocked)
      | Some (w, ec, transfered_bytes, evs) => (io_reset w, evs, IoDone ec transfered_bytes)
      end
  end.

(** The throwing overload of a call. *)
Definition call_throw {A} (what : string) (r : call_result A) : call_result A :=
  (r.1, throw_on_error what r.2).

(** Whether the wait handler runs at or after [dl] among the clock readings [ts]. *)
Definition late (dl : Z) (ts : list Z) : bool := existsb (λ u, dl <=? u) ts.

(** The clock readings of a run are within the range of the clock. *)
Definition events_ok (evs : list sock_event) : Prop := Forall (λ ev, clock_ok (event_time ev)) evs.

(** A finite timeout that [expiration] accepts and the clock can represent. *)
Definition finite_timeout (d : Z) (w : timed D) : Prop :=
  kDurationResolution ≤ d ∧ d ≠ kInfiniteDuration ∧ now w + d ≤ time_point_max.

(** What the events hold for a transfer that retries: the counts of its attempts that end
    in [try_again], then the completion that ends it. *)
Inductive attempts : list sock_event → list Z → error_code → Z → list sock_event → Prop :=
| attempts_last evs ts t err n rest :
    first_op evs = Some (ts, (t, err, n), rest) → err ≠ would_block → err ≠ try_again →
    attempts evs [] err n rest
| attempts_retry evs ts t n rest ns err m rest' :
    first_op evs = Some (ts, (t, try_again, n), rest) → attempts rest ns err m rest' →
    attempts evs (n :: ns) err m rest'.

End Transfer.

Section Lemmas.
Context {D : Type} `{TimedDerived D, tm : AsioTimer, pl : Platform}.
Implicit Types (w : timed D) (evs : list sock_event).

Lemma fires_late dl t0 ts : t0 < dl → fires dl t0 ts = late dl ts.
Proof.
  intros Ht. unfold fires, late. induction ts as [|u ts IH]; simpl; [done|].
  rewrite IH. f_equal. destruct (dl <=? Z.max t0 u) eqn:E1, (dl <=? u) eqn:E2; bool_prop; lia.
Qed.

Lemma finite_timeout_clock d w : finite_timeout d w → disarmed w → clock_ok (now w).
Proof.
  intros (?&?&?) (?&?&?). split; [lia|]. unfold kDurationResolution in *. lia.
Qed.

Lemma disarmed_clock w : disarmed w → now w < time_point_max → clock_ok (now w).
Proof. intros (?&?&?) ?. by split. Qed.

Lemma io_reset_disarmed w : disarmed w → disarmed (io_reset w).
Proof. intros (?&?&?). done. Qed.

(** The state in which an armed operation completes, after its closure is destroyed. *)
Lemma completion_disarmed e w ts t :
  clock_ok (now w) → Forall clock_ok ts → clock_ok t →
  exp_timer e = true ∨ timer_expiry (base w) = time_point_max →
  disarmed (expiration_dtor e (after_events w ts t)).
Proof.
  intros Hc Hts Ht He. apply expiration_dtor_disarms; simpl.
  - apply clock_after_ok; [done|]. by apply Forall_app_2, Forall_cons_2.
  - done.
  - destruct He as [?|Hx]; [by left|right]. by destruct (fires _ _ _).
Qed.

(** Starting an operation with a finite timeout. *)
Lemma arm_finite d w :
  finite_timeout d w → clock_ok (now w) →
  scope_expire (Timeout d) w =
    (expires_at (now w + d) (set_fired false w), Normal (mk_expiration true)).
Proof.
  intros (Hr & Hi & Hm) Hc. rewrite scope_expire_finite by done. unfold expires_from_now.
  simpl. rewrite timer_add_exact; [done..| |done]. unfold kDurationResolution in *. lia.
Qed.

Lemma first_op_length evs ts op rest :
  first_op evs = Some (ts, op, rest) → (length rest < length evs)%nat.
Proof.
  revert ts. induction evs as [|[t|t err p] evs IH]; simpl; intros ts He; [done| |].
  - destruct (first_op evs) as [[[ts' op'] rest']|]; [|done]. simplify_eq.
    specialize (IH ts' eq_refl). lia.
  - simplify_eq. lia.
Qed.

Lemma run_loop_shrinks {A} (acc : A → Z → A) evs e w a w' ec a' rest :
  run_loop acc evs (Some e) w would_block a = Some (w', ec, a', rest) →
  (length rest < length evs)%nat.
Proof.
  revert w. induction evs as [|[t|t err p] evs IH]; intros w; cbn [run_loop];
    rewrite decide_True by done; [done| |].
  - intros Hr. specialize (IH _ Hr). simpl. lia.
  - unfold complete. intros Hr.
    destruct (decide ((if deadline_fired_ (base (advance t w)) then timed_out else err)
      = would_block)) as [Heq|Hne].
    + by rewrite Heq, run_loop_stuck in Hr.
    + rewrite run_loop_done in Hr by done. simplify_eq. simpl. lia.
Qed.

(** More fuel than events never changes the result: the loop does terminate. *)
Lemma transfer_loop_fuel fuel fuel' evs t b w n :
  (length evs < fuel)%nat → (length evs < fuel')%nat →
  transfer_loop async_start fuel evs t b w n = transfer_loop async_start fuel' evs t b w n.
Proof.
  revert fuel' evs b w n. induction fuel as [|fuel IH]; intros [|fuel'] evs b w n ??; try lia.
  simpl. destruct (async_start t b w) as [w1 [e|e]]; [|done].
  destruct (run_loop _ _ _ _ _ _) as [[[[w2 ec] n2] rest]|] eqn:Hr; [|done].
  apply run_loop_shrinks in Hr. case_decide; [|done]. apply IH; lia.
Qed.

Lemma transfer_unfold evs t w :
  transfer async_start evs t w =
    match scope_expire t w with
    | (w, Throw e) => (w, evs, IoThrow e)
    | (w, Normal e) =>
        match run_loop (λ b n, b +u n) evs (Some e) w would_block 0 with
        | None => (w, [], IoBlocked)
        | Some (w, ec, n, evs) =>
            if decide (ec = try_again) then transfer_loop async_start (S (length evs)) evs t false w n
            else (io_reset w, evs, IoDone ec n)
        end
    end.
Proof.
  unfold transfer. cbn [transfer_loop]. unfold async_start.
  destruct (scope_expire t w) as [w1 [e|e]]; [|done].
  destruct (run_loop _ _ _ _ _ _) as [[[[w2 ec] n2] rest]|] eqn:Hr; [|done].
  apply run_loop_shrinks in Hr. case_decide; [|done].
  rewrite (transfer_loop_fuel _ (S (length rest))) by lia. done.
Qed.

(** One attempt with a given expiration, from the state [w] in which it was started. *)
Lemma attempt_spec {A P} (acc : A → P → A) (evs : list (io_event P)) e w a ts t err n rest :
  timer_waits (base w) = 1%nat → clock_ok (now w) →
  Forall (λ ev, clock_ok (event_time ev)) evs →
  deadline_fired_ (base w) = false →
  first_op evs = Some (ts, (t, err, n), rest) → err ≠ would_block →
  let f := fires (timer_expiry (base w)) (now w) ts in
  run_loop acc evs (Some e) w would_block a =
    Some (expiration_dtor e (after_events w ts t), if f then timed_out else err, acc a n, rest).
Proof.
  intros Hw Hc Hev Hfd Ho Hne f.
  assert (Hd : deadline_fired_ (base (after_events w ts t)) = f).
  { simpl. by rewrite Hfd, orb_false_r. }
  pose proof (run_loop_spec acc evs e w a Hw Hc Hev) as Hs. rewrite Ho in Hs.
  cbv zeta in Hs. rewrite Hd in Hs. apply Hs. destruct f; auto with timed.
Qed.

(** An attempt whose completion leaves [ec == would_block] never returns. *)
Lemma attempt_stuck {A} (acc : A → Z → A) evs e w a ts t n rest :
  timer_waits (base w) = 1%nat → clock_ok (now w) → events_ok evs →
  deadline_fired_ (base w) = false →
  first_op evs = Some (ts, (t, would_block, n), rest) →
  fires (timer_expiry (base w)) (now w) ts = false →
  run_loop acc evs (Some e) w would_block a = None.
Proof.
  intros Hw Hc Hev Hfd Ho Hnf.
  destruct (run_loop acc evs (Some e) w would_block a) as [[[[w' ec] a'] rest']|] eqn:Hr; [|done].
  apply run_loop_inv in Hr as (ts' & t' & err' & n' & Ho' & _ & _ & Hne & ->); [|done..].
  rewrite Ho in Ho'. simplify_eq. simpl in Hne. by rewrite Hnf, Hfd in Hne.
Qed.

End Lemmas.

#[export] Hint Resolve io_reset_disarmed disarmed_clock finite_timeout_clock : timed.

Section Operations.
Context {D : Type} `{TimedDerived D, tm : AsioTimer, pl : Platform}.
Implicit Types (w : timed D) (evs : list sock_event).

(** The common core of the two kinds of transfer under a finite timeout. *)
Lemma transfer_finite evs d w ts t err n rest :
  disarmed w → finite_timeout d w → events_ok evs → 0 ≤ n < 2 ^ 64 →
  first_op evs = Some (ts, (t, err, n), rest) → err ≠ would_block → err ≠ try_again →
  let w' := io_reset (expiration_dtor (mk_expiration true)
    (after_events (expires_at (now w + d) (set_fired false w)) ts t)) in
  let ec := if late (now w + d) ts then timed_out else err in
  transfer async_start evs (Timeout d) w = (w', rest, IoDone ec n) ∧
  transfer_some async_start_some evs (Timeout d) w = (w', rest, IoDone ec n) ∧
  disarmed w' ∧
  self w' = (if late (now w + d) ts then deadline_actor (self w) else self w).
Proof.
  intros Hdis Hfin Hev Hn Ho Hnb Hnt w' ec.
  assert (Hd : 0 < d) by (destruct Hfin; unfold kDurationResolution in *; lia).
  assert (Hc : clock_ok (now w)) by eauto with timed.
  assert (Hl : fires (now w + d) (now w) ts = late (now w + d) ts) by (apply fires_late; lia).
  destruct (first_op_times _ _ _ _ Ho Hev) as [Hts Htc].
  destruct Hdis as (He & Hw & ?).
  split_and!.
  - rewrite transfer_unfold, arm_finite by done.
    erewrite attempt_spec by done. simpl. rewrite Hl. fold ec.
    rewrite decide_False; [by rewrite u64_id by lia|].
    unfold ec. destruct (late _ _); auto with timed.
  - unfold transfer_some, async_start_some. rewrite arm_finite by done.
    erewrite attempt_spec by done. simpl. by rewrite Hl.
  - apply io_reset_disarmed, completion_disarmed; [done..|by left].
  - simpl. by rewrite <- Hl.
Qed.

(** ... and under the indefinite timeout, which arms nothing. *)
Lemma transfer_indefinite evs w ts t err n rest :
  disarmed w → clock_ok (now w) → events_ok evs → 0 ≤ n < 2 ^ 64 →
  first_op evs = Some (ts, (t, err, n), rest) → err ≠ would_block → err ≠ try_again →
  let w' := io_reset (after_events (set_fired false w) ts t) in
  transfer async_start evs (Timeout kInfiniteDuration) w = (w', rest, IoDone err n) ∧
  transfer_some async_start_some evs (Timeout kInfiniteDuration) w = (w', rest, IoDone err n) ∧
  disarmed w' ∧ self w' = self w.
Proof.
  intros Hdis Hc Hev Hn Ho Hnb Hnt w'.
  destruct (first_op_times _ _ _ _ Ho Hev) as [Hts Htc].
  pose proof Hdis as (He & Hw & ?).
  assert (Hnf : fires (timer_expiry (base w)) (now w) ts = false).
  { rewrite He. by apply fires_never. }
  assert (Hw' : expiration_dtor (mk_expiration false) (after_events (set_fired false w) ts t) =
    after_events (set_fired false w) ts t) by done.
  split_and!.
  - rewrite transfer_unfold, scope_expire_infinite. erewrite attempt_spec by done.
    cbn [timer_expiry base set_fired set_base now].
    rewrite Hnf, decide_False by done. rewrite Hw'. by rewrite u64_id by lia.
  - unfold transfer_some, async_start_some. rewrite scope_expire_infinite. erewrite attempt_spec by done.
    cbn [timer_expiry base set_fired set_base now]. by rewrite Hnf.
  - apply io_reset_disarmed. rewrite <- Hw'. apply completion_disarmed; [done..|by right].
  - simpl. by rewrite Hnf.
Qed.

(** A timeout below the resolution throws before anything runs. *)
Lemma transfer_short evs d w :
  d < kDurationResolution → clock_ok (now w) →
  let w' := expires_from_now kInfiniteDuration (set_fired false w) in
  transfer async_start evs (Timeout d) w = (w', evs, IoThrow (mk_se timed_out "")) ∧
  transfer_some async_start_some evs (Timeout d) w = (w', evs, IoThrow (mk_se timed_out "")) ∧
  timer_expiry (base w') = time_point_max ∧ self w' = self w.
Proof.
  intros Hd Hc w'. split_and!.
  - by rewrite transfer_unfold, scope_expire_short.
  - unfold transfer_some, async_start_some. by rewrite scope_expire_short.
  - by apply timer_add_infinite.
  - done.
Qed.

(** The retries of a transfer own no expiration: with nothing armed they all run to their
    completions, and their counts add up. *)
Lemma transfer_retries evs ns err m rest t w a :
  EAGAIN ≠ EWOULDBLOCK → attempts evs ns err m rest → events_ok evs →
  disarmed w → clock_ok (now w) → deadline_fired_ (base w) = false →
  ∃ w', transfer_loop async_start (S (length evs)) evs t false w a =
      (w', rest, IoDone err (foldl (λ b n, b +u n) a (ns ++ [m]))) ∧
    self w' = self w ∧ disarmed w'.
Proof.
  intros Hpl Ha. revert w a.
  induction Ha as [evs ts u err n rest Ho Hnb Hnt|evs ts u n rest ns err m rest' Ho Ha IH];
    intros w a Hev Hdis Hc Hfd; destruct (first_op_times _ _ _ _ Ho Hev) as [Hts Htc];
    pose proof Hdis as (He & Hw & _);
    (assert (Hnf : fires (timer_expiry (base w)) (now w) ts = false) by
      (rewrite He; by apply fires_never));
    cbn [transfer_loop async_start expiration_ptr];
    (erewrite attempt_spec; [|done..|by (intros [=] || idtac)]); rewrite Hnf.
  - rewrite decide_False by done. eexists. split; [done|]. split; [simpl; by rewrite Hnf|].
    apply io_reset_disarmed, completion_disarmed; [done..|by right].
  - rewrite decide_True by done.
    erewrite (transfer_loop_fuel _ (S (length rest))); [|by eapply first_op_length|lia].
    set (w1 := expiration_dtor _ _).
    assert (disarmed w1) by (apply completion_disarmed; [done..|by right]).
    destruct (IH w1 (a +u n)) as (w' & E & Es & Ed).
    + by eapply first_op_rest.
    + done.
    + simpl. apply clock_after_ok; [done|]. by apply Forall_app_2, Forall_cons_2.
    + simpl. by rewrite Hnf.
    + exists w'. split; [exact E|]. split; [|done]. rewrite Es. simpl. by rewrite Hnf.
Qed.

(** A transfer whose first attempt ends in time with [try_again]. *)
Lemma transfer_retried evs d w ts t n rest ns err m rest' :
  EAGAIN ≠ EWOULDBLOCK →
  disarmed w → finite_timeout d w → events_ok evs →
  first_op evs = Some (ts, (t, try_again, n), rest) → late (now w + d) ts = false →
  attempts rest ns err m rest' →
  ∃ w', transfer async_start evs (Timeout d) w =
      (w', rest', IoDone err (foldl (λ b n, b +u n) 0 (n :: ns ++ [m]))) ∧
    self w' = self w ∧ disarmed w'.
Proof.
  intros Hpl Hdis Hfin Hev Ho Hl Ha.
  assert (Hd : 0 < d) by (destruct Hfin; unfold kDurationResolution in *; lia).
  assert (Hc : clock_ok (now w)) by eauto with timed.
  assert (Hf : fires (now w + d) (now w) ts = false) by (rewrite fires_late by lia; done).
  destruct (first_op_times _ _ _ _ Ho Hev) as [Hts Htc].
  destruct Hdis as (He & Hw & ?).
  assert (Hne : try_again ≠ would_block) by (by intros [=]).
  rewrite transfer_unfold, arm_finite by done.
  erewrite attempt_spec by done. cbn [timer_expiry base expires_at set_fired set_base now].
  rewrite Hf, decide_True by done.
  set (w1 := expiration_dtor _ _).
  destruct (transfer_retries rest ns err m rest' (Timeout d) w1 (0 +u n)) as (w' & E & Es & Ed);
    [done|done|by eapply first_op_rest|..].
  - apply completion_disarmed; [done..|by left].
  - simpl. apply clock_after_ok; [done|]. by apply Forall_app_2, Forall_cons_2.
  - simpl. by rewrite Hf.
  - exists w'. split; [exact E|]. split; [|done]. rewrite Es. simpl. by rewrite Hf.
Qed.

(** Where [EAGAIN] is [EWOULDBLOCK] that completion leaves the loop waiting. *)
Lemma transfer_stuck evs d w ts t n rest :
  EAGAIN = EWOULDBLOCK →
  disarmed w → finite_timeout d w → events_ok evs →
  first_op evs = Some (ts, (t, try_again, n), rest) → late (now w + d) ts = false →
  ∃ w', transfer async_start evs (Timeout d) w = (w', [], IoBlocked).
Proof.
  intros Hpl Hdis Hfin Hev Ho Hl.
  assert (Hd : 0 < d) by (destruct Hfin; unfold kDurationResolution in *; lia).
  assert (Hc : clock_ok (now w)) by eauto with timed.
  assert (Hf : fires (now w + d) (now w) ts = false) by (rewrite fires_late by lia; done).
  destruct Hdis as (He & Hw & ?).
  assert (Heq : try_again = would_block) by (unfold try_again, would_block; congruence).
  eexists. rewrite transfer_unfold, arm_finite by done.
  erewrite attempt_stuck by (rewrite <- ?Heq; done). done.
Qed.

End Operations.
