(* ===== verification/StreamSocket.v ===== *)
(** * [stream_socket]: TCP streams under a deadline

    Models stream/stream_socket.hpp and stream/impl/stream_socket.ipp over the state of
    [base_socket]: the four transfers with their throwing and default-timeout
    overloads, and the graceful [close].  The theorems say when a transfer times out,
    what it leaves behind, and what the retry on [try_again] does to the deadline. *)

From S2P Require Import Prelude ErrorCode TimedBase IoLoop BaseSocket Transfer.
Open Scope sc_scope.

Section StreamSocket.
Context {S E : Type} `{AsioSocket S E, tm : AsioTimer, pl : Platform}.

(** The object: a [base_socket] with its timer and clock. *)
Definition stream_socket : Type := timed (base_socket S).

Implicit Types (w : stream_socket) (evs : list sock_event).

(** [close()]: a shutdown, then, for a socket that was not connected, a close. *)
Definition stream_close (b : base_socket S) : base_socket S * error_code :=
  let '(s, ec) := sk_shutdown (next_layer b) in
  let b := set_socket s b in
  if decide (ec ≠ not_connected) then (b, ec) else close b.

(** [async_send] and [async_receive] start [boost::asio::async_write] and [async_read],
    [async_write_some] and [async_read_some] the socket's own operations. *)
Definition async_send : timeout_or_deadline → bool → stream_socket → stream_socket * outcome expiration :=
  async_start.

Definition async_receive : timeout_or_deadline → bool → stream_socket → stream_socket * outcome expiration :=
  async_start.

Definition async_write_some : timeout_or_deadline → stream_socket → stream_socket * outcome expiration :=
  async_start_some.

Definition async_read_some : timeout_or_deadline → stream_socket → stream_socket * outcome expiration :=
  async_start_some.

(** [send(buffers, ec, timeout_or_deadline)]. *)
Definition send evs (t : timeout_or_deadline) w : call_result (D := base_socket S) Z :=
  transfer async_send evs t w.

(** [send(buffers, timeout_or_deadline)], throwing. *)
Definition send_throw evs (t : timeout_or_deadline) w : call_result (D := base_socket S) Z :=
  call_throw "Socket send() failed" (send evs t w).

(** [send(buffers, ec)] and [send(buffers)]: the current I/O timeout. *)
Definition send_default evs w : call_result (D := base_socket S) Z :=
  send evs (Timeout (io_timeout (self w))) w.

Definition send_default_throw evs w : call_result (D := base_socket S) Z :=
  send_throw evs (Timeout (io_timeout (self w))) w.

(** [receive(buffers, ec, timeout_or_deadline)]. *)
Definition receive evs (t : timeout_or_deadline) w : call_result (D := base_socket S) Z :=
  transfer async_receive evs t w.

Definition receive_throw evs (t : timeout_or_deadline) w : call_result (D := base_socket S) Z :=
  call_throw "Socket receive() failed" (receive evs t w).

Definition receive_default evs w : call_result (D := base_socket S) Z :=
  receive evs (Timeout (io_timeout (self w))) w.

Definition receive_default_throw evs w : call_result (D := base_socket S) Z :=
  receive_throw evs (Timeout (io_timeout (self w))) w.

(** [write_some(buffers, ec, timeout_or_deadline)]. *)
Definition write_some evs (t : timeout_or_deadline) w : call_result (D := base_socket S) Z :=
  transfer_some async_write_some evs t w.

Definition write_some_throw evs (t : timeout_or_deadline) w : call_result (D := base_socket S) Z :=
  call_throw "Socket write_some() failed" (write_some evs t w).

Definition write_some_default evs w : call_result (D := base_socket S) Z :=
  write_some evs (Timeout (io_timeout (self w))) w.

Definition write_some_default_throw evs w : call_result (D := base_socket S) Z :=
  write_some_throw evs (Timeout (io_timeout (self w))) w.

(** [read_some(buffers, ec, timeout_or_deadline)]. *)
Definition read_some evs (t : timeout_or_deadline) w : call_result (D := base_socket S) Z :=
  transfer_some async_read_some evs t w.

Definition read_some_throw evs (t : timeout_or_deadline) w : call_result (D := base_socket S) Z :=
  call_throw "Socket read_some() failed" (read_some evs t w).

Definition read_some_default evs w : call_result (D := base_socket S) Z :=
  read_some evs (Timeout (io_timeout (self w))) w.

Definition read_some_default_throw evs w : call_result (D := base_socket S) Z :=
  read_some_throw evs (Timeout (io_timeout (self w))) w.

End StreamSocket.

Arguments stream_socket S : clear implicits.

(** A connected idle stream over the toy socket, for the witnesses. *)
Definition toy_stream : stream_socket toy_socket :=
  mk_timed (mk_timed_base false time_point_max 1 false)
    (mk_base_socket (mk_toy true true false) 5000 5000 true) 100.

Section Claims.
Context {S E : Type} `{AsioSocketLaws S E, tm : AsioTimer, pl : Platform}.
Implicit Types (w : stream_socket S) (evs : list sock_event).

(** C13: every transfer of a stream under a finite timeout returns as soon as its asio
    operation completes; it reports [timed_out] exactly when the wait handler ran at or
    after the deadline before that (the socket is then closed), and the operation's own
    error and byte count otherwise; afterwards no deadline is left armed. *)
Theorem stream_transfer_timeout op evs d w ts t err n rest :
  op ∈ [send; receive; write_some; read_some] →
  disarmed w → finite_timeout d w → events_ok evs → 0 ≤ n < 2 ^ 64 →
  first_op evs = Some (ts, (t, err, n), rest) → err ≠ would_block → err ≠ try_again →
  ∃ w', op evs (Timeout d) w =
      (w', rest, IoDone (if late (now w + d) ts then timed_out else err) n) ∧
    disarmed w' ∧
    (late (now w + d) ts = true → is_open (self w') = false) ∧
    (late (now w + d) ts = false → self w' = self w).
Proof.
  intros Hop Hdis Hfin Hev Hn Ho Hnb Hnt.
  destruct (transfer_finite evs d w ts t err n rest) as (E1 & E2 & E3 & E4); [done..|].
  eexists. split; [|split; [exact E3|rewrite E4; split; intros ->; [apply close_closes|done]]].
  repeat (apply elem_of_cons in Hop as [->|Hop]; [exact E1 || exact E2|]).
  by apply elem_of_nil in Hop.
Qed.

(** With the I/O timeout disabled, the overloads that take no timeout wait for the
    operation however long it takes: they return its own error, leave the socket as it
    was, and no run of the wait handler makes them time out. *)
Theorem stream_no_timeout_when_disabled op evs w ts t err n rest :
  op ∈ [send_default; receive_default; write_some_default; read_some_default] →
  io_timeout_enabled (self w) = false →
  disarmed w → clock_ok (now w) → events_ok evs → 0 ≤ n < 2 ^ 64 →
  first_op evs = Some (ts, (t, err, n), rest) → err ≠ would_block → err ≠ try_again →
  ∃ w', op evs w = (w', rest, IoDone err n) ∧ disarmed w' ∧ self w' = self w.
Proof.
  intros Hop Hio Hdis Hc Hev Hn Ho Hnb Hnt.
  destruct (transfer_indefinite evs w ts t err n rest) as (E1 & E2 & E3 & E4); [done..|].
  assert (Ht : io_timeout (self w) = kInfiniteDuration).
  { unfold io_timeout. unfold io_timeout_enabled in Hio. by rewrite Hio. }
  eexists. split; [|split; [exact E3|exact E4]].
  repeat (apply elem_of_cons in Hop as [->|Hop];
    [unfold send_default, receive_default, write_some_default, read_some_default;
     rewrite Ht; exact E1 || exact E2|]).
  by apply elem_of_nil in Hop.
Qed.

(** [receive(buffers)] with the I/O timeout enabled: it throws [timed_out] when the
    deadline passes first, and then the socket is closed; it throws the operation's
    error when that fails; else it returns the number of bytes received. *)
Theorem receive_default_throw_outcome evs w ts t err n rest :
  io_timeouted_ (self w) = true →
  disarmed w → finite_timeout (io_operation_timeout_ (self w)) w → events_ok evs → 0 ≤ n < 2 ^ 64 →
  first_op evs = Some (ts, (t, err, n), rest) → err ≠ would_block → err ≠ try_again →
  let dl := now w + io_operation_timeout_ (self w) in
  ∃ w', disarmed w' ∧ is_open (self w') = (negb (late dl ts) && is_open (self w)) ∧
    receive_default_throw evs w =
      (w', rest,
       if late dl ts then IoThrow (mk_se timed_out "Socket receive() failed")
       else if ec_failed err then IoThrow (mk_se err "Socket receive() failed")
       else IoDone err n).
Proof.
  intros Hio Hdis Hfin Hev Hn Ho Hnb Hnt dl.
  destruct (transfer_finite evs (io_operation_timeout_ (self w)) w ts t err n rest)
    as (E1 & _ & E3 & E4); [done..|].
  eexists. split; [exact E3|]. split.
  - rewrite E4. fold dl. destruct (late dl ts); simpl; [apply close_closes|done].
  - unfold receive_default_throw, receive_throw, receive, async_receive, call_throw, io_timeout.
    rewrite Hio, E1. fold dl. simpl.
    destruct (late dl ts); [by rewrite timed_out_failed|]. done.
Qed.

(** A timeout below the clock resolution is thrown as [timed_out] before any handler
    runs, by the [error_code&] overloads too, which leave their [ec] to the caller; the
    object's timer is reset, so a deadline armed earlier on it is lost. *)
Theorem stream_short_timeout_throws op evs d w :
  op ∈ [send; receive; write_some; read_some] →
  d < kDurationResolution → clock_ok (now w) →
  ∃ w', op evs (Timeout d) w = (w', evs, IoThrow (mk_se timed_out "")) ∧
    timer_expiry (base w') = time_point_max ∧ self w' = self w.
Proof.
  intros Hop Hd Hc. destruct (transfer_short evs d w Hd Hc) as (E1 & E2 & E3 & E4).
  eexists. split; [|split; [exact E3|exact E4]].
  repeat (apply elem_of_cons in Hop as [->|Hop]; [exact E1 || exact E2|]).
  by apply elem_of_nil in Hop.
Qed.

(** Where [EAGAIN] and [EWOULDBLOCK] differ, a transfer whose first attempt ends in
    [try_again] is retried without any deadline: the first closure's expiration has been
    destroyed and none is set up again, so the later attempts wait for their completions
    past the deadline, and the counts of the attempts add up although each starts from
    the beginning of the buffers. *)
Theorem send_retry_has_no_deadline evs d w ts t n rest ns err m rest' :
  EAGAIN ≠ EWOULDBLOCK →
  disarmed w → finite_timeout d w → events_ok evs →
  first_op evs = Some (ts, (t, try_again, n), rest) → late (now w + d) ts = false →
  attempts rest ns err m rest' →
  ∃ w', send evs (Timeout d) w = (w', rest', IoDone err (foldl (λ b k, b +u k) 0 (n :: ns ++ [m]))) ∧
    self w' = self w.
Proof.
  intros Hpl Hdis Hfin Hev Ho Hl Ha.
  destruct (transfer_retried evs d w ts t n rest ns err m rest') as (w' & E1 & E2 & _); [done..|].
  by exists w'.
Qed.

(** Where they coincide (Linux) the retry is dead code: a transfer whose operation
    completes in time with [EAGAIN] never returns, whatever the io_service runs next. *)
Theorem eagain_completion_never_returns op evs d w ts t n rest :
  op ∈ [send; receive] →
  EAGAIN = EWOULDBLOCK →
  disarmed w → finite_timeout d w → events_ok evs →
  first_op evs = Some (ts, (t, try_again, n), rest) → late (now w + d) ts = false →
  ∃ w' evs', op evs (Timeout d) w = (w', evs', IoBlocked).
Proof.
  intros Hop Hpl Hdis Hfin Hev Ho Hl.
  destruct (transfer_stuck evs d w ts t n rest) as [w' E1]; [done..|]. exists w', [].
  repeat (apply elem_of_cons in Hop as [->|Hop]; [exact E1|]).
  by apply elem_of_nil in Hop.
Qed.

(** [close()] closes a socket only when the shutdown finds it not connected; after a
    shutdown that succeeds it reports success and the socket is still open. *)
Theorem stream_close_outcome (b : base_socket S) :
  let ec := (sk_shutdown (socket_ b)).2 in
  let '(b', ec') := stream_close b in
  if decide (ec = not_connected) then is_open b' = false
  else ec' = ec ∧ is_open b' = is_open b.
Proof.
  unfold stream_close, next_layer. pose proof (sk_shutdown_open (socket_ b)) as Ho.
  destruct (sk_shutdown (socket_ b)) as [s ec]. simpl in *.
  destruct (decide (ec = not_connected)) as [->|Hne].
  - rewrite decide_False by naive_solver.
    pose proof (close_closes (set_socket s b)) as Hc. by destruct (close _).
  - rewrite decide_True by done. done.
Qed.

End Claims.

Lemma stream_transfer_timeout_witness :
  ∃ w', send [EvTimer 150; EvTimer 3100; EvOp 3200 operation_aborted 0] (Timeout 3000) toy_stream =
    (w', [], IoDone timed_out 0) ∧ is_open (self w') = false.
Proof.
  destruct (stream_transfer_timeout send
    [EvTimer 150; EvTimer 3100; EvOp 3200 operation_aborted 0] 3000 toy_stream
    [150; 3100] 3200 operation_aborted 0 []) as (w' & E1 & _ & E2 & _); try done.
  - by constructor.
  - repeat constructor; done.
  - exists w'. split; [exact E1|by apply E2].
Defined.

Lemma stream_no_timeout_when_disabled_witness :
  ∃ w', receive_default [EvTimer 9000; EvOp 9900 ec_ok 7]
    (set_self (λ b, (set_io_timeout_enabled false b).1) toy_stream) = (w', [], IoDone ec_ok 7).
Proof.
  destruct (stream_no_timeout_when_disabled receive_default [EvTimer 9000; EvOp 9900 ec_ok 7]
    (set_self (λ b, (set_io_timeout_enabled false b).1) toy_stream)
    [9000] 9900 ec_ok 7 []) as (w' & E1 & _); try done.
  - do 2 constructor.
  - repeat constructor; done.
  - by exists w'.
Defined.

Lemma receive_default_throw_outcome_witness :
  ∃ w', receive_default_throw [EvTimer 6000; EvOp 6001 operation_aborted 0] toy_stream =
    (w', [], IoThrow (mk_se timed_out "Socket receive() failed")).
Proof.
  destruct (receive_default_throw_outcome [EvTimer 6000; EvOp 6001 operation_aborted 0] toy_stream
    [6000] 6001 operation_aborted 0 []) as (w' & _ & _ & E1); try done.
  - repeat constructor; done.
  - by exists w'.
Defined.

Lemma stream_short_timeout_throws_witness :
  ∃ w', send [EvOp 200 ec_ok 4] (Timeout 0) toy_stream =
    (w', [EvOp 200 ec_ok 4], IoThrow (mk_se timed_out "")).
Proof.
  destruct (stream_short_timeout_throws send [EvOp 200 ec_ok 4] 0 toy_stream) as (w' & E1 & _); try done.
  - by constructor.
  - by exists w'.
Defined.

Lemma send_retry_has_no_deadline_witness :
  ∃ w', send (pl := windows) [EvOp 200 (@try_again windows) 1; EvTimer 9000; EvOp 9900 ec_ok 4]
    (Timeout 2000) toy_stream = (w', [], IoDone ec_ok 5).
Proof.
  destruct (send_retry_has_no_deadline (pl := windows)
    [EvOp 200 (@try_again windows) 1; EvTimer 9000; EvOp 9900 ec_ok 4] 2000 toy_stream
    [] 200 1 [EvTimer 9000; EvOp 9900 ec_ok 4] [] ec_ok 4 []) as (w' & E1 & _); try done.
  - repeat constructor; done.
  - by eapply (attempts_last (pl := windows)).
  - by exists w'.
Defined.

Lemma eagain_completion_never_returns_witness :
  ∃ w' evs', send [EvOp 200 try_again 0; EvTimer 300; EvTimer 9000] (Timeout 2000) toy_stream =
    (w', evs', IoBlocked).
Proof.
  apply (eagain_completion_never_returns send [EvOp 200 try_again 0; EvTimer 300; EvTimer 9000] 2000
    toy_stream [] 200 0 [EvTimer 300; EvTimer 9000]); try done.
  - by constructor.
  - repeat constructor; done.
Defined.

Lemma stream_close_outcome_witness :
  let '(b', ec') := stream_close (self toy_stream) in ec' = ec_ok ∧ is_open b' = true.
Proof. exact (stream_close_outcome (self toy_stream)). Defined.
