(* ===== verification/DgramSocket.v ===== *)
(** * [datagram_socket]: UDP sockets under a deadline

    Models stream/dgram_socket.hpp and stream/impl/dgram_socket.ipp: [send] and [receive]
    of one datagram with their throwing and default-timeout overloads, over the state and
    the [close] of [base_socket]. *)

From S2P Require Import Prelude ErrorCode TimedBase IoLoop BaseSocket Transfer.
Open Scope sc_scope.

Section DgramSocket.
Context {S E : Type} `{AsioSocket S E, tm : AsioTimer, pl : Platform}.

(** The object: a [base_socket] with its timer and clock. *)
Definition datagram_socket : Type := timed (base_socket S).

Implicit Types (w : datagram_socket) (evs : list sock_event).

(** [async_send] and [async_receive] start the socket's own operations, of one datagram. *)
Definition dgram_async_send
    : timeout_or_deadline → bool → datagram_socket → datagram_socket * outcome expiration :=
  async_start.

Definition dgram_async_receive
    : timeout_or_deadline → bool → datagram_socket → datagram_socket * outcome expiration :=
  async_start.

(** [send(buffers, ec, timeout_or_deadline)]. *)
Definition dgram_send evs (t : timeout_or_deadline) w : call_result (D := base_socket S) Z :=
  transfer dgram_async_send evs t w.

Definition dgram_send_throw evs (t : timeout_or_deadline) w : call_result (D := base_socket S) Z :=
  call_throw "Socket send() failed" (dgram_send evs t w).

(** [send(buffers, ec)] and [send(buffers)]: the current I/O timeout. *)
Definition dgram_send_default evs w : call_result (D := base_socket S) Z :=
  dgram_send evs (Timeout (io_timeout (self w))) w.

Definition dgram_send_default_throw evs w : call_result (D := base_socket S) Z :=
  dgram_send_throw evs (Timeout (io_timeout (self w))) w.

(** [receive(buffers, ec, timeout_or_deadline)]. *)
Definition dgram_receive evs (t : timeout_or_deadline) w : call_result (D := base_socket S) Z :=
  transfer dgram_async_receive evs t w.

Definition dgram_receive_throw evs (t : timeout_or_deadline) w : call_result (D := base_socket S) Z :=
  call_throw "Socket receive() failed" (dgram_receive evs t w).

Definition dgram_receive_default evs w : call_result (D := base_socket S) Z :=
  dgram_receive evs (Timeout (io_timeout (self w))) w.

Definition dgram_receive_default_throw evs w : call_result (D := base_socket S) Z :=
  dgram_receive_throw evs (Timeout (io_timeout (self w))) w.

End DgramSocket.

Arguments datagram_socket : clear implicits.

(** A connected idle UDP socket over the toy socket, for the witnesses. *)
Definition toy_dgram : datagram_socket toy_socket :=
  mk_timed (mk_timed_base false time_point_max 1 false)
    (mk_base_socket (mk_toy true true false) 5000 5000 true) 100.

Section Claims.
Context {S E : Type} `{AsioSocketLaws S E, tm : AsioTimer, pl : Platform}.
Implicit Types (w : datagram_socket S) (evs : list sock_event).

(** The overloads of the datagram socket that take no timeout, in both I/O modes: with
    the timeout enabled a call that passes its deadline reports [timed_out] and closes the
    socket; with it disabled, or in time, the call reports the operation's own error and
    leaves the socket as it was; either way the byte count is the operation's and no
    deadline stays armed. *)
Theorem dgram_default_outcome op evs w ts t err n rest :
  op ∈ [dgram_send_default; dgram_receive_default] →
  disarmed w → finite_timeout (io_operation_timeout_ (self w)) w → events_ok evs → 0 ≤ n < 2 ^ 64 →
  first_op evs = Some (ts, (t, err, n), rest) → err ≠ would_block → err ≠ try_again →
  let expired := io_timeouted_ (self w) && late (now w + io_operation_timeout_ (self w)) ts in
  ∃ w', op evs w = (w', rest, IoDone (if expired then timed_out else err) n) ∧
    disarmed w' ∧ self w' = (if expired then (close (self w)).1 else self w) ∧
    is_open (self w') = negb expired && is_open (self w).
Proof.
  intros Hop Hdis Hfin Hev Hn Ho Hnb Hnt expired.
  assert (Hend : ∀ b : base_socket S, b = (if expired then (close (self w)).1 else self w) →
    is_open b = negb expired && is_open (self w)).
  { intros b ->. destruct expired; simpl; [apply close_closes|done]. }
  assert (E1 : ∃ w', transfer async_start evs (Timeout (io_timeout (self w))) w =
      (w', rest, IoDone (if expired then timed_out else err) n) ∧
    disarmed w' ∧ self w' = (if expired then (close (self w)).1 else self w)).
  { unfold expired, io_timeout. destruct (io_timeouted_ (self w)); simpl.
    - destruct (transfer_finite evs (io_operation_timeout_ (self w)) w ts t err n rest)
        as (E1 & _ & E3 & E4); [done..|]. by eexists.
    - destruct (transfer_indefinite evs w ts t err n rest) as (E1 & _ & E3 & E4);
        [by eauto with timed..|]. by eexists. }
  destruct E1 as (w' & E1 & E3 & E4). exists w'. split; [|by eauto].
  repeat (apply elem_of_cons in Hop as [->|Hop]; [exact E1|]).
  by apply elem_of_nil in Hop.
Qed.

(** A datagram that asio asks to try again is sent again, as a whole, with no deadline:
    the count returned is the sum over the attempts, more than the datagram's size. *)
Theorem dgram_retry_counts_twice evs d w size k ts t rest rest' :
  EAGAIN ≠ EWOULDBLOCK →
  disarmed w → finite_timeout d w → events_ok evs → 0 ≤ size → (2 + Z.of_nat k) * size < 2 ^ 64 →
  first_op evs = Some (ts, (t, try_again, size), rest) → late (now w + d) ts = false →
  attempts rest (replicate k size) ec_ok size rest' →
  ∃ w', dgram_send evs (Timeout d) w = (w', rest', IoDone ec_ok ((2 + Z.of_nat k) * size)).
Proof.
  intros Hpl Hdis Hfin Hev Hs Hsum Ho Hl Ha.
  destruct (transfer_retried evs d w ts t size rest (replicate k size) ec_ok size rest')
    as (w' & Er & _); [done..|]. exists w'. unfold dgram_send, dgram_async_send. rewrite Er.
  do 2 f_equal. replace (size :: replicate k size ++ [size]) with (replicate (2 + k) size).
  - assert (Hf : ∀ j a, 0 ≤ a → a + Z.of_nat j * size < 2 ^ 64 →
      foldl (λ b m, b +u m) a (replicate j size) = a + Z.of_nat j * size).
    { induction j as [|j IH]; intros a Ha' Hj; cbn [replicate foldl]; [lia|].
      rewrite u64_id, IH by nia. lia. }
    rewrite Hf by lia. lia.
  - cbn [replicate Nat.add]. f_equal. by rewrite replicate_cons_app.
Qed.

End Claims.

(** ** Witnesses *)

Lemma dgram_default_outcome_witness :
  ∃ w', dgram_receive_default [EvTimer 6000; EvOp 6001 operation_aborted 0] toy_dgram =
    (w', [], IoDone timed_out 0) ∧ is_open (self w') = false.
Proof.
  destruct (dgram_default_outcome dgram_receive_default
    [EvTimer 6000; EvOp 6001 operation_aborted 0] toy_dgram [6000] 6001 operation_aborted 0 [])
    as (w' & E1 & _ & _ & E2); try done.
  - by do 2 constructor.
  - repeat constructor; done.
  - by exists w'.
Defined.

Lemma dgram_retry_counts_twice_witness :
  ∃ w', dgram_send (pl := windows)
      [EvOp 200 (@try_again windows) 8; EvTimer 9000; EvOp 9900 (@try_again windows) 8; EvOp 9950 ec_ok 8]
      (Timeout 2000) toy_dgram = (w', [], IoDone ec_ok 24).
Proof.
  apply (dgram_retry_counts_twice (pl := windows) _ 2000 toy_dgram 8 1 [] 200
    [EvTimer 9000; EvOp 9900 (@try_again windows) 8; EvOp 9950 ec_ok 8] []); try done.
  - repeat constructor; done.
  - eapply (attempts_retry (pl := windows)); [done|]. by eapply (attempts_last (pl := windows)).
Defined.
