(* ===== verification/SslSocket.v ===== *)
(** * [ssl::stream_socket]: an encrypted stream over a [stream_socket]

    Models stream/ssl_stream_socket.hpp and stream/impl/ssl_stream_socket.ipp: the
    wrappers that run a synchronous operation of [boost::asio::ssl::stream] under one
    deadline, with the I/O timeout of the next layer switched off meanwhile, the
    [send]/[receive] loops over them, the handshake, the constructor and [close].
    [boost::asio::ssl::stream] is a parameter ([SslLayer]). *)

From S2P Require Import Prelude ErrorCode TimedBase IoLoop BaseSocket Transfer StreamSocket.
From Stdlib Require Import Strings.Byte.
Open Scope sc_scope.

(** The object: the next layer and the rest of [ssl_stream_] (the engine, its BIO
    buffers and the context). *)
Record ssl_stream (K G : Type) := mk_ssl { ssl_next : stream_socket K; ssl_engine : G }.
Arguments mk_ssl {K G}.
Arguments ssl_next {K G}.
Arguments ssl_engine {K G}.

(** [boost::asio::ssl::stream<tcp_client>] and the calls of asio and OpenSSL that the
    constructor makes.  Those that asio reports by an exception may throw: the construction
    of the context, the loading of the default certificates, the creation of the engine for
    a connection, and the settings of the verification. *)
Class SslLayer (K G : Type) := {
  ssl_context_ctor : outcome unit;
  ssl_set_default_verify_paths : outcome unit;
  ssl_init : stream_socket K → outcome (ssl_stream K G);
  ssl_set_host : string → ssl_stream K G → ssl_stream K G * bool;
  ssl_last_error : ssl_stream K G → Z;
  ssl_set_verify_mode : ssl_stream K G → outcome (ssl_stream K G);
  ssl_set_verify_callback : string → ssl_stream K G → outcome (ssl_stream K G);
  layer_handshake : ssl_stream K G → ssl_stream K G * error_code;
  layer_shutdown : ssl_stream K G → ssl_stream K G * error_code;
  layer_write_some : list byte → ssl_stream K G → ssl_stream K G * (Z * error_code);
  layer_read_some : nat → ssl_stream K G → ssl_stream K G * (list byte * error_code);
  (** the plaintext the engine has accepted for transmission so far *)
  ssl_accepted : ssl_stream K G → list byte;
  (** the value of [ssl::error::stream_truncated] *)
  stream_truncated : Z
}.

(** The settings of the next layer that [asio::ssl::stream] has no access to: it uses
    the next layer's [read_some] and [write_some] only. *)
Definition io_settings {K} (w : stream_socket K) : Z * Z * bool :=
  (connection_timeout_ (self w), io_operation_timeout_ (self w), io_timeouted_ (self w)).

(** Documented behaviour of [asio::ssl::stream]: [write_some] takes a prefix of the
    buffer and returns its length, [read_some] fills a prefix of the buffer. *)
Class SslLayerLaws (K G : Type) `{SslLayer K G} := {
  ssl_init_next w s : ssl_init w = Normal s → ssl_next s = w;
  ssl_set_host_next h s : ssl_next (ssl_set_host h s).1 = ssl_next s;
  ssl_set_verify_mode_next s s' : ssl_set_verify_mode s = Normal s' → ssl_next s' = ssl_next s;
  ssl_set_verify_callback_next h s s' : ssl_set_verify_callback h s = Normal s' → ssl_next s' = ssl_next s;
  layer_handshake_settings s : io_settings (ssl_next (layer_handshake s).1) = io_settings (ssl_next s);
  layer_write_settings b s : io_settings (ssl_next (layer_write_some b s).1) = io_settings (ssl_next s);
  layer_read_settings n s : io_settings (ssl_next (layer_read_some n s).1) = io_settings (ssl_next s);
  layer_write_count b s : 0 ≤ (layer_write_some b s).2.1 ≤ Z.of_nat (length b);
  layer_write_accepts b s :
    ssl_accepted (layer_write_some b s).1 = ssl_accepted s ++ take (Z.to_nat (layer_write_some b s).2.1) b;
  layer_read_count n s : (length (layer_read_some n s).2.1 ≤ n)%nat;
  (** the accepted plaintext is a matter of the engine alone *)
  ssl_accepted_engine s s' : ssl_engine s = ssl_engine s' → ssl_accepted s = ssl_accepted s'
}.

Section SslSocket.
Context {K E G : Type} `{sk : AsioSocket K E, tm : AsioTimer, pl : Platform, sl : SslLayer K G}.
Implicit Types (s : ssl_stream K G) (buf : list byte).

Definition set_next (f : stream_socket K → stream_socket K) s : ssl_stream K G :=
  mk_ssl (f (ssl_next s)) (ssl_engine s).

(** [connection_timeout()], [io_timeout()], [io_timeout_enabled()], [is_open()]: those
    of the next layer. *)
Definition ssl_connection_timeout s : Z := connection_timeout (self (ssl_next s)).
Definition ssl_io_timeout s : Z := io_timeout (self (ssl_next s)).
Definition ssl_io_timeout_enabled s : bool := io_timeout_enabled (self (ssl_next s)).
Definition ssl_is_open s : bool := is_open (self (ssl_next s)).
Definition ssl_now s : Z := now (ssl_next s).

Definition ssl_set_io_timeout (d : Z) s : ssl_stream K G * Z :=
  (set_next (set_self (λ b, (set_io_timeout d b).1)) s, io_operation_timeout_ (self (ssl_next s))).

(** [io_timeout_enabled(new_mode)]. *)
Definition ssl_set_io_timeout_enabled (m : bool) s : ssl_stream K G * bool :=
  (set_next (set_self (λ b, (set_io_timeout_enabled m b).1)) s, ssl_io_timeout_enabled s).

(** [scope_expire(timeout_or_deadline)]: on the next layer's timer. *)
Definition ssl_scope_expire (t : timeout_or_deadline) s : ssl_stream K G * outcome expiration :=
  let '(w, r) := scope_expire t (ssl_next s) in (mk_ssl w (ssl_engine s), r).

Definition ssl_expiration_dtor (e : expiration) s : ssl_stream K G :=
  set_next (expiration_dtor e) s.

(** [write_some(buffers, ec, timeout_or_deadline)].  When [scope_expire] throws, the
    statement that restores the I/O timeout mode is not reached. *)
Definition ssl_write_some buf (t : timeout_or_deadline) s
    : ssl_stream K G * outcome (Z * error_code) :=
  let '(s, orig_io_timeout_mode) := ssl_set_io_timeout_enabled false s in
  match ssl_scope_expire t s with
  | (s, Throw e) => (s, Throw e)
  | (s, Normal e) =>
      let '(s, (n_bytes, ec)) := layer_write_some buf s in
      let s := (ssl_set_io_timeout_enabled orig_io_timeout_mode s).1 in
      (ssl_expiration_dtor e s, Normal (n_bytes, ec))
  end.

(** [read_some(buffers, ec, timeout_or_deadline)], into a buffer of [cap] bytes. *)
Definition ssl_read_some (cap : nat) (t : timeout_or_deadline) s
    : ssl_stream K G * outcome (list byte * error_code) :=
  let '(s, orig_io_timeout_mode) := ssl_set_io_timeout_enabled false s in
  match ssl_scope_expire t s with
  | (s, Throw e) => (s, Throw e)
  | (s, Normal e) =>
      let '(s, (data, ec)) := layer_read_some cap s in
      let s := (ssl_set_io_timeout_enabled orig_io_timeout_mode s).1 in
      (ssl_expiration_dtor e s, Normal (data, ec))
  end.

(** [handshake(ec, timeout_or_deadline)] and its throwing overload. *)
Definition ssl_handshake (t : timeout_or_deadline) s : ssl_stream K G * outcome error_code :=
  let '(s, orig_io_timeout_mode) := ssl_set_io_timeout_enabled false s in
  match ssl_scope_expire t s with
  | (s, Throw e) => (s, Throw e)
  | (s, Normal e) =>
      let '(s, err) := layer_handshake s in
      let s := (ssl_set_io_timeout_enabled orig_io_timeout_mode s).1 in
      (ssl_expiration_dtor e s, Normal err)
  end.

Definition ssl_handshake_throw (t : timeout_or_deadline) s : ssl_stream K G * outcome unit :=
  match ssl_handshake t s with
  | (s, Normal ec) => (s, if ec_failed ec then Throw (mk_se ec "") else Normal tt)
  | (s, Throw e) => (s, Throw e)
  end.

(** [handshake()]: the connection timeout. *)
Definition ssl_handshake_default s : ssl_stream K G * outcome unit :=
  ssl_handshake_throw (Timeout (ssl_connection_timeout s)) s.

(** [send(buffers, ec, deadline)]: [fuel] bounds the calls of [write_some]; [None] is a
    loop that has not ended after that many.  [buffers] is never advanced. *)
Fixpoint ssl_send_loop (fuel : nat) buf (deadline : Z) s (ec : error_code) (transfered_bytes : Z)
    : option (ssl_stream K G * outcome (Z * error_code)) :=
  if decide (transfered_bytes = Z.of_nat (length buf)) then
    Some (s, Normal (transfered_bytes, ec))
  else
    match fuel with
    | O => None
    | S fuel =>
        match ssl_write_some buf (Deadline deadline) s with
        | (s, Throw e) => Some (s, Throw e)
        | (s, Normal (n, ec)) =>
            let transfered_bytes := transfered_bytes +u n in
            if ec_failed ec then Some (s, Normal (transfered_bytes, ec))
            else ssl_send_loop fuel buf deadline s ec transfered_bytes
        end
    end.

Definition ssl_send (fuel : nat) buf (ec : error_code) (deadline : Z) s :=
  ssl_send_loop fuel buf deadline s ec 0.

(** [send(buffers, ec, timeout)] and [send(buffers, ec)]: the deadline is a sum of the
    clock and a duration. *)
Definition ssl_send_timeout (fuel : nat) buf (ec : error_code) (timeout : Z) s :=
  ssl_send fuel buf ec (ssl_now s +i timeout) s.

Definition ssl_send_default (fuel : nat) buf (ec : error_code) s :=
  ssl_send fuel buf ec (ssl_now s +i ssl_io_timeout s) s.

(** Reading [data] into the start of a buffer that holds [dst]. *)
Definition overlay (data dst : list byte) : list byte := data ++ drop (length data) dst.

(** [receive(buffers, ec, deadline)]: the buffer's contents are [dst]; every
    [read_some] is given the whole buffer again. *)
Fixpoint ssl_receive_loop (fuel : nat) (dst : list byte) (deadline : Z) s (ec : error_code)
    (transfered_bytes : Z) : option (ssl_stream K G * list byte * outcome (Z * error_code)) :=
  if decide (transfered_bytes = Z.of_nat (length dst)) then
    Some (s, dst, Normal (transfered_bytes, ec))
  else
    match fuel with
    | O => None
    | S fuel =>
        match ssl_read_some (length dst) (Deadline deadline) s with
        | (s, Throw e) => Some (s, dst, Throw e)
        | (s, Normal (data, ec)) =>
            let dst := overlay data dst in
            let transfered_bytes := transfered_bytes +u Z.of_nat (length data) in
            if ec_failed ec then Some (s, dst, Normal (transfered_bytes, ec))
            else ssl_receive_loop fuel dst deadline s ec transfered_bytes
        end
    end.

Definition ssl_receive (fuel : nat) (dst : list byte) (ec : error_code) (deadline : Z) s :=
  ssl_receive_loop fuel dst deadline s ec 0.

Definition ssl_receive_timeout (fuel : nat) (dst : list byte) (ec : error_code) (timeout : Z) s :=
  ssl_receive fuel dst ec (ssl_now s +i timeout) s.

Definition ssl_receive_default (fuel : nat) (dst : list byte) (ec : error_code) s :=
  ssl_receive fuel dst ec (ssl_now s +i ssl_io_timeout s) s.

(** What the throwing overloads make of a result. *)
Definition value_or_throw {A} (what : string) (r : outcome (A * error_code)) : outcome A :=
  match r with
  | Normal (v, ec) => if ec_failed ec then Throw (mk_se ec what) else Normal v
  | Throw e => Throw e
  end.

(** [write_some(buffers, timeout_or_deadline)], [write_some(buffers, ec)] and
    [write_some(buffers)]. *)
Definition ssl_write_some_throw buf (t : timeout_or_deadline) s : ssl_stream K G * outcome Z :=
  let '(s, r) := ssl_write_some buf t s in (s, value_or_throw "" r).

Definition ssl_write_some_default buf s := ssl_write_some buf (Timeout (ssl_io_timeout s)) s.

Definition ssl_write_some_default_throw buf s := ssl_write_some_throw buf (Timeout (ssl_io_timeout s)) s.

(** The same overloads of [read_some]. *)
Definition ssl_read_some_throw (cap : nat) (t : timeout_or_deadline) s : ssl_stream K G * outcome (list byte) :=
  let '(s, r) := ssl_read_some cap t s in (s, value_or_throw "" r).

Definition ssl_read_some_default (cap : nat) s := ssl_read_some cap (Timeout (ssl_io_timeout s)) s.

Definition ssl_read_some_default_throw (cap : nat) s :=
  ssl_read_some_throw cap (Timeout (ssl_io_timeout s)) s.

(** [send(buffers, deadline)], [send(buffers, timeout)] and [send(buffers)]. *)
Definition ssl_send_throw (fuel : nat) buf (deadline : Z) s : option (ssl_stream K G * outcome Z) :=
  '(s, r) ← ssl_send fuel buf ec_ok deadline s; Some (s, value_or_throw "Socket send() failed" r).

Definition ssl_send_timeout_throw (fuel : nat) buf (timeout : Z) s :=
  ssl_send_throw fuel buf (ssl_now s +i timeout) s.

Definition ssl_send_default_throw (fuel : nat) buf s :=
  ssl_send_throw fuel buf (ssl_now s +i ssl_io_timeout s) s.

(** [receive(buffers, deadline)], [receive(buffers, timeout)] and [receive(buffers)]. *)
Definition ssl_receive_throw (fuel : nat) (dst : list byte) (deadline : Z) s
    : option (ssl_stream K G * list byte * outcome Z) :=
  '(s, dst, r) ← ssl_receive fuel dst ec_ok deadline s;
  Some (s, dst, value_or_throw "Socket receive() failed" r).

Definition ssl_receive_timeout_throw (fuel : nat) (dst : list byte) (timeout : Z) s :=
  ssl_receive_throw fuel dst (ssl_now s +i timeout) s.

Definition ssl_receive_default_throw (fuel : nat) (dst : list byte) s :=
  ssl_receive_throw fuel dst (ssl_now s +i ssl_io_timeout s) s.

(** [close()]: the SSL shutdown; a short read of the ssl category is no error. *)
Definition ssl_close s : ssl_stream K G * error_code :=
  let '(s, ec) := layer_shutdown s in
  let ssl_short_read_err := ec_value ec =? stream_truncated in
  let ec := if decide (ec_cat ec = cat_ssl) then
              if ssl_short_read_err then mk_ec (ec_cat ec) 0 else ec
            else ec in
  if ec_failed ec then (s, ec)
  else
    let '(b, ec) := close (self (ssl_next s)) in
    (set_next (set_self (λ _, b)) s, ec).

(** [close(ec)]: [ec = close()]. *)
Definition ssl_close_ec (ec : error_code) s : ssl_stream K G * error_code :=
  ssl_close s.

(** The next step of the constructor, unless this one throws. *)
Definition or_throw {A R} (r : outcome A) (next : A → io_result R) : io_result R :=
  match r with Normal a => next a | Throw e => IoThrow e end.

(** [stream_socket(peer_endpoint, connect_timeout, operation_timeout, upstream_host,
    rfc2818_handshake)]. *)
Definition ssl_stream_ctor (on_linux : bool) (evs : list (io_event unit)) (ep : E)
    (connect_timeout operation_timeout : Z) (upstream_host : string) (rfc2818_handshake : bool)
    (t0 : Z) : io_result (ssl_stream K G) :=
  or_throw ssl_context_ctor (λ _,
  let deadline := t0 +i connect_timeout in
  or_throw ssl_set_default_verify_paths (λ _,
  match base_socket_ctor tcp on_linux evs ep connect_timeout operation_timeout t0 with
  | IoBlocked => IoBlocked
  | IoThrow e => IoThrow e
  | IoDone ec w =>
      or_throw (ssl_init w) (λ s,
      let '(s, ok) := ssl_set_host upstream_host s in
      if negb ok then IoThrow (mk_se (mk_ec cat_ssl (ssl_last_error s)) "")
      else if rfc2818_handshake then
        or_throw (ssl_set_verify_mode s) (λ s,
        or_throw (ssl_set_verify_callback upstream_host s) (λ s,
        match ssl_handshake_throw (Deadline deadline) s with
        | (s, Normal _) => IoDone ec_ok s
        | (_, Throw e) => IoThrow e
        end))
      else IoDone ec_ok s)
  end)).

(** Property of an engine in partial-write mode with records of [k] bytes: a write
    accepts at most [k] bytes. *)
Definition record_size (k : nat) : Prop :=
  ∀ buf s, (layer_write_some buf s).2 = (Z.of_nat (Nat.min k (length buf)), ec_ok).

End SslSocket.

(** A concrete layer for the witnesses: the engine accepts two bytes a call and
    delivers the chunks of its input queue. *)
Record toy_engine := mk_toy_engine { toy_out : list byte; toy_in : list (list byte) }.

#[export] Instance toy_ssl_layer : SslLayer toy_socket toy_engine := {|
  ssl_context_ctor := Normal tt;
  ssl_set_default_verify_paths := Normal tt;
  ssl_init w := Normal (mk_ssl w (mk_toy_engine [] []));
  ssl_set_host _ s := (s, true);
  ssl_last_error _ := 1;
  ssl_set_verify_mode s := Normal s;
  ssl_set_verify_callback _ s := Normal s;
  layer_handshake s := (s, ec_ok);
  layer_shutdown s := (s, ec_ok);
  layer_write_some b s :=
    let n := Nat.min 2 (length b) in
    (mk_ssl (ssl_next s)
       (mk_toy_engine (toy_out (ssl_engine s) ++ take n b) (toy_in (ssl_engine s))),
     (Z.of_nat n, ec_ok));
  layer_read_some n s :=
    match toy_in (ssl_engine s) with
    | [] => (s, ([], asio_eof))
    | c :: cs =>
        (mk_ssl (ssl_next s) (mk_toy_engine (toy_out (ssl_engine s)) cs),
         (take n c, ec_ok))
    end;
  ssl_accepted s := toy_out (ssl_engine s);
  stream_truncated := 1
|}.

#[export] Instance toy_ssl_layer_laws : SslLayerLaws toy_socket toy_engine.
Proof.
  split; cbn -[Nat.min]; try done; try (by intros; simplify_eq).
  - intros n s. by destruct (toy_in _).
  - intros b s. lia.
  - intros b s. by rewrite Nat2Z.id.
  - intros n s. destruct (toy_in _); simpl; [lia|]. rewrite length_take. lia.
  - by intros s s' ->.
Qed.

Definition toy_ssl (input : list (list byte)) : ssl_stream toy_socket toy_engine :=
  mk_ssl toy_stream (mk_toy_engine [] input).

Section Lemmas.
Context {K E G : Type} `{sk : AsioSocket K E, tm : AsioTimer, pl : Platform, sl : SslLayer K G, !SslLayerLaws K G}.
Implicit Types (s : ssl_stream K G) (buf : list byte).

Lemma dtor_settings e (w : stream_socket K) : io_settings (expiration_dtor e w) = io_settings w.
Proof. unfold expiration_dtor. by destruct (exp_timer e). Qed.

(** Arming touches the timer only, and fails only for a duration below the resolution. *)
Lemma ssl_scope_expire_cases t s :
  ∃ w r, ssl_scope_expire t s = (mk_ssl w (ssl_engine s), r) ∧
    self w = self (ssl_next s) ∧ now w = now (ssl_next s) ∧
    (∀ e, r = Throw e → e = mk_se timed_out "" ∧ ∃ d, t = Timeout d ∧ d < kDurationResolution).
Proof.
  unfold ssl_scope_expire, scope_expire. destruct t as [d|p].
  - unfold expiration_duration. destruct (d <? kDurationResolution) eqn:Ed; bool_prop.
    + do 2 eexists. split; [done|]. split; [done|]. split; [done|]. intros e [= <-]. eauto.
    + destruct (d =? kInfiniteDuration); do 2 eexists; done.
  - do 2 eexists. done.
Qed.

(** Restoring the mode after an operation of the layer restores the settings. *)
Lemma mode_restored e s s1 (w : stream_socket K) :
  self w = self (ssl_next (ssl_set_io_timeout_enabled false s).1) →
  io_settings (ssl_next s1) = io_settings w →
  io_settings (ssl_next (ssl_expiration_dtor e
    (ssl_set_io_timeout_enabled (ssl_io_timeout_enabled s) s1).1)) = io_settings (ssl_next s).
Proof.
  intros Hw Hs. unfold ssl_expiration_dtor, set_next. cbn [ssl_next]. rewrite dtor_settings.
  unfold io_settings in *. rewrite Hw in Hs. simpl in *. by injection Hs as -> -> _.
Qed.

(** What a call of [ssl_write_some] with a deadline does. *)
Lemma ssl_write_some_deadline buf dl s :
  ∃ s' n ec, ssl_write_some buf (Deadline dl) s = (s', Normal (n, ec)) ∧
    io_settings (ssl_next s') = io_settings (ssl_next s) ∧ 0 ≤ n ≤ Z.of_nat (length buf) ∧
    ssl_accepted s' = ssl_accepted s ++ take (Z.to_nat n) buf ∧
    (∀ k, record_size (G := G) k → n = Z.of_nat (Nat.min k (length buf)) ∧ ec = ec_ok).
Proof.
  unfold ssl_write_some, ssl_set_io_timeout_enabled.
  edestruct (ssl_scope_expire_cases (Deadline dl)) as (w & r & -> & Hself & _ & Hr).
  destruct r as [e|e]; [|destruct (Hr e eq_refl) as (_ & ? & ? & _); done].
  set (s1 := mk_ssl w _).
  pose proof (layer_write_settings buf s1) as H1. pose proof (layer_write_count buf s1) as H2.
  pose proof (layer_write_accepts buf s1) as H3.
  assert (Hk : ∀ k, record_size (G := G) k →
    (layer_write_some buf s1).2 = (Z.of_nat (Nat.min k (length buf)), ec_ok)) by (intros k Hk; apply Hk).
  destruct (layer_write_some buf s1) as [s2 [n ec]]. simpl in H1, H2, H3, Hk.
  exists (ssl_expiration_dtor e (set_next (set_self
    (λ b, (set_io_timeout_enabled (ssl_io_timeout_enabled s) b).1)) s2)), n, ec.
  split; [done|]. split_and!; [|lia..| |].
  - by apply (mode_restored e s s2 w).
  - rewrite (ssl_accepted_engine _ s2) by done. rewrite H3. f_equal. by apply ssl_accepted_engine.
  - intros k Hrec. specialize (Hk k Hrec). by injection Hk as -> ->.
Qed.

Lemma ssl_read_some_deadline cap dl s :
  ∃ s' data ec, ssl_read_some cap (Deadline dl) s = (s', Normal (data, ec)) ∧
    io_settings (ssl_next s') = io_settings (ssl_next s) ∧ (length data ≤ cap)%nat.
Proof.
  unfold ssl_read_some, ssl_set_io_timeout_enabled.
  edestruct (ssl_scope_expire_cases (Deadline dl)) as (w & r & -> & Hself & _ & Hr).
  destruct r as [e|e]; [|destruct (Hr e eq_refl) as (_ & ? & ? & _); done].
  set (s1 := mk_ssl w _).
  pose proof (layer_read_settings cap s1) as H1. pose proof (layer_read_count cap s1) as H2.
  destruct (layer_read_some cap s1) as [s2 [data ec]]. simpl in H1, H2.
  exists (ssl_expiration_dtor e (set_next (set_self
    (λ b, (set_io_timeout_enabled (ssl_io_timeout_enabled s) b).1)) s2)), data, ec.
  split; [done|]. split; [|done].
  by apply (mode_restored e s s2 w).
Qed.

(** A handshake with a deadline does not throw and restores the I/O timeout mode. *)
Lemma ssl_handshake_deadline dl s :
  ∃ s' err, ssl_handshake (Deadline dl) s = (s', Normal err) ∧
    io_settings (ssl_next s') = io_settings (ssl_next s).
Proof.
  unfold ssl_handshake, ssl_set_io_timeout_enabled.
  edestruct (ssl_scope_expire_cases (Deadline dl)) as (w & r & -> & Hself & _ & Hr).
  destruct r as [e|e]; [|destruct (Hr e eq_refl) as (_ & ? & ? & _); done].
  set (s1 := mk_ssl w _). pose proof (layer_handshake_settings s1) as H1.
  destruct (layer_handshake s1) as [s2 err]. simpl in H1.
  do 2 eexists. split; [done|]. by apply (mode_restored e s s2 w).
Qed.

(** The plaintext on the wire after calls that accepted [ns] bytes each. *)
Definition resent (buf : list byte) (ns : list Z) : list byte :=
  concat (map (λ n, take (Z.to_nat n) buf) ns).

End Lemmas.

Section SendLemmas.
Context {K E G : Type} `{sk : AsioSocket K E, tm : AsioTimer, pl : Platform, sl : SslLayer K G, !SslLayerLaws K G}.
Implicit Types (s : ssl_stream K G) (buf : list byte).

Definition sum_list (ns : list Z) : Z := foldr Z.add 0 ns.

Lemma send_loop_wire fuel buf dl s ec acc s' n ec' :
  ssl_send_loop fuel buf dl s ec acc = Some (s', Normal (n, ec')) → u64 acc = acc →
  ∃ ns, Forall (λ n, 0 ≤ n ≤ Z.of_nat (length buf)) ns ∧
    ssl_accepted s' = ssl_accepted s ++ resent buf ns ∧ n = u64 (acc + sum_list ns) ∧
    io_settings (ssl_next s') = io_settings (ssl_next s) ∧
    (ec_failed ec' = false → n = Z.of_nat (length buf)).
Proof.
  revert s ec acc. induction fuel as [|fuel IH]; intros s ec acc; cbn [ssl_send_loop].
  - case_decide; [|done]. intros [= <- <- <-] Ha. exists []. simpl.
    by rewrite app_nil_r, Z.add_0_r, Ha.
  - case_decide.
    { intros [= <- <- <-] Ha. exists []. simpl. by rewrite app_nil_r, Z.add_0_r, Ha. }
    destruct (ssl_write_some_deadline buf dl s) as (s1 & n1 & ec1 & -> & Hs1 & Hn1 & Hacc & _).
    destruct (ec_failed ec1) eqn:Ef.
    + intros [= <- <- <-] Ha. exists [n1]. split_and!; [by apply Forall_singleton| |simpl|done|congruence].
      * unfold resent. simpl. by rewrite app_nil_r.
      * by rewrite Z.add_0_r.
    + intros Hr Ha. apply IH in Hr as (ns & Hns & Ea & -> & Es & Hok); [|apply u64_idem].
      exists (n1 :: ns). split_and!; [by constructor| | |congruence|].
      * rewrite Ea, Hacc, <- app_assoc. done.
      * simpl. rewrite u64_add_l. f_equal. lia.
      * done.
Qed.

(** With records of [k] bytes every call accepts the same first [k] bytes. *)
Lemma send_loop_record fuel buf dl s ec k j :
  record_size (G := G) k → (k ≤ length buf)%nat → Z.of_nat (j * k) ≠ Z.of_nat (length buf) →
  Z.of_nat (Datatypes.S j * k) < 2 ^ 64 →
  ∃ s', ssl_send_loop (Datatypes.S fuel) buf dl s ec (Z.of_nat (j * k)) =
      ssl_send_loop fuel buf dl s' ec_ok (Z.of_nat (Datatypes.S j * k)) ∧
    ssl_accepted s' = ssl_accepted s ++ take k buf.
Proof.
  intros Hk Hle Hne Hlt. cbn [ssl_send_loop]. rewrite decide_False by done.
  destruct (ssl_write_some_deadline buf dl s) as (s1 & n1 & ec1 & -> & _ & _ & Hacc & Hrec).
  destruct (Hrec k Hk) as [-> ->]. exists s1. rewrite Nat.min_l in * by done.
  rewrite Nat2Z.id in Hacc. split; [|done]. cbn [ec_failed ec_value ec_ok].
  rewrite u64_id by lia. simpl. do 2 f_equal. lia.
Qed.

Lemma overlay_length data dst :
  (length data ≤ length dst)%nat → length (overlay data dst) = length dst.
Proof. intros. unfold overlay. rewrite length_app, length_drop. lia. Qed.

Lemma receive_loop_overlays fuel dst dl s ec acc s' dst' n ec' :
  ssl_receive_loop fuel dst dl s ec acc = Some (s', dst', Normal (n, ec')) → u64 acc = acc →
  ∃ cs, Forall (λ c, (length c ≤ length dst)%nat) cs ∧
    dst' = foldl (λ d c, overlay c d) dst cs ∧
    n = u64 (acc + sum_list (map (λ c, Z.of_nat (length c)) cs)) ∧
    io_settings (ssl_next s') = io_settings (ssl_next s) ∧
    (ec_failed ec' = false → n = Z.of_nat (length dst)).
Proof.
  revert s dst ec acc. induction fuel as [|fuel IH]; intros s dst ec acc; cbn [ssl_receive_loop].
  - case_decide; [|done]. intros [= <- <- <- <-] Ha. exists []. simpl. by rewrite Z.add_0_r, Ha.
  - case_decide.
    { intros [= <- <- <- <-] Ha. exists []. simpl. by rewrite Z.add_0_r, Ha. }
    destruct (ssl_read_some_deadline (length dst) dl s) as (s1 & c & ec1 & -> & Hs1 & Hc).
    destruct (ec_failed ec1) eqn:Ef.
    + intros [= <- <- <- <-] Ha. exists [c].
      split_and!; [by apply Forall_singleton|done|simpl|done|congruence]. by rewrite Z.add_0_r.
    + intros Hr Ha. apply IH in Hr as (cs & Hcs & -> & -> & Es & Hok); [|apply u64_idem].
      rewrite overlay_length in Hcs, Hok by done.
      exists (c :: cs). split_and!; [by constructor|done| |congruence|done].
      simpl. rewrite u64_add_l. f_equal. lia.
Qed.

End SendLemmas.

Section Claims.
Context {K E G : Type} `{sk : AsioSocket K E, tm : AsioTimer, pl : Platform, sl : SslLayer K G, !SslLayerLaws K G}.
Implicit Types (s : ssl_stream K G) (buf : list byte).

(** C34: what [send] puts on the wire: a sequence of prefixes of the buffer, one per
    [write_some], whose lengths add up to the returned count; the count is the buffer's
    size when it reports no error, and the I/O timeout mode is as it was. *)
Theorem ssl_send_wire fuel buf ec dl s s' n ec' :
  ssl_send fuel buf ec dl s = Some (s', Normal (n, ec')) →
  ∃ ns, Forall (λ n, 0 ≤ n ≤ Z.of_nat (length buf)) ns ∧
    ssl_accepted s' = ssl_accepted s ++ resent buf ns ∧ n = u64 (sum_list ns) ∧
    io_settings (ssl_next s') = io_settings (ssl_next s) ∧
    (ec_failed ec' = false → n = Z.of_nat (length buf)).
Proof. intros Hr. by apply send_loop_wire in Hr. Qed.

(** A buffer that fits one record is sent exactly, in one call of [write_some]. *)
Theorem ssl_send_one_record fuel buf ec dl s k :
  record_size (G := G) k → (0 < length buf ≤ k)%nat → Z.of_nat (length buf) < 2 ^ 64 →
  ∃ s', ssl_send (Datatypes.S fuel) buf ec dl s = Some (s', Normal (Z.of_nat (length buf), ec_ok)) ∧
    ssl_accepted s' = ssl_accepted s ++ buf.
Proof.
  intros Hk Hlen Hsz. unfold ssl_send. cbn [ssl_send_loop]. rewrite decide_False by lia.
  destruct (ssl_write_some_deadline buf dl s) as (s1 & n1 & ec1 & -> & _ & _ & Hacc & Hrec).
  destruct (Hrec k Hk) as [-> ->]. rewrite Nat.min_r in * by lia.
  cbn [ec_failed ec_value ec_ok]. rewrite u64_id by lia. exists s1.
  rewrite Nat2Z.id, firstn_all in Hacc. split; [|done]. simpl.
  destruct fuel; cbn [ssl_send_loop]; by rewrite decide_True by done.
Qed.

(** A longer buffer whose size is a multiple of the record size: [send] reports
    success and its full size, and has sent the first record over and over. *)
Theorem ssl_send_repeats_first_record fuel buf ec dl s k m :
  record_size (G := G) k → (0 < k)%nat → length buf = (m * k)%nat → (m ≤ fuel)%nat →
  (0 < m)%nat → Z.of_nat (length buf) < 2 ^ 64 →
  ∃ s', ssl_send fuel buf ec dl s = Some (s', Normal (Z.of_nat (length buf), ec_ok)) ∧
    ssl_accepted s' = ssl_accepted s ++ concat (replicate m (take k buf)).
Proof.
  intros Hk Hk0 Hlen Hfuel Hm Hsz.
  assert (Hgen : ∀ i j fuel s ec, (j + i = m)%nat → (i ≤ fuel)%nat → (0 < i)%nat ∨ ec = ec_ok →
    ∃ s', ssl_send_loop fuel buf dl s ec (Z.of_nat (j * k)) =
        Some (s', Normal (Z.of_nat (length buf), ec_ok)) ∧
      ssl_accepted s' = ssl_accepted s ++ concat (replicate i (take k buf))).
  { clear fuel s ec Hfuel. induction i as [|i IH]; intros j fuel s ec Hij Hf Hec.
    - destruct Hec as [?| ->]; [lia|]. exists s. rewrite app_nil_r. split; [|done].
      assert (j = m) as -> by lia. destruct fuel; cbn [ssl_send_loop];
        rewrite decide_True by lia; by rewrite Hlen.
    - destruct fuel as [|fuel]; [lia|].
      edestruct (send_loop_record fuel buf dl s ec k j) as (s1 & -> & Ha1); [done|nia..|].
      destruct (IH (Datatypes.S j) fuel s1 ec_ok) as (s2 & E2 & Ha2); [lia..|by right|].
      exists s2. split; [done|]. rewrite Ha2, Ha1. simpl. by rewrite <- app_assoc. }
  destruct (Hgen m 0%nat fuel s ec) as (s' & E1 & Ha); [lia..|by left|].
  exists s'. split; [|done]. exact E1.
Qed.

(** A buffer longer than a record whose size is not a multiple of it: [send] never
    returns, however many calls of [write_some] it has made (up to the wrap-around of
    its counter), although every call succeeds. *)
Theorem ssl_send_never_returns fuel buf ec dl s k :
  record_size (G := G) k → (0 < k < length buf)%nat → (length buf mod k ≠ 0)%nat →
  Z.of_nat (fuel * k) < 2 ^ 64 →
  ssl_send fuel buf ec dl s = None.
Proof.
  intros Hk Hlen Hmod Hsz.
  assert (Hne : ∀ j, Z.of_nat (j * k) ≠ Z.of_nat (length buf)).
  { intros j Hj. apply Hmod. assert (length buf = j * k)%nat as -> by lia.
    apply Nat.Div0.mod_mul. }
  assert (Hgen : ∀ i j s ec, (j + i = fuel)%nat →
    ssl_send_loop i buf dl s ec (Z.of_nat (j * k)) = None); [|exact (Hgen fuel 0%nat s ec eq_refl)].
  induction i as [|i IH]; intros j s0 ec0 Hij.
  - cbn [ssl_send_loop]. by rewrite decide_False.
  - destruct (send_loop_record i buf dl s0 ec0 k j) as (s1 & -> & _); [done|lia|done|nia|].
    apply IH. lia.
Qed.

(** What [receive] leaves in the buffer: the chunks it read, each written over the
    start of the buffer, so that only the last one is sure to be there; the returned
    count is the sum of the chunks' sizes and is the buffer's size when there was no
    error. *)
Theorem ssl_receive_overwrites fuel dst ec dl s s' dst' n ec' :
  ssl_receive fuel dst ec dl s = Some (s', dst', Normal (n, ec')) →
  ∃ cs, dst' = foldl (λ d c, overlay c d) dst cs ∧
    n = u64 (sum_list (map (λ c, Z.of_nat (length c)) cs)) ∧
    length dst' = length dst ∧
    (∀ c, last cs = Some c → take (length c) dst' = c) ∧
    (ec_failed ec' = false → n = Z.of_nat (length dst)).
Proof.
  intros Hr. apply receive_loop_overlays in Hr as (cs & Hcs & -> & -> & _ & Hok); [|done].
  exists cs. split_and!; [done..| | |done].
  - clear Hok. revert dst Hcs. induction cs as [|c cs IH]; intros dst Hcs; [done|].
    apply Forall_cons in Hcs as [Hc Hcs]. simpl.
    rewrite IH; rewrite ?overlay_length by done; done.
  - clear. intros c Hl. apply last_Some in Hl as [cs' ->]. rewrite foldl_app. simpl.
    unfold overlay. by rewrite take_app_length.
Qed.

(** With a deadline, or a timeout that [expiration] accepts, [write_some],
    [read_some] and [handshake] return normally and give the next layer's I/O timeout
    mode back as they found it. *)
Theorem ssl_calls_restore_io_mode t s buf cap :
  (∀ d, t = Timeout d → kDurationResolution ≤ d) →
  (∃ s' r, ssl_write_some buf t s = (s', Normal r) ∧ io_settings (ssl_next s') = io_settings (ssl_next s)) ∧
  (∃ s' r, ssl_read_some cap t s = (s', Normal r) ∧ io_settings (ssl_next s') = io_settings (ssl_next s)) ∧
  (∃ s' r, ssl_handshake t s = (s', Normal r) ∧ io_settings (ssl_next s') = io_settings (ssl_next s)).
Proof.
  intros Ht. unfold ssl_write_some, ssl_read_some, ssl_handshake, ssl_set_io_timeout_enabled.
  destruct (ssl_scope_expire_cases t (set_next (set_self (λ b, (set_io_timeout_enabled false b).1)) s))
    as (w & r & -> & Hself & _ & Hr).
  destruct r as [e|e]; [|destruct (Hr e eq_refl) as (_ & d & -> & ?); by specialize (Ht d eq_refl); lia].
  pose proof (layer_write_settings buf (mk_ssl w (ssl_engine s))) as H1.
  pose proof (layer_read_settings cap (mk_ssl w (ssl_engine s))) as H2.
  pose proof (layer_handshake_settings (mk_ssl w (ssl_engine s))) as H3.
  cbn [ssl_engine set_next].
  destruct (layer_write_some _ _) as [s1 [? ?]], (layer_read_some _ _) as [s2 [? ?]],
    (layer_handshake _) as [s3 ?].
  simpl in H1, H2, H3.
  split_and!; do 2 eexists; (split; [done|]); by eapply (mode_restored e s _ w).
Qed.

(** C35: the constructor on every path.  It creates the context, loads the default
    certificates, connects, creates the engine, sets the host name and then, unless told
    otherwise, switches verification on, against that host, and performs the handshake under
    the deadline of the whole construction: a stream is returned only when all of them
    succeeded, with the timeouts it was given, enabled; and what is thrown is the error of
    the first step that failed, none being attempted after it. *)
Theorem ssl_stream_ctor_outcome `{!AsioSocketLaws K E} on_linux evs (ep : E) ct ot host rfc2818 t0 :
  let connected := base_socket_ctor tcp on_linux evs ep ct ot t0 in
  let named s := ssl_set_host host s in
  let handshaken s := ssl_handshake (Deadline (t0 +i ct)) s in
  let context_ready := ssl_context_ctor = Normal tt ∧ ssl_set_default_verify_paths = Normal tt in
  match ssl_stream_ctor on_linux evs ep ct ot host rfc2818 t0 with
  | IoDone _ s =>
      ssl_connection_timeout s = ct ∧ ssl_io_timeout_enabled s = true ∧ ssl_io_timeout s = ot ∧
      context_ready ∧
      ∃ ec w s0, connected = IoDone ec w ∧ ssl_init w = Normal s0 ∧ (named s0).2 = true ∧
        if rfc2818 : bool then
          ∃ s1 s2 err, ssl_set_verify_mode (named s0).1 = Normal s1 ∧
            ssl_set_verify_callback host s1 = Normal s2 ∧
            handshaken s2 = (s, Normal err) ∧ ec_failed err = false
        else s = (named s0).1
  | IoThrow e =>
      ssl_context_ctor = Throw e ∨
      (ssl_context_ctor = Normal tt ∧ ssl_set_default_verify_paths = Throw e) ∨
      (context_ready ∧ connected = IoThrow e) ∨
      ∃ ec w, context_ready ∧ connected = IoDone ec w ∧
        (ssl_init w = Throw e ∨
         ∃ s0, ssl_init w = Normal s0 ∧
           (((named s0).2 = false ∧ e = mk_se (mk_ec cat_ssl (ssl_last_error (named s0).1)) "") ∨
            ((named s0).2 = true ∧ rfc2818 = true ∧
             (ssl_set_verify_mode (named s0).1 = Throw e ∨
              ∃ s1, ssl_set_verify_mode (named s0).1 = Normal s1 ∧
                (ssl_set_verify_callback host s1 = Throw e ∨
                 ∃ s2 err, ssl_set_verify_callback host s1 = Normal s2 ∧
                   (handshaken s2).2 = Normal err ∧ ec_failed err = true ∧ e = mk_se err "")))))
  | IoBlocked => context_ready ∧ connected = IoBlocked
  end.
Proof.
  intros connected named handshaken context_ready. unfold ssl_stream_ctor, or_throw. fold connected.
  unfold context_ready. destruct ssl_context_ctor as [[]|e]; [|by left].
  destruct ssl_set_default_verify_paths as [[]|e]; [|by right; left].
  destruct connected as [ec w|e|] eqn:Ec; [|by right; right; left|done].
  destruct (base_socket_ctor_settings _ _ _ _ _ _ _ _ _ Ec) as (_ & S1 & S2 & S3).
  destruct (ssl_init w) as [s0|e] eqn:Ei; [|do 3 right; by exists ec, w; eauto].
  pose proof (ssl_set_host_next host s0) as Hn. rewrite (ssl_init_next _ _ Ei) in Hn.
  destruct (ssl_set_host host s0) as [s1 ok] eqn:Eh. cbn [fst] in Hn.
  assert (Enamed : named s0 = (s1, ok)) by done.
  destruct ok; cbn [negb].
  2:{ do 3 right. exists ec, w. split_and!; [done..|]. right. exists s0. rewrite Enamed. eauto. }
  destruct rfc2818.
  2:{ unfold ssl_connection_timeout, ssl_io_timeout_enabled, ssl_io_timeout, io_timeout, io_timeout_enabled,
        connection_timeout. rewrite Hn, S1, S2, S3. split_and!; [done..|]. exists ec, w, s0. by rewrite Enamed. }
  destruct (ssl_set_verify_mode s1) as [s2|e] eqn:Em.
  2:{ do 3 right. exists ec, w. split_and!; [done..|]. right. exists s0. rewrite Enamed. eauto 10. }
  destruct (ssl_set_verify_callback host s2) as [s3|e] eqn:Eb.
  2:{ do 3 right. exists ec, w. split_and!; [done..|]. right. exists s0. rewrite Enamed. eauto 10. }
  unfold ssl_handshake_throw. destruct (ssl_handshake_deadline (t0 +i ct) s3) as (s4 & err & Es & Hset).
  rewrite (ssl_set_verify_callback_next _ _ _ Eb), (ssl_set_verify_mode_next _ _ Em), Hn in Hset. rewrite Es.
  destruct (ec_failed err) eqn:Ef.
  - do 3 right. exists ec, w. split_and!; [done..|]. right. exists s0. rewrite Enamed. split; [done|]. right.
    split_and!; [done..|]. right. exists s2. split; [done|]. right. exists s3, err. unfold handshaken. by rewrite Es.
  - unfold ssl_connection_timeout, ssl_io_timeout_enabled, ssl_io_timeout, io_timeout, io_timeout_enabled,
      connection_timeout. unfold io_settings in Hset. rewrite S1, S2, S3 in Hset.
    injection Hset as -> -> ->. split_and!; [done..|]. exists ec, w, s0. rewrite Enamed.
    split_and!; [done..|]. by exists s2, s3, err.
Qed.

(** With a shorter timeout all three throw [timed_out] and leave the I/O timeout
    mode switched off: from then on every call that uses the default timeout waits
    indefinitely, whatever [io_timeout_enabled] was before. *)
Theorem ssl_short_timeout_disables_io_timeout d s buf cap :
  d < kDurationResolution →
  ∃ s', ssl_write_some buf (Timeout d) s = (s', Throw (mk_se timed_out "")) ∧
    ssl_read_some cap (Timeout d) s = (s', Throw (mk_se timed_out "")) ∧
    ssl_handshake (Timeout d) s = (s', Throw (mk_se timed_out "")) ∧
    ssl_io_timeout_enabled s' = false ∧ ssl_io_timeout s' = kInfiniteDuration.
Proof.
  intros Hd. unfold ssl_write_some, ssl_read_some, ssl_handshake, ssl_set_io_timeout_enabled,
    ssl_scope_expire.
  cbn [ssl_next set_next]. rewrite scope_expire_short by done.
  eexists. split_and!; done.
Qed.

(** The overloads of [send] and [receive] without a timeout add the I/O timeout to
    the clock; with the I/O timeout disabled that sum overflows to a time before any
    reading of the clock, so the first run of the wait handler closes the socket,
    instead of the indefinite wait the mode stands for. *)
Theorem ssl_default_deadline_overflows fuel buf dst ec s :
  ssl_io_timeout_enabled s = false → clock_ok (ssl_now s) → 0 < ssl_now s →
  ∃ dl, ssl_send_default fuel buf ec s = ssl_send fuel buf ec dl s ∧
    ssl_receive_default fuel dst ec s = ssl_receive fuel dst ec dl s ∧ dl < 0 ∧
    (∀ w t, timer_waits (base w) = 1%nat → clock_ok (now w) → clock_ok t →
      let w' := run_timer t (scope_expire (Deadline dl) w).1 in
      deadline_fired_ (base w') = true ∧ self w' = (close (self w)).1).
Proof.
  intros Hio [? Hc] Hp. exists (ssl_now s +i ssl_io_timeout s). split_and!; [done..| |].
  - assert (ssl_io_timeout s = kInfiniteDuration) as ->.
    { unfold ssl_io_timeout, io_timeout. unfold ssl_io_timeout_enabled, io_timeout_enabled in Hio.
      by rewrite Hio. }
    unfold kInfiniteDuration, time_point_max, i64_max in *. rewrite i64_over; lia.
  - intros w t Hw Hcw Ht w'. subst w'.
    assert (Hdl : ssl_now s +i ssl_io_timeout s < 0).
    { assert (ssl_io_timeout s = kInfiniteDuration) as ->.
      { unfold ssl_io_timeout, io_timeout. unfold ssl_io_timeout_enabled, io_timeout_enabled in Hio.
        by rewrite Hio. }
      unfold kInfiniteDuration, time_point_max, i64_max in *. rewrite i64_over; lia. }
    rewrite scope_expire_deadline. cbn [fst].
    rewrite run_timer_late; [done|done| |by apply clock_ok_max].
    simpl. destruct Hcw. lia.
Qed.

(** C36: [close()] closes the connection exactly when the TLS shutdown succeeds or ends in a
    short read of OpenSSL's category; after any other error it returns that error and
    leaves the socket as the shutdown left it.  In particular the truncation that asio
    reports, which is of the category of [ssl::error::stream_errors], is not recognized:
    the code of the short read is compared with it, but so is OpenSSL's category. *)
Theorem ssl_close_outcome s `{!AsioSocketLaws K E} :
  let '(s1, ec1) := layer_shutdown s in
  let short_read := ec_cat ec1 = cat_ssl ∧ ec_value ec1 = stream_truncated in
  let '(s', ec') := ssl_close s in
  (ec_failed ec1 = false ∨ short_read →
     ssl_is_open s' = false ∧ ec' = (close (self (ssl_next s1))).2 ∧ ssl_engine s' = ssl_engine s1) ∧
  (ec_failed ec1 = true ∧ ¬ short_read → s' = s1 ∧ ec' = ec1) ∧
  (ec1 = mk_ec cat_ssl_stream stream_truncated → stream_truncated ≠ 0 →
     ec_failed ec' = true ∧ ssl_is_open s' = ssl_is_open s1).
Proof.
  unfold ssl_close. destruct (layer_shutdown s) as [s1 ec1]. cbv zeta.
  pose proof (close_closes (self (ssl_next s1))) as Hc.
  destruct (close (self (ssl_next s1))) as [b ec2]. cbn [fst] in Hc.
  assert (Hopen : ssl_is_open (set_next (set_self (λ _, b)) s1) = false) by done.
  destruct (decide (ec_cat ec1 = cat_ssl)) as [Hcat|Hcat];
    [destruct (Z.eqb_spec (ec_value ec1) stream_truncated) as [Hv|Hv]|].
  - change (ec_failed (mk_ec (ec_cat ec1) 0)) with false. split_and!; [done|tauto|]. intros ->. done.
  - destruct (ec_failed ec1) eqn:Ef; split_and!; try (by intuition); intros ->; done.
  - destruct (ec_failed ec1) eqn:Ef; split_and!; try (by intuition).
    intros -> Hn. unfold ec_failed in Ef. simpl in Ef. by rewrite (proj2 (Z.eqb_neq _ _) Hn) in Ef.
Qed.

End Claims.

Lemma toy_record_size : record_size (K := toy_socket) (G := toy_engine) 2.
Proof. by intros buf s. Qed.

Definition toy_bytes : list byte := [x01; x02; x03; x04].

Lemma ssl_send_wire_witness :
  ∃ s' ns, ssl_send 3 toy_bytes ec_ok 9000 (toy_ssl []) = Some (s', Normal (4, ec_ok)) ∧
    ssl_accepted s' = resent toy_bytes ns.
Proof.
  set (s' := mk_ssl toy_stream (mk_toy_engine [x01; x02; x01; x02] [])).
  assert (Hr : ssl_send 3 toy_bytes ec_ok 9000 (toy_ssl []) = Some (s', Normal (4, ec_ok)))
    by (vm_compute; reflexivity).
  destruct (ssl_send_wire 3 toy_bytes ec_ok 9000 (toy_ssl []) s' 4 ec_ok Hr) as (ns & _ & E & _).
  exists s', ns. split; [exact Hr|exact E].
Defined.

Lemma ssl_send_one_record_witness :
  ∃ s', ssl_send 1 [x01; x02] ec_ok 9000 (toy_ssl []) = Some (s', Normal (2, ec_ok)) ∧
    ssl_accepted s' = [x01; x02].
Proof.
  destruct (ssl_send_one_record 0 [x01; x02] ec_ok 9000 (toy_ssl []) 2) as (s' & E1 & E2).
  - apply toy_record_size.
  - simpl; lia.
  - done.
  - by exists s'.
Defined.

Lemma ssl_send_repeats_first_record_witness :
  ∃ s', ssl_send 2 toy_bytes ec_ok 9000 (toy_ssl []) = Some (s', Normal (4, ec_ok)) ∧
    ssl_accepted s' = [x01; x02; x01; x02].
Proof.
  destruct (ssl_send_repeats_first_record 2 toy_bytes ec_ok 9000 (toy_ssl []) 2 2) as (s' & E1 & E2).
  - apply toy_record_size.
  - lia.
  - done.
  - lia.
  - lia.
  - done.
  - by exists s'.
Defined.

Lemma ssl_send_never_returns_witness :
  ssl_send 1000 [x01; x02; x03] ec_ok 9000 (toy_ssl []) = None.
Proof.
  apply (ssl_send_never_returns 1000 [x01; x02; x03] ec_ok 9000 (toy_ssl []) 2).
  - apply toy_record_size.
  - simpl; lia.
  - done.
  - done.
Defined.

Lemma ssl_receive_overwrites_witness :
  ∃ s' dst', ssl_receive 2 [x00; x00; x00; x00] ec_ok 9000 (toy_ssl [[x01; x02]; [x03; x04]]) =
    Some (s', dst', Normal (4, ec_ok)) ∧ length dst' = 4%nat ∧ dst' = [x03; x04; x00; x00].
Proof.
  set (s' := mk_ssl toy_stream (mk_toy_engine [] [])).
  assert (Hr : ssl_receive 2 [x00; x00; x00; x00] ec_ok 9000 (toy_ssl [[x01; x02]; [x03; x04]]) =
    Some (s', [x03; x04; x00; x00], Normal (4, ec_ok))) by (vm_compute; reflexivity).
  destruct (ssl_receive_overwrites 2 [x00; x00; x00; x00] ec_ok 9000
    (toy_ssl [[x01; x02]; [x03; x04]]) s' [x03; x04; x00; x00] 4 ec_ok Hr) as (cs & _ & _ & El & _).
  exists s', [x03; x04; x00; x00]. split; [exact Hr|]. split; [exact El|reflexivity].
Defined.

Lemma ssl_calls_restore_io_mode_witness :
  ∃ s' r, ssl_write_some toy_bytes (Timeout 5000) (toy_ssl []) = (s', Normal r) ∧
    io_settings (ssl_next s') = (5000, 5000, true).
Proof.
  destruct (ssl_calls_restore_io_mode (Timeout 5000) (toy_ssl []) toy_bytes 4) as (H1 & _).
  - intros d [= <-]. done.
  - exact H1.
Defined.

Lemma ssl_short_timeout_disables_io_timeout_witness :
  ssl_io_timeout_enabled (toy_ssl []) = true ∧
  ∃ s', ssl_write_some toy_bytes (Timeout 0) (toy_ssl []) = (s', Throw (mk_se timed_out "")) ∧
    ssl_io_timeout_enabled s' = false.
Proof.
  split; [done|].
  destruct (ssl_short_timeout_disables_io_timeout 0 (toy_ssl []) toy_bytes 4)
    as (s' & E1 & _ & _ & E2 & _); [done|by exists s'].
Defined.

Lemma ssl_default_deadline_overflows_witness :
  ∃ dl, ssl_send_default 3 toy_bytes ec_ok
      (ssl_set_io_timeout_enabled false (toy_ssl [])).1 =
    ssl_send 3 toy_bytes ec_ok dl (ssl_set_io_timeout_enabled false (toy_ssl [])).1 ∧ dl < 0.
Proof.
  destruct (ssl_default_deadline_overflows 3 toy_bytes [] ec_ok
    (ssl_set_io_timeout_enabled false (toy_ssl [])).1) as (dl & E1 & _ & E2 & _).
  - done.
  - done.
  - done.
  - by exists dl.
Defined.

Lemma ssl_stream_ctor_outcome_witness :
  match ssl_stream_ctor (K := toy_socket) (G := toy_engine) true [EvTimer 200; EvOp 2500 ec_ok tt] 7%nat
    3000 5000 "localhost" true 100 with
  | IoDone _ s => ssl_io_timeout s = 5000
  | _ => False
  end.
Proof.
  pose proof (ssl_stream_ctor_outcome (K := toy_socket) (G := toy_engine) true
    [EvTimer 200; EvOp 2500 ec_ok tt] 7%nat 3000 5000 "localhost" true 100) as Hc.
  cbv zeta in Hc. revert Hc. vm_compute. intros (_ & _ & E & _). exact E.
Defined.

Lemma ssl_close_outcome_witness : ssl_is_open (ssl_close (toy_ssl [])).1 = false.
Proof.
  pose proof (ssl_close_outcome (toy_ssl [])) as Hc. cbn -[ssl_close] in Hc.
  destruct (ssl_close (toy_ssl [])) as [s' ec']. apply Hc. by left.
Defined.
