(* ===== verification/SslDeadline.v ===== *)
(** * The deadline of an encrypted call

    An operation of [boost::asio::ssl::stream] makes any number of calls of the next
    layer's [write_some] and [read_some], each of which runs the io_service, and with it
    the wait handler the wrapper of ssl_stream_socket.ipp has armed.  This file states that
    much of the layer as a law and follows the deadline through the nested calls: the I/O
    timeout is switched off, so none of them arms a timer of its own, and the expiration
    of the wrapper is the one that can close the socket. *)

From S2P Require Import Prelude ErrorCode TimedBase IoLoop BaseSocket Transfer StreamSocket SslSocket.
From Stdlib Require Import Strings.Byte.
Open Scope sc_scope.

(** Nested calls, all successful but possibly the last: from the next layer's state to the
    state after them, with what the io_service met in each of them and the error of the one
    that failed. *)
Inductive layer_calls {K E} `{AsioSocket K E, AsioTimer, Platform}
  : stream_socket K → list (list sock_event) → option error_code → stream_socket K → Prop :=
| calls_none w : layer_calls w [] None w
| calls_ok op evs w w1 rest ec n tr r w' :
    op ∈ [write_some_default; read_some_default] → events_ok evs →
    op evs w = (w1, rest, IoDone ec n) → ec_failed ec = false →
    layer_calls w1 tr r w' → layer_calls w (evs :: tr) r w'
| calls_fail op evs w w1 rest ec n :
    op ∈ [write_some_default; read_some_default] → events_ok evs →
    op evs w = (w1, rest, IoDone ec n) → ec_failed ec = true →
    layer_calls w [evs] (Some ec) w1.

(** The nested calls [tr] took the layer from [w] to [w'], and its operation, which ended
    with [ec], failed when one of them did, with the end of the stream only if that is what
    the call found. *)
Definition made_calls {K E} `{AsioSocket K E, AsioTimer, Platform}
    (w : stream_socket K) (tr : list (list sock_event)) (ec : error_code) (w' : stream_socket K) : Prop :=
  ∃ r, layer_calls w tr r w' ∧ (∀ e, r = Some e → ec_failed ec = true ∧ (ec = asio_eof → e = asio_eof)).

(** Whether a wait handler ran at or after [x] while one of the calls [tr], the first of
    which starts at [t0], was pending. *)
Fixpoint deadline_seen (x t0 : Z) (tr : list (list sock_event)) : bool :=
  match tr with
  | [] => false
  | evs :: tr =>
      match first_op evs with
      | Some (ts, (t, _, _), _) => fires x t0 ts || deadline_seen x (clock_after t0 (ts ++ [t])) tr
      | None => false
      end
  end.

(** Documented behaviour of [asio::ssl::stream]: [write_some], [read_some] and [handshake]
    are composed of zero or more calls of the next layer's [write_some] and [read_some],
    and an error of one of them ends them. *)
Class SslLayerCalls (K E G : Type) `{AsioSocket K E, AsioTimer, Platform, SslLayer K G} := {
  layer_write_calls b (s : ssl_stream K G) :
    ∃ tr, made_calls (ssl_next s) tr (layer_write_some b s).2.2 (ssl_next (layer_write_some b s).1);
  layer_read_calls n (s : ssl_stream K G) :
    ∃ tr, made_calls (ssl_next s) tr (layer_read_some n s).2.2 (ssl_next (layer_read_some n s).1);
  layer_handshake_calls (s : ssl_stream K G) :
    ∃ tr, made_calls (ssl_next s) tr (layer_handshake s).2 (ssl_next (layer_handshake s).1)
}.

Section Calls.
Context {K E : Type} `{sk : AsioSocket K E, tm : AsioTimer, pl : Platform}.
Implicit Types (w : stream_socket K).

Lemma clock_after_ge t0 ts : t0 ≤ clock_after t0 ts.
Proof.
  unfold clock_after. revert t0. induction ts as [|t ts IH]; intros t0; simpl; [lia|].
  specialize (IH (Z.max t0 t)). lia.
Qed.

(** A run of the wait handler that finds the expiry reached leaves the clock past it. *)
Lemma fires_reached x t0 ts t : fires x t0 ts = true → x ≤ clock_after t0 (ts ++ [t]).
Proof.
  revert t0. induction ts as [|u ts IH]; intros t0; [done|].
  rewrite fires_step. intros [Hx|Hf]%orb_true_iff.
  - bool_prop. pose proof (clock_after_ge (Z.max t0 u) (ts ++ [t])) as Hge.
    unfold clock_after in *. simpl. lia.
  - by apply (IH (Z.max t0 u)).
Qed.

(** The next layer inside a wrapper: the I/O timeout is off, one wait handler is
    outstanding and the deadline is [x]. *)
Definition under (x : Z) w : Prop :=
  timer_waits (base w) = 1%nat ∧ clock_ok (now w) ∧ io_timeouted_ (self w) = false ∧ timer_expiry (base w) = x.

(** What a nested call can leave behind: all as it was but for the clock, or the socket
    closed because the deadline was reached. *)
Definition untouched (x : Z) w w' : Prop := under x w' ∧ now w ≤ now w' ∧ self w' = self w.

Definition cut_off (x : Z) w w' : Prop :=
  timer_waits (base w') = 1%nat ∧ clock_ok (now w') ∧ timer_expiry (base w') = time_point_max ∧
  now w ≤ now w' ∧ x ≤ now w' ∧ self w' = (close (self w)).1.

(** A nested call arms nothing: it waits under the wrapper's deadline, and when that cuts
    it off, which is when a wait handler sees it reached, it reports [timed_out]. *)
Lemma nested_call op evs x w w' rest ec n :
  op ∈ [write_some_default; read_some_default] → events_ok evs → under x w →
  op evs w = (w', rest, IoDone ec n) →
  ∃ ts t err p rest', first_op evs = Some (ts, (t, err, p), rest') ∧ now w' = clock_after (now w) (ts ++ [t]) ∧
    if fires x (now w) ts then cut_off x w w' ∧ ec = timed_out else untouched x w w'.
Proof.
  intros Hop Hev (Hw & Hc & Hm & Hx) He.
  assert (Ht : transfer_some async_start_some evs (Timeout kInfiniteDuration) w = (w', rest, IoDone ec n)).
  { rewrite !elem_of_cons in Hop. destruct Hop as [->|[->|[]%not_elem_of_nil]];
      cbv beta delta [write_some_default read_some_default write_some read_some io_timeout] in He; by rewrite Hm in He. }
  clear He Hop. unfold transfer_some, async_start_some in Ht. rewrite scope_expire_infinite in Ht.
  destruct (run_loop _ _ _ _ _ _) as [[[[w1 ec1] n1] rest1]|] eqn:Hr; [|done]. simplify_eq.
  apply run_loop_inv in Hr as (ts & t & err & p & Ho & -> & _ & Hne & ->); [|done..].
  destruct (first_op_times _ _ _ _ Ho Hev) as [Hts Htc].
  assert (Hclk : clock_ok (clock_after (now w) (ts ++ [t])))
    by (apply clock_after_ok; [done|by apply Forall_app_2, Forall_cons_2]).
  pose proof (clock_after_ge (now w) (ts ++ [t])) as Hge.
  exists ts, t, err, p, rest. split; [done|]. unfold expiration_dtor. simpl. split; [done|].
  destruct (fires _ _ ts) eqn:Hf.
  - split; [|done]. unfold cut_off. simpl. rewrite Hf.
    split_and!; try done. by apply fires_reached.
  - unfold untouched, under. simpl. rewrite Hf. done.
Qed.

(** So does a series of them: once cut off there is no further call. *)
Lemma nested_calls x w tr r w' :
  layer_calls w tr r w' → under x w →
  if deadline_seen x (now w) tr then cut_off x w w' ∧ r = Some timed_out else untouched x w w'.
Proof.
  induction 1 as [w|op evs w w1 rest ec n tr r w' Hop Hev He Hok _ IH|op evs w w1 rest ec n Hop Hev He Hf]; intros Hu.
  - by split.
  - destruct (nested_call _ _ _ _ _ _ _ _ Hop Hev Hu He) as (ts & t & err & p & rest' & Ho & Hn1 & Hend).
    cbn [deadline_seen]. rewrite Ho, <- Hn1. destruct (fires x (now w) ts); cbn [orb].
    { destruct Hend as [_ ->]. by rewrite timed_out_failed in Hok. }
    destruct Hend as (Hu1 & Hle & Hs1). specialize (IH Hu1). destruct (deadline_seen _ _ tr).
    + destruct IH as [(? & ? & ? & ? & ? & Hs) ->]. split; [|done]. split_and!; try done; [lia|by rewrite Hs, Hs1].
    + destruct IH as (? & ? & ?). split_and!; [done|lia|congruence].
  - destruct (nested_call _ _ _ _ _ _ _ _ Hop Hev Hu He) as (ts & t & err & p & rest' & Ho & Hn1 & Hend).
    cbn [deadline_seen]. rewrite Ho. rewrite orb_false_r. destruct (fires x (now w) ts); [|done].
    by destruct Hend as [? ->].
Qed.

(** Whether the deadline was seen can be told from the state after the calls. *)
Lemma deadline_seen_unique x w tr1 r1 tr2 r2 w' :
  layer_calls w tr1 r1 w' → layer_calls w tr2 r2 w' → under x w →
  deadline_seen x (now w) tr1 = deadline_seen x (now w) tr2.
Proof.
  intros H1 H2 Hu. apply nested_calls with (x := x) in H1, H2; [|done..].
  destruct (deadline_seen _ _ tr1), (deadline_seen _ _ tr2); try done.
  - destruct H1 as [(_ & [? ?] & Hm & _ & Hn & _) _], H2 as ((_ & _ & _ & Hx) & _). lia.
  - destruct H2 as [(_ & [? ?] & Hm & _ & Hn & _) _], H1 as ((_ & _ & _ & Hx) & _). lia.
Qed.

End Calls.

Section Wrapper.
Context {K E G : Type} `{sk : AsioSocket K E, tm : AsioTimer, pl : Platform, sl : SslLayer K G}.
Implicit Types (s : ssl_stream K G).

(** The time at which a timeout or deadline given now runs out. *)
Definition runs_out (t : timeout_or_deadline) (w : stream_socket K) : Z :=
  match t with
  | Timeout d => if d =? kInfiniteDuration then time_point_max else now w + d
  | Deadline p => p
  end.

(** A deadline, the indefinite timeout, or a timeout [expiration] accepts. *)
Definition timeout_ok (t : timeout_or_deadline) (w : stream_socket K) : Prop :=
  match t with Timeout d => d = kInfiniteDuration ∨ finite_timeout d w | Deadline _ => True end.

(** How an operation of error [ec] leaves a stream it found in state [s]: nothing armed, the
    settings and the connection as they were; or closed, the deadline reached and the
    operation failed. *)
Definition within_deadline (x : Z) s (ec : error_code) s' : Prop :=
  disarmed (ssl_next s') ∧ clock_ok (ssl_now s') ∧ ssl_now s ≤ ssl_now s' ∧
  (self (ssl_next s') = self (ssl_next s) ∨
   (x ≤ ssl_now s' ∧ ec_failed ec = true ∧ ec ≠ asio_eof ∧ self (ssl_next s') = (close (self (ssl_next s))).1)).

(** The same with the reason: during the calls [tr] that the operation made, a wait handler
    saw the deadline [x] reached, exactly when the connection has been closed. *)
Definition kept_deadline (x : Z) (tr : list (list sock_event)) s (ec : error_code) s' : Prop :=
  disarmed (ssl_next s') ∧ clock_ok (ssl_now s') ∧ ssl_now s ≤ ssl_now s' ∧
  if deadline_seen x (ssl_now s) tr
  then x ≤ ssl_now s' ∧ ec_failed ec = true ∧ ec ≠ asio_eof ∧ self (ssl_next s') = (close (self (ssl_next s))).1
  else self (ssl_next s') = self (ssl_next s).

Lemma kept_within x tr s ec s' : kept_deadline x tr s ec s' → within_deadline x s ec s'.
Proof. intros (? & ? & ? & H). split_and!; [done..|]. destruct (deadline_seen _ _ tr); auto. Qed.

(** The operation [op] of the layer underneath, entered in [s1], a state of the same engine at
    the same time, ended in [s2] with [a], after some calls of the socket; and whatever calls
    those were, the wrapper kept its deadline. *)
Definition kept_over {A} (op : ssl_stream K G → ssl_stream K G * A) (x : Z) s (a : A) (ec : error_code) s' : Prop :=
  ∃ s1 s2, ssl_engine s1 = ssl_engine s ∧ ssl_now s1 = ssl_now s ∧ op s1 = (s2, a) ∧
    ssl_engine s' = ssl_engine s2 ∧ ssl_now s' = ssl_now s2 ∧
    (∃ tr r, layer_calls (ssl_next s1) tr r (ssl_next s2)) ∧
    ∀ tr r, layer_calls (ssl_next s1) tr r (ssl_next s2) → kept_deadline x tr s ec s'.

Lemma kept_over_within {A} (op : ssl_stream K G → ssl_stream K G * A) x s a ec s' :
  kept_over op x s a ec s' → within_deadline x s ec s'.
Proof. intros (s1 & s2 & _ & _ & _ & _ & _ & (tr & r & Hr) & Hk). eapply kept_within, Hk, Hr. Qed.

(** What the wrapper does before the layer's operation. *)
Lemma wrapper_arms t s :
  disarmed (ssl_next s) → clock_ok (ssl_now s) → timeout_ok t (ssl_next s) →
  ∃ w e, ssl_scope_expire t (ssl_set_io_timeout_enabled false s).1 = (mk_ssl w (ssl_engine s), Normal e) ∧
    under (runs_out t (ssl_next s)) w ∧ now w = ssl_now s ∧
    self w = (set_io_timeout_enabled false (self (ssl_next s))).1 ∧
    (exp_timer e = true ∨ runs_out t (ssl_next s) = time_point_max).
Proof.
  intros (He & Hw & _) Hc Ht. unfold ssl_scope_expire. cbn [fst ssl_set_io_timeout_enabled set_next ssl_next ssl_engine].
  destruct t as [d|p]; cbn [runs_out timeout_ok] in *.
  - destruct (d =? kInfiniteDuration) eqn:Ed; bool_prop.
    + subst d. rewrite scope_expire_infinite. eexists _, _. split; [done|]. split_and!; try done. by right.
    + destruct Ht as [|Ht]; [done|]. rewrite arm_finite by done.
      eexists _, _. split; [done|]. split_and!; try done. by left.
  - eexists _, _. split; [done|]. split_and!; try done. by left.
Qed.

(** ... and what it does after it. *)
Lemma wrapper_disarms x tr s w e ec s2 :
  clock_ok (ssl_now s) → under x w → now w = ssl_now s →
  self w = (set_io_timeout_enabled false (self (ssl_next s))).1 →
  exp_timer e = true ∨ x = time_point_max → made_calls w tr ec (ssl_next s2) →
  kept_deadline x tr s ec (ssl_expiration_dtor e (ssl_set_io_timeout_enabled (ssl_io_timeout_enabled s) s2).1).
Proof.
  intros Hc Hu Hnw Hself Hx (r & Hr & Hfail). unfold kept_deadline.
  assert (Hmode : ∀ b : base_socket K, (set_io_timeout_enabled (io_timeouted_ b) (set_io_timeout_enabled false b).1).1 = b)
    by (by intros []).
  set (s3 := (ssl_set_io_timeout_enabled _ s2).1).
  assert (Hs3 : self (ssl_next (ssl_expiration_dtor e s3)) =
      (set_io_timeout_enabled (ssl_io_timeout_enabled s) (self (ssl_next s2))).1 ∧
    ssl_now (ssl_expiration_dtor e s3) = now (ssl_next s2)).
  { unfold ssl_now, ssl_expiration_dtor, expiration_dtor. cbn [set_next ssl_next]. by destruct (exp_timer e). }
  destruct Hs3 as [-> ->].
  assert (Hd : ∀ y, timer_waits (base (ssl_next s2)) = 1%nat → clock_ok (now (ssl_next s2)) →
    timer_expiry (base (ssl_next s2)) = y → exp_timer e = true ∨ y = time_point_max →
    disarmed (ssl_next (ssl_expiration_dtor e s3))).
  { intros y Hw2 Hc2 <- Hy. by apply expiration_dtor_disarms. }
  pose proof (nested_calls _ _ _ _ _ Hr Hu) as Hend. rewrite Hnw in Hend. destruct (deadline_seen _ _ tr);
    [destruct Hend as [(Hw2 & Hc2 & Hx2 & Hn2 & Hxn & ->) ->]|destruct Hend as ((Hw2 & Hc2 & _ & Hx2) & Hn2 & ->)];
    rewrite Hself.
  2:{ split_and!; [by eapply Hd|done|lia|apply Hmode]. }
  - destruct (Hfail _ eq_refl) as [? He].
    split_and!; [by eapply Hd; [..|right]|done|lia|done|done|intros E0; by specialize (He E0)|].
    unfold close, ssl_io_timeout_enabled, io_timeout_enabled, next_layer.
    destruct (self (ssl_next s)) as [k ct ot m]. simpl. by destruct (sk_close k).
Qed.

Lemma within_deadline_refl x s ec : disarmed (ssl_next s) → clock_ok (ssl_now s) → within_deadline x s ec s.
Proof. intros Hd Hc. split_and!; [done..|lia|by left]. Qed.

(** A successful operation leaves the connection alone, so the next one goes on from it. *)
Lemma within_deadline_trans x s ec1 s1 ec s' :
  within_deadline x s ec1 s1 → ec_failed ec1 = false → within_deadline x s1 ec s' → within_deadline x s ec s'.
Proof.
  intros (_ & _ & Hn & [Hs|(_ & Hf & _)]) Hok (Hd & Hc & Hn' & H'); [|congruence].
  rewrite Hs in H'. split_and!; [done..|lia|done].
Qed.

Context `{!SslLayerCalls K E G}.

Lemma dtor_now e s m :
  ssl_now (ssl_expiration_dtor e (ssl_set_io_timeout_enabled m s).1) = ssl_now s ∧
  ssl_engine (ssl_expiration_dtor e (ssl_set_io_timeout_enabled m s).1) = ssl_engine s.
Proof. unfold ssl_now, ssl_expiration_dtor, expiration_dtor. cbn [set_next ssl_next]. by destruct (exp_timer e). Qed.

Lemma ssl_operations_kept t s buf cap :
  let x := runs_out t (ssl_next s) in
  disarmed (ssl_next s) → clock_ok (ssl_now s) → timeout_ok t (ssl_next s) →
  (∃ s' n ec, ssl_write_some buf t s = (s', Normal (n, ec)) ∧ kept_over (layer_write_some buf) x s (n, ec) ec s') ∧
  (∃ s' data ec, ssl_read_some cap t s = (s', Normal (data, ec)) ∧
     kept_over (layer_read_some cap) x s (data, ec) ec s') ∧
  (∃ s' ec, ssl_handshake t s = (s', Normal ec) ∧ kept_over layer_handshake x s ec ec s').
Proof.
  intros x Hd Hc Ht. destruct (wrapper_arms t s Hd Hc Ht) as (w & e & Ew & Hu & Hnw & Hself & Hx).
  unfold ssl_write_some, ssl_read_some, ssl_handshake.
  rewrite (surjective_pairing (ssl_set_io_timeout_enabled false s)), Ew. set (s1 := mk_ssl w _).
  destruct (layer_write_calls buf s1) as [tr1 H1], (layer_read_calls cap s1) as [tr2 H2],
    (layer_handshake_calls s1) as [tr3 H3].
  assert (Hkept : ∀ A (op : ssl_stream K G → ssl_stream K G * A) tr a s2 ec, op s1 = (s2, a) → made_calls w tr ec (ssl_next s2) →
    kept_over op x s a ec (ssl_expiration_dtor e (ssl_set_io_timeout_enabled (ssl_io_timeout_enabled s) s2).1)).
  { intros A op tr a s2 ec Ho Hm. exists s1, s2.
    destruct (dtor_now e s2 (ssl_io_timeout_enabled s)) as [-> ->]. pose proof Hm as (r & Hr & _).
    split_and!; try done; [by exists tr, r|]. intros tr' r' Hr'.
    pose proof (wrapper_disarms x tr s w e ec s2 Hc Hu Hnw Hself Hx Hm) as Hk. unfold kept_deadline in *.
    by rewrite <- Hnw, (deadline_seen_unique x w tr' r' tr r (ssl_next s2)), Hnw. }
  destruct (layer_write_some buf s1) as [s2 [n ec]] eqn:E1, (layer_read_some cap s1) as [s3 [data ec']] eqn:E2,
    (layer_handshake s1) as [s4 ec''] eqn:E3.
  split; [|split]; do 2 eexists; [eexists|eexists|]; (split; [done|]); by eapply Hkept.
Qed.

Lemma ssl_operations_in_time t s buf cap :
  let x := runs_out t (ssl_next s) in
  disarmed (ssl_next s) → clock_ok (ssl_now s) → timeout_ok t (ssl_next s) →
  (∃ s' n ec, ssl_write_some buf t s = (s', Normal (n, ec)) ∧ within_deadline x s ec s') ∧
  (∃ s' data ec, ssl_read_some cap t s = (s', Normal (data, ec)) ∧ within_deadline x s ec s') ∧
  (∃ s' ec, ssl_handshake t s = (s', Normal ec) ∧ within_deadline x s ec s').
Proof.
  intros x Hd Hc Ht. destruct (ssl_operations_kept t s buf cap Hd Hc Ht)
    as ((s1 & n & ec1 & -> & H1) & (s2 & data & ec2 & -> & H2) & s3 & ec3 & -> & H3).
  apply kept_over_within in H1, H2, H3. split; [|split]; [by eexists _, _, _..|by eexists _, _].
Qed.

Lemma send_loop_in_time fuel buf dl s ec acc s' n ec' :
  ssl_send_loop fuel buf dl s ec acc = Some (s', Normal (n, ec')) →
  disarmed (ssl_next s) → clock_ok (ssl_now s) → within_deadline dl s ec' s'.
Proof.
  revert s ec acc. induction fuel as [|fuel IH]; intros s ec acc; cbn [ssl_send_loop]; case_decide; try done;
    try (intros [= <- _ <-]; by apply within_deadline_refl).
  intros Hr Hd Hc. destruct (ssl_operations_in_time (Deadline dl) s buf 0 Hd Hc I) as ((s1 & n1 & ec1 & E1 & H1) & _).
  rewrite E1 in Hr. destruct (ec_failed ec1) eqn:Ef; [by simplify_eq|].
  eapply within_deadline_trans; [done..|]. eapply IH; [done|apply H1..].
Qed.

Lemma receive_loop_in_time fuel dst dl s ec acc s' dst' n ec' :
  ssl_receive_loop fuel dst dl s ec acc = Some (s', dst', Normal (n, ec')) →
  disarmed (ssl_next s) → clock_ok (ssl_now s) → within_deadline dl s ec' s'.
Proof.
  revert s dst ec acc. induction fuel as [|fuel IH]; intros s dst ec acc; cbn [ssl_receive_loop]; case_decide; try done;
    try (intros [= <- _ _ <-]; by apply within_deadline_refl).
  intros Hr Hd Hc. destruct (ssl_operations_in_time (Deadline dl) s [] (length dst) Hd Hc I) as (_ & (s1 & c & ec1 & E1 & H1) & _).
  rewrite E1 in Hr. destruct (ec_failed ec1) eqn:Ef; [by simplify_eq|].
  eapply within_deadline_trans; [done..|]. eapply IH; [done|apply H1..].
Qed.

End Wrapper.

Section Claims.
Context {K E G : Type} `{sk : AsioSocket K E, tm : AsioTimer, pl : Platform, sl : SslLayer K G, !SslLayerCalls K E G}.
Implicit Types (s : ssl_stream K G).

(** C20: the deadline of [write_some], [read_some] and [handshake] covers all the calls the
    layer makes of the socket underneath, and nothing outlives it: the operation returns
    what the layer's own operation returned, with no deadline armed; when a wait handler ran
    at or after the deadline during one of those calls, the connection has been closed and
    the operation has failed, with more than the end of the stream; otherwise the connection
    and its settings are as they were. *)
Theorem ssl_calls_deadline t s buf cap :
  let x := runs_out t (ssl_next s) in
  disarmed (ssl_next s) → clock_ok (ssl_now s) → timeout_ok t (ssl_next s) →
  (∃ s' n ec, ssl_write_some buf t s = (s', Normal (n, ec)) ∧ kept_over (layer_write_some buf) x s (n, ec) ec s') ∧
  (∃ s' data ec, ssl_read_some cap t s = (s', Normal (data, ec)) ∧
     kept_over (layer_read_some cap) x s (data, ec) ec s') ∧
  (∃ s' ec, ssl_handshake t s = (s', Normal ec) ∧ kept_over layer_handshake x s ec ec s').
Proof. apply ssl_operations_kept. Qed.

(** The loops of [send] and [receive] run every operation under the one deadline they
    were given: whatever they return, the connection is untouched, or it was closed with
    the deadline reached and the error they return is a failure. *)
Theorem ssl_loops_deadline fuel buf ec dl s :
  disarmed (ssl_next s) → clock_ok (ssl_now s) →
  (∀ s' n ec', ssl_send fuel buf ec dl s = Some (s', Normal (n, ec')) → within_deadline dl s ec' s') ∧
  (∀ s' dst' n ec', ssl_receive fuel buf ec dl s = Some (s', dst', Normal (n, ec')) → within_deadline dl s ec' s').
Proof. split; intros; [by eapply send_loop_in_time|by eapply receive_loop_in_time]. Qed.

End Claims.

(** ** Witness *)

(** A layer whose engine holds, for each of its next calls of [read_some], what the socket
    will do; an operation makes them all, in order, until one fails. *)
Definition script : Type := list (list sock_event).

Definition in_range (evs : list sock_event) : bool :=
  forallb (λ ev, (0 <=? event_time ev) && (event_time ev <? time_point_max)) evs.

Fixpoint play (scripts : script) (w : stream_socket toy_socket) : stream_socket toy_socket * error_code :=
  match scripts with
  | [] => (w, ec_ok)
  | evs :: scripts =>
      if in_range evs then
        match read_some_default evs w with
        | (w1, _, IoDone ec n) => if ec_failed ec then (w1, ec) else play scripts w1
        | _ => (w, ec_ok)
        end
      else (w, ec_ok)
  end.

Definition play_layer (s : ssl_stream toy_socket script) : ssl_stream toy_socket script * error_code :=
  let '(w, ec) := play (ssl_engine s) (ssl_next s) in (mk_ssl w [], ec).

#[export] Instance script_layer : SslLayer toy_socket script := {|
  ssl_context_ctor := Normal tt;
  ssl_set_default_verify_paths := Normal tt;
  ssl_init w := Normal (mk_ssl w []);
  ssl_set_host _ s := (s, true);
  ssl_last_error _ := 1;
  ssl_set_verify_mode s := Normal s;
  ssl_set_verify_callback _ s := Normal s;
  layer_handshake s := play_layer s;
  layer_shutdown s := (s, ec_ok);
  layer_write_some b s := ((play_layer s).1, (0, (play_layer s).2));
  layer_read_some n s := ((play_layer s).1, ([], (play_layer s).2));
  ssl_accepted s := [];
  stream_truncated := 1
|}.

Lemma in_range_ok evs : in_range evs = true → events_ok evs.
Proof.
  intros H. apply Forall_forall. intros ev Hin. unfold in_range in H.
  pose proof (proj1 (forallb_forall _ _) H ev (proj1 (list_elem_of_In _ _) Hin)) as Hr. simpl in Hr.
  unfold clock_ok. bool_prop. lia.
Qed.

Lemma play_calls scripts w : ∃ tr, made_calls w tr (play scripts w).2 (play scripts w).1.
Proof.
  revert w. induction scripts as [|evs scripts IH]; intros w; simpl.
  { exists [], None. split; [constructor|done]. }
  destruct (in_range evs) eqn:Hr; [|exists [], None; split; [constructor|done]].
  apply in_range_ok in Hr.
  destruct (read_some_default evs w) as [[w1 rest] [ec n| |]] eqn:E;
    [|exists [], None; split; [constructor|done]..].
  destruct (ec_failed ec) eqn:Ef; simpl.
  - exists [evs], (Some ec). split; [|by intros ? [= <-]]. eapply calls_fail; [|done..]. right. left.
  - destruct (IH w1) as (tr & r & Hc & Hf). exists (evs :: tr), r. split; [|done]. eapply calls_ok; [|done..]. right. left.
Qed.

#[export] Instance script_layer_calls : SslLayerCalls toy_socket nat script.
Proof.
  split; simpl; intros; unfold play_layer;
    match goal with |- context [play ?e ?w] => pose proof (play_calls e w); by destruct (play e w) end.
Qed.

(** Two reads in time, then one the deadline at 3100 cuts off. *)
Definition slow_peer : ssl_stream toy_socket script :=
  mk_ssl toy_stream [[EvOp 1000 ec_ok 5]; [EvTimer 1500; EvOp 2000 ec_ok 5]; [EvTimer 3200; EvOp 3300 operation_aborted 0]].

Lemma ssl_calls_deadline_witness :
  ∃ s' ec, ssl_handshake (Timeout 3000) slow_peer = (s', Normal ec) ∧
    kept_over layer_handshake 3100 slow_peer ec ec s'.
Proof.
  destruct (ssl_calls_deadline (K := toy_socket) (G := script) (Timeout 3000) slow_peer [] 0) as (_ & _ & H).
  - done.
  - done.
  - right. done.
  - exact H.
Defined.

Lemma ssl_loops_deadline_witness :
  ∃ s' n ec, ssl_send 1 [x00] ec_ok 3100 slow_peer = Some (s', Normal (n, ec)) ∧ within_deadline 3100 slow_peer ec s'.
Proof.
  eexists _, _, _. split; [vm_compute; reflexivity|].
  eapply (proj1 (ssl_loops_deadline 1 [x00] ec_ok 3100 slow_peer ltac:(done) ltac:(done))).
  vm_compute. reflexivity.
Defined.

Example slow_peer_cut_off :
  let '(s', r) := ssl_handshake (Timeout 3000) slow_peer in
  r = Normal timed_out ∧ ssl_is_open s' = false ∧ ssl_now s' = 3300.
Proof. vm_compute. done. Qed.
