(* ===== verification/PoolStrategy.v ===== *)
(** * [pool_strategy]: how a pool refills itself

    Models connector/pool_strategy.hpp and connector/impl/pool_strategy.ipp.  A refill
    starts some adders, each of which calls [connector.new_session()] once and hands the
    session to [append_func]; the strategies differ in how many they start and in the
    verdict and the back-off they derive from the results.  The interface the pool is
    verified against is the class [PoolStrategy]. *)

From S2P Require Import Prelude ErrorCode.
Open Scope sc_scope.

(** What one adder's [connector.new_session()] did: a session, or a [system_error] the
    adder catches and logs. *)
Abbreviation attempt Session := (option Session).

(** The interface [pool_strategy::refill], split where the pool's threads interleave:
    the number of adders a refill starts, and the state and return value once they have
    been joined.  The contract the pool relies on: never more adders than vacancies. *)
Class PoolStrategy (St : Type) := {
  refill_attempts : Z → Z → St → Z;
  refill_settle : Z → Z → Z → Z → bool → St → St * bool;
  refill_attempts_bound now vacant st :
    0 < vacant < 2 ^ 64 - 2 → 0 ≤ refill_attempts now vacant st ≤ vacant
}.

(** ** [greedy_strategy] *)

(** [greedy_strategy] has no data members. *)
Record greedy_strategy := mk_greedy {}.

(** The sessions the adders appended, in some order of the threads. *)
Definition appended {Session} (rs : list (attempt Session)) : list Session := omap id rs.

(** [greedy_strategy::refill]: [rs] are the results of the adders' [new_session()]. *)
Definition greedy_refill {Session} (vacant_places : Z) (rs : list (attempt Session))
    (st : greedy_strategy) : greedy_strategy * list Session * bool :=
  let adders := take (Z.to_nat vacant_places) rs in
  (st, appended adders, 0 <? vacant_places).

(** ** [double]

    [double(r) / r.max()] and [unsigned long *= double] are binary64 operations:
    correctly rounded, to nearest, ties to even. *)

(** The integer nearest to [a / b], ties to even. *)
Definition div_rne (a b : Z) : Z :=
  let q := a / b in
  let r := a mod b in
  if 2 * r <? b then q else if b <? 2 * r then q + 1 else if Z.even q then q else q + 1.

(** [a / b] rounded to 53 significant bits, as [m * 2^e]. *)
Definition round53 (a b : Z) : Z * Z :=
  if a =? 0 then (0, 0)
  else
    let e := Z.log2 a - Z.log2 b - 52 in
    let e := if Z.log2 (if 0 <=? e then a / (b * 2 ^ e) else a * 2 ^ (- e) / b) <? 52 then e - 1 else e in
    (if 0 <=? e then div_rne a (b * 2 ^ e) else div_rne (a * 2 ^ (- e)) b, e).

(** Truncation of [m * 2^e] towards zero. *)
Definition trunc (x : Z * Z) : Z :=
  if 0 <=? x.2 then x.1 * 2 ^ x.2 else x.1 / 2 ^ (- x.2).

(** The product of two non-negative doubles. *)
Definition mul_double (x y : Z * Z) : Z * Z :=
  let e := x.2 + y.2 in
  if 0 <=? e then round53 (x.1 * y.1 * 2 ^ e) 1 else round53 (x.1 * y.1) (2 ^ (- e)).

(** [delay *= double(r) / r_generator_.max()], [r] a value of the generator. *)
Definition mt19937_max : Z := 2 ^ 32 - 1.

Definition scale_delay (delay r : Z) : Z :=
  trunc (mul_double (round53 delay 1) (round53 r mt19937_max)).

(** ** [conservative_strategy] *)

Definition kMaxBackoffMs : Z := 10000.
Definition kDefaultDelayMs : Z := 50.
Definition kDefaultDelayMul : Z := 3.

(** The data members; the random generator is an input of [refill]. *)
Record conservative_strategy := mk_conservative {
  wait_until_ : Z;
  initial_delay_ms_ : Z;
  delay_multiplier_ : Z;
  current_delay_ms_ : Z
}.

(** [conservative_strategy(first_delay_ms, delay_multiplier)]. *)
Definition conservative_ctor (first_delay_ms delay_multiplier : Z) : outcome conservative_strategy :=
  if delay_multiplier <? 1 then Throw (mk_se ec_ok "delay multiplier should be >= 1")
  else Normal (mk_conservative 0 first_delay_ms delay_multiplier 0).

(** [(vacant_places + 2) / 3 - 1], in [size_t]. *)
Definition conservative_parallel (vacant_places : Z) : Z := ((vacant_places +u 2) / 3) -u 1.

(** The number of calls of [add_session] of one refill: the parallel ones, unless the
    last refill failed, and the one of the calling thread. *)
Definition conservative_attempts (vacant_places : Z) (st : conservative_strategy) : Z :=
  let parallel := conservative_parallel vacant_places in
  (if (current_delay_ms_ st =? 0) && (0 <? parallel) then parallel else 0) + 1.

(** The delay after a failed refill, with [r] drawn from the generator. *)
Definition next_delay (r : Z) (st : conservative_strategy) : Z :=
  let d :=
    if current_delay_ms_ st =? 0 then initial_delay_ms_ st
    else current_delay_ms_ st *u delay_multiplier_ st in
  Z.min kMaxBackoffMs (scale_delay d r).

(** The rest of [refill] once the adders are joined, at clock reading [t]. *)
Definition conservative_settle (t r : Z) (is_added : bool) (st : conservative_strategy)
    : conservative_strategy * bool :=
  if is_added then
    (mk_conservative (wait_until_ st) (initial_delay_ms_ st) (delay_multiplier_ st) 0, true)
  else
    let d := next_delay r st in
    (mk_conservative (t +i (d * 1000000)) (initial_delay_ms_ st) (delay_multiplier_ st) d, false).

(** [conservative_strategy::refill], entered at clock reading [t0] and settled at [t1].  As
    in the code a session counts as added once it is handed to [append_func], even when
    [return_session] then drops it. *)
Definition conservative_refill {Session} (t0 t1 r : Z) (vacant_places : Z)
    (rs : list (attempt Session)) (st : conservative_strategy)
    : conservative_strategy * list Session * bool :=
  if t0 <? wait_until_ st then (st, [], false)
  else
    let adders := take (Z.to_nat (conservative_attempts vacant_places st)) rs in
    let '(st, res) := conservative_settle t1 r (existsb (λ a, bool_decide (is_Some a)) adders) st in
    (st, appended adders, res).

(** Readings of the clock that leave room for a back-off. *)
Definition clock_range (t : Z) : Prop := - 2 ^ 62 ≤ t < 2 ^ 62.

(** ** Arithmetic *)

Lemma div_rne_le a b c : 0 < b → 0 ≤ a → a ≤ c * b → div_rne a b ≤ c.
Proof.
  intros Hb Ha Hc. unfold div_rne.
  pose proof (Z.div_mod a b ltac:(lia)) as Hdm. pose proof (Z.mod_pos_bound a b Hb).
  assert (a / b ≤ c) by (apply Z.div_le_upper_bound; lia).
  assert (a mod b = 0 ∨ a / b < c) as [Hz|?].
  { destruct (decide (a / b = c)) as [Heq|]; [left; nia|right; lia]. }
  - rewrite Hz, Z.mul_0_r. by rewrite (proj2 (Z.ltb_lt 0 b)).
  - repeat case_match; lia.
Qed.

Lemma div_rne_nonneg a b : 0 < b → 0 ≤ a → 0 ≤ div_rne a b.
Proof.
  intros Hb Ha. unfold div_rne. pose proof (Z.div_pos a b Ha Hb). repeat case_match; lia.
Qed.

Lemma conservative_parallel_eq v : 0 < v < 2 ^ 64 - 2 → conservative_parallel v = (v + 2) / 3 - 1.
Proof.
  intros Hv. unfold conservative_parallel. rewrite (u64_id (v + 2)) by lia.
  assert (1 ≤ (v + 2) / 3) by (apply Z.div_le_lower_bound; lia).
  assert ((v + 2) / 3 ≤ v + 2) by (apply Z.div_le_upper_bound; lia).
  by rewrite u64_id by lia.
Qed.

Lemma conservative_parallel_top v : 2 ^ 64 - 2 ≤ v < 2 ^ 64 → conservative_parallel v = u64_max.
Proof.
  intros Hv. unfold conservative_parallel.
  assert (v = 2 ^ 64 - 2 ∨ v = 2 ^ 64 - 1) as [-> | ->] by lia; by vm_compute.
Qed.

(** The value [m * 2^e] is at most the integer [c]. *)
Definition double_le (x : Z * Z) (c : Z) : Prop :=
  if 0 <=? x.2 then x.1 * 2 ^ x.2 ≤ c else x.1 ≤ c * 2 ^ (- x.2).

Lemma trunc_le x c : double_le x c → trunc x ≤ c.
Proof.
  unfold double_le, trunc. case_match; [done|]. bool_prop. intros Hle.
  assert (0 < 2 ^ (- x.2)) by (apply Z.pow_pos_nonneg; lia).
  apply Z.div_le_upper_bound; lia.
Qed.

Lemma trunc_nonneg x : 0 ≤ x.1 → 0 ≤ trunc x.
Proof.
  unfold trunc. intros. case_match; bool_prop.
  - pose proof (Z.pow_nonneg 2 x.2). nia.
  - apply Z.div_pos; [done|]. apply Z.pow_pos_nonneg; lia.
Qed.

Lemma round53_nonneg a b : 0 < b → 0 ≤ a → 0 ≤ (round53 a b).1.
Proof.
  intros. unfold round53. destruct (a =? 0); [done|]. cbv zeta.
  set (e := if _ <? 52 then _ else _). simpl. destruct (0 <=? e) eqn:Ee; bool_prop.
  - apply div_rne_nonneg; [|done]. pose proof (Z.pow_pos_nonneg 2 e). nia.
  - apply div_rne_nonneg; [done|]. pose proof (Z.pow_nonneg 2 (- e)). nia.
Qed.

(** A rounding exponent above zero means a quotient of at least [2^53]. *)
Lemma round53_exp a b : 0 < b → 0 < a → 1 ≤ (round53 a b).2 → 2 ^ 53 * b ≤ a.
Proof.
  intros Hb Ha. unfold round53. rewrite (proj2 (Z.eqb_neq a 0)) by lia. cbv zeta.
  pose proof (Z.log2_spec a Ha) as [Hla _]. pose proof (Z.log2_spec b Hb) as [_ Hlb].
  pose proof (Z.log2_nonneg a). pose proof (Z.log2_nonneg b).
  set (la := Z.log2 a) in *. set (lb := Z.log2 b) in *. set (e := la - lb - 52).
  destruct (_ <? 52) eqn:Eq; simpl; intros He; bool_prop.
  - assert (la = lb + 1 + (e + 51)) as Hl by lia.
    assert (2 ^ 53 ≤ 2 ^ (e + 51)) by (apply Z.pow_le_mono_r; lia).
    rewrite Hl, Z.pow_add_r in Hla by lia.
    assert (0 < 2 ^ (lb + 1)) by (apply Z.pow_pos_nonneg; lia).
    rewrite <- Z.add_1_r in Hlb. nia.
  - rewrite (proj2 (Z.leb_le 0 e)) in Eq by lia.
    set (q := a / (b * 2 ^ e)) in *.
    assert (0 < q) as Hq by (destruct (Z.le_gt_cases q 0) as [Hq|]; [|done];
      pose proof (Z.log2_nonpos q Hq); lia).
    pose proof (Z.log2_spec q Hq) as [Hlq _].
    assert (2 ^ 52 ≤ 2 ^ Z.log2 q) by (apply Z.pow_le_mono_r; lia).
    assert (2 ^ 1 ≤ 2 ^ e) by (apply Z.pow_le_mono_r; lia).
    assert (0 < b * 2 ^ e) as Hpos by (apply Z.mul_pos_pos; [done|]; apply Z.pow_pos_nonneg; lia).
    pose proof (Z.mul_div_le a (b * 2 ^ e) Hpos) as Hdiv. fold q in Hdiv.
    change (2 ^ 1) with 2 in *.
    assert (b * 2 * 2 ^ 52 ≤ b * 2 ^ e * q) by (apply Z.mul_le_mono_nonneg; nia). lia.
Qed.

(** Rounding does not cross an integer below [2^53]. *)
Lemma round53_le a b c :
  0 < b → 0 ≤ a → a ≤ c * b → c < 2 ^ 53 → double_le (round53 a b) c.
Proof.
  intros Hb Ha Hc Hlt. destruct (decide (a = 0)) as [->|].
  { unfold double_le, round53. simpl. nia. }
  assert (Hexp : (round53 a b).2 ≤ 0).
  { destruct (Z.le_gt_cases (round53 a b).2 0); [done|].
    pose proof (round53_exp a b Hb ltac:(lia) ltac:(lia)). nia. }
  revert Hexp. unfold double_le, round53. rewrite (proj2 (Z.eqb_neq a 0)) by lia. cbv zeta.
  set (e := if _ <? 52 then _ else _). cbn [fst snd]. intros He.
  destruct (0 <=? e) eqn:Ee; bool_prop.
  - assert (e = 0) as -> by lia. rewrite Z.pow_0_r, !Z.mul_1_r. by apply div_rne_le.
  - pose proof (Z.pow_pos_nonneg 2 (- e)). apply div_rne_le; nia.
Qed.

Lemma mul_double_le x y d :
  0 ≤ x.1 → 0 ≤ y.1 → 0 ≤ d < 2 ^ 53 → double_le x d → double_le y 1 →
  double_le (mul_double x y) d.
Proof.
  destruct x as [m1 e1], y as [m2 e2]. unfold mul_double, double_le at 1 2. simpl.
  intros H1 H2 Hd Hx Hy.
  destruct (0 <=? e1) eqn:E1, (0 <=? e2) eqn:E2, (0 <=? e1 + e2) eqn:E; bool_prop; try lia;
    (apply round53_le; [try lia; apply Z.pow_pos_nonneg; lia|
      try apply Z.mul_nonneg_nonneg; try apply Z.pow_nonneg; nia| |lia]).
  - rewrite Z.pow_add_r by lia. rewrite Z.mul_1_r.
    replace (m1 * m2 * (2 ^ e1 * 2 ^ e2)) with ((m1 * 2 ^ e1) * (m2 * 2 ^ e2)) by ring.
    pose proof (Z.pow_nonneg 2 e1). pose proof (Z.pow_nonneg 2 e2). nia.
  - assert (2 ^ e1 = 2 ^ (e1 + e2) * 2 ^ (- e2)) as Hp.
    { rewrite <- Z.pow_add_r by lia. f_equal. lia. }
    rewrite Hp in Hx. pose proof (Z.pow_nonneg 2 (e1 + e2)). rewrite Z.mul_1_l in Hy. nia.
  - assert (2 ^ (- e2) = 2 ^ (- (e1 + e2)) * 2 ^ e1) as Hp.
    { rewrite <- Z.pow_add_r by lia. f_equal. lia. }
    rewrite Hp in Hy. pose proof (Z.pow_nonneg 2 (- (e1 + e2))). nia.
  - assert (2 ^ e2 = 2 ^ (e1 + e2) * 2 ^ (- e1)) as Hp.
    { rewrite <- Z.pow_add_r by lia. f_equal. lia. }
    rewrite Hp in Hy. pose proof (Z.pow_nonneg 2 (e1 + e2)). nia.
  - assert (2 ^ (- e1) = 2 ^ (- (e1 + e2)) * 2 ^ e2) as Hp.
    { rewrite <- Z.pow_add_r by lia. f_equal. lia. }
    rewrite Hp in Hx. pose proof (Z.pow_nonneg 2 (- (e1 + e2))). nia.
  - assert (2 ^ (- (e1 + e2)) = 2 ^ (- e1) * 2 ^ (- e2)) as ->.
    { rewrite <- Z.pow_add_r by lia. f_equal. lia. }
    pose proof (Z.pow_nonneg 2 (- e1)). pose proof (Z.pow_nonneg 2 (- e2)). nia.
Qed.

(** Multiplying a delay by [double(r) / max] never increases it. *)
Lemma scale_delay_bounds d r :
  0 ≤ d < 2 ^ 53 → 0 ≤ r ≤ mt19937_max → 0 ≤ scale_delay d r ≤ d.
Proof.
  intros Hd Hr. unfold scale_delay.
  assert (0 ≤ (round53 d 1).1) by (apply round53_nonneg; lia).
  assert (0 ≤ (round53 r mt19937_max).1) by (apply round53_nonneg; unfold mt19937_max; lia).
  split.
  - apply trunc_nonneg. unfold mul_double.
    assert (0 ≤ (round53 d 1).1 * (round53 r mt19937_max).1) by (by apply Z.mul_nonneg_nonneg).
    destruct (0 <=? _) eqn:E; bool_prop; apply round53_nonneg; [lia| | |done].
    + apply Z.mul_nonneg_nonneg; [done|]. by apply Z.pow_nonneg.
    + apply Z.pow_pos_nonneg; lia.
  - apply trunc_le, mul_double_le; [done..| |]; apply round53_le;
      unfold mt19937_max in *; lia.
Qed.

Lemma scale_delay_zero d : scale_delay d 0 = 0.
Proof.
  unfold scale_delay. change (round53 0 mt19937_max) with (0, 0).
  unfold mul_double. cbn [fst snd]. rewrite Z.mul_0_r, Z.mul_0_l.
  by destruct (0 <=? _).
Qed.

(** ** The strategies implement the interface *)

#[export, program] Instance greedy_pool_strategy : PoolStrategy greedy_strategy := {|
  refill_attempts _ vacant _ := vacant;
  refill_settle _ _ _ vacant _ st := (st, 0 <? vacant)
|}.
Next Obligation. lia. Qed.

Lemma conservative_attempts_fresh v st :
  current_delay_ms_ st = 0 → 0 < v < 2 ^ 64 - 2 → conservative_attempts v st = (v + 2) / 3.
Proof.
  intros Hd Hv. unfold conservative_attempts. rewrite Hd, conservative_parallel_eq by done.
  destruct (0 <? _) eqn:E; bool_prop; simpl; [lia|].
  assert (1 ≤ (v + 2) / 3) by (apply Z.div_le_lower_bound; lia). lia.
Qed.

Lemma conservative_attempts_failed v st :
  current_delay_ms_ st ≠ 0 → conservative_attempts v st = 1.
Proof. intros Hd. unfold conservative_attempts. by rewrite (proj2 (Z.eqb_neq _ 0)). Qed.

Lemma conservative_attempts_bound v st :
  0 < v < 2 ^ 64 - 2 → 1 ≤ conservative_attempts v st ≤ v.
Proof.
  intros Hv. destruct (decide (current_delay_ms_ st = 0)).
  - rewrite conservative_attempts_fresh by done. split.
    + apply Z.div_le_lower_bound; lia.
    + apply Z.div_le_upper_bound; lia.
  - rewrite conservative_attempts_failed by done. lia.
Qed.

#[export, program] Instance conservative_pool_strategy : PoolStrategy conservative_strategy := {|
  refill_attempts t0 vacant st := if t0 <? wait_until_ st then 0 else conservative_attempts vacant st;
  refill_settle t0 t1 r _ is_added st :=
    if t0 <? wait_until_ st then (st, false) else conservative_settle t1 r is_added st
|}.
Next Obligation.
  intros t0 v st Hv. simpl. pose proof (conservative_attempts_bound v st Hv).
  destruct (t0 <? wait_until_ st); lia.
Qed.

Lemma existsb_appended {Session} (rs : list (attempt Session)) :
  existsb (λ a, bool_decide (is_Some a)) rs = true ↔ appended rs ≠ [].
Proof.
  unfold appended. induction rs as [|[x|] rs IH]; simpl; [done|done|exact IH].
Qed.

Lemma appended_some {Session} (ss : list Session) : appended (map Some ss) = ss.
Proof. unfold appended. induction ss as [|x ss IH]; simpl; [done|]. by f_equal. Qed.

Lemma appended_none {Session} n : appended (replicate n (None : attempt Session)) = [].
Proof. unfold appended. by induction n. Qed.

(** Waiting out a back-off. *)
Definition backing_off (t : Z) (st : conservative_strategy) : Prop := t < wait_until_ st.

(** ** Claims *)

(** Outside a back-off, the number of connections a conservative refill attempts is a
    third of the vacancies, rounded up, after a success, and one after a failure; it is
    never zero and never more than the vacancies. *)
Theorem conservative_refill_attempts {Session} t0 t1 r v (rs : list (attempt Session)) st :
  0 < v < 2 ^ 64 - 2 → ¬ backing_off t0 st →
  let n := if decide (current_delay_ms_ st = 0) then (v + 2) / 3 else 1 in
  1 ≤ n ≤ v ∧ 3 * n ≤ v + 2 ∧
  (conservative_refill t0 t1 r v rs st).1.2 = appended (take (Z.to_nat n) rs).
Proof.
  intros Hv Hb n. unfold backing_off in Hb.
  assert (Hn : n = conservative_attempts v st).
  { subst n. case_decide; [by rewrite conservative_attempts_fresh|by rewrite conservative_attempts_failed]. }
  split; [|split].
  - rewrite Hn. by apply conservative_attempts_bound.
  - subst n. case_decide; [apply Z.mul_div_le; lia|lia].
  - unfold conservative_refill. rewrite (proj2 (Z.ltb_ge _ _)), <- Hn by lia.
    by destruct (conservative_settle _ _ _ _).
Qed.

(** C33: a conservative refill that is not backing off returns [true] exactly when at
    least one session was added, that is handed to [append_func], and then the delay is
    cleared; otherwise the delay it
    sets is at most [kMaxBackoffMs], and at most the first delay after a success, or the
    previous delay times the multiplier after a failure; and until that delay has passed
    a refill attempts nothing, returns [false] and changes nothing. *)
Theorem conservative_refill_backoff {Session} t0 t1 r v (rs rs' : list (attempt Session)) st st' ss res :
  0 ≤ initial_delay_ms_ st < 2 ^ 53 → 0 ≤ current_delay_ms_ st * delay_multiplier_ st < 2 ^ 53 →
  0 ≤ r ≤ mt19937_max → clock_range t1 → ¬ backing_off t0 st →
  conservative_refill t0 t1 r v rs st = (st', ss, res) →
  (res = true ↔ ss ≠ []) ∧ (res = true → current_delay_ms_ st' = 0) ∧
  (res = false →
    0 ≤ current_delay_ms_ st' ≤ kMaxBackoffMs ∧
    current_delay_ms_ st' ≤
      (if decide (current_delay_ms_ st = 0) then initial_delay_ms_ st
       else current_delay_ms_ st * delay_multiplier_ st) ∧
    (∀ t t' r' v', t < t1 + current_delay_ms_ st' * 1000000 →
      conservative_refill t t' r' v' rs' st' = (st', [], false))).
Proof.
  intros Hi Hm Hr Ht Hb. unfold backing_off in Hb. unfold conservative_refill.
  rewrite (proj2 (Z.ltb_ge _ _)) by lia.
  set (as_ := take _ rs). pose proof (existsb_appended as_) as Hex.
  destruct (existsb _ as_); unfold conservative_settle; intros [= <- <- <-].
  - split_and!; [split; [intros _; by apply Hex|done]|done|done].
  - split_and!; [split; [done|]|done|].
    { intros Hne. apply Hex in Hne. done. }
    intros _. cbn [current_delay_ms_ wait_until_].
    assert (Hd : 0 ≤ next_delay r st ≤ kMaxBackoffMs ∧ next_delay r st ≤
      (if decide (current_delay_ms_ st = 0) then initial_delay_ms_ st
       else current_delay_ms_ st * delay_multiplier_ st)).
    { unfold next_delay. destruct (decide (current_delay_ms_ st = 0)) as [Hz|Hz].
      - rewrite Hz. simpl. pose proof (scale_delay_bounds _ r Hi Hr). unfold kMaxBackoffMs. lia.
      - rewrite (proj2 (Z.eqb_neq _ 0)) by done. rewrite u64_id by lia.
        pose proof (scale_delay_bounds _ r Hm Hr). unfold kMaxBackoffMs. lia. }
    destruct Hd as [Hd1 Hd2]. split_and!; [lia..|].
    intros t t' r' v' Hlt. rewrite i64_id.
    + by rewrite (proj2 (Z.ltb_lt _ _)).
    + unfold clock_range, kMaxBackoffMs in *. lia.
Qed.

(** The random factor is between 0 and 1, not between 1 and the multiplier: it can
    bring any delay down to 0, and then the strategy has forgotten the failure: the next
    refill is not delayed and attempts a third of the vacancies again. *)
Theorem conservative_backoff_can_vanish {Session} t0 t1 v v' (rs rs' : list (attempt Session)) st t' r' :
  0 ≤ initial_delay_ms_ st < 2 ^ 53 → 0 ≤ current_delay_ms_ st * delay_multiplier_ st < 2 ^ 53 →
  clock_range t1 → ¬ backing_off t0 st → 0 < v' < 2 ^ 64 - 2 →
  appended (take (Z.to_nat (conservative_attempts v st)) rs) = [] →
  ∃ st', conservative_refill t0 t1 0 v rs st = (st', [], false) ∧
    current_delay_ms_ st' = 0 ∧ ¬ backing_off t1 st' ∧
    (conservative_refill t1 t' r' v' rs' st').1.2 = appended (take (Z.to_nat ((v' + 2) / 3)) rs').
Proof.
  intros Hi Hm Ht Hb Hv' Hnone. unfold backing_off in *. unfold conservative_refill at 1.
  rewrite (proj2 (Z.ltb_ge _ _)) by lia.
  pose proof (existsb_appended (take (Z.to_nat (conservative_attempts v st)) rs)) as Hex.
  destruct (existsb _ _); [destruct (proj1 Hex eq_refl Hnone)|].
  unfold conservative_settle.
  assert (Hd : next_delay 0 st = 0).
  { unfold next_delay. by rewrite scale_delay_zero. }
  rewrite Hd, Hnone, Z.mul_0_l, Z.add_0_r.
  rewrite i64_id by (unfold clock_range in *; lia).
  eexists. split; [done|]. split; [done|]. cbn [wait_until_ current_delay_ms_]. split; [lia|].
  unfold conservative_refill. cbn [wait_until_]. rewrite Z.ltb_irrefl.
  rewrite conservative_attempts_fresh by done. by destruct (conservative_settle _ _ _ _).
Qed.

Definition toy_conservative : conservative_strategy := mk_conservative 0 50 3 0.

Lemma conservative_refill_attempts_witness :
  (conservative_refill 10 20 0 7 [Some 1%nat; None; Some 3%nat; Some 4%nat] toy_conservative).1.2 =
    [1%nat; 3%nat].
Proof.
  destruct (conservative_refill_attempts 10 20 0 7 [Some 1%nat; None; Some 3%nat; Some 4%nat]
    toy_conservative) as (_ & _ & E); [done|done|exact E].
Defined.

Lemma conservative_refill_backoff_witness :
  ∃ st', conservative_refill (Session := nat) 10 20 2147483648 7 [None; None; None] toy_conservative =
      (st', [], false) ∧ current_delay_ms_ st' = 25 ∧
    conservative_refill 1000000 1000001 0 7 [Some 1%nat] st' = (st', [], false).
Proof.
  set (st' := mk_conservative 25000020 50 3 25).
  assert (Hr : conservative_refill (Session := nat) 10 20 2147483648 7 [None; None; None] toy_conservative =
    (st', [], false)) by (vm_compute; reflexivity).
  exists st'. split; [exact Hr|]. split; [done|].
  destruct (conservative_refill_backoff 10 20 2147483648 7 [None; None; None] [Some 1%nat]
    toy_conservative st' [] false) as (_ & _ & Hb).
  - simpl; lia.
  - simpl; lia.
  - unfold mt19937_max; lia.
  - unfold clock_range; lia.
  - unfold backing_off; simpl; lia.
  - exact Hr.
  - apply (Hb eq_refl). simpl; lia.
Defined.

Lemma conservative_backoff_can_vanish_witness :
  ∃ st', conservative_refill (Session := nat) 10 20 0 7 [None; None; None] toy_conservative = (st', [], false) ∧
    (conservative_refill 20 30 0 9 [Some 1%nat; Some 2%nat; Some 3%nat] st').1.2 = [1%nat; 2%nat; 3%nat].
Proof.
  destruct (conservative_backoff_can_vanish 10 20 7 9 [None; None; None]
    [Some 1%nat; Some 2%nat; Some 3%nat] toy_conservative 30 0) as (st' & E1 & _ & _ & E2).
  - simpl; lia.
  - simpl; lia.
  - unfold clock_range; lia.
  - unfold backing_off; simpl; lia.
  - lia.
  - reflexivity.
  - exists st'. split; [exact E1|exact E2].
Defined.
