(* ===== verification/ConnectionPool.v ===== *)
(** * [base_connection_pool]: a self-refilling pool of sessions

    Models connector/connection_pool.hpp and connector/impl/connection_pool.ipp: the member
    functions, each as a function of what the mutex and the condition variable give it,
    and an undisturbed round of the watcher.  The threads are in PoolSystem and PoolWait.
    The strategy is any implementation of [PoolStrategy]. *)

From S2P Require Import Prelude ErrorCode TimedBase BaseSocket Transfer StreamSocket PoolStrategy.
Open Scope sc_scope.

(** What [return_session] asks of a session: [session->next_layer().is_open()]. *)
Class PoolSession (Session : Type) := session_is_open : Session → bool.

(** [std::list<std::pair<time_point_type, std::unique_ptr<stream_type>>>]. *)
Abbreviation session_list Session := (list (Z * Session)).

(** The data members the member functions use. *)
Record pool (Session St : Type) := mk_pool {
  pool_max_size_ : Z;
  idle_timeout_ : Z;
  sesson_pool_ : session_list Session;
  watch_pool_ : bool;
  reconnection_ : St;
  pool_connect_timeout : Z
}.
Arguments mk_pool {Session St}.
Arguments pool_max_size_ {Session St}.
Arguments idle_timeout_ {Session St}.
Arguments sesson_pool_ {Session St}.
Arguments watch_pool_ {Session St}.
Arguments reconnection_ {Session St}.
Arguments pool_connect_timeout {Session St}.

(** What a thread that locks the mutex and waits on the condition variable meets: whether
    the mutex is free, or when it gets free, and the list at that time; the first later moment at which
    it holds the mutex again, notified, with a non-empty list; and the list when it
    holds the mutex again after the deadline has passed. *)
Record lock_env (Session : Type) := mk_lock_env {
  le_lock : option Z;
  le_pool : session_list Session;
  le_wake : option (Z * session_list Session);
  le_late : session_list Session
}.
Arguments mk_lock_env {Session}.
Arguments le_lock {Session}.
Arguments le_pool {Session}.
Arguments le_wake {Session}.
Arguments le_late {Session}.

Section Pool.
Context {Session St : Type} `{PoolSession Session, PoolStrategy St, pl : Platform}.
Implicit Types (p : pool Session St) (l : session_list Session) (env : lock_env Session).

Definition set_sessions l p : pool Session St :=
  mk_pool (pool_max_size_ p) (idle_timeout_ p) l (watch_pool_ p) (reconnection_ p) (pool_connect_timeout p).

Definition set_strategy (st : St) p : pool Session St :=
  mk_pool (pool_max_size_ p) (idle_timeout_ p) (sesson_pool_ p) (watch_pool_ p) st (pool_connect_timeout p).

Definition set_watch (b : bool) p : pool Session St :=
  mk_pool (pool_max_size_ p) (idle_timeout_ p) (sesson_pool_ p) b (reconnection_ p) (pool_connect_timeout p).

(** [base_connection_pool(size, idle_timeout, argn...)]. *)
Definition pool_ctor (size idle_timeout : Z) (st : St) (connect_timeout : Z) : pool Session St :=
  mk_pool size idle_timeout [] true st connect_timeout.

(** [base_connection_pool(size, arg1, argn...)]: no idle timeout. *)
Definition pool_ctor_no_idle (size : Z) (st : St) (connect_timeout : Z) : pool Session St :=
  pool_ctor size kInfiniteDuration st connect_timeout.

(** [~base_connection_pool()], up to the join. *)
Definition pool_dtor p : pool Session St := set_watch false p.

(** [std::list::empty()]. *)
Definition list_empty l : bool := match l with [] => true | _ => false end.

(** [pool_lk.try_lock_until(deadline)]: a free mutex is taken even when the deadline has
    already passed. *)
Definition try_lock_until env (deadline : Z) : bool :=
  match le_lock env with None => true | Some t => t <=? deadline end.

(** [pool_cv_.wait_until(pool_lk, deadline, pred)]: the predicate's value when it
    returns, and the list at that moment. *)
Definition cv_wait_until env (deadline : Z) : bool * session_list Session :=
  if negb (list_empty (le_pool env)) then (true, le_pool env)
  else
    match le_wake env with
    | Some (t, l) =>
        if (t <=? deadline) && negb (list_empty l) then (true, l)
        else (negb (list_empty (le_late env)), le_late env)
    | None => (negb (list_empty (le_late env)), le_late env)
    end.

(** [ensure_session(pool_lk, ec, deadline)]: the result, [ec], and the list it leaves
    the caller holding the mutex over. *)
Definition ensure_session env (ec : error_code) (deadline : Z)
    : bool * error_code * session_list Session :=
  if negb (try_lock_until env deadline) then (false, timed_out, le_pool env)
  else
    let '(ready, l) := cv_wait_until env deadline in
    if ready then (true, ec, l) else (false, not_found, l).

(** Moving the front session out and popping it. *)
Definition pop_front l : option Session * session_list Session :=
  match l with
  | [] => (None, [])
  | (_, session) :: l => (Some session, l)
  end.

(** [get_session(ec, deadline)]: the session, [ec] and the list afterwards. *)
Definition get_session env (ec : error_code) (deadline : Z)
    : option Session * error_code * session_list Session :=
  let '(ok, ec, l) := ensure_session env ec deadline in
  if ok then let '(session, l) := pop_front l in (session, ec, l) else (None, ec, l).

(** [get_session(ec, timeout)] at clock reading [t], and [get_session(ec)]. *)
Definition get_session_timeout env (ec : error_code) (t timeout : Z) :=
  get_session env ec (t +i timeout).

Definition get_session_default env (ec : error_code) (t : Z) p :=
  get_session_timeout env ec t (pool_connect_timeout p).

(** [get_session(timeout_or_deadline)], throwing; [what] is the message, which names the
    target of the connector. *)
Definition get_session_throw env (what : string) (deadline : Z)
    : outcome Session * session_list Session :=
  let '(session, ec, l) := get_session env ec_ok deadline in
  if ec_failed ec then (Throw (mk_se ec what), l)
  else
    match session with
    | None => (Throw (mk_se operation_aborted what), l)
    | Some session => (Normal session, l)
    end.

(** [get_session()]. *)
Definition get_session_default_throw env (what : string) (t : Z) p :=
  get_session_throw env what (t +i pool_connect_timeout p).

(** [try_get_session(ec, deadline)]. *)
Definition try_get_session env (ec : error_code) (deadline : Z)
    : option Session * error_code * session_list Session :=
  if negb (try_lock_until env deadline) then (None, timed_out, le_pool env)
  else if list_empty (le_pool env) then (None, not_found, le_pool env)
  else let '(session, l) := pop_front (le_pool env) in (session, ec, l).

Definition try_get_session_timeout env (ec : error_code) (t timeout : Z) :=
  try_get_session env ec (t +i timeout).

(** [return_session(session)], called at [t]; the mutex is free at [lock], when the list
    is [l].  The caller's [unique_ptr] afterwards, and the list. *)
Definition return_session (session : option Session) (t lock : Z) l
    : option Session * session_list Session :=
  match session with
  | None => (None, l)
  | Some s =>
      if negb (session_is_open s) then (session, l)
      else if negb (lock <=? t + 1000000) then (session, l)
      else (None, l ++ [(Z.max t lock, s)])
  end.

(** [is_connected(ec, deadline)], its timeout overloads and the throwing one. *)
Definition is_connected env (ec : error_code) (deadline : Z) : bool * error_code :=
  (ensure_session env ec deadline).1.

Definition is_connected_timeout env (ec : error_code) (t timeout : Z) : bool * error_code :=
  is_connected env ec (t +i timeout).

Definition is_connected_default env (ec : error_code) (t : Z) p : bool * error_code :=
  is_connected_timeout env ec t (pool_connect_timeout p).

Definition is_connected_throw env (what : string) (t : Z) p : outcome bool :=
  let '(res, ec) := is_connected_default env ec_ok t p in
  if ec_failed ec then Throw (mk_se ec what) else Normal res.

(** The eviction loop of [watch_pool_routine]: the list and the count it leaves. *)
Fixpoint evict_loop (now idle_timeout : Z) l (pool_current_size : Z)
    : session_list Session * Z :=
  match l with
  | [] => ([], pool_current_size)
  | x :: l =>
      if idle_timeout <=? now -i x.1 then evict_loop now idle_timeout l pool_current_size
      else
        let '(l, n) := evict_loop now idle_timeout l (pool_current_size +u 1) in (x :: l, n)
  end.

Definition vacant_places (pool_max_size pool_current_size : Z) : Z :=
  if pool_current_size <? pool_max_size then pool_max_size -u pool_current_size else 0.

(** How one iteration of [watch_pool_routine] ends: the thread loops at once, or sleeps
    50 ms first. *)
Inductive watch_verdict := LoopAgain | SleepThenLoop.

(** One iteration of [watch_pool_routine] with no other thread in between: [locked] is
    whether the mutex was taken within 100 ms, [t] the clock reading of the eviction,
    [t0], [t1] and [r] those of the strategy, [rs] the results of the adders'
    [new_session()], appended one after the other at [t1]. *)
Definition watch_iteration (locked : bool) (t t0 t1 r : Z) (rs : list (attempt Session)) p
    : pool Session St * watch_verdict :=
  if negb locked then (p, LoopAgain)
  else
    let '(l, pool_current_size) := evict_loop t (idle_timeout_ p) (sesson_pool_ p) 0 in
    let vacant := vacant_places (pool_max_size_ p) pool_current_size in
    let p := set_sessions l p in
    if 0 <? vacant then
      let adders := take (Z.to_nat (refill_attempts t0 vacant (reconnection_ p))) rs in
      let l := foldl (λ l s, (return_session (Some s) t1 t1 l).2) l (appended adders) in
      let '(st, need_more) :=
        refill_settle t0 t1 r vacant (negb (bool_decide (appended adders = []))) (reconnection_ p) in
      let p := set_strategy st (set_sessions l p) in
      if need_more then (p, LoopAgain) else (p, SleepThenLoop)
    else (p, SleepThenLoop).

End Pool.

(** A stream as a session of the pool: [next_layer()] is its asio socket. *)
#[export] Instance stream_pool_session {K E} `{AsioSocket K E} : PoolSession (stream_socket K) :=
  λ w, sk_is_open (next_layer (self w)).

(** Sessions of the witnesses: a number, open when it is even. *)
#[export] Instance nat_pool_session : PoolSession nat := Nat.even.

Section Lemmas.
Context {Session St : Type} `{PoolSession Session, PoolStrategy St, pl : Platform}.
Implicit Types (p : pool Session St) (l : session_list Session) (env : lock_env Session).

Lemma evict_loop_list t idle l n :
  (evict_loop t idle l n).1 = filter (λ x, ¬ idle ≤ t -i x.1) l.
Proof.
  revert n. induction l as [|x l IH]; intros n; simpl; [done|].
  destruct (idle <=? t -i x.1) eqn:E; bool_prop.
  - by rewrite IH, filter_cons_False by naive_solver.
  - specialize (IH (n +u 1)). destruct (evict_loop _ _ _ _) as [l' m]. simpl in *.
    by rewrite filter_cons_True, IH by lia.
Qed.

Lemma evict_loop_spec t idle l n :
  0 ≤ n → n + Z.of_nat (length l) < 2 ^ 64 →
  evict_loop t idle l n =
    (filter (λ x, ¬ idle ≤ t -i x.1) l, n + Z.of_nat (length (filter (λ x, ¬ idle ≤ t -i x.1) l))).
Proof.
  revert n. induction l as [|x l IH]; intros n Hn Hl; simpl in *.
  - by rewrite Z.add_0_r.
  - destruct (idle <=? t -i x.1) eqn:E; bool_prop.
    + rewrite IH by lia. by rewrite filter_cons_False by naive_solver.
    + rewrite u64_id by lia. rewrite IH by lia.
      rewrite filter_cons_True by lia. simpl. f_equal. lia.
Qed.

Lemma vacant_places_spec m n :
  0 ≤ m < 2 ^ 64 → 0 ≤ n → vacant_places m n = Z.max 0 (m - n).
Proof.
  intros. unfold vacant_places. destruct (n <? m) eqn:E; bool_prop; [rewrite u64_id; lia|lia].
Qed.

Lemma return_session_some s t lock l l' :
  return_session (Some s) t lock l = (None, l') →
  session_is_open s = true ∧ l' = l ++ [(Z.max t lock, s)].
Proof.
  unfold return_session. destruct (session_is_open s); [|done]. simpl.
  destruct (lock <=? _); [by intros [= <-]|done].
Qed.

Lemma pop_front_some l s l' :
  pop_front l = (Some s, l') → ∃ t, l = (t, s) :: l'.
Proof. destruct l as [|[t s'] l]; [done|]. intros [= <- <-]. by exists t. Qed.

(** The list the caller of [ensure_session] is left with when it succeeds is not empty. *)
Lemma cv_wait_until_ready env dl l : cv_wait_until env dl = (true, l) → l ≠ [].
Proof.
  unfold cv_wait_until.
  destruct (le_pool env), (le_wake env) as [[t [|x l']]|], (le_late env); simpl;
    rewrite ?andb_false_r, ?andb_true_r; try (by intros [= <-]);
    try (destruct (t <=? dl); by intros [= <-]).
Qed.

(** Appending open sessions one after the other at the same clock reading. *)
Lemma append_all t (ss : list Session) l :
  Forall (λ s, session_is_open s = true) ss →
  foldl (λ l s, (return_session (Some s) t t l).2) l ss = l ++ map (pair t) ss.
Proof.
  intros Hf. revert l. induction Hf as [|s ss Hs _ IH]; intros l; [by rewrite app_nil_r|].
  cbn [foldl map]. assert ((return_session (Some s) t t l).2 = l ++ [(t, s)]) as ->.
  { unfold return_session. by rewrite Hs, (proj2 (Z.leb_le t _)), Z.max_id by lia. }
  rewrite IH. by rewrite <- app_assoc.
Qed.

End Lemmas.

Section Claims.
Context {Session St : Type} `{PoolSession Session, PoolStrategy St, pl : Platform}.
Implicit Types (p : pool Session St) (l : session_list Session) (env : lock_env Session).

(** [get_session(ec, deadline)] on every outcome of the lock and the wait: no lock in
    time gives null and [timed_out]; a list that is still empty gives null and
    [not_found]; otherwise the front session of the list is moved out of it and [ec] is
    left as the caller passed it. *)
Theorem get_session_outcome env ec dl :
  let '(session, ec', l') := get_session env ec dl in
  if try_lock_until env dl then
    match cv_wait_until env dl with
    | (false, l) => session = None ∧ ec' = not_found ∧ l' = l
    | (true, l) => ∃ t s, l = (t, s) :: l' ∧ session = Some s ∧ ec' = ec
    end
  else session = None ∧ ec' = timed_out ∧ l' = le_pool env.
Proof.
  unfold get_session, ensure_session. destruct (try_lock_until env dl); [|done]. simpl.
  destruct (cv_wait_until env dl) as [[] l] eqn:E; [|done].
  apply cv_wait_until_ready in E. destruct l as [|[t s] l]; [done|]. simpl. by exists t, s.
Qed.

(** The throwing [get_session] returns a session of the list, or throws one of the
    two codes of the waiting; its null-pointer branch ([operation_aborted]) is dead. *)
Theorem get_session_throw_outcome env what dl :
  match get_session_throw env what dl with
  | (Normal s, l) => ∃ t, cv_wait_until env dl = (true, (t, s) :: l)
  | (Throw e, _) => e = mk_se timed_out what ∨ e = mk_se not_found what
  end.
Proof.
  unfold get_session_throw, get_session, ensure_session.
  destruct (try_lock_until env dl); simpl.
  - destruct (cv_wait_until env dl) as [[] l] eqn:E; [|by right].
    pose proof (cv_wait_until_ready _ _ _ E). destruct l as [|[t s] l]; [done|]. simpl. by exists t.
  - rewrite timed_out_failed. by left.
Qed.

(** The throwing [is_connected()] never returns [false]: on a pool that stays empty
    it throws, and with [not_found]. *)
Theorem is_connected_throw_never_false env what t p :
  match is_connected_throw env what t p with
  | Normal b => b = true
  | Throw e => e = mk_se timed_out what ∨
      (e = mk_se not_found what ∧ ∃ l, cv_wait_until env (t +i pool_connect_timeout p) = (false, l))
  end.
Proof.
  unfold is_connected_throw, is_connected_default, is_connected_timeout, is_connected, ensure_session.
  destruct (try_lock_until env _); simpl.
  - destruct (cv_wait_until env _) as [[] l]; simpl; [done|]. right. by eauto.
  - rewrite timed_out_failed. by left.
Qed.

(** An infinite timeout is no timeout at all: the deadline overflows into the past, so
    on an empty pool [get_session] gives up with [not_found] at once, although a session
    would have come at [tw]. *)
Theorem get_session_infinite_timeout_gives_up env ec t tw lw :
  0 < t < time_point_max → 0 ≤ tw →
  le_lock env = None → le_pool env = [] → le_wake env = Some (tw, lw) → le_late env = [] →
  get_session_timeout env ec t kInfiniteDuration = (None, not_found, []).
Proof.
  intros Ht Htw Hl Hp Hw Hlate.
  unfold get_session_timeout, get_session, ensure_session, try_lock_until, cv_wait_until.
  rewrite Hl, Hp, Hw, Hlate. simpl.
  assert (t +i kInfiniteDuration < 0) as Hdl.
  { unfold kInfiniteDuration, time_point_max, i64_max in *. rewrite i64_over; lia. }
  by rewrite (proj2 (Z.leb_gt _ _)) by lia.
Qed.

(** One undisturbed iteration of the watcher with the greedy strategy, every adder of
    which gets an open session: the idle sessions are gone, the others keep their order,
    and the pool is filled exactly to its size (or left alone if it was above it). *)
Theorem greedy_iteration_fills t t0 t1 r (rs : list Session) (q : pool Session greedy_strategy) :
  0 ≤ pool_max_size_ q < 2 ^ 64 - 2 → Z.of_nat (length (sesson_pool_ q)) < 2 ^ 64 →
  Forall (λ s, session_is_open s = true) rs →
  let kept := filter (λ x, ¬ idle_timeout_ q ≤ t -i x.1) (sesson_pool_ q) in
  pool_max_size_ q ≤ Z.of_nat (length kept + length rs) →
  let q' := (watch_iteration true t t0 t1 r (map Some rs) q).1 in
  sesson_pool_ q' = kept ++ map (pair t1) (take (Z.to_nat (pool_max_size_ q) - length kept) rs) ∧
  Z.of_nat (length (sesson_pool_ q')) = Z.max (pool_max_size_ q) (Z.of_nat (length kept)).
Proof.
  intros Hm Hl Hrs kept Hn. unfold watch_iteration. simpl negb. cbv iota.
  assert (Hkl : (length kept ≤ length (sesson_pool_ q))%nat) by apply length_filter.
  rewrite evict_loop_spec by lia. fold kept. rewrite vacant_places_spec by lia. rewrite Z.add_0_l.
  destruct (0 <? _) eqn:E; bool_prop.
  - simpl refill_attempts. simpl refill_settle.
    replace (Z.to_nat (Z.max 0 (pool_max_size_ q - Z.of_nat (length kept))))
      with (Z.to_nat (pool_max_size_ q) - length kept)%nat by lia.
    rewrite firstn_map, appended_some, append_all by (by apply Forall_take).
    destruct (0 <? _); simpl; (split; [done|]);
      rewrite length_app, length_map, length_take; lia.
  - simpl. replace (Z.to_nat (pool_max_size_ q) - length kept)%nat with 0%nat by lia.
    rewrite app_nil_r. split; [done|lia].
Qed.

(** With the greedy strategy the watcher never sleeps while the pool has vacancies,
    even when no connection could be made: a failing target is retried in a busy loop. *)
Theorem greedy_watcher_spins t t0 t1 r n (q : pool Session greedy_strategy) :
  0 ≤ pool_max_size_ q < 2 ^ 64 - 2 → Z.of_nat (length (sesson_pool_ q)) < pool_max_size_ q →
  let '(q', verdict) := watch_iteration true t t0 t1 r (replicate n None) q in
  verdict = LoopAgain ∧
  sesson_pool_ q' = filter (λ x, ¬ idle_timeout_ q ≤ t -i x.1) (sesson_pool_ q).
Proof.
  intros Hm Hl. unfold watch_iteration. simpl negb. cbv iota.
  set (kept := filter _ _).
  assert (Hkl : (length kept ≤ length (sesson_pool_ q))%nat) by apply length_filter.
  rewrite evict_loop_spec by lia. fold kept. rewrite vacant_places_spec by lia. rewrite Z.add_0_l.
  rewrite (proj2 (Z.ltb_lt 0 _)) by lia. simpl refill_settle.
  rewrite (proj2 (Z.ltb_lt 0 _)) by lia. split; [done|].
  rewrite take_replicate. simpl. by rewrite appended_none.
Qed.

End Claims.

(** A stream whose [close()] shut it down and reported success still counts as open,
    and [return_session] puts it back into the pool for another client. *)
Theorem closed_stream_is_pooled {K E} `{AsioSocketLaws K E, pl : Platform}
    (w : stream_socket K) t l :
  is_open (self w) = true → (sk_shutdown (socket_ (self w))).2 = ec_ok →
  ∃ b', stream_close (self w) = (b', ec_ok) ∧
    return_session (Some (set_self (λ _, b') w)) t t l = (None, l ++ [(t, set_self (λ _, b') w)]).
Proof.
  intros Ho Hs. assert (Hne : ec_ok ≠ not_connected) by (intros [= Heq]; by apply ENOTCONN_nz).
  unfold stream_close, next_layer.
  pose proof (sk_shutdown_open (socket_ (self w))) as Hop.
  destruct (sk_shutdown (socket_ (self w))) as [s ec]. simpl in *. subst ec.
  rewrite decide_True by done. eexists. split; [done|].
  unfold return_session, session_is_open, stream_pool_session, next_layer. simpl.
  unfold is_open, next_layer in Ho. rewrite Hop, Ho. simpl.
  by rewrite (proj2 (Z.leb_le t _)), Z.max_id by lia.
Qed.

(** ** Witnesses *)

Definition toy_env (l : session_list nat) (wake : option (Z * session_list nat)) : lock_env nat :=
  mk_lock_env None l wake [].

Definition toy_pool : pool nat greedy_strategy :=
  mk_pool 3 50 [(10, 2%nat); (70, 4%nat)] true mk_greedy 5000.

Lemma get_session_infinite_timeout_gives_up_witness :
  get_session_timeout (toy_env [] (Some (200, [(150, 2%nat)]))) ec_ok 100 kInfiniteDuration =
    (None, not_found, []).
Proof.
  apply (get_session_infinite_timeout_gives_up _ ec_ok 100 200 [(150, 2%nat)]); done.
Defined.

Lemma greedy_iteration_fills_witness :
  sesson_pool_ (watch_iteration true 100 110 120 0 (map Some [6; 8; 10]%nat) toy_pool).1 =
    [(70, 4%nat); (120, 6%nat); (120, 8%nat)].
Proof.
  destruct (greedy_iteration_fills 100 110 120 0 [6; 8; 10]%nat toy_pool) as [E _].
  - simpl; lia.
  - simpl; lia.
  - by repeat constructor.
  - vm_compute. congruence.
  - exact E.
Defined.

Lemma greedy_watcher_spins_witness :
  (watch_iteration true 100 110 120 0 (replicate 2 None) toy_pool).2 = LoopAgain.
Proof.
  pose proof (greedy_watcher_spins 100 110 120 0 2 toy_pool) as Hw.
  destruct (watch_iteration _ _ _ _ _ _ _) as [q v].
  apply Hw; simpl; lia.
Defined.

Lemma closed_stream_is_pooled_witness :
  ∃ b', (return_session (Some (set_self (λ _, b') toy_stream)) 100 100 []).2 =
    [(100, set_self (λ _, b') toy_stream)].
Proof.
  destruct (closed_stream_is_pooled toy_stream 100 []) as (b' & _ & E); [done..|].
  exists b'. by rewrite E.
Defined.
