(* ===== verification/PoolSystem.v ===== *)
(** * The pool with its threads

    [base_connection_pool] as a transition system: the watcher thread, the adders a
    refill starts, client threads that take, return or destroy sessions, and the
    destructor's flag.  A step is one critical section of [pool_mutex_] or one action
    outside it; the interleaving of the steps is arbitrary.  [max_held] bounds the number of
    sessions the clients hold at any one time. *)

From S2P Require Import Prelude ErrorCode TimedBase PoolStrategy ConnectionPool.
Open Scope sc_scope.

(** Where the watcher thread is: at the loop's head; between the eviction and the
    refill; in a refill entered at [t0]; asleep; out of the loop. *)
Inductive watcher_pc :=
| WLoop
| WUnlocked (vacant : Z)
| WRefill (t0 vacant : Z) (is_added : bool)
| WSleep
| WDone.

Record system (Session St : Type) := mk_system {
  s_pool : pool Session St;
  s_pc : watcher_pc;
  s_adders : nat;              (** adders still in [new_session()] *)
  s_ready : list Session;      (** sessions connected, not yet appended *)
  s_held : list Session;       (** sessions the clients hold *)
  s_gone : list Session;       (** sessions destroyed *)
  s_created : list Session;    (** every session ever connected *)
  s_clock : Z
}.
Arguments mk_system {Session St}.
Arguments s_pool {Session St}.
Arguments s_pc {Session St}.
Arguments s_adders {Session St}.
Arguments s_ready {Session St}.
Arguments s_held {Session St}.
Arguments s_gone {Session St}.
Arguments s_created {Session St}.
Arguments s_clock {Session St}.

Section System.
Context {Session St : Type} `{PoolSession Session, PoolStrategy St}.
Variable max_held : nat.

(** The sessions that the eviction at clock reading [t] destroys. *)
Definition evicted (t idle : Z) (l : session_list Session) : list Session :=
  map snd (filter (λ x, idle ≤ t -i x.1) l).

Inductive step : system Session St → system Session St → Prop :=
(* time passes *)
| step_tick p pc n rd hd gn cr t t' :
    t ≤ t' < time_point_max →
    step (mk_system p pc n rd hd gn cr t) (mk_system p pc n rd hd gn cr t')
(* the destructor stores the flag *)
| step_stop p pc n rd hd gn cr t :
    step (mk_system p pc n rd hd gn cr t) (mk_system (pool_dtor p) pc n rd hd gn cr t)
(* the watcher leaves the loop *)
| step_exit p n rd hd gn cr t :
    watch_pool_ p = false →
    step (mk_system p WLoop n rd hd gn cr t) (mk_system p WDone n rd hd gn cr t)
(* the watcher's critical section: eviction *)
| step_evict p n rd hd gn cr t :
    watch_pool_ p = true →
    step (mk_system p WLoop n rd hd gn cr t)
      (let r := evict_loop t (idle_timeout_ p) (sesson_pool_ p) 0 in
       mk_system (set_sessions r.1 p) (WUnlocked (vacant_places (pool_max_size_ p) r.2)) n rd hd
         (gn ++ evicted t (idle_timeout_ p) (sesson_pool_ p)) cr t)
(* nothing to refill *)
| step_full p n rd hd gn cr t :
    step (mk_system p (WUnlocked 0) n rd hd gn cr t) (mk_system p WSleep n rd hd gn cr t)
(* the strategy starts its adders *)
| step_refill p v n rd hd gn cr t :
    0 < v →
    step (mk_system p (WUnlocked v) n rd hd gn cr t)
      (mk_system p (WRefill t v false)
         (Z.to_nat (refill_attempts t v (reconnection_ p))) rd hd gn cr t)
(* an adder connects, or fails to *)
| step_connect p t0 v b n rd hd gn cr t s :
    s ∉ cr →
    step (mk_system p (WRefill t0 v b) (S n) rd hd gn cr t)
      (mk_system p (WRefill t0 v b) n (s :: rd) hd gn (s :: cr) t)
| step_connect_fail p t0 v b n rd hd gn cr t :
    step (mk_system p (WRefill t0 v b) (S n) rd hd gn cr t)
      (mk_system p (WRefill t0 v b) n rd hd gn cr t)
(* an adder appends its session; it is dropped when [return_session] gives it back *)
| step_append p t0 v b n rd1 s rd2 hd gn cr t lock l :
    return_session (Some s) t lock (sesson_pool_ p) = (None, l) → t ≤ lock < time_point_max →
    step (mk_system p (WRefill t0 v b) n (rd1 ++ s :: rd2) hd gn cr t)
      (mk_system (set_sessions l p) (WRefill t0 v true) n (rd1 ++ rd2) hd gn cr lock)
| step_append_drop p t0 v b n rd1 s rd2 hd gn cr t lock :
    (return_session (Some s) t lock (sesson_pool_ p)).1 = Some s →
    step (mk_system p (WRefill t0 v b) n (rd1 ++ s :: rd2) hd gn cr t)
      (mk_system p (WRefill t0 v true) n (rd1 ++ rd2) hd (s :: gn) cr t)
(* the adders are joined and the strategy gives its verdict *)
| step_join p t0 v b hd gn cr t r :
    step (mk_system p (WRefill t0 v b) 0 [] hd gn cr t)
      (let res := refill_settle t0 t r v b (reconnection_ p) in
       mk_system (set_strategy res.1 p) (if res.2 then WLoop else WSleep) 0 [] hd gn cr t)
| step_wake p n rd hd gn cr t :
    step (mk_system p WSleep n rd hd gn cr t) (mk_system p WLoop n rd hd gn cr t)
(* a client's [get_session] or [try_get_session] pops the front session *)
| step_get p pc n rd hd gn cr t s l :
    pop_front (sesson_pool_ p) = (Some s, l) → (length hd < max_held)%nat →
    step (mk_system p pc n rd hd gn cr t) (mk_system (set_sessions l p) pc n rd (s :: hd) gn cr t)
(* a client returns a session it holds *)
| step_return p pc n rd hd1 s hd2 gn cr t lock l :
    return_session (Some s) t lock (sesson_pool_ p) = (None, l) → t ≤ lock < time_point_max →
    step (mk_system p pc n rd (hd1 ++ s :: hd2) gn cr t)
      (mk_system (set_sessions l p) pc n rd (hd1 ++ hd2) gn cr lock)
(* a client destroys a session it holds *)
| step_drop p pc n rd hd1 s hd2 gn cr t :
    step (mk_system p pc n rd (hd1 ++ s :: hd2) gn cr t)
      (mk_system p pc n rd (hd1 ++ hd2) (s :: gn) cr t).

(** The system right after the constructor. *)
Definition initial (size idle_timeout : Z) (sy : system Session St) : Prop :=
  ∃ st ct t, 0 ≤ t < time_point_max ∧
    sy = mk_system (pool_ctor size idle_timeout st ct) WLoop 0 [] [] [] [] t.

(** The sessions in the pool. *)
Definition pooled (sy : system Session St) : list Session := map snd (sesson_pool_ (s_pool sy)).

(** The sessions a refill may still add. *)
Definition promised (sy : system Session St) : Z :=
  match s_pc sy with
  | WUnlocked v => v
  | WRefill _ _ _ => Z.of_nat (s_adders sy + length (s_ready sy))
  | _ => 0
  end.

(** The sessions between the adders and the pool exist during a refill only. *)
Definition adders_idle (sy : system Session St) : Prop :=
  match s_pc sy with
  | WRefill _ _ _ => True
  | _ => s_adders sy = 0%nat ∧ s_ready sy = []
  end.

End System.

Arguments step {Session St _ _} max_held.

(** ** Lemmas on the operations *)

#[local] Arguments return_session : simpl never.
#[local] Arguments pop_front : simpl never.

(** What the operation of the step at hand has done to the list. *)
Ltac pool_inv :=
  match goal with
  | H : return_session (Some _) _ _ ?l0 = (None, ?l) |- _ =>
      apply return_session_some in H as [_ H]; cbn in H; subst l
  | H : pop_front _ = (Some _, _) |- _ => apply pop_front_some in H as [? H]; rename H into Hl
  end.

Section Lemmas.
Context {Session St : Type} `{PoolSession Session, PoolStrategy St}.
Implicit Types (p : pool Session St) (l : session_list Session).

Lemma evicted_perm t idle l :
  map snd l ≡ₚ map snd (filter (λ x, ¬ idle ≤ t -i x.1) l) ++ evicted t idle l.
Proof.
  unfold evicted. induction l as [|x l IH]; [done|]. simpl.
  destruct (decide (idle ≤ t -i x.1)).
  - rewrite filter_cons_False by tauto. rewrite (filter_cons_True (λ x, idle ≤ t -i x.1)) by done.
    simpl. rewrite IH at 1. by rewrite Permutation_middle.
  - rewrite filter_cons_True by done. rewrite (filter_cons_False (λ x, idle ≤ t -i x.1)) by done.
    simpl. by rewrite IH at 1.
Qed.

Lemma chronological_filter (P : Z * Session → Prop) `{∀ x, Decision (P x)} (Q : Z → Prop) l :
  StronglySorted Z.le (map fst l) → Forall Q (map fst l) →
  StronglySorted Z.le (map fst (filter P l)) ∧ Forall Q (map fst (filter P l)).
Proof.
  induction l as [|x l IH]; simpl; intros Hs Hf; [done|].
  apply StronglySorted_cons in Hs as [Hx Hs]. apply Forall_cons in Hf as [Hq Hf].
  destruct (IH Hs Hf) as [IH1 IH2]. destruct (decide (P x)).
  - rewrite filter_cons_True by done. simpl. split; [|by constructor].
    apply StronglySorted_cons. split; [|done].
    apply (Forall_fmap fst). apply (Forall_fmap fst) in Hx. rewrite Forall_forall in *.
    intros y Hy. apply list_elem_of_filter in Hy as [_ Hy]. by apply Hx.
  - by rewrite filter_cons_False.
Qed.

Lemma chronological_snoc t lock s l :
  0 ≤ t < time_point_max → t ≤ lock < time_point_max →
  StronglySorted Z.le (map fst l) → Forall (λ u, 0 ≤ u ≤ t) (map fst l) →
  0 ≤ lock < time_point_max ∧
  StronglySorted Z.le (map fst (l ++ [(Z.max t lock, s)])) ∧
  Forall (λ u, 0 ≤ u ≤ lock) (map fst (l ++ [(Z.max t lock, s)])).
Proof.
  intros Ht Hl Hs Hf. rewrite Z.max_r by lia. rewrite map_app. simpl. split; [lia|]. split.
  - apply StronglySorted_app. split_and!; [|done|by repeat constructor].
    intros x1 x2 Hx1 Hx2. apply list_elem_of_singleton in Hx2 as ->.
    rewrite Forall_forall in Hf. specialize (Hf x1 Hx1). simpl in Hf. lia.
  - apply Forall_app. split; [|repeat constructor; lia].
    eapply Forall_impl; [exact Hf|]. simpl. lia.
Qed.

End Lemmas.

(** ** Invariants *)

Section Invariants.
Context {Session St : Type} `{PoolSession Session, PoolStrategy St}.
Variables (size idle_timeout : Z) (max_held : nat).
Hypothesis size_range : 0 ≤ size < 2 ^ 64 - 2.
Hypothesis held_range : size + Z.of_nat max_held < 2 ^ 64.
Implicit Types (sy : system Session St).

(** No session is lost or duplicated: the sessions ever created are, up to order, those
    in the pool, with an adder, with a client, or destroyed. *)
Definition ownership sy : Prop :=
  NoDup (s_created sy) ∧ s_created sy ≡ₚ pooled sy ++ s_ready sy ++ s_held sy ++ s_gone sy.

(** The population: pool, clients and promised sessions together. *)
Definition population sy : Prop :=
  pool_max_size_ (s_pool sy) = size ∧ idle_timeout_ (s_pool sy) = idle_timeout ∧
  adders_idle sy ∧ (length (s_held sy) ≤ max_held)%nat ∧
  (∀ v, s_pc sy = WUnlocked v → 0 ≤ v ≤ size) ∧
  Z.of_nat (length (pooled sy)) + Z.of_nat (length (s_held sy)) + promised sy ≤ size + Z.of_nat max_held.

(** The list is ordered by the time of return, within the clock. *)
Definition chronological sy : Prop :=
  0 ≤ s_clock sy < time_point_max ∧
  StronglySorted Z.le (map fst (sesson_pool_ (s_pool sy))) ∧
  Forall (λ t, 0 ≤ t ≤ s_clock sy) (map fst (sesson_pool_ (s_pool sy))).

Lemma ownership_inductive : inductive_invariant (initial size idle_timeout) (step max_held) ownership.
Proof.
  split.
  - intros sy (st & ct & t & _ & ->). by split; [constructor|].
  - intros sy sy' [Hnd Hp] Hs. unfold ownership, pooled in *.
    destruct Hs; simpl in *; try done.
    + split; [done|]. rewrite Hp, evict_loop_list, (evicted_perm t (idle_timeout_ p)). solve_Permutation.
    + split; [by constructor|]. rewrite Hp. solve_Permutation.
    + split; [done|]. pool_inv. rewrite Hp, map_app. simpl. solve_Permutation.
    + split; [done|]. rewrite Hp. solve_Permutation.
    + split; [done|]. pool_inv. rewrite Hp, Hl. simpl. solve_Permutation.
    + split; [done|]. pool_inv. rewrite Hp, map_app. simpl. solve_Permutation.
    + split; [done|]. rewrite Hp. solve_Permutation.
Qed.

Ltac population_split :=
  do 2 (split; [done|]); split; [try done|]; split; [lia|]; split; [try done|try lia].

Lemma population_inductive : inductive_invariant (initial size idle_timeout) (step max_held) population.
Proof.
  split.
  - intros sy (st & ct & t & _ & ->). unfold population, promised, pooled; simpl.
    split_and!; [done..|lia|done|lia].
  - intros sy sy' (Hsz & Hid & Hai & Hh & Hv & Hb) Hs. unfold population, promised, pooled, adders_idle in *.
    destruct Hs; simpl in *; rewrite ?length_app, ?length_map in *; simpl in *;
      try (population_split; fail).
    + rewrite evict_loop_list. set (l := filter _ _).
      assert (Hl : (length l ≤ length (sesson_pool_ p))%nat) by apply length_filter.
      rewrite evict_loop_spec by lia. fold l. simpl.
      rewrite vacant_places_spec by lia. rewrite Hsz.
      population_split. intros v [= <-]. lia.
    + pose proof (refill_attempts_bound t v (reconnection_ p)) as Hr.
      specialize (Hv v eq_refl). destruct Hai as [-> ->]. simpl.
      population_split.
    + pool_inv.
      rewrite length_app. simpl. population_split.
    + destruct (refill_settle _ _ _ _ _ _) as [st' []]; simpl; population_split.
    + pool_inv. rewrite Hl in Hb. simpl in Hb.
      population_split.
    + pool_inv.
      rewrite length_app. simpl. population_split.
Qed.

Lemma chronological_inductive : inductive_invariant (initial size idle_timeout) (step max_held) chronological.
Proof.
  split.
  - intros sy (st & ct & t & Ht & ->). split; [done|]. by split; constructor.
  - intros sy sy' (Ht & Hso & Hf) Hs. unfold chronological in *.
    destruct Hs; simpl in *; try exact (conj Ht (conj Hso Hf)).
    + split_and!; [lia|lia|done|]. eapply Forall_impl; [exact Hf|]. simpl. lia.
    + rewrite evict_loop_list. split; [done|]. by apply chronological_filter.
    + pool_inv. by apply chronological_snoc.
    + pool_inv. rewrite Hl in *. simpl in *.
      split; [done|]. apply StronglySorted_cons in Hso as [_ ?]. by apply Forall_cons in Hf as [_ ?].
    + pool_inv. by apply chronological_snoc.
Qed.

End Invariants.

(** ** The abstract specification

    What the pool promises to its clients, without threads, strategy or clock: a queue of
    sessions; sessions the clients borrowed; sessions that are gone for good. *)

Module PoolSpec.

Record state (Session : Type) := mk_state {
  queue : list Session;
  borrowed : list Session;
  retired : list Session
}.
Arguments mk_state {Session}.
Arguments queue {Session}.
Arguments borrowed {Session}.
Arguments retired {Session}.

Definition known {Session} (a : state Session) (s : Session) : Prop :=
  s ∈ queue a ∨ s ∈ borrowed a ∨ s ∈ retired a.

Inductive next {Session} : state Session → state Session → Prop :=
(* a session nobody has ever seen joins the end of the queue, or is thrown away *)
| supply q b r s : ¬ known (mk_state q b r) s → next (mk_state q b r) (mk_state (q ++ [s]) b r)
| discard q b r s : ¬ known (mk_state q b r) s → next (mk_state q b r) (mk_state q b (s :: r))
(* the sessions longest in the queue expire *)
| expire old q b r : next (mk_state (old ++ q) b r) (mk_state q b (r ++ old))
(* first in, first out *)
| take s q b r : next (mk_state (s :: q) b r) (mk_state q (s :: b) r)
(* a borrowed session comes back, or is destroyed by its borrower *)
| give q b1 s b2 r : next (mk_state q (b1 ++ s :: b2) r) (mk_state (q ++ [s]) (b1 ++ b2) r)
| destroy q b1 s b2 r : next (mk_state q (b1 ++ s :: b2) r) (mk_state q (b1 ++ b2) (s :: r)).

End PoolSpec.

Section Refinement.
Context {Session St : Type} `{PoolSession Session, PoolStrategy St}.
Variables (size idle_timeout : Z) (max_held : nat).
Implicit Types (sy : system Session St).

Definition abstract sy : PoolSpec.state Session :=
  PoolSpec.mk_state (pooled sy) (s_held sy) (s_gone sy).

(** In a list ordered by time, the sessions that are old enough are a prefix. *)
Lemma evict_prefix t idle (l : session_list Session) :
  0 ≤ t < time_point_max → StronglySorted Z.le (map fst l) → Forall (λ u, 0 ≤ u ≤ t) (map fst l) →
  l = filter (λ x, idle ≤ t -i x.1) l ++ filter (λ x, ¬ idle ≤ t -i x.1) l ∧
  Forall (λ x, t - x.1 < idle) (filter (λ x, ¬ idle ≤ t -i x.1) l) ∧
  Forall (λ x, idle ≤ t - x.1) (filter (λ x, idle ≤ t -i x.1) l).
Proof.
  intros Ht Hs Hf. unfold time_point_max, i64_max in Ht.
  assert (Hid : Forall (λ x, t -i x.1 = t - x.1) l).
  { apply (Forall_fmap fst) in Hf. eapply Forall_impl; [exact Hf|]. intros [u s]; simpl. intros Hu.
    rewrite i64_id; lia. }
  split_and!.
  - induction l as [|[u s] l IH]; [done|]. simpl in Hs, Hf.
    apply StronglySorted_cons in Hs as [Hx Hs]. apply Forall_cons in Hf as [Hu Hf].
    apply Forall_cons in Hid as [Hi Hid]. simpl in Hi, Hu. specialize (IH Hs Hf Hid).
    destruct (decide (idle ≤ t -i u)) as [Ho|Ho].
    + rewrite (filter_cons_True (λ x, idle ≤ t -i x.1)) by done.
      rewrite (filter_cons_False (λ x, ¬ idle ≤ t -i x.1)) by tauto.
      simpl. by rewrite <- IH.
    + assert (Forall (λ x : Z * Session, ¬ idle ≤ t -i x.1) l) as Hy.
      { apply (Forall_fmap fst) in Hx. rewrite !Forall_forall in *. intros x Hxl.
        rewrite (Hid x Hxl). specialize (Hx x Hxl). simpl in Hx. lia. }
      rewrite (filter_cons_False (λ x, idle ≤ t -i x.1)) by done.
      rewrite (filter_cons_True (λ x, ¬ idle ≤ t -i x.1)) by done.
      rewrite (filter_none (λ x, idle ≤ t -i x.1) l) by done. simpl.
      by rewrite (filter_all (λ x, ¬ idle ≤ t -i x.1) l).
  - rewrite Forall_forall in *. intros x [Hn Hx]%list_elem_of_filter. specialize (Hid x Hx). lia.
  - rewrite Forall_forall in *. intros x [Hn Hx]%list_elem_of_filter. specialize (Hid x Hx). lia.
Qed.

Lemma reachable_invariants sy :
  reachable (initial size idle_timeout) (step max_held) sy → ownership sy ∧ chronological sy.
Proof.
  intros Hr. split; revert sy Hr; apply inductive_invariant_holds;
    [apply ownership_inductive|apply chronological_inductive].
Qed.

Lemma reachable_population sy :
  0 ≤ size < 2 ^ 64 - 2 → size + Z.of_nat max_held < 2 ^ 64 →
  reachable (initial size idle_timeout) (step max_held) sy → population size idle_timeout max_held sy.
Proof.
  intros Hs Hh Hr. revert sy Hr. by apply inductive_invariant_holds, population_inductive.
Qed.

(** A session on its way to the pool is unknown to the specification. *)
Lemma ready_unknown sy s rd1 rd2 :
  ownership sy → s_ready sy = rd1 ++ s :: rd2 → ¬ PoolSpec.known (abstract sy) s.
Proof.
  intros [Hnd Hp] Hrd. rewrite Hp in Hnd. rewrite Hrd in Hnd.
  unfold PoolSpec.known, abstract. simpl. rewrite !NoDup_app in Hnd.
  destruct Hnd as (_ & H1 & Hr & H2 & _). intros Hk.
  assert (Hs : s ∈ rd1 ++ s :: rd2) by (apply elem_of_app; right; left).
  destruct Hk as [Hk|Hk].
  - apply (H1 s Hk). apply elem_of_app. by left.
  - apply (H2 s Hs). apply elem_of_app. destruct Hk; auto.
Qed.

End Refinement.

(** ** Shutdown *)

Section Shutdown.
Context {Session St : Type} `{PoolSession Session, PoolStrategy St}.
Implicit Types (sy : system Session St).

Definition stopped sy : Prop := watch_pool_ (s_pool sy) = false.

(** What the watcher still has to do once the flag is cleared. *)
Definition watcher_work sy : nat :=
  match s_pc sy with
  | WDone => 0
  | WLoop => 1
  | WSleep => 2
  | WRefill _ _ _ => 3 + 2 * s_adders sy + length (s_ready sy)
  | WUnlocked v => 4 + 2 * Z.to_nat v
  end.

(** The adders there are, or will be when the refill about to begin starts them. *)
Definition pending_adders sy : nat :=
  match s_pc sy with WUnlocked v => Z.to_nat v | _ => s_adders sy end.

(** The watcher cannot begin a round now. *)
Definition winding sy : Prop := stopped sy ∨ s_pc sy ≠ WLoop.

(** Once the flag is cleared it stays cleared. *)
Lemma stopped_step max_held sy sy' : stopped sy → step max_held sy sy' → stopped sy'.
Proof. unfold stopped. by destruct 2. Qed.

(** Unless it begins a round no step adds to the watcher's work. *)
Lemma watcher_work_step size idle_timeout max_held sy sy' :
  size < 2 ^ 64 - 2 → population size idle_timeout max_held sy → winding sy → step max_held sy sy' →
  (watcher_work sy' ≤ watcher_work sy)%nat ∧ (pending_adders sy' ≤ pending_adders sy)%nat.
Proof.
  intros Hs (_ & _ & Hai & _ & Hv & _) Hstop Hst.
  unfold winding, stopped, watcher_work, pending_adders, adders_idle in *.
  destruct Hst; simpl in *; rewrite ?length_app; simpl; try lia; try (destruct Hstop; congruence).
  - pose proof (refill_attempts_bound t v (reconnection_ p)). specialize (Hv v eq_refl).
    destruct Hai as [-> ->]. simpl. lia.
  - destruct (refill_settle _ _ _ _ _ _) as [st' []]; simpl; lia.
Qed.

(** What the watcher can always do next, unless it waits for adders still connecting. *)
Lemma watcher_progress size idle_timeout max_held sy :
  size < 2 ^ 64 - 2 → population size idle_timeout max_held sy → stopped sy → s_pc sy ≠ WDone →
  s_adders sy = 0%nat →
  ∃ sy', step max_held sy sy' ∧ (watcher_work sy' < watcher_work sy)%nat ∧
    (pending_adders sy' ≤ pending_adders sy)%nat.
Proof.
  intros Hs (_ & _ & Hai & _ & Hv & _) Hstop Hpc Hn.
  unfold stopped, watcher_work, pending_adders, adders_idle in *.
  destruct sy as [p pc n rd hd gn cr t]. simpl in *. subst n. destruct pc as [|v|t0 v b| |]; [| | | |done].
  - eexists. split; [by apply step_exit|]. simpl. lia.
  - specialize (Hv v eq_refl). destruct Hai as [_ ->]. destruct (decide (v = 0)) as [->|].
    + eexists. split; [by apply step_full|]. simpl. lia.
    + eexists. split; [apply step_refill; lia|]. simpl.
      pose proof (refill_attempts_bound t v (reconnection_ p)). lia.
  - destruct rd as [|s rd].
    + eexists. split; [by apply step_join with (r := 0)|]. simpl.
      destruct (refill_settle _ _ _ _ _ _) as [st' []]; simpl; lia.
    + eexists. split; [apply (step_append_drop _ _ _ _ _ _ [] s rd) with (lock := t + 1000001)|].
      * unfold return_session. destruct (session_is_open s); simpl; [|done].
        rewrite (proj2 (Z.leb_gt _ _)) by lia. done.
      * simpl. lia.
  - eexists. split; [by apply step_wake|]. simpl. lia.
Qed.

End Shutdown.

(** ** Properties *)

Section Claims.
Context {Session St : Type} `{PoolSession Session, PoolStrategy St}.
Variables (size idle_timeout : Z) (max_held : nat).
Implicit Types (sy : system Session St).

(** C1: the threads of a pool implement the abstract queue: every step of the system is
    invisible to the specification or one of its steps, so every state the system reaches
    is one the specification reaches. *)
Theorem pool_refines_spec sy :
  reachable (initial size idle_timeout) (step max_held) sy →
  rtc PoolSpec.next (PoolSpec.mk_state [] [] []) (abstract sy) ∧
  (∀ sy', step max_held sy sy' →
     abstract sy' = abstract sy ∨ PoolSpec.next (abstract sy) (abstract sy')).
Proof.
  assert (Hsim : ∀ sy sy', reachable (initial size idle_timeout) (step max_held) sy →
    step max_held sy sy' → abstract sy' = abstract sy ∨ PoolSpec.next (abstract sy) (abstract sy')).
  { intros sy1 sy2 Hr Hs. destruct (reachable_invariants _ _ _ _ Hr) as [Hown (Ht & Hso & Hf)].
    destruct Hs; try (by left); unfold abstract, pooled in *; simpl in *; right.
    - rewrite evict_loop_list.
      destruct (evict_prefix t (idle_timeout_ p) _ Ht Hso Hf) as [Hp _].
      rewrite Hp at 1. rewrite map_app. apply PoolSpec.expire.
    - pool_inv. rewrite map_app. simpl.
      apply PoolSpec.supply. by eapply (ready_unknown _ s rd1 rd2 Hown).
    - apply PoolSpec.discard. by eapply (ready_unknown _ s rd1 rd2 Hown).
    - pool_inv. rewrite Hl. apply PoolSpec.take.
    - pool_inv. rewrite map_app. simpl.
      apply PoolSpec.give.
    - apply PoolSpec.destroy. }
  intros Hr. split; [|by intros sy'; apply Hsim].
  induction Hr as [sy (st & ct & t & _ & ->)|sy sy' Hr IH Hs]; [done|].
  destruct (Hsim _ _ Hr Hs) as [->|Hn]; [done|]. by eapply rtc_r.
Qed.

(** C2: no session is lost, duplicated or shared: in every reachable state the sessions
    ever connected are, each exactly once, in the pool, with an adder, with one client, or
    destroyed. *)
Theorem pool_ownership sy :
  reachable (initial size idle_timeout) (step max_held) sy →
  s_created sy ≡ₚ pooled sy ++ s_ready sy ++ s_held sy ++ s_gone sy ∧
  NoDup (pooled sy ++ s_ready sy ++ s_held sy ++ s_gone sy).
Proof.
  intros Hr. destruct (reachable_invariants _ _ _ _ Hr) as [[Hnd Hp] _].
  split; [done|]. by rewrite <- Hp.
Qed.

(** C26: the pool is bounded, whatever the strategy: the sessions in it, with the clients
    and on their way to it are never more than its size plus the sessions the clients
    may hold at once. *)
Theorem pool_bound sy :
  0 ≤ size < 2 ^ 64 - 2 → size + Z.of_nat max_held < 2 ^ 64 →
  reachable (initial size idle_timeout) (step max_held) sy →
  0 ≤ promised sy ∧
  Z.of_nat (length (pooled sy)) + Z.of_nat (length (s_held sy)) + promised sy ≤ size + Z.of_nat max_held.
Proof.
  intros Hs Hh Hr.
  destruct (reachable_population _ _ _ _ Hs Hh Hr) as (_ & _ & _ & _ & Hv & Hb).
  split; [|done]. unfold promised. destruct (s_pc sy) eqn:E; try lia. by apply Hv.
Qed.

(** C27: the eviction removes exactly the sessions that idled for [idle_timeout] or
    longer; they are the oldest ones, a prefix of the list; and the session a client gets
    is the one returned longest ago. *)
Theorem pool_evicts_oldest sy :
  reachable (initial size idle_timeout) (step max_held) sy →
  let pool := sesson_pool_ (s_pool sy) in
  let left := (evict_loop (s_clock sy) idle_timeout pool 0).1 in
  (∃ old, pool = old ++ left ∧ Forall (λ x, idle_timeout ≤ s_clock sy - x.1) old) ∧
  Forall (λ x, s_clock sy - x.1 < idle_timeout) left ∧
  (∀ s rest, pop_front pool = (Some s, rest) →
     ∃ t, pool = (t, s) :: rest ∧ Forall (λ x, t ≤ x.1) rest).
Proof.
  intros Hr pool left. destruct (reachable_invariants _ _ _ _ Hr) as [_ (Ht & Hso & Hf)].
  fold pool in Hso, Hf. unfold left. rewrite evict_loop_list.
  destruct (evict_prefix (s_clock sy) idle_timeout pool Ht Hso Hf) as (Hp & Hy & Ho).
  split; [by eexists|]. split; [done|].
  intros s rest (t & Hl)%pop_front_some. exists t. split; [done|].
  rewrite Hl in Hso. simpl in Hso. apply StronglySorted_cons in Hso as [Hx _].
  by apply (Forall_fmap fst) in Hx.
Qed.

(** The destructor's join completes: once the flag is cleared it stays cleared, no
    step of any thread adds to what the watcher has left to do, and unless the watcher is
    done it has a step that reduces it; so it can always leave its loop. *)
Theorem pool_shutdown sy :
  0 ≤ size < 2 ^ 64 - 2 → size + Z.of_nat max_held < 2 ^ 64 →
  reachable (initial size idle_timeout) (step max_held) sy → stopped sy →
  (∀ sy', step max_held sy sy' → stopped sy' ∧ (watcher_work sy' ≤ watcher_work sy)%nat) ∧
  (s_pc sy ≠ WDone → ∃ sy', step max_held sy sy' ∧ (watcher_work sy' < watcher_work sy)%nat).
Proof.
  intros Hs Hh Hr Hstop. pose proof (reachable_population _ _ _ _ Hs Hh Hr) as Hpop.
  split.
  { intros sy' Hst. split; [by eapply stopped_step|].
    apply (watcher_work_step size idle_timeout max_held sy sy'); [lia|done|by left|done]. }
  intros Hpc.
  destruct (s_adders sy) as [|k] eqn:Hn.
  - destruct (watcher_progress size idle_timeout max_held sy) as (sy' & ? & ? & _); [lia|done..|eauto].
  - destruct Hpop as (_ & _ & Hai & _). unfold watcher_work, adders_idle in *.
    destruct sy as [p pc n rd hd gn cr t]. simpl in *. subst n. destruct pc; try by destruct Hai.
    eexists. split; [by apply step_connect_fail|]. simpl. lia.
Qed.

End Claims.

(** ** How far the pool grows *)

Section Overshoot.
Variable max_held : nat.

Abbreviation greedy_system := (system nat greedy_strategy).

Definition one_pool (l : session_list nat) : pool nat greedy_strategy :=
  mk_pool 1 kInfiniteDuration l true mk_greedy 5000.

(** The watcher fills an empty pool of size one. *)
Lemma one_pool_refilled k hd gn cr :
  Nat.even k = true → k ∉ cr →
  rtc (step max_held) (mk_system (one_pool []) WLoop 0 [] hd gn cr 0 : greedy_system)
    (mk_system (one_pool [(0, k)]) WLoop 0 [] hd gn (k :: cr) 0).
Proof.
  intros Hk Hc.
  eapply rtc_l; [by apply step_evict|]. cbn. rewrite app_nil_r.
  eapply rtc_l; [by apply step_refill|]. cbn.
  eapply rtc_l; [by apply step_connect with (s := k)|].
  eapply rtc_l; [apply (step_append _ _ _ _ _ _ [] k []) with (lock := 0) (l := [(0, k)])|].
  { unfold return_session, session_is_open, nat_pool_session. rewrite Hk. done. }
  { done. }
  eapply rtc_l; [by apply step_join with (r := 0)|]. done.
Qed.

(** A client takes the only session. *)
Lemma one_pool_taken k hd gn cr :
  (length hd < max_held)%nat →
  step max_held (mk_system (one_pool [(0, k)]) WLoop 0 [] hd gn cr 0 : greedy_system)
    (mk_system (one_pool []) WLoop 0 [] (k :: hd) gn cr 0).
Proof. intros Hh. by apply (step_get _ (one_pool [(0, k)]) _ _ _ _ _ _ _ k []). Qed.

(** A client returns its session at the clock reading 0. *)
Lemma one_pool_returned l k hd gn cr :
  Nat.even k = true →
  step max_held (mk_system (one_pool l) WLoop 0 [] (k :: hd) gn cr 0 : greedy_system)
    (mk_system (one_pool (l ++ [(0, k)])) WLoop 0 [] hd gn cr 0).
Proof.
  intros Hk. apply (step_return _ (one_pool l) _ _ _ [] k hd _ _ _ 0); [|done].
  unfold return_session, session_is_open, nat_pool_session. by rewrite Hk.
Qed.

End Overshoot.

(** The pool may hold more than one session above its size: with room for two
    borrowed sessions a pool of size one comes to hold three, all of them open and idle. *)
Theorem pool_overshoots :
  ∃ sy : system nat greedy_strategy,
    reachable (initial 1 kInfiniteDuration) (step 2) sy ∧
    pool_max_size_ (s_pool sy) = 1 ∧ s_held sy = [] ∧ pooled sy = [6; 4; 2]%nat.
Proof.
  exists (mk_system (one_pool [(0, 6%nat); (0, 4%nat); (0, 2%nat)]) WLoop 0 [] [] [] [6; 4; 2]%nat 0).
  split; [|done]. eapply reachable_steps.
  - apply reach_init. exists mk_greedy, 5000, 0. split; [done|]. reflexivity.
  - etrans; [apply (one_pool_refilled 2 2); [done|set_solver]|].
    eapply rtc_l; [apply one_pool_taken; simpl; lia|].
    etrans; [apply (one_pool_refilled 2 4); [done|set_solver]|].
    eapply rtc_l; [apply one_pool_taken; simpl; lia|].
    etrans; [apply (one_pool_refilled 2 6); [done|set_solver]|].
    eapply rtc_l; [by apply one_pool_returned|].
    eapply rtc_l; [by apply one_pool_returned|]. done.
Qed.

(** ** Witnesses *)

(** The pool of size one, filled, at rest, for the witnesses. *)
Definition filled_system : system nat greedy_strategy :=
  mk_system (one_pool [(0, 2%nat)]) WLoop 0 [] [] [] [2%nat] 0.

Lemma filled_system_reachable : reachable (initial 1 kInfiniteDuration) (step 2) filled_system.
Proof.
  eapply reachable_steps; [|apply (one_pool_refilled 2 2); [done|set_solver]].
  apply reach_init. exists mk_greedy, 5000, 0. split; [done|]. reflexivity.
Qed.

Lemma pool_refines_spec_witness :
  rtc PoolSpec.next (PoolSpec.mk_state [] [] []) (PoolSpec.mk_state [2%nat] [] []).
Proof. apply (pool_refines_spec 1 kInfiniteDuration 2 filled_system filled_system_reachable). Defined.

Lemma pool_ownership_witness : NoDup (pooled filled_system ++ [] ++ [] ++ []).
Proof. apply (pool_ownership 1 kInfiniteDuration 2 filled_system filled_system_reachable). Defined.

Lemma pool_bound_witness :
  Z.of_nat (length (pooled filled_system)) + 0 + promised filled_system ≤ 1 + 2.
Proof.
  apply (pool_bound 1 kInfiniteDuration 2 filled_system); [lia|lia|exact filled_system_reachable].
Defined.

Lemma pool_evicts_oldest_witness :
  ∃ t, sesson_pool_ (s_pool filled_system) = [(t, 2%nat)] ∧ Forall (λ x : Z * nat, t ≤ x.1) [].
Proof.
  apply (pool_evicts_oldest 1 kInfiniteDuration 2 filled_system filled_system_reachable). reflexivity.
Defined.

Lemma pool_shutdown_witness :
  ∃ sy, step 2 (mk_system (pool_dtor (one_pool [(0, 2%nat)])) WLoop 0 [] [] [] [2%nat] 0) sy ∧
    (watcher_work sy < 1)%nat.
Proof.
  apply (pool_shutdown 1 kInfiniteDuration 2
    (mk_system (pool_dtor (one_pool [(0, 2%nat)])) WLoop 0 [] [] [] [2%nat] 0)).
  - lia.
  - lia.
  - eapply reach_step; [exact filled_system_reachable|]. apply step_stop.
  - reflexivity.
  - done.
Defined.
