(* ===== verification/PoolRefine.v ===== *)
(** * The watcher's round is a run of the pool's system

    [watch_iteration] of ConnectionPool is a round of [watch_pool_routine] as a function of
    the clock, the results of the adders and the strategy.  Here: whatever it returns, the
    transition system of PoolSystem comes to by steps of the watcher and its adders. *)

From S2P Require Import Prelude ErrorCode TimedBase PoolStrategy ConnectionPool PoolSystem.
Open Scope sc_scope.

#[local] Arguments return_session : simpl never.

Section Round.
Context {Session St : Type} `{PoolSession Session, PoolStrategy St, pl : Platform}.
Variable max_held : nat.
Implicit Types (p : pool Session St) (rs : list (attempt Session)).

(** The sessions a sequence of adders appends one after the other, and those it drops. *)
Definition append_all_at (t : Z) (l : session_list Session) (ss : list Session) : session_list Session :=
  foldl (λ l s, (return_session (Some s) t t l).2) l ss.

(** An adder connects and appends, or fails; [s] is a session nobody has seen. *)
Lemma adder_steps t0 v b (r : attempt Session) n l p hd gn cr t :
  0 ≤ t < time_point_max → (∀ s, r = Some s → s ∉ cr) →
  ∃ gn', rtc (step max_held) (mk_system (set_sessions l p) (WRefill t0 v b) (S n) [] hd gn cr t)
    (mk_system (set_sessions (append_all_at t l (appended [r])) p)
       (WRefill t0 v (b || negb (bool_decide (appended [r] = [])))) n [] hd gn' (appended [r] ++ cr) t).
Proof.
  intros Ht Hs. destruct r as [s|]; cbn.
  2:{ rewrite orb_false_r. exists gn. apply rtc_once, step_connect_fail. }
  rewrite orb_true_r. specialize (Hs s eq_refl).
  assert (Hc : step max_held (mk_system (set_sessions l p) (WRefill t0 v b) (S n) [] hd gn cr t)
    (mk_system (set_sessions l p) (WRefill t0 v b) n ([] ++ s :: []) hd gn (s :: cr) t)) by by apply step_connect.
  unfold append_all_at. cbn [foldl]. destruct (return_session (Some s) t t l) as [u l'] eqn:Er. destruct u as [s'|].
  - assert (s' = s ∧ l' = l) as [-> ->].
    { unfold return_session in Er. destruct (session_is_open s); simpl in Er; [|by simplify_eq].
      rewrite (proj2 (Z.leb_le t _)) in Er by lia. done. }
    exists (s :: gn). eapply rtc_l; [exact Hc|]. apply rtc_once.
    apply (step_append_drop _ (set_sessions l p) t0 v b n [] s [] hd gn (s :: cr) t t).
    cbn [sesson_pool_ set_sessions]. by rewrite Er.
  - exists gn. eapply rtc_l; [exact Hc|]. apply rtc_once.
    refine (step_append _ (set_sessions l p) t0 v b n [] s [] hd gn (s :: cr) t t l' Er _). lia.
Qed.

(** All the adders of a refill, one after the other. *)
Lemma adders_steps t0 v b rs l p hd gn cr t :
  0 ≤ t < time_point_max → NoDup (appended rs ++ cr) →
  ∃ gn' cr', rtc (step max_held) (mk_system (set_sessions l p) (WRefill t0 v b) (length rs) [] hd gn cr t)
    (mk_system (set_sessions (append_all_at t l (appended rs)) p)
       (WRefill t0 v (b || negb (bool_decide (appended rs = [])))) 0 [] hd gn' cr' t).
Proof.
  intros Ht. revert b l gn cr. induction rs as [|r rs IH]; intros b l gn cr Hnd.
  { rewrite orb_false_r. exists gn, cr. apply rtc_refl. }
  assert (Er : appended (r :: rs) = appended [r] ++ appended rs) by by destruct r.
  rewrite Er in *. rewrite <- app_assoc in Hnd.
  destruct (adder_steps t0 v b r (length rs) l p hd gn cr t Ht) as (gn1 & H1).
  { intros s -> Hin. apply NoDup_app in Hnd as (_ & Hd & _). apply (Hd s); [left|]. apply elem_of_app. by right. }
  destruct (IH (b || negb (bool_decide (appended [r] = []))) (append_all_at t l (appended [r])) gn1 (appended [r] ++ cr))
    as (gn2 & cr2 & H2).
  { by rewrite (app_assoc (appended rs)), (Permutation_app_comm (appended rs)), <- app_assoc. }
  exists gn2, cr2. etrans; [exact H1|]. unfold append_all_at in *. rewrite foldl_app.
  replace (b || negb (bool_decide (appended [r] ++ appended rs = [])))
    with (b || negb (bool_decide (appended [r] = [])) || negb (bool_decide (appended rs = []))); [exact H2|].
  destruct r, b; done.
Qed.

Lemma vacant_places_nonneg m n : 0 ≤ vacant_places m n.
Proof. unfold vacant_places. destruct (n <? m); [apply u64_range|done]. Qed.

(** C10: a round of the watcher in the transition system does what [watch_pool_routine] does:
    whatever the clock, the strategy and the results of the connection attempts are, and
    whatever sessions clients hold, the list, the strategy's state and the way the round
    ends that [watch_iteration] gives are reached by steps of the watcher and its adders. *)
Theorem watch_iteration_refines locked t t0 t1 r rs p hd gn cr :
  watch_pool_ p = true → 0 ≤ t ≤ t0 → t0 ≤ t1 < time_point_max → NoDup (appended rs ++ cr) →
  (let v := vacant_places (pool_max_size_ p) (evict_loop t (idle_timeout_ p) (sesson_pool_ p) 0).2 in
   0 < v → (Z.to_nat (refill_attempts t0 v (reconnection_ p)) ≤ length rs)%nat) →
  let '(p', verdict) := watch_iteration locked t t0 t1 r rs p in
  ∃ gn' cr' t', rtc (step max_held) (mk_system p WLoop 0 [] hd gn cr t)
    (mk_system p' (match verdict with LoopAgain => WLoop | SleepThenLoop => WSleep end) 0 [] hd gn' cr' t').
Proof.
  intros Hw Ht Ht1 Hnd Hlen. unfold watch_iteration. destruct locked; cbn [negb].
  2:{ exists gn, cr, t. apply rtc_refl. }
  pose proof (step_evict max_held p 0 [] hd gn cr t Hw) as He. cbv zeta in He, Hlen.
  destruct (evict_loop _ _ _ _) as [l n]. cbn [fst snd] in He, Hlen. cbv zeta.
  set (v := vacant_places (pool_max_size_ p) n) in *. set (gn1 := gn ++ _) in He.
  destruct (0 <? v) eqn:Ev; bool_prop.
  2:{ assert (v = 0) as E by (pose proof (vacant_places_nonneg (pool_max_size_ p) n); lia).
      exists gn1, cr, t. eapply rtc_l; [exact He|]. rewrite E. apply rtc_once, step_full. }
  set (k := Z.to_nat (refill_attempts t0 v (reconnection_ p))) in *.
  assert (Hk : length (take k rs) = k) by (rewrite length_take; specialize (Hlen Ev); lia).
  assert (Hnd' : NoDup (appended (take k rs) ++ cr)).
  { rewrite <- (take_drop k rs) in Hnd. unfold appended in Hnd. rewrite omap_app, <- app_assoc in Hnd.
    apply NoDup_app in Hnd as (N1 & N2 & N3). apply NoDup_app in N3 as (_ & _ & N3). apply NoDup_app.
    split_and!; [done| |done]. intros s Hs Hc. apply (N2 s Hs). apply elem_of_app. by right. }
  destruct (adders_steps t0 v false (take k rs) l p hd gn1 cr t1) as (gn2 & cr2 & Ha); [lia|done|].
  rewrite Hk in Ha. unfold append_all_at in Ha. cbn [orb] in Ha. cbn [reconnection_ set_sessions].
  set (l2 := foldl _ _ _) in *. set (b := negb _) in *.
  pose proof (step_join max_held (set_sessions l2 p) t0 v b hd gn2 cr2 t1 r) as Hj. cbn [reconnection_ set_sessions] in Hj.
  destruct (refill_settle _ _ _ _ _ _) as [st' need_more]. cbn [fst snd] in Hj.
  assert (Hrun : rtc (step max_held) (mk_system p WLoop 0 [] hd gn cr t)
    (mk_system (set_strategy st' (set_sessions l2 p)) (if need_more then WLoop else WSleep) 0 [] hd gn2 cr2 t1)).
  { eapply rtc_l; [exact He|]. eapply rtc_l; [apply step_tick with (t' := t0); lia|].
    eapply rtc_l; [by apply step_refill|]. eapply rtc_l; [apply step_tick with (t' := t1); lia|].
    cbn [reconnection_ set_sessions]. fold k. etrans; [exact Ha|]. by apply rtc_once. }
  destruct need_more; by exists gn2, cr2, t1.
Qed.

End Round.

(** ** Witnesses *)

(** A pool of size three with a session that has been idle for too long; of its three adders
    one fails. *)
Definition stale_pool : pool nat greedy_strategy := mk_pool 3 50 [(10, 2%nat)] true mk_greedy 5000.

Lemma watch_iteration_refines_witness :
  ∃ gn cr t, rtc (step 2) (mk_system stale_pool WLoop 0 [] [4%nat] [] [4; 2]%nat 100)
    (mk_system (set_sessions [(107, 6%nat); (107, 8%nat)] stale_pool) WLoop 0 [] [4%nat] gn cr t).
Proof.
  assert (Hr := watch_iteration_refines 2 true 100 104 107 0 [Some 6%nat; None; Some 8%nat] stale_pool
    [4%nat] [] [4; 2]%nat eq_refl ltac:(lia) ltac:(done) ltac:(cbn; repeat constructor; set_solver) ltac:(vm_compute; lia)).
  exact Hr.
Defined.
