(* ===== verification/PoolWait.v ===== *)
(** * Waiting for a session

    The calls of [get_session] and [is_connected] that wait on [pool_cv_] of
    connection_pool.ipp, thread by thread: [ensure_session] with its lock and its wait, the
    notification [return_session] sends after it has unlocked the mutex, and the other
    threads that use the list.  A step is one critical section of [pool_mutex_] or one
    action outside it; a wait may also wake up spuriously, as C++ allows. *)

From S2P Require Import Prelude Fairness ErrorCode TimedBase PoolStrategy ConnectionPool.
Open Scope sc_scope.

(** The two member functions that wait. *)
Inductive wait_call := GetSession | IsConnected.

(** What a call returns: a session; [true]; nothing, with an error code. *)
Inductive wait_result (Session : Type) :=
| Got (session : Session)
| Connected
| Failed (ec : error_code).
Arguments Got {Session}.
Arguments Connected {Session}.
Arguments Failed {Session}.

(** Where a call is: in [try_lock_until]; blocked in [wait_until]; woken up by a
    notification, or because the deadline has passed, and about to lock the mutex again;
    returned. *)
Inductive waiter (Session : Type) :=
| AtLock (c : wait_call)
| Blocked (c : wait_call)
| Woken (c : wait_call) (late : bool)
| Returned (r : wait_result Session).
Arguments AtLock {Session}.
Arguments Blocked {Session}.
Arguments Woken {Session}.
Arguments Returned {Session}.

(** The list, the calls by thread, and the threads that have appended a session and are
    about to call [notify_one]. *)
Record wait_state (Session : Type) := mk_wait {
  wt_pool : session_list Session;
  wt_calls : gmap nat (waiter Session);
  wt_notify : nat
}.
Arguments mk_wait {Session}.
Arguments wt_pool {Session}.
Arguments wt_calls {Session}.
Arguments wt_notify {Session}.

(** What happens in a step: a call begins; thread [i] holds the mutex and goes on; it wakes
    up spuriously; its deadline passes; another thread takes a session, evicts some, or
    returns one; a thread notifies. *)
Inductive wait_action :=
| Begin | Lock (i : nat) | Spurious (i : nat) | Late (i : nat) | TryGet | Evict | Return | Notify.

#[export] Instance wait_action_eq_dec : EqDecision wait_action.
Proof. solve_decision. Defined.

Section Wait.
Context {Session : Type} `{PoolSession Session}.
(** Whether the users of the pool call [is_connected] at all. *)
Variable checked : bool.

(** The call that is about to hold the mutex. *)
Definition locking (w : waiter Session) : option wait_call :=
  match w with AtLock c | Woken c _ => Some c | _ => None end.

Definition woken (w : waiter Session) : bool := match w with Woken _ _ => true | _ => false end.

Definition blocked (w : waiter Session) : bool := match w with Blocked _ => true | _ => false end.

Inductive wait_step : wait_action → wait_state Session → wait_state Session → Prop :=
| wt_begin l cs k i c :
    cs !! i = None → (c = IsConnected → checked = true) →
    wait_step Begin (mk_wait l cs k) (mk_wait l (<[i := AtLock c]> cs) k)
(* [try_lock_until] fails *)
| wt_no_lock l cs k i c :
    cs !! i = Some (AtLock c) →
    wait_step (Lock i) (mk_wait l cs k) (mk_wait l (<[i := Returned (Failed timed_out)]> cs) k)
(* the predicate holds: [get_session] takes the front session, [is_connected] does not *)
| wt_got l cs k i w s l' :
    cs !! i = Some w → locking w = Some GetSession → pop_front l = (Some s, l') →
    wait_step (Lock i) (mk_wait l cs k) (mk_wait l' (<[i := Returned (Got s)]> cs) k)
| wt_connected l cs k i w :
    cs !! i = Some w → locking w = Some IsConnected → list_empty l = false →
    wait_step (Lock i) (mk_wait l cs k) (mk_wait l (<[i := Returned Connected]> cs) k)
(* the list is empty: the call waits, or gives up after its deadline *)
| wt_block l cs k i w c :
    cs !! i = Some w → locking w = Some c → w ≠ Woken c true → list_empty l = true →
    wait_step (Lock i) (mk_wait l cs k) (mk_wait l (<[i := Blocked c]> cs) k)
| wt_not_found l cs k i c :
    cs !! i = Some (Woken c true) → list_empty l = true →
    wait_step (Lock i) (mk_wait l cs k) (mk_wait l (<[i := Returned (Failed not_found)]> cs) k)
| wt_spurious l cs k i c :
    cs !! i = Some (Blocked c) →
    wait_step (Spurious i) (mk_wait l cs k) (mk_wait l (<[i := Woken c false]> cs) k)
| wt_late l cs k i w c :
    cs !! i = Some w → w = Blocked c ∨ w = Woken c false →
    wait_step (Late i) (mk_wait l cs k) (mk_wait l (<[i := Woken c true]> cs) k)
(* the other threads: [try_get_session], the watcher's eviction, [return_session] *)
| wt_try_get l cs k s l' :
    pop_front l = (Some s, l') → wait_step TryGet (mk_wait l cs k) (mk_wait l' cs k)
| wt_evict l cs k t idle :
    wait_step Evict (mk_wait l cs k) (mk_wait (evict_loop t idle l 0).1 cs k)
| wt_return l cs k s t lock l' :
    return_session (Some s) t lock l = (None, l') →
    wait_step Return (mk_wait l cs k) (mk_wait l' cs (S k))
(* [pool_cv_.notify_one()] wakes one of the blocked threads, if there is one *)
| wt_notify_one l cs k i c :
    cs !! i = Some (Blocked c) →
    wait_step Notify (mk_wait l cs (S k)) (mk_wait l (<[i := Woken c false]> cs) k)
| wt_notify_none l cs k :
    map_Forall (λ _ w, blocked w = false) cs →
    wait_step Notify (mk_wait l cs (S k)) (mk_wait l cs k).

Definition wait_next (st st' : wait_state Session) : Prop := ∃ a, wait_step a st st'.

(** After the constructor of the pool. *)
Definition wait_initial (st : wait_state Session) : Prop := st = mk_wait [] ∅ 0.

(** How many calls have been woken up and have not looked at the list since. *)
Definition woken_calls (st : wait_state Session) : nat := size (filter (λ x, woken x.2 = true) (wt_calls st)).

(** A blocked call and the sessions in the list: for each of them somebody is on the way. *)
Definition wakeups_ok (st : wait_state Session) : Prop :=
  (∃ i c, wt_calls st !! i = Some (Blocked c)) → (length (wt_pool st) ≤ woken_calls st + wt_notify st)%nat.

(** No call is one of [is_connected]. *)
Definition getters_only (st : wait_state Session) : Prop :=
  map_Forall (λ _ w, locking w ≠ Some IsConnected ∧ w ≠ Blocked IsConnected) (wt_calls st).

End Wait.

(** ** Counting the calls on their way *)

Section Lemmas.
Context {Session : Type} `{PoolSession Session}.
Implicit Types (st : wait_state Session) (l : session_list Session) (cs : gmap nat (waiter Session)).

Abbreviation count cs := (size (filter (λ x : nat * waiter Session, woken x.2 = true) cs)).

Lemma woken_insert_new cs i w : cs !! i = None → count (<[i := w]> cs) = (count cs + if woken w then 1 else 0)%nat.
Proof.
  intros Hi. destruct (woken w) eqn:E.
  - rewrite map_filter_insert_True by done. rewrite map_size_insert_None; [lia|].
    apply map_lookup_filter_None_2. by left.
  - rewrite map_filter_insert_False by (simpl; congruence). rewrite delete_id by done. lia.
Qed.

Lemma woken_insert cs i w w' :
  cs !! i = Some w →
  (count (<[i := w']> cs) + (if woken w then 1 else 0) = count cs + if woken w' then 1 else 0)%nat.
Proof.
  intros Hi. rewrite <- (insert_delete_id cs i w Hi) at 2. rewrite <- insert_delete_eq.
  rewrite !woken_insert_new by apply lookup_delete_eq. lia.
Qed.

(** A call that is blocked after another one has moved on was blocked before. *)
Lemma blocked_before cs i w' :
  blocked w' = false → (∃ j c, <[i := w']> cs !! j = Some (Blocked c)) → ∃ j c, cs !! j = Some (Blocked c).
Proof.
  intros Hw (j & c & Hj). destruct (decide (i = j)) as [<-|Hne].
  - rewrite lookup_insert_eq in Hj. by injection Hj as ->.
  - rewrite lookup_insert_ne in Hj by done. by exists j, c.
Qed.

Lemma pop_front_length l s l' : pop_front l = (Some s, l') → length l = S (length l').
Proof. destruct l as [|[t0 s0] l]; simpl; [done|by intros [= _ <-]]. Qed.

Lemma list_empty_true l : list_empty l = true → l = [].
Proof. by destruct l. Qed.

(** As long as nobody calls [is_connected] nobody waits in it. *)
Lemma getters_inductive : inductive_invariant wait_initial (wait_next false) (getters_only (Session := Session)).
Proof.
  split; [intros st ->; apply map_Forall_empty|]. intros st st' Hg [a Hs]. unfold getters_only in *.
  assert (Hold : ∀ cs i w c, map_Forall (λ _ w, locking w ≠ Some IsConnected ∧ w ≠ Blocked IsConnected) cs →
    cs !! i = Some w → locking w = Some c ∨ w = Blocked c → c = GetSession).
  { intros cs i w c Hcs Hi Hc. destruct (Hcs i w Hi). destruct c; [done|]. by destruct Hc. }
  destruct Hs as [l cs k i c Hi Hc|l cs k i c Hi|l cs k i w s l' Hi Hw|l cs k i w Hi Hw|l cs k i w c Hi Hw|l cs k i c Hi
    |l cs k i c Hi|l cs k i w c Hi Hw| | | |l cs k i c Hi|]; simpl in *; try done; apply map_Forall_insert_2; try done.
  - destruct c; [done|]. by specialize (Hc eq_refl).
  - by rewrite (Hold _ _ _ _ Hg Hi (or_introl Hw)).
  - by rewrite (Hold _ _ _ _ Hg Hi (or_intror eq_refl)).
  - assert (c = GetSession) as -> by (eapply (Hold _ _ w); [done..|]; destruct Hw as [->| ->]; auto). done.
  - by rewrite (Hold _ _ _ _ Hg Hi (or_intror eq_refl)).
Qed.

Lemma wakeups_inductive :
  inductive_invariant wait_initial (wait_next false) (λ st, getters_only (Session := Session) st ∧ wakeups_ok st).
Proof.
  split; [intros st ->; split; [apply map_Forall_empty|intros _; simpl; lia]|].
  intros st st' [Hg Hok] [a Hs]. split; [by eapply getters_inductive; [|exists a]|].
  unfold wakeups_ok, woken_calls in *.
  destruct Hs as [l cs k i c Hi Hc|l cs k i c Hi|l cs k i w s l' Hi Hw Hp|l cs k i w Hi Hw|l cs k i w c Hi Hw Hne He
    |l cs k i c Hi He|l cs k i c Hi|l cs k i w c Hi Hw|l cs k s l' Hp|l cs k t idle|l cs k s t lock l' Hr
    |l cs k i c Hi|l cs k Hnone]; cbn [wt_pool wt_calls wt_notify] in *; intros Hb.
  - rewrite woken_insert_new by done. apply blocked_before in Hb; [|done]. specialize (Hok Hb). lia.
  - pose proof (woken_insert cs i _ (Returned (Failed timed_out)) Hi). apply blocked_before in Hb; [|done].
    specialize (Hok Hb). simpl in *. lia.
  - pose proof (woken_insert cs i _ (Returned (Got s)) Hi). apply blocked_before in Hb; [|done].
    specialize (Hok Hb). apply pop_front_length in Hp. simpl in *. destruct (woken w); lia.
  - exfalso. by destruct (Hg i w Hi).
  - apply list_empty_true in He as ->. simpl. lia.
  - apply list_empty_true in He as ->. simpl. lia.
  - pose proof (woken_insert cs i _ (Woken c false) Hi). apply blocked_before in Hb; [|done].
    specialize (Hok Hb). simpl in *. lia.
  - pose proof (woken_insert cs i _ (Woken c true) Hi). apply blocked_before in Hb; [|done].
    specialize (Hok Hb). simpl in *. destruct (woken w); lia.
  - specialize (Hok Hb). apply pop_front_length in Hp. lia.
  - specialize (Hok Hb). rewrite evict_loop_list. pose proof (length_filter (λ x, ¬ idle ≤ t -i x.1) l). lia.
  - specialize (Hok Hb). apply return_session_some in Hr as [_ Hr]. rewrite Hr, length_app. simpl. lia.
  - pose proof (woken_insert cs i _ (Woken c false) Hi). apply blocked_before in Hb; [|done].
    specialize (Hok Hb). simpl in *. lia.
  - destruct Hb as (i & c & Hi). by specialize (Hnone i _ Hi).
Qed.

End Lemmas.

(** ** Calls return *)

Section Returns.
Context {Session : Type} `{PoolSession Session}.
Variable checked : bool.
Implicit Types (st : wait_state Session) (w : waiter Session).

(** How far a call is from its return. *)
Definition phase (w : option (waiter Session)) : nat :=
  match w with
  | Some (AtLock _) => 3
  | Some (Blocked _) | Some (Woken _ false) => 2
  | Some (Woken _ true) => 1
  | Some (Returned _) | None => 0
  end.

(** No step takes a call back, and those that it can always take bring it forward. *)
Lemma call_phase a st st' i w :
  wait_step checked a st st' → wt_calls st !! i = Some w →
  ∃ w', wt_calls st' !! i = Some w' ∧ (phase (Some w') ≤ phase (Some w))%nat ∧
    (a = Lock i → phase (Some w) = 2%nat ∨ (phase (Some w') < phase (Some w))%nat) ∧
    (a = Late i → (phase (Some w') < phase (Some w))%nat).
Proof.
  intros Hs Hi.
  assert (Hsame : ∀ a, (∀ j, a = Lock j ∨ a = Late j → j ≠ i) → ∀ cs' : gmap nat (waiter Session), cs' !! i = Some w →
    ∃ w', cs' !! i = Some w' ∧ (phase (Some w') ≤ phase (Some w))%nat ∧
    (a = Lock i → phase (Some w) = 2%nat ∨ (phase (Some w') < phase (Some w))%nat) ∧
    (a = Late i → (phase (Some w') < phase (Some w))%nat)).
  { intros b Hb cs0 E. exists w. split_and!; [done|done|intros ->; exfalso; eapply Hb; eauto..]. }
  destruct Hs as [l cs k j c Hj Hc|l cs k j c Hj|l cs k j v s l' Hj Hw Hp|l cs k j v Hj Hw|l cs k j v c Hj Hw Hne He
    |l cs k j c Hj He|l cs k j c Hj|l cs k j v c Hj Hw|l cs k s l' Hp|l cs k t idle|l cs k s t lock l' Hr
    |l cs k j c Hj|l cs k Hnone]; cbn [wt_calls] in *;
    try (apply Hsame; [by intros ? [?|?]|done]);
    (destruct (decide (j = i)) as [->|Hji];
      [rewrite lookup_insert_eq; simplify_eq; eexists; (split; [done|])
      |apply Hsame; [by intros ? [[= <-]|[= <-]]|by rewrite lookup_insert_ne]]);
    try (split_and!; simpl; try done; try (intros _; right); lia).
  - destruct v as [| |? []|]; simpl in *; try done; split_and!; try done; try lia; try (intros _; right; lia); by intros _; left.
  - destruct v as [| |? []|]; simpl in *; try done; split_and!; try done; try lia; try (intros _; right; lia); by intros _; left.
  - destruct v as [| |? []|]; simpl in *; simplify_eq; split_and!; try done; try lia; try (intros _; right; lia); by intros _; left.
  - destruct Hw as [->| ->]; simpl; split_and!; (done || lia).
Qed.

(** Short of its return a call can go on by itself, or its deadline can pass. *)
Lemma call_can_go st i w :
  wt_calls st !! i = Some w → phase (Some w) ≠ 0%nat →
  (if decide (phase (Some w) = 2%nat) then enabled (wait_step checked (Late i)) st
   else enabled (wait_step checked (Lock i)) st).
Proof.
  destruct st as [l cs k]. cbn [wt_calls]. intros Hi Hp. destruct w as [c|c|c [|]|r]; simpl; try done.
  - eexists. by apply wt_no_lock with (c := c).
  - eexists. by eapply wt_late; [done|left].
  - destruct l as [|[t s] l]; [eexists; by apply wt_not_found with (c := c)|]. destruct c.
    + eexists. by eapply wt_got.
    + eexists. by eapply wt_connected.
  - eexists. by eapply wt_late; [done|right].
Qed.

Lemma wait_call_returns e k i :
  execution (wait_next checked) e → weakly_fair (wait_step checked (Lock i)) e →
  weakly_fair (wait_step checked (Late i)) e → is_Some (wt_calls (e k) !! i) →
  ∃ m, (k ≤ m)%nat ∧ ∃ r, wt_calls (e m) !! i = Some (Returned r).
Proof.
  intros He Hlock Hlate Hk.
  destruct (fair_descent (wait_next checked) e (λ st, is_Some (wt_calls st !! i))
    (λ st, ∃ r, wt_calls st !! i = Some (Returned r)) (λ st, phase (wt_calls st !! i)) k) as (m & Hm & Hr);
    [done| |done| |by exists m].
  - intros st st' [w Hw] _ [a Hs]. destruct (call_phase a st st' i w Hs Hw) as (w' & Hw' & Hle & _).
    rewrite Hw, Hw'. by split.
  - intros j Hst.
    assert (Hdrop : ∀ m a, (j ≤ m)%nat → wait_step checked a (e m) (e (S m)) →
      (a = Lock i ∧ phase (wt_calls (e j) !! i) ≠ 2%nat) ∨ a = Late i → False).
    { intros m a Hm Hs Ha. destruct (Hst m Hm) as ([w Hw] & E1 & _), (Hst (S m)) as (_ & E2 & _); [lia|].
      destruct (call_phase a _ _ i w Hs Hw) as (w' & Hw' & _ & H1 & H2). rewrite <- E1, Hw in *. rewrite Hw' in E2.
      destruct Ha as [[-> Hne]| ->]; [destruct (H1 eq_refl)|specialize (H2 eq_refl)]; lia. }
    assert (Hgo : ∀ m, (j ≤ m)%nat → if decide (phase (wt_calls (e j) !! i) = 2%nat)
      then enabled (wait_step checked (Late i)) (e m) else enabled (wait_step checked (Lock i)) (e m)).
    { intros m Hm. destruct (Hst m Hm) as ([w Hw] & E1 & Hnr). rewrite <- E1, Hw. apply call_can_go; [done|].
      intros Hz. apply Hnr. destruct w as [| |? []|r]; try done. by exists r. }
    destruct (decide _) as [E|Hne].
    + destruct (Hlate j Hgo) as (m & Hm & Hs). by eapply Hdrop; [done..|right].
    + destruct (Hlock j Hgo) as (m & Hm & Hs). by eapply Hdrop; [done..|left].
Qed.

End Returns.

(** ** The member functions are runs of a call *)

Section Refines.
Context {Session : Type} `{PoolSession Session}.
Variable checked : bool.
Implicit Types (st : wait_state Session) (env : lock_env Session).

(** What [ConnectionPool] says that a call meets does come to pass: the list when it locks
    the mutex, and, if it has to wait, the list when it is woken up in time over a list
    that is not empty, or else when its deadline has passed. *)
Definition meets (i : nat) (c : wait_call) st env (deadline : Z) : Prop :=
  wt_pool st = le_pool env ∧ wt_calls st !! i = Some (AtLock c) ∧
  (le_pool env = [] →
    let wakes late l := ∃ st', rtc (wait_next checked) (mk_wait [] (<[i := Blocked c]> (wt_calls st)) (wt_notify st)) st' ∧
      wt_calls st' !! i = Some (Woken c late) ∧ wt_pool st' = l in
    match le_wake env with
    | Some (t, l) => if (t <=? deadline) && negb (list_empty l) then wakes false l else wakes true (le_late env)
    | None => wakes true (le_late env)
    end).

(** [ensure_session]: the call has the mutex over a list that is not empty, or has failed. *)
Lemma ensure_session_run i c st env ec dl :
  meets i c st env dl →
  let '(ok, ec', l) := ensure_session env ec dl in
  ∃ st', rtc (wait_next checked) st st' ∧ wt_pool st' = l ∧
    if ok : bool then ec' = ec ∧ list_empty l = false ∧ ∃ w, wt_calls st' !! i = Some w ∧ locking w = Some c
    else wt_calls st' !! i = Some (Returned (Failed ec')).
Proof.
  intros (Hp & Hi & Hw). destruct st as [l cs k]. cbn [wt_pool wt_calls wt_notify] in *. subst l. unfold ensure_session.
  destruct (try_lock_until env dl); cbn [negb].
  2:{ eexists. split; [apply rtc_once; exists (Lock i); by eapply wt_no_lock|]. split; [done|].
      cbn [wt_calls]. by rewrite lookup_insert_eq. }
  unfold cv_wait_until. destruct (list_empty (le_pool env)) eqn:He; cbn [negb].
  2:{ exists (mk_wait (le_pool env) cs k). split; [apply rtc_refl|]. split_and!; [done..|]. by exists (AtLock c). }
  pose proof (list_empty_true _ He) as Hnil. specialize (Hw Hnil). rewrite Hnil in *.
  assert (Hblock : wait_next checked (mk_wait [] cs k) (mk_wait [] (<[i := Blocked c]> cs) k))
    by (exists (Lock i); by eapply wt_block).
  assert (Hlate : (∃ st', rtc (wait_next checked) (mk_wait [] (<[i := Blocked c]> cs) k) st' ∧
      wt_calls st' !! i = Some (Woken c true) ∧ wt_pool st' = le_late env) →
    let '(ok, ec', l) := if negb (list_empty (le_late env)) then (true, ec, le_late env) else (false, not_found, le_late env) in
    ∃ st', rtc (wait_next checked) (mk_wait [] cs k) st' ∧ wt_pool st' = l ∧
      if ok : bool then ec' = ec ∧ list_empty l = false ∧ ∃ w, wt_calls st' !! i = Some w ∧ locking w = Some c
      else wt_calls st' !! i = Some (Returned (Failed ec'))).
  { intros ([l1 cs1 k1] & Hr & Hi1 & Hl). cbn [wt_pool wt_calls] in *. subst l1.
    destruct (list_empty (le_late env)) eqn:E; cbn [negb].
    - eexists. split; [eapply rtc_r; [by eapply rtc_l|exists (Lock i); by eapply wt_not_found]|].
      split; [done|]. cbn [wt_calls]. by rewrite lookup_insert_eq.
    - eexists. split; [by eapply rtc_l|]. split_and!; [done..|]. by eexists. }
  destruct (le_wake env) as [[t l]|]; [|by apply Hlate]. destruct ((t <=? dl) && negb (list_empty l)) eqn:E; [|by apply Hlate].
  destruct Hw as (st' & Hr & Hi' & <-). exists st'. split; [by eapply rtc_l|]. split_and!; [done..| |by eexists].
  apply andb_true_iff in E as [_ E]. by apply negb_true_iff.
Qed.

End Refines.

(** ** Properties *)

Section Claims.
Context {Session : Type} `{PoolSession Session}.
Implicit Types (st : wait_state Session).

(** C7: no notification is lost while only [get_session] waits: however the calls, the returned
    sessions, [try_get_session], evictions, deadlines and spurious wake-ups interleave,
    a call sleeps in its wait only if for every session in the list a call has been woken
    up that has not looked yet, or a thread is about to notify one; so nobody sleeps
    beside a session that nobody is coming for. *)
Theorem get_session_wakeups st i c :
  reachable wait_initial (wait_next false) st → wt_calls st !! i = Some (Blocked c) →
  (length (wt_pool st) ≤ woken_calls st + wt_notify st)%nat ∧
  (woken_calls st = 0%nat → wt_notify st = 0%nat → wt_pool st = []).
Proof.
  intros Hr Hi. apply (inductive_invariant_holds _ _ _ wakeups_inductive) in Hr as [_ Hok].
  assert (Hle : (length (wt_pool st) ≤ woken_calls st + wt_notify st)%nat) by (apply Hok; eauto).
  split; [done|]. intros E1 E2. apply length_zero_iff_nil. lia.
Qed.

(** [is_connected] waits on the same condition variable but takes no session, and a
    returned session wakes up one thread only: when that one is in [is_connected], a call
    of [get_session] goes on sleeping beside the session.  Nothing wakes it until its
    deadline passes, a spurious wake-up, or the return of another session. *)
Theorem is_connected_takes_wakeup (s : Session) :
  session_is_open s = true →
  ∃ st, reachable wait_initial (wait_next true) st ∧ map snd (wt_pool st) = [s] ∧
    ∀ st', rtc (λ st1 st2, ∃ a, (a ∉ [Spurious 1; Late 1; Return]) ∧ wait_step true a st1 st2) st st' →
      wt_calls st' !! 1%nat = Some (Blocked GetSession).
Proof.
  intros Hs. set (l := [(0, s)] : session_list Session).
  set (calls := λ w1 w2, <[0%nat := w1]> (<[1%nat := w2]> (∅ : gmap nat (waiter Session)))).
  assert (Hset0 : ∀ w1 w w2, <[0%nat := w1]> (calls w w2) = calls w1 w2)
    by (intros; unfold calls; by rewrite insert_insert_eq).
  exists (mk_wait l (calls (Returned Connected) (Blocked GetSession)) 0). split_and!.
  - eapply reach_step; [|exists (Lock 0); rewrite <- (Hset0 _ (Woken IsConnected false)); by eapply wt_connected].
    eapply reach_step; [|exists Notify; rewrite <- (Hset0 _ (Blocked IsConnected)); by apply wt_notify_one].
    eapply reach_step; [|exists Return; apply (wt_return _ [] _ 0 s 0 0); unfold return_session; by rewrite Hs].
    eapply reach_step; [|exists (Lock 0); rewrite <- (Hset0 _ (AtLock IsConnected)); by eapply wt_block].
    eapply reach_step; [|exists Begin; unfold calls; by apply wt_begin].
    eapply reach_step; [|exists (Lock 1); rewrite <- (insert_insert_eq _ 1%nat _ (AtLock GetSession)); by eapply wt_block].
    eapply reach_step; [|exists Begin; by apply wt_begin]. by apply reach_init.
  - done.
  - intros st' Hst'. assert (Hk : ∀ st1 st2, wt_calls st1 !! 1%nat = Some (Blocked GetSession) ∧ wt_notify st1 = 0%nat →
      (∃ a, (a ∉ [Spurious 1; Late 1; Return]) ∧ wait_step true a st1 st2) →
      wt_calls st2 !! 1%nat = Some (Blocked GetSession) ∧ wt_notify st2 = 0%nat).
    { intros st1 st2 [Hi Hn] (a & Ha & Hst). rewrite !not_elem_of_cons in Ha.
      destruct Hst as [l1 cs k j c Hj Hc|l1 cs k j c Hj|l1 cs k j v s1 l' Hj Hw|l1 cs k j v Hj Hw|l1 cs k j v c Hj Hw
        |l1 cs k j c Hj|l1 cs k j c Hj|l1 cs k j v c Hj Hw| | | |l1 cs k j c Hj|]; cbn [wt_calls wt_notify] in *; try done; try tauto;
        (split; [|done]); (destruct (decide (j = 1%nat)) as [->|]; [simplify_eq; try tauto|by rewrite lookup_insert_ne]);
        by simpl in *. }
    refine (proj1 (rtc_keeps _ (λ st, wt_calls st !! 1%nat = Some (Blocked GetSession) ∧ wt_notify st = 0%nat)
      _ st' Hk _ Hst')). by split.
Qed.

(** C9: the member functions are what the threads do: for whatever a call meets, [get_session]
    returns the session, or the error code, that its thread returns with, over the list that
    is left then; and so does [is_connected], which leaves the list alone. *)
Theorem pool_calls_refine checked i st env ec dl :
  (meets checked i GetSession st env dl →
   let '(session, ec', l) := get_session env ec dl in
   ∃ st', rtc (wait_next checked) st st' ∧ wt_pool st' = l ∧
     wt_calls st' !! i = Some (Returned (match session with Some s => Got s | None => Failed ec' end))) ∧
  (meets checked i IsConnected st env dl →
   let '(res, ec') := is_connected env ec dl in
   ∃ st', rtc (wait_next checked) st st' ∧
     wt_calls st' !! i = Some (Returned (if res : bool then Connected else Failed ec'))).
Proof.
  split; intros Hm; [unfold get_session|unfold is_connected];
    pose proof (ensure_session_run checked i _ st env ec dl Hm) as Hr;
    destruct (ensure_session env ec dl) as [[[|] ec'] l]; cbn [fst];
    destruct Hr as ([l1 cs1 k1] & Hr & <- & Hok); cbn [wt_pool wt_calls] in *.
  - destruct Hok as (-> & He & w & Hi & Hw). destruct l1 as [|[t s] l1]; [done|]. cbn [pop_front].
    eexists. split; [eapply rtc_r; [exact Hr|exists (Lock i); by eapply wt_got]|]. split; [done|].
    cbn [wt_calls]. by rewrite lookup_insert_eq.
  - by eexists.
  - destruct Hok as (-> & He & w & Hi & Hw).
    eexists. split; [eapply rtc_r; [exact Hr|exists (Lock i); by eapply wt_connected]|].
    cbn [wt_calls]. by rewrite lookup_insert_eq.
  - by eexists.
Qed.

(** C8: every call of [get_session] or [is_connected] returns, lost notifications or not: in
    every execution in which its thread is scheduled fairly and its deadline comes to
    pass, whatever all the others do. *)
Theorem pool_calls_return checked (e : nat → wait_state Session) k i :
  execution (wait_next checked) e → weakly_fair (wait_step checked (Lock i)) e →
  weakly_fair (wait_step checked (Late i)) e → is_Some (wt_calls (e k) !! i) →
  ∃ m, (k ≤ m)%nat ∧ ∃ r, wt_calls (e m) !! i = Some (Returned r).
Proof. apply wait_call_returns. Qed.

End Claims.

(** ** Witnesses *)

(** One call of [get_session] is blocked, and a session has just been returned. *)
Definition waiting_call : wait_state nat := mk_wait [(100, 8%nat)] (<[0%nat := Blocked GetSession]> ∅) 1.

Lemma waiting_call_reachable : reachable wait_initial (wait_next false) waiting_call.
Proof.
  eapply reach_step; [|exists Return; by apply (wt_return _ [] _ 0 8%nat 100 100)].
  eapply reach_step; [|exists (Lock 0); rewrite <- (insert_insert_eq _ 0%nat _ (AtLock GetSession)); by eapply wt_block].
  eapply reach_step; [|exists Begin; by apply wt_begin]. by apply reach_init.
Qed.

Lemma get_session_wakeups_witness : (length (wt_pool waiting_call) ≤ woken_calls waiting_call + wt_notify waiting_call)%nat.
Proof. exact (proj1 (get_session_wakeups waiting_call 0 GetSession waiting_call_reachable eq_refl)). Defined.

Lemma is_connected_takes_wakeup_witness : ∃ st : wait_state nat, map snd (wt_pool st) = [8%nat].
Proof. destruct (is_connected_takes_wakeup 8%nat eq_refl) as (st & _ & E & _). by exists st. Defined.

(** A call that waits for its deadline over an empty pool. *)
Definition late_run (k : nat) : wait_state nat :=
  let st (w : waiter nat) := mk_wait [] (<[0%nat := w]> ∅) 0 in
  match k with
  | 0%nat => st (AtLock GetSession)
  | 1%nat => st (Blocked GetSession)
  | 2%nat => st (Woken GetSession true)
  | _ => st (Returned (Failed not_found))
  end.

Lemma late_run_quiet a k : (3 ≤ k)%nat → a = Lock 0 ∨ a = Late 0 → ¬ enabled (wait_step false a) (late_run k).
Proof.
  intros Hk Ha. do 3 (destruct k as [|k]; [lia|]). intros [st' Hs].
  destruct Ha as [->| ->]; inversion Hs as [| |? ? ? ? w ? ? Hi Hw|? ? ? ? w Hi Hw|? ? ? ? w ? Hi Hw| | |? ? ? ? w ? Hi Hw| | | | |];
    subst; rewrite lookup_insert_eq in *; simplify_eq; try done; by destruct Hw.
Qed.

Lemma pool_calls_return_witness : ∃ m r, wt_calls (late_run m) !! 0%nat = Some (Returned r).
Proof.
  destruct (pool_calls_return false late_run 0 0) as (m & _ & r & E).
  - assert (Hn : ∀ a (w w' : waiter nat),
      wait_step false a (mk_wait [] (<[0%nat := w]> ∅) 0) (mk_wait [] (<[0%nat := w']> (<[0%nat := w]> ∅)) 0) →
      wait_next false (mk_wait [] (<[0%nat := w]> ∅) 0) (mk_wait [] (<[0%nat := w']> ∅) 0)).
    { intros a w w'. rewrite insert_insert_eq. intros Hs. by exists a. }
    intros [|[|[|k]]]; [right|right|right|by left].
    + apply (Hn (Lock 0)). by eapply wt_block.
    + apply (Hn (Late 0)). eapply wt_late; [done|by left].
    + apply (Hn (Lock 0)). by apply wt_not_found with (c := GetSession).
  - intros n Hen. destruct (late_run_quiet (Lock 0) (n + 3)); [lia|by left|]. apply Hen. lia.
  - intros n Hen. destruct (late_run_quiet (Late 0) (n + 3)); [lia|by right|]. apply Hen. lia.
  - by eexists.
  - by exists m, r.
Defined.

(** A call that waits over an empty pool until a session is returned. *)
Definition woken_env : lock_env nat := mk_lock_env (Some 0) [] (Some (100, [(100, 8%nat)])) [].

Lemma pool_calls_refine_witness :
  ∃ st', rtc (wait_next false) (late_run 0) st' ∧ wt_calls st' !! 0%nat = Some (Returned (Got 8%nat)).
Proof.
  destruct (pool_calls_refine false 0 (late_run 0) woken_env ec_ok 5000) as [H _].
  destruct H as (st' & Hr & _ & E).
  - split_and!; [done..|]. intros _. eexists. split_and!.
    + eapply rtc_l; [exists Return; by apply (wt_return _ [] _ 0 8%nat 100 100)|].
      apply rtc_once. exists Notify. by apply (wt_notify_one _ _ _ _ 0%nat GetSession).
    + reflexivity.
    + reflexivity.
  - exists st'. split; [exact Hr|exact E].
Defined.
