(* ===== verification/StaticAllocator.v ===== *)
(** * [static_allocator]: a reference-counted bump allocator

    Models stream/detail/static_allocator.hpp: [static_pool] with addresses as 64-bit
    numbers, and [static_allocator] as handles on pools in a heap, so that sharing,
    destruction and use after destruction are visible.  An operation on a pool that has
    been destroyed has no result ([None]).  The sum [alloc] compares wraps around as the
    code's does; the theorems say what that means for the blocks. *)

From S2P Require Import Prelude.
Open Scope sc_scope.

(** ** [static_pool] *)

(** The members of [static_pool]; [sp_first] is the address [this + 1]. *)
Record static_pool := mk_static_pool {
  sp_first : Z;
  size_ : Z;
  refs_ : Z;
  count_ : Z;
  p_ : Z
}.

(** [construct(size)], the memory being obtained at [first]. *)
Definition construct (first size : Z) : static_pool := mk_static_pool first size 1 0 first.

(** [share()]. *)
Definition share (sp : static_pool) : static_pool :=
  mk_static_pool (sp_first sp) (size_ sp) (refs_ sp +u 1) (count_ sp) (p_ sp).

(** [destroy()]: the pool that remains, if any. *)
Definition destroy (sp : static_pool) : option static_pool :=
  let refs := refs_ sp -u 1 in
  if negb (refs =? 0) then
    Some (mk_static_pool (sp_first sp) (size_ sp) refs (count_ sp) (p_ sp))
  else None.

(** [end()]. *)
Definition pool_end (sp : static_pool) : Z := sp_first sp +u size_ sp.

(** [alloc(n)]: [None] is [std::bad_alloc]. *)
Definition alloc (n : Z) (sp : static_pool) : option (Z * static_pool) :=
  let last := p_ sp +u n in
  if pool_end sp <=? last then None
  else Some (p_ sp, mk_static_pool (sp_first sp) (size_ sp) (refs_ sp) (count_ sp +u 1) last).

(** [dealloc()]. *)
Definition dealloc (sp : static_pool) : static_pool :=
  let count := count_ sp -u 1 in
  if negb (count =? 0) then mk_static_pool (sp_first sp) (size_ sp) (refs_ sp) count (p_ sp)
  else mk_static_pool (sp_first sp) (size_ sp) (refs_ sp) count (sp_first sp).

(** ** [static_allocator] *)

(** The [static_allocator] objects, each its [pool_] pointer, and the pools alive. *)
Record alloc_heap := mk_heap {
  pools : gmap Z static_pool;
  handles : gmap nat Z
}.

(** [static_allocator(size)] constructing the object [h], its pool being placed at [a]. *)
Definition allocator_ctor (h : nat) (a size : Z) (m : alloc_heap) : alloc_heap :=
  mk_heap (<[a := construct a size]> (pools m)) (<[h := a]> (handles m)).

(** [static_allocator() = default] leaves [pool_] whatever value [a] it finds there. *)
Definition allocator_default (h : nat) (a : Z) (m : alloc_heap) : alloc_heap :=
  mk_heap (pools m) (<[h := a]> (handles m)).

(** The copy constructors: [h] from [other]. *)
Definition allocator_copy (h other : nat) (m : alloc_heap) : option alloc_heap :=
  a ← handles m !! other; sp ← pools m !! a;
  Some (mk_heap (<[a := share sp]> (pools m)) (<[h := a]> (handles m))).

(** [~static_allocator()]. *)
Definition allocator_dtor (h : nat) (m : alloc_heap) : option alloc_heap :=
  a ← handles m !! h; sp ← pools m !! a;
  Some (mk_heap (match destroy sp with Some sp' => <[a := sp']> (pools m) | None => delete a (pools m) end)
          (delete h (handles m))).

(** The copy assignment [h = other] the compiler generates: it copies the pointer. *)
Definition allocator_assign (h other : nat) (m : alloc_heap) : option alloc_heap :=
  _ ← handles m !! h; a ← handles m !! other;
  Some (mk_heap (pools m) (<[h := a]> (handles m))).

(** [allocate(n)] of elements of [sizeof_T] bytes: [Some None] is [std::bad_alloc]. *)
Definition allocate (h : nat) (sizeof_T n : Z) (m : alloc_heap) : option (option (Z * alloc_heap)) :=
  a ← handles m !! h; sp ← pools m !! a;
  Some (match alloc (n *u sizeof_T) sp with
        | Some (p, sp') => Some (p, mk_heap (<[a := sp']> (pools m)) (handles m))
        | None => None
        end).

(** [deallocate(p, n)] and [deallocate(p)]: both arguments are ignored. *)
Definition deallocate (h : nat) (m : alloc_heap) : option alloc_heap :=
  a ← handles m !! h; sp ← pools m !! a;
  Some (mk_heap (<[a := dealloc sp]> (pools m)) (handles m)).

(** [operator==] and [operator!=]: [&lhs.pool_ == &rhs.pool_] are the addresses of the
    members, that is of the objects. *)
Definition allocator_eq (lhs rhs : nat) : bool := bool_decide (lhs = rhs).

Definition allocator_neq (lhs rhs : nat) : bool := negb (allocator_eq lhs rhs).

(** ** The blocks of a pool *)

(** A pool in use: the pool, the blocks handed out and not yet given back (address, length),
    and whether a request granted so far went past the end of the address space, which
    [alloc] does not check.  Fewer than 2^64 blocks are out at a time. *)
Abbreviation pool_state := (static_pool * list (Z * Z) * bool)%type.

Inductive pool_step : pool_state → pool_state → Prop :=
| pool_alloc sp blocks wrapped n p sp' :
    0 ≤ n < 2 ^ 64 → alloc n sp = Some (p, sp') → Z.of_nat (length blocks) < 2 ^ 64 - 1 →
    pool_step (sp, blocks, wrapped) (sp', blocks ++ [(p, n)], wrapped || (2 ^ 64 <=? p_ sp + n))
| pool_dealloc sp b1 b b2 wrapped :
    pool_step (sp, b1 ++ b :: b2, wrapped) (dealloc sp, b1 ++ b2, wrapped).

Definition pool_init (first size : Z) (s : pool_state) : Prop := s = (construct first size, [], false).

(** [b] ends before [b'] begins. *)
Definition block_before (b b' : Z * Z) : Prop := b.1 + b.2 ≤ b'.1.

(** The blocks lie in order between the pool's start and its next free address, as long as no
    request went past the end of the address space. *)
Definition blocks_ok (first size : Z) (s : pool_state) : Prop :=
  let '(sp, blocks, wrapped) := s in
  wrapped = false →
  sp_first sp = first ∧ size_ sp = size ∧ count_ sp = Z.of_nat (length blocks) ∧
  Z.of_nat (length blocks) < 2 ^ 64 ∧
  first ≤ p_ sp ≤ first + size ∧
  Forall (λ b, first ≤ b.1 ∧ 0 ≤ b.2 ∧ b.1 + b.2 ≤ p_ sp) blocks ∧
  StronglySorted block_before blocks ∧
  (blocks = [] → p_ sp = first).

Section Blocks.
Variables first size : Z.
Hypothesis first_range : 0 ≤ first.
Hypothesis size_range : 0 ≤ size.
Hypothesis end_range : first + size < 2 ^ 64.

(** What a request of [n] bytes gets. *)
Lemma alloc_spec n sp :
  sp_first sp = first → size_ sp = size → first ≤ p_ sp ≤ first + size → 0 ≤ n < 2 ^ 64 →
  alloc n sp =
    if decide (first + size ≤ u64 (p_ sp + n)) then None
    else Some (p_ sp, mk_static_pool first size (refs_ sp) (count_ sp +u 1) (u64 (p_ sp + n))).
Proof.
  intros Hf Hs Hp Hn. unfold alloc, pool_end. rewrite Hf, Hs, (u64_id (first + size)) by lia.
  destruct (first + size <=? u64 (p_ sp + n)) eqn:E; bool_prop; case_decide; (done || lia).
Qed.

Lemma u64_sum p n : 0 ≤ p < 2 ^ 64 → 0 ≤ n < 2 ^ 64 →
  u64 (p + n) = if 2 ^ 64 <=? p + n then p + n - 2 ^ 64 else p + n.
Proof.
  intros Hp Hn. destruct (2 ^ 64 <=? p + n) eqn:E; bool_prop; [|apply u64_id; lia].
  rewrite <- (u64_wrap (p + n) (-1)). rewrite u64_id; lia.
Qed.

Lemma sorted_remove (b1 b2 : list (Z * Z)) b :
  StronglySorted block_before (b1 ++ b :: b2) → StronglySorted block_before (b1 ++ b2).
Proof.
  intros (Hx & H1 & H2)%StronglySorted_app. apply StronglySorted_cons in H2 as [_ H2].
  apply StronglySorted_app. split_and!; [|done..].
  intros x1 x2 ??. apply Hx; [done|by right].
Qed.

Lemma blocks_inductive : inductive_invariant (pool_init first size) pool_step (blocks_ok first size).
Proof.
  split.
  - intros s -> _. simpl. split_and!; [done..|lia|lia|lia|by constructor|by constructor|done].
  - intros s s' Hok Hs. destruct Hs as [sp blocks wr n p sp' Hn Ha Hl|sp b1 b b2 wr].
    + intros [Hwr Hw]%orb_false_iff. destruct (Hok Hwr) as (Hf & Hsz & Hc & Hl64 & Hp & Hb & Hso & Hem). bool_prop.
      rewrite alloc_spec, u64_id in Ha by (done || lia). case_decide; [done|]. injection Ha as <- <-.
      simpl. rewrite length_app, Hc, u64_id by lia. simpl. split_and!; try done; try lia.
      * apply Forall_app. split; [|repeat constructor; simpl; lia].
        eapply Forall_impl; [exact Hb|]. simpl. lia.
      * apply StronglySorted_app. split_and!; [|done|by repeat constructor].
        intros x1 x2 Hx1 Hx2. apply list_elem_of_singleton in Hx2 as ->.
        rewrite Forall_forall in Hb. specialize (Hb x1 Hx1). unfold block_before. simpl. lia.
      * intros He%(f_equal length). rewrite length_app in He. simpl in He. lia.
    + intros Hwr. destruct (Hok Hwr) as (Hf & Hsz & Hc & Hl64 & Hp & Hb & Hso & Hem).
      clear Hok. rewrite length_app in Hc, Hl64. simpl in Hc, Hl64.
      assert (Hb' : Forall (λ b, first ≤ b.1 ∧ 0 ≤ b.2 ∧ b.1 + b.2 ≤ p_ sp) (b1 ++ b2)).
      { rewrite Forall_app, Forall_cons in Hb. apply Forall_app. tauto. }
      unfold dealloc. rewrite u64_id by lia. rewrite Hc.
      assert (Hso' : StronglySorted block_before (b1 ++ b2)) by (by eapply sorted_remove).
      destruct (_ =? 0) eqn:E; bool_prop; simpl; rewrite length_app.
      * assert (b1 ++ b2 = []) as -> by (apply nil_length_inv; rewrite length_app; lia).
        split_and!; (done || lia || constructor).
      * split_and!; try done; try lia. intros He%(f_equal length). rewrite length_app in He.
        simpl in He. lia.
Qed.

End Blocks.

(** ** The handles on a pool *)

(** The life of [static_allocator] objects, copy assignment and default construction aside. *)
Inductive heap_step : alloc_heap → alloc_heap → Prop :=
| heap_ctor h a n m :
    handles m !! h = None → pools m !! a = None → Z.of_nat (size (handles m)) < 2 ^ 64 - 1 →
    heap_step m (allocator_ctor h a n m)
| heap_copy h other m m' :
    handles m !! h = None → Z.of_nat (size (handles m)) < 2 ^ 64 - 1 →
    allocator_copy h other m = Some m' → heap_step m m'
| heap_dtor h m m' : allocator_dtor h m = Some m' → heap_step m m'
| heap_allocate h sizeof_T n m p m' :
    allocate h sizeof_T n m = Some (Some (p, m')) → heap_step m m'
| heap_deallocate h m m' : deallocate h m = Some m' → heap_step m m'.

Definition heap_init (m : alloc_heap) : Prop := m = mk_heap ∅ ∅.

(** The handles whose pool is at [a]. *)
Definition handles_on (a : Z) (hs : gmap nat Z) : gmap nat Z := filter (λ kv, kv.2 = a) hs.

(** Every handle is on a live pool, and a pool's count is the number of handles on it. *)
Definition refs_ok (m : alloc_heap) : Prop :=
  (∀ h a, handles m !! h = Some a → is_Some (pools m !! a)) ∧
  (∀ a sp, pools m !! a = Some sp →
     refs_ sp = Z.of_nat (size (handles_on a (handles m))) ∧ 0 < refs_ sp).

Lemma handles_on_insert h a a' hs :
  hs !! h = None →
  size (handles_on a (<[h := a']> hs)) =
    (if decide (a' = a) then Datatypes.S (size (handles_on a hs)) else size (handles_on a hs)).
Proof.
  intros Hh. unfold handles_on. case_decide as E.
  - rewrite map_filter_insert_True by done. apply map_size_insert_None.
    apply map_lookup_filter_None. by left.
  - rewrite map_filter_insert_False by done. by rewrite delete_id.
Qed.

Lemma handles_on_delete h a hs :
  hs !! h = Some a → size (handles_on a (delete h hs)) = pred (size (handles_on a hs)).
Proof.
  intros Hh. unfold handles_on. rewrite map_filter_delete.
  apply map_size_delete_Some. exists a. by apply map_lookup_filter_Some.
Qed.

Lemma handles_on_delete_ne h a a' hs :
  hs !! h = Some a → a' ≠ a → size (handles_on a' (delete h hs)) = size (handles_on a' hs).
Proof.
  intros Hh Hne. unfold handles_on. rewrite map_filter_delete, delete_id; [done|].
  apply map_lookup_filter_None. right. intros x Hx. simpl. congruence.
Qed.

Lemma handles_on_le a hs : (size (handles_on a hs) ≤ size hs)%nat.
Proof. apply map_subseteq_size, map_filter_subseteq. Qed.

(** Replacing a pool by one with the same count. *)
Lemma refs_ok_update m a sp sp' :
  refs_ok m → pools m !! a = Some sp → refs_ sp' = refs_ sp →
  refs_ok (mk_heap (<[a := sp']> (pools m)) (handles m)).
Proof.
  intros [H1 H2] Ha Hr. split; simpl.
  - intros h b Hb. destruct (decide (b = a)) as [->|]; [by rewrite lookup_insert_eq|].
    rewrite lookup_insert_ne by done. eauto.
  - intros b spb. destruct (decide (b = a)) as [->|].
    + rewrite lookup_insert_eq. intros [= <-]. rewrite Hr. eauto.
    + rewrite lookup_insert_ne by done. eauto.
Qed.

Lemma alloc_refs n sp p sp' : alloc n sp = Some (p, sp') → refs_ sp' = refs_ sp.
Proof. unfold alloc. case_match; [done|]. by intros [= <- <-]. Qed.

Lemma dealloc_refs sp : refs_ (dealloc sp) = refs_ sp.
Proof. unfold dealloc. by case_match. Qed.

Lemma refs_ctor h a n m :
  refs_ok m → handles m !! h = None → pools m !! a = None → refs_ok (allocator_ctor h a n m).
Proof.
  intros [H1 H2] Hh Ha. split; simpl.
  - intros h' b Hb. destruct (decide (b = a)) as [->|]; [by rewrite lookup_insert_eq|].
    rewrite lookup_insert_ne by done. destruct (decide (h' = h)) as [->|].
    + rewrite lookup_insert_eq in Hb. congruence.
    + rewrite lookup_insert_ne in Hb by done. eauto.
  - intros b sp. rewrite handles_on_insert by done. destruct (decide (a = b)) as [->|].
    + rewrite lookup_insert_eq. intros [= <-]. simpl.
      replace (size (handles_on b (handles m))) with 0%nat; [lia|].
      symmetry. apply map_size_empty_iff, map_empty. intros h'. apply map_lookup_filter_None.
      right. intros x Hx [= ->]. apply H1 in Hx as [??]. congruence.
    + rewrite lookup_insert_ne by done. eauto.
Qed.

Lemma refs_copy h other m m' :
  refs_ok m → handles m !! h = None → Z.of_nat (size (handles m)) < 2 ^ 64 - 1 →
  allocator_copy h other m = Some m' → refs_ok m'.
Proof.
  intros [H1 H2] Hh Hsz. unfold allocator_copy.
  destruct (handles m !! other) as [a|] eqn:Ho; simpl; [|done].
  destruct (pools m !! a) as [sp|] eqn:Ea; simpl; [|done]. intros [= <-].
  destruct (H2 _ _ Ea) as [Hr Hpos]. pose proof (handles_on_le a (handles m)). split; simpl.
  - intros h' b Hb. destruct (decide (b = a)) as [->|]; [by rewrite lookup_insert_eq|].
    rewrite lookup_insert_ne by done. destruct (decide (h' = h)) as [->|].
    + rewrite lookup_insert_eq in Hb. congruence.
    + rewrite lookup_insert_ne in Hb by done. eauto.
  - intros b spb. rewrite handles_on_insert by done. destruct (decide (a = b)) as [->|].
    + rewrite lookup_insert_eq. intros [= <-]. simpl. rewrite u64_id; lia.
    + rewrite lookup_insert_ne by done. eauto.
Qed.

Lemma refs_dtor h m m' :
  refs_ok m → Z.of_nat (size (handles m)) < 2 ^ 64 → allocator_dtor h m = Some m' → refs_ok m'.
Proof.
  intros [H1 H2] Hsz. unfold allocator_dtor.
  destruct (handles m !! h) as [a|] eqn:Eh; simpl; [|done].
  destruct (pools m !! a) as [sp|] eqn:Ea; simpl; [|done]. intros [= <-].
  destruct (H2 _ _ Ea) as [Hr Hpos]. pose proof (handles_on_le a (handles m)).
  assert (Hd : destroy sp = if decide (refs_ sp = 1) then None
    else Some (mk_static_pool (sp_first sp) (size_ sp) (refs_ sp - 1) (count_ sp) (p_ sp))).
  { unfold destroy. rewrite u64_id by lia. destruct (_ =? 0) eqn:E; bool_prop; case_decide; (done || lia). }
  rewrite Hd. split; simpl.
  - intros h' b. destruct (decide (h' = h)) as [->|]; [by rewrite lookup_delete_eq|].
    rewrite lookup_delete_ne by done. intros Hb. destruct (decide (b = a)) as [->|].
    + case_decide as E1; [|by rewrite lookup_insert_eq]. exfalso.
      pose proof (handles_on_delete h a _ Eh) as Hs.
      replace (pred _) with 0%nat in Hs by lia. apply map_size_empty_inv in Hs.
      assert (handles_on a (delete h (handles m)) !! h' = Some a) as Hl.
      { apply map_lookup_filter_Some. by rewrite lookup_delete_ne by done. }
      by rewrite Hs in Hl.
    + case_decide; [rewrite lookup_delete_ne by done|rewrite lookup_insert_ne by done]; eauto.
  - intros b spb. destruct (decide (b = a)) as [->|].
    + case_decide; [by rewrite lookup_delete_eq|]. rewrite lookup_insert_eq. intros [= <-]. simpl.
      rewrite handles_on_delete by done. lia.
    + rewrite (handles_on_delete_ne h a b) by done.
      case_decide; [rewrite lookup_delete_ne by done|rewrite lookup_insert_ne by done]; eauto.
Qed.

Lemma refs_inductive :
  inductive_invariant heap_init heap_step (λ m, refs_ok m ∧ Z.of_nat (size (handles m)) < 2 ^ 64).
Proof.
  split.
  - intros m ->. split; [|done]. split; intros ??; simpl; by rewrite lookup_empty.
  - intros m m' [Hok Hsz] Hs. destruct Hs as [h a n m Hh Ha Hlt|h other m m' Hh Hlt Hc|h m m' Hd|
      h sz n m p m' Ha|h m m' Hd].
    + split; [by apply refs_ctor|]. simpl. rewrite map_size_insert_None by done. lia.
    + split; [by eapply refs_copy|]. unfold allocator_copy in Hc.
      destruct (handles m !! other); simpl in Hc; [|done].
      destruct (pools m !! _); simpl in Hc; [|done]. simplify_eq. simpl.
      rewrite map_size_insert_None by done. lia.
    + split; [by eapply refs_dtor|]. unfold allocator_dtor in Hd.
      destruct (handles m !! h) eqn:Eh; simpl in Hd; [|done].
      destruct (pools m !! _); simpl in Hd; [|done]. simplify_eq. simpl.
      rewrite map_size_delete_Some by done. lia.
    + unfold allocate in Ha. destruct (handles m !! h) as [a|] eqn:Eh; simpl in Ha; [|done].
      destruct (pools m !! a) as [sp|] eqn:Ea; simpl in Ha; [|done].
      destruct (alloc _ sp) as [[p' sp']|] eqn:E; [|done]. simplify_eq.
      split; [|done]. eapply refs_ok_update; eauto using alloc_refs.
    + unfold deallocate in Hd. destruct (handles m !! h) as [a|] eqn:Eh; simpl in Hd; [|done].
      destruct (pools m !! a) as [sp|] eqn:Ea; simpl in Hd; [|done]. simplify_eq.
      split; [|done]. eapply refs_ok_update; eauto using dealloc_refs.
Qed.

(** ** Properties *)

(** C32: however a pool's users allocate and give back, as long as no request that was
    granted went past the end of the address space, the blocks they hold are disjoint,
    inside the pool's memory and in the order of their allocation; the count is the number
    of blocks held, and when none is left the whole pool is free again.  The next request is
    granted with the free block that starts at the next free address when it ends before the
    pool does; and, since [alloc] compares a sum that has wrapped around, also when it goes
    past the end of the address space by less than the address of the pool's end: that block
    is not inside the pool, and the next free address moves back. *)
Theorem static_pool_blocks first sz sp blocks :
  0 ≤ first → 0 ≤ sz → first + sz < 2 ^ 64 →
  reachable (pool_init first sz) pool_step (sp, blocks, false) →
  Forall (λ b, first ≤ b.1 ∧ 0 ≤ b.2 ∧ b.1 + b.2 ≤ first + sz) blocks ∧
  StronglySorted block_before blocks ∧ count_ sp = Z.of_nat (length blocks) ∧
  (blocks = [] → p_ sp = first) ∧
  ∀ n, 0 ≤ n < 2 ^ 64 →
    match alloc n sp with
    | Some (p, sp') =>
        p = p_ sp ∧ first ≤ p ∧ (∀ b, b ∈ blocks → block_before b (p, n)) ∧
        ((p + n < first + sz ∧ p_ sp' = p + n) ∨
         (2 ^ 64 ≤ p + n < 2 ^ 64 + first + sz ∧ p_ sp' = p + n - 2 ^ 64 ∧ p_ sp' < p))
    | None => first + sz ≤ p_ sp + n < 2 ^ 64 ∨ 2 ^ 64 + first + sz ≤ p_ sp + n
    end.
Proof.
  intros Hf Hs He Hr. apply (inductive_invariant_holds _ _ _ (blocks_inductive first sz Hf Hs He)) in Hr.
  destruct (Hr eq_refl) as (E1 & E2 & Hc & Hl & Hp & Hb & Hso & Hem). split_and!; try done.
  - eapply Forall_impl; [exact Hb|]. simpl. lia.
  - intros n Hn. rewrite (alloc_spec first sz) by (done || lia). rewrite u64_sum by lia.
    rewrite Forall_forall in Hb. destruct (2 ^ 64 <=? p_ sp + n) eqn:E; bool_prop; case_decide; simpl; try lia;
      (split; [done|]; split; [lia|]; split; [intros b Hin; unfold block_before; simpl; by destruct (Hb b Hin) as (_ & _ & ?)|lia]).
Qed.

(** A request of 2^64 - 100 bytes of a pool of 100 is one that is granted: the caller gets an
    address with 100 bytes behind it, and the next block lies before the pool. *)
Theorem alloc_wraps_around first sz :
  100 ≤ first → sz = 100 → first + sz < 2 ^ 64 →
  ∃ sp', alloc (2 ^ 64 - 100) (construct first sz) = Some (first, sp') ∧ p_ sp' = first - 100 ∧
    ∃ sp'', alloc 50 sp' = Some (first - 100, sp'').
Proof.
  intros Hf -> He. unfold alloc, pool_end. cbn [construct sp_first size_ p_ refs_ count_].
  rewrite (u64_id (first + 100)), u64_sum by lia.
  rewrite (proj2 (Z.leb_le (2 ^ 64) (first + (2 ^ 64 - 100)))) by lia.
  replace (first + (2 ^ 64 - 100) - 2 ^ 64) with (first - 100) by lia.
  rewrite (proj2 (Z.leb_gt (first + 100) (first - 100))) by lia.
  eexists. split; [done|]. cbn [sp_first size_ p_ refs_ count_]. split; [done|].
  rewrite (u64_id (first + 100)), (u64_id (first - 100 + 50)) by lia.
  rewrite (proj2 (Z.leb_gt (first + 100) (first - 100 + 50))) by lia. by eexists.
Qed.

(** C31: as long as no allocator object is default-constructed or assigned to, the shared
    counts are right: every object's pool is alive, so that copying it, using it and destroying it all succeed, and
    no pool outlives its last object. *)
Theorem allocator_refcount m :
  reachable heap_init heap_step m →
  (∀ h, is_Some (handles m !! h) →
     is_Some (allocator_dtor h m) ∧ is_Some (deallocate h m) ∧
     (∀ h', is_Some (allocator_copy h' h m)) ∧ (∀ sizeof_T n, is_Some (allocate h sizeof_T n m))) ∧
  (∀ a sp, pools m !! a = Some sp →
     refs_ sp = Z.of_nat (size (handles_on a (handles m))) ∧ ∃ h, handles m !! h = Some a).
Proof.
  intros Hr. apply (inductive_invariant_holds _ _ _ refs_inductive) in Hr as [[H1 H2] _]. split.
  - intros h [a Ha]. destruct (H1 _ _ Ha) as [sp Hsp].
    unfold allocator_dtor, deallocate, allocator_copy, allocate. rewrite Ha. simpl. rewrite Hsp. simpl.
    by repeat (split || intro); eexists.
  - intros a sp Ha. destruct (H2 _ _ Ha) as [Hc Hpos]. split; [done|].
    destruct (map_size_ne_0_lookup_1 (handles_on a (handles m))) as (h & b & [Hh Hb]%map_lookup_filter_Some);
      [lia|]. simpl in Hb. subst. by exists h.
Qed.

(** The copy assignment the compiler generates breaks this: after [y = x] and the
    destruction of [x], every use of [y] is a use of a destroyed pool, and [y]'s own pool
    is never destroyed. *)
Theorem allocator_assignment_dangles a b n n' :
  a ≠ b →
  let m := allocator_ctor 1 b n' (allocator_ctor 0 a n (mk_heap ∅ ∅)) in
  ∃ m' m'', allocator_assign 1 0 m = Some m' ∧ allocator_dtor 0 m' = Some m'' ∧
    is_Some (handles m'' !! 1%nat) ∧
    allocator_dtor 1 m'' = None ∧ deallocate 1 m'' = None ∧ (∀ sizeof_T k, allocate 1 sizeof_T k m'' = None) ∧
    is_Some (pools m'' !! b) ∧ (∀ h, handles m'' !! h ≠ Some b).
Proof.
  intros Hne m. set (sp := construct a n). set (sp' := construct b n').
  exists (mk_heap (<[b := sp']> (<[a := sp]> ∅)) (<[1%nat := a]> (<[1%nat := b]> (<[0%nat := a]> ∅)))).
  exists (mk_heap (delete a (<[b := sp']> (<[a := sp]> ∅)))
            (delete 0%nat (<[1%nat := a]> (<[1%nat := b]> (<[0%nat := a]> ∅))))).
  assert (Hh : (delete 0%nat (<[1%nat := a]> (<[1%nat := b]> (<[0%nat := a]> ∅))) : gmap nat Z) !! 1%nat = Some a).
  { rewrite lookup_delete_ne by done. by rewrite lookup_insert_eq. }
  assert (Hp : (delete a (<[b := sp']> (<[a := sp]> ∅)) : gmap Z static_pool) !! a = None) by apply lookup_delete_eq.
  split_and!.
  - done.
  - unfold allocator_dtor. cbn [handles pools]. rewrite !(lookup_insert_ne _ 1%nat 0%nat), lookup_insert_eq by done.
    cbn [mbind option_bind]. rewrite lookup_insert_ne, lookup_insert_eq by done. done.
  - simpl. by rewrite Hh.
  - unfold allocator_dtor. cbn [handles pools]. rewrite Hh. simpl. by rewrite Hp.
  - unfold deallocate. cbn [handles pools]. rewrite Hh. simpl. by rewrite Hp.
  - intros sizeof_T k. unfold allocate. cbn [handles pools]. rewrite Hh. simpl. by rewrite Hp.
  - simpl. rewrite lookup_delete_ne, lookup_insert_eq by done. done.
  - intros h. simpl. rewrite lookup_delete_Some. intros [Hne0 Hl].
    destruct (decide (h = 1%nat)) as [->|]; [rewrite lookup_insert_eq in Hl; congruence|].
    by rewrite !lookup_insert_ne in Hl by done.
Qed.

(** [allocate] does not check its multiplication: a request whose size in bytes
    overflows to a small number [r] succeeds, with a block of [r] bytes. *)
Theorem allocate_size_overflows h a sp m sizeof_T n r :
  handles m !! h = Some a → pools m !! a = Some sp →
  0 ≤ n < 2 ^ 64 → n * sizeof_T = 2 ^ 64 + r → 0 ≤ p_ sp → 0 ≤ r → p_ sp + r < pool_end sp →
  ∃ m', allocate h sizeof_T n m = Some (Some (p_ sp, m')) ∧
    ∃ sp', pools m' !! a = Some sp' ∧ p_ sp' = p_ sp + r.
Proof.
  intros Hh Ha Hn Hov Hp Hr Hlt. unfold allocate. rewrite Hh. simpl. rewrite Ha. simpl.
  pose proof (u64_range (sp_first sp + size_ sp)) as He. unfold pool_end in Hlt.
  rewrite Hov. replace (2 ^ 64 + r) with (r + 1 * 2 ^ 64) by lia. rewrite u64_wrap, (u64_id r) by lia.
  unfold alloc, pool_end. rewrite (u64_id (p_ sp + r)) by lia.
  rewrite (proj2 (Z.leb_gt _ _)) by done. eexists. split; [done|].
  eexists. simpl. by rewrite lookup_insert_eq.
Qed.

(** A pool cannot be used to its last byte: a request for exactly the memory that is
    left is refused, so a pool of size [n] refuses a block of [n] bytes. *)
Theorem alloc_exact_fit_refused first n :
  0 ≤ first → 0 ≤ n → first + n < 2 ^ 64 → alloc n (construct first n) = None.
Proof.
  intros. unfold alloc, pool_end. simpl. by rewrite u64_id, (proj2 (Z.leb_le _ _)) by lia.
Qed.

(** ** Witnesses *)

(** Two allocators that may free each other's memory never compare equal, which the
    requirements on allocators demand of a copy and its original. *)
Theorem allocator_copies_differ h other m m' :
  handles m !! h = None → allocator_copy h other m = Some m' →
  handles m' !! h = handles m' !! other ∧ allocator_eq h other = false ∧ allocator_neq h other = true.
Proof.
  unfold allocator_copy, allocator_neq, allocator_eq. intros Hh Hc.
  destruct (handles m !! other) as [a|] eqn:Ho; [|done]. assert (h ≠ other) by congruence.
  simpl in Hc. destruct (pools m !! a); [|done]. simpl in Hc. simplify_eq. simpl.
  rewrite lookup_insert_eq, lookup_insert_ne, bool_decide_false by done. done.
Qed.

(** An allocator that was default-constructed has no pool: the destructor, like every
    other operation, uses a pointer that was never set. *)
Theorem default_allocator_dangles h a m :
  pools m !! a = None →
  let m' := allocator_default h a m in
  allocator_dtor h m' = None ∧ deallocate h m' = None ∧ ∀ sizeof_T n, allocate h sizeof_T n m' = None.
Proof.
  intros Ha m'. unfold allocator_dtor, deallocate, allocate, m', allocator_default. simpl.
  rewrite lookup_insert_eq. simpl. by rewrite Ha.
Qed.

Lemma static_pool_blocks_witness :
  StronglySorted block_before [(1016, 16); (1032, 8)] ∧
  match alloc (2 ^ 64 - 100) (mk_static_pool 1000 100 1 2 1040) with Some (p, sp') => p_ sp' < p | None => False end.
Proof.
  assert (Hr : reachable (pool_init 1000 100) pool_step
    (mk_static_pool 1000 100 1 2 1040, [(1016, 16); (1032, 8)], false)).
  { eapply reach_step; [eapply reach_step; [eapply reach_step; [eapply reach_step;
      [by apply reach_init|]|]|]|].
    - by apply (pool_alloc _ _ _ 16).
    - by apply (pool_alloc _ _ _ 16).
    - by apply (pool_alloc _ _ _ 8).
    - by apply (pool_dealloc (mk_static_pool 1000 100 1 3 1040) [] (1000, 16)). }
  destruct (static_pool_blocks 1000 100 _ _ ltac:(done) ltac:(done) ltac:(done) Hr) as (_ & Hso & _ & _ & Hn).
  split; [exact Hso|]. specialize (Hn (2 ^ 64 - 100) ltac:(lia)). revert Hn. vm_compute. intros (_ & _ & _ & [[H _]|(_ & _ & H)]); [discriminate H|exact H].
Defined.

Lemma alloc_wraps_around_witness :
  ∃ sp', alloc (2 ^ 64 - 100) (construct 1000 100) = Some (1000, sp') ∧ p_ sp' = 900.
Proof. destruct (alloc_wraps_around 1000 100) as (sp' & E & Hp & _); [done..|]. by exists sp'. Defined.

(** One allocator object and a copy of it. *)
Definition toy_heap : alloc_heap :=
  mk_heap {[1000 := mk_static_pool 1000 64 2 0 1000]} (<[1%nat := 1000]> {[0%nat := 1000]}).

Lemma toy_heap_reachable : reachable heap_init heap_step toy_heap.
Proof.
  eapply reach_step; [eapply reach_step; [by apply reach_init|by apply (heap_ctor 0 1000 64)]|].
  by apply (heap_copy 1 0).
Qed.

Lemma allocator_refcount_witness : is_Some (allocator_dtor 0 toy_heap).
Proof. apply (allocator_refcount toy_heap toy_heap_reachable). by eexists. Defined.

Lemma allocator_assignment_dangles_witness :
  ∃ m' m'', allocator_assign 1 0 (allocator_ctor 1 2000 64 (allocator_ctor 0 1000 64 (mk_heap ∅ ∅))) = Some m' ∧
    allocator_dtor 0 m' = Some m'' ∧ deallocate 1 m'' = None.
Proof.
  destruct (allocator_assignment_dangles 1000 2000 64 64) as (m' & m'' & E1 & E2 & _ & _ & E3 & _); [done|].
  by exists m', m''.
Defined.

Lemma allocate_size_overflows_witness :
  ∃ m', allocate 0 8 (2 ^ 61 + 2) toy_heap = Some (Some (1000, m')).
Proof.
  destruct (allocate_size_overflows 0 1000 (mk_static_pool 1000 64 2 0 1000) toy_heap 8 (2 ^ 61 + 2) 16)
    as (m' & E & _); try done.
  by exists m'.
Defined.

Lemma alloc_exact_fit_refused_witness : alloc 64 (construct 1000 64) = None.
Proof. apply (alloc_exact_fit_refused 1000 64); lia. Defined.
