(* ===== verification/LogTime.v ===== *)
(** * The time in a line of the log

    [cout_logger::message] prints the time of a message with [std::chrono::to_time_t],
    [std::localtime] and [std::put_time].  These are modelled by their documented meaning:
    the Gregorian calendar, the local time zone as a parameter, and the conversions of the
    format the logger uses.  The theorem reads the text back. *)

From S2P Require Import Prelude.
From Stdlib Require Import Ascii.
Open Scope sc_scope.

(** The time zone of the process: what it adds to UTC, in seconds, at each instant. *)
Class TimeZone := utc_offset : Z → Z.

(** [std::tm], the fields the format uses. *)
Record tm := mk_tm { tm_year : Z; tm_mon : Z; tm_mday : Z; tm_hour : Z; tm_min : Z; tm_sec : Z }.

(** ** The calendar *)

Definition leap (y : Z) : bool := (y mod 4 =? 0) && (negb (y mod 100 =? 0) || (y mod 400 =? 0)).

Definition year_days (y : Z) : Z := if leap y then 366 else 365.

Definition month_days (y : Z) : list Z :=
  [31; if leap y then 29 else 28; 31; 30; 31; 30; 31; 31; 30; 31; 30; 31].

(** The year that day [d] counted from the first of January of [y] falls in, and its day
    in that year. *)
Fixpoint find_year (fuel : nat) (y d : Z) : Z * Z :=
  match fuel with
  | O => (y, d)
  | S fuel => if d <? year_days y then (y, d) else find_year fuel (y + 1) (d - year_days y)
  end.

(** The same with the months of a year, counted from [m]. *)
Fixpoint find_month (ms : list Z) (m d : Z) : Z * Z :=
  match ms with
  | [] => (m, d)
  | n :: ms => if d <? n then (m, d) else find_month ms (m + 1) (d - n)
  end.

(** [std::gmtime]: seconds since the first of January 1970 in the calendar. *)
Definition gmtime (t : Z) : tm :=
  let d := t / 86400 in
  let s := t mod 86400 in
  let '(y, yday) := find_year (Z.to_nat (d / 365 + 1)) 1970 d in
  let '(m, mday) := find_month (month_days y) 0 yday in
  mk_tm (y - 1900) m (mday + 1) (s / 3600) (s / 60 mod 60) (s mod 60).

(** [std::localtime]. *)
Definition localtime `{TimeZone} (t : Z) : tm := gmtime (t + utc_offset t).

(** [std::chrono::system_clock::to_time_t], of nanoseconds since 1970: truncated. *)
Definition to_time_t (now : Z) : Z := Z.quot now 1000000000.

(** ** The text *)

Definition digit (n : Z) : ascii := ascii_of_nat (48 + Z.to_nat n).

Definition two_digits (n : Z) : string := String (digit (n / 10)) (String (digit (n mod 10)) "").

(** One conversion of [std::put_time]: those of the logger's format, the year with its four
    digits. *)
Definition convert (c : ascii) (t : tm) : option string :=
  let y := tm_year t + 1900 in
  if (c =? "Y")%char then
    if (1000 <=? y) && (y <=? 9999) then Some (two_digits (y / 100) +:+ two_digits (y mod 100)) else None
  else if (c =? "m")%char then Some (two_digits (tm_mon t + 1))
  else if (c =? "d")%char then Some (two_digits (tm_mday t))
  else if (c =? "H")%char then Some (two_digits (tm_hour t))
  else if (c =? "M")%char then Some (two_digits (tm_min t))
  else if (c =? "S")%char then Some (two_digits (tm_sec t))
  else None.

(** [std::put_time(t, fmt)]. *)
Fixpoint put_time (t : tm) (fmt : string) : option string :=
  match fmt with
  | "" => Some ""
  | String c fmt' =>
      if (c =? "%")%char then
        match fmt' with
        | String c' fmt'' => s ← convert c' t; rest ← put_time t fmt''; Some (s +:+ rest)
        | "" => None
        end
      else rest ← put_time t fmt'; Some (String c rest)
  end.

(** The time [cout_logger::message] prints, at the reading [now] of the system clock. *)
Definition timestamp `{TimeZone} (now : Z) : option string :=
  put_time (localtime (to_time_t now)) "%Y-%m-%dT%H:%M:%SZ".

(** ** What the text says

    The reference: the calendar in closed form, and ISO 8601, where the [Z] at the end says
    that the time is UTC. *)

Definition days_before_year (y : Z) : Z :=
  365 * (y - 1970) + ((y - 1) / 4 - (y - 1) / 100 + (y - 1) / 400) - 477.

Definition days_before_month (y m : Z) : Z := foldr Z.add 0 (take (Z.to_nat m) (month_days y)).

Definition utc_seconds (y mon mday h mi s : Z) : Z :=
  86400 * (days_before_year y + days_before_month y (mon - 1) + (mday - 1)) + 3600 * h + 60 * mi + s.

Definition digit_value (c : ascii) : option Z :=
  let n := Z.of_nat (nat_of_ascii c) - 48 in if (0 <=? n) && (n <=? 9) then Some n else None.

Definition number2 (a b : ascii) : option Z :=
  a ← digit_value a; b ← digit_value b; Some (10 * a + b).

Definition parse_utc (s : string) : option Z :=
  match s with
  | String y1 (String y2 (String y3 (String y4 (String "-" (String m1 (String m2 (String "-"
      (String d1 (String d2 (String "T" (String h1 (String h2 (String ":" (String i1 (String i2
      (String ":" (String s1 (String s2 (String "Z" ""))))))))))))))))))) =>
      c ← number2 y1 y2; y ← number2 y3 y4; m ← number2 m1 m2; d ← number2 d1 d2;
      h ← number2 h1 h2; i ← number2 i1 i2; s ← number2 s1 s2;
      Some (utc_seconds (100 * c + y) m d h i s)
  | _ => None
  end.

Example parse_utc_2024 : parse_utc "2024-02-29T12:34:56Z" = Some 1709210096.
Proof. reflexivity. Qed.

Example gmtime_2024 : put_time (gmtime 1709210096) "%Y-%m-%dT%H:%M:%SZ" = Some "2024-02-29T12:34:56Z".
Proof. vm_compute. reflexivity. Qed.

(** ** The calendar is the closed form *)

Local Ltac div_lia := Z.to_euclidean_division_equations; lia.

Lemma days_before_year_succ y : days_before_year (y + 1) = days_before_year y + year_days y.
Proof.
  unfold days_before_year, year_days, leap. replace (y + 1 - 1) with y by lia.
  destruct (Z.eqb_spec (y mod 4) 0), (Z.eqb_spec (y mod 100) 0), (Z.eqb_spec (y mod 400) 0); simpl; div_lia.
Qed.

Lemma days_before_year_mono y y' : y ≤ y' → days_before_year y ≤ days_before_year y'.
Proof. unfold days_before_year. intros. div_lia. Qed.

Lemma year_days_bounds y : 365 ≤ year_days y ≤ 366.
Proof. unfold year_days. destruct (leap y); lia. Qed.

Lemma find_year_spec fuel y d :
  0 ≤ d < 365 * Z.of_nat fuel →
  let '(y', d') := find_year fuel y d in
  y ≤ y' ∧ 0 ≤ d' < year_days y' ∧ days_before_year y' + d' = days_before_year y + d.
Proof.
  revert y d. induction fuel as [|fuel IH]; intros y d Hd; [lia|]. cbn [find_year].
  pose proof (year_days_bounds y). destruct (Z.ltb_spec d (year_days y)) as [?|Hle]; [lia|].
  specialize (IH (y + 1) (d - year_days y)). rewrite days_before_year_succ in IH.
  destruct (find_year fuel (y + 1) (d - year_days y)) as [y' d']. lia.
Qed.

Lemma find_month_spec ms m d :
  Forall (λ n, n ≤ 31) ms → 0 ≤ d < foldr Z.add 0 ms →
  let '(m', d') := find_month ms m d in
  m ≤ m' < m + Z.of_nat (length ms) ∧ 0 ≤ d' < 31 ∧
  d = foldr Z.add 0 (take (Z.to_nat (m' - m)) ms) + d'.
Proof.
  revert m d. induction ms as [|n ms IH]; intros m d Hms Hd; cbn [find_month foldr] in *; [lia|].
  apply Forall_cons in Hms as [Hn Hms]. destruct (Z.ltb_spec d n) as [?|Hle].
  - rewrite Z.sub_diag. simpl. lia.
  - specialize (IH (m + 1) (d - n) Hms). destruct (find_month ms (m + 1) (d - n)) as [m' d'].
    destruct IH as (Hm & Hd' & E); [lia|]. split; [simpl length; lia|]. split; [done|].
    replace (Z.to_nat (m' - m)) with (S (Z.to_nat (m' - (m + 1)))) by lia. simpl. lia.
Qed.

Lemma month_days_year y : foldr Z.add 0 (month_days y) = year_days y ∧ Forall (λ n, n ≤ 31) (month_days y).
Proof. unfold month_days, year_days. destruct (leap y); (split; [done|]); repeat constructor; lia. Qed.

(** [gmtime] inverts the closed form, and its fields are in range. *)
Lemma gmtime_spec t :
  0 ≤ t < 253402300800 →
  let c := gmtime t in
  1970 ≤ tm_year c + 1900 ≤ 9999 ∧ 0 ≤ tm_mon c < 12 ∧ 1 ≤ tm_mday c ≤ 31 ∧
  0 ≤ tm_hour c < 24 ∧ 0 ≤ tm_min c < 60 ∧ 0 ≤ tm_sec c < 60 ∧
  utc_seconds (tm_year c + 1900) (tm_mon c + 1) (tm_mday c) (tm_hour c) (tm_min c) (tm_sec c) = t.
Proof.
  intros Ht c. unfold c, gmtime.
  assert (Hd : 0 ≤ t / 86400 < days_before_year 10000) by (change (days_before_year 10000) with 2932897; div_lia).
  pose proof (find_year_spec (Z.to_nat (t / 86400 / 365 + 1)) 1970 (t / 86400) ltac:(div_lia)) as Hy.
  destruct (find_year _ _ _) as [y yday]. destruct Hy as (Hy & Hyd & Ey).
  change (days_before_year 1970) with 0 in Ey.
  assert (Hy' : y ≤ 9999).
  { destruct (Z.le_gt_cases y 9999) as [|Hgt]; [done|]. pose proof (days_before_year_mono 10000 y). lia. }
  destruct (month_days_year y) as [Esum Hms]. rewrite <- Esum in Hyd.
  pose proof (find_month_spec (month_days y) 0 yday Hms Hyd) as Hm.
  destruct (find_month _ _ _) as [m mday]. destruct Hm as (Hm & Hmd & Em).
  change (length (month_days y)) with 12%nat in Hm.
  cbn [tm_year tm_mon tm_mday tm_hour tm_min tm_sec]. split_and!; try div_lia.
  unfold utc_seconds, days_before_month. replace (y - 1900 + 1900) with y by lia.
  replace (m + 1 - 1) with (m - 0) by lia. set (dm := foldr _ _ _) in *. div_lia.
Qed.

(** ** The text is read back *)

Lemma digit_value_digit n : 0 ≤ n ≤ 9 → digit_value (digit n) = Some n.
Proof.
  intros Hn. assert (n ∈ [0; 1; 2; 3; 4; 5; 6; 7; 8; 9]) as Hin by (rewrite !elem_of_cons; lia).
  clear Hn. repeat (apply elem_of_cons in Hin as [->|Hin]; [done|]). by apply not_elem_of_nil in Hin.
Qed.

Lemma number2_digits n : 0 ≤ n ≤ 99 → number2 (digit (n / 10)) (digit (n mod 10)) = Some n.
Proof.
  intros Hn. unfold number2. rewrite !digit_value_digit by div_lia. simpl. f_equal. div_lia.
Qed.

Lemma append_cons a s s' : String a s +:+ s' = String a (s +:+ s').
Proof. done. Qed.

Lemma append_nil s : "" +:+ s = s.
Proof. done. Qed.

Lemma gmtime_text t :
  0 ≤ t < 253402300800 → ∃ ts, put_time (gmtime t) "%Y-%m-%dT%H:%M:%SZ" = Some ts ∧ parse_utc ts = Some t.
Proof.
  intros Ht. destruct (gmtime_spec t Ht) as (Hy & Hmon & Hmd & Hh & Hmi & Hs & Et).
  destruct (gmtime t) as [y mon mday h mi s]. cbn [tm_year tm_mon tm_mday tm_hour tm_min tm_sec] in *.
  cbn -[Z.add Z.leb two_digits]. rewrite (proj2 (Z.leb_le 1000 _)), (proj2 (Z.leb_le _ 9999)) by lia.
  eexists. split; [done|]. unfold two_digits.
  repeat rewrite ?append_cons, ?append_nil. cbn [parse_utc].
  rewrite !number2_digits by div_lia. cbn -[Z.add Z.mul Z.div Z.modulo utc_seconds].
  by rewrite <- Z.div_mod, Et.
Qed.

(** ** Properties *)

(** C40: the time in a line of the log reads back, as the UTC time its text says it is, as the
    local time of the message: to the second for every message until the year 9999, but
    off by the time zone's offset, so that it is the time of the message exactly where the
    local time is UTC. *)
Theorem log_timestamp_local `{TimeZone} now :
  let t := to_time_t now in
  0 ≤ t + utc_offset t < 253402300800 →
  ∃ ts, timestamp now = Some ts ∧ parse_utc ts = Some (t + utc_offset t) ∧
    (parse_utc ts = Some t ↔ utc_offset t = 0).
Proof.
  intros t Ht. destruct (gmtime_text (t + utc_offset t) Ht) as (ts & E & Ep).
  exists ts. split; [exact E|]. split; [exact Ep|]. rewrite Ep. split; [intros [= Hz]; lia|intros ->; f_equal; lia].
Qed.

(** ** Witness *)

(** Moscow: three hours ahead of UTC. *)
#[local] Instance moscow : TimeZone := λ _, 10800.

Lemma log_timestamp_local_witness :
  timestamp 1709210096123456789 = Some "2024-02-29T15:34:56Z" ∧
  parse_utc "2024-02-29T15:34:56Z" ≠ Some (to_time_t 1709210096123456789).
Proof.
  destruct (log_timestamp_local 1709210096123456789) as (ts & E & _ & Hiff).
  - vm_compute. by split.
  - split; [vm_compute; reflexivity|]. vm_compute in E. injection E as <-.
    intros Hp. apply Hiff in Hp. discriminate Hp.
Defined.
