(* ===== verification/Logger.v ===== *)
(** * The library's logger

    Models logger.hpp and impl/logger.ipp: the interface a class of loggers implements, the
    library's own two, logger objects shared through pointers, the global instance, the
    setters, and the macro [STREAM_LOG_CALL] that guards every message of the library.
    The theorems are about any class of the user's beside the library's, and about whole
    histories of what an application and the library do with the loggers.  Reading a prefix
    outside the array of the std::cout logger has no result ([None]). *)

From S2P Require Import Prelude LogTime.
From Stdlib Require Import Ascii.
Open Scope sc_scope.

(** [enum class log_level : int]. *)
Inductive log_level := mute | trace | debug | info | warning | error.

#[export] Instance log_level_eq_dec : EqDecision log_level.
Proof. solve_decision. Defined.

Definition level_value (level : log_level) : Z :=
  match level with
  | mute => -1 | trace => 0 | debug => 1 | info => 2 | warning => 3 | error => 4
  end.

(** What is observable: lines on std::cout and calls of the user's code, each with the
    function that is called. *)
Inductive log_entry :=
| CoutLine (text : string)
| Callback (log_func : nat) (level : log_level) (location message : string).

(** [log_interface]: what a class of loggers implements.  [message] may have no result, and
    is given the reading of the system clock. *)
Class LogInterface (L : Type) := {
  li_set_level : log_level → L → L;
  li_get_level : L → log_level;
  li_message : Z → log_level → string → string → L → option (list log_entry)
}.

(** Its documentation: [get_level] returns the actual level, the one that was set. *)
Class LogInterfaceLaws (L : Type) `{LogInterface L} := {
  li_get_set level l : li_get_level (li_set_level level l) = level
}.

(** ** The loggers of the library *)

(** The two derived classes; a callback is a [std::function], which may be empty. *)
Inductive log_sink :=
| cout_logger
| func_logger (log_func : option nat).

(** A logger object: [base_logger::level_] and what it does with a message. *)
Record logger := mk_logger { level_ : log_level; sink : log_sink }.

(** [base_logger(level)] with the part of the derived class, [cout_logger(level)] and
    [func_logger(level, log_func)]. *)
Definition base_logger_ctor (s : log_sink) (level : log_level) : logger := mk_logger level s.

Definition cout_logger_ctor (level : log_level) : logger := base_logger_ctor cout_logger level.

Definition func_logger_ctor (level : log_level) (log_func : option nat) : logger :=
  base_logger_ctor (func_logger log_func) level.

(** [base_logger::set_level] and [get_level]. *)
Definition base_set_level (level : log_level) (l : logger) : logger := mk_logger level (sink l).

Definition base_get_level (l : logger) : log_level := level_ l.

(** [kLevelPrefixes]. *)
Definition kLevelPrefixes : list string := ["TRACE"; "DEBUG"; "INFO"; "WARNING"; "ERROR"].

Definition level_prefix (level : log_level) : option string :=
  if level_value level <? 0 then None else kLevelPrefixes !! Z.to_nat (level_value level).

(** What [cout_logger::message] puts together in its string stream, with [std::endl]. *)
Definition cout_text (time prefix location msg : string) : string :=
  time +:+ ": " +:+ prefix +:+ ": " +:+ location +:+ ": " +:+ msg +:+ String (ascii_of_nat 10) "".

(** [cout_logger::message] and [func_logger::message]. *)
Definition cout_message `{TimeZone} (now : Z) (level : log_level) (location msg : string)
    : option (list log_entry) :=
  time ← timestamp now;
  prefix ← level_prefix level;
  Some [CoutLine (cout_text time prefix location msg)].

Definition func_message (log_func : option nat) (level : log_level) (location msg : string) : list log_entry :=
  match log_func with None => [] | Some f => [Callback f level location msg] end.

#[export] Instance library_logger `{TimeZone} : LogInterface logger := {|
  li_set_level := base_set_level;
  li_get_level := base_get_level;
  li_message now level location msg l :=
    match sink l with
    | cout_logger => cout_message now level location msg
    | func_logger f => Some (func_message f level location msg)
    end
|}.

(** ** The current logger *)

(** What a [std::shared_ptr<log_interface>] points to: a logger of the library, or an object
    of a class [U] of the user's. *)
Inductive log_object (U : Type) :=
| LibraryLogger (l : logger)
| UserLogger (u : U).
Arguments LibraryLogger {U}.
Arguments UserLogger {U}.

(** The virtual calls. *)
#[export] Instance object_logger {U} `{TimeZone, LogInterface U} : LogInterface (log_object U) := {|
  li_set_level level o :=
    match o with
    | LibraryLogger l => LibraryLogger (li_set_level level l)
    | UserLogger u => UserLogger (li_set_level level u)
    end;
  li_get_level o := match o with LibraryLogger l => li_get_level l | UserLogger u => li_get_level u end;
  li_message now level location msg o :=
    match o with
    | LibraryLogger l => li_message now level location msg l
    | UserLogger u => li_message now level location msg u
    end
|}.

(** The objects alive, by address; the address [glob_instance] holds, if it is not null;
    and what has been logged. *)
Record log_state (U : Type) := mk_log_state {
  loggers : gmap nat (log_object U);
  glob_instance : option nat;
  logged : list log_entry
}.
Arguments mk_log_state {U}.
Arguments loggers {U}.
Arguments glob_instance {U}.
Arguments logged {U}.

Section Log.
Context {U : Type} `{TimeZone, LogInterface U}.
Implicit Types (st : log_state U).

(** Before [main]: the default logger, at [a]. *)
Definition log_initial (a : nat) : log_state U :=
  mk_log_state {[a := LibraryLogger (cout_logger_ctor trace)]} (Some a) [].

(** [logger_instance(new_logger)]: the pointer it returns. *)
Definition logger_instance (new_logger : option nat) st : option nat * log_state U :=
  let st :=
    match new_logger with
    | Some a => mk_log_state (loggers st) (Some a) (logged st)
    | None => st
    end in
  (glob_instance st, st).

(** [set_level], [get_level] and [message] of the object at [a]. *)
Definition set_level (a : nat) (level : log_level) st : log_state U :=
  mk_log_state (alter (li_set_level level) a (loggers st)) (glob_instance st) (logged st).

Definition get_level (a : nat) st : option log_level := li_get_level <$> loggers st !! a.

Definition message (a : nat) (now : Z) (level : log_level) (location msg : string) st : option (log_state U) :=
  l ← loggers st !! a;
  es ← li_message now level location msg l;
  Some (mk_log_state (loggers st) (glob_instance st) (logged st ++ es)).

(** [set_logger(logger)], with a pointer that may be null. *)
Definition set_logger (new_logger : option nat) st : log_state U :=
  (logger_instance new_logger st).2.

(** [set_logger(level, log_func)], the new object being placed at [a]. *)
Definition set_logger_func (a : nat) (level : log_level) (log_func : option nat) st : log_state U :=
  (logger_instance (Some a)
    (mk_log_state (<[a := LibraryLogger (func_logger_ctor level log_func)]> (loggers st))
       (glob_instance st) (logged st))).2.

(** [set_log_level(level)]. *)
Definition set_log_level (level : log_level) st : log_state U :=
  let '(l, st) := logger_instance None st in
  match l with Some a => set_level a level st | None => st end.

(** [get_log_level()]. *)
Definition get_log_level st : option log_level :=
  let '(l, st) := logger_instance None st in
  match l with Some a => get_level a st | None => Some mute end.

(** [log_message(level, location, message)]. *)
Definition log_message (now : Z) (level : log_level) (location msg : string) st : option (log_state U) :=
  let '(l, st) := logger_instance None st in
  match l with Some a => message a now level location msg st | None => Some st end.

(** [STREAM_LOG_CALL(level, ...)]: the state, and whether the arguments were evaluated. *)
Definition stream_log_call (now : Z) (level : log_level) (location msg : string) st
    : option (log_state U * bool) :=
  let '(l, st) := logger_instance None st in
  match l with
  | None => Some (st, false)
  | Some a =>
      cur ← get_level a st;
      if level_value cur <=? level_value level then
        (λ st, (st, true)) <$> message a now level location msg st
      else Some (st, false)
  end.

(** What the application and the library do with the logger. *)
Inductive log_op :=
| SetLogger (new_logger : option nat)
| SetLoggerFunc (a : nat) (level : log_level) (log_func : option nat)
| SetLogLevel (level : log_level)
| LogCall (now : Z) (level : log_level) (location msg : string).

Definition log_op_run (op : log_op) st : option (log_state U) :=
  match op with
  | SetLogger a => Some (set_logger a st)
  | SetLoggerFunc a level f => Some (set_logger_func a level f st)
  | SetLogLevel level => Some (set_log_level level st)
  | LogCall now level location msg => fst <$> stream_log_call now level location msg st
  end.

Fixpoint log_run (ops : list log_op) st : option (log_state U) :=
  match ops with
  | [] => Some st
  | op :: ops => st ← log_op_run op st; log_run ops st
  end.

(** The global instance points to a live object. *)
Definition log_ok st : Prop := ∃ a l, glob_instance st = Some a ∧ loggers st !! a = Some l.

End Log.

(** The macros [STREAM_LOG_TRACE] to [STREAM_LOG_ERROR] pass a level other than [mute]. *)
Definition library_levels : list log_level := [trace; debug; info; warning; error].

(** The readings of the system clock whose local time has a year of four digits. *)
Definition log_clock_ok `{TimeZone} (now : Z) : Prop :=
  0 ≤ to_time_t now + utc_offset (to_time_t now) < 253402300800.

(** ** Lemmas *)

#[export] Instance library_logger_laws `{TimeZone} : LogInterfaceLaws logger.
Proof. by constructor. Qed.

#[export] Instance object_logger_laws {U} `{TimeZone, LogInterfaceLaws U} : LogInterfaceLaws (log_object U).
Proof. constructor. intros level [l|u]; [done|apply (li_get_set (L := U))]. Qed.

Section Claims.
Context {U : Type} `{TimeZone, LogInterfaceLaws U}.
Implicit Types (st : log_state U) (l : log_object U).

(** The std::cout logger prints every message of the library. *)
Lemma cout_message_library now level location msg :
  log_clock_ok now → level ∈ library_levels →
  ∃ time prefix, timestamp now = Some time ∧ level_prefix level = Some prefix ∧
    cout_message now level location msg = Some [CoutLine (cout_text time prefix location msg)].
Proof.
  intros Hn Hl. destruct (gmtime_text _ Hn) as (ts & Ets & _). unfold cout_message, timestamp, localtime. rewrite Ets.
  repeat (apply elem_of_cons in Hl as [->|Hl]; [by do 2 eexists|]). by apply elem_of_nil in Hl.
Qed.

Lemma stream_log_call_eq now level location msg st a l :
  glob_instance st = Some a → loggers st !! a = Some l →
  stream_log_call now level location msg st =
    if level_value (li_get_level l) <=? level_value level then
      (λ es, (mk_log_state (loggers st) (glob_instance st) (logged st ++ es), true)) <$>
        li_message now level location msg l
    else Some (st, false).
Proof.
  intros Hg Ha. unfold stream_log_call, logger_instance. rewrite Hg. unfold get_level, message. rewrite Ha.
  cbn [fmap option_fmap option_map mbind option_bind]. destruct (_ <=? _); [|done].
  destruct (li_message _ _ _ _ _); [|done]. simpl. by rewrite Hg.
Qed.

(** ** What a history of calls logs

    The reference definition.  [loggers0] are the loggers of the library there are at first,
    [a0] the one installed; everything else is a matter of which call was the last one. *)

Section History.
Variables (loggers0 : gmap nat logger) (a0 : nat).
Implicit Types (h ops : list log_op) (a : nat).

(** [f before op], for every [op] of the history with what came before it. *)
Fixpoint over_history {A} (f : list log_op → log_op → list A) before ops : list A :=
  match ops with
  | [] => []
  | op :: ops => f before op ++ over_history f (before ++ [op]) ops
  end.

(** The logger that was installed last; a null pointer installs nothing. *)
Definition installs (op : log_op) : option nat :=
  match op with SetLogger a => a | SetLoggerFunc a _ _ => Some a | _ => None end.

Definition in_force h : nat := default a0 (last (omap installs h)).

(** What the logger at [a] does with messages, if there is one. *)
Definition makes a (op : log_op) : option log_sink :=
  match op with SetLoggerFunc b _ f => if decide (b = a) then Some (func_logger f) else None | _ => None end.

Definition sink_of h a : option log_sink :=
  match last (omap (makes a) h) with Some s => Some s | None => sink <$> loggers0 !! a end.

(** The level it was given last, by its constructor or while it was installed. *)
Definition gives_level a h (op : log_op) : list log_level :=
  match op with
  | SetLoggerFunc b level _ => if decide (b = a) then [level] else []
  | SetLogLevel level => if decide (in_force h = a) then [level] else []
  | _ => []
  end.

Definition level_of h a : option log_level :=
  match last (over_history (gives_level a) [] h) with
  | Some level => Some level
  | None => level_ <$> loggers0 !! a
  end.

Definition level_name (level : log_level) : string :=
  match level with
  | mute => "" | trace => "TRACE" | debug => "DEBUG" | info => "INFO" | warning => "WARNING" | error => "ERROR"
  end.

(** What a message leaves behind: one line, one call, or nothing. *)
Definition entries_of (s : log_sink) (now : Z) (level : log_level) (location msg : string) : list log_entry :=
  match s with
  | cout_logger => [CoutLine (cout_text (default "" (timestamp now)) (level_name level) location msg)]
  | func_logger (Some f) => [Callback f level location msg]
  | func_logger None => []
  end.

(** A call of the macro is logged when the level in force is at most the message's. *)
Definition op_entries h (op : log_op) : list log_entry :=
  match op with
  | LogCall now level location msg =>
      match level_of h (in_force h), sink_of h (in_force h) with
      | Some cur, Some s => if level_value cur <=? level_value level then entries_of s now level location msg else []
      | _, _ => []
      end
  | _ => []
  end.

(** A pointer that is installed points to a logger; messages are the library's. *)
Definition op_ok h (op : log_op) : Prop :=
  match op with
  | SetLogger (Some a) => is_Some (sink_of h a)
  | LogCall now level _ _ => log_clock_ok now ∧ level ∈ library_levels
  | _ => True
  end.

Lemma over_history_snoc {A} (f : list log_op → log_op → list A) before ops op :
  over_history f before (ops ++ [op]) = over_history f before ops ++ f (before ++ ops) op.
Proof.
  revert before. induction ops as [|x ops IH]; intros before; simpl.
  - by rewrite !app_nil_r.
  - by rewrite IH, <- !app_assoc.
Qed.

Lemma log_run_snoc ops op st :
  log_run ops st ≫= log_op_run op = log_run (ops ++ [op]) st.
Proof.
  revert st. induction ops as [|x ops IH]; intros st; simpl.
  - by destruct (log_op_run op st).
  - destruct (log_op_run x st); simpl; [apply IH|done].
Qed.

(** The state after a history. *)
Definition history_ok h (logged0 : list log_entry) st : Prop :=
  glob_instance st = Some (in_force h) ∧
  (∀ a, loggers st !! a = level ← level_of h a; s ← sink_of h a; Some (LibraryLogger (mk_logger level s))) ∧
  is_Some (loggers st !! in_force h) ∧
  logged st = logged0 ++ over_history op_entries [] h.

Lemma in_force_snoc h op : in_force (h ++ [op]) = default (in_force h) (installs op).
Proof. unfold in_force. rewrite omap_app, last_app. simpl. by destruct (installs op). Qed.

Lemma sink_of_snoc h op a :
  sink_of (h ++ [op]) a = match makes a op with Some s => Some s | None => sink_of h a end.
Proof. unfold sink_of. rewrite omap_app, last_app. simpl. by destruct (makes a op). Qed.

Lemma level_of_snoc h op a :
  level_of (h ++ [op]) a = match last (gives_level a h op) with Some l => Some l | None => level_of h a end.
Proof. unfold level_of. rewrite over_history_snoc, last_app. simpl. by destruct (last (gives_level a h op)). Qed.

(** What makes a logger gives it a level. *)
Lemma sink_has_level h a s : sink_of h a = Some s → level_of h a ≠ None.
Proof.
  revert s. induction h as [|op h IH] using rev_ind; intros s.
  - unfold sink_of, level_of. simpl. by destruct (loggers0 !! a).
  - rewrite sink_of_snoc, level_of_snoc. destruct (last (gives_level a h op)) eqn:E; [done|].
    destruct (makes a op) eqn:Em; [|apply IH]. exfalso. destruct op; try done. simpl in *. by case_decide.
Qed.

(** A message the library's loggers print. *)
Lemma library_message_entries now level location msg cur s :
  log_clock_ok now → level ∈ library_levels →
  li_message now level location msg (mk_logger cur s) = Some (entries_of s now level location msg).
Proof.
  intros Hn Hl. destruct s as [|[f|]]; [|done..]. cbn [li_message library_logger sink entries_of].
  destruct (cout_message_library now level location msg Hn Hl) as (time & prefix & -> & Hp & ->). cbn [default].
  repeat (apply elem_of_cons in Hl as [->|Hl]; [by injection Hp as <-|]). by apply elem_of_nil in Hl.
Qed.

Lemma log_call_step now level location msg h logged0 st :
  history_ok h logged0 st → op_ok h (LogCall now level location msg) →
  ∃ st', log_op_run (LogCall now level location msg) st = Some st' ∧
    history_ok (h ++ [LogCall now level location msg]) logged0 st'.
Proof.
  intros (Hg & Hls & [l Hl] & Hlog) [Hn Hlib]. cbn [log_op_run]. rewrite (stream_log_call_eq now level location msg st _ l Hg Hl).
  assert (Hsnoc : ∀ es, op_entries h (LogCall now level location msg) = es →
    history_ok (h ++ [LogCall now level location msg]) logged0 (mk_log_state (loggers st) (glob_instance st) (logged st ++ es))).
  { intros es Hes. unfold history_ok. cbn [loggers glob_instance logged]. rewrite in_force_snoc, over_history_snoc. cbn [installs default app].
    split_and!; [done| |by rewrite Hl|by rewrite Hlog, <- app_assoc, Hes].
    intros a. rewrite level_of_snoc, sink_of_snoc. apply Hls. }
  pose proof (Hls (in_force h)) as Hf. rewrite Hl in Hf. cbn [op_entries] in Hsnoc.
  destruct (level_of h (in_force h)) as [cur|]; [|done]. destruct (sink_of h (in_force h)) as [s|]; [|done].
  cbn [mbind option_bind] in Hf. injection Hf as ->.
  change (li_get_level (LibraryLogger (mk_logger cur s))) with cur. destruct (_ <=? _).
  - change (li_message now level location msg (LibraryLogger (mk_logger cur s))) with
      (li_message now level location msg (mk_logger cur s)).
    rewrite library_message_entries by done. eexists. split; [done|]. by apply Hsnoc.
  - eexists. split; [done|]. specialize (Hsnoc [] eq_refl). rewrite app_nil_r in Hsnoc. by destruct st.
Qed.

Lemma log_op_step h op logged0 st :
  history_ok h logged0 st → op_ok h op →
  ∃ st', log_op_run op st = Some st' ∧ history_ok (h ++ [op]) logged0 st'.
Proof.
  intros Hh Hop. destruct op as [[a|]|a level f|level|now level location msg]; [..|by apply log_call_step];
    destruct Hh as (Hg & Hls & [l Hl] & Hlog); cbn [log_op_run]; eexists; (split; [done|]);
    unfold history_ok, set_logger, set_logger_func, set_log_level, logger_instance;
    rewrite in_force_snoc, over_history_snoc; cbn [installs default app fst snd loggers glob_instance logged op_entries];
    rewrite ?app_nil_r.
  - split_and!; [done|intros b; rewrite level_of_snoc, sink_of_snoc; apply Hls| |done].
    unfold id. rewrite Hls. destruct Hop as [s Hs]. destruct (level_of h a) as [cur|] eqn:Hc.
    { cbn [mbind option_bind]. by rewrite Hs. }
    exfalso. by apply (sink_has_level h a s Hs).
  - split_and!; [done|intros b; rewrite level_of_snoc, sink_of_snoc; apply Hls|done|done].
  - split_and!; [done| |by rewrite lookup_insert_eq|done]. intros b. rewrite level_of_snoc, sink_of_snoc. cbn [gives_level makes].
    destruct (decide (a = b)) as [<-|Hne]; [by rewrite lookup_insert_eq|]. rewrite lookup_insert_ne by done. apply Hls.
  - rewrite Hg. unfold set_level. cbn [loggers glob_instance logged]. split_and!; [done| |by rewrite lookup_alter_eq, Hl|done].
    intros b. rewrite level_of_snoc, sink_of_snoc. cbn [gives_level makes]. destruct (decide (in_force h = b)) as [<-|Hne].
    + rewrite lookup_alter_eq, Hls. cbn [last]. destruct (level_of h (in_force h)) as [cur|] eqn:Hc.
      * by destruct (sink_of h (in_force h)).
      * exfalso. rewrite Hls, Hc in Hl. done.
    + rewrite lookup_alter_ne by done. apply Hls.
Qed.


End History.

(** Setting the level to [mute] silences nothing: every later message of the library,
    of every level, is passed on to the logger. *)
Theorem mute_logs_everything now level location msg st :
  level ∈ library_levels → log_ok st →
  let st' := set_log_level mute st in
  get_log_level st' = Some mute ∧
  ∃ l, stream_log_call now level location msg st' =
    (λ es, (mk_log_state (loggers st') (glob_instance st') (logged st ++ es), true)) <$>
      li_message now level location msg l.
Proof.
  intros Hl (a & l & Hg & Ha) st'.
  assert (Hst : st' = set_level a mute st).
  { unfold st', set_log_level, logger_instance. by rewrite Hg. }
  assert (Ha' : loggers st' !! a = Some (li_set_level mute l)).
  { rewrite Hst. cbn [loggers set_level]. by rewrite lookup_alter_eq, Ha. }
  assert (Hg' : glob_instance st' = Some a) by (by rewrite Hst). split.
  - unfold get_log_level, logger_instance, get_level. rewrite Hg', Ha'. cbn [fmap option_fmap option_map].
    by rewrite li_get_set.
  - exists (li_set_level mute l). rewrite (stream_log_call_eq now level location msg st' a _ Hg' Ha').
    rewrite li_get_set. rewrite Hst. by destruct level.
Qed.

(** The setters overwrite each other: after installing a callback, or setting a level,
    that is the level in force, and the level stays with the object it was set on when
    another logger is installed; installing a null pointer changes nothing at all. *)
Theorem logger_setters st a b l level level' f :
  glob_instance st = Some a → loggers st !! a = Some l → a ≠ b →
  get_log_level (set_log_level level st) = Some level ∧
  get_log_level (set_logger_func b level f st) = Some level ∧
  get_log_level (set_logger (Some a) (set_logger_func b level' f (set_log_level level st))) = Some level ∧
  set_logger None st = st.
Proof.
  intros Hg Ha Hne. destruct st as [ls gi lg]. cbn [loggers glob_instance] in Hg, Ha. subst gi.
  unfold set_logger, set_logger_func, get_log_level, set_log_level, logger_instance, get_level, set_level.
  cbn [fst snd loggers glob_instance logged]. split_and!.
  - rewrite lookup_alter_eq, Ha. cbn [fmap option_fmap option_map]. by rewrite li_get_set.
  - by rewrite lookup_insert_eq.
  - rewrite lookup_insert_ne, lookup_alter_eq, Ha by done. cbn [fmap option_fmap option_map]. by rewrite li_get_set.
  - done.
Qed.

End Claims.

(** ** Witnesses *)

(** A class of the user's: a level, and an object with a number that gets the messages. *)
Record toy_logger := mk_toy_logger { toy_level : log_level; toy_object : nat }.

#[local] Instance toy_log_interface : LogInterface toy_logger := {|
  li_set_level level l := mk_toy_logger level (toy_object l);
  li_get_level := toy_level;
  li_message _ level location msg l := Some [Callback (toy_object l) level location msg]
|}.

#[local] Instance toy_log_interface_laws : LogInterfaceLaws toy_logger.
Proof. by constructor. Qed.

#[local] Instance utc : TimeZone := λ _, 0.

Definition toy_log : log_state toy_logger :=
  mk_log_state {[0%nat := LibraryLogger (mk_logger info cout_logger); 1%nat := UserLogger (mk_toy_logger info 7)]}
    (Some 0%nat) [].

Definition toy_clock : Z := 1709210096123456789.

(** A message below the level; then a logger with a callback at the level [error], a message it
    drops, the level [debug], which it is then given, and a message that it gets; then the
    first logger again, at its own level. *)
Definition toy_ops : list log_op :=
  [LogCall toy_clock debug "a.cpp:1" "one"; SetLoggerFunc 2 error (Some 7%nat); LogCall toy_clock warning "a.cpp:2" "two";
   SetLogLevel debug; SetLogger None; LogCall toy_clock debug "a.cpp:3" "three"; SetLogger (Some 0%nat);
   LogCall toy_clock debug "a.cpp:4" "four"; LogCall toy_clock info "a.cpp:5" "five"].

Definition toy_loggers : gmap nat logger := {[0%nat := mk_logger info cout_logger]}.


Lemma mute_logs_everything_witness :
  get_log_level (set_log_level mute (set_logger (Some 1%nat) toy_log)) = Some mute.
Proof.
  apply (mute_logs_everything toy_clock trace "a.cpp:1" "hello" (set_logger (Some 1%nat) toy_log)).
  - constructor.
  - exists 1%nat, (UserLogger (mk_toy_logger info 7)). split; reflexivity.
Defined.

Lemma logger_setters_witness :
  get_log_level (set_log_level error toy_log) = Some error ∧ set_logger None toy_log = toy_log.
Proof.
  destruct (logger_setters toy_log 0 1 (LibraryLogger (mk_logger info cout_logger)) error info None)
    as (E1 & _ & _ & E2).
  - reflexivity.
  - reflexivity.
  - lia.
  - split; [exact E1|exact E2].
Defined.
