(* ===== verification/Resolver.v ===== *)
(** * [base_resolver]: DNS resolution under a deadline

    Models resolver/resolver.hpp and resolver/impl/resolver.ipp: the query the constructor
    builds, [resolve] with its overloads, and the cancelling [deadline_actor].  The asio
    resolver is a parameter; an iterator is the list of endpoints it traverses, the
    default-constructed one being the empty list. *)

From S2P Require Import Prelude ErrorCode TimedBase IoLoop Transfer.
Open Scope sc_scope.

(** [enum class ip_family]. *)
Inductive ip_family := ipv4 | ipv6 | any.

(** The asio resolver: [cancel()], and the flag [resolve_flags::address_configured]. *)
Class AsioResolver (R : Type) := {
  rs_cancel : R → R;
  address_configured : Z
}.

(** The arguments of the [query_type] constructor; the protocol is absent for [any]. *)
Record query_type := mk_query {
  query_protocol : option ip_family;
  query_host : string;
  query_port : string;
  query_flags : Z
}.

(** The members of [base_resolver]. *)
Record base_resolver (R : Type) := mk_base_resolver {
  resolver_ : R;
  resolve_timeout_ : Z;
  query_ : query_type
}.
Arguments mk_base_resolver {R}.
Arguments resolver_ {R}.
Arguments resolve_timeout_ {R}.
Arguments query_ {R}.

Section Resolver.
Context {R Ep : Type} `{AsioResolver R, tm : AsioTimer, pl : Platform}.

(** The object, with its timer and clock; a handler of its io_service brings an iterator. *)
Definition resolver : Type := timed (base_resolver R).
Definition resolve_event : Type := io_event (list Ep).

Definition kDefaultFlags : Z := address_configured.
Definition kDefaultIPFamily : ip_family := any.

(** [deadline_actor()]. *)
#[export] Instance base_resolver_deadline_actor : TimedDerived (base_resolver R) :=
  λ b, mk_base_resolver (rs_cancel (resolver_ b)) (resolve_timeout_ b) (query_ b).

(** The constructor's [switch] on the protocol. *)
Definition make_query (host port : string) (protocol : ip_family) (resolve_flags : Z) : query_type :=
  match protocol with
  | ipv4 => mk_query (Some ipv4) host port resolve_flags
  | ipv6 => mk_query (Some ipv6) host port resolve_flags
  | any => mk_query None host port resolve_flags
  end.

(** [base_resolver(host, port, resolve_timeout, protocol, resolve_flags)] at clock
    reading [t], over a fresh asio resolver [r]. *)
Definition base_resolver_ctor (r : R) (host port : string) (resolve_timeout : Z) (protocol : ip_family)
    (resolve_flags : Z) (t : Z) : resolver :=
  timed_base_ctor (mk_base_resolver r resolve_timeout (make_query host port protocol resolve_flags)) t.

(** [resolve_timeout()], and [resolve_timeout(new)], which returns the previous value. *)
Definition resolve_timeout (w : resolver) : Z := resolve_timeout_ (self w).

Definition set_resolve_timeout (d : Z) (w : resolver) : resolver * Z :=
  (set_self (λ b, mk_base_resolver (resolver_ b) d (query_ b)) w, resolve_timeout_ (self w)).

(** [async_resolve(handler, timeout_or_deadline)]: the expiration its closure will own. *)
Definition async_resolve (t : timeout_or_deadline) (w : resolver) : resolver * outcome expiration :=
  scope_expire t w.

(** [resolve(ec, timeout_or_deadline)]: [async_resolve] followed by the [run_one] loop. *)
Definition resolve (evs : list resolve_event) (t : timeout_or_deadline) (w : resolver)
    : resolver * list resolve_event * io_result (list Ep) :=
  match async_resolve t w with
  | (w, Throw e) => (w, evs, IoThrow e)
  | (w, Normal e) =>
      match run_loop (λ _ iterator, iterator) evs (Some e) w would_block [] with
      | None => (w, [], IoBlocked)
      | Some (w, ec, endpoints, evs) => (w, evs, IoDone ec endpoints)
      end
  end.

(** [resolve(ec)]. *)
Definition resolve_default (evs : list resolve_event) (w : resolver) :=
  resolve evs (Timeout (resolve_timeout w)) w.

(** [resolve()], throwing. *)
Definition resolve_default_throw (evs : list resolve_event) (w : resolver)
    : resolver * list resolve_event * io_result (list Ep) :=
  let r := resolve_default evs w in (r.1, throw_on_error "" r.2).

End Resolver.

Arguments resolver : clear implicits.
Arguments resolve_event : clear implicits.

(** What asio documents of a resolution that succeeds: at least one entry. *)
Definition resolution_ok {Ep} (err : error_code) (endpoints : list Ep) : Prop :=
  ec_failed err = false → endpoints ≠ [].

Section Claims.
Context {R Ep : Type} `{AsioResolver R, tm : AsioTimer, pl : Platform}.
Implicit Types (w : resolver R) (evs : list (resolve_event Ep)).

(** C38: [resolve(ec)] with a finite default timeout returns when the asio resolution
    completes; when the wait handler saw the deadline before that, it has cancelled the
    resolution and the call reports [timed_out], but still hands over the iterator the
    completion brought; otherwise the error is the resolution's, success comes with at
    least one endpoint, and the throwing overload agrees; no deadline stays armed. *)
Theorem resolve_outcome evs w ts t err eps rest :
  disarmed w → finite_timeout (resolve_timeout w) w →
  Forall (λ ev, clock_ok (event_time ev)) evs →
  first_op evs = Some (ts, (t, err, eps), rest) → err ≠ would_block → resolution_ok err eps →
  let expired := late (now w + resolve_timeout w) ts in
  let ec := if expired then timed_out else err in
  ∃ w', resolve_default evs w = (w', rest, IoDone ec eps) ∧ disarmed w' ∧
    self w' = (if expired then deadline_actor (self w) else self w) ∧
    (ec_failed ec = false → eps ≠ []) ∧
    resolve_default_throw evs w =
      (w', rest, if ec_failed ec then IoThrow (mk_se ec "") else IoDone ec eps).
Proof.
  intros Hdis Hfin Hev Ho Hnb Hok expired ec.
  assert (Hd : 0 < resolve_timeout w) by (destruct Hfin; unfold kDurationResolution in *; lia).
  assert (Hc : clock_ok (now w)) by eauto with timed.
  assert (Hl : fires (now w + resolve_timeout w) (now w) ts = expired) by (apply fires_late; lia).
  destruct (first_op_times _ _ _ _ Ho Hev) as [Hts Htc]. pose proof Hdis as (_ & Hw & _).
  set (w1 := expires_at (now w + resolve_timeout w) (set_fired false w)).
  assert (E : resolve_default evs w =
    (expiration_dtor (mk_expiration true) (after_events w1 ts t), rest, IoDone ec eps)).
  { unfold resolve_default, resolve, async_resolve. rewrite arm_finite by done.
    erewrite attempt_spec by done. cbn [timer_expiry base expires_at set_fired set_base now].
    by rewrite Hl. }
  eexists. split; [exact E|]. split_and!.
  - apply completion_disarmed; [done..|by left].
  - simpl. by rewrite Hl.
  - unfold ec. destruct expired; [by rewrite timed_out_failed|exact Hok].
  - unfold resolve_default_throw. by rewrite E.
Qed.

(** The query the constructor stores restricts the address family exactly when the
    caller chose one, and carries the host, port and flags it was given; the constructed
    resolver has no deadline armed. *)
Theorem base_resolver_ctor_query (r : R) host port d protocol flags t :
  clock_ok t →
  let w := base_resolver_ctor r host port d protocol flags t in
  let q := query_ (self w) in
  disarmed w ∧ resolve_timeout w = d ∧ query_host q = host ∧ query_port q = port ∧
  query_flags q = flags ∧ (query_protocol q = None ↔ protocol = any) ∧
  (∀ f, query_protocol q = Some f → f = protocol).
Proof.
  intros Ht. destruct protocol; simpl; (split; [split; [by apply timer_add_infinite|by destruct Ht]|]);
    repeat split; naive_solver.
Qed.

End Claims.

(** ** Witnesses *)

#[export] Instance toy_asio_resolver : AsioResolver nat := {|
  rs_cancel n := S n;
  address_configured := 32
|}.

Definition toy_resolver : resolver nat :=
  base_resolver_ctor 0%nat "localhost" "80" 5000 kDefaultIPFamily kDefaultFlags 100.

Lemma resolve_outcome_witness :
  ∃ w', resolve_default (Ep := nat) [EvTimer 6000; EvOp 6001 operation_aborted []] toy_resolver =
    (w', [], IoDone timed_out []) ∧ resolver_ (self w') = 1%nat.
Proof.
  destruct (resolve_outcome (Ep := nat) [EvTimer 6000; EvOp 6001 operation_aborted []] toy_resolver
    [6000] 6001 operation_aborted [] []) as (w' & E1 & _ & E2 & _); try done.
  - repeat constructor; done.
  - exists w'. split; [exact E1|]. by rewrite E2.
Defined.

Lemma base_resolver_ctor_query_witness :
  query_protocol (query_ (self (base_resolver_ctor 0%nat "localhost" "80" 5000 ipv6 32 100))) ≠ None.
Proof.
  intros Hn. apply (base_resolver_ctor_query 0%nat "localhost" "80" 5000 ipv6 32 100) in Hn; done.
Defined.
