(* ===== verification/HttpSocket.v ===== *)
(** * [http::base_socket]: HTTP requests over a stream

    Models stream/http_socket.hpp and stream/impl/http_socket.ipp: [send_request], which
    feeds the serializer's output to [write_some], [recv_response], which feeds what
    [read_some] brings to the parser through a flat buffer, and [perform].  The stream is
    any implementation of [HttpStream]; the encrypted stream is shown to be one.
    Boost.Beast's serializer, parser and buffer are parameters ([Beast]). *)

From S2P Require Import Prelude ErrorCode TimedBase BaseSocket StreamSocket SslSocket.
From Stdlib Require Import Strings.Byte.
Open Scope sc_scope.

(** The template parameter [Stream]: the overloads of [write_some] and [read_some] that
    take a deadline, the timeout, the clock and [is_open]. *)
Class HttpStream (W : Type) := {
  hs_write_some : list byte → Z → W → W * (Z * error_code);
  hs_read_some : nat → Z → W → W * (list byte * error_code);
  hs_io_timeout : W → Z;
  hs_now : W → Z;
  hs_is_open : W → bool;
  (** the bytes accepted for the peer so far *)
  hs_sent : W → list byte
}.

(** What a stream promises of [write_some]: it accepts a prefix of the buffers and
    returns its length. *)
Class HttpStreamLaws (W : Type) `{HttpStream W} := {
  hs_write_count bs dl w : 0 ≤ (hs_write_some bs dl w).2.1 ≤ Z.of_nat (length bs);
  hs_write_accepts bs dl w :
    hs_sent (hs_write_some bs dl w).1 = hs_sent w ++ take (Z.to_nat (hs_write_some bs dl w).2.1) bs
}.

(** Boost.Beast: the request serializer, the response parser and the flat buffer. *)
Class Beast (Rq Rsp Sr Ps B : Type) := {
  sr_new : Rq → Sr;
  sr_is_done : Sr → bool;
  sr_next : Sr → Sr * (error_code + list byte);
  sr_consume : Z → Sr → Sr;
  ps_new : Z → Z → bool → Ps;
  ps_is_done : Ps → bool;
  ps_got_some : Ps → bool;
  ps_put : list byte → Ps → Ps * (Z * error_code);
  ps_put_eof : Ps → Ps * error_code;
  ps_get : Ps → Rsp;
  fb_new : Z → B;
  fb_max_size : B → Z;
  fb_prepare : Z → B → option B;
  fb_commit : list byte → B → B;
  fb_consume : Z → B → B;
  fb_data : B → list byte;
  buffer_overflow : error_code;
  end_of_stream : error_code;
  need_more : error_code;
  (** the bytes a serializer has still to give out, the bytes a parser has taken in *)
  sr_rest : Sr → list byte;
  ps_fed : Ps → list byte
}.

(** [kHeaderLimit], [kBodyLimit]. *)
Definition kHeaderLimit : Z := 2 ^ 20.
Definition kBodyLimit : Z := 10 * 2 ^ 20.

(** Documented behaviour of Beast: [next] visits a non-empty part of what is to be sent
    or reports an error; [put] takes in a prefix of the data and returns its length, of
    whatever size what it leaves; the buffer gives out room up to its maximal size. *)
Class BeastLaws (Rq Rsp Sr Ps B : Type) `{Beast Rq Rsp Sr Ps B} := {
  sr_done_rest s : sr_is_done s = true ↔ sr_rest s = [];
  sr_next_rest s : sr_rest (sr_next s).1 = sr_rest s;
  sr_next_visits s bs : sr_rest s ≠ [] → (sr_next s).2 = inr bs →
    bs ≠ [] ∧ ∃ tl, sr_rest s = bs ++ tl;
  sr_next_fails s ec : (sr_next s).2 = inl ec → ec_failed ec = true;
  sr_consume_rest n s : 0 ≤ n → sr_rest (sr_consume n s) = drop (Z.to_nat n) (sr_rest s);
  ps_put_count d p : 0 ≤ (ps_put d p).2.1 ≤ Z.of_nat (length d);
  ps_put_fed d p : ps_fed (ps_put d p).1 = ps_fed p ++ take (Z.to_nat (ps_put d p).2.1) d;
  ps_eof_fed p : ps_fed (ps_put_eof p).1 = ps_fed p;
  ps_eof_done p : ec_failed (ps_put_eof p).2 = false → ps_is_done (ps_put_eof p).1 = true;
  ps_new_fed h b e : ps_fed (ps_new h b e) = [];
  fb_new_max m : fb_max_size (fb_new m) = m;
  fb_prepare_ok n b : 0 ≤ n → Z.of_nat (length (fb_data b)) + n ≤ fb_max_size b →
    ∃ b', fb_prepare n b = Some b' ∧ fb_data b' = fb_data b ∧ fb_max_size b' = fb_max_size b;
  fb_commit_data d b : fb_data (fb_commit d b) = fb_data b ++ d;
  fb_commit_max d b : fb_max_size (fb_commit d b) = fb_max_size b;
  fb_consume_data n b : 0 ≤ n → fb_data (fb_consume n b) = drop (Z.to_nat n) (fb_data b);
  fb_consume_max n b : fb_max_size (fb_consume n b) = fb_max_size b;
  beast_errors : ec_failed buffer_overflow = true ∧ ec_failed end_of_stream = true ∧ ec_failed need_more = true
}.

(** The members of [http::base_socket]. *)
Record http_socket (W B : Type) := mk_http { stream_ : W; buffer_ : B }.
Arguments mk_http {W B}.
Arguments stream_ {W B}.
Arguments buffer_ {W B}.

Section HttpSocket.
Context {W Rq Rsp Sr Ps B : Type} `{HttpStream W, Beast Rq Rsp Sr Ps B, pl : Platform}.
Implicit Types (w : W) (ec : error_code) (deadline : Z).

(** The constructor, over a constructed stream. *)
Definition http_socket_ctor w : http_socket W B :=
  mk_http w (fb_new (kBodyLimit + kHeaderLimit)).

Definition http_next_layer (h : http_socket W B) : W := stream_ h.
Definition http_is_open (h : http_socket W B) : bool := hs_is_open (http_next_layer h).

(** The loop of [send_request]; [fuel] bounds its rounds, [None] is a run that needs
    more of them. *)
Fixpoint send_loop (fuel : nat) (serializer : Sr) ec deadline w : option (W * error_code) :=
  match fuel with
  | O => None
  | S fuel =>
      if sr_is_done serializer then Some (w, ec)
      else
        let '(serializer, visit) := sr_next serializer in
        let '(w, n_bytes, ec) :=
          match visit with
          | inl err => (w, 0, err)
          | inr buffers => let '(w, (n, err)) := hs_write_some buffers deadline w in (w, n, err)
          end in
        let serializer := if negb (n_bytes =? 0) then sr_consume n_bytes serializer else serializer in
        if ec_failed ec then Some (w, ec) else send_loop fuel serializer ec deadline w
  end.

(** [send_request(request, ec, deadline)]. *)
Definition send_request (fuel : nat) (request : Rq) ec deadline w : option (W * error_code) :=
  send_loop fuel (sr_new request) ec deadline w.

(** The loop of [recv_response(parser, buffer, ec, deadline)]. *)
Fixpoint recv_loop (fuel : nat) (parser : Ps) (buffer : B) ec deadline w
    : option (Ps * B * error_code * W) :=
  match fuel with
  | O => None
  | S fuel =>
      if ps_is_done parser then Some (parser, buffer, ec, w)
      else
        let read_size := Z.min 65536 ((fb_max_size buffer -u Z.of_nat (length (fb_data buffer))) -u 1) in
        match fb_prepare read_size buffer with
        | None => Some (parser, buffer, buffer_overflow, w)
        | Some buffer =>
            let '(w, (data, ec)) := hs_read_some (Z.to_nat read_size) deadline w in
            let '(parser, ec, continue) :=
              if decide (ec = asio_eof) then
                if ps_got_some parser then
                  let '(parser, ec) := ps_put_eof parser in (parser, ec, negb (ec_failed ec))
                else (parser, end_of_stream, false)
              else (parser, ec, false) in
            if continue : bool then recv_loop fuel parser buffer ec deadline w
            else if ec_failed ec then Some (parser, buffer, ec, w)
            else
              let buffer := fb_commit data buffer in
              let '(parser, (n_bytes, ec)) := ps_put (fb_data buffer) parser in
              let buffer := fb_consume n_bytes buffer in
              if ec_failed ec && negb (bool_decide (ec = need_more)) then Some (parser, buffer, ec, w)
              else recv_loop fuel parser buffer ec deadline w
        end
  end.

(** [recv_response(ec, deadline)]: the response, [ec] and the object. *)
Definition recv_response (fuel : nat) ec deadline (h : http_socket W B)
    : option (option Rsp * error_code * http_socket W B) :=
  let parser := ps_new kHeaderLimit kBodyLimit true in
  let buffer := fb_consume (Z.of_nat (length (fb_data (buffer_ h)))) (buffer_ h) in
  match recv_loop fuel parser buffer ec deadline (stream_ h) with
  | None => None
  | Some (parser, buffer, ec, w) =>
      Some (if ec_failed ec then None else Some (ps_get parser), ec, mk_http w buffer)
  end.

(** [perform(request, ec, deadline)]. *)
Definition perform (fuel : nat) (request : Rq) ec deadline (h : http_socket W B)
    : option (option Rsp * error_code * http_socket W B) :=
  match send_request fuel request ec deadline (stream_ h) with
  | None => None
  | Some (w, ec) =>
      let h := mk_http w (buffer_ h) in
      if ec_failed ec then Some (None, ec, h) else recv_response fuel ec deadline h
  end.

(** [perform(request, ec, timeout)] and [perform(request, ec)]. *)
Definition perform_timeout (fuel : nat) (request : Rq) ec (timeout : Z) (h : http_socket W B) :=
  perform fuel request ec (hs_now (stream_ h) +i timeout) h.

Definition perform_default (fuel : nat) (request : Rq) ec (h : http_socket W B) :=
  perform_timeout fuel request ec (hs_io_timeout (stream_ h)) h.

(** [perform(request)], throwing. *)
Definition perform_throw (fuel : nat) (request : Rq) (h : http_socket W B)
    : option (outcome Rsp * http_socket W B) :=
  match perform_default fuel request ec_ok h with
  | None => None
  | Some (response, ec, h) =>
      Some (if ec_failed ec then Throw (mk_se ec "")
            else match response with
                 | None => Throw (mk_se operation_aborted "")
                 | Some r => Normal r
                 end, h)
  end.

End HttpSocket.

(** [https_client]: the encrypted stream as a stream for HTTP.  With a deadline its calls
    never throw. *)
#[export] Instance ssl_http_stream {K E G} `{AsioSocket K E, tm : AsioTimer, pl : Platform, SslLayer K G} :
    HttpStream (ssl_stream K G) := {|
  hs_write_some bs dl s :=
    match ssl_write_some bs (Deadline dl) s with
    | (s, Normal r) => (s, r)
    | (s, Throw e) => (s, (0, se_code e))
    end;
  hs_read_some n dl s :=
    match ssl_read_some n (Deadline dl) s with
    | (s, Normal r) => (s, r)
    | (s, Throw e) => (s, ([], se_code e))
    end;
  hs_io_timeout := ssl_io_timeout;
  hs_now := ssl_now;
  hs_is_open := ssl_is_open;
  hs_sent := ssl_accepted
|}.

#[export] Instance ssl_http_stream_laws {K E G} `{AsioSocket K E, tm : AsioTimer, pl : Platform,
    sl : SslLayer K G, !SslLayerLaws K G} : HttpStreamLaws (ssl_stream K G).
Proof.
  split; intros bs dl s; simpl;
    destruct (ssl_write_some_deadline bs dl s) as (s' & n & ec & -> & _ & Hn & Ha & _); done.
Qed.

(** What the peer does: [hp_input] are the bytes it is going to send.  A read takes some of
    them, in order, as many as its buffer holds at most, a successful one at least one
    unless the buffer is empty; the end of the stream brings none, while
    a read that fails otherwise may lose what it took; writing does not change them; and a
    successful write accepts something. *)
Class HttpPeer (W : Type) `{HttpStream W} := {
  hp_input : W → list byte;
  hp_read n dl w : let '(w', (data, ec)) := hs_read_some n dl w in
    hp_input w = data ++ hp_input w' ∧ (length data ≤ n)%nat ∧ (ec = asio_eof → data = []) ∧
    (ec_failed ec = false → (0 < n)%nat → data ≠ []);
  hp_read_sent n dl w : hs_sent (hs_read_some n dl w).1 = hs_sent w;
  hp_write_input bs dl w : hp_input (hs_write_some bs dl w).1 = hp_input w;
  hp_write_progress bs dl w :
    bs ≠ [] → ec_failed (hs_write_some bs dl w).2.2 = false → 0 < (hs_write_some bs dl w).2.1
}.

Section Lemmas.
Context {W Rq Rsp Sr Ps B : Type}.
Context `{HttpStream W, !HttpStreamLaws W, !HttpPeer W, bb : Beast Rq Rsp Sr Ps B,
  !BeastLaws Rq Rsp Sr Ps B, pl : Platform}.
Implicit Types (w : W) (ec : error_code) (dl : Z) (p : Ps) (b : B) (s : Sr).

Lemma sr_not_done s : sr_rest s ≠ [] → sr_is_done s = false.
Proof. intros Hne. destruct (sr_is_done s) eqn:E; [|done]. by apply sr_done_rest in E. Qed.

(** One write of a part of the rest is progress on the rest. *)
Lemma write_step s bs tl dl w :
  sr_rest s = bs ++ tl →
  let r := hs_write_some bs dl w in
  let s' := if negb (r.2.1 =? 0) then sr_consume r.2.1 s else s in
  hs_sent r.1 = hs_sent w ++ take (Z.to_nat r.2.1) (sr_rest s) ∧
  sr_rest s' = drop (Z.to_nat r.2.1) (sr_rest s) ∧
  (Z.to_nat r.2.1 ≤ length (sr_rest s))%nat.
Proof.
  intros Hr r s'. pose proof (hs_write_count bs dl w) as Hc. pose proof (hs_write_accepts bs dl w) as Ha.
  fold r in Hc, Ha. split_and!.
  - rewrite Ha, Hr. by rewrite take_app_le by lia.
  - unfold s'. destruct (r.2.1 =? 0) eqn:E; bool_prop; simpl.
    + by rewrite E, drop_0.
    + apply sr_consume_rest; lia.
  - rewrite Hr, length_app. lia.
Qed.

(** [send_request] ends, and what it has sent is a prefix of the request, all of it when
    there is no error. *)
Lemma send_loop_spec fuel s ec dl w :
  (length (sr_rest s) < fuel)%nat →
  ∃ w' ec' k, send_loop fuel s ec dl w = Some (w', ec') ∧
    hs_sent w' = hs_sent w ++ take k (sr_rest s) ∧ hp_input w' = hp_input w ∧
    (k ≤ length (sr_rest s))%nat ∧
    (ec_failed ec' = false → k = length (sr_rest s)).
Proof.
  revert s ec w. induction fuel as [|fuel IH]; intros s ec w Hf; [lia|]. cbn [send_loop].
  destruct (decide (sr_rest s = [])) as [Hnil|Hne].
  - rewrite (proj2 (sr_done_rest s)) by done. exists w, ec, 0%nat. rewrite Hnil. simpl. by rewrite app_nil_r.
  - rewrite sr_not_done by done.
    pose proof (sr_next_rest s) as Hrest. pose proof (sr_next_fails s) as Hfl. pose proof (sr_next_visits s) as Hv.
    destruct (sr_next s) as [s1 [err|bs]]; cbn [fst snd] in *.
    + rewrite (Hfl err) by done. exists w, err, 0%nat. simpl. rewrite app_nil_r, (Hfl err) by done.
      split_and!; (done || lia).
    + destruct (Hv bs Hne eq_refl) as [Hbs [tl Htl]]. rewrite <- Hrest in Htl.
      destruct (write_step s1 bs tl dl w Htl) as (Hs & Hr & Hn).
      pose proof (hp_write_input bs dl w) as Hi. pose proof (hp_write_progress bs dl w Hbs) as Hpos.
      destruct (hs_write_some bs dl w) as [w1 [n err]]. cbn [fst snd] in *. rewrite Hrest in *.
      destruct (ec_failed err) eqn:Ee.
      * exists w1, err, (Z.to_nat n). by rewrite Ee.
      * specialize (Hpos eq_refl). set (s2 := if negb (n =? 0) then _ else _) in *.
        destruct (IH s2 err w1) as (w' & ec' & k & E & Es & Ei & Hk & Hok).
        { rewrite Hr, length_drop. assert (length (sr_rest s) ≠ 0%nat) by (by destruct (sr_rest s)). lia. }
        rewrite Hr, length_drop in *. exists w', ec', (Z.to_nat n + k)%nat. split; [done|]. split_and!.
        -- rewrite Es, Hs, <- app_assoc. by rewrite take_take_drop.
        -- by rewrite Ei.
        -- lia.
        -- intros Hec. rewrite Hok by done. lia.
Qed.

(** The limit of the buffer. *)
Definition kBufferLimit : Z := kBodyLimit + kHeaderLimit.

(** The buffer [recv_response] works with: of the constructor's size, never quite full. *)
Definition buffer_ok b : Prop :=
  fb_max_size b = kBufferLimit ∧ Z.of_nat (length (fb_data b)) < kBufferLimit.

(** The room [recv_response] asks for is always there, since it leaves out the last byte:
    its handler of [std::length_error] is dead code, and a buffer with one byte left is
    full for it. *)
Lemma buffer_prepare b :
  buffer_ok b →
  let read_size := Z.min 65536 ((fb_max_size b -u Z.of_nat (length (fb_data b))) -u 1) in
  read_size = Z.min 65536 (kBufferLimit - 1 - Z.of_nat (length (fb_data b))) ∧ 0 ≤ read_size ∧
  ∃ b', fb_prepare read_size b = Some b' ∧ fb_data b' = fb_data b ∧ fb_max_size b' = fb_max_size b.
Proof.
  intros [Hm Hl] read_size. unfold read_size, kBufferLimit, kBodyLimit, kHeaderLimit in *.
  rewrite (u64_id (fb_max_size b - _)), u64_id by lia. split_and!; [lia..|].
  destruct (fb_prepare_ok (Z.min 65536 (fb_max_size b - Z.of_nat (length (fb_data b)) - 1)) b) as (b' & Hb'); [lia..|].
  by exists b'.
Qed.

(** The parsers that [recv_response] can have: its own, after some [put]s. *)
Inductive parsing : Ps → Prop :=
| parsing_new : parsing (ps_new kHeaderLimit kBodyLimit true)
| parsing_put p d : parsing p → parsing (ps_put d p).1.

(** [recv_response] goes on after a [put] that ended with [ec]. *)
Definition goes_on ec : bool := negb (ec_failed ec && negb (bool_decide (ec = need_more))).

(** On the peer's bytes [input] the parser comes to a point at which it takes nothing of a
    buffer that is full and is not done: there is no room to read more, and [recv_response]
    offers it the same bytes again. *)
Definition parser_stalls (input : list byte) : Prop :=
  ∃ p d, parsing p ∧ ps_is_done p = false ∧ (ps_fed p ++ d) `prefix_of` input ∧
    Z.of_nat (length d) = kBufferLimit - 1 ∧ (ps_put d p).2.1 = 0 ∧ goes_on (ps_put d p).2.2 = true.

(** It takes as many bytes as the buffer holds. *)
Lemma short_input_no_stall input : Z.of_nat (length input) < kBufferLimit - 1 → ¬ parser_stalls input.
Proof.
  intros Hl (p & d & _ & _ & Hpre & Hd & _). apply prefix_length in Hpre. rewrite length_app in Hpre. lia.
Qed.

(** The part of a round of [recv_response] after a read: what was read is committed, offered
    to the parser, and what the parser took is consumed. *)
Lemma put_round p b b1 data w w1 :
  buffer_ok b → fb_data b1 = fb_data b → fb_max_size b1 = fb_max_size b →
  Z.of_nat (length (fb_data b)) + Z.of_nat (length data) < kBufferLimit → hp_input w = data ++ hp_input w1 →
  let d := fb_data (fb_commit data b1) in
  let r := ps_put d p in
  let b' := fb_consume r.2.1 (fb_commit data b1) in
  d = fb_data b ++ data ∧ buffer_ok b' ∧ fb_max_size b' = fb_max_size b ∧
  0 ≤ r.2.1 ∧ Z.of_nat (length (fb_data b')) = Z.of_nat (length d) - r.2.1 ∧
  ps_fed r.1 ++ fb_data b' ++ hp_input w1 = ps_fed p ++ fb_data b ++ hp_input w.
Proof.
  intros [Hm Hl] Hd1 Hm1 Hlen Hin d r b'.
  assert (Hd : d = fb_data b ++ data) by (unfold d; by rewrite fb_commit_data, Hd1).
  assert (Hmax : fb_max_size b' = fb_max_size b) by (unfold b'; by rewrite fb_consume_max, fb_commit_max).
  pose proof (ps_put_count d p) as Hc. pose proof (ps_put_fed d p) as Hf. fold r in Hc, Hf.
  assert (Hdata : fb_data b' = drop (Z.to_nat r.2.1) d) by (apply fb_consume_data; lia).
  assert (Hlb : Z.of_nat (length (fb_data b')) = Z.of_nat (length d) - r.2.1) by (rewrite Hdata, length_drop; lia).
  split_and!; [done|split; [congruence|rewrite Hlb, Hd, length_app; lia]|done|lia|done|].
  rewrite Hdata, Hf, <- app_assoc, (app_assoc (take _ _)), take_drop, Hd, Hin. by rewrite <- app_assoc.
Qed.

(** What [recv_response] does when it ends: it has handed every byte the peer sent to the
    parser, in order and once, up to those still in the buffer and those a failed read
    lost; and without an error nothing is lost and the parser is done. *)
Lemma recv_loop_sound fuel p b ec dl w p' b' ec' w' :
  buffer_ok b → recv_loop fuel p b ec dl w = Some (p', b', ec', w') →
  (∃ lost, ps_fed p' ++ fb_data b' ++ lost ++ hp_input w' = ps_fed p ++ fb_data b ++ hp_input w ∧
    (ec_failed ec' = false → ps_is_done p' = true ∧ lost = [])) ∧
  hs_sent w' = hs_sent w ∧
  fb_max_size b' = fb_max_size b ∧ (length (hp_input w') ≤ length (hp_input w))%nat.
Proof.
  revert p b ec w. induction fuel as [|fuel IH]; intros p b ec w Hb; [done|]. cbn [recv_loop].
  destruct (ps_is_done p) eqn:Ed; [by intros [= <- <- <- <-]; split; [exists []|]|].
  destruct (buffer_prepare b Hb) as (Hrs & Hpos & b1 & -> & Hd1 & Hm1).
  set (rs := Z.min _ _) in *.
  pose proof (hp_read (Z.to_nat rs) dl w) as Hr. pose proof (hp_read_sent (Z.to_nat rs) dl w) as Hs.
  destruct (hs_read_some (Z.to_nat rs) dl w) as [w1 [data err]]. cbn [fst] in Hs.
  destruct Hr as (Hin & Hlen & Heof & _).
  case_decide as Eeof; [specialize (Heof Eeof); subst data; simpl in Hin|].
  - destruct (ps_got_some p).
    + pose proof (ps_eof_fed p) as Hef. pose proof (ps_eof_done p) as Hed.
      destruct (ps_put_eof p) as [p1 ec1]. cbn [fst snd] in *.
      destruct (ec_failed ec1) eqn:Ee1; cbn [negb].
      * intros [= <- <- <- <-]. rewrite Ee1, Hef, Hd1, Hin, Hm1. by split; [exists []|].
      * destruct fuel as [|fuel]; [done|]. cbn [recv_loop]. rewrite (Hed eq_refl). intros [= <- <- <- <-].
        rewrite Hef, Hd1, Hin, Hm1, (Hed eq_refl). by split; [exists []|].
    + destruct beast_errors as (_ & He & _). rewrite He. intros [= <- <- <- <-].
      rewrite He, Hd1, Hin, Hm1. by split; [exists []|].
  - destruct (ec_failed err) eqn:Ee.
    { intros [= <- <- <- <-]. rewrite Ee, Hd1, Hin, Hm1, length_app. split; [by exists data|]. split_and!; (done || lia). }
    destruct (put_round p b b1 data w w1 Hb Hd1 Hm1 ltac:(lia) Hin) as (_ & Hb' & Hm' & _ & _ & Hacc).
    destruct (ps_put (fb_data (fb_commit data b1)) p) as [p1 [n ec1]]. cbn [fst snd] in *.
    assert (Hl : (length (hp_input w1) ≤ length (hp_input w))%nat) by (rewrite Hin, length_app; lia).
    destruct (ec_failed ec1 && negb (bool_decide (ec1 = need_more))) eqn:Estop.
    + apply andb_prop in Estop as [Estop _]. intros [= <- <- <- <-]. rewrite Estop, Hm', <- Hacc. by split; [exists []|].
    + intros E. destruct (IH _ _ _ _ Hb' E) as ((lost & Ea & Hok) & Es & Em & Ei).
      rewrite Hacc in Ea. rewrite Es, Em, Hm', Hs. split; [by exists lost|]. split_and!; (done || lia).
Qed.

(** [recv_response] ends, unless the parser stalls: every other round takes a byte from the
    peer or from the buffer. *)
Lemma recv_loop_returns fuel input p b ec dl w :
  buffer_ok b → parsing p → ps_fed p ++ fb_data b ++ hp_input w = input →
  (Datatypes.S (2 * length (hp_input w) + length (fb_data b)) < fuel)%nat →
  is_Some (recv_loop fuel p b ec dl w) ∨ parser_stalls input.
Proof.
  revert p b ec w. induction fuel as [|fuel IH]; intros p b ec w Hb Hp Hacc0 Hf; [lia|]. cbn [recv_loop].
  destruct (ps_is_done p) eqn:Ed; [by left|].
  destruct (buffer_prepare b Hb) as (Hrs & Hpos & b1 & -> & Hd1 & Hm1).
  set (rs := Z.min _ _) in *.
  pose proof (hp_read (Z.to_nat rs) dl w) as Hr. destruct (hs_read_some (Z.to_nat rs) dl w) as [w1 [data err]].
  destruct Hr as (Hin & Hlen & Heof & Hok). case_decide as Eeof.
  - destruct (ps_got_some p).
    + pose proof (ps_eof_done p) as Hed. destruct (ps_put_eof p) as [p1 ec1]. cbn [fst snd] in *.
      destruct (ec_failed ec1); cbn [negb]; [by left|].
      destruct fuel as [|fuel]; [lia|]. left. cbn [recv_loop]. by rewrite (Hed eq_refl).
    + destruct beast_errors as (_ & He & _). rewrite He. by left.
  - destruct (ec_failed err) eqn:Ee; [by left|]. specialize (Hok eq_refl).
    destruct (put_round p b b1 data w w1 Hb Hd1 Hm1 ltac:(lia) Hin) as (Hd & Hb' & Hm' & Hn & Hl' & Hacc).
    pose proof (parsing_put p (fb_data (fb_commit data b1)) Hp) as Hp1.
    destruct (goes_on (ps_put (fb_data (fb_commit data b1)) p).2.2) eqn:Eon.
    2:{ unfold goes_on in Eon. apply negb_false_iff in Eon.
        destruct (ps_put (fb_data (fb_commit data b1)) p) as [p1 [n ec1]]. cbn [fst snd] in *. rewrite Eon. by left. }
    destruct (decide (data = [] ∧ (ps_put (fb_data (fb_commit data b1)) p).2.1 = 0)) as [[-> Hz]|Hprog].
    + right. exists p, (fb_data (fb_commit [] b1)). split_and!; try done.
      * exists (hp_input w1). by rewrite Hd, app_nil_r, <- Hacc0, Hin, <- app_assoc.
      * destruct (decide (0 < rs)) as [Hrs0|Hrs0]; [by destruct (Hok ltac:(lia))|].
        rewrite Hd, app_nil_r. destruct Hb. lia.
    + unfold goes_on in Eon. apply negb_true_iff in Eon.
      destruct (ps_put (fb_data (fb_commit data b1)) p) as [p1 [n ec1]]. cbn [fst snd] in *. rewrite Eon.
      apply IH; [done..|by rewrite Hacc|]. rewrite Hin, length_app in Hf. rewrite Hd, length_app in Hl'.
      destruct data; [|simpl in *; lia]. assert (n ≠ 0) by tauto. simpl in *. lia.
Qed.

Lemma cleared_buffer b : fb_max_size b = kBodyLimit + kHeaderLimit →
  buffer_ok (fb_consume (Z.of_nat (length (fb_data b))) b) ∧
  fb_data (fb_consume (Z.of_nat (length (fb_data b))) b) = [].
Proof.
  intros Hm. assert (Hd : fb_data (fb_consume (Z.of_nat (length (fb_data b))) b) = []).
  { rewrite fb_consume_data by lia. by rewrite Nat2Z.id, drop_all. }
  split; [|done]. split; [by rewrite fb_consume_max|]. rewrite Hd. done.
Qed.

(** The fuel that is enough for an exchange: a round of [send_request] for each byte of the
    request, two of [recv_response] for each byte the peer sends, and two more. *)
Definition exchange_fuel (fuel : nat) (request : Rq) w : Prop :=
  (length (sr_rest (sr_new request)) < fuel)%nat ∧ (Datatypes.S (2 * length (hp_input w)) < fuel)%nat.

(** [perform] returns, unless the parser stalls. *)
Lemma perform_returns fuel (request : Rq) ec dl (h : http_socket W B) :
  fb_max_size (buffer_ h) = kBodyLimit + kHeaderLimit → exchange_fuel fuel request (stream_ h) →
  is_Some (perform fuel request ec dl h) ∨ parser_stalls (hp_input (stream_ h)).
Proof.
  intros Hm [Hf Hfi]. unfold perform, send_request.
  destruct (send_loop_spec fuel (sr_new request) ec dl (stream_ h) Hf) as (w1 & ec1 & k & -> & _ & Ei & _ & _).
  destruct (ec_failed ec1); [by left|]. unfold recv_response. cbn [buffer_ stream_].
  destruct (cleared_buffer (buffer_ h) Hm) as [Hb' Hd]. set (b1 := fb_consume _ _) in *.
  destruct (recv_loop_returns fuel (hp_input (stream_ h)) (ps_new kHeaderLimit kBodyLimit true) b1 ec1 dl w1 Hb')
    as [[[[[p b] ec'] w'] ->]|]; [by constructor|by rewrite ps_new_fed, Hd, Ei| |by left|by right].
  rewrite Hd, Ei. simpl. lia.
Qed.

(** What [perform] does to the object; it can be used for another request. *)
Lemma perform_sound fuel (request : Rq) ec dl (h : http_socket W B) r ec' h' :
  fb_max_size (buffer_ h) = kBodyLimit + kHeaderLimit → (length (sr_rest (sr_new request)) < fuel)%nat →
  perform fuel request ec dl h = Some (r, ec', h') →
  (r = None ↔ ec_failed ec' = true) ∧
  (∀ response, r = Some response →
     hs_sent (stream_ h') = hs_sent (stream_ h) ++ sr_rest (sr_new request) ∧
     ∃ p, response = ps_get p ∧ ps_is_done p = true ∧
       hp_input (stream_ h) = ps_fed p ++ fb_data (buffer_ h') ++ hp_input (stream_ h')) ∧
  fb_max_size (buffer_ h') = kBodyLimit + kHeaderLimit ∧
  (length (hp_input (stream_ h')) ≤ length (hp_input (stream_ h)))%nat.
Proof.
  intros Hm Hf. unfold perform, send_request.
  destruct (send_loop_spec fuel (sr_new request) ec dl (stream_ h) Hf) as (w1 & ec1 & k & -> & Es & Ei & _ & Hok).
  destruct (ec_failed ec1) eqn:Ee1.
  { intros [= <- <- <-]. cbn [stream_ buffer_]. by rewrite Ei. }
  unfold recv_response. cbn [buffer_ stream_].
  destruct (cleared_buffer (buffer_ h) Hm) as [Hb' Hd]. set (b1 := fb_consume _ _) in *.
  set (p0 := ps_new _ _ _). destruct (recv_loop _ _ _ _ _ _) as [[[[p b] ec2] w2]|] eqn:Er; [|done].
  apply recv_loop_sound in Er as ((lost & Ea & Hdone) & Es' & Hm' & Hl); [|done].
  intros [= <- <- <-]. split; [by destruct (ec_failed ec2)|]. cbn [stream_ buffer_].
  split; [|rewrite Hm', <- Ei; split; [apply Hb'|done]].
  intros response. destruct (ec_failed ec2) eqn:Ee; [done|]. intros [= <-]. split.
  - by rewrite Es', Es, (Hok eq_refl), firstn_all.
  - destruct (Hdone eq_refl) as [? ->]. exists p. split; [done|]. split; [done|].
    simpl in Ea. rewrite Ea, Hd, Ei. unfold p0. by rewrite ps_new_fed.
Qed.

End Lemmas.

Section Claims.
Context {W Rq Rsp Sr Ps B : Type}.
Context `{HttpStream W, !HttpStreamLaws W, !HttpPeer W, bb : Beast Rq Rsp Sr Ps B,
  !BeastLaws Rq Rsp Sr Ps B, pl : Platform}.
Implicit Types (h : http_socket W B) (ec : error_code) (dl : Z).

(** [send_request] returns after at most as many rounds as the request has bytes, and
    has then put on the wire a prefix of the serialized request, each byte once and in
    order, however the stream split its writes; the whole request when it reports no
    error. *)
Theorem send_request_complete fuel (request : Rq) ec dl (w : W) :
  (length (sr_rest (sr_new request)) < fuel)%nat →
  ∃ w' ec' k, send_request fuel request ec dl w = Some (w', ec') ∧
    hs_sent w' = hs_sent w ++ take k (sr_rest (sr_new request)) ∧
    (ec_failed ec' = false → hs_sent w' = hs_sent w ++ sr_rest (sr_new request)).
Proof.
  intros Hf. destruct (send_loop_spec fuel (sr_new request) ec dl w Hf) as (w' & ec' & k & E & Es & _ & Hk & Hok).
  exists w', ec', k. split; [exact E|]. split; [done|]. intros Hec. by rewrite Es, (Hok Hec), firstn_all.
Qed.

(** C18: [perform] returns, after at most as many rounds as the request has bytes and twice
    as many as the peer sends, unless the parser comes to take nothing of a full buffer
    without being done; when it returns, it has a response exactly when it reports no
    error, and then the whole request has been sent and the response is that of a parser
    that is done, which was fed the bytes the peer sent from the start of this call on, in
    order and without gaps; whatever the outcome, the buffer keeps its limit and the object
    can be used for another request. *)
Theorem perform_outcome fuel (request : Rq) ec dl h :
  fb_max_size (buffer_ h) = kBodyLimit + kHeaderLimit → exchange_fuel fuel request (stream_ h) →
  (is_Some (perform fuel request ec dl h) ∨ parser_stalls (hp_input (stream_ h))) ∧
  ∀ r ec' h', perform fuel request ec dl h = Some (r, ec', h') →
    (r = None ↔ ec_failed ec' = true) ∧
    (∀ response, r = Some response →
       hs_sent (stream_ h') = hs_sent (stream_ h) ++ sr_rest (sr_new request) ∧
       ∃ p, response = ps_get p ∧ ps_is_done p = true ∧
         hp_input (stream_ h) = ps_fed p ++ fb_data (buffer_ h') ++ hp_input (stream_ h')) ∧
    fb_max_size (buffer_ h') = kBodyLimit + kHeaderLimit ∧
    (length (hp_input (stream_ h')) ≤ length (hp_input (stream_ h)))%nat.
Proof.
  intros Hm Hf. split; [by apply perform_returns|]. intros r ec' h'. apply perform_sound; [done|apply Hf].
Qed.

(** The exception is the code's own: a parser that keeps asking for more ([stuck]) while the
    buffer is full is offered the same bytes for ever, the reads in between being of no
    bytes, which succeed at once.  The [buffer_overflow] that the code means to report then
    cannot occur. *)
Theorem recv_response_spins (stuck : Ps → Prop) fuel p b ec dl (w : W) :
  (∀ p, stuck p → ps_is_done p = false ∧ stuck (ps_put (fb_data b) p).1 ∧
     (ps_put (fb_data b) p).2.1 = 0 ∧ goes_on (ps_put (fb_data b) p).2.2 = true) →
  (∀ w, ec_failed (hs_read_some 0 dl w).2.2 = false) →
  stuck p → fb_max_size b = kBufferLimit → Z.of_nat (length (fb_data b)) = kBufferLimit - 1 →
  recv_loop fuel p b ec dl w = None.
Proof.
  intros Hst Hrd. revert p b ec w Hst. induction fuel as [|fuel IH]; intros p b ec w Hst Hp Hm Hl; [done|].
  cbn [recv_loop]. destruct (Hst p Hp) as (-> & Hp1 & Hz & Hon).
  assert (Hb : buffer_ok b) by (split; [done|lia]).
  destruct (buffer_prepare b Hb) as (Hrs & _ & b1 & -> & Hd1 & Hm1). rewrite Hrs, Hl.
  replace (Z.to_nat _) with 0%nat by lia.
  pose proof (hp_read 0 dl w) as Hr. specialize (Hrd w) as Hok.
  destruct (hs_read_some 0 dl w) as [w1 [data err]]. cbn [fst snd] in Hok. destruct Hr as (Hin & Hlen & _).
  destruct data; [|simpl in Hlen; lia]. rewrite decide_False by (intros ->; by vm_compute in Hok). rewrite Hok.
  assert (Hd : fb_data (fb_commit [] b1) = fb_data b) by (by rewrite fb_commit_data, Hd1, app_nil_r).
  rewrite Hd. unfold goes_on in Hon. apply negb_true_iff in Hon.
  destruct (ps_put (fb_data b) p) as [p1 [n ec1]]. cbn [fst snd] in *. subst n. rewrite Hon.
  assert (Hd' : fb_data (fb_consume 0 (fb_commit [] b1)) = fb_data b) by (rewrite fb_consume_data by done; by rewrite Hd).
  apply IH; rewrite ?Hd'; try done. by rewrite fb_consume_max, fb_commit_max, Hm1.
Qed.

(** The throwing [perform] agrees with [perform(request, ec)] under the default
    timeout: it returns that call's response or throws that call's error; its
    [operation_aborted] for a missing response is dead code. *)
Theorem perform_throw_outcome fuel (request : Rq) h :
  match perform_default fuel request ec_ok h, perform_throw fuel request h with
  | Some (r, ec, h1), Some (out, h2) =>
      h1 = h2 ∧
      match out with
      | Normal response => r = Some response ∧ ec_failed ec = false
      | Throw e => r = None ∧ ec_failed ec = true ∧ e = mk_se ec ""
      end
  | None, None => True
  | _, _ => False
  end.
Proof.
  unfold perform_throw. destruct (perform_default fuel request ec_ok h) as [[[r ec] h']|] eqn:E; [|done].
  split; [done|].
  assert (Hr : r = None ↔ ec_failed ec = true).
  { unfold perform_default, perform_timeout, perform in E.
    destruct (send_request _ _ _ _ _) as [[w1 ec1]|]; [|done].
    destruct (ec_failed ec1) eqn:E1; [by simplify_eq; rewrite E1|]. unfold recv_response in E.
    destruct (recv_loop _ _ _ _ _ _) as [[[[p b] ec2] w2]|]; [|done].
    destruct (ec_failed ec2) eqn:E2; simplify_eq; rewrite E2; by split. }
  destruct (ec_failed ec) eqn:Ee.
  - by rewrite (proj2 Hr eq_refl).
  - destruct r as [response|]; [done|]. by specialize (proj1 Hr eq_refl).
Qed.

End Claims.

(** ** Witnesses *)

(** A stream that writes at most two bytes a call and brings at most three. *)
Record toy_http := mk_toy_http { th_sent : list byte; th_input : list byte }.

#[export] Instance toy_http_stream : HttpStream toy_http := {|
  hs_write_some bs _ w :=
    let n := Nat.min 2 (length bs) in
    (mk_toy_http (th_sent w ++ take n bs) (th_input w), (Z.of_nat n, ec_ok));
  hs_read_some n _ w :=
    match n, th_input w with
    | O, _ => (w, ([], ec_ok))
    | _, [] => (w, ([], asio_eof))
    | _, _ => (mk_toy_http (th_sent w) (drop (Nat.min n 3) (th_input w)), (take (Nat.min n 3) (th_input w), ec_ok))
    end;
  hs_io_timeout _ := 5000;
  hs_now _ := 100;
  hs_is_open _ := true;
  hs_sent := th_sent
|}.

#[export] Instance toy_http_stream_laws : HttpStreamLaws toy_http.
Proof.
  split; intros bs dl w; cbn -[Nat.min]; [lia|]. by rewrite Nat2Z.id.
Qed.

#[export, program] Instance toy_http_peer : HttpPeer toy_http := {| hp_input := th_input |}.
Next Obligation.
  intros n dl w. cbn -[Nat.min]. destruct n as [|n]; [by split_and!; try lia|].
  destruct (th_input w) as [|x l] eqn:E.
  - rewrite E. split_and!; (done || (simpl; lia)).
  - cbn -[Nat.min take drop]. rewrite take_drop, length_take. split_and!; [done|lia|done|].
    intros _ _. by destruct n as [|[|n]].
Qed.
Next Obligation. intros [|n] dl w; [done|]. cbn -[Nat.min]. by destruct (th_input w). Qed.
Next Obligation. done. Qed.
Next Obligation. intros [|x [|y bs]] dl w Hne _; cbn; [done|lia|lia]. Qed.

(** A response of two bytes, and a buffer that is a list with a bound. *)
Record toy_buffer := mk_toy_buffer { tb_max : Z; tb_data : list byte }.

Definition toy_put (d p : list byte) : list byte * (Z * error_code) :=
  let n := Nat.min (2 - length p) (length d) in
  (p ++ take n d, (Z.of_nat n, if (length p + n <? 2)%nat then mk_ec cat_misc 101 else ec_ok)).

#[export] Instance toy_beast : Beast (list byte) (list byte) (list byte) (list byte) toy_buffer := {|
  sr_new request := request;
  sr_is_done s := (length s =? 0)%nat;
  sr_next s := (s, inr s);
  sr_consume n s := drop (Z.to_nat n) s;
  ps_new _ _ _ := [];
  ps_is_done p := (2 <=? length p)%nat;
  ps_got_some p := negb (length p =? 0)%nat;
  ps_put := toy_put;
  ps_put_eof p := (p, if (2 <=? length p)%nat then ec_ok else mk_ec cat_misc 102);
  ps_get p := p;
  fb_new m := mk_toy_buffer m [];
  fb_max_size := tb_max;
  fb_prepare n b := if tb_max b <? Z.of_nat (length (tb_data b)) + n then None else Some b;
  fb_commit d b := mk_toy_buffer (tb_max b) (tb_data b ++ d);
  fb_consume n b := mk_toy_buffer (tb_max b) (drop (Z.to_nat n) (tb_data b));
  fb_data := tb_data;
  buffer_overflow := mk_ec cat_misc 103;
  end_of_stream := mk_ec cat_misc 104;
  need_more := mk_ec cat_misc 101;
  sr_rest s := s;
  ps_fed p := p
|}.

#[export] Instance toy_beast_laws : BeastLaws (list byte) (list byte) (list byte) (list byte) toy_buffer.
Proof.
  split; cbn -[Nat.min toy_put kHeaderLimit]; try done.
  - intros [|]; simpl; naive_solver.
  - intros s bs Hne [= <-]. split; [done|]. exists []. by rewrite app_nil_r.
  - intros d p. cbn. lia.
  - intros d p. unfold toy_put. cbn -[Nat.min kHeaderLimit]. by rewrite Nat2Z.id.
  - by intros [|x [|y p]].
  - intros n b Hn Hl. rewrite (proj2 (Z.ltb_ge _ _)) by lia. by exists b.
Qed.

Definition toy_http_client : http_socket toy_http toy_buffer :=
  http_socket_ctor (mk_toy_http [] [x0a; x0b; x0c; x0d]).

Lemma send_request_complete_witness :
  ∃ w', send_request 4 [x01; x02; x03] ec_ok 100 (mk_toy_http [] []) = Some (w', ec_ok) ∧
    hs_sent w' = [x01; x02; x03].
Proof.
  destruct (send_request_complete 4 [x01; x02; x03] ec_ok 100 (mk_toy_http [] [])) as (w' & ec' & k & E & _ & Hs).
  - simpl; lia.
  - vm_compute in E. simplify_eq. eexists. split; [reflexivity|]. apply Hs. reflexivity.
Defined.

Lemma perform_outcome_witness :
  ∃ h', perform 20 [x01; x02; x03] ec_ok 100 toy_http_client = Some (Some [x0a; x0b], ec_ok, h') ∧
    hs_sent (stream_ h') = [x01; x02; x03].
Proof.
  destruct (perform_outcome 20 [x01; x02; x03] ec_ok 100 toy_http_client) as ([[[[r ec'] h'] E]|Hst] & Hr).
  - reflexivity.
  - split; simpl; lia.
  - destruct (Hr _ _ _ E) as (_ & Hs & _).
    vm_compute in E. simplify_eq. eexists. split; [reflexivity|]. destruct (Hs _ eq_refl) as [Hs' _]. exact Hs'.
  - exfalso. revert Hst. apply short_input_no_stall. reflexivity.
Defined.

(** A parser that never takes anything, and its full buffer. *)
Record stuck_parser := mk_stuck { stuck_p : unit }.

#[local] Instance stuck_beast : Beast (list byte) (list byte) (list byte) stuck_parser toy_buffer := {|
  sr_new request := request;
  sr_is_done s := (length s =? 0)%nat;
  sr_next s := (s, inr s);
  sr_consume n s := drop (Z.to_nat n) s;
  ps_new _ _ _ := mk_stuck tt;
  ps_is_done _ := false;
  ps_got_some _ := false;
  ps_put _ p := (p, (0, mk_ec cat_misc 101));
  ps_put_eof p := (p, mk_ec cat_misc 102);
  ps_get _ := [];
  fb_new m := mk_toy_buffer m [];
  fb_max_size := tb_max;
  fb_prepare n b := if tb_max b <? Z.of_nat (length (tb_data b)) + n then None else Some b;
  fb_commit d b := mk_toy_buffer (tb_max b) (tb_data b ++ d);
  fb_consume n b := mk_toy_buffer (tb_max b) (drop (Z.to_nat n) (tb_data b));
  fb_data := tb_data;
  buffer_overflow := mk_ec cat_misc 103;
  end_of_stream := mk_ec cat_misc 104;
  need_more := mk_ec cat_misc 101;
  sr_rest s := s;
  ps_fed _ := []
|}.

#[local] Instance stuck_beast_laws : BeastLaws (list byte) (list byte) (list byte) stuck_parser toy_buffer.
Proof.
  split; cbn; try done.
  - intros [|]; simpl; naive_solver.
  - intros s bs Hne [= <-]. split; [done|]. exists []. by rewrite app_nil_r.
  - intros d _. lia.
  - intros n b Hn Hl. rewrite (proj2 (Z.ltb_ge _ _)) by lia. by exists b.
Qed.

Definition full_buffer : toy_buffer := mk_toy_buffer kBufferLimit (replicate (Z.to_nat (kBufferLimit - 1)) x00).

Lemma recv_response_spins_witness fuel :
  recv_loop (Ps := stuck_parser) fuel (mk_stuck tt) full_buffer ec_ok 100 (mk_toy_http [] []) = None.
Proof.
  apply (recv_response_spins (λ _, True) fuel (mk_stuck tt) full_buffer ec_ok 100 (mk_toy_http [] [])).
  - intros p _. repeat split.
  - intros w. reflexivity.
  - exact I.
  - reflexivity.
  - unfold full_buffer. cbn [fb_data stuck_beast tb_data]. rewrite length_replicate, Z2Nat.id; [reflexivity|done].
Defined.
