(* ===== verification/Connector.v ===== *)
(** * [base_connector]: new sessions to a resolved host

    Models connector/connector.hpp and connector/impl/connector.ipp: the data members and
    their guarded accessors, [new_session] as a function of what its locks and waits give
    it, one round of [resolve_routine], and the specializations of [connect_until].  The
    interleaving of the resolving thread and the callers is in the file ConnectorSystem. *)

From S2P Require Import Prelude ErrorCode TimedBase IoLoop BaseSocket Transfer StreamSocket.
From S2P Require Import DgramSocket SslSocket Resolver.
Open Scope sc_scope.

(** [connect_until(peer_endpoint, until_time)], called at a clock reading: what it promises
    is that it fails with an error code that says so.  [X] is what the connection meets. *)
Class ConnectUntil (X Ep Stream : Type) := {
  connect_until : X → Ep → Z → Z → io_result Stream;
  connect_until_fails x ep until t e :
    connect_until x ep until t = IoThrow e → ec_failed (se_code e) = true
}.

(** The data members, the resolver and the synchronization objects aside. *)
Record connector (Ep : Type) := mk_connector {
  host_ : string;
  port_ : string;
  conn_resolve_timeout_ : Z;
  connect_timeout_ : Z;
  operation_timeout_ : Z;
  endpoints_ : list Ep;
  resolving_thread_running_ : bool;
  resolve_error_ : error_code;
  resolve_needed_ : bool;
  resolve_done_ : bool
}.
Arguments mk_connector {Ep}.
Arguments host_ {Ep}.
Arguments port_ {Ep}.
Arguments conn_resolve_timeout_ {Ep}.
Arguments connect_timeout_ {Ep}.
Arguments operation_timeout_ {Ep}.
Arguments endpoints_ {Ep}.
Arguments resolving_thread_running_ {Ep}.
Arguments resolve_error_ {Ep}.
Arguments resolve_needed_ {Ep}.
Arguments resolve_done_ {Ep}.

(** [shuffle_vector(v)]: a random permutation of the vector, any of them. *)
Definition shuffle_vector {T : Type} (v v' : list T) : Prop := v' ≡ₚ v.

Section Members.
Context {Ep : Type}.
Implicit Types (c : connector Ep).

(** [base_connector(host, port, resolve_timeout, connect_timeout, operation_timeout)]. *)
Definition connector_ctor (host port : string) (resolve_timeout connect_timeout operation_timeout : Z)
    : connector Ep :=
  mk_connector host port resolve_timeout connect_timeout operation_timeout [] true ec_ok true false.

(** [~base_connector()], up to the join. *)
Definition connector_dtor c : connector Ep :=
  mk_connector (host_ c) (port_ c) (conn_resolve_timeout_ c) (connect_timeout_ c) (operation_timeout_ c)
    (endpoints_ c) false (resolve_error_ c) (resolve_needed_ c) (resolve_done_ c).

Definition get_host c : string := host_ c.
Definition get_port c : string := port_ c.
Definition get_target c : string := (get_host c +:+ ":" +:+ get_port c)%string.
Definition get_resolve_timeout c : Z := conn_resolve_timeout_ c.
Definition get_connect_timeout c : Z := connect_timeout_ c.
Definition get_operation_timeout c : Z := operation_timeout_ c.

(** [update_endpoints(iterator)]: everything the iterator traverses. *)
Definition update_endpoints (resolved_endpoints : list Ep) c : connector Ep :=
  mk_connector (host_ c) (port_ c) (conn_resolve_timeout_ c) (connect_timeout_ c) (operation_timeout_ c)
    resolved_endpoints (resolving_thread_running_ c) (resolve_error_ c) (resolve_needed_ c) (resolve_done_ c).

Definition get_endpoints c : list Ep := endpoints_ c.

Definition set_resolve_error (err : error_code) c : connector Ep :=
  mk_connector (host_ c) (port_ c) (conn_resolve_timeout_ c) (connect_timeout_ c) (operation_timeout_ c)
    (endpoints_ c) (resolving_thread_running_ c) err (resolve_needed_ c) (resolve_done_ c).

Definition get_resolve_error c : error_code := resolve_error_ c.

Definition set_resolve_needed (b : bool) c : connector Ep :=
  mk_connector (host_ c) (port_ c) (conn_resolve_timeout_ c) (connect_timeout_ c) (operation_timeout_ c)
    (endpoints_ c) (resolving_thread_running_ c) (resolve_error_ c) b (resolve_done_ c).

(** [notify_resolve_needed()], [notify_resolve_done()]. *)
Definition notify_resolve_needed c : connector Ep := set_resolve_needed true c.

Definition notify_resolve_done c : connector Ep :=
  mk_connector (host_ c) (port_ c) (conn_resolve_timeout_ c) (connect_timeout_ c) (operation_timeout_ c)
    (endpoints_ c) (resolving_thread_running_ c) (resolve_error_ c) (resolve_needed_ c) true.

(** How one round of [resolve_routine]'s loop ends; an exception that leaves the thread's
    function ends the process. *)
Inductive resolve_verdict := RoundAgain | SleepThenAgain | ProcessTerminated.

(** One round: [locked] is whether the mutex was taken within 100 ms, [woken] whether
    [resolve_needed_] held within the next 100 ms, [r] what [resolver_.resolve] does. *)
Definition resolve_round (locked woken : bool) (r : io_result (list Ep)) c
    : option (connector Ep * resolve_verdict) :=
  if negb locked || negb woken then Some (c, RoundAgain)
  else
    match r with
    | IoBlocked => None
    | IoThrow _ => Some (c, ProcessTerminated)
    | IoDone resolve_ec new_endpoints =>
        let c := set_resolve_error resolve_ec c in
        if ec_failed resolve_ec then Some (c, SleepThenAgain)
        else
          let c := update_endpoints new_endpoints (set_resolve_needed false c) in
          Some (notify_resolve_done c, RoundAgain)
    end.

End Members.

(** What a call of [new_session] meets: when [resolve_done_mutex_] gets free, if it is not
    free at once; [resolve_done_] then; when it is next notified with the flag set; the
    flag when the deadline has passed; the connector at the time of the copy, and the
    shuffled copy; the resolve error when it is read; the clock at the connection attempt. *)
Record session_env (X Ep : Type) := mk_session_env {
  sv_lock : option Z;
  sv_done : bool;
  sv_wake : option Z;
  sv_late : bool;
  sv_shuffled : list Ep;
  sv_error : error_code;
  sv_now : Z;
  sv_connect : X
}.
Arguments mk_session_env {X Ep}.
Arguments sv_lock {X Ep}.
Arguments sv_done {X Ep}.
Arguments sv_wake {X Ep}.
Arguments sv_late {X Ep}.
Arguments sv_shuffled {X Ep}.
Arguments sv_error {X Ep}.
Arguments sv_now {X Ep}.
Arguments sv_connect {X Ep}.

Section NewSession.
Context {X Ep Stream : Type} `{ConnectUntil X Ep Stream, pl : Platform}.
Implicit Types (env : session_env X Ep) (ec : error_code).

(** The wait for the first resolution: lock, test, [wait_until]. *)
Definition wait_resolved env (deadline : Z) : bool :=
  match sv_lock env with None => true | Some t => t <=? deadline end &&
  (sv_done env ||
   match sv_wake env with Some t => (t <=? deadline) || sv_late env | None => sv_late env end).

(** The loop over the shuffled endpoints: it returns or breaks in its first round. *)
Definition connect_loop env (deadline : Z) ec : io_result (option Stream * error_code) :=
  match sv_shuffled env with
  | [] => IoDone ec_ok (None, ec)
  | peer :: _ =>
      match connect_until (sv_connect env) peer deadline (sv_now env) with
      | IoDone _ session => IoDone ec_ok (Some session, ec)
      | IoThrow err => IoDone ec_ok (None, se_code err)
      | IoBlocked => IoBlocked
      end
  end.

(** [new_session(ec, deadline)]: the session, [ec], and whether the resolving thread is
    notified; [None] when the connection attempt never returns. *)
Definition new_session env ec (deadline : Z) : option (option Stream * error_code * bool) :=
  if negb (wait_resolved env deadline) then
    Some (None, if ec_failed (sv_error env) then sv_error env else timed_out, false)
  else
    match connect_loop env deadline ec with
    | IoDone _ (Some session, ec) => Some (Some session, ec, false)
    | IoDone _ (None, ec) => Some (None, if negb (ec_failed ec) then sv_error env else ec, true)
    | _ => None
    end.

(** [new_session(ec, timeout)] at clock reading [t], and [new_session(ec)]. *)
Definition new_session_timeout env ec (t timeout : Z) := new_session env ec (t +i timeout).

Definition new_session_default env ec (t : Z) (c : connector Ep) :=
  new_session_timeout env ec t (get_connect_timeout c).

(** [new_session()], throwing. *)
Definition new_session_throw env (t : Z) (c : connector Ep) : option (outcome Stream * bool) :=
  let what := ("Failed to establish new session to " +:+ get_target c)%string in
  match new_session_default env ec_ok t c with
  | None => None
  | Some (session, ec, notified) =>
      Some (if ec_failed ec then Throw (mk_se ec what)
            else match session with
                 | None => Throw (mk_se operation_aborted what)
                 | Some s => Normal s
                 end, notified)
  end.

End NewSession.

(** ** The specializations of [connect_until] *)

(** What a TCP, UDP or TLS connection meets: the events of its io_service; the connector's
    I/O timeout and host; the platform. *)
Record connect_setting := mk_setting {
  cs_events : list (io_event unit);
  cs_operation_timeout : Z;
  cs_host : string;
  cs_on_linux : bool
}.

Section Specializations.
Context {K E G : Type} `{AsioSocket K E, tm : AsioTimer, pl : Platform}.
Implicit Types (x : connect_setting) (ep : E).

Definition connect_until_tcp x ep (until_time t : Z) : io_result (stream_socket K) :=
  base_socket_ctor tcp (cs_on_linux x) (cs_events x) ep (until_time -i t) (cs_operation_timeout x) t.

Definition connect_until_udp x ep (until_time t : Z) : io_result (datagram_socket K) :=
  base_socket_ctor udp (cs_on_linux x) (cs_events x) ep (until_time -i t) (cs_operation_timeout x) t.

Definition connect_until_ssl `{SslLayer K G} x ep (until_time t : Z) : io_result (ssl_stream K G) :=
  ssl_stream_ctor (cs_on_linux x) (cs_events x) ep (until_time -i t) (cs_operation_timeout x) (cs_host x) true t.

#[export] Instance tcp_connect_until : ConnectUntil connect_setting E (stream_socket K) := {|
  connect_until := connect_until_tcp;
  connect_until_fails x ep until t e := base_socket_ctor_fails _ _ _ _ _ _ _ _
|}.

#[export] Instance udp_connect_until : ConnectUntil connect_setting E (datagram_socket K) := {|
  connect_until := connect_until_udp;
  connect_until_fails x ep until t e := base_socket_ctor_fails _ _ _ _ _ _ _ _
|}.

(** OpenSSL queues an error when it refuses the host name, and asio throws failing codes
    only. *)
Record ssl_errors_queued `{SslLayer K G} : Prop := {
  host_error_queued host (s : ssl_stream K G) :
    (ssl_set_host host s).2 = false → ssl_last_error (ssl_set_host host s).1 ≠ 0;
  context_error_fails e : ssl_context_ctor = Throw e → ec_failed (se_code e) = true;
  verify_paths_error_fails e : ssl_set_default_verify_paths = Throw e → ec_failed (se_code e) = true;
  engine_error_fails w e : ssl_init w = Throw e → ec_failed (se_code e) = true;
  verify_mode_error_fails (s : ssl_stream K G) e : ssl_set_verify_mode s = Throw e → ec_failed (se_code e) = true;
  verify_callback_error_fails host (s : ssl_stream K G) e :
    ssl_set_verify_callback host s = Throw e → ec_failed (se_code e) = true
}.

Lemma ssl_handshake_throw_fails `{SslLayer K G} dl (s : ssl_stream K G) e :
  (ssl_handshake_throw (Deadline dl) s).2 = Throw e → ec_failed (se_code e) = true.
Proof.
  unfold ssl_handshake_throw, ssl_handshake, ssl_set_io_timeout_enabled, ssl_scope_expire.
  rewrite scope_expire_deadline. cbn iota beta. destruct (layer_handshake _) as [s' err].
  destruct (ec_failed err) eqn:Ef; [by intros [= <-]|done].
Qed.

(** The TLS specialization fails with a failing code too. *)
Lemma connect_until_ssl_fails `{SslLayer K G} x ep until t e :
  ssl_errors_queued → connect_until_ssl x ep until t = IoThrow e → ec_failed (se_code e) = true.
Proof.
  intros Hq. unfold connect_until_ssl, ssl_stream_ctor, or_throw.
  destruct ssl_context_ctor eqn:E1; [|intros [= <-]; by eapply context_error_fails].
  destruct ssl_set_default_verify_paths eqn:E2; [|intros [= <-]; by eapply verify_paths_error_fails].
  destruct (base_socket_ctor _ _ _ _ _ _ _) as [ec w|e'|] eqn:Ec; [|intros [= <-]; by eapply base_socket_ctor_fails|done].
  destruct (ssl_init w) as [s0|] eqn:E3; [|intros [= <-]; by eapply engine_error_fails].
  pose proof (host_error_queued Hq (cs_host x) s0) as Hh. destruct (ssl_set_host _ _) as [s1 [|]]; simpl in *.
  2:{ intros [= <-]. apply ec_failed_true. by apply Hh. }
  destruct (ssl_set_verify_mode s1) as [s2|] eqn:E4; [|intros [= <-]; by eapply verify_mode_error_fails].
  destruct (ssl_set_verify_callback _ s2) as [s3|] eqn:E5; [|intros [= <-]; by eapply verify_callback_error_fails].
  pose proof (ssl_handshake_throw_fails (t +i (until -i t)) s3) as Hhs.
  destruct (ssl_handshake_throw _ _) as [s' [[]|e']]; [done|]. intros [= <-]. by apply Hhs.
Qed.

End Specializations.

Section Claims.
Context {X Ep Stream : Type} `{ConnectUntil X Ep Stream, pl : Platform}.
Implicit Types (env : session_env X Ep) (ec : error_code).

(** [new_session(ec, deadline)] on every path.  It attempts one connection, to one
    endpoint of the shuffled copy.  It returns no session exactly with a failing [ec]
    (given that a resolution that reports no error has endpoints, and a success leaves the
    caller's [ec], which was clear): before the first resolution the resolve error or
    [timed_out], and then the resolving thread is left alone; after it the connection's
    error or the resolve error, and then the resolving thread is told to resolve again. *)
Theorem new_session_outcome env ec dl :
  ec_failed ec = false → (sv_shuffled env = [] → ec_failed (sv_error env) = true) →
  match new_session env ec dl with
  | None => ∃ peer tl, sv_shuffled env = peer :: tl ∧
      connect_until (sv_connect env) peer dl (sv_now env) = IoBlocked
  | Some (Some session, ec', notified) =>
      ec' = ec ∧ notified = false ∧ wait_resolved env dl = true ∧
      ∃ peer tl ok, sv_shuffled env = peer :: tl ∧
        connect_until (sv_connect env) peer dl (sv_now env) = IoDone ok session
  | Some (None, ec', notified) =>
      ec_failed ec' = true ∧ notified = wait_resolved env dl ∧
      (wait_resolved env dl = false → ec' = sv_error env ∨ ec' = timed_out) ∧
      (wait_resolved env dl = true →
       (sv_shuffled env = [] ∧ ec' = sv_error env) ∨
       ∃ peer tl e, sv_shuffled env = peer :: tl ∧ ec' = se_code e ∧
         connect_until (sv_connect env) peer dl (sv_now env) = IoThrow e)
  end.
Proof.
  intros Hec Hne. unfold new_session. destruct (wait_resolved env dl) eqn:Ew; cbn [negb].
  - unfold connect_loop. destruct (sv_shuffled env) as [|peer tl] eqn:Es.
    + rewrite Hec. cbn [negb]. split_and!; [auto|done..|by left].
    + destruct (connect_until _ _ _ _) as [ok session|e|] eqn:Ec.
      * split_and!; [done..|]. by exists peer, tl, ok.
      * rewrite (connect_until_fails _ _ _ _ _ Ec). cbn [negb].
        split_and!; [by eapply connect_until_fails|done..|]. right. by exists peer, tl, e.
      * by exists peer, tl.
  - destruct (ec_failed (sv_error env)) eqn:Ee.
    + split_and!; [done..|by left|done].
    + split_and!; [apply timed_out_failed|done..|by right|done].
Qed.

(** The throwing [new_session()] returns a session or throws a failing code with the
    target in its message; its [operation_aborted] for a null pointer is dead code; a
    connect timeout that is infinite overflows into a deadline in the past. *)
Theorem new_session_throw_outcome env t (c : connector Ep) :
  (sv_shuffled env = [] → ec_failed (sv_error env) = true) →
  (connect_timeout_ c = kInfiniteDuration → 0 < t < time_point_max → t +i get_connect_timeout c < 0) ∧
  match new_session_throw env t c, new_session_default env ec_ok t c with
  | Some (Normal s, _), Some (Some s', ec, _) => s = s' ∧ ec = ec_ok
  | Some (Throw e, _), Some (None, ec, _) =>
      ec_failed ec = true ∧
      e = mk_se ec ("Failed to establish new session to " +:+ host_ c +:+ ":" +:+ port_ c)%string
  | None, None => True
  | _, _ => False
  end.
Proof.
  intros Hne. split.
  { intros Hc Ht. unfold get_connect_timeout. rewrite Hc.
    unfold kInfiniteDuration, time_point_max, i64_max in *. rewrite i64_over; lia. }
  unfold new_session_throw, new_session_default, new_session_timeout.
  unfold new_session. destruct (wait_resolved env _); cbn [negb].
  - unfold connect_loop. destruct (sv_shuffled env) as [|peer tl].
    + simpl. by rewrite Hne.
    + destruct (connect_until _ _ _ _) as [ok s|e|] eqn:Ec; [done| |done].
      rewrite (connect_until_fails _ _ _ _ _ Ec). cbn [negb].
      by rewrite (connect_until_fails _ _ _ _ _ Ec).
  - destruct (ec_failed (sv_error env)) eqn:Ee; [by rewrite Ee|]. by rewrite timed_out_failed.
Qed.

End Claims.

(** The resolving thread calls [resolve(ec)], which throws for a default timeout below the
    resolution of the timer; nothing in [resolve_routine] catches it. *)
Lemma tiny_resolve_timeout_terminates {R Ep} `{AsioResolver R, tm : AsioTimer, pl : Platform}
    evs (w : resolver R) (c : connector Ep) :
  resolve_timeout w < kDurationResolution →
  resolve_round true true (resolve_default evs w).2 c = Some (c, ProcessTerminated).
Proof.
  intros Hd. unfold resolve_default, resolve, async_resolve. by rewrite scope_expire_short.
Qed.

(** ** Witnesses *)

Definition toy_session_env : session_env connect_setting nat :=
  mk_session_env None true None false [7%nat; 8%nat] ec_ok 100
    (mk_setting [EvOp 2500 (mk_ec cat_system 111) tt] 5000 "localhost" true).

Lemma new_session_outcome_witness :
  new_session (Stream := stream_socket toy_socket) toy_session_env ec_ok 8000 =
    Some (None, mk_ec cat_system 111, true).
Proof.
  pose proof (new_session_outcome (Stream := stream_socket toy_socket) toy_session_env ec_ok 8000) as Hn.
  specialize (Hn eq_refl ltac:(done)).
  assert (E : new_session (Stream := stream_socket toy_socket) toy_session_env ec_ok 8000 =
    Some (None, mk_ec cat_system 111, true)) by (vm_compute; reflexivity).
  rewrite E in Hn. destruct Hn as (_ & Hw & _). rewrite E. reflexivity.
Defined.

Lemma new_session_throw_outcome_witness :
  100 +i get_connect_timeout (connector_ctor (Ep := nat) "h" "80" 1 kInfiniteDuration 1) < 0.
Proof.
  apply (new_session_throw_outcome (Stream := stream_socket toy_socket) toy_session_env 100
    (connector_ctor "h" "80" 1 kInfiniteDuration 1)); done.
Defined.
