(* ===== verification/HttpClient.v ===== *)
(** * [http_client] and [https_client]: HTTP over a TCP connection, and their connector

    The stack under [http::base_socket<tcp_client>]: [stream_socket]'s own [write_some] and
    [read_some] over a connection, as an implementation of [HttpStream]; and the
    specializations of [base_connector::connect_until] for the two HTTP clients
    (connector/impl/connector.ipp).  What the kernel does with an operation is data of the
    connection: every function of it is covered. *)

From S2P Require Import Prelude ErrorCode TimedBase IoLoop BaseSocket Transfer StreamSocket.
From S2P Require Import SslSocket HttpSocket Connector.
From Stdlib Require Import Strings.Byte.
Open Scope sc_scope.

(** What happens to one asynchronous operation: the clock readings at which the wait handler
    runs before it completes, when it completes, with which error, and how many bytes the
    kernel is ready to move.  An asynchronous operation never completes with
    [would_block], and a successful one moves something. *)
Record asio_call `{pl : Platform} := mk_asio_call {
  ac_waits : list Z;
  ac_time : Z;
  ac_err : error_code;
  ac_count : nat;
  ac_completes : ac_err ≠ would_block;
  ac_progress : ec_failed ac_err = false → (0 < ac_count)%nat
}.

(** A TCP connection: the client's socket, the fates of the operations it is going to start,
    how many it has started, the bytes the kernel has accepted from it, and the bytes the
    peer sends that have not been read. *)
Record tcp_connection (K : Type) `{pl : Platform} := mk_tcp {
  tc_stream : stream_socket K;
  tc_calls : nat → asio_call;
  tc_next : nat;
  tc_sent : list byte;
  tc_input : list byte
}.
Arguments mk_tcp {K pl}.
Arguments tc_stream {K pl}.
Arguments tc_calls {K pl}.
Arguments tc_next {K pl}.
Arguments tc_sent {K pl}.
Arguments tc_input {K pl}.

Section TcpConnection.
Context {K E : Type} `{AsioSocket K E, tm : AsioTimer, pl : Platform}.
Implicit Types (w : tcp_connection K) (v : stream_socket K) (c : asio_call).

(** The handlers the io_service runs for an operation that completes with [r]. *)
Definition call_events c (r : Z * error_code) : list sock_event :=
  map EvTimer (ac_waits c) ++ [EvOp (ac_time c) r.2 r.1].

(** The kernel's side: a failed operation moves nothing; a write takes a prefix of the
    buffer; a read what is there, or the end of the stream. *)
Definition kernel_write c (buf : list byte) : Z * error_code :=
  if ec_failed (ac_err c) then (0, ac_err c)
  else (Z.of_nat (Nat.min (ac_count c) (length buf)), ac_err c).

Definition kernel_read c (n : nat) (input : list byte) : Z * error_code :=
  if ec_failed (ac_err c) then (0, ac_err c)
  else if decide (n ≠ 0%nat ∧ input = []) then (0, asio_eof)
  else (Z.of_nat (Nat.min (ac_count c) (Nat.min n (length input))), ac_err c).

(** What a call that started the operation makes of it. *)
Definition call_done (r : call_result (D := base_socket K) Z) : stream_socket K * Z * error_code :=
  match r with
  | (s, _, IoDone ec n) => (s, n, ec)
  | (s, _, IoThrow e) => (s, 0, se_code e)
  | (s, _, IoBlocked) => (s, 0, would_block)
  end.

(** [write_some(buffers, ec, deadline)] and [read_some(buffers, ec, deadline)] of the
    connection's socket. *)
Definition tcp_write_some (buf : list byte) (dl : Z) w : tcp_connection K * (Z * error_code) :=
  let c := tc_calls w (tc_next w) in
  let '(s, n, ec) := call_done (write_some (call_events c (kernel_write c buf)) (Deadline dl) (tc_stream w)) in
  (mk_tcp s (tc_calls w) (S (tc_next w)) (tc_sent w ++ take (Z.to_nat n) buf) (tc_input w), (n, ec)).

Definition tcp_read_some (cap : nat) (dl : Z) w : tcp_connection K * (list byte * error_code) :=
  let c := tc_calls w (tc_next w) in
  let '(s, n, ec) := call_done (read_some (call_events c (kernel_read c cap (tc_input w))) (Deadline dl) (tc_stream w)) in
  (mk_tcp s (tc_calls w) (S (tc_next w)) (tc_sent w) (drop (Z.to_nat n) (tc_input w)),
   (take (Z.to_nat n) (tc_input w), ec)).

(** The stream of an [http_client]. *)
#[export] Instance tcp_http_stream : HttpStream (tcp_connection K) := {|
  hs_write_some := tcp_write_some;
  hs_read_some := tcp_read_some;
  hs_io_timeout w := io_timeout (self (tc_stream w));
  hs_now w := now (tc_stream w);
  hs_is_open w := is_open (self (tc_stream w));
  hs_sent := tc_sent
|}.

(** ** The laws *)

(** The wait handler before the deadline changes nothing but the time. *)
Lemma run_timer_keeps u v :
  now v < timer_expiry (base v) → u < timer_expiry (base v) →
  timer_expiry (base (run_timer u v)) = timer_expiry (base v) ∧
  deadline_fired_ (base (run_timer u v)) = deadline_fired_ (base v) ∧ now (run_timer u v) = Z.max (now v) u.
Proof.
  intros Hn Hu. unfold run_timer. cbn [base advance]. destruct (timer_waits (base v)); [done|].
  unfold check_deadline. cbn [base advance set_base timer_expiry now].
  by rewrite (proj2 (Z.leb_gt _ _)) by lia.
Qed.

(** The loop over the handlers of one operation returns, with its count and its error or
    [timed_out]. *)
Lemma run_loop_call ts t err (n : Z) e v (a : Z) :
  err ≠ would_block →
  ∃ v' ec, run_loop (λ _ n, n) (map EvTimer ts ++ [EvOp t err n]) (Some e) v would_block a = Some (v', ec, n, []) ∧
    (ec = err ∨ ec = timed_out) ∧
    (Forall (λ u, u < timer_expiry (base v)) (t :: ts) → now v < timer_expiry (base v) →
     deadline_fired_ (base v) = false → ec = err ∧ now v' < timer_expiry (base v)).
Proof.
  intros Hne. revert v. induction ts as [|u ts IH]; intros v; cbn [map app run_loop]; rewrite decide_True by done.
  - unfold complete. cbn [base advance]. rewrite decide_False; [|destruct (deadline_fired_ _); auto with timed].
    do 2 eexists. split; [done|]. split; [by destruct (deadline_fired_ _); auto|].
    intros [Ht _]%Forall_cons Hn Hd. rewrite Hd. split; [done|].
    unfold expiration_dtor. destruct (exp_timer e); simpl; lia.
  - destruct (IH (run_timer u v)) as (v1 & ec & Er & Hec & Hok). exists v1, ec. split_and!; [done..|].
    rewrite !Forall_cons. intros (Ht & Hu & Hts) Hn Hd. destruct (run_timer_keeps u v Hn Hu) as (E1 & E2 & E3).
    rewrite E1, E2, E3, Forall_cons in Hok. apply Hok; [done|lia|done].
Qed.

(** A call with a deadline always returns, and never throws. *)
Lemma transfer_some_call ts t err n dl v :
  err ≠ would_block →
  ∃ s ec, call_done (transfer_some async_start_some (map EvTimer ts ++ [EvOp t err n]) (Deadline dl) v) = (s, n, ec) ∧
    (ec = err ∨ ec = timed_out) ∧
    (Forall (λ u, u < dl) (t :: ts) → now v < dl → ec = err ∧ now s < dl).
Proof.
  intros Hne. unfold transfer_some, async_start_some. rewrite scope_expire_deadline.
  destruct (run_loop_call ts t err n (mk_expiration true) (expires_at dl (set_fired false v)) 0 Hne)
    as (v' & ec & -> & Hec & Hok).
  do 2 eexists. split; [done|]. split; [done|]. intros Hts Hn. by apply Hok.
Qed.

Lemma kernel_write_ok c buf :
  (kernel_write c buf).2 ≠ would_block ∧ 0 ≤ (kernel_write c buf).1 ≤ Z.of_nat (length buf) ∧
  (kernel_write c buf).2 = ac_err c ∧
  (buf ≠ [] → ec_failed (kernel_write c buf).2 = false → 0 < (kernel_write c buf).1).
Proof.
  pose proof (ac_completes c). pose proof (ac_progress c) as Hp. unfold kernel_write.
  destruct (ec_failed (ac_err c)) eqn:Ef; simpl; split_and!; try done; try lia; [congruence|].
  intros Hb _. specialize (Hp eq_refl). destruct buf; [done|]. simpl. lia.
Qed.

Lemma kernel_read_ok c n input :
  (kernel_read c n input).2 ≠ would_block ∧
  0 ≤ (kernel_read c n input).1 ≤ Z.of_nat (Nat.min n (length input)) ∧
  ((kernel_read c n input).2 = asio_eof → (kernel_read c n input).1 = 0) ∧
  (ec_failed (kernel_read c n input).2 = false → (0 < n)%nat → 0 < (kernel_read c n input).1).
Proof.
  pose proof (ac_completes c). pose proof (ac_progress c) as Hp. unfold kernel_read.
  destruct (ec_failed (ac_err c)) eqn:Ef; simpl; [split_and!; (done || lia || congruence)|].
  case_decide as Hd; simpl; [split_and!; (done || lia)|]. split_and!; [done|lia|lia| |].
  - intros He. rewrite He in Ef. by vm_compute in Ef.
  - intros _ Hn. specialize (Hp eq_refl). destruct input as [|x l]; [exfalso; apply Hd; split; [lia|done]|].
    simpl. lia.
Qed.

#[export] Instance tcp_http_stream_laws : HttpStreamLaws (tcp_connection K).
Proof.
  split; intros buf dl w; cbn [hs_write_some tcp_http_stream hs_sent]; unfold tcp_write_some, write_some, async_write_some;
    set (c := tc_calls w (tc_next w)); destruct (kernel_write_ok c buf) as (Hne & Hn & _ & _);
    destruct (transfer_some_call (ac_waits c) (ac_time c) _ (kernel_write c buf).1 dl (tc_stream w) Hne)
      as (s & ec & Er & _ & _); unfold call_events; rewrite Er; done.
Qed.

#[export, program] Instance tcp_http_peer : HttpPeer (tcp_connection K) := {| hp_input := tc_input |}.
Next Obligation.
  intros n dl w. cbn [hs_read_some tcp_http_stream]. unfold tcp_read_some, read_some, async_read_some, call_events.
  set (c := tc_calls w (tc_next w)). destruct (kernel_read_ok c n (tc_input w)) as (Hne & Hn & Heof & Hok).
  destruct (transfer_some_call (ac_waits c) (ac_time c) _ (kernel_read c n (tc_input w)).1 dl (tc_stream w) Hne)
    as (s & ec & -> & Hec & _). cbn [tc_input]. split_and!.
  - by rewrite take_drop.
  - rewrite length_take. lia.
  - intros ->. destruct Hec as [Hec|Hec]; [by rewrite (Heof (eq_sym Hec))|by vm_compute in Hec].
  - intros Hf Hn'. destruct Hec as [->| ->]; [|by rewrite timed_out_failed in Hf].
    specialize (Hok Hf Hn'). destruct (tc_input w); simpl in *; [lia|].
    by destruct (Z.to_nat (kernel_read _ _ _).1) eqn:Ez; [lia|].
Qed.
Next Obligation.
  intros n dl w. cbn [hs_read_some tcp_http_stream hs_sent]. unfold tcp_read_some. by destruct (call_done _) as [[? ?] ?].
Qed.
Next Obligation.
  intros buf dl w. cbn [hs_write_some tcp_http_stream]. unfold tcp_write_some. by destruct (call_done _) as [[? ?] ?].
Qed.
Next Obligation.
  intros buf dl w Hb. cbn [hs_write_some tcp_http_stream]. unfold tcp_write_some, write_some, async_write_some, call_events.
  set (c := tc_calls w (tc_next w)). destruct (kernel_write_ok c buf) as (Hne & Hn & _ & Hpos).
  destruct (transfer_some_call (ac_waits c) (ac_time c) _ (kernel_write c buf).1 dl (tc_stream w) Hne)
    as (s & ec & -> & Hec & _). simpl. intros Hf. destruct Hec as [->| ->]; [by apply Hpos|].
  by rewrite timed_out_failed in Hf.
Qed.

End TcpConnection.

(** ** The specializations of [connect_until] *)

Section Specializations.
Context {K E G Rq Rsp Sr Ps B : Type}.
Context `{AsioSocket K E, Beast Rq Rsp Sr Ps B, tm : AsioTimer, pl : Platform}.
Implicit Types (x : connect_setting) (ep : E).

Definition connect_until_http x ep (until_time t : Z) : io_result (http_socket (stream_socket K) B) :=
  match base_socket_ctor tcp (cs_on_linux x) (cs_events x) ep (until_time -i t) (cs_operation_timeout x) t with
  | IoDone ec w => IoDone ec (http_socket_ctor w)
  | IoThrow e => IoThrow e
  | IoBlocked => IoBlocked
  end.

Definition connect_until_https `{SslLayer K G} x ep (until_time t : Z)
    : io_result (http_socket (ssl_stream K G) B) :=
  match ssl_stream_ctor (cs_on_linux x) (cs_events x) ep (until_time -i t) (cs_operation_timeout x)
          (cs_host x) true t with
  | IoDone ec s => IoDone ec (http_socket_ctor s)
  | IoThrow e => IoThrow e
  | IoBlocked => IoBlocked
  end.

(** An [http_connector] makes sessions like a [tcp_connector]. *)
#[export, program] Instance http_connect_until :
    ConnectUntil connect_setting E (http_socket (stream_socket K) B) := {|
  connect_until := connect_until_http
|}.
Next Obligation.
  intros x ep until t e. unfold connect_until_http.
  destruct (base_socket_ctor _ _ _ _ _ _ _) as [ec w|e'|] eqn:Ec; try done. intros [= <-].
  by eapply base_socket_ctor_fails.
Qed.

(** ... and an [https_connector] like an [ssl_connector]. *)
Lemma connect_until_https_fails `{SslLayer K G} x ep until t e :
  ssl_errors_queued (K := K) (G := G) → connect_until_https x ep until t = IoThrow e →
  ec_failed (se_code e) = true.
Proof.
  intros Hq. unfold connect_until_https.
  pose proof (connect_until_ssl_fails (E := E) x ep until t) as Hf. unfold connect_until_ssl in Hf.
  destruct (ssl_stream_ctor _ _ _ _ _ _ _ _) as [ec s|e'|]; try done. intros [= <-]. by apply Hf.
Qed.

Definition https_connect_until `{SslLayer K G} (Hq : ssl_errors_queued (K := K) (G := G)) :
    ConnectUntil connect_setting E (http_socket (ssl_stream K G) B) := {|
  connect_until := connect_until_https;
  connect_until_fails x ep until t e := connect_until_https_fails x ep until t e Hq
|}.

End Specializations.

(** ** An exchange that works *)

Section Exchange.
Context {W Rq Rsp Sr Ps B : Type}.
Context `{HttpStream W, !HttpStreamLaws W, !HttpPeer W, bb : Beast Rq Rsp Sr Ps B,
  !BeastLaws Rq Rsp Sr Ps B, pl : Platform}.
Implicit Types (w : W) (ec : error_code) (dl : Z) (p : Ps) (b : B) (s : Sr).

(** [bs] is a complete response: a parser given parts of it asks for more until it has
    been given all of it, and is done exactly then. *)
Definition complete_response (bs : list byte) : Prop :=
  bs ≠ [] ∧ ps_is_done (ps_new kHeaderLimit kBodyLimit true) = false ∧
  ∀ p d, parsing p → d ≠ [] → (ps_fed p ++ d) `prefix_of` bs →
    let r := ps_put d p in
    (ec_failed r.2.2 = false ∨ r.2.2 = need_more) ∧
    (ps_is_done r.1 = true → ec_failed r.2.2 = false ∧ ps_fed r.1 = bs) ∧
    (ps_fed p ++ d = bs → ps_is_done r.1 = true).

(** States of the stream in which nothing goes wrong: writes under the deadline succeed, and
    so do reads while the peer has something to send. *)
Definition working (dl : Z) (good : W → Prop) : Prop :=
  (∀ bs w, good w → ec_failed (hs_write_some bs dl w).2.2 = false ∧ good (hs_write_some bs dl w).1) ∧
  (∀ n w, good w → hp_input w ≠ [] →
     ec_failed (hs_read_some n dl w).2.2 = false ∧ good (hs_read_some n dl w).1).

(** The serializer of a request that can be serialized. *)
Definition serializable (request : Rq) : Prop :=
  ∀ s, sr_rest s `suffix_of` sr_rest (sr_new request) → ∀ ec, (sr_next s).2 ≠ inl ec.

Lemma send_loop_good (good : W → Prop) request fuel s ec dl w w' ec' :
  working dl good → serializable request → sr_rest s `suffix_of` sr_rest (sr_new request) →
  good w → ec_failed ec = false →
  send_loop fuel s ec dl w = Some (w', ec') → good w' ∧ ec_failed ec' = false.
Proof.
  intros [Hwr _] Hser. revert s ec w. induction fuel as [|fuel IH]; intros s ec w Hsuf Hg Hec; [done|].
  cbn [send_loop]. destruct (sr_is_done s) eqn:Ed; [by intros [= <- <-]|].
  pose proof (sr_next_rest s) as Hrest. pose proof (Hser s Hsuf) as Hn. pose proof (sr_next_visits s) as Hv.
  destruct (sr_next s) as [s1 [err|bs]]; cbn [fst snd] in *; [by destruct (Hn err)|].
  destruct (Hv bs) as [_ [tl Htl]]; [by intros E; apply sr_done_rest in E; rewrite E in Ed|done|].
  rewrite <- Hrest in Htl.
  destruct (write_step s1 bs tl dl w Htl) as (_ & Hr & _). destruct (Hwr bs w Hg) as [Hok Hg1].
  destruct (hs_write_some bs dl w) as [w1 [n err]]. cbn [fst snd] in *. rewrite Hok.
  apply IH; [|done|done]. rewrite Hr, Hrest. etrans; [apply suffix_drop|done].
Qed.

Lemma recv_loop_good (good : W → Prop) bs fuel p b ec dl w p' b' ec' w' :
  working dl good → complete_response bs → buffer_ok b → parsing p → good w →
  ps_fed p ++ fb_data b ++ hp_input w = bs →
  (ps_is_done p = true → ec_failed ec = false ∧ ps_fed p = bs) →
  (ps_is_done p = false → hp_input w ≠ []) →
  recv_loop fuel p b ec dl w = Some (p', b', ec', w') → ec_failed ec' = false ∧ ps_fed p' = bs.
Proof.
  intros [_ Hrd] (Hbs & Hnew & Hput). revert p b ec w.
  induction fuel as [|fuel IH]; intros p b ec w Hb Hp Hg Hacc Hdone Hmore; [done|]. cbn [recv_loop].
  destruct (ps_is_done p) eqn:Ed; [intros [= <- _ <- _]; by apply Hdone|].
  destruct (buffer_prepare b Hb) as (Hrs & Hpos & b1 & -> & Hd1 & Hm1). set (rs := Z.min _ _) in *.
  pose proof (hp_read (Z.to_nat rs) dl w) as Hr. destruct (Hrd (Z.to_nat rs) w Hg) as [Hok Hg1]; [by apply Hmore|].
  destruct (hs_read_some (Z.to_nat rs) dl w) as [w1 [data err]]. cbn [fst snd] in *.
  destruct Hr as (Hin & Hlen & _ & Hne). case_decide as Eeof; [by subst err|]. rewrite Hok.
  destruct (put_round p b b1 data w w1 Hb Hd1 Hm1 ltac:(lia) Hin) as (Hd2 & Hb' & _ & _ & _ & Hacc').
  rewrite Hacc in Hacc'. set (d := fb_data (fb_commit data b1)) in *.
  assert (Hdw : ps_fed p ++ d ++ hp_input w1 = bs) by (rewrite Hd2, <- app_assoc, <- Hin; exact Hacc).
  assert (Hd0 : d ≠ []).
  { rewrite Hd2. intros [E1 E2]%app_nil. destruct (decide (0 < rs)) as [H0|H0]; [by apply Hne; [|lia|]|].
    rewrite E1 in *. simpl in Hrs. unfold kBufferLimit, kBodyLimit, kHeaderLimit in Hrs. lia. }
  destruct (Hput p d) as (Hec & Hfin & Hall); [done..|exists (hp_input w1); by rewrite <- app_assoc|].
  pose proof (parsing_put p d Hp) as Hp1.
  destruct (ps_put d p) as [p1 [n ec1]]. cbn [fst snd] in *.
  replace (ec_failed ec1 && negb (bool_decide (ec1 = need_more))) with false.
  2:{ destruct Hec as [->|Hec]; [done|]. rewrite (bool_decide_eq_true_2 _ Hec). by rewrite andb_false_r. }
  apply IH; try done.
  intros Hnd Hnil. rewrite Hnil, app_nil_r in Hdw. by rewrite (Hall Hdw) in Hnd.
Qed.

(** An exchange over a stream that works returns the response. *)
Lemma perform_good (good : W → Prop) bs fuel request ec dl (h : http_socket W B) :
  working dl good → complete_response bs → ¬ parser_stalls bs → serializable request →
  fb_max_size (buffer_ h) = kBodyLimit + kHeaderLimit →
  good (stream_ h) → ec_failed ec = false → hp_input (stream_ h) = bs → exchange_fuel fuel request (stream_ h) →
  ∃ p ec' h', perform fuel request ec dl h = Some (Some (ps_get p), ec', h') ∧
    ps_is_done p = true ∧ ps_fed p = bs ∧ ec_failed ec' = false ∧
    hs_sent (stream_ h') = hs_sent (stream_ h) ++ sr_rest (sr_new request) ∧
    fb_data (buffer_ h') ++ hp_input (stream_ h') = [].
Proof.
  intros Hw Hbs Hst Hser Hb Hg Hec Hin Hfuel. rewrite <- Hin in Hst.
  destruct (perform_returns fuel request ec dl h Hb Hfuel) as [[r Hr]|]; [|done].
  destruct Hfuel as [Hf _]. rewrite Hr. revert Hr. unfold perform, send_request.
  destruct (send_loop_spec fuel (sr_new request) ec dl (stream_ h) Hf) as (w1 & ec1 & k & E1 & Es & Ei & _ & Hok).
  rewrite E1. destruct (send_loop_good good request _ _ _ _ _ _ _ Hw Hser (reflexivity _) Hg Hec E1) as [Hg1 Hec1].
  rewrite Hec1. unfold recv_response. cbn [buffer_ stream_].
  destruct (cleared_buffer (buffer_ h) Hb) as [Hb' Hd]. set (b1 := fb_consume _ _) in *.
  destruct (recv_loop _ _ _ _ _ _) as [[[[p b] ec'] w']|] eqn:E2; [|done]. intros [= <-].
  pose proof Hbs as (Hne & Hnew & _).
  assert (ec_failed ec' = false ∧ ps_fed p = bs) as [Hec' Hfed].
  { eapply (recv_loop_good good bs); [exact Hw|exact Hbs|exact Hb'|apply parsing_new|exact Hg1| | | |exact E2].
    - by rewrite ps_new_fed, Hd, Ei, Hin.
    - by rewrite Hnew.
    - intros _. by rewrite Ei, Hin. }
  destruct (recv_loop_sound _ _ _ _ _ _ _ _ _ _ Hb' E2) as ((lost & Ea & Hdone) & Es' & _).
  destruct (Hdone Hec') as [Hd' ->]. rewrite Hec'. exists p, ec', (mk_http w' b).
  split_and!; [done..| |]; cbn [stream_ buffer_].
  - by rewrite Es', Es, (Hok Hec1), firstn_all.
  - rewrite ps_new_fed, Hd, Ei, Hin, Hfed in Ea. simpl in Ea.
    apply (app_inv_head bs). by rewrite app_nil_r.
Qed.

End Exchange.

(** ** Properties *)

Section Claims.
Context {K E Rq Rsp Sr Ps B : Type}.
Context `{AsioSocket K E, bb : Beast Rq Rsp Sr Ps B, !BeastLaws Rq Rsp Sr Ps B, tm : AsioTimer, pl : Platform}.
Implicit Types (h : http_socket (tcp_connection K) B).

(** A connection on which every operation succeeds in time: the wait handler, which runs
    whenever the deadline is set, and the completion run before the deadline. *)
Definition in_time (dl : Z) (w : tcp_connection K) : Prop :=
  now (tc_stream w) < dl ∧
  ∀ k, Forall (λ u, u < dl) (ac_time (tc_calls w k) :: ac_waits (tc_calls w k)) ∧
    ec_failed (ac_err (tc_calls w k)) = false.

Lemma in_time_working dl : working dl (in_time dl).
Proof.
  split.
  - intros buf w [Hn Hc]. cbn [hs_write_some tcp_http_stream]. unfold tcp_write_some, write_some, async_write_some, call_events.
    set (c := tc_calls w (tc_next w)). destruct (kernel_write_ok c buf) as (Hne & _ & He & _).
    destruct (transfer_some_call (ac_waits c) (ac_time c) _ (kernel_write c buf).1 dl (tc_stream w) Hne)
      as (s & ec & -> & _ & Hok). destruct Hok as [-> Hs]; [apply Hc|done|]. rewrite He. split; [apply Hc|by split].
  - intros n w [Hn Hc] Hin. cbn [hs_read_some tcp_http_stream hp_input tcp_http_peer] in *.
    unfold tcp_read_some, read_some, async_read_some, call_events.
    set (c := tc_calls w (tc_next w)). destruct (kernel_read_ok c n (tc_input w)) as (Hne & _).
    destruct (transfer_some_call (ac_waits c) (ac_time c) _ (kernel_read c n (tc_input w)).1 dl (tc_stream w) Hne)
      as (s & ec & -> & _ & Hok). destruct Hok as [-> Hs]; [apply Hc|done|]. split; [|by split]. simpl.
    unfold kernel_read. rewrite (proj2 (Hc (tc_next w)) : ec_failed (ac_err c) = false).
    rewrite decide_False by tauto. apply Hc.
Qed.


End Claims.

(** ** Witnesses *)

(** A kernel that moves one byte a call; the wait handler runs for the timer just set. *)
Definition toy_call : asio_call.
Proof. refine (mk_asio_call _ [400] 500 ec_ok 1 _ _); [done|intros _; lia]. Defined.

Definition toy_tcp_client : http_socket (tcp_connection toy_socket) toy_buffer :=
  http_socket_ctor (mk_tcp toy_stream (λ _, toy_call) 0 [] [x0a; x0b]).

(** The toy parser takes any two bytes for a response. *)
Lemma toy_complete_response : complete_response [x0a; x0b].
Proof.
  split; [done|]. split; [done|]. intros p d _ Hd [tl Htl].
  assert (Hlen : (length p + length d + length tl = 2)%nat).
  { apply (f_equal length) in Htl. rewrite !length_app in Htl. simpl in Htl. cbn [ps_fed toy_beast] in Htl. lia. }
  assert (Hd0 : (length d ≠ 0)%nat) by (by destruct d).
  cbn [ps_put ps_fed ps_is_done toy_beast need_more]. unfold toy_put. cbn -[Nat.min Nat.ltb Nat.leb].
  rewrite Nat.min_r by lia. rewrite (firstn_all d).
  destruct (decide (length tl = 0%nat)) as [H0|H0].
  - destruct tl; [|done]. rewrite app_nil_r in Htl. cbn [ps_fed toy_beast] in Htl.
    rewrite (proj2 (Nat.ltb_ge _ _)) by lia. split_and!; [by left|done|].
    intros _. apply Nat.leb_le. rewrite length_app. lia.
  - rewrite (proj2 (Nat.ltb_lt _ _)) by lia. split_and!; [by right| |].
    + intros Hl%Nat.leb_le. rewrite length_app in Hl. lia.
    + intros E. apply (f_equal length) in E. rewrite length_app in E. simpl in E. lia.
Qed.

