(* ===== verification/HttpsClient.v ===== *)
(** * HTTP over TLS

    [https_client] is [http::base_socket<ssl_client>]: what the encrypted stream of SslSocket
    needs from [boost::asio::ssl::stream] to carry an exchange, and what
    [ssl::stream_socket]'s own [write_some] and [read_some] do for it: they set the deadline
    on the next layer and keep that layer's timeouts of its own out of the way. *)

From S2P Require Import Prelude ErrorCode TimedBase IoLoop BaseSocket Transfer StreamSocket.
From S2P Require Import SslSocket HttpSocket HttpClient.
From Stdlib Require Import Strings.Byte.
Open Scope sc_scope.

(** Documented behaviour of [asio::ssl::stream] towards the peer: the plaintext the peer is
    going to send is read in order, a successful read brings some of it, a closed
    connection none; a successful write takes something; neither concerns the other. *)
Class SslPeer (K G : Type) `{SslLayer K G} := {
  ssl_incoming : ssl_stream K G → list byte;
  ssl_incoming_engine s s' : ssl_engine s = ssl_engine s' → ssl_incoming s = ssl_incoming s';
  layer_read_input n s : let '(s', (data, ec)) := layer_read_some n s in
    ssl_incoming s = data ++ ssl_incoming s' ∧ (ec = asio_eof → data = []) ∧
    (ec_failed ec = false → (0 < n)%nat → data ≠ []);
  layer_read_accepted n s : ssl_accepted (layer_read_some n s).1 = ssl_accepted s;
  layer_write_input b s : ssl_incoming (layer_write_some b s).1 = ssl_incoming s;
  layer_write_progress b s :
    b ≠ [] → ec_failed (layer_write_some b s).2.2 = false → 0 < (layer_write_some b s).2.1
}.

Section HttpsClient.
Context {K E G : Type}.
Context `{sk : AsioSocket K E, tm : AsioTimer, pl : Platform, sl : SslLayer K G, !SslLayerLaws K G}.
Implicit Types (s : ssl_stream K G) (buf : list byte).

(** The state in which [write_some] and [read_some] enter the layer below. *)
Definition armed_layer (dl : Z) s : ssl_stream K G :=
  set_next (λ w, expires_at dl (set_fired false w)) (ssl_set_io_timeout_enabled false s).1.

(** ... and what they do when they are back from it. *)
Definition layer_left (m : bool) s : ssl_stream K G :=
  ssl_expiration_dtor (mk_expiration true) (ssl_set_io_timeout_enabled m s).1.

Lemma ssl_write_some_unfold buf dl s :
  ssl_write_some buf (Deadline dl) s =
    let '(s', r) := layer_write_some buf (armed_layer dl s) in
    (layer_left (ssl_io_timeout_enabled s) s', Normal r).
Proof.
  unfold ssl_write_some, armed_layer, ssl_scope_expire. cbn. by destruct (layer_write_some _ _) as [? [? ?]].
Qed.

Lemma ssl_read_some_unfold cap dl s :
  ssl_read_some cap (Deadline dl) s =
    let '(s', r) := layer_read_some cap (armed_layer dl s) in
    (layer_left (ssl_io_timeout_enabled s) s', Normal r).
Proof.
  unfold ssl_read_some, armed_layer, ssl_scope_expire. cbn. by destruct (layer_read_some _ _) as [? [? ?]].
Qed.

(** The stream of an [https_client] as a peer for HTTP. *)
#[export, program] Instance ssl_http_peer `{!SslPeer K G} : HttpPeer (ssl_stream K G) := {| hp_input := ssl_incoming |}.
Next Obligation.
  intros ? n dl s. cbn [hs_read_some ssl_http_stream]. rewrite ssl_read_some_unfold.
  pose proof (layer_read_input n (armed_layer dl s)) as Hr. pose proof (layer_read_count n (armed_layer dl s)) as Hl.
  destruct (layer_read_some n (armed_layer dl s)) as [s' [data ec]]. cbn [fst snd] in Hl.
  rewrite (ssl_incoming_engine s (armed_layer dl s)) by done.
  rewrite (ssl_incoming_engine (layer_left _ s') s') by done. by destruct Hr.
Qed.
Next Obligation.
  intros ? n dl s. cbn [hs_read_some ssl_http_stream hs_sent]. rewrite ssl_read_some_unfold.
  pose proof (layer_read_accepted n (armed_layer dl s)) as Hr.
  destruct (layer_read_some n (armed_layer dl s)) as [s' [data ec]].
  rewrite (ssl_accepted_engine s (armed_layer dl s)) by done.
  by rewrite (ssl_accepted_engine _ s') by done.
Qed.
Next Obligation.
  intros ? bs dl s. cbn [hs_write_some ssl_http_stream]. rewrite ssl_write_some_unfold.
  pose proof (layer_write_input bs (armed_layer dl s)) as Hr.
  destruct (layer_write_some bs (armed_layer dl s)) as [s' [n ec]].
  rewrite (ssl_incoming_engine s (armed_layer dl s)) by done.
  by rewrite (ssl_incoming_engine _ s') by done.
Qed.
Next Obligation.
  intros ? bs dl s Hb. cbn [hs_write_some ssl_http_stream]. rewrite ssl_write_some_unfold.
  pose proof (layer_write_progress bs (armed_layer dl s) Hb) as Hr.
  by destruct (layer_write_some bs (armed_layer dl s)) as [s' [n ec]].
Qed.

End HttpsClient.

(** ** Properties *)

Section Claims.
Context {K E G Rq Rsp Sr Ps B : Type}.
Context `{sk : AsioSocket K E, tm : AsioTimer, sl : SslLayer K G, !SslLayerLaws K G, !SslPeer K G,
  bb : Beast Rq Rsp Sr Ps B, !BeastLaws Rq Rsp Sr Ps B, pl : Platform}.
Implicit Types (s : ssl_stream K G) (h : http_socket (ssl_stream K G) B).

(** The connection delivers under a deadline: entered with that deadline set on the next
    layer and the next layer's own I/O timeout out of the way, writes succeed, and so do
    reads while there is something to come. *)
Definition delivers_under (dl : Z) (good : G → Prop) : Prop :=
  ∀ s, good (ssl_engine s) →
    timer_expiry (base (ssl_next s)) = dl → deadline_fired_ (base (ssl_next s)) = false →
    ssl_io_timeout_enabled s = false →
    (∀ bs, ec_failed (layer_write_some bs s).2.2 = false ∧ good (ssl_engine (layer_write_some bs s).1)) ∧
    (∀ n, ssl_incoming s ≠ [] →
       ec_failed (layer_read_some n s).2.2 = false ∧ good (ssl_engine (layer_read_some n s).1)).

Lemma delivers_working dl good : delivers_under dl good → working dl (λ s, good (ssl_engine s)).
Proof.
  intros Hd. split; intros x s Hg.
  - destruct (Hd (armed_layer dl s)) as [Hw _]; [done..|]. specialize (Hw x).
    cbn [hs_write_some ssl_http_stream]. rewrite ssl_write_some_unfold.
    by destruct (layer_write_some x (armed_layer dl s)) as [s' [n ec]].
  - intros Hin. destruct (Hd (armed_layer dl s)) as [_ Hr]; [done..|].
    specialize (Hr x). rewrite (ssl_incoming_engine (armed_layer dl s) s) in Hr by done. specialize (Hr Hin).
    cbn [hs_read_some ssl_http_stream]. rewrite ssl_read_some_unfold.
    by destruct (layer_read_some x (armed_layer dl s)) as [s' [data ec]].
Qed.


End Claims.

(** ** Witnesses *)

(** An engine that takes up to two bytes a call and delivers up to three. *)
Record wire_engine := mk_wire { wire_out : list byte; wire_in : list byte }.

#[export] Instance wire_ssl_layer : SslLayer toy_socket wire_engine := {|
  ssl_context_ctor := Normal tt;
  ssl_set_default_verify_paths := Normal tt;
  ssl_init w := Normal (mk_ssl w (mk_wire [] []));
  ssl_set_host _ s := (s, true);
  ssl_last_error _ := 1;
  ssl_set_verify_mode s := Normal s;
  ssl_set_verify_callback _ s := Normal s;
  layer_handshake s := (s, ec_ok);
  layer_shutdown s := (s, ec_ok);
  layer_write_some b s :=
    let n := Nat.min 2 (length b) in
    (mk_ssl (ssl_next s) (mk_wire (wire_out (ssl_engine s) ++ take n b) (wire_in (ssl_engine s))), (Z.of_nat n, ec_ok));
  layer_read_some n s :=
    let i := wire_in (ssl_engine s) in
    (mk_ssl (ssl_next s) (mk_wire (wire_out (ssl_engine s)) (drop (Nat.min 3 n) i)),
     (take (Nat.min 3 n) i, if decide (i = []) then asio_eof else ec_ok));
  ssl_accepted s := wire_out (ssl_engine s);
  stream_truncated := 1
|}.

#[export] Instance wire_ssl_layer_laws : SslLayerLaws toy_socket wire_engine.
Proof.
  split; cbn -[Nat.min]; try done; try (by intros; simplify_eq).
  - intros b s. lia.
  - intros b s. by rewrite Nat2Z.id.
  - intros n s. rewrite length_take. lia.
  - by intros s s' ->.
Qed.

#[export, program] Instance wire_ssl_peer : SslPeer toy_socket wire_engine := {|
  ssl_incoming s := wire_in (ssl_engine s)
|}.
Next Obligation. intros s s' E. cbn. by rewrite E. Qed.
Next Obligation.
  intros n s. cbn -[Nat.min]. rewrite take_drop. split; [done|]. case_decide as Hi.
  - rewrite Hi, take_nil. by vm_compute.
  - split; [done|]. intros _ Hn. destruct (wire_in (ssl_engine s)); [done|].
    destruct (Nat.min 3 n) eqn:En; [lia|done].
Qed.
Next Obligation. done. Qed.
Next Obligation. done. Qed.
Next Obligation. intros [|x b] s; [done|]. cbn -[Nat.min]. simpl length. lia. Qed.

Definition toy_https_client : http_socket (ssl_stream toy_socket wire_engine) toy_buffer :=
  http_socket_ctor (mk_ssl toy_stream (mk_wire [] [x0a; x0b])).

