(* ===== verification/HttpSession.v ===== *)
(** * The life of an HTTP session

    A session from the call of [new_session] that makes it through any number of exchanges:
    the state it is in between calls, and what that state guarantees of the next call.  The
    pool lends sessions to one client after another on the strength of it.  The life is
    the same for every stream; here is the one of the sessions of an [http_connector]. *)

From S2P Require Import Prelude ErrorCode TimedBase IoLoop BaseSocket Transfer StreamSocket.
From S2P Require Import SslSocket HttpSocket Connector HttpClient.
From Stdlib Require Import Strings.Byte.
Open Scope sc_scope.

(** ** What an exchange preserves

    [I] holds before a call of the stream; it holds afterwards too, or the weaker [J] does
    and the call reports one of the errors [broke]; then so it is for whole exchanges. *)
Section Keeps.
Context {W Rq Rsp Sr Ps B : Type} `{HttpStream W, bb : Beast Rq Rsp Sr Ps B, pl : Platform}.
Variables (I J : W → Prop) (broke : error_code → bool) (dl : Z).
Hypothesis broke_failed : ∀ ec, broke ec = true → ec_failed ec = true ∧ ec ≠ asio_eof.
Hypothesis write_keeps : ∀ bs w, I w →
  let '(w', (_, ec)) := hs_write_some bs dl w in I w' ∨ (J w' ∧ broke ec = true).
Hypothesis read_keeps : ∀ n w, I w →
  let '(w', (_, ec)) := hs_read_some n dl w in I w' ∨ (J w' ∧ broke ec = true).

Lemma send_loop_keeps fuel s ec w w' ec' :
  I w → send_loop fuel s ec dl w = Some (w', ec') → I w' ∨ (J w' ∧ broke ec' = true).
Proof.
  revert s ec w. induction fuel as [|fuel IH]; intros s ec w Hi; [done|]. cbn [send_loop].
  destruct (sr_is_done s); [intros [= <- _]; by left|]. destruct (sr_next s) as [s1 [err|bs]].
  - destruct (ec_failed err); [intros [= <- _]; by left|by apply IH].
  - pose proof (write_keeps bs w Hi) as Hk. destruct (hs_write_some bs dl w) as [w1 [n err]].
    destruct Hk as [Hk|[Hk Hb]]; [|rewrite (proj1 (broke_failed _ Hb)); intros [= <- <-]; by right].
    destruct (ec_failed err); [intros [= <- _]; by left|by apply IH].
Qed.

Lemma recv_loop_keeps fuel p b ec w p' b' ec' w' :
  I w → recv_loop fuel p b ec dl w = Some (p', b', ec', w') → I w' ∨ (J w' ∧ broke ec' = true).
Proof.
  revert p b ec w. induction fuel as [|fuel IH]; intros p b ec w Hi; [done|]. cbn [recv_loop].
  destruct (ps_is_done p); [intros [= _ _ _ <-]; by left|].
  destruct (fb_prepare _ b) as [b1|]; [|intros [= _ _ _ <-]; by left].
  pose proof (read_keeps (Z.to_nat (Z.min 65536 ((fb_max_size b -u Z.of_nat (length (fb_data b))) -u 1))) w Hi) as Hk.
  destruct (hs_read_some _ dl w) as [w1 [data err]].
  destruct Hk as [Hk|[Hk Hb]].
  2:{ destruct (broke_failed _ Hb) as [Hf Hne]. rewrite decide_False, Hf by done. intros [= _ _ <- <-]. by right. }
  case_decide.
  - destruct (ps_got_some p).
    + destruct (ps_put_eof p) as [p1 ec1]. destruct (negb (ec_failed ec1)) eqn:En; [by apply IH|].
      apply negb_false_iff in En. rewrite En. intros [= _ _ _ <-]. by left.
    + destruct (ec_failed end_of_stream); [intros [= _ _ _ <-]; by left|].
      destruct (ps_put _ p) as [p1 [n ec1]]. destruct (_ && _); [intros [= _ _ _ <-]; by left|by apply IH].
  - destruct (ec_failed err); [intros [= _ _ _ <-]; by left|].
    destruct (ps_put _ p) as [p1 [n ec1]]. destruct (_ && _); [intros [= _ _ _ <-]; by left|by apply IH].
Qed.

Lemma perform_keeps fuel (request : Rq) ec (h h' : http_socket W B) r ec' :
  I (stream_ h) → perform fuel request ec dl h = Some (r, ec', h') →
  I (stream_ h') ∨ (J (stream_ h') ∧ broke ec' = true).
Proof.
  intros Hi. unfold perform, send_request. destruct (send_loop _ _ _ _ _) as [[w1 ec1]|] eqn:Es; [|done].
  apply send_loop_keeps in Es; [|done]. destruct (ec_failed ec1) eqn:Ef; [by intros [= _ <- <-]|].
  destruct Es as [Hi1|[_ Hb]]; [|by rewrite (proj1 (broke_failed _ Hb)) in Ef].
  unfold recv_response. cbn [buffer_ stream_]. destruct (recv_loop _ _ _ _ _ _) as [[[[p b] ec2] w2]|] eqn:Er; [|done].
  apply recv_loop_keeps in Er; [|done]. by intros [= _ <- <-].
Qed.

End Keeps.

(** ** The life of a session

    A session that was [made], after any number of exchanges that returned; the count
    is that of the exchanges that reported an error that broke it. *)
Section Life.
Context {W Rq Rsp Sr Ps B : Type}.
Context `{HttpStream W, !HttpStreamLaws W, !HttpPeer W, bb : Beast Rq Rsp Sr Ps B, !BeastLaws Rq Rsp Sr Ps B, pl : Platform}.
Variables (made : http_socket W B → Prop) (broke : error_code → bool).
Implicit Types (h : http_socket W B).

Inductive session_life : nat → http_socket W B → Prop :=
| session_made h : made h → session_life 0 h
| session_used broken h fuel (request : Rq) ec dl r ec' h' :
    session_life broken h →
    perform fuel request ec dl h = Some (r, ec', h') → (length (sr_rest (sr_new request)) < fuel)%nat →
    session_life (if broke ec' then Datatypes.S broken else broken) h'.

Variable I : bool → W → Prop.
Hypothesis I_weaker : ∀ w, I true w → I false w.
Hypothesis broke_failed : ∀ ec, broke ec = true → ec_failed ec = true ∧ ec ≠ asio_eof.
Hypothesis made_keeps : ∀ h, made h → I true (stream_ h) ∧ fb_max_size (buffer_ h) = kBodyLimit + kHeaderLimit.
Hypothesis write_keeps : ∀ o dl bs w, I o w →
  let '(w', (_, ec)) := hs_write_some bs dl w in I o w' ∨ (I false w' ∧ broke ec = true).
Hypothesis read_keeps : ∀ o dl n w, I o w →
  let '(w', (_, ec)) := hs_read_some n dl w in I o w' ∨ (I false w' ∧ broke ec = true).

(** What the calls of the stream keep, the session keeps; and the next exchange returns. *)
Lemma session_life_keeps broken h :
  session_life broken h →
  I (broken =? 0)%nat (stream_ h) ∧ fb_max_size (buffer_ h) = kBodyLimit + kHeaderLimit ∧
  ∀ fuel (request : Rq) ec dl, exchange_fuel fuel request (stream_ h) →
    is_Some (perform fuel request ec dl h) ∨ parser_stalls (hp_input (stream_ h)).
Proof.
  induction 1 as [h Hm|broken h fuel request ec dl r ec' h' Hs (Hi & Hb & _) Hp Hf].
  - destruct (made_keeps h Hm). split_and!; [done..|]. intros. by apply perform_returns.
  - destruct (perform_sound fuel request ec dl h r ec' h' Hb Hf Hp) as (_ & _ & Hb' & _).
    split; [|split; [done|intros; by apply perform_returns]].
    destruct (perform_keeps (I (broken =? 0)%nat) (I false) broke dl broke_failed
      (write_keeps _ dl) (read_keeps _ dl) _ _ _ _ _ _ _ Hi Hp) as [Hk|[Hk Hbr]]; [|by rewrite Hbr].
    destruct (broke ec'); [|exact Hk]. destruct broken; [by apply I_weaker|exact Hk].
Qed.

End Life.

(** ** A TCP connection between calls *)

Section Connection.
Context {K E : Type} `{AsioSocketLaws K E, tm : AsioTimer, pl : Platform}.
Implicit Types (w : tcp_connection K) (v : stream_socket K).

(** No deadline is armed and one wait handler is posted; the timeouts are those the
    connector gave; what the kernel is going to do happens within the clock's range. *)
Record connection_idle (operation_timeout : Z) (w : tcp_connection K) : Prop := {
  idle_disarmed : disarmed (tc_stream w);
  idle_clock : clock_ok (now (tc_stream w));
  idle_timeout : io_operation_timeout_ (self (tc_stream w)) = operation_timeout;
  idle_enabled : io_timeouted_ (self (tc_stream w)) = true;
  idle_calls k : clock_ok (ac_time (tc_calls w k)) ∧ Forall clock_ok (ac_waits (tc_calls w k))
}.

(** One call under a deadline: it ends with nothing armed, the socket untouched unless the
    deadline fired, in which case it reports that. *)
Lemma transfer_some_deadline ts t err n dl v :
  disarmed v → clock_ok (now v) → clock_ok t → Forall clock_ok ts → err ≠ would_block →
  ∃ v' ec, call_done (transfer_some async_start_some (map EvTimer ts ++ [EvOp t err n]) (Deadline dl) v) = (v', n, ec) ∧
    disarmed v' ∧ clock_ok (now v') ∧
    (self v' = self v ∨ (self v' = deadline_actor (self v) ∧ ec = timed_out)).
Proof.
  intros Hdis Hc Ht Hts Hne. unfold transfer_some, async_start_some. rewrite scope_expire_deadline.
  assert (Ho : first_op (map EvTimer ts ++ [EvOp t err n]) = Some (ts, (t, err, n), [])).
  { clear Hts. induction ts as [|u ts IH]; simpl; [done|by rewrite IH]. }
  assert (Hev : Forall (λ ev, clock_ok (event_time ev)) (map EvTimer ts ++ [EvOp t err n])).
  { apply Forall_app_2; [by apply Forall_map|by apply Forall_singleton]. }
  pose proof Hdis as (_ & Hw & _).
  erewrite attempt_spec by done. cbn [timer_expiry base expires_at set_fired set_base now].
  set (w1 := expires_at dl _). do 2 eexists. split; [done|]. split.
  - apply io_reset_disarmed, completion_disarmed; [done..|by left].
  - split; [apply clock_after_ok; [done|by apply Forall_app_2, Forall_cons_2]|]. simpl.
    destruct (fires dl (now v) ts); [by right|by left].
Qed.

(** [deadline_actor] closes the socket and leaves the timeouts. *)
Lemma actor_timeouts (b : base_socket K) :
  io_operation_timeout_ (deadline_actor b) = io_operation_timeout_ b ∧
  io_timeouted_ (deadline_actor b) = io_timeouted_ b.
Proof. unfold deadline_actor, base_socket_deadline_actor, close_ec, close. by destruct (sk_close _). Qed.

(** The connection is idle, and open if [o]. *)
Definition idle_open (ot : Z) (o : bool) w : Prop :=
  connection_idle ot w ∧ (o = true → is_open (self (tc_stream w)) = true).

(** The connection after a call. *)
Lemma call_keeps ot o w v' ec next sent input :
  idle_open ot o w → disarmed v' → clock_ok (now v') →
  self v' = self (tc_stream w) ∨ (self v' = deadline_actor (self (tc_stream w)) ∧ ec = timed_out) →
  let w' := mk_tcp v' (tc_calls w) next sent input in
  idle_open ot o w' ∨ (idle_open ot false w' ∧ bool_decide (ec = timed_out) = true).
Proof.
  intros [[Hd Hc Ht He Hk] Ho] Hd' Hc' Hself w'.
  destruct (actor_timeouts (self (tc_stream w))) as [Ea1 Ea2].
  assert (Hidle : connection_idle ot w').
  { split; [done|done| | |exact Hk]; unfold w'; cbn [tc_stream]; destruct Hself as [->|[-> _]]; congruence. }
  destruct Hself as [Es|[_ ->]]; [left|right; split; [by split|by rewrite bool_decide_true]]. split; [done|]. unfold w'. cbn [tc_stream]. by rewrite Es.
Qed.

Lemma write_keeps_idle ot o dl bs w :
  idle_open ot o w →
  let '(w', (_, ec)) := hs_write_some bs dl w in
  idle_open ot o w' ∨ (idle_open ot false w' ∧ bool_decide (ec = timed_out) = true).
Proof.
  intros Hi. pose proof Hi as [[Hd Hc _ _ Hk] _].
  cbn [hs_write_some tcp_http_stream]. unfold tcp_write_some, write_some, async_write_some, call_events.
  set (c := tc_calls w (tc_next w)). destruct (kernel_write_ok c bs) as (Hne & _).
  destruct (Hk (tc_next w)) as [Ht Hts].
  destruct (transfer_some_deadline (ac_waits c) (ac_time c) (kernel_write c bs).2 (kernel_write c bs).1 dl (tc_stream w))
    as (v' & ec & -> & Hd' & Hc' & Hs); [done..|]. by apply call_keeps.
Qed.

Lemma read_keeps_idle ot o dl n w :
  idle_open ot o w →
  let '(w', (_, ec)) := hs_read_some n dl w in
  idle_open ot o w' ∨ (idle_open ot false w' ∧ bool_decide (ec = timed_out) = true).
Proof.
  intros Hi. pose proof Hi as [[Hd Hc _ _ Hk] _].
  cbn [hs_read_some tcp_http_stream]. unfold tcp_read_some, read_some, async_read_some, call_events.
  set (c := tc_calls w (tc_next w)). destruct (kernel_read_ok c n (tc_input w)) as (Hne & _).
  destruct (Hk (tc_next w)) as [Ht Hts].
  destruct (transfer_some_deadline (ac_waits c) (ac_time c) (kernel_read c n (tc_input w)).2 (kernel_read c n (tc_input w)).1 dl (tc_stream w))
    as (v' & ec & -> & Hd' & Hc' & Hs); [done..|]. by apply call_keeps.
Qed.

End Connection.

(** ** Sessions *)

(** A session comes from a successful [connect_until]. *)
Lemma made_session {X Ep Stream} `{ConnectUntil X Ep Stream, Platform} (env : session_env X Ep) dl ec ec' notified (h : Stream) :
  new_session env ec dl = Some (Some h, ec', notified) →
  ∃ peer ok, connect_until (sv_connect env) peer dl (sv_now env) = IoDone ok h.
Proof.
  unfold new_session, connect_loop. destruct (negb _); [done|].
  destruct (sv_shuffled env) as [|peer tl]; [done|].
  destruct (connect_until _ peer _ _) as [ok st| |] eqn:Ec; try done.
  intros [= <- _ _]. by exists peer, ok.
Qed.

Section Claims.
Context {K E Rq Rsp Sr Ps B : Type}.
Context `{AsioSocketLaws K E, bb : Beast Rq Rsp Sr Ps B, !BeastLaws Rq Rsp Sr Ps B, tm : AsioTimer, pl : Platform}.
Implicit Types (h : http_socket (tcp_connection K) B).

(** A session: what [new_session] of an [http_connector] returned, on a connection that goes
    its own way from then on; [timed_out] is what breaks it. *)
Definition http_made (operation_timeout : Z) (h : http_socket (tcp_connection K) B) : Prop :=
  ∃ env dl ec ec' notified calls input (h0 : http_socket (stream_socket K) B),
    new_session env ec dl = Some (Some h0, ec', notified) ∧
    cs_operation_timeout (sv_connect env) = operation_timeout ∧
    clock_ok (sv_now env) ∧ Forall (λ ev, clock_ok (event_time ev)) (cs_events (sv_connect env)) ∧
    (∀ k : nat, clock_ok (ac_time (calls k)) ∧ Forall clock_ok (ac_waits (calls k))) ∧
    h = mk_http (mk_tcp (stream_ h0) calls 0 [] input) (buffer_ h0).

Definition http_session (operation_timeout : Z) : nat → http_socket (tcp_connection K) B → Prop :=
  session_life (http_made operation_timeout) (λ ec, bool_decide (ec = timed_out)).

Lemma connected_idle x peer until t ok (h : http_socket (stream_socket K) B) calls input :
  clock_ok t → Forall (λ ev, clock_ok (event_time ev)) (cs_events x) →
  (∀ k : nat, clock_ok (ac_time (calls k)) ∧ Forall clock_ok (ac_waits (calls k))) →
  connect_until_http x peer until t = IoDone ok h →
  connection_idle (cs_operation_timeout x) (mk_tcp (stream_ h) calls 0 [] input) ∧
  is_open (self (stream_ h)) = true ∧ fb_max_size (buffer_ h) = kBodyLimit + kHeaderLimit.
Proof.
  intros Hc Hev Hk. unfold connect_until_http.
  destruct (base_socket_ctor _ _ _ _ _ _ _) as [ec w| |] eqn:Ec; try done. intros [= _ <-].
  destruct (base_socket_ctor_settings _ _ _ _ _ _ _ _ _ Ec) as (Ho & _ & Et & Ee).
  destruct (base_socket_ctor_disarmed _ _ _ _ _ _ _ _ _ Hc Hev Ec) as [Hd Hn].
  split; [by split|]. split; [exact Ho|apply fb_new_max].
Qed.

Lemma http_session_idle ot timeouts h :
  http_session ot timeouts h →
  idle_open ot (timeouts =? 0)%nat (stream_ h) ∧ fb_max_size (buffer_ h) = kBodyLimit + kHeaderLimit ∧
  ∀ fuel (request : Rq) ec dl, exchange_fuel fuel request (stream_ h) →
    is_Some (perform fuel request ec dl h) ∨ parser_stalls (hp_input (stream_ h)).
Proof.
  apply session_life_keeps.
  - by intros w [Hi _].
  - intros ec ->%bool_decide_eq_true. split; [apply timed_out_failed|done].
  - intros h0 (env & dl & ec & ec' & ? & calls & input & h1 & Hn & <- & Hc & Hev & Hk & ->).
    destruct (made_session _ _ _ _ _ _ Hn) as (peer & ok & Ec).
    by destruct (connected_idle _ _ _ _ _ _ calls input Hc Hev Hk Ec) as (Hi & Ho & Hb).
  - intros o dl. apply write_keeps_idle.
  - intros o dl. apply read_keeps_idle.
Qed.

(** C19: every session of an HTTP connector, however many exchanges it has been through, is
    between calls in the state the next one relies on: no deadline is armed and exactly one
    wait handler is posted, the I/O timeout is enabled with the connector's operation
    timeout, the buffer has the limits of the constructor; it is open unless one of its
    exchanges has reported [timed_out]; and whatever is asked of it next returns, unless the
    parser stalls on what the peer sends. *)
Theorem http_session_well_formed ot timeouts h :
  http_session ot timeouts h →
  connection_idle ot (stream_ h) ∧ hs_io_timeout (stream_ h) = ot ∧
  fb_max_size (buffer_ h) = kBodyLimit + kHeaderLimit ∧
  (hs_is_open (stream_ h) = false → (0 < timeouts)%nat) ∧
  ∀ fuel request ec dl, exchange_fuel fuel request (stream_ h) →
    is_Some (perform fuel request ec dl h) ∨ parser_stalls (hp_input (stream_ h)).
Proof.
  intros Hs. destruct (http_session_idle ot timeouts h Hs) as ([Hi Ho] & Hb & Hp). split_and!; [done| |done| |done].
  - cbn [hs_io_timeout tcp_http_stream]. unfold io_timeout. by rewrite (idle_enabled _ _ Hi), (idle_timeout _ _ Hi).
  - cbn [hs_is_open tcp_http_stream]. intros Hc. destruct timeouts; [|lia]. by rewrite Ho in Hc.
Qed.

End Claims.

(** ** Witness *)

Definition toy_http_env : session_env connect_setting nat :=
  mk_session_env None true None false [7%nat; 8%nat] ec_ok 100
    (mk_setting [EvTimer 200; EvOp 2500 ec_ok tt] 5000 "localhost" true).

Definition toy_made : http_socket (tcp_connection toy_socket) toy_buffer :=
  match new_session (Stream := http_socket (stream_socket toy_socket) toy_buffer) toy_http_env ec_ok 8000 with
  | Some (Some h, _, _) => mk_http (mk_tcp (stream_ h) (λ _, toy_call) 0 [] [x0a; x0b]) (buffer_ h)
  | _ => toy_tcp_client
  end.

Lemma http_session_well_formed_witness :
  hs_io_timeout (stream_ toy_made) = 5000 ∧
  (is_Some (perform 9 [x01; x02; x03] ec_ok 90000 toy_made) ∨ parser_stalls (hp_input (stream_ toy_made))).
Proof.
  destruct (http_session_well_formed 5000 0 toy_made) as (_ & Ht & _ & _ & Hp).
  - unfold toy_made.
    assert (Hn : ∃ h ec' n, new_session (Stream := http_socket (stream_socket toy_socket) toy_buffer)
      toy_http_env ec_ok 8000 = Some (Some h, ec', n)) by (do 3 eexists; vm_compute; reflexivity).
    destruct Hn as (h & ec' & n & Hn). rewrite Hn.
    apply session_made. exists toy_http_env, 8000, ec_ok, ec', n, (λ _, toy_call), [x0a; x0b], h.
    split; [exact Hn|]. split; [reflexivity|]. split; [done|]. split; [repeat constructor; done|].
    split; [|reflexivity]. intros k. split; [done|]. repeat constructor; done.
  - split; [exact Ht|]. apply Hp. split; simpl; lia.
Defined.
