(* ===== verification/HttpsSession.v ===== *)
(** * The life of an HTTPS session

    The sessions of an [https_connector]: made by a connect, a host name and a handshake,
    then used for any number of exchanges, each of which goes through the deadlines of the
    encrypted stream.  What HttpSession states of every stream holds of this one, by the
    laws of SslDeadline. *)

From S2P Require Import Prelude ErrorCode TimedBase IoLoop BaseSocket Transfer StreamSocket.
From S2P Require Import SslSocket SslDeadline HttpSocket Connector HttpClient HttpsClient HttpSession.
From Stdlib Require Import Strings.Byte.
Open Scope sc_scope.

(** ** An encrypted connection between calls *)

Section Connection.
Context {K E G : Type}.
Context `{sk : AsioSocket K E, !AsioSocketLaws K E, tm : AsioTimer, pl : Platform, sl : SslLayer K G,
  !SslLayerLaws K G, !SslLayerCalls K E G}.
Implicit Types (s : ssl_stream K G).

(** No deadline is armed and the timeouts are those the connector gave; open if [o]. *)
Record ssl_idle (operation_timeout : Z) (o : bool) s : Prop := {
  ssl_idle_disarmed : disarmed (ssl_next s);
  ssl_idle_clock : clock_ok (ssl_now s);
  ssl_idle_timeout : io_operation_timeout_ (self (ssl_next s)) = operation_timeout;
  ssl_idle_enabled : ssl_io_timeout_enabled s = true;
  ssl_idle_open : o = true → ssl_is_open s = true
}.

(** What a failed exchange may mean for the connection: any error but the end of the
    stream may be that of a deadline. *)
Definition tls_broke (ec : error_code) : bool := ec_failed ec && negb (bool_decide (ec = asio_eof)).

Lemma tls_broke_failed ec : tls_broke ec = true → ec_failed ec = true ∧ ec ≠ asio_eof.
Proof. intros [Hf Hn]%andb_true_iff. apply negb_true_iff, bool_decide_eq_false in Hn. done. Qed.

Lemma ssl_idle_weaker ot s : ssl_idle ot true s → ssl_idle ot false s.
Proof. by intros []. Qed.

(** An operation that keeps its deadline keeps the connection idle. *)
Lemma in_time_idle x ot o s ec s' :
  ssl_idle ot o s → within_deadline x s ec s' → ssl_idle ot o s' ∨ (ssl_idle ot false s' ∧ tls_broke ec = true).
Proof.
  intros [_ _ Ht He Ho] (Hd & Hc & _ & [Hs|(_ & Hf & Hne & Hs)]); [left|right; split].
  - split; try done; unfold ssl_io_timeout_enabled, ssl_is_open in *; by rewrite Hs.
  - destruct (actor_timeouts (self (ssl_next s))) as [E1 E2]. unfold deadline_actor, base_socket_deadline_actor, close_ec in *.
    split; try done; unfold ssl_io_timeout_enabled, io_timeout_enabled in *; rewrite Hs; congruence.
  - unfold tls_broke. by rewrite Hf, bool_decide_false.
Qed.

Lemma ssl_write_keeps ot o dl bs s :
  ssl_idle ot o s →
  let '(s', (_, ec)) := hs_write_some bs dl s in ssl_idle ot o s' ∨ (ssl_idle ot false s' ∧ tls_broke ec = true).
Proof.
  intros Hi. destruct (ssl_operations_in_time (Deadline dl) s bs 0) as ((s' & n & ec & E1 & Ht) & _);
    [apply Hi..|done|]. cbn [hs_write_some ssl_http_stream]. rewrite E1. by eapply in_time_idle.
Qed.

Lemma ssl_read_keeps ot o dl n s :
  ssl_idle ot o s →
  let '(s', (_, ec)) := hs_read_some n dl s in ssl_idle ot o s' ∨ (ssl_idle ot false s' ∧ tls_broke ec = true).
Proof.
  intros Hi. destruct (ssl_operations_in_time (Deadline dl) s [] n) as (_ & (s' & data & ec & E1 & Ht) & _);
    [apply Hi..|done|]. cbn [hs_read_some ssl_http_stream]. rewrite E1. by eapply in_time_idle.
Qed.

(** The constructor of [ssl::stream_socket] with the handshake: what it returns is open and
    idle, though the handshake ran under a deadline. *)
Lemma ssl_ctor_idle on_linux evs (ep : E) ct ot host t0 ok s :
  clock_ok t0 → Forall (λ ev, clock_ok (event_time ev)) evs →
  ssl_stream_ctor on_linux evs ep ct ot host true t0 = IoDone ok s → ssl_idle ot true s.
Proof.
  intros Hc Hev. unfold ssl_stream_ctor, or_throw. destruct ssl_context_ctor; [|done].
  destruct ssl_set_default_verify_paths; [|done].
  destruct (base_socket_ctor _ _ _ _ _ _ _) as [ec w| |] eqn:Ec; try done.
  destruct (base_socket_ctor_settings _ _ _ _ _ _ _ _ _ Ec) as (Ho & _ & Et & Ee).
  destruct (base_socket_ctor_disarmed _ _ _ _ _ _ _ _ _ Hc Hev Ec) as [Hd Hn].
  destruct (ssl_init w) as [s0|] eqn:Ei; [|done].
  pose proof (ssl_set_host_next host s0) as Hnext. rewrite (ssl_init_next _ _ Ei) in Hnext.
  destruct (ssl_set_host host s0) as [s1 [|]]; [|done]. cbn [negb fst] in *.
  destruct (ssl_set_verify_mode s1) as [s1'|] eqn:Em; [|done].
  destruct (ssl_set_verify_callback host s1') as [s2|] eqn:Eb; [|done].
  assert (Hv : ssl_next s2 = w).
  { by rewrite (ssl_set_verify_callback_next _ _ _ Eb), (ssl_set_verify_mode_next _ _ Em). }
  assert (Hi : ssl_idle ot true s2).
  { split; unfold ssl_io_timeout_enabled, ssl_is_open, ssl_now; rewrite Hv; done. }
  destruct (ssl_operations_in_time (Deadline (t0 +i ct)) s2 [] 0) as (_ & _ & s3 & err & E3 & Ht); [apply Hi..|done|].
  unfold ssl_handshake_throw. rewrite E3. destruct (ec_failed err) eqn:Ef; [done|]. intros [= _ <-].
  destruct (in_time_idle _ _ _ _ _ _ Hi Ht) as [?|[_ Hb]]; [done|].
  by apply tls_broke_failed in Hb as [Hb _]; rewrite Ef in Hb.
Qed.

End Connection.

(** ** Sessions *)

Section Claims.
Context {K E G Rq Rsp Sr Ps B : Type}.
Context `{sk : AsioSocket K E, !AsioSocketLaws K E, tm : AsioTimer, pl : Platform, sl : SslLayer K G,
  !SslLayerLaws K G, !SslPeer K G, !SslLayerCalls K E G, bb : Beast Rq Rsp Sr Ps B, !BeastLaws Rq Rsp Sr Ps B}.
Hypothesis errors_queued : ssl_errors_queued (K := K) (G := G).
Implicit Types (h : http_socket (ssl_stream K G) B).

(** A session: what [new_session] of an [https_connector] returned. *)
Definition https_made (operation_timeout : Z) h : Prop :=
  ∃ env dl ec ec' notified,
    new_session (H := https_connect_until errors_queued) env ec dl = Some (Some h, ec', notified) ∧
    cs_operation_timeout (sv_connect env) = operation_timeout ∧
    clock_ok (sv_now env) ∧ Forall (λ ev, clock_ok (event_time ev)) (cs_events (sv_connect env)).

Definition https_session (operation_timeout : Z) : nat → http_socket (ssl_stream K G) B → Prop :=
  session_life (https_made operation_timeout) tls_broke.

Lemma https_session_idle ot broken h :
  https_session ot broken h →
  ssl_idle ot (broken =? 0)%nat (stream_ h) ∧ fb_max_size (buffer_ h) = kBodyLimit + kHeaderLimit ∧
  ∀ fuel (request : Rq) ec dl, exchange_fuel fuel request (stream_ h) →
    is_Some (perform fuel request ec dl h) ∨ parser_stalls (hp_input (stream_ h)).
Proof.
  apply (session_life_keeps _ _ (ssl_idle ot)).
  - apply ssl_idle_weaker.
  - apply tls_broke_failed.
  - intros h0 (env & dl & ec & ec' & ? & Hn & <- & Hc & Hev).
    destruct (made_session (H := https_connect_until errors_queued) _ _ _ _ _ _ Hn) as (peer & ok & Ec). cbn [connect_until https_connect_until] in Ec.
    unfold connect_until_https in Ec. destruct (ssl_stream_ctor _ _ _ _ _ _ _ _) as [ok1 s| |] eqn:Es; try done.
    injection Ec as _ <-. split; [by eapply ssl_ctor_idle|apply fb_new_max].
  - intros o dl. apply ssl_write_keeps.
  - intros o dl. apply ssl_read_keeps.
Qed.

(** C21: every session of an HTTPS connector, however many exchanges it has been through, is
    between calls in the state the next one relies on: nothing that an operation armed is
    left armed, neither by the handshake of its construction nor by an exchange, the I/O
    timeout mode they switch off is on again, with the connector's operation timeout; the
    connection is open unless an exchange has failed with more than the end of the stream;
    and whatever is asked of it next returns, unless the parser stalls on what the peer
    sends. *)
Theorem https_session_well_formed ot broken h :
  https_session ot broken h →
  disarmed (ssl_next (stream_ h)) ∧ hs_io_timeout (stream_ h) = ot ∧
  fb_max_size (buffer_ h) = kBodyLimit + kHeaderLimit ∧
  (hs_is_open (stream_ h) = false → (0 < broken)%nat) ∧
  ∀ fuel request ec dl, exchange_fuel fuel request (stream_ h) →
    is_Some (perform fuel request ec dl h) ∨ parser_stalls (hp_input (stream_ h)).
Proof.
  intros Hs. destruct (https_session_idle ot broken h Hs) as ([Hd _ Ht He Ho] & Hb & Hp). split_and!; [done| |done| |done].
  - cbn [hs_io_timeout ssl_http_stream]. unfold ssl_io_timeout, io_timeout.
    unfold ssl_io_timeout_enabled, io_timeout_enabled in He. by rewrite He.
  - cbn [hs_is_open ssl_http_stream]. intros Hc. destruct broken; [|lia]. by rewrite Ho in Hc.
Qed.

End Claims.

(** ** Witness *)

(** The engine of HttpsClient makes no calls of the socket. *)
#[export] Instance wire_ssl_calls : SslLayerCalls toy_socket nat wire_engine.
Proof. split; simpl; intros; exists [], None; by split; [constructor|]. Qed.

Lemma wire_errors_queued : ssl_errors_queued (K := toy_socket) (G := wire_engine).
Proof. by split. Qed.

Definition toy_https_made : http_socket (ssl_stream toy_socket wire_engine) toy_buffer :=
  match new_session (H := https_connect_until wire_errors_queued) toy_http_env ec_ok 8000 with
  | Some (Some h, _, _) => h
  | _ => toy_https_client
  end.

Lemma https_session_well_formed_witness :
  hs_io_timeout (stream_ toy_https_made) = 5000 ∧
  (is_Some (perform 9 [x01; x02; x03] ec_ok 90000 toy_https_made) ∨ parser_stalls (hp_input (stream_ toy_https_made))).
Proof.
  destruct (https_session_well_formed wire_errors_queued 5000 0 toy_https_made) as (_ & Ht & _ & _ & Hp).
  - unfold toy_https_made.
    assert (Hn : ∃ h ec' n, new_session (H := https_connect_until (B := toy_buffer) wire_errors_queued)
      toy_http_env ec_ok 8000 = Some (Some h, ec', n)) by (do 3 eexists; vm_compute; reflexivity).
    destruct Hn as (h & ec' & n & Hn). rewrite Hn.
    apply session_made. exists toy_http_env, 8000, ec_ok, ec', n. split; [exact Hn|].
    split; [reflexivity|]. split; [done|]. repeat constructor; done.
  - split; [exact Ht|]. apply Hp. split; simpl; lia.
Defined.
