(* ===== verification/ConnectorSystem.v ===== *)
(** * The connector with its threads

    [base_connector] as a transition system: the resolving thread of [resolve_routine],
    any number of concurrent calls of [new_session], and the destructor's flag.  A step is
    one critical section of a mutex, or one action outside them; the interleaving is
    arbitrary.  Deadlines are abstracted: a call may give up waiting for the first
    resolution at any time. *)

From S2P Require Import Prelude ErrorCode TimedBase Connector.
Open Scope sc_scope.

(** Where the resolving thread is: at the loop's head; resolving, with
    [resolve_needed_mutex_] held; about to publish its endpoints, still holding it; about
    to notify that the resolution is done; sleeping after a failure; out of the loop. *)
Inductive resolver_pc (Ep : Type) :=
| RLoop
| RResolve
| RPublish (new_endpoints : list Ep)
| RNotify
| RSleep
| RDone.
Arguments RLoop {Ep}.
Arguments RResolve {Ep}.
Arguments RPublish {Ep}.
Arguments RNotify {Ep}.
Arguments RSleep {Ep}.
Arguments RDone {Ep}.

(** Where a call of [new_session] is: waiting for the first resolution; past the wait;
    connecting, with its shuffled copy of the endpoints; about to notify the resolving
    thread; returned, with the endpoint of its session if it has one. *)
Inductive client_pc (Ep : Type) :=
| CWait
| CReady
| CConnect (endpoints : list Ep)
| CNotify (ec : error_code)
| CReturned (session : option Ep) (ec : error_code).
Arguments CWait {Ep}.
Arguments CReady {Ep}.
Arguments CConnect {Ep}.
Arguments CNotify {Ep}.
Arguments CReturned {Ep}.

Record conn_system (Ep : Type) := mk_conn_system {
  cn : connector Ep;
  cn_pc : resolver_pc Ep;
  cn_clients : gmap nat (client_pc Ep);
  (** the lists ever published; the requests to resolve made so far (the constructor's
      included), how many there were when the current resolution began, and how many of
      them a finished resolution has served *)
  cn_published : list (list Ep);
  cn_requests : nat;
  cn_begun : nat;
  cn_served : nat
}.
Arguments mk_conn_system {Ep}.
Arguments cn {Ep}.
Arguments cn_pc {Ep}.
Arguments cn_clients {Ep}.
Arguments cn_published {Ep}.
Arguments cn_requests {Ep}.
Arguments cn_begun {Ep}.
Arguments cn_served {Ep}.

(** Whether the resolving thread holds [resolve_needed_mutex_]. *)
Definition holds_needed {Ep} (pc : resolver_pc Ep) : bool :=
  match pc with RResolve | RPublish _ => true | _ => false end.

Section System.
Context {Ep : Type} `{pl : Platform}.

Inductive conn_step : conn_system Ep → conn_system Ep → Prop :=
(* the destructor clears the flag *)
| cst_stop c pc cl pub rq bg sv :
    conn_step (mk_conn_system c pc cl pub rq bg sv) (mk_conn_system (connector_dtor c) pc cl pub rq bg sv)
(* the resolving thread *)
| cst_exit c cl pub rq bg sv :
    resolving_thread_running_ c = false →
    conn_step (mk_conn_system c RLoop cl pub rq bg sv) (mk_conn_system c RDone cl pub rq bg sv)
| cst_begin c cl pub rq bg sv :
    resolving_thread_running_ c = true → resolve_needed_ c = true →
    conn_step (mk_conn_system c RLoop cl pub rq bg sv) (mk_conn_system c RResolve cl pub rq rq sv)
| cst_resolve_fail c cl pub rq bg sv ec :
    ec_failed ec = true →
    conn_step (mk_conn_system c RResolve cl pub rq bg sv)
      (mk_conn_system (set_resolve_error ec c) RSleep cl pub rq bg sv)
| cst_resolve_ok c cl pub rq bg sv ec eps :
    ec_failed ec = false → eps ≠ [] →
    conn_step (mk_conn_system c RResolve cl pub rq bg sv)
      (mk_conn_system (set_resolve_error ec c) (RPublish eps) cl pub rq bg sv)
| cst_publish c cl pub rq bg sv eps :
    conn_step (mk_conn_system c (RPublish eps) cl pub rq bg sv)
      (mk_conn_system (update_endpoints eps (set_resolve_needed false c)) RNotify cl (eps :: pub) rq bg bg)
| cst_notify_done c cl pub rq bg sv :
    conn_step (mk_conn_system c RNotify cl pub rq bg sv)
      (mk_conn_system (notify_resolve_done c) RLoop cl pub rq bg sv)
| cst_wake c cl pub rq bg sv :
    conn_step (mk_conn_system c RSleep cl pub rq bg sv) (mk_conn_system c RLoop cl pub rq bg sv)
(* a call of [new_session] *)
| cst_call c pc cl pub rq bg sv i :
    cl !! i = None →
    conn_step (mk_conn_system c pc cl pub rq bg sv) (mk_conn_system c pc (<[i := CWait]> cl) pub rq bg sv)
| cst_give_up c pc cl pub rq bg sv i :
    cl !! i = Some CWait →
    conn_step (mk_conn_system c pc cl pub rq bg sv)
      (mk_conn_system c pc (<[i := CReturned None
         (if ec_failed (get_resolve_error c) then get_resolve_error c else timed_out)]> cl) pub rq bg sv)
| cst_ready c pc cl pub rq bg sv i :
    cl !! i = Some CWait → resolve_done_ c = true →
    conn_step (mk_conn_system c pc cl pub rq bg sv) (mk_conn_system c pc (<[i := CReady]> cl) pub rq bg sv)
| cst_copy c pc cl pub rq bg sv i eps :
    cl !! i = Some CReady → shuffle_vector (get_endpoints c) eps →
    conn_step (mk_conn_system c pc cl pub rq bg sv) (mk_conn_system c pc (<[i := CConnect eps]> cl) pub rq bg sv)
| cst_connected c pc cl pub rq bg sv i peer eps :
    cl !! i = Some (CConnect (peer :: eps)) →
    conn_step (mk_conn_system c pc cl pub rq bg sv)
      (mk_conn_system c pc (<[i := CReturned (Some peer) ec_ok]> cl) pub rq bg sv)
| cst_connect_fail c pc cl pub rq bg sv i peer eps ec :
    cl !! i = Some (CConnect (peer :: eps)) → ec_failed ec = true →
    conn_step (mk_conn_system c pc cl pub rq bg sv)
      (mk_conn_system c pc (<[i := CNotify ec]> cl) pub rq bg sv)
| cst_no_endpoints c pc cl pub rq bg sv i :
    cl !! i = Some (CConnect []) →
    conn_step (mk_conn_system c pc cl pub rq bg sv)
      (mk_conn_system c pc (<[i := CNotify (get_resolve_error c)]> cl) pub rq bg sv)
| cst_notify_needed c pc cl pub rq bg sv i ec :
    cl !! i = Some (CNotify ec) → holds_needed pc = false →
    conn_step (mk_conn_system c pc cl pub rq bg sv)
      (mk_conn_system (notify_resolve_needed c) pc (<[i := CReturned None ec]> cl) pub (S rq) bg sv).

Definition conn_initial (sy : conn_system Ep) : Prop :=
  ∃ host port d1 d2 d3,
    sy = mk_conn_system (connector_ctor host port d1 d2 d3) RLoop ∅ [] 1 0 0.

(** What each point of a call may rely on. *)
Definition client_ok (sy : conn_system Ep) (cl : client_pc Ep) : Prop :=
  match cl with
  | CWait => True
  | CReady => resolve_done_ (cn sy) = true
  | CConnect eps => eps ≠ [] ∧ ∃ eps0, eps0 ∈ cn_published sy ∧ eps ≡ₚ eps0
  | CNotify ec => ec_failed ec = true
  | CReturned None ec => ec_failed ec = true
  | CReturned (Some peer) ec => ec = ec_ok ∧ ∃ eps0, eps0 ∈ cn_published sy ∧ peer ∈ eps0
  end.

(** The endpoints, once there are any, are a published list, and published lists are not
    empty. *)
Definition endpoints_ok (sy : conn_system Ep) : Prop :=
  Forall (λ eps, eps ≠ []) (cn_published sy) ∧
  (cn_published sy ≠ [] → endpoints_ (cn sy) ∈ cn_published sy) ∧
  (resolve_done_ (cn sy) = true ∨ cn_pc sy = RNotify → cn_published sy ≠ []) ∧
  (∀ eps, cn_pc sy = RPublish eps → eps ≠ []).

(** While a resolution runs no request can be made; a clear flag means that all have been
    served. *)
Definition requests_ok (sy : conn_system Ep) : Prop :=
  (holds_needed (cn_pc sy) = true → resolve_needed_ (cn sy) = true ∧ cn_begun sy = cn_requests sy) ∧
  (resolve_needed_ (cn sy) = false → cn_served sy = cn_requests sy).

Definition clients_ok (sy : conn_system Ep) : Prop := map_Forall (λ _, client_ok sy) (cn_clients sy).

End System.

Section Invariants.
Context {Ep : Type} `{pl : Platform}.
Implicit Types (sy : conn_system Ep).

Lemma endpoints_inductive : inductive_invariant conn_initial conn_step (endpoints_ok (Ep := Ep)).
Proof.
  split.
  - intros sy (host & port & d1 & d2 & d3 & ->). unfold endpoints_ok; simpl.
    split_and!; [constructor|done|by intros [?|?]|done].
  - intros sy sy' (H1 & H2 & H3 & H4) Hs. unfold endpoints_ok.
    destruct Hs; simpl in *;
      try (split_and!; solve [done|tauto|intros; simplify_eq; tauto|intros [?|?]; simplify_eq; auto]).
    split_and!; [|intros _; left|done|done]. constructor; [by apply H4|done].
Qed.

Lemma requests_inductive : inductive_invariant conn_initial conn_step (requests_ok (Ep := Ep)).
Proof.
  split.
  - intros sy (host & port & d1 & d2 & d3 & ->). by unfold requests_ok.
  - intros sy sy' [H1 H2] Hs. unfold requests_ok.
    destruct Hs as [| | | | | | | | | | | | | | | ? ? ? ? ? ? ? ? ? ? Hfree]; simpl in *;
      try (split; solve [done|intros; eauto|tauto]).
    split; [|done]. intros Hh. by rewrite Hfree in Hh.
Qed.

(** A step keeps what the calls that do not take it rely on. *)
Lemma client_ok_step sy sy' (cl : client_pc Ep) :
  conn_step sy sy' → client_ok sy cl → client_ok sy' cl.
Proof.
  intros Hs. destruct cl as [| |eps|ec|[peer|] ec]; simpl; try done.
  - destruct Hs; simpl; done.
  - intros [Hne (eps0 & Hin & Hp)]. split; [done|]. exists eps0. split; [|done].
    destruct Hs; simpl in *; try done. by right.
  - intros [-> (eps0 & Hin & Hp)]. split; [done|]. exists eps0. split; [|done].
    destruct Hs; simpl in *; try done. by right.
Qed.

Lemma clients_inductive :
  inductive_invariant conn_initial conn_step (λ sy, endpoints_ok (Ep := Ep) sy ∧ clients_ok sy).
Proof.
  split.
  - intros sy Hi. split; [by apply endpoints_inductive|].
    destruct Hi as (host & port & d1 & d2 & d3 & ->). apply map_Forall_empty.
  - intros sy sy' [He Hc] Hs. split; [by eapply endpoints_inductive|].
    assert (Hold : map_Forall (λ _, client_ok sy') (cn_clients sy)).
    { intros i cl Hi. eapply client_ok_step; [exact Hs|by eapply Hc]. }
    unfold clients_ok in *. destruct He as (H1 & H2 & H3 & _).
    destruct Hs; simpl in *; try exact Hold; apply map_Forall_insert_2; try exact Hold; simpl; try done.
    + destruct (ec_failed _) eqn:Ef; [done|apply timed_out_failed].
    + specialize (Hc i _ H). simpl in Hc. assert (Hp : pub ≠ []) by (apply H3; by left).
      specialize (H2 Hp). split; [|by exists (endpoints_ c)].
      rewrite Forall_forall in H1. intros ->. apply Permutation_nil_l in H0.
      by apply (H1 _ H2).
    + specialize (Hc i _ H). destruct Hc as [_ (eps0 & Hin & Hp)]. split; [done|].
      exists eps0. split; [done|]. rewrite <- Hp. by left.
    + specialize (Hc i _ H). by destruct Hc.
    + specialize (Hc i _ H). done.
Qed.

(** ** Shutdown *)

(** What the resolving thread has left to do once its flag is cleared. *)
Definition resolver_work (pc : resolver_pc Ep) : nat :=
  match pc with
  | RDone => 0
  | RLoop => 1
  | RSleep | RNotify => 2
  | RPublish _ => 3
  | RResolve => 4
  end.

Lemma resolver_work_step sy sy' :
  resolving_thread_running_ (cn sy) = false → conn_step sy sy' →
  resolving_thread_running_ (cn sy') = false ∧
  (resolver_work (cn_pc sy') ≤ resolver_work (cn_pc sy))%nat.
Proof. intros Hf Hs. destruct Hs; simpl in *; split; (done || lia || congruence). Qed.

Lemma resolver_progress sy :
  resolving_thread_running_ (cn sy) = false → cn_pc sy ≠ RDone →
  ∃ sy', conn_step sy sy' ∧ cn_clients sy' = cn_clients sy ∧
    resolving_thread_running_ (cn sy') = false ∧ (resolver_work (cn_pc sy') < resolver_work (cn_pc sy))%nat.
Proof.
  destruct sy as [c pc cl pub rq bg sv]. simpl. intros Hf Hpc. destruct pc as [| |eps| | |]; [..|done].
  - eexists. split; [by apply cst_exit|]. simpl. auto.
  - eexists. split; [apply (cst_resolve_fail _ _ _ _ _ _ timed_out timed_out_failed)|]. simpl. auto with lia.
  - eexists. split; [apply cst_publish|]. simpl. auto.
  - eexists. split; [apply cst_notify_done|]. simpl. auto.
  - eexists. split; [apply cst_wake|]. simpl. auto.
Qed.

End Invariants.

(** ** Calls *)

(** Whether a call of [new_session] has returned. *)
Definition call_returned {Ep} (cl : client_pc Ep) : Prop :=
  match cl with CReturned _ _ => True | _ => False end.

#[export] Instance call_returned_dec {Ep} (cl : client_pc Ep) : Decision (call_returned cl).
Proof. destruct cl; apply _. Defined.

(** What a call has left to do. *)
Definition call_work {Ep} (cl : option (client_pc Ep)) : nat :=
  match cl with
  | Some CWait => 5
  | Some CReady => 4
  | Some (CConnect _) => 3
  | Some (CNotify _) => 2
  | Some (CReturned _ _) => 1
  | None => 0
  end.

Section Calls.
Context {Ep : Type} `{pl : Platform}.
Implicit Types (c : conn_system Ep).

(** Published lists stay published. *)
Lemma conn_step_published c c' : conn_step c c' → ∀ eps, eps ∈ cn_published c → eps ∈ cn_published c'.
Proof. destruct 1; simpl; try done. intros e He. by right. Qed.

(** Calls only move forward. *)
Lemma conn_step_call_forward c c' i cl :
  conn_step c c' → cn_clients c !! i = Some cl →
  ∃ cl', cn_clients c' !! i = Some cl' ∧ (cl' = cl ∨ (call_work (Some cl') < call_work (Some cl))%nat).
Proof.
  intros Hs Hi. destruct Hs as [| | | | | | | |c pc clm pub rq bg sv j Hj|c pc clm pub rq bg sv j Hj
    |c pc clm pub rq bg sv j Hj|c pc clm pub rq bg sv j eps Hj|c pc clm pub rq bg sv j peer eps Hj
    |c pc clm pub rq bg sv j peer eps ec Hj|c pc clm pub rq bg sv j Hj|c pc clm pub rq bg sv j ec Hj];
    simpl in *; try (exists cl; split; [done|by left]);
    (destruct (decide (i = j)) as [<-|Hne];
     [rewrite lookup_insert_eq; simplify_eq; eexists; (split; [done|right; simpl; lia])
     |rewrite lookup_insert_ne by done; exists cl; (split; [done|by left])]).
Qed.

Lemma conn_step_call c c' i cl :
  conn_step c c' → cn_clients c !! i = Some cl →
  ∃ cl', cn_clients c' !! i = Some cl' ∧ (call_work (Some cl') ≤ call_work (Some cl))%nat.
Proof.
  intros Hs Hi. destruct (conn_step_call_forward _ _ _ _ Hs Hi) as (cl' & E & Hc).
  exists cl'. split; [done|]. destruct Hc as [->|?]; lia.
Qed.

(** A call that has returned takes no step. *)
Lemma conn_step_returned c c' i r ec :
  conn_step c c' → cn_clients c !! i = Some (CReturned r ec) → cn_clients c' !! i = Some (CReturned r ec).
Proof.
  intros Hs Hi. destruct Hs; simpl in *; try done;
    (destruct (decide (i = i0)) as [<-|]; [by simplify_eq|by rewrite lookup_insert_ne]).
Qed.

End Calls.

Section Claims.
Context {Ep : Type} `{pl : Platform}.
Implicit Types (sy : conn_system Ep).

(** C16: however the calls of [new_session] interleave with the resolutions, a call that
    returns no session returns a failing error code, a call that returns one has connected
    to an endpoint some resolution produced, and no call ever gets past its wait with no
    endpoint to try. *)
Theorem connector_sessions_valid sy i :
  reachable conn_initial conn_step sy →
  match cn_clients sy !! i with
  | Some (CReturned None ec) => ec_failed ec = true
  | Some (CReturned (Some peer) ec) => ec = ec_ok ∧ ∃ eps, eps ∈ cn_published sy ∧ peer ∈ eps
  | Some (CConnect eps) => eps ≠ []
  | _ => True
  end.
Proof.
  intros Hr. apply (inductive_invariant_holds _ _ _ clients_inductive) in Hr as [_ Hc].
  destruct (cn_clients sy !! i) as [cl|] eqn:Hi; [|done]. specialize (Hc i cl Hi).
  destruct cl as [| |eps|ec|[peer|] ec]; simpl in *; try done. by destruct Hc.
Qed.

(** C17: no request to resolve is lost: whenever the flag is clear, a resolution has
    succeeded that began after every request made so far; and none is made while a
    resolution is running. *)
Theorem connector_requests_served sy :
  reachable conn_initial conn_step sy →
  (resolve_needed_ (cn sy) = false → cn_served sy = cn_requests sy) ∧
  (holds_needed (cn_pc sy) = true → cn_begun sy = cn_requests sy).
Proof.
  intros Hr. apply (inductive_invariant_holds _ _ _ requests_inductive) in Hr as [H1 H2].
  split; [done|]. intros Hh. by apply H1.
Qed.

(** A call whose connection has failed cannot return while the resolving thread is
    resolving: it waits for the mutex that thread holds throughout, with no deadline. *)
Theorem failed_call_waits_for_resolution sy sy' i ec :
  cn_clients sy !! i = Some (CNotify ec) → cn_pc sy = RResolve → conn_step sy sy' →
  cn_clients sy' !! i = Some (CNotify ec).
Proof.
  intros Hi Hpc Hs. destruct Hs; simpl in *; subst; try done;
    (destruct (decide (i = i0)) as [->|]; [by simplify_eq|by rewrite lookup_insert_ne]).
Qed.

(** After the first resolution the connector never waits again: its done flag stays
    set and its endpoints stay available, through every later failure. *)
Theorem connector_done_forever sy sy' :
  reachable conn_initial conn_step sy → resolve_done_ (cn sy) = true → rtc conn_step sy sy' →
  resolve_done_ (cn sy') = true ∧ endpoints_ (cn sy') ≠ [] ∧ endpoints_ (cn sy') ∈ cn_published sy'.
Proof.
  intros Hr Hd Hs. assert (Hd' : resolve_done_ (cn sy') = true).
  { clear Hr. induction Hs as [|sy1 sy2 sy3 Hstep _ IH]; [done|]. apply IH. by destruct Hstep. }
  split; [done|]. assert (Hr' := reachable_steps _ _ _ _ Hr Hs).
  apply (inductive_invariant_holds _ _ _ endpoints_inductive) in Hr' as (H1 & H2 & H3 & _).
  assert (Hin : endpoints_ (cn sy') ∈ cn_published sy') by (apply H2, H3; by left).
  split; [|done]. rewrite Forall_forall in H1. by apply H1.
Qed.

End Claims.

(** ** Witnesses *)

Definition toy_conn : connector nat := connector_ctor "localhost" "80" 5000 5000 5000.

Definition resolved_conn : connector nat :=
  notify_resolve_done (update_endpoints [7; 8]%nat (set_resolve_needed false (set_resolve_error ec_ok toy_conn))).

(** The first resolution has been published and one call is about to connect. *)
Definition toy_system : conn_system nat :=
  mk_conn_system resolved_conn RLoop {[0%nat := CConnect [8; 7]%nat]} [[7; 8]]%nat 1 1 1.

Lemma toy_system_reachable : reachable conn_initial conn_step toy_system.
Proof.
  unfold toy_system. replace {[0%nat := CConnect [8; 7]%nat]} with
    (<[0%nat := CConnect [8; 7]%nat]> (<[0%nat := CReady]> (<[0%nat := CWait]> (∅ : gmap nat (client_pc nat)))));
    [|by rewrite !insert_insert_eq].
  eapply reach_step; [eapply reach_step; [eapply reach_step; [eapply reach_step; [eapply reach_step;
    [eapply reach_step; [eapply reach_step|]|]|]|]|]|].
  - apply reach_init. by exists "localhost", "80", 5000, 5000, 5000.
  - by apply cst_begin.
  - by apply (cst_resolve_ok _ _ _ _ _ _ ec_ok [7; 8]%nat).
  - apply cst_publish.
  - apply cst_notify_done.
  - by apply (cst_call _ _ _ _ _ _ _ 0).
  - by apply (cst_ready _ _ _ _ _ _ _ 0).
  - apply (cst_copy _ _ _ _ _ _ _ 0 [8; 7]%nat); [done|]. apply Permutation_swap.
Qed.

Lemma connector_sessions_valid_witness : [8; 7]%nat ≠ [].
Proof. exact (connector_sessions_valid toy_system 0 toy_system_reachable). Defined.

Lemma connector_requests_served_witness : cn_served toy_system = cn_requests toy_system.
Proof. exact (proj1 (connector_requests_served toy_system toy_system_reachable) eq_refl). Defined.

Definition blocked_call : conn_system nat :=
  mk_conn_system toy_conn RResolve {[0%nat := CNotify timed_out]} [] 1 1 0.

Lemma failed_call_waits_for_resolution_witness :
  ∃ sy', conn_step blocked_call sy' ∧ cn_clients sy' !! 0%nat = Some (CNotify timed_out).
Proof.
  assert (Hs : conn_step blocked_call (mk_conn_system (connector_dtor toy_conn) RResolve
    {[0%nat := CNotify timed_out]} [] 1 1 0)) by apply cst_stop.
  eexists. split; [exact Hs|].
  exact (failed_call_waits_for_resolution blocked_call _ 0 timed_out eq_refl eq_refl Hs).
Defined.

Lemma connector_done_forever_witness : resolve_done_ (cn toy_system) = true.
Proof.
  apply (connector_done_forever toy_system toy_system toy_system_reachable); [reflexivity|apply rtc_refl].
Defined.
