(* ===== verification/ConnectorRefine.v ===== *)
(** * The connector's functions and its transition system agree

    The files Resolver and Connector model [resolve], a round of [resolve_routine] and
    [new_session] as functions of what they meet; ConnectorSystem models the same code as
    steps of threads.  This file shows that a run of the functions is a sequence of those
    steps: the whole stack from the asio resolver's events to the published endpoints, and
    the whole of a call from its wait to what it returns. *)

From S2P Require Import Prelude ErrorCode TimedBase IoLoop BaseSocket Transfer StreamSocket.
From S2P Require Import Resolver Connector ConnectorSystem.
Open Scope sc_scope.

Section Round.
Context {R Ep : Type} `{AsioResolver R, tm : AsioTimer, pl : Platform}.
Implicit Types (c : connector Ep) (cl : gmap nat (client_pc Ep)).

(** What [resolve(ec)] gives the resolving thread: a success comes with endpoints. *)
Definition resolver_result_ok (r : io_result (list Ep)) : Prop :=
  match r with IoDone ec eps => resolution_ok ec eps | _ => True end.

(** Whatever the events are, the resolver's result is one the thread can publish. *)
Lemma resolve_default_ok evs (w : resolver R) :
  timer_waits (base w) = 1%nat → clock_ok (now w) → Forall (λ ev, clock_ok (event_time ev)) evs →
  Forall (λ ev, match ev with EvOp _ err eps => resolution_ok err eps | _ => True end) evs →
  resolver_result_ok (resolve_default (Ep := Ep) evs w).2.
Proof.
  intros Hw Hc Hev Hok. unfold resolve_default, resolve, async_resolve.
  destruct (scope_expire _ _) as [w1 [e|e]] eqn:Es; [|done].
  apply scope_expire_keeps in Es as (Hw1 & Hn1 & _). rewrite Hw in Hw1.
  destruct (run_loop _ _ _ _ _ _) as [[[[w2 ec] eps] rest]|] eqn:Er; [|done]. simpl.
  apply run_loop_inv in Er as (ts & t & err & p & Ho & _ & -> & _ & ->); [|done|by rewrite Hn1|done].
  intros Hec. destruct (deadline_fired_ _); [by rewrite timed_out_failed in Hec|].
  clear Hev Hw Hc Hw1 Hn1. revert ts Ho. induction evs as [|[u|u err' p'] evs IH]; intros ts Ho; [done| |].
  - simpl in Ho. apply Forall_cons in Hok as [_ Hok]. destruct (first_op evs) as [[[ts' op] rest']|]; [|done].
    simplify_eq. by eapply IH.
  - simpl in Ho. simplify_eq. apply Forall_cons in Hok as [Hok _]. by apply Hok.
Qed.

(** A call that never returns waits for a resolution that does not complete. *)
Lemma resolve_default_blocked evs (w : resolver R) :
  timer_waits (base w) = 1%nat → clock_ok (now w) → Forall (λ ev, clock_ok (event_time ev)) evs →
  (resolve_default (Ep := Ep) evs w).2 = IoBlocked →
  ∀ ts t err eps rest, first_op evs = Some (ts, (t, err, eps), rest) → err = would_block.
Proof.
  intros Hw Hc Hev Hb ts t err eps rest Ho. unfold resolve_default, resolve, async_resolve in Hb.
  destruct (scope_expire _ _) as [w1 [e|e]] eqn:Es; [|done].
  apply scope_expire_keeps in Es as (Hw1 & Hn1 & _). rewrite Hw in Hw1. rewrite <- Hn1 in Hc.
  pose proof (run_loop_spec (λ _ iterator, iterator) evs e w1 [] Hw1 Hc Hev) as Hs.
  rewrite Ho in Hs. destruct (decide (err = would_block)) as [|Hne]; [done|].
  rewrite Hs in Hb; [done|]. by destruct (deadline_fired_ _); auto with timed.
Qed.

Lemma resolve_default_throws evs (w : resolver R) e :
  (resolve_default (Ep := Ep) evs w).2 = IoThrow e → resolve_timeout w < kDurationResolution.
Proof.
  unfold resolve_default, resolve, async_resolve, scope_expire, expiration_duration.
  destruct (_ <? _) eqn:Ed; [by bool_prop|].
  destruct (_ =? _); by destruct (run_loop _ _ _ _ _ _) as [[[[? ?] ?] ?]|].
Qed.

(** A round that gets the mutex and finds the flag set is a run of the thread's steps. *)
Lemma resolve_round_steps (r : io_result (list Ep)) c cl pub rq bg sv :
  resolving_thread_running_ c = true → resolve_needed_ c = true → resolver_result_ok r →
  match resolve_round true true r c with
  | Some (c', RoundAgain) => ∃ eps,
      rtc conn_step (mk_conn_system c RLoop cl pub rq bg sv) (mk_conn_system c' RLoop cl (eps :: pub) rq rq rq) ∧
      r = IoDone (resolve_error_ c') eps ∧ endpoints_ c' = eps
  | Some (c', SleepThenAgain) =>
      rtc conn_step (mk_conn_system c RLoop cl pub rq bg sv) (mk_conn_system c' RSleep cl pub rq rq sv) ∧
      ∃ eps, r = IoDone (resolve_error_ c') eps ∧ ec_failed (resolve_error_ c') = true
  | Some (c', ProcessTerminated) => c' = c ∧ ∃ e, r = IoThrow e
  | None => r = IoBlocked
  end.
Proof.
  intros Hrun Hneed Hok. unfold resolve_round. cbn [negb orb].
  destruct r as [ec eps|e|]; [|eauto|done]. simpl in Hok. destruct (ec_failed ec) eqn:Ef.
  - split; [|by exists eps]. eapply rtc_l; [by apply cst_begin|]. apply rtc_once. by apply (cst_resolve_fail _ _ _ _ _ _ ec).
  - exists eps. split; [|done]. eapply rtc_l; [by apply cst_begin|].
    eapply rtc_l; [apply (cst_resolve_ok _ _ _ _ _ _ ec eps); [done|by apply Hok]|].
    eapply rtc_l; [apply cst_publish|]. apply rtc_once. apply cst_notify_done.
Qed.

End Round.

Section Claims.
Context {R X Ep Stream : Type} `{AsioResolver R, cu : ConnectUntil X Ep Stream, tm : AsioTimer, pl : Platform}.
Implicit Types (c : connector Ep) (cl : gmap nat (client_pc Ep)) (env : session_env X Ep).

(** C15: a round of [resolve_routine] over a real resolver object is a run of the resolving
    thread's steps: whatever handlers the resolver's io_service runs, a round that gets
    the mutex and finds [resolve_needed_] set either publishes the endpoints the
    resolution brought and is back at the loop's head with every request so far served, or
    stores the failing error and goes to sleep with the endpoints untouched; it ends the
    process only for a resolve timeout below the timer's resolution; a round that does not
    get that far changes nothing. *)
Theorem resolve_round_refines locked woken evs (w : resolver R) c cl pub rq bg sv :
  disarmed w → clock_ok (now w) → Forall (λ ev, clock_ok (event_time ev)) evs →
  Forall (λ ev, match ev with EvOp _ err eps => resolution_ok err eps | _ => True end) evs →
  resolving_thread_running_ c = true → (woken = true → resolve_needed_ c = true) →
  match resolve_round locked woken (resolve_default (Ep := Ep) evs w).2 c with
  | Some (c', RoundAgain) =>
      (c' = c ∧ locked && woken = false) ∨
      ∃ eps, rtc conn_step (mk_conn_system c RLoop cl pub rq bg sv)
          (mk_conn_system c' RLoop cl (eps :: pub) rq rq rq) ∧
        endpoints_ c' = eps ∧ eps ≠ [] ∧ resolve_done_ c' = true ∧ resolve_needed_ c' = false
  | Some (c', SleepThenAgain) =>
      rtc conn_step (mk_conn_system c RLoop cl pub rq bg sv) (mk_conn_system c' RSleep cl pub rq rq sv) ∧
      ec_failed (resolve_error_ c') = true ∧ endpoints_ c' = endpoints_ c ∧ resolve_needed_ c' = true
  | Some (c', ProcessTerminated) => c' = c ∧ resolve_timeout w < kDurationResolution
  | None => ∀ ts t err eps rest, first_op evs = Some (ts, (t, err, eps), rest) → err = would_block
  end.
Proof.
  intros (_ & Hw & _) Hc Hev Hok Hrun Hneed.
  destruct (locked && woken) eqn:Elw.
  - apply andb_prop in Elw as [-> ->]. specialize (Hneed eq_refl).
    pose proof (resolve_default_ok evs w Hw Hc Hev Hok) as Hr.
    pose proof (resolve_default_blocked evs w Hw Hc Hev) as Hb. pose proof (resolve_default_throws evs w) as Ht.
    pose proof (resolve_round_steps _ c cl pub rq bg sv Hrun Hneed Hr) as Hs.
    unfold resolve_round in *. cbn [negb orb] in *.
    destruct (resolve_default evs w).2 as [ec eps|e|]; [|by split; [|eapply Ht]|by apply Hb].
    destruct (ec_failed ec) eqn:Ef.
    + destruct Hs as [Hs _]. by split_and!.
    + destruct Hs as (eps' & Hs & [= <-] & Hep). right. exists eps. split_and!; [exact Hs|done|by apply Hr|done..].
  - unfold resolve_round. rewrite <- negb_andb, Elw. by left.
Qed.

(** C22: an undisturbed call of [new_session] is a run of the steps of a caller: if the wait,
    the copy of the endpoints and the resolve error are those of the connector, and nobody
    holds [resolve_needed_mutex_], the steps lead to exactly what the function returns,
    and set the flag exactly when it notifies the resolving thread. *)
Theorem new_session_refines env c pc cl pub rq bg sv i dl session ec notified :
  cl !! i = None → holds_needed pc = false →
  (wait_resolved env dl = true → resolve_done_ c = true) →
  shuffle_vector (get_endpoints c) (sv_shuffled env) → sv_error env = get_resolve_error c →
  new_session (Stream := Stream) env ec_ok dl = Some (session, ec, notified) →
  ∃ peer, rtc conn_step (mk_conn_system c pc cl pub rq bg sv)
    (mk_conn_system (if notified then notify_resolve_needed c else c) pc
       (<[i := CReturned peer ec]> cl) pub (if notified then S rq else rq) bg sv) ∧
  match session with
  | Some st => ∃ p tl ok, sv_shuffled env = p :: tl ∧ peer = Some p ∧
      connect_until (sv_connect env) p dl (sv_now env) = IoDone ok st
  | None => peer = None
  end.
Proof.
  intros Hi Hfree Hw Hsh Herr Hns. unfold new_session, connect_loop in Hns.
  assert (Hcall : ∀ sy', rtc conn_step (mk_conn_system c pc (<[i := CWait]> cl) pub rq bg sv) sy' →
    rtc conn_step (mk_conn_system c pc cl pub rq bg sv) sy').
  { intros sy' Hr. eapply rtc_l; [by apply (cst_call _ _ _ _ _ _ _ i)|exact Hr]. }
  assert (Hget : ∀ v, <[i := v]> cl !! i = Some v) by (intros v; by rewrite lookup_insert_eq).
  destruct (wait_resolved env dl) eqn:Ew; cbn [negb] in Hns.
  - specialize (Hw eq_refl).
    assert (Hcopy : ∀ sy', rtc conn_step (mk_conn_system c pc (<[i := CConnect (sv_shuffled env)]> cl) pub rq bg sv) sy' →
      rtc conn_step (mk_conn_system c pc cl pub rq bg sv) sy').
    { intros sy' Hr. apply Hcall. eapply rtc_l; [by apply (cst_ready _ _ _ _ _ _ _ i)|]. rewrite insert_insert_eq.
      eapply rtc_l; [by apply (cst_copy _ _ _ _ _ _ _ i (sv_shuffled env))|]. by rewrite insert_insert_eq. }
    assert (Hfail : ∀ e, rtc conn_step (mk_conn_system c pc cl pub rq bg sv)
        (mk_conn_system c pc (<[i := CNotify e]> cl) pub rq bg sv) →
      rtc conn_step (mk_conn_system c pc cl pub rq bg sv)
        (mk_conn_system (notify_resolve_needed c) pc (<[i := CReturned None e]> cl) pub (S rq) bg sv)).
    { intros e Hr. eapply rtc_r; [exact Hr|].
      rewrite <- (insert_insert_eq cl i (CReturned None e) (CNotify e)). by apply cst_notify_needed. }
    destruct (sv_shuffled env) as [|p tl] eqn:Es.
    + cbn [negb] in Hns. injection Hns as <- <- <-. exists None. split; [|done]. apply Hfail, Hcopy, rtc_once.
      rewrite Herr, <- (insert_insert_eq cl i (CNotify _) (CConnect [])). by apply cst_no_endpoints.
    + destruct (connect_until _ _ _ _) as [ok st|e|] eqn:Ec; [| |done]; cbn in Hns.
      * injection Hns as <- <- <-. exists (Some p). split; [|by exists p, tl, ok]. apply Hcopy, rtc_once.
        rewrite <- (insert_insert_eq cl i (CReturned (Some p) ec_ok) (CConnect (p :: tl))). by eapply cst_connected.
      * rewrite (connect_until_fails _ _ _ _ _ Ec) in Hns. cbn in Hns. injection Hns as <- <- <-.
        exists None. split; [|done]. apply Hfail, Hcopy, rtc_once.
        rewrite <- (insert_insert_eq cl i (CNotify (se_code e)) (CConnect (p :: tl))).
        eapply cst_connect_fail; [done|]. by eapply connect_until_fails.
  - injection Hns as <- <- <-. exists None. split; [|done]. apply Hcall, rtc_once.
    rewrite Herr, <- (insert_insert_eq cl i (CReturned None _) CWait). by apply cst_give_up.
Qed.

End Claims.

(** ** Witnesses *)

Lemma resolve_round_refines_witness :
  ∃ eps sy, rtc conn_step (mk_conn_system toy_conn RLoop ∅ [] 1 0 0) sy ∧ eps ≠ [] ∧
    endpoints_ (cn sy) = eps.
Proof.
  pose proof (resolve_round_refines true true [EvTimer 200; EvOp 300 ec_ok [7; 8]%nat] toy_resolver toy_conn ∅ [] 1 0 0)
    as Hr.
  assert (Hd : disarmed toy_resolver) by done.
  specialize (Hr Hd ltac:(done) ltac:(repeat constructor; done) ltac:(repeat constructor; done) eq_refl ltac:(done)).
  vm_compute (resolve_round _ _ _ _) in Hr. destruct Hr as [[_ Hr]|(eps & Hs & He & Hn & _)]; [done|].
  exists eps. eexists. split; [exact Hs|]. split; [exact Hn|exact He].
Defined.

Lemma new_session_refines_witness :
  ∃ peer, rtc conn_step (mk_conn_system resolved_conn RLoop ∅ [[7; 8]]%nat 1 1 1)
    (mk_conn_system (notify_resolve_needed resolved_conn) RLoop
       (<[0%nat := CReturned peer (mk_ec cat_system 111)]> ∅) [[7; 8]]%nat 2 1 1) ∧ peer = None.
Proof.
  apply (new_session_refines (Stream := stream_socket toy_socket) toy_session_env resolved_conn RLoop ∅
    [[7; 8]]%nat 1 1 1 0 8000 None _ true); (reflexivity || apply Permutation_refl).
Defined.
