(* ===== verification/ConnectorLiveness.v ===== *)
(** * The connector's threads make progress

    The resolving thread and the calls of [new_session] under fair scheduling, over the
    system ConnectorSystem: every request to resolve is served while the connector lives,
    as long as resolutions do not fail for ever, and every call returns.  A call that
    notifies the resolving thread competes with it for [resolve_needed_mutex_], which
    needs strong fairness; everything else needs the weak one only. *)

From S2P Require Import Prelude Fairness ErrorCode Resolver Connector ConnectorSystem.
From Stdlib Require Import Classical_Prop.
Open Scope sc_scope.

Section Roles.
Context {Ep : Type} `{pl : Platform}.
Implicit Types (c : conn_system Ep).

(** The steps of the resolving thread, of one call, and the one by which a resolution
    succeeds. *)
Definition resolver_moves c c' : Prop := conn_step c c' ∧ cn_pc c' ≠ cn_pc c.

Definition call_moves (i : nat) c c' : Prop :=
  conn_step c c' ∧ is_Some (cn_clients c !! i) ∧ cn_clients c' !! i ≠ cn_clients c !! i.

Definition resolution_succeeds c c' : Prop :=
  conn_step c c' ∧ cn_pc c = RResolve ∧ ∃ eps, cn_pc c' = RPublish eps.

(** How far the resolving thread is from its next resolution. *)
Definition to_resolve (pc : resolver_pc Ep) : nat :=
  match pc with RResolve | RDone => 0 | RLoop => 1 | RSleep | RNotify => 2 | RPublish _ => 3 end.

(** The resolving thread can go on, except where it waits for a request; its steps leave
    the calls and the destructor's flag alone. *)
Lemma resolver_can c :
  cn_pc c ≠ RDone →
  (cn_pc c = RLoop → resolving_thread_running_ (cn c) = false ∨ resolve_needed_ (cn c) = true) →
  enabled resolver_moves c.
Proof.
  intros Hd Hl. destruct c as [c pc cl pub rq bg sv]. unfold enabled, resolver_moves. simpl in *.
  destruct pc as [| |eps| | |]; [| | | | |done].
  - destruct (resolving_thread_running_ c) eqn:Er; [|eexists; split; [by apply cst_exit|done]].
    destruct (Hl eq_refl) as [?|Hn]; [done|]. eexists. split; [by apply cst_begin|done].
  - eexists. split; [apply (cst_resolve_fail _ _ _ _ _ _ timed_out timed_out_failed)|done].
  - eexists. split; [apply cst_publish|done].
  - eexists. split; [apply cst_notify_done|done].
  - eexists. split; [apply cst_wake|done].
Qed.

Lemma resolver_moves_keeps c c' :
  resolver_moves c c' → cn_clients c' = cn_clients c ∧
    resolving_thread_running_ (cn c') = resolving_thread_running_ (cn c).
Proof. intros [Hs Hm]. destruct Hs; simpl in *; done. Qed.

(** Every step of the resolving thread towards a resolution is one of this measure. *)
Lemma to_resolve_step c c' :
  conn_step c c' → (0 < to_resolve (cn_pc c))%nat →
  cn_pc c' = cn_pc c ∨ to_resolve (cn_pc c) = S (to_resolve (cn_pc c')).
Proof. intros Hs Ht. destruct Hs; simpl in *; try (by left); try (by right); lia. Qed.

(** A call that has not returned can go on, unless it waits for the mutex. *)
Lemma call_can c i cl :
  cn_clients c !! i = Some cl → ¬ call_returned cl →
  (∀ ec, cl = CNotify ec → holds_needed (cn_pc c) = false) →
  ∃ c' cl', conn_step c c' ∧ cn_clients c' = <[i := cl']> (cn_clients c) ∧ cl' ≠ cl ∧
    resolving_thread_running_ (cn c') = resolving_thread_running_ (cn c).
Proof.
  intros Hi Hret Hfree.
  assert (Hgo : ∀ c' cl', conn_step c c' → cn_clients c' = <[i := cl']> (cn_clients c) → cl' ≠ cl →
    resolving_thread_running_ (cn c') = resolving_thread_running_ (cn c) →
    ∃ c' cl', conn_step c c' ∧ cn_clients c' = <[i := cl']> (cn_clients c) ∧ cl' ≠ cl ∧
      resolving_thread_running_ (cn c') = resolving_thread_running_ (cn c)) by eauto 10.
  destruct c as [c pc clm pub rq bg sv], cl as [| |[|peer eps]|ec|]; simpl in *; [..|done].
  - eapply Hgo; [by apply cst_give_up|done..].
  - eapply Hgo; [by apply cst_copy, Permutation_refl|done..].
  - eapply Hgo; [by apply cst_no_endpoints|done..].
  - eapply Hgo; [apply (cst_connect_fail _ _ _ _ _ _ _ _ _ _ _ Hi timed_out_failed)|done..].
  - eapply Hgo; [by apply (cst_notify_needed _ _ _ _ _ _ _ i ec); [|by eapply Hfree]|done..].
Qed.

(** Its moves bring it closer to its return. *)
Lemma call_moves_work c c' i cl :
  cn_clients c !! i = Some cl → call_moves i c c' →
  (call_work (cn_clients c' !! i) < call_work (cn_clients c !! i))%nat.
Proof.
  intros Hi (Hs & _ & Hm). rewrite Hi in *.
  destruct (conn_step_call_forward _ _ _ _ Hs Hi) as (cl' & E & [->|Hlt]); [done|by rewrite E].
Qed.

End Roles.

(** ** The mutex of the requests *)

Section Mutex.
Context {Ep : Type} `{pl : Platform}.
Variable e : nat → conn_system Ep.
Hypothesis e_execution : execution conn_step e.
Hypothesis e_resolver : weakly_fair resolver_moves e.

(** The resolving thread does not keep [resolve_needed_mutex_] for ever. *)
Lemma resolve_mutex_freed k : ∃ m, (k ≤ m)%nat ∧ holds_needed (cn_pc (e m)) = false.
Proof.
  assert (H2 : ∀ j, (∃ eps, cn_pc (e j) = RPublish eps) → ∃ m, (j ≤ m)%nat ∧ holds_needed (cn_pc (e m)) = false).
  { intros j. apply (fair_leads_to conn_step e (λ c, ∃ eps, cn_pc c = RPublish eps)
      (λ c, holds_needed (cn_pc c) = false) resolver_moves); [done..| | |].
    - intros c c' [eps E] Hs. destruct Hs; simpl in *; simplify_eq; eauto.
    - intros c [eps E]. apply resolver_can; by rewrite E.
    - intros c c' [eps E] [Hs Hm]. rewrite E in Hm. destruct Hs; simpl in *; simplify_eq; done. }
  assert (H1 : ∀ j, cn_pc (e j) = RResolve →
    ∃ m, (j ≤ m)%nat ∧ (holds_needed (cn_pc (e m)) = false ∨ ∃ eps, cn_pc (e m) = RPublish eps)).
  { intros j. apply (fair_leads_to conn_step e (λ c, cn_pc c = RResolve)
      (λ c, holds_needed (cn_pc c) = false ∨ ∃ eps, cn_pc c = RPublish eps) resolver_moves); [done..| | |].
    - intros c c' E Hs. destruct Hs; simpl in *; simplify_eq; eauto.
    - intros c E. apply resolver_can; by rewrite E.
    - intros c c' E [Hs Hm]. rewrite E in Hm. destruct Hs; simpl in *; simplify_eq; eauto. }
  destruct (cn_pc (e k)) as [| |eps| | |] eqn:Epc; try (exists k; split; [lia|by rewrite Epc]).
  - destruct (H1 k Epc) as (j & Hj & [?|Hp]); [by exists j|].
    destruct (H2 j Hp) as (m & ? & ?). exists m. split; [lia|done].
  - destruct (H2 k) as (m & ? & ?); [by exists eps|]. by exists m.
Qed.

(** A call that is made returns. *)
Hypothesis e_calls : ∀ i, strongly_fair (call_moves i) e.

Lemma call_returns k i cl :
  cn_clients (e k) !! i = Some cl →
  ∃ m, (k ≤ m)%nat ∧ ∃ r ec, cn_clients (e m) !! i = Some (CReturned r ec).
Proof.
  intros Hi.
  destruct (fair_descent conn_step e (λ c, is_Some (cn_clients c !! i))
    (λ c, ∃ r ec, cn_clients c !! i = Some (CReturned r ec)) (λ c, call_work (cn_clients c !! i)) k)
    as (m & Hm & Hr); [done| |by exists cl| |by exists m].
  - intros c c' [cl0 E] _ Hs. destruct (conn_step_call _ _ _ _ Hs E) as (cl' & E' & Hle).
    rewrite E, E'. by split.
  - intros j Hconst.
    destruct (e_calls i j) as (m & Hm & Hmv).
    + intros k' Hk'. destruct (resolve_mutex_freed k') as (m & Hm & Hfree). exists m. split; [done|].
      destruct (Hconst m) as ([clm Hclm] & _ & Hnr); [lia|].
      destruct (call_can (e m) i clm Hclm) as (c' & cl' & Hs & E & Hne & _); [|done|].
      { intros Hcr. apply Hnr. destruct clm as [| | | |r ec]; try done. by exists r, ec. }
      exists c'. split_and!; [done|by exists clm|]. rewrite E, Hclm, lookup_insert_eq. congruence.
    + destruct (Hconst m Hm) as ([clm Hclm] & E1 & _), (Hconst (S m)) as (_ & E2 & _); [lia|].
      pose proof (call_moves_work _ _ _ _ Hclm Hmv). lia.
Qed.

End Mutex.

(** ** The resolving thread serves every request *)

(** What holds in every state: the thread is in its loop while its flag is set, a finished
    resolution has published and is about to be announced, or has been, and the constructor
    asks for the first resolution. *)
Definition resolver_ok {Ep} (c : conn_system Ep) : Prop :=
  (resolving_thread_running_ (cn c) = true → cn_pc c ≠ RDone) ∧
  ((0 < cn_served c)%nat → resolve_done_ (cn c) = true ∨ cn_pc c = RNotify) ∧
  (0 < cn_requests c)%nat ∧ (cn_served c ≤ cn_requests c)%nat ∧ (cn_begun c ≤ cn_requests c)%nat.

Lemma resolver_inductive {Ep} `{Platform} : inductive_invariant conn_initial conn_step (resolver_ok (Ep := Ep)).
Proof.
  split.
  - intros c (host & port & d1 & d2 & d3 & ->). unfold resolver_ok; simpl. split_and!; (done || lia).
  - intros c c' (H1 & H2 & H3 & H4 & H5) Hs. unfold resolver_ok.
    destruct Hs; simpl in *; split_and!; try done; try lia; try (by intros; left); try (by intros; right);
      try (intros Hp; destruct (H2 Hp); simplify_eq; auto).
    congruence.
Qed.

Section Served.
Context {Ep : Type} `{Inhabited Ep, pl : Platform}.
Variable e : nat → conn_system Ep.
Hypothesis e_execution : execution conn_step e.
Hypothesis e_reachable : reachable conn_initial conn_step (e 0%nat).
Hypothesis e_resolver : weakly_fair resolver_moves e.
Hypothesis e_success : strongly_fair resolution_succeeds e.
Hypothesis e_running : ∀ m, resolving_thread_running_ (cn (e m)) = true.

Lemma e_inv m : requests_ok (e m) ∧ resolver_ok (e m) ∧ endpoints_ok (e m).
Proof.
  pose proof (execution_reachable conn_step conn_initial e m e_execution e_reachable) as Hr.
  split_and!; eapply inductive_invariant_holds;
    [apply requests_inductive|done|apply resolver_inductive|done|apply endpoints_inductive|done].
Qed.

(** While the flag stays set the thread comes back to a resolution. *)
Lemma resolution_begins k :
  (∀ m, (k ≤ m)%nat → resolve_needed_ (cn (e m)) = true) → ∃ m, (k ≤ m)%nat ∧ cn_pc (e m) = RResolve.
Proof.
  remember (to_resolve (cn_pc (e k))) as w eqn:Ew. revert k Ew.
  induction w as [|w IH]; intros k Ew Hn.
  { exists k. split; [done|]. destruct (e_inv k) as (_ & [Hd _] & _). specialize (Hd (e_running k)).
    by destruct (cn_pc (e k)). }
  destruct (fair_leads_to_at conn_step e (λ c, to_resolve (cn_pc c) = S w) (λ c, to_resolve (cn_pc c) = w)
    resolver_moves k) as (m & Hm & Hw); [done..| | | |done|].
  - intros m Hm Hw Hs. destruct (to_resolve_step _ _ Hs) as [E|E]; [lia|left; by rewrite E|right; lia].
  - intros m Hm Hw. apply resolver_can.
    + intros E. rewrite E in Hw. done.
    + intros _. right. by apply Hn.
  - intros m Hm Hw [Hs Hne]. destruct (to_resolve_step _ _ Hs); [lia|done|lia].
  - destruct (IH m) as (m' & ? & ?); [done|intros; apply Hn; lia|]. exists m'. split; [lia|done].
Qed.

(** So one succeeds that began after the requests made so far. *)
Lemma resolution_published k :
  (∀ m, (k ≤ m)%nat → resolve_needed_ (cn (e m)) = true) →
  ∃ m, (k ≤ m)%nat ∧ (cn_requests (e k) ≤ cn_served (e m))%nat.
Proof.
  intros Hn. destruct (e_success k) as (m & Hm & Hs & Hpc & eps & Hpub).
  { intros j Hj. destruct (resolution_begins j) as (m & Hm & Hpc); [intros; apply Hn; lia|].
    exists m. split; [done|]. destruct (e m) as [c pc cl pub rq bg sv]. simpl in Hpc. subst pc.
    eexists. split; [by apply (cst_resolve_ok _ _ _ _ _ _ ec_ok [inhabitant])|]. split; [done|by eexists]. }
  assert (Hrq : ∀ m, (k ≤ m)%nat → (cn_requests (e k) ≤ cn_requests (e m))%nat).
  { apply (execution_keeps conn_step e (λ c, (cn_requests (e k) ≤ cn_requests c)%nat)); [done| |done].
    intros c c' Hc Hst. destruct Hst; simpl in *; lia. }
  destruct (fair_leads_to conn_step e
    (λ c, (∃ eps, cn_pc c = RPublish eps) ∧ (cn_requests (e k) ≤ cn_begun c)%nat)
    (λ c, (cn_requests (e k) ≤ cn_served c)%nat) resolver_moves (S m)) as (m' & Hm' & Hsv); [done..| | | | |].
  - intros c c' [[eps' E] Hb] Hst. destruct Hst; simpl in *; simplify_eq; eauto.
  - intros c [[eps' E] _]. apply resolver_can; by rewrite E.
  - intros c c' [[eps' E] Hb] [Hst Hmv]. rewrite E in Hmv. destruct Hst; simpl in *; simplify_eq; done.
  - split; [by exists eps|]. destruct (e_inv (S m)) as ([Hq _] & _).
    destruct Hq as [_ ->]; [by rewrite Hpub|]. apply Hrq. lia.
  - exists m'. split; [lia|done].
Qed.

(** Once one has been published the waiters are told. *)
Lemma served_announced r k :
  (0 < r ≤ cn_served (e k))%nat →
  ∃ m, (k ≤ m)%nat ∧ (r ≤ cn_served (e m))%nat ∧ resolve_done_ (cn (e m)) = true.
Proof.
  intros Hr. destruct (e_inv k) as (_ & (_ & Hd & _) & _). destruct Hd as [Hd|Hd]; [lia|exists k; split_and!; (done || lia)|].
  apply (fair_leads_to conn_step e (λ c, cn_pc c = RNotify ∧ (r ≤ cn_served c)%nat)
    (λ c, (r ≤ cn_served c)%nat ∧ resolve_done_ (cn c) = true) resolver_moves); [done..| | | |by split; [|lia]].
  - intros c c' [E Hsv] Hst. destruct Hst; simpl in *; simplify_eq; auto.
  - intros c [E _]. apply resolver_can; by rewrite E.
  - intros c c' [E Hsv] [Hst Hmv]. rewrite E in Hmv. destruct Hst; simpl in *; simplify_eq; auto.
Qed.

Lemma requests_served_eventually k :
  ∃ m, (k ≤ m)%nat ∧ (cn_requests (e k) ≤ cn_served (e m))%nat ∧ resolve_done_ (cn (e m)) = true.
Proof.
  assert (Hsv : ∃ m, (k ≤ m)%nat ∧ (cn_requests (e k) ≤ cn_served (e m))%nat).
  { apply NNPP. intros Hno. apply Hno. apply resolution_published. intros m Hm.
    destruct (resolve_needed_ (cn (e m))) eqn:En; [done|exfalso]. apply Hno. exists m. split; [done|].
    destruct (e_inv m) as ([_ ->] & _); [|done].
    apply (execution_keeps conn_step e (λ c, (cn_requests (e k) ≤ cn_requests c)%nat)) with k; [done| |done..].
    intros c c' Hc Hst. destruct Hst; simpl in *; lia. }
  destruct Hsv as (m & Hm & Hle). destruct (e_inv k) as (_ & (_ & _ & Hpos & _) & _).
  destruct (served_announced (cn_requests (e k)) m) as (m' & ? & ? & ?); [lia|].
  exists m'. split_and!; [lia|done..].
Qed.

End Served.

(** ** Properties *)

Section Claims.
Context {Ep : Type} `{Inhabited Ep, pl : Platform}.

(** C11: the resolving thread serves every request.  While the connector lives, its thread is
    scheduled fairly and resolutions tried again and again do not fail for ever, the
    requests to resolve made up to any time are all served some time after: a resolution
    that began after them has published its endpoints and the waiting calls are told. *)
Theorem connector_serves_requests (e : nat → conn_system Ep) k :
  execution conn_step e → reachable conn_initial conn_step (e 0%nat) →
  (∀ m, resolving_thread_running_ (cn (e m)) = true) →
  weakly_fair resolver_moves e → strongly_fair resolution_succeeds e →
  ∃ m, (k ≤ m)%nat ∧ (cn_requests (e k) ≤ cn_served (e m))%nat ∧
    resolve_done_ (cn (e m)) = true ∧ endpoints_ (cn (e m)) ≠ [].
Proof.
  intros He Hr Hrun Hw Hs.
  destruct (requests_served_eventually e He Hr Hw Hs Hrun k) as (m & Hm & Hsv & Hd).
  destruct (e_inv e He Hr m) as (_ & _ & (H1 & H2 & H3 & _)).
  exists m. split_and!; [done..|]. rewrite Forall_forall in H1. apply H1, H2, H3. by left.
Qed.

(** C12: every call of [new_session] returns.  Whatever the resolving thread finds and however
    many calls there are, a call that has been made returns in every execution in which the
    resolving thread and the call are scheduled fairly, the call strongly so because it may
    wait for [resolve_needed_mutex_]; this holds while the connector is destroyed too. *)
Theorem new_session_returns (e : nat → conn_system Ep) k i :
  execution conn_step e → weakly_fair resolver_moves e → (∀ j, strongly_fair (call_moves j) e) →
  is_Some (cn_clients (e k) !! i) →
  ∃ m, (k ≤ m)%nat ∧ ∃ session ec, cn_clients (e m) !! i = Some (CReturned session ec).
Proof. intros He Hw Hc [cl Hi]. by apply (call_returns e He Hw Hc k i cl). Qed.

End Claims.

(** ** Witnesses *)

(** The first resolution, then one call that connects. *)
Definition toy_run (k : nat) : conn_system nat :=
  let asked := set_resolve_error ec_ok toy_conn in
  let published := update_endpoints [7; 8]%nat (set_resolve_needed false asked) in
  let called (cl : client_pc nat) := mk_conn_system resolved_conn RLoop (<[0%nat := cl]> ∅) [[7; 8]]%nat 1 1 1 in
  match k with
  | 0%nat => mk_conn_system toy_conn RLoop ∅ [] 1 0 0
  | 1%nat => mk_conn_system toy_conn RResolve ∅ [] 1 1 0
  | 2%nat => mk_conn_system asked (RPublish [7; 8]%nat) ∅ [] 1 1 0
  | 3%nat => mk_conn_system published RNotify ∅ [[7; 8]]%nat 1 1 1
  | 4%nat => mk_conn_system resolved_conn RLoop ∅ [[7; 8]]%nat 1 1 1
  | 5%nat => called CWait
  | 6%nat => called CReady
  | 7%nat => called (CConnect [8; 7]%nat)
  | _ => called (CReturned (Some 8%nat) ec_ok)
  end.

Lemma toy_run_execution : execution conn_step toy_run.
Proof.
  intros [|[|[|[|[|[|[|[|k]]]]]]]]; [right..|by left]; cbn [toy_run].
  - by apply cst_begin.
  - by apply (cst_resolve_ok _ _ _ _ _ _ ec_ok [7; 8]%nat).
  - apply cst_publish.
  - apply cst_notify_done.
  - by apply (cst_call _ _ _ _ _ _ _ 0).
  - rewrite <- (insert_insert_eq ∅ 0%nat CReady CWait). by apply (cst_ready _ _ _ _ _ _ _ 0).
  - rewrite <- (insert_insert_eq ∅ 0%nat (CConnect [8; 7]%nat) CReady).
    apply (cst_copy _ _ _ _ _ _ _ 0 [8; 7]%nat); [done|]. apply Permutation_swap.
  - rewrite <- (insert_insert_eq ∅ 0%nat (CReturned (Some 8%nat) ec_ok) (CConnect [8; 7]%nat)).
    by apply (cst_connected _ _ _ _ _ _ _ 0 8%nat [7]%nat).
Qed.

Lemma toy_run_quiet k :
  (8 ≤ k)%nat → (¬ enabled resolver_moves (toy_run k)) ∧ (¬ enabled resolution_succeeds (toy_run k)) ∧
    ∀ i, ¬ enabled (call_moves i) (toy_run k).
Proof.
  intros Hk. do 8 (destruct k as [|k]; [lia|]). cbn [toy_run]. split_and!.
  - intros (c' & Hs & Hm). inversion Hs; subst; simpl in *; done.
  - intros (c' & _ & E & _). done.
  - intros i (c' & Hs & [cl Hcl] & Hm).
    assert (i = 0%nat) as -> by (destruct (decide (i = 0%nat)); [done|by cbn [cn_clients] in Hcl; rewrite lookup_insert_ne in Hcl]).
    apply Hm. rewrite (conn_step_returned _ _ 0%nat (Some 8%nat) ec_ok Hs eq_refl). done.
Qed.

Lemma toy_run_fair :
  weakly_fair resolver_moves toy_run ∧ strongly_fair resolution_succeeds toy_run ∧
  ∀ i, strongly_fair (call_moves i) toy_run.
Proof.
  split_and!.
  - intros n Hen. destruct (toy_run_quiet (n + 8)) as [Hq _]; [lia|]. destruct Hq. apply Hen. lia.
  - intros n Hen. destruct (Hen (n + 8)%nat) as (m & Hm & He); [lia|].
    by destruct (toy_run_quiet m) as (_ & [] & _); [lia|].
  - intros i n Hen. destruct (Hen (n + 8)%nat) as (m & Hm & He); [lia|].
    destruct (toy_run_quiet m) as (_ & _ & Hq); [lia|]. by destruct (Hq i).
Qed.

Lemma connector_serves_requests_witness : ∃ m, (1 ≤ cn_served (toy_run m))%nat.
Proof.
  destruct (connector_serves_requests toy_run 0) as (m & _ & Hsv & _).
  - exact toy_run_execution.
  - apply reach_init. by exists "localhost", "80", 5000, 5000, 5000.
  - by intros [|[|[|[|[|[|[|[|m]]]]]]]].
  - apply toy_run_fair.
  - apply toy_run_fair.
  - exists m. exact Hsv.
Defined.

Lemma new_session_returns_witness :
  ∃ m session ec, cn_clients (toy_run m) !! 0%nat = Some (CReturned session ec).
Proof.
  destruct (new_session_returns toy_run 5 0) as (m & _ & session & ec & E).
  - exact toy_run_execution.
  - apply toy_run_fair.
  - apply toy_run_fair.
  - by eexists.
  - by exists m, session, ec.
Defined.
