(* ===== verification/PoolConnector.v ===== *)
(** * The pool over its connector

    [base_connection_pool] owns its [base_connector]: the adders of a refill are the only
    callers of [connector_.new_session()], and the members are destroyed after the
    destructor's body, which joins the watcher.  This file composes the two transition
    systems PoolSystem and ConnectorSystem: an adder's [new_session] is a call of the
    connector, and its result is the session the adder appends to the pool. *)

From S2P Require Import Prelude ErrorCode TimedBase PoolStrategy ConnectionPool PoolSystem.
From S2P Require Import Connector ConnectorSystem.
Open Scope sc_scope.

(** The pool with its threads, the connector with its resolving thread, and the calls of
    [new_session] that adders are in. *)
Record net (Session St Ep : Type) := mk_net {
  n_pool : system Session St;
  n_conn : conn_system Ep;
  n_calls : list nat
}.
Arguments mk_net {Session St Ep}.
Arguments n_pool {Session St Ep}.
Arguments n_conn {Session St Ep}.
Arguments n_calls {Session St Ep}.

Section Net.
Context {Session St Ep : Type} `{PoolSession Session, PoolStrategy St, pl : Platform}.
Variables (peer_of : Session → Ep) (max_held : nat).
Implicit Types (p : system Session St) (c : conn_system Ep).

Inductive net_step : net Session St Ep → net Session St Ep → Prop :=
(* a step of the pool in which no call of an adder returns *)
| net_pool p p' c calls :
    step max_held p p' → (s_adders p ≤ s_adders p')%nat →
    net_step (mk_net p c calls) (mk_net p' c calls)
(* a step of the resolving thread, or of a call, that is neither a new call nor the
   destructor's store *)
| net_conn p c c' calls :
    conn_step c c' → dom (cn_clients c') = dom (cn_clients c) →
    resolving_thread_running_ (cn c') = resolving_thread_running_ (cn c) →
    net_step (mk_net p c calls) (mk_net p c' calls)
(* an adder calls [connector.new_session()] *)
| net_call p c c' calls i :
    (length calls < s_adders p)%nat → conn_step c c' →
    cn_clients c !! i = None → cn_clients c' = <[i := CWait]> (cn_clients c) →
    net_step (mk_net p c calls) (mk_net p c' (i :: calls))
(* the call returns a session to the adder *)
| net_connected p p' c calls1 i calls2 peer ec s :
    cn_clients c !! i = Some (CReturned (Some peer) ec) → peer_of s = peer →
    step max_held p p' → s_created p' = s :: s_created p →
    net_step (mk_net p c (calls1 ++ i :: calls2)) (mk_net p' c (calls1 ++ calls2))
(* the call throws, and the adder with it *)
| net_failed p p' c calls1 i calls2 ec :
    cn_clients c !! i = Some (CReturned None ec) →
    step max_held p p' → s_adders p = S (s_adders p') → s_created p' = s_created p →
    net_step (mk_net p c (calls1 ++ i :: calls2)) (mk_net p' c (calls1 ++ calls2))
(* the watcher has been joined: the member [connector_] is destroyed *)
| net_destroy p c calls :
    stopped p → s_pc p = WDone →
    net_step (mk_net p c calls)
      (mk_net p (mk_conn_system (connector_dtor (cn c)) (cn_pc c) (cn_clients c)
                   (cn_published c) (cn_requests c) (cn_begun c) (cn_served c)) calls).

(** [get_resolve_timeout()], [get_connect_timeout()] and [get_operation_timeout()] of the
    pool are those of its connector. *)
Definition pool_get_resolve_timeout (n : net Session St Ep) : Z := get_resolve_timeout (cn (n_conn n)).
Definition pool_get_connect_timeout (n : net Session St Ep) : Z := get_connect_timeout (cn (n_conn n)).
Definition pool_get_operation_timeout (n : net Session St Ep) : Z := get_operation_timeout (cn (n_conn n)).

(** After the constructor: the connector is constructed first, and the timeout the pool
    waits with by default is the connector's. *)
Definition net_initial (size idle_timeout : Z) (n : net Session St Ep) : Prop :=
  initial size idle_timeout (n_pool n) ∧ conn_initial (n_conn n) ∧ n_calls n = [] ∧
  pool_connect_timeout (s_pool (n_pool n)) = pool_get_connect_timeout n.

(** Every session ever connected is a session to an endpoint a resolution produced. *)
Definition sessions_resolved (n : net Session St Ep) : Prop :=
  ∀ s, s ∈ s_created (n_pool n) → ∃ eps, eps ∈ cn_published (n_conn n) ∧ peer_of s ∈ eps.

(** The calls are those of adders that are still in [new_session]; any other has
    returned. *)
Definition calls_ok (n : net Session St Ep) : Prop :=
  NoDup (n_calls n) ∧ (length (n_calls n) ≤ s_adders (n_pool n))%nat ∧
  (∀ i, i ∈ n_calls n → is_Some (cn_clients (n_conn n) !! i)) ∧
  (∀ i cl, cn_clients (n_conn n) !! i = Some cl → i ∉ n_calls n → call_returned cl).

(** The connector's flag is cleared only after the watcher has left its loop. *)
Definition destroyed_last (n : net Session St Ep) : Prop :=
  resolving_thread_running_ (cn (n_conn n)) = false →
  stopped (n_pool n) ∧ s_pc (n_pool n) = WDone.

(** What the calls have left to do, and the whole of what must happen before the watcher is
    joined. *)
Definition calls_work c (calls : list nat) : nat :=
  sum_list_with (λ i, call_work (cn_clients c !! i)) calls.

Definition net_work (n : net Session St Ep) : nat :=
  watcher_work (n_pool n) + 6 * (pending_adders (n_pool n) - length (n_calls n)) +
  calls_work (n_conn n) (n_calls n).

(** Both threads have ended: the destructor has returned. *)
Definition destroyed (n : net Session St Ep) : Prop :=
  s_pc (n_pool n) = WDone ∧ cn_pc (n_conn n) = RDone.

End Net.

Arguments net_step {Session St Ep _ _ _} peer_of max_held.

(** ** Lemmas on the components' steps *)

Section StepLemmas.
Context {Session St : Type} `{PoolSession Session, PoolStrategy St, pl : Platform}.
Implicit Types (p : system Session St).

(** Only the connecting step creates sessions, one at a time. *)
Lemma step_created max_held p p' :
  step max_held p p' →
  s_created p' = s_created p ∨ ∃ s, s_created p' = s :: s_created p ∧ s_adders p = S (s_adders p').
Proof. destruct 1; simpl; eauto. Qed.

(** No step of the pool changes the timeout it waits with by default. *)
Lemma step_connect_timeout max_held p p' :
  step max_held p p' → pool_connect_timeout (s_pool p') = pool_connect_timeout (s_pool p).
Proof. by destruct 1. Qed.

(** ... and no step of the connector the timeouts it was constructed with. *)
Lemma conn_step_timeouts {Ep} (c c' : conn_system Ep) :
  conn_step c c' →
  get_resolve_timeout (cn c') = get_resolve_timeout (cn c) ∧
  get_connect_timeout (cn c') = get_connect_timeout (cn c) ∧
  get_operation_timeout (cn c') = get_operation_timeout (cn c).
Proof. by destruct 1. Qed.

(** The adders of a refill start together, when the watcher is out of a refill. *)
Lemma step_adders_up max_held p p' :
  step max_held p p' → s_adders p' = s_adders p ∨
  (∃ v, s_pc p = WUnlocked v) ∨ s_adders p = S (s_adders p').
Proof. destruct 1; simpl; eauto. Qed.

End StepLemmas.

(** ** Projections and invariants *)

Section Invariants.
Context {Session St Ep : Type} `{PoolSession Session, PoolStrategy St, pl : Platform}.
Variables (peer_of : Session → Ep) (max_held : nat) (size idle_timeout : Z).
Implicit Types (n : net Session St Ep) (p : system Session St) (c : conn_system Ep).

Abbreviation net_reachable := (reachable (net_initial size idle_timeout) (net_step peer_of max_held)).

(** The composition adds no behaviour to either component. *)
Lemma net_projections n :
  net_reachable n →
  reachable (initial size idle_timeout) (step max_held) (n_pool n) ∧
  reachable conn_initial conn_step (n_conn n).
Proof.
  induction 1 as [n (Hp & Hc & _)|n n' Hr [IHp IHc] Hs]; [by split; constructor|].
  destruct Hs; simpl in *; split; try done; try (by eapply reach_step).
  eapply reach_step; [exact IHc|]. destruct c. apply cst_stop.
Qed.

Lemma net_clients n : net_reachable n → endpoints_ok (n_conn n) ∧ clients_ok (n_conn n).
Proof.
  intros [_ Hc]%net_projections.
  apply (inductive_invariant_holds _ _ _ clients_inductive) in Hc as [? ?]. done.
Qed.

Lemma net_sessions_resolved n : net_reachable n → sessions_resolved peer_of n.
Proof.
  intros Hr. induction Hr as [n ((st & ct & t & _ & E) & _)|n n' Hr IH Hs].
  { unfold sessions_resolved. rewrite E. intros s Hin. by apply not_elem_of_nil in Hin. }
  pose proof (net_clients _ Hr) as [_ Hcl].
  unfold sessions_resolved in *. destruct Hs as [p p' c calls Hst Had|p c c' calls Hst|p c c' calls i _ Hst
    |p p' c calls1 i calls2 peer ec s Hi Hpeer Hst Hcr|p p' c calls1 i calls2 ec Hi Hst Had Hcr|]; simpl in *.
  - destruct (step_created _ _ _ Hst) as [->|(s & _ & Hs)]; [done|lia].
  - intros s Hin. destruct (IH s Hin) as (eps & He & ?). exists eps. split; [|done].
    by eapply conn_step_published.
  - intros s Hin. destruct (IH s Hin) as (eps & He & ?). exists eps. split; [|done].
    by eapply conn_step_published.
  - rewrite Hcr. intros s' [->|Hin]%elem_of_cons; [|by apply IH].
    destruct (Hcl i _ Hi) as [_ (eps & ? & ?)]. exists eps. by rewrite Hpeer.
  - by rewrite Hcr.
  - done.
Qed.

(** Outside a refill no adder exists. *)
Lemma net_adders_idle n : 0 ≤ size < 2 ^ 64 - 2 → size + Z.of_nat max_held < 2 ^ 64 →
  net_reachable n → population size idle_timeout max_held (n_pool n).
Proof. intros ?? [Hp _]%net_projections. by eapply reachable_population. Qed.

(** Taking an element out of the middle of a list. *)
Lemma elem_of_middle {A} (l1 l2 : list A) x y : y ∈ l1 ++ x :: l2 ↔ y = x ∨ y ∈ l1 ++ l2.
Proof. rewrite !elem_of_app, elem_of_cons. tauto. Qed.

(** A call that has returned leaves the list with its adder. *)
Lemma calls_ok_return p p' c calls1 i calls2 r ec :
  calls_ok (mk_net p c (calls1 ++ i :: calls2)) → cn_clients c !! i = Some (CReturned r ec) →
  s_adders p = S (s_adders p') → calls_ok (mk_net p' c (calls1 ++ calls2)).
Proof.
  unfold calls_ok. simpl. intros (Hnd & Hlen & Hin & Hret) Hi Had.
  rewrite <- Permutation_middle in Hnd. apply NoDup_cons in Hnd as [Hx Hnd].
  rewrite length_app in *. simpl in Hlen. split_and!; [done|lia| |].
  - intros j Hj. apply Hin. apply elem_of_middle. by right.
  - intros j cl Hj Hni. destruct (decide (j = i)) as [->|]; [by simplify_eq|].
    apply (Hret j); [done|]. by intros [->|]%elem_of_middle.
Qed.

(** The calls move with the connector. *)
Lemma calls_ok_conn p c c' calls :
  calls_ok (mk_net p c calls) → conn_step c c' → dom (cn_clients c') = dom (cn_clients c) →
  calls_ok (mk_net p c' calls).
Proof.
  unfold calls_ok. simpl. intros (Hnd & Hlen & Hin & Hret) Hst Hdom. split_and!; [done|done| |].
  - intros i Hi. destruct (Hin i Hi) as [cl Hcl].
    destruct (conn_step_call _ _ _ _ Hst Hcl) as (cl' & -> & _). eauto.
  - intros i cl Hcl Hni. assert (is_Some (cn_clients c !! i)) as [cl0 Hcl0].
    { apply elem_of_dom. rewrite <- Hdom. apply elem_of_dom. eauto. }
    specialize (Hret i cl0 Hcl0 Hni). destruct cl0 as [| | | |r ec]; try done.
    rewrite (conn_step_returned _ _ _ _ _ Hst Hcl0) in Hcl. by simplify_eq.
Qed.

(** A step that creates a session ends an adder's call. *)
Lemma step_creates_adder p p' s :
  step max_held p p' → s_created p' = s :: s_created p → s_adders p = S (s_adders p').
Proof.
  intros Hst Hcr. destruct (step_created _ _ _ Hst) as [E|(s' & _ & Had)]; [|done].
  rewrite Hcr in E. apply (f_equal length) in E. simpl in E. lia.
Qed.

Lemma net_calls_ok n : net_reachable n → calls_ok n.
Proof.
  intros Hr. induction Hr as [n (_ & (host & port & d1 & d2 & d3 & E) & Hcalls & _)|n n' Hr IH Hs].
  { unfold calls_ok. rewrite E, Hcalls. simpl. split_and!; [constructor|lia| |].
    - intros i Hi. by apply not_elem_of_nil in Hi.
    - intros i cl Hi. by rewrite lookup_empty in Hi. }
  destruct Hs as [p p' c calls Hst Had|p c c' calls Hst Hdom Hrun|p c c' calls i Hlt Hst Hi Hc'
    |p p' c calls1 i calls2 peer ec s Hi Hpeer Hst Hcr|p p' c calls1 i calls2 ec Hi Hst Had Hcr|].
  - destruct IH as (Hnd & Hlen & Hin & Hret). split_and!; simpl in *; [done|lia|done|done].
  - by eapply calls_ok_conn.
  - destruct IH as (Hnd & Hlen & Hin & Hret). unfold calls_ok. simpl in *. rewrite Hc'. split_and!.
    + constructor; [|done]. intros Hi'. destruct (Hin i Hi') as [cl Hcl]. congruence.
    + lia.
    + intros j [->|Hj]%elem_of_cons; [by rewrite lookup_insert_eq|].
      destruct (decide (i = j)) as [<-|]; [by rewrite lookup_insert_eq|]. rewrite lookup_insert_ne by done. auto.
    + intros j cl Hj Hni. apply not_elem_of_cons in Hni as [Hne Hni].
      rewrite lookup_insert_ne in Hj by done. eauto.
  - eapply calls_ok_return; [done..|]. by eapply step_creates_adder.
  - by eapply calls_ok_return.
  - done.
Qed.

(** A watcher that is done stays done. *)
Lemma watcher_done_stays p p' :
  step max_held p p' → stopped p → s_pc p = WDone → stopped p' ∧ s_pc p' = WDone.
Proof. destruct 1; simpl; by intros. Qed.

Lemma net_destroyed_last n : net_reachable n → destroyed_last n.
Proof.
  intros Hr. induction Hr as [n (_ & (host & port & d1 & d2 & d3 & E) & _)|n n' Hr IH Hs].
  { unfold destroyed_last. by rewrite E. }
  unfold destroyed_last in *. destruct Hs as [p p' c calls Hst Had|p c c' calls Hst Hdom Hrun
    |p c c' calls i Hlt Hst Hi Hc'|p p' c calls1 i calls2 peer ec s Hi Hpeer Hst Hcr
    |p p' c calls1 i calls2 ec Hi Hst Had Hcr|]; simpl in *.
  - intros Hf. destruct (IH Hf). by eapply watcher_done_stays.
  - rewrite Hrun. done.
  - intros Hf. apply IH. assert (Hw : cn_clients c' !! i = Some CWait) by (by rewrite Hc', lookup_insert_eq).
    destruct Hst; simpl in *; try done. congruence.
  - intros Hf. destruct (IH Hf). by eapply watcher_done_stays.
  - intros Hf. destruct (IH Hf). by eapply watcher_done_stays.
  - done.
Qed.

End Invariants.

(** ** Shutdown *)

Lemma sum_list_with_le {A} (f g : A → nat) (l : list A) :
  (∀ x, x ∈ l → (f x ≤ g x)%nat) → (sum_list_with f l ≤ sum_list_with g l)%nat.
Proof.
  induction l as [|x l IH]; intros Hle; simpl; [done|].
  pose proof (Hle x (list_elem_of_here _ _)) as Hx.
  assert ((sum_list_with f l ≤ sum_list_with g l)%nat) by (apply IH; intros y Hy; apply Hle; by right). lia.
Qed.

Lemma sum_list_with_eq {A} (f g : A → nat) (l : list A) :
  (∀ x, x ∈ l → f x = g x) → sum_list_with f l = sum_list_with g l.
Proof. intros Hx. apply Nat.le_antisymm; apply sum_list_with_le; intros x Hin; by rewrite Hx. Qed.

Lemma sum_list_with_middle {A} (f : A → nat) (l1 l2 : list A) x :
  sum_list_with f (l1 ++ x :: l2) = (f x + sum_list_with f (l1 ++ l2))%nat.
Proof. rewrite !sum_list_with_app. simpl. lia. Qed.

Section Shutdown.
Context {Session St Ep : Type} `{PoolSession Session, PoolStrategy St, pl : Platform}.
Variables (peer_of : Session → Ep) (max_held : nat) (size idle_timeout : Z).
(** There is always another session to an endpoint. *)
Hypothesis fresh_session : ∀ (l : list Session) peer, ∃ s, (s ∉ l) ∧ peer_of s = peer.
Hypothesis size_range : 0 ≤ size < 2 ^ 64 - 2.
Hypothesis held_range : size + Z.of_nat max_held < 2 ^ 64.
Implicit Types (n : net Session St Ep) (p : system Session St) (c : conn_system Ep).

(** What the shutdown relies on in a reachable state. *)
Definition net_ok n : Prop :=
  population size idle_timeout max_held (n_pool n) ∧ calls_ok n ∧
  (∀ i ec, cn_clients (n_conn n) !! i = Some (CNotify ec) → ec_failed ec = true).

Lemma net_reachable_ok n :
  reachable (net_initial size idle_timeout) (net_step peer_of max_held) n → net_ok n.
Proof.
  intros Hr. split_and!.
  - by eapply net_adders_idle.
  - by eapply net_calls_ok.
  - intros i ec Hi. by destruct (net_clients _ _ _ _ _ Hr) as [_ Hc]; specialize (Hc i _ Hi).
Qed.

(** The calls' part of the work never grows with a step of the connector. *)
Lemma calls_work_conn c c' calls :
  conn_step c c' → (∀ i, i ∈ calls → is_Some (cn_clients c !! i)) →
  (calls_work c' calls ≤ calls_work c calls)%nat.
Proof.
  intros Hst Hin. apply sum_list_with_le. intros i Hi. simpl. destruct (Hin i Hi) as [cl Hcl]. rewrite Hcl.
  destruct (conn_step_call _ _ _ _ Hst Hcl) as (cl' & -> & Hle). done.
Qed.

(** An adder's call returns in a refill only, and that is progress of the watcher. *)
Lemma step_adder_returns p p' :
  population size idle_timeout max_held p → step max_held p p' → s_adders p = S (s_adders p') →
  (∃ t0 v b, s_pc p = WRefill t0 v b ∧ s_pc p' = WRefill t0 v b) ∧
  (watcher_work p' ≤ watcher_work p)%nat.
Proof.
  intros (_ & _ & Hai & _) Hst Had. unfold watcher_work, adders_idle in *.
  destruct Hst; simpl in *; try lia; try (by destruct Hai).
  - split; [by do 3 eexists|lia].
  - split; [by do 3 eexists|lia].
Qed.

Lemma pending_adders_ge p :
  population size idle_timeout max_held p → (s_adders p ≤ pending_adders p)%nat.
Proof. intros (_ & _ & Hai & _). unfold pending_adders, adders_idle in *. destruct (s_pc p); lia. Qed.

Lemma net_stopped_step n n' : stopped (n_pool n) → net_step peer_of max_held n n' → stopped (n_pool n').
Proof. intros Hs Hst. destruct Hst; simpl in *; try done; by eapply stopped_step. Qed.

Lemma net_work_step n n' :
  net_ok n → winding (n_pool n) → net_step peer_of max_held n n' → (net_work n' ≤ net_work n)%nat.
Proof.
  intros (Hpop & (Hnd & Hlen & Hin & Hret) & _) Hstop Hs.
  assert (Hw : ∀ p', step max_held (n_pool n) p' →
    (watcher_work p' ≤ watcher_work (n_pool n))%nat ∧ (pending_adders p' ≤ pending_adders (n_pool n))%nat).
  { intros p' Hst. eapply watcher_work_step; [|done..]. lia. }
  assert (Hret1 : ∀ p' c calls1 i calls2 r ec, n_calls n = calls1 ++ i :: calls2 → n_conn n = c →
    cn_clients c !! i = Some (CReturned r ec) → step max_held (n_pool n) p' →
    s_adders (n_pool n) = Datatypes.S (s_adders p') →
    (net_work (mk_net p' c (calls1 ++ calls2)) ≤ net_work n)%nat).
  { intros p' c calls1 i calls2 r ec Ecalls Ec Hi Hst Had.
    destruct (step_adder_returns _ _ Hpop Hst Had) as [(t0 & v & b & E1 & E2) Hle].
    unfold net_work, pending_adders, calls_work. cbn [n_pool n_conn n_calls]. rewrite E1, E2, Ecalls, Ec.
    rewrite sum_list_with_middle, Hi. rewrite Ecalls in Hlen. rewrite !length_app in *. simpl in *. lia. }
  destruct Hs as [p p' c calls Hst Had|p c c' calls Hst Hdom Hrun
    |p c c' calls i Hlt Hst Hi Hc'|p p' c calls1 i calls2 peer ec s Hi Hpeer Hst Hcr
    |p p' c calls1 i calls2 ec Hi Hst Had Hcr|]; cbn [n_pool n_conn n_calls] in *.
  - destruct (Hw _ Hst) as (Hle & Hpe). unfold net_work. simpl. lia.
  - pose proof (calls_work_conn c c' calls Hst Hin). unfold net_work. simpl. lia.
  - pose proof (calls_work_conn c c' calls Hst Hin) as Hc. unfold net_work. cbn [n_pool n_conn n_calls].
    assert (calls_work c' (i :: calls) = (5 + calls_work c' calls)%nat) as ->.
    { unfold calls_work. cbn [sum_list_with]. by rewrite Hc', lookup_insert_eq. }
    pose proof (pending_adders_ge _ Hpop). cbn [length]. lia.
  - eapply Hret1; [done..|]. by eapply step_creates_adder.
  - by eapply Hret1.
  - done.
Qed.

(** A step of the connector that a call or the resolving thread takes, as a step of the
    whole. *)
Lemma net_conn_insert p c c' calls i cl :
  conn_step c c' → is_Some (cn_clients c !! i) → cn_clients c' = <[i := cl]> (cn_clients c) →
  resolving_thread_running_ (cn c') = resolving_thread_running_ (cn c) →
  net_step peer_of max_held (mk_net p c calls) (mk_net p c' calls).
Proof.
  intros Hst Hi Hc' Hrun. apply net_conn; [done| |done]. rewrite Hc'. by apply dom_insert_lookup_L.
Qed.

(** A call that has not returned can take a step, after the resolving thread has given
    [resolve_needed_mutex_] free. *)
Lemma call_progress p c calls i cl :
  cn_clients c !! i = Some cl → ¬ call_returned cl →
  ∃ c' cl', rtc (net_step peer_of max_held) (mk_net p c calls) (mk_net p c' calls) ∧
    cn_clients c' = <[i := cl']> (cn_clients c) ∧ (call_work (Some cl') < call_work (Some cl))%nat.
Proof.
  intros Hi Hret. assert (His : is_Some (cn_clients c !! i)) by eauto.
  assert (Hone : ∀ c' cl', conn_step c c' → cn_clients c' = <[i := cl']> (cn_clients c) →
    resolving_thread_running_ (cn c') = resolving_thread_running_ (cn c) →
    (call_work (Some cl') < call_work (Some cl))%nat →
    ∃ c' cl', rtc (net_step peer_of max_held) (mk_net p c calls) (mk_net p c' calls) ∧
      cn_clients c' = <[i := cl']> (cn_clients c) ∧ (call_work (Some cl') < call_work (Some cl))%nat).
  { intros c' cl' Hst Hc' Hrun Hw. exists c', cl'. split; [|done]. apply rtc_once. by eapply net_conn_insert. }
  destruct c as [c pc clm pub rq bg sv], cl as [| |[|peer eps]|ec|]; simpl in *; [..|done].
  - eapply Hone; [by apply cst_give_up|done|done|simpl; lia].
  - eapply Hone; [by apply cst_copy, Permutation_refl|done|done|simpl; lia].
  - eapply Hone; [by apply cst_no_endpoints|done|done|simpl; lia].
  - eapply Hone; [apply (cst_connect_fail _ _ _ _ _ _ _ _ _ _ _ Hi timed_out_failed)|done|done|simpl; lia].
  - assert (Hfree : ∃ k' pc' pub' sv', holds_needed pc' = false ∧
      rtc (net_step peer_of max_held) (mk_net p (mk_conn_system c pc clm pub rq bg sv) calls)
        (mk_net p (mk_conn_system k' pc' clm pub' rq bg sv') calls)).
    { destruct pc as [| |eps| | |]; try (do 4 eexists; split; cycle 1; [apply rtc_refl|done]).
      - exists (set_resolve_error timed_out c), RSleep, pub, sv. split; [done|]. apply rtc_once, net_conn; [|done..].
        by apply cst_resolve_fail, timed_out_failed.
      - exists (update_endpoints eps (set_resolve_needed false c)), RNotify, (eps :: pub), bg. split; [done|].
        apply rtc_once, net_conn; [apply cst_publish|done..]. }
    destruct Hfree as (k' & pc' & pub' & sv' & Hf & Hr). do 2 eexists. split.
    + eapply rtc_r; [exact Hr|]. eapply net_conn_insert; [by apply (cst_notify_needed _ _ _ _ _ _ _ i ec)|done..].
    + split; [done|]. simpl. lia.
Qed.

(** An adder whose call has returned can go on. *)
Lemma return_progress p c i calls cl :
  population size idle_timeout max_held p → (length (i :: calls) ≤ s_adders p)%nat →
  cn_clients c !! i = Some cl → call_returned cl →
  ∃ n', net_step peer_of max_held (mk_net p c (i :: calls)) n' ∧
    (net_work n' < net_work (mk_net p c (i :: calls)))%nat.
Proof.
  intros (_ & _ & Hai & _) Hlen Hi Hcr. unfold adders_idle in Hai.
  destruct p as [p pc [|k] rd hd gn cr t]; simpl in *; [lia|].
  destruct pc as [| |t0 v b| |]; try by destruct Hai. destruct cl as [| | | |[peer|] ec]; try done.
  - destruct (fresh_session cr peer) as (s & Hs & Hp). eexists. split.
    { apply (net_connected _ _ _ (mk_system p (WRefill t0 v b) k (s :: rd) hd gn (s :: cr) t) c [] i calls peer ec s);
        [done..|by apply step_connect|done]. }
    unfold net_work, calls_work, pending_adders. simpl. rewrite Hi. simpl. lia.
  - eexists. split.
    { apply (net_failed _ _ _ (mk_system p (WRefill t0 v b) k rd hd gn cr t) c [] i calls ec);
        [done|by apply step_connect_fail|done..]. }
    unfold net_work, calls_work, pending_adders. simpl. rewrite Hi. simpl. lia.
Qed.

(** Until the watcher is done, some steps bring the shutdown forward. *)
Lemma net_progress n :
  reachable (net_initial size idle_timeout) (net_step peer_of max_held) n →
  stopped (n_pool n) → s_pc (n_pool n) ≠ WDone →
  ∃ n', rtc (net_step peer_of max_held) n n' ∧ (net_work n' < net_work n)%nat.
Proof.
  intros Hr Hstop Hpc. pose proof (net_reachable_ok n Hr) as (Hpop & (Hnd & Hlen & Hin & Hret) & _).
  destruct n as [p c calls]. unfold net_work. cbn [n_pool n_conn n_calls] in *.
  destruct (s_adders p) as [|k] eqn:Had.
  - assert (calls = []) as -> by (by destruct calls; simpl in *; [|lia]).
    destruct (watcher_progress size idle_timeout max_held p) as (p' & Hst & Hw & Hpe); [lia|done..|].
    exists (mk_net p' c []). split; [apply rtc_once, net_pool; [done|lia]|].
    unfold calls_work. cbn [n_pool n_conn n_calls length sum_list_with]. lia.
  - destruct calls as [|i calls].
    { pose proof (pending_adders_ge _ Hpop). destruct c as [c pc clm pub rq bg sv].
      set (i := fresh (dom clm)). assert (Hi : clm !! i = None) by (apply not_elem_of_dom, is_fresh).
      eexists. split; [apply rtc_once; eapply (net_call _ _ p _ _ [] i);
        [simpl; lia|by apply (cst_call _ _ _ _ _ _ _ i)|done|done]|].
      unfold calls_work. cbn [n_pool n_conn n_calls cn_clients sum_list_with length].
      rewrite lookup_insert_eq. simpl. lia. }
    destruct (Hin i (list_elem_of_here _ _)) as [cl Hi].
    apply NoDup_cons in Hnd as [Hni Hnd].
    destruct (decide (call_returned cl)) as [Hcr|Hcr].
    + destruct (return_progress p c i calls cl) as (n' & Hst & Hw); [done|by rewrite Had|done..|].
      exists n'. split; [by apply rtc_once|exact Hw].
    + destruct (call_progress p c (i :: calls) i cl Hi Hcr) as (c' & cl' & Hr' & Hc' & Hlt).
      exists (mk_net p c' (i :: calls)). split; [exact Hr'|]. cbn [n_pool n_conn n_calls].
      assert (calls_work c' calls = calls_work c calls) as E.
      { unfold calls_work. apply sum_list_with_eq. intros j Hj. rewrite Hc', lookup_insert_ne; [done|].
        by intros ->. }
      unfold calls_work in *. cbn [sum_list_with]. rewrite E, Hc', lookup_insert_eq, Hi. lia.
Qed.

(** The resolving thread ends once the connector's flag is cleared. *)
Lemma resolver_ends p c :
  resolving_thread_running_ (cn c) = false →
  ∃ c', rtc (net_step peer_of max_held) (mk_net p c []) (mk_net p c' []) ∧ cn_pc c' = RDone.
Proof.
  remember (resolver_work (cn_pc c)) as m eqn:Em. revert c Em.
  induction (lt_wf m) as [m _ IH]. intros c -> Hf.
  destruct (decide (resolver_work (cn_pc c) = 0%nat)) as [H0'|H0'].
  - exists c. split; [apply rtc_refl|]. by destruct (cn_pc c).
  - destruct (resolver_progress c Hf) as (c1 & Hst & Hcl & Hf1 & Hlt); [by intros E; rewrite E in H0'|].
    destruct (IH _ Hlt c1 eq_refl Hf1) as (c' & Hr & E). exists c'. split; [|done].
    eapply rtc_l; [|exact Hr]. apply net_conn; [done|by rewrite Hcl|by rewrite Hf, Hf1].
Qed.

Lemma net_stopped_steps n n' :
  stopped (n_pool n) → rtc (net_step peer_of max_held) n n' → stopped (n_pool n').
Proof. apply (rtc_keeps _ (λ n, stopped (n_pool n))). apply net_stopped_step. Qed.

(** The watcher can be joined. *)
Lemma watcher_ends n :
  reachable (net_initial size idle_timeout) (net_step peer_of max_held) n → stopped (n_pool n) →
  ∃ n', rtc (net_step peer_of max_held) n n' ∧ s_pc (n_pool n') = WDone.
Proof.
  remember (net_work n) as m eqn:Em. revert n Em. induction (lt_wf m) as [m _ IH]. intros n -> Hr Hs.
  destruct (decide (watcher_work (n_pool n) = 0%nat)) as [H0'|H0'].
  - exists n. split; [apply rtc_refl|]. unfold watcher_work in H0'. by destruct (s_pc (n_pool n)).
  - destruct (net_progress n Hr Hs) as (n1 & Hr1 & Hlt); [by intros E; unfold watcher_work in H0'; rewrite E in H0'|].
    destruct (IH _ Hlt n1 eq_refl) as (n' & Hr' & E).
    + by eapply reachable_steps.
    + by eapply net_stopped_steps.
    + exists n'. split; [by etrans|done].
Qed.

End Shutdown.

(** ** Properties *)

Section Claims.
Context {Session St Ep : Type} `{PoolSession Session, PoolStrategy St, pl : Platform}.
Variables (peer_of : Session → Ep) (max_held : nat) (size idle_timeout : Z).
Implicit Types (n : net Session St Ep).

(** The timeouts of a pool are fixed when it is constructed, and the calls of the pool that
    are given no timeout wait for the one its connector connects with. *)
Theorem pool_timeouts_fixed n :
  reachable (net_initial size idle_timeout) (net_step peer_of max_held) n →
  (∀ (env : lock_env Session) ec t,
     get_session_default env ec t (s_pool (n_pool n)) = get_session_timeout env ec t (pool_get_connect_timeout n)) ∧
  ∀ n', net_step peer_of max_held n n' →
    pool_get_resolve_timeout n' = pool_get_resolve_timeout n ∧
    pool_get_connect_timeout n' = pool_get_connect_timeout n ∧
    pool_get_operation_timeout n' = pool_get_operation_timeout n.
Proof.
  assert (Hfix : ∀ n n', net_step peer_of max_held n n' →
    pool_connect_timeout (s_pool (n_pool n')) = pool_connect_timeout (s_pool (n_pool n)) ∧
    pool_get_resolve_timeout n' = pool_get_resolve_timeout n ∧
    pool_get_connect_timeout n' = pool_get_connect_timeout n ∧
    pool_get_operation_timeout n' = pool_get_operation_timeout n).
  { unfold pool_get_resolve_timeout, pool_get_connect_timeout, pool_get_operation_timeout.
    intros ? ? []; simpl; split; eauto using step_connect_timeout, conn_step_timeouts. }
  intros Hr. split; [|intros n' Hs; by apply (Hfix n n')].
  assert (E : pool_connect_timeout (s_pool (n_pool n)) = pool_get_connect_timeout n); [|intros; by rewrite <- E].
  induction Hr as [n (_ & _ & _ & E)|n n' _ IH Hs]; [done|].
  destruct (Hfix _ _ Hs) as (-> & _ & -> & _). done.
Qed.

(** C3: the pool and its connector work together as each does alone, and what a client
    can hold is real: the composition refines both of them, and every session ever in the
    pool, or with an adder, or with a client, is a connection to an endpoint that a
    finished resolution produced; there is none before the first resolution. *)
Theorem pool_sessions_resolved n :
  reachable (net_initial size idle_timeout) (net_step peer_of max_held) n →
  reachable (initial size idle_timeout) (step max_held) (n_pool n) ∧
  reachable conn_initial conn_step (n_conn n) ∧
  (∀ s, s ∈ pooled (n_pool n) ++ s_ready (n_pool n) ++ s_held (n_pool n) ++ s_gone (n_pool n) →
     ∃ eps, eps ∈ cn_published (n_conn n) ∧ peer_of s ∈ eps).
Proof.
  intros Hr. destruct (net_projections _ _ _ _ _ Hr) as [Hp Hc]. do 2 (split; [done|]).
  intros s Hs. apply (net_sessions_resolved _ _ _ _ _ Hr).
  destruct (reachable_invariants _ _ _ _ Hp) as [[_ Hperm] _]. by rewrite Hperm.
Qed.

(** C23: the connector outlives its callers: a call of [new_session] is in progress only
    while a refill waits for the adder that made it, and when the connector's destructor
    runs the watcher has been joined, no call is in progress and none can begin. *)
Theorem connector_outlives_callers n :
  0 ≤ size < 2 ^ 64 - 2 → size + Z.of_nat max_held < 2 ^ 64 →
  reachable (net_initial size idle_timeout) (net_step peer_of max_held) n →
  (∀ i cl, cn_clients (n_conn n) !! i = Some cl → ¬ call_returned cl →
     (∃ t0 v b, s_pc (n_pool n) = WRefill t0 v b) ∧ (0 < s_adders (n_pool n))%nat) ∧
  (resolving_thread_running_ (cn (n_conn n)) = false →
     s_pc (n_pool n) = WDone ∧ n_calls n = [] ∧
     ∀ n', net_step peer_of max_held n n' → dom (cn_clients (n_conn n')) = dom (cn_clients (n_conn n))).
Proof.
  intros Hs Hh Hr. pose proof (net_adders_idle _ _ _ _ _ Hs Hh Hr) as (_ & _ & Hai & _).
  pose proof (net_calls_ok _ _ _ _ _ Hr) as (Hnd & Hlen & Hin & Hret). split.
  - intros i cl Hi Hnr. destruct (decide (i ∈ n_calls n)) as [Hc|Hc]; [|by specialize (Hret i cl Hi Hc)].
    assert (0 < length (n_calls n))%nat by (destruct (n_calls n); [by apply not_elem_of_nil in Hc|simpl; lia]).
    unfold adders_idle in Hai. split; [|lia].
    destruct (s_pc (n_pool n)) as [| |t0 v b| |]; [lia|lia|by exists t0, v, b|lia|lia].
  - intros Hf. destruct (net_destroyed_last _ _ _ _ _ Hr Hf) as [_ Hd].
    unfold adders_idle in Hai. rewrite Hd in Hai. destruct Hai as [Ha _].
    split; [done|]. split; [by destruct (n_calls n); simpl in *; [|lia]|]. intros n' Hst.
    destruct Hst; simpl in *; (done || lia).
Qed.

(** The destructor of the pool can always complete: however the watcher, the adders,
    their calls, the resolving thread and the clients stand when it clears the flag, the
    flag stays cleared, no step of any thread adds to what has to happen before the
    watcher is joined, and from there the threads can run to the point where the watcher
    and then the connector's resolving thread have ended. *)
Theorem pool_destructor_completes n :
  (∀ (l : list Session) peer, ∃ s, (s ∉ l) ∧ peer_of s = peer) →
  0 ≤ size < 2 ^ 64 - 2 → size + Z.of_nat max_held < 2 ^ 64 →
  reachable (net_initial size idle_timeout) (net_step peer_of max_held) n → stopped (n_pool n) →
  (∀ n', net_step peer_of max_held n n' → stopped (n_pool n') ∧ (net_work n' ≤ net_work n)%nat) ∧
  ∃ n', rtc (net_step peer_of max_held) n n' ∧ destroyed n'.
Proof.
  intros Hfresh Hs Hh Hr Hstop.
  split.
  { intros n' Hst. split; [by eapply net_stopped_step|].
    eapply net_work_step; [done|by eapply net_reachable_ok|by left|done]. }
  destruct (watcher_ends peer_of max_held size idle_timeout Hfresh Hs Hh n Hr Hstop) as (n1 & Hr1 & Hd).
  assert (Hr1' := reachable_steps _ _ _ _ Hr Hr1).
  assert (Hstop1 : stopped (n_pool n1)) by by eapply net_stopped_steps.
  pose proof (net_adders_idle _ _ _ _ _ Hs Hh Hr1') as (_ & _ & Hai & _).
  pose proof (net_calls_ok _ _ _ _ _ Hr1') as (_ & Hlen & _).
  unfold adders_idle in Hai. rewrite Hd in Hai. destruct Hai as [Ha _], n1 as [p c calls]. simpl in *.
  assert (calls = []) as -> by (by destruct calls; simpl in *; [|lia]).
  destruct (resolver_ends peer_of max_held p (mk_conn_system (connector_dtor (cn c)) (cn_pc c) (cn_clients c)
    (cn_published c) (cn_requests c) (cn_begun c) (cn_served c)) eq_refl) as (c' & Hr2 & Hc').
  exists (mk_net p c' []). split; [|done]. etrans; [exact Hr1|]. eapply rtc_l; [|exact Hr2]. by apply net_destroy.
Qed.

End Claims.

(** ** Witnesses *)

(** Sessions to numbered endpoints, with serial numbers; all of them open. *)
#[export] Instance pair_pool_session : PoolSession (nat * nat) := λ _, true.

Definition pair_pool (l : session_list (nat * nat)) : pool (nat * nat) greedy_strategy :=
  mk_pool 1 kInfiniteDuration l true mk_greedy 5000.

Abbreviation pair_net := (net (nat * nat) greedy_strategy nat).
Abbreviation pair_step := (net_step (Ep := nat) fst 2).

(** There is always another session to an endpoint. *)
Lemma pair_fresh_session (l : list (nat * nat)) (peer : nat) : ∃ s, (s ∉ l) ∧ fst s = peer.
Proof.
  exists (peer, fresh (map snd l)). split; [|done]. intros Hin.
  apply (infinite_is_fresh (map snd l)). apply list_elem_of_fmap. by exists (peer, fresh (map snd l)).
Qed.

(** The connector after its first resolution. *)
Definition pair_conn (clients : gmap nat (client_pc nat)) : conn_system nat :=
  mk_conn_system resolved_conn RLoop clients [[7; 8]]%nat 1 1 1.

(** A pool of size one whose adder is in [new_session]. *)
Definition calling_net (cl : client_pc nat) : pair_net :=
  mk_net (mk_system (pair_pool []) (WRefill 0 1 false) 1 [] [] [] [] 0) (pair_conn {[0%nat := cl]}) [0%nat].

Definition filled_net : pair_net :=
  mk_net (mk_system (pair_pool [(0, (8, 0)%nat)]) (WRefill 0 1 true) 0 [] [] [] [(8, 0)%nat] 0)
    (pair_conn {[0%nat := CReturned (Some 8%nat) ec_ok]}) [].

(** The first round of that pool, once the connector has resolved: the watcher finds the
    vacancy, its adder connects and appends. *)
Definition filling_run (k : nat) : pair_net :=
  match k with
  | 0%nat => mk_net (mk_system (pair_pool []) WLoop 0 [] [] [] [] 0) (pair_conn ∅) []
  | 1%nat => mk_net (mk_system (pair_pool []) (WUnlocked 1) 0 [] [] [] [] 0) (pair_conn ∅) []
  | 2%nat => mk_net (mk_system (pair_pool []) (WRefill 0 1 false) 1 [] [] [] [] 0) (pair_conn ∅) []
  | 3%nat => calling_net CWait
  | 4%nat => calling_net CReady
  | 5%nat => calling_net (CConnect [8; 7]%nat)
  | 6%nat => calling_net (CReturned (Some 8%nat) ec_ok)
  | 7%nat =>
      mk_net (mk_system (pair_pool []) (WRefill 0 1 false) 0 [(8, 0)%nat] [] [] [(8, 0)%nat] 0)
        (pair_conn {[0%nat := CReturned (Some 8%nat) ec_ok]}) []
  | _ => filled_net
  end.

(** A step of the call of the adder. *)
Lemma calling_net_step cl cl' :
  conn_step (pair_conn {[0%nat := cl]}) (pair_conn (<[0%nat := cl']> {[0%nat := cl]})) →
  pair_step (calling_net cl) (calling_net cl').
Proof.
  rewrite insert_singleton_eq. intros Hst. apply net_conn; [done| |done]. simpl. by rewrite !dom_singleton_L.
Qed.

Lemma filling_run_step k : (k < 8)%nat → pair_step (filling_run k) (filling_run (S k)).
Proof.
  intros Hk. destruct k as [|[|[|[|[|[|[|[|k]]]]]]]]; cbn [filling_run]; [..|lia].
  - apply net_pool; [|done]. exact (step_evict 2 (pair_pool []) 0 [] [] [] [] 0 eq_refl).
  - apply net_pool; [|cbn; lia]. exact (step_refill 2 (pair_pool []) 1 0 [] [] [] [] 0 eq_refl).
  - by eapply (net_call _ _ _ _ _ [] 0); [vm_compute; lia|by apply (cst_call _ _ _ _ _ _ _ 0)|..].
  - apply calling_net_step. by apply cst_ready.
  - apply calling_net_step. apply cst_copy; [done|apply Permutation_swap].
  - apply calling_net_step. by eapply cst_connected.
  - by eapply (net_connected _ _ _ _ _ [] 0%nat [] 8%nat ec_ok (8, 0)%nat);
      [|..|apply (step_connect _ _ _ _ _ _ _ _ _ _ _ (8, 0)%nat); set_solver|].
  - apply net_pool; [|done].
    by apply (step_append _ (pair_pool []) _ _ _ _ [] (8, 0)%nat []) with (lock := 0) (l := [(0, (8, 0)%nat)]).
Qed.

Lemma filling_run_reachable k : (k ≤ 8)%nat → reachable (net_initial 1 kInfiniteDuration) pair_step (filling_run k).
Proof.
  induction k as [|k IH]; intros Hk; [|eapply reach_step; [apply IH; lia|apply filling_run_step; lia]].
  apply (reachable_steps _ _ (mk_net (mk_system (pair_pool []) WLoop 0 [] [] [] [] 0)
    (mk_conn_system toy_conn RLoop ∅ [] 1 0 0) [])).
  { apply reach_init. split_and!; [|by exists "localhost", "80", 5000, 5000, 5000|done..].
    exists mk_greedy, 5000, 0. by split. }
  eapply rtc_l; [apply net_conn; [by apply cst_begin|done|done]|].
  eapply rtc_l; [apply net_conn; [by apply (cst_resolve_ok _ _ _ _ _ _ ec_ok [7; 8]%nat)|done|done]|].
  eapply rtc_l; [apply net_conn; [apply cst_publish|done|done]|].
  apply rtc_once. apply net_conn; [apply cst_notify_done|done|done].
Qed.

Lemma calling_net_reachable : reachable (net_initial 1 kInfiniteDuration) pair_step (calling_net CWait).
Proof. apply (filling_run_reachable 3). lia. Qed.

Lemma filled_net_reachable : reachable (net_initial 1 kInfiniteDuration) pair_step filled_net.
Proof. by apply (filling_run_reachable 8). Qed.

Lemma pool_sessions_resolved_witness : ∃ eps, eps ∈ [[7; 8]]%nat ∧ 8%nat ∈ eps.
Proof.
  apply (pool_sessions_resolved fst 2 1 kInfiniteDuration filled_net filled_net_reachable) with (s := (8, 0)%nat).
  left.
Defined.

Lemma pool_timeouts_fixed_witness :
  get_session_default (mk_lock_env None [] None []) ec_ok 7 (s_pool (n_pool filled_net)) =
    get_session_timeout (mk_lock_env None [] None []) ec_ok 7 5000.
Proof. apply (pool_timeouts_fixed fst 2 1 kInfiniteDuration filled_net filled_net_reachable). Defined.

Lemma connector_outlives_callers_witness : (0 < s_adders (n_pool (calling_net CWait)))%nat.
Proof.
  apply (connector_outlives_callers fst 2 1 kInfiniteDuration (calling_net CWait)) with (i := 0%nat) (cl := CWait).
  - lia.
  - lia.
  - exact calling_net_reachable.
  - reflexivity.
  - intros [].
Defined.

Lemma pool_destructor_completes_witness : ∃ n : pair_net,
  rtc pair_step (mk_net (mk_system (pool_dtor (pair_pool [])) (WRefill 0 1 false) 1 [] [] [] [] 0)
    (pair_conn {[0%nat := CWait]}) [0%nat]) n ∧ destroyed n.
Proof.
  apply (pool_destructor_completes (Ep := nat) fst 2 1 kInfiniteDuration).
  - exact pair_fresh_session.
  - lia.
  - lia.
  - eapply reach_step; [exact calling_net_reachable|]. apply net_pool; [apply step_stop|done].
  - reflexivity.
Defined.
