(* ===== verification/PoolLiveness.v ===== *)
(** * The pool's threads make progress

    The threads of a pool and its connector as roles of the system PoolConnector, each
    scheduled fairly: then the watcher completes one round after another while the pool
    lives, and once [~base_connection_pool()] has cleared the flag, the watcher is joined,
    the connector is destroyed and its thread is joined in every execution, whatever the
    clients do meanwhile.  A thread that needs [resolve_needed_mutex_] competes
    for it with the resolving thread; for it fairness is the strong one. *)

From S2P Require Import Prelude Fairness ErrorCode TimedBase PoolStrategy ConnectionPool PoolSystem.
From S2P Require Import Connector ConnectorSystem ConnectorLiveness PoolConnector.
Open Scope sc_scope.

(** The watcher; the adders that append; that call [new_session]; that come back from it;
    each call; the resolving thread; the destructor after the join. *)
Inductive role := Watcher | Appender | Caller | Returner | Call (i : nat) | Resolver | Destroyer.

#[export] Instance role_eq_dec : EqDecision role.
Proof. solve_decision. Defined.

(** Where the watcher is, what a refill has added aside. *)
Definition pc_at (pc : watcher_pc) : nat :=
  match pc with WLoop => 0 | WUnlocked _ => 1 | WRefill _ _ _ => 2 | WSleep => 3 | WDone => 4 end.

Section Roles.
Context {Session St Ep : Type} `{PoolSession Session, PoolStrategy St, pl : Platform}.
Variables (peer_of : Session → Ep) (max_held : nat).
Implicit Types (n : net Session St Ep) (p : system Session St) (c : conn_system Ep).

(** The steps a role takes, told by what they change. *)
Definition moves (r : role) n n' : Prop :=
  net_step peer_of max_held n n' ∧
  match r with
  | Watcher => pc_at (s_pc (n_pool n')) ≠ pc_at (s_pc (n_pool n))
  | Appender => (length (s_ready (n_pool n')) < length (s_ready (n_pool n)))%nat
  | Caller => (length (n_calls n) < length (n_calls n'))%nat
  | Returner => (length (n_calls n') < length (n_calls n))%nat
  | Call i => is_Some (cn_clients (n_conn n) !! i) ∧ cn_clients (n_conn n') !! i ≠ cn_clients (n_conn n) !! i
  | Resolver => cn_pc (n_conn n') ≠ cn_pc (n_conn n)
  | Destroyer => resolving_thread_running_ (cn (n_conn n')) ≠ resolving_thread_running_ (cn (n_conn n))
  end.

(** A call may have to wait for a mutex again and again; no other role does. *)
Definition fair (e : nat → net Session St Ep) : Prop :=
  (∀ r, weakly_fair (moves r) e) ∧ (∀ i, strongly_fair (moves (Call i)) e).

(** Nothing of what the shutdown waits for has moved. *)
Definition unmoved n n' : Prop :=
  n_calls n' = n_calls n ∧ s_adders (n_pool n') = s_adders (n_pool n) ∧
  pc_at (s_pc (n_pool n')) = pc_at (s_pc (n_pool n)) ∧ s_ready (n_pool n') = s_ready (n_pool n) ∧
  ∀ i, i ∈ n_calls n → cn_clients (n_conn n') !! i = cn_clients (n_conn n) !! i.

Lemma fair_tail e d : fair (λ k, e (d + k)%nat) → fair e.
Proof.
  intros [Hw Hs]. split; [intros r; by eapply weakly_fair_tail|intros i; by eapply strongly_fair_tail].
Qed.

Lemma unmoved_trans n1 n2 n3 : unmoved n1 n2 → unmoved n2 n3 → unmoved n1 n3.
Proof.
  intros (A1 & A2 & A3 & A4 & A5) (B1 & B2 & B3 & B4 & B5).
  split_and!; [congruence..|]. intros i Hi. rewrite B5; [by apply A5|congruence].
Qed.

Lemma moves_moved r n n' :
  moves r n n' → match r with Call i => i ∈ n_calls n | Resolver | Destroyer => False | _ => True end →
  ¬ unmoved n n'.
Proof.
  intros [_ Hm] Hr (E1 & E2 & E3 & E4 & E5).
  destruct r; rewrite ?E1, ?E3, ?E4 in Hm; try lia; try done. by apply (proj2 Hm), E5.
Qed.

End Roles.

(** ** What a step moves *)

Lemma sum_list_with_lt {X} (f g : X → nat) (l : list X) x :
  (∀ x, x ∈ l → (f x ≤ g x)%nat) → x ∈ l → (f x < g x)%nat → (sum_list_with f l < sum_list_with g l)%nat.
Proof.
  intros Hle (l1 & l2 & ->)%list_elem_of_split Hlt. rewrite !sum_list_with_middle.
  assert ((sum_list_with f (l1 ++ l2) ≤ sum_list_with g (l1 ++ l2))%nat); [|lia].
  apply sum_list_with_le. intros y Hy. apply Hle, elem_of_middle. by right.
Qed.

Section Moved.
Context {Session St Ep : Type} `{PoolSession Session, PoolStrategy St, pl : Platform}.
Variables (peer_of : Session → Ep) (max_held : nat) (size idle_timeout : Z).
Hypothesis size_range : 0 ≤ size < 2 ^ 64 - 2.
Implicit Types (n : net Session St Ep) (p : system Session St) (c : conn_system Ep).

(** Unless a round can begin, a step of the pool brings the watcher closer to the end of its
    round, or it is another thread's. *)
Lemma step_moves p p' :
  population size idle_timeout max_held p → winding p → step max_held p p' →
  (watcher_work p' < watcher_work p)%nat ∨
  (s_adders p' = s_adders p ∧ pc_at (s_pc p') = pc_at (s_pc p) ∧ s_ready p' = s_ready p).
Proof.
  intros (_ & _ & Hai & _ & Hv & _) Hstop Hst. unfold winding, stopped, watcher_work, adders_idle in *.
  destruct Hst; simpl in *; rewrite ?length_app; simpl; try (by right); try (left; lia); try (destruct Hstop; congruence).
  - left. pose proof (refill_attempts_bound t v (reconnection_ p)). specialize (Hv v eq_refl).
    destruct Hai as [-> ->]. simpl. lia.
  - left. destruct (refill_settle _ _ _ _ _ _) as [st' []]; simpl; lia.
Qed.

(** A step of the connector moves one of these calls on, or none. *)
Lemma conn_step_moves c c' (calls : list nat) :
  conn_step c c' → (∀ i, i ∈ calls → is_Some (cn_clients c !! i)) →
  (calls_work c' calls < calls_work c calls)%nat ∨
  (calls_work c' calls = calls_work c calls ∧ ∀ i, i ∈ calls → cn_clients c' !! i = cn_clients c !! i).
Proof.
  intros Hst Hin.
  assert (Hle : ∀ i, i ∈ calls → (call_work (cn_clients c' !! i) ≤ call_work (cn_clients c !! i))%nat).
  { intros i Hi. destruct (Hin i Hi) as [cl Hcl]. rewrite Hcl.
    by destruct (conn_step_call _ _ _ _ Hst Hcl) as (cl' & -> & ?). }
  assert (Hdec : (∃ i, i ∈ calls ∧ (call_work (cn_clients c' !! i) < call_work (cn_clients c !! i))%nat) ∨
    ∀ i, i ∈ calls → cn_clients c' !! i = cn_clients c !! i).
  { clear Hle. induction calls as [|i calls IH]; [right; by intros i ?%not_elem_of_nil|].
    destruct (Hin i (list_elem_of_here _ _)) as [cl Hcl].
    destruct (conn_step_call_forward _ _ _ _ Hst Hcl) as (cl' & Hcl' & [->|Hlt]).
    - destruct IH as [(j & Hj & Hlt)|IH]; [intros j Hj; apply Hin; by right|left; exists j; split; [by right|done]|].
      right. intros j [->|Hj]%elem_of_cons; [congruence|by apply IH].
    - left. exists i. split; [by left|]. by rewrite Hcl, Hcl'. }
  destruct Hdec as [(i & Hi & Hlt)|Hsame]; [left; by eapply sum_list_with_lt|right].
  split; [|done]. apply sum_list_with_eq. intros i Hi. by rewrite Hsame.
Qed.

(** A step of the whole does the watcher's work or moves nothing of it. *)
Lemma net_step_moves n n' :
  net_ok max_held size idle_timeout n → winding (n_pool n) → net_step peer_of max_held n n' →
  (net_work n' < net_work n)%nat ∨ unmoved n n'.
Proof.
  intros (Hpop & (Hnd & Hlen & Hin & Hret) & _) Hstop Hs.
  assert (Hret1 : ∀ p' c calls1 i calls2 r ec, n_calls n = calls1 ++ i :: calls2 → n_conn n = c →
    cn_clients c !! i = Some (CReturned r ec) → step max_held (n_pool n) p' →
    s_adders (n_pool n) = Datatypes.S (s_adders p') →
    (net_work (mk_net p' c (calls1 ++ calls2)) < net_work n)%nat).
  { intros p' c calls1 i calls2 r ec Ecalls Ec Hi Hst Had.
    destruct (step_adder_returns max_held size idle_timeout _ _ Hpop Hst Had) as [(t0 & v & b & E1 & E2) Hle].
    unfold net_work, pending_adders, calls_work. cbn [n_pool n_conn n_calls]. rewrite E1, E2, Ecalls, Ec.
    rewrite sum_list_with_middle, Hi. rewrite Ecalls in Hlen. rewrite !length_app in *. simpl in *. lia. }
  destruct Hs as [p p' c calls Hst Had|p c c' calls Hst Hdom Hrun
    |p c c' calls i Hlt Hst Hi Hc'|p p' c calls1 i calls2 peer ec s Hi Hpeer Hst Hcr
    |p p' c calls1 i calls2 ec Hi Hst Had Hcr|]; cbn [n_pool n_conn n_calls] in *.
  - destruct (watcher_work_step size idle_timeout max_held p p') as (Hle & Hpe); [lia|done..|].
    destruct (step_moves p p' Hpop Hstop Hst) as [Hlt|(E1 & E2 & E3)]; [left|by right].
    unfold net_work. simpl. lia.
  - destruct (conn_step_moves c c' calls Hst Hin) as [Hlt|[_ Hsame]]; [left|by right].
    unfold net_work. simpl. lia.
  - left. pose proof (calls_work_conn c c' calls Hst Hin) as Hc. unfold net_work. cbn [n_pool n_conn n_calls].
    assert (calls_work c' (i :: calls) = (5 + calls_work c' calls)%nat) as ->.
    { unfold calls_work. cbn [sum_list_with]. by rewrite Hc', lookup_insert_eq. }
    pose proof (pending_adders_ge max_held size idle_timeout _ Hpop). cbn [length]. lia.
  - left. eapply Hret1; [done..|]. by eapply step_creates_adder.
  - left. by eapply Hret1.
  - right. by split_and!.
Qed.

End Moved.

(** ** A round of the watcher *)

Section Rounds.
Context {Session St Ep : Type} `{PoolSession Session, PoolStrategy St, pl : Platform}.
Implicit Types (p : system Session St) (e : nat → net Session St Ep).

(** Between the critical section that found [v] vacant places and the end of the refill. *)
Definition in_round (v : Z) p : Prop := s_pc p = WUnlocked v ∨ ∃ t0 b, s_pc p = WRefill t0 v b.

Definition round_over p : Prop := s_pc p = WLoop ∨ s_pc p = WSleep.

(** The execution goes through the rest of a round from [m], where the watcher has left its
    critical section with [v] vacant places, to [m'], where it is at the head of its loop
    again or asleep. *)
Definition watcher_round e (m m' : nat) (v : Z) : Prop :=
  (m < m')%nat ∧ s_pc (n_pool (e m)) = WUnlocked v ∧
  (∀ i, (m ≤ i < m')%nat → in_round v (n_pool (e i))) ∧ round_over (n_pool (e m')).

(** In between the refill is entered and starts the adders that the strategy attempts. *)
Definition refill_starts e (m m' : nat) (v : Z) : Prop :=
  ∃ i t0, (m < i < m')%nat ∧ s_clock (n_pool (e m)) ≤ t0 ∧ s_pc (n_pool (e i)) = WRefill t0 v false ∧
    s_adders (n_pool (e i)) = Z.to_nat (refill_attempts t0 v (reconnection_ (s_pool (n_pool (e m))))).

Lemma in_round_step max_held v p p' : in_round v p → step max_held p p' → in_round v p' ∨ round_over p'.
Proof.
  unfold in_round, round_over.
  intros [E|(t0 & b & E)] Hs; destruct Hs; simpl in *; simplify_eq; try (by left; left); try (by left; right; eauto);
    try (by right; right).
  destruct (refill_settle _ _ _ _ _ _) as [st' []]; simpl; auto.
Qed.

(** A pool that waits to refill only waits, or refills. *)
Lemma unlocked_step max_held v (st : St) t p p' :
  0 < v → s_pc p = WUnlocked v ∧ reconnection_ (s_pool p) = st ∧ t ≤ s_clock p → step max_held p p' →
  (s_pc p' = WUnlocked v ∧ reconnection_ (s_pool p') = st ∧ t ≤ s_clock p') ∨
  ∃ t0, t ≤ t0 ∧ s_pc p' = WRefill t0 v false ∧ s_adders p' = Z.to_nat (refill_attempts t0 v st).
Proof.
  intros Hv (E & Est & Ht) Hs. destruct Hs; simpl in *; simplify_eq; try lia;
    try (left; split_and!; (done || lia)). right. by eexists.
Qed.

Lemma net_pool_step (peer_of : Session → Ep) max_held (n n' : net Session St Ep) :
  net_step peer_of max_held n n' → n_pool n' = n_pool n ∨ step max_held (n_pool n) (n_pool n').
Proof. intros Hs. destruct Hs; simpl; auto. Qed.

End Rounds.

(** ** Which role can go on *)

Section Enabled.
Context {Session St Ep : Type} `{PoolSession Session, PoolStrategy St, pl : Platform}.
Variables (peer_of : Session → Ep) (max_held : nat) (size idle_timeout : Z).
(** There is always another session to an endpoint. *)
Hypothesis fresh_session : ∀ (l : list Session) peer, ∃ s, (s ∉ l) ∧ peer_of s = peer.
Hypothesis size_range : 0 ≤ size < 2 ^ 64 - 2.
Implicit Types (n : net Session St Ep) (p : system Session St) (c : conn_system Ep).

Abbreviation can r n := (enabled (moves peer_of max_held r) n).

Lemma watcher_enabled p c calls :
  population size idle_timeout max_held p → s_pc p ≠ WDone →
  s_adders p = 0%nat → s_ready p = [] → can Watcher (mk_net p c calls).
Proof.
  intros (_ & _ & _ & _ & Hv & _) Hpc Hn Hrd.
  assert (Hgo : ∀ p', step max_held p p' → pc_at (s_pc p') ≠ pc_at (s_pc p) → can Watcher (mk_net p c calls)).
  { intros p' Hst Hne. exists (mk_net p' c calls). split; [|exact Hne]. apply net_pool; [done|lia]. }
  destruct p as [p pc n rd hd gn cr t]. simpl in *. subst n rd. destruct pc as [|v|t0 v b| |]; [| | | |done].
  - destruct (watch_pool_ p) eqn:Hw; [eapply Hgo; [by apply step_evict|done]|eapply Hgo; [by apply step_exit|done]].
  - specialize (Hv v eq_refl). destruct (decide (v = 0)) as [->|].
    + eapply Hgo; [by apply step_full|done].
    + eapply Hgo; [apply step_refill; lia|done].
  - eapply Hgo; [by apply step_join with (r := 0)|]. simpl. by destruct (refill_settle _ _ _ _ _ _) as [st' []].
  - eapply Hgo; [by apply step_wake|done].
Qed.

Lemma appender_enabled p c calls :
  population size idle_timeout max_held p → s_ready p ≠ [] → can Appender (mk_net p c calls).
Proof.
  intros (_ & _ & Hai & _) Hrd. unfold adders_idle in Hai.
  destruct p as [p pc n rd hd gn cr t]. simpl in *. destruct pc as [|v|t0 v b| |]; try (by destruct Hai).
  destruct rd as [|s rd]; [done|].
  exists (mk_net (mk_system p (WRefill t0 v true) n rd hd (s :: gn) cr t) c calls). split; [|simpl; lia].
  apply net_pool; [|done]. apply (step_append_drop _ _ _ _ _ _ [] s rd) with (lock := t + 1000001).
  unfold return_session. destruct (session_is_open s); simpl; [|done].
  rewrite (proj2 (Z.leb_gt _ _)) by lia. done.
Qed.

Lemma caller_enabled p c calls : (length calls < s_adders p)%nat → can Caller (mk_net p c calls).
Proof.
  intros Hlt. destruct c as [c pc clm pub rq bg sv]. set (i := fresh (dom clm)).
  assert (Hi : clm !! i = None) by (apply not_elem_of_dom, is_fresh).
  eexists. split; [eapply (net_call _ _ p _ _ calls i); [done|by apply (cst_call _ _ _ _ _ _ _ i)|done|done]|].
  simpl. lia.
Qed.

Lemma returner_enabled p c calls i cl :
  population size idle_timeout max_held p → (length calls ≤ s_adders p)%nat → i ∈ calls →
  cn_clients c !! i = Some cl → call_returned cl → can Returner (mk_net p c calls).
Proof.
  intros (_ & _ & Hai & _) Hlen (calls1 & calls2 & ->)%list_elem_of_split Hi Hcr.
  unfold adders_idle in Hai. rewrite length_app in Hlen. simpl in Hlen.
  destruct p as [p pc [|k] rd hd gn cr t]; simpl in *; [lia|].
  destruct pc as [| |t0 v b| |]; try by destruct Hai. destruct cl as [| | | |[peer|] ec]; try done.
  - destruct (fresh_session cr peer) as (s & Hs & Hp). eexists. split.
    { apply (net_connected _ _ _ (mk_system p (WRefill t0 v b) k (s :: rd) hd gn (s :: cr) t) c calls1 i calls2 peer ec s);
        [done..|by apply step_connect|done]. }
    simpl. rewrite !length_app. simpl. lia.
  - eexists. split.
    { apply (net_failed _ _ _ (mk_system p (WRefill t0 v b) k rd hd gn cr t) c calls1 i calls2 ec);
        [done|by apply step_connect_fail|done..]. }
    simpl. rewrite !length_app. simpl. lia.
Qed.

(** A call that has not returned can go on, unless it waits for the mutex. *)
Lemma call_enabled p c calls i cl :
  cn_clients c !! i = Some cl → ¬ call_returned cl →
  (∀ ec, cl = CNotify ec → holds_needed (cn_pc c) = false) → can (Call i) (mk_net p c calls).
Proof.
  intros Hi Hret Hfree.
  destruct (call_can c i cl Hi Hret Hfree) as (c' & cl' & Hst & Hc' & Hne & Hrun).
  exists (mk_net p c' calls). split; [by eapply net_conn_insert; eauto|].
  simpl. rewrite Hc', lookup_insert_eq, Hi. split; [done|congruence].
Qed.

(** What the resolving thread can do in its connector, it can do in the whole. *)
Lemma resolver_enabled n : enabled resolver_moves (n_conn n) → can Resolver n.
Proof.
  destruct n as [p c calls]. intros (c' & Hm). destruct (resolver_moves_keeps _ _ Hm) as [Hcl Hrun], Hm as [Hst Hne].
  exists (mk_net p c' calls). split; [|exact Hne]. apply net_conn; [done| |done]. by rewrite Hcl.
Qed.

End Enabled.

(** ** Fair executions *)

Section Executions.
Context {Session St Ep : Type} `{PoolSession Session, PoolStrategy St, pl : Platform}.
Variables (peer_of : Session → Ep) (max_held : nat) (size idle_timeout : Z).
Hypothesis fresh_session : ∀ (l : list Session) peer, ∃ s, (s ∉ l) ∧ peer_of s = peer.
Hypothesis size_range : 0 ≤ size < 2 ^ 64 - 2.
Hypothesis held_range : size + Z.of_nat max_held < 2 ^ 64.
Variable e : nat → net Session St Ep.
Hypothesis e_execution : execution (net_step peer_of max_held) e.
Hypothesis e_reachable : reachable (net_initial size idle_timeout) (net_step peer_of max_held) (e 0%nat).
Hypothesis e_fair : fair peer_of max_held e.
Implicit Types (n : net Session St Ep).

Abbreviation nstep := (net_step peer_of max_held).

Lemma e_ok k : net_ok max_held size idle_timeout (e k).
Proof. eapply net_reachable_ok; [done..|]. by eapply execution_reachable. Qed.

(** The connector's part of the execution is one of the connector alone, and fair. *)
Lemma e_conn_execution : execution conn_step (λ k, n_conn (e k)).
Proof.
  intros k. destruct (e_execution k) as [->|Hs]; [by left|].
  destruct Hs as [| | | | |p c calls]; simpl; try (by left); try (by right). right. destruct c. apply cst_stop.
Qed.

Lemma e_conn_resolver : weakly_fair resolver_moves (λ k, n_conn (e k)).
Proof.
  intros k Hen. destruct (proj1 e_fair Resolver k) as (m & Hm & Hs & Hne).
  { intros m Hm. by apply resolver_enabled, Hen. }
  exists m. split; [done|]. split; [|exact Hne]. destruct (e_conn_execution m) as [E|?]; [|done].
  by rewrite E in Hne.
Qed.

(** From [k] on no round begins, the watcher is not done, and its work stays the same. *)
Definition stuck_from (k : nat) : Prop :=
  ∀ m, (k ≤ m)%nat → winding (n_pool (e m)) ∧ net_work (e m) = net_work (e k) ∧ s_pc (n_pool (e m)) ≠ WDone.

Lemma stuck_unmoved k m : stuck_from k → (k ≤ m)%nat → unmoved (e k) (e m).
Proof.
  intros Hconst Hle. induction Hle as [|m Hle IH]; [by split_and!|].
  destruct (e_execution m) as [->|Hs]; [done|]. destruct (Hconst m Hle) as (Hw & E1 & _).
  destruct (net_step_moves peer_of max_held size idle_timeout size_range _ _ (e_ok m) Hw Hs) as [Hlt|Hu].
  - destruct (Hconst (Datatypes.S m)) as (_ & E2 & _); lia.
  - by eapply unmoved_trans.
Qed.

(** No role whose steps are the shutdown's work takes one then. *)
Lemma stuck_no_move k m r :
  stuck_from k → (k ≤ m)%nat →
  match r with Call i => i ∈ n_calls (e k) | Resolver | Destroyer => False | _ => True end →
  ¬ moves peer_of max_held r (e m) (e (Datatypes.S m)).
Proof.
  intros Hk Hm Hr Hmv.
  pose proof (stuck_unmoved k m Hk Hm) as Hu. pose proof (stuck_unmoved k (Datatypes.S m) Hk ltac:(lia)) as Hu'.
  apply (moves_moved peer_of max_held r _ _ Hmv).
  - destruct r; try done. destruct Hu as (-> & _). done.
  - destruct Hu as (A1 & A2 & A3 & A4 & A5), Hu' as (B1 & B2 & B3 & B4 & B5).
    split_and!; [congruence..|]. intros i Hi. rewrite A1 in Hi. by rewrite B5, A5.
Qed.

Lemma stuck_role k r :
  stuck_from k → match r with Call i => i ∈ n_calls (e k) | Resolver | Destroyer => False | _ => True end →
  ¬ ∀ m, (k ≤ m)%nat → enabled (moves peer_of max_held r) (e m).
Proof.
  intros Hk Hr Hen. destruct (proj1 e_fair r k Hen) as (m & Hm & Hmv). by apply (stuck_no_move k m r).
Qed.

(** A call the watcher waits for returns. *)
Lemma stuck_call_returned k i cl :
  stuck_from k → i ∈ n_calls (e k) → cn_clients (n_conn (e k)) !! i = Some cl → call_returned cl.
Proof.
  intros Hk Hi Hcl. destruct (decide (call_returned cl)) as [|Hnr]; [done|exfalso].
  assert (Hcl' : ∀ m, (k ≤ m)%nat → cn_clients (n_conn (e m)) !! i = Some cl).
  { intros m Hm. by destruct (stuck_unmoved k m Hk Hm) as (_ & _ & _ & _ & ->). }
  destruct (proj2 e_fair i k) as (m & Hm & Hmv); [|by apply (stuck_no_move k m (Call i))].
  intros j Hj. destruct (resolve_mutex_freed _ e_conn_execution e_conn_resolver j) as (m & Hm & Hfree). exists m. split; [done|].
  specialize (Hcl' m ltac:(lia)). destruct (e m) as [p c calls]. by eapply call_enabled.
Qed.

(** Nowhere short of the end of a round can the watcher's work stay undone for ever. *)
Lemma watcher_never_stuck k : ¬ stuck_from k.
Proof.
  intros Hk. pose proof (e_ok k) as (Hpop & (Hnd & Hlen & Hin & Hret) & _).
  assert (Hsame : ∀ m, (k ≤ m)%nat → population size idle_timeout max_held (n_pool (e m)) ∧
    s_pc (n_pool (e m)) ≠ WDone ∧ unmoved (e k) (e m)).
  { intros m Hm. split_and!; [apply e_ok|by apply Hk|by apply stuck_unmoved]. }
  destruct (s_ready (n_pool (e k))) as [|s rd] eqn:Hrd.
  2:{ apply (stuck_role k Appender Hk I). intros m Hm. destruct (Hsame m Hm) as (Hp & _ & (_ & _ & _ & E & _)).
      destruct (e m) as [p c calls]. simpl in *. eapply appender_enabled; [done|]. by rewrite E, Hrd. }
  destruct (decide (length (n_calls (e k)) < s_adders (n_pool (e k)))%nat) as [Hlt|Hge].
  { apply (stuck_role k Caller Hk I). intros m Hm. destruct (Hsame m Hm) as (_ & _ & (E1 & E2 & _)).
    destruct (e m) as [p c calls]. simpl in *. apply caller_enabled. by rewrite E1, E2. }
  destruct (n_calls (e k)) as [|i calls0] eqn:Hcalls.
  - apply (stuck_role k Watcher Hk I). intros m Hm.
    destruct (Hsame m Hm) as (Hp & Hpc & (_ & E2 & _ & E4 & _)). destruct (e m) as [p c calls]. simpl in *.
    eapply watcher_enabled; [done..| |by rewrite E4]. lia.
  - assert (Hi : i ∈ n_calls (e k)) by (rewrite Hcalls; left).
    destruct (Hin i (list_elem_of_here _ _)) as [cl Hcl].
    pose proof (stuck_call_returned k i cl Hk Hi Hcl) as Hcr.
    apply (stuck_role k Returner Hk I). intros m Hm.
    destruct (Hsame m Hm) as (Hp & _ & (E1 & E2 & _ & _ & E5)). rewrite <- (E5 i Hi) in Hcl. rewrite <- E2, <- Hcalls, <- E1 in Hlen.
    rewrite <- E1 in Hi. destruct (e m) as [p c calls]. simpl in *. by eapply returner_enabled.
Qed.

(** Whatever the watcher is doing it comes to the end of its round. *)
Lemma round_ends k : ∃ m, (k ≤ m)%nat ∧ (s_pc (n_pool (e m)) = WLoop ∨ s_pc (n_pool (e m)) = WDone).
Proof.
  destruct (fair_descent nstep e (λ n, reachable (net_initial size idle_timeout) nstep n)
    (λ n, s_pc (n_pool n) = WLoop ∨ s_pc (n_pool n) = WDone) net_work k) as (m & Hm & Hj); [done| | | |by exists m].
  - intros n n' Hr Hnt Hst. split; [by eapply reach_step|].
    eapply net_work_step; [done|by eapply net_reachable_ok|right; tauto|done].
  - by eapply execution_reachable.
  - intros j Hconst. apply (watcher_never_stuck j). intros m Hm. destruct (Hconst m Hm) as (_ & E & Hnt).
    split_and!; [right; tauto|done|tauto].
Qed.

(** The watcher is done only after the flag was cleared. *)
Lemma done_stopped n :
  reachable (net_initial size idle_timeout) nstep n → s_pc (n_pool n) = WDone → stopped (n_pool n).
Proof.
  intros [Hp _]%net_projections. induction Hp as [p (st & ct & t & _ & ->)|p p' _ IH Hst]; [done|].
  destruct Hst; simpl in *; try done. by destruct (refill_settle _ _ _ _ _ _) as [st' []].
Qed.

(** The watcher has just left its critical section: no session is left that has been idle
    for too long, and the vacant places are those of the list. *)
Definition just_evicted n : Prop :=
  let p := n_pool n in
  ∃ v, s_pc p = WUnlocked v ∧ Forall (λ x, s_clock p -i x.1 < idle_timeout) (sesson_pool_ (s_pool p)) ∧
    v = vacant_places size (Z.of_nat (length (sesson_pool_ (s_pool p)))).

Lemma evict_just_evicted n n' :
  net_ok max_held size idle_timeout n → s_pc (n_pool n) = WLoop → nstep n n' → watch_pool_ (s_pool (n_pool n')) = true →
  s_pc (n_pool n') = WLoop ∨ just_evicted n'.
Proof.
  intros ((Es & Ei & _ & _ & _ & Hb) & _) Hpc Hs Hw.
  assert (Hpool : ∀ p', step max_held (n_pool n) p' → watch_pool_ (s_pool p') = true →
    s_pc p' = WLoop ∨ ∀ c calls, just_evicted (mk_net p' c calls)).
  { intros p' Hst Hw'. destruct Hst; simpl in *; try done; try (by left); try congruence. right. intros c calls.
    unfold pooled, promised in Hb. cbn [s_pc s_pool] in Hb. rewrite length_map in Hb. eexists. split; [done|]. cbn [s_clock s_pool n_pool sesson_pool_ set_sessions].
    pose proof (length_filter (λ x : Z * Session, ¬ idle_timeout_ p ≤ t -i x.1) (sesson_pool_ p)).
    rewrite evict_loop_spec by lia. cbn [fst snd]. rewrite Z.add_0_l, Ei, Es. split; [|done].
    apply list.Forall_forall. intros x [Hx _]%list_elem_of_filter. by apply Z.nle_gt in Hx. }
  destruct Hs as [p p' c calls Hst Had|p c c' calls Hst Hdom Hrun|p c c' calls i Hlt
    |p p' c calls1 i calls2 peer ec s Hi Hpeer Hst|p p' c calls1 i calls2 ec Hi Hst|]; simpl in *; try (by left);
    destruct (Hpool p' Hst Hw) as [?|He]; eauto.
Qed.

(** While the pool lives its watcher begins one round after another. *)
Lemma round_begins k :
  (∀ m, watch_pool_ (s_pool (n_pool (e m))) = true) → ∃ m, (k ≤ m)%nat ∧ just_evicted (e m).
Proof.
  intros Hw. destruct (round_ends k) as (j & Hj & [Hpc|Hpc]).
  2:{ assert (Hs : stopped (n_pool (e j))) by (eapply done_stopped; [by eapply execution_reachable|done]).
      unfold stopped in Hs. by rewrite Hw in Hs. }
  destruct (fair_leads_to_at nstep e (λ n, s_pc (n_pool n) = WLoop) just_evicted (moves peer_of max_held Watcher) j)
    as (m & Hm & He); [done|apply e_fair| | | |done|exists m; split; [lia|done]].
  - intros m _ Hpm Hs. by eapply evict_just_evicted; [apply e_ok|..].
  - intros m _ Hpm. destruct (e_ok m) as (Hp & _ & _). pose proof Hp as (_ & _ & Hai & _).
    unfold adders_idle in Hai. rewrite Hpm in Hai. destruct (e m) as [p c calls]. simpl in *.
    eapply watcher_enabled; [done|congruence|apply Hai|apply Hai].
  - intros m _ Hpm [Hs Hmv]. rewrite Hpm in Hmv.
    destruct (evict_just_evicted _ _ (e_ok m) Hpm Hs (Hw _)) as [E|?]; [by rewrite E in Hmv|done].
Qed.

(** A round that has begun ends, and the refill of its vacant places begins in it. *)
Lemma round_complete m v :
  s_pc (n_pool (e m)) = WUnlocked v →
  ∃ m', watcher_round e m m' v ∧ (0 < v → refill_starts e m m' v).
Proof.
  intros Hpc. destruct (round_ends m) as (j & Hj & Hend).
  destruct (execution_until nstep e (λ n, in_round v (n_pool n)) (λ n, round_over (n_pool n)) m j)
    as (m' & Hm' & Hover & Hin); [done|done| |by left| |].
  { intros i _ Hr Hs. destruct (net_pool_step _ _ _ _ Hs) as [->|Hst]; [by left|]. by eapply in_round_step. }
  { intros [E|(t0 & b & E)]; rewrite E in Hend; by destruct Hend. }
  exists m'. split; [by split_and!; [lia|..]|]. intros Hv.
  set (st := reconnection_ (s_pool (n_pool (e m)))). set (t := s_clock (n_pool (e m))).
  destruct (execution_until nstep e
    (λ n, s_pc (n_pool n) = WUnlocked v ∧ reconnection_ (s_pool (n_pool n)) = st ∧ t ≤ s_clock (n_pool n))
    (λ n, ∃ t0, t ≤ t0 ∧ s_pc (n_pool n) = WRefill t0 v false ∧
       s_adders (n_pool n) = Z.to_nat (refill_attempts t0 v st)) m m')
    as (i & Hi & (t0 & Ht & Hpci & Had) & _); [done|lia| |by split_and!| |].
  { intros i _ Hr Hs. destruct (net_pool_step _ _ _ _ Hs) as [->|Hst]; [by left|]. by eapply unlocked_step. }
  { intros [E _]. unfold round_over in Hover. rewrite E in Hover. by destruct Hover. }
  exists i, t0. split_and!; try done; [lia|]. destruct (decide (i = m')) as [->|]; [|lia].
  unfold round_over in Hover. rewrite Hpci in Hover. by destruct Hover.
Qed.

(** What holds once the watcher is done, and once the connector is being destroyed. *)
Definition joined n : Prop := stopped (n_pool n) ∧ s_pc (n_pool n) = WDone.

Definition closing n : Prop := joined n ∧ resolving_thread_running_ (cn (n_conn n)) = false.

Lemma joined_step n n' : joined n → nstep n n' → joined n'.
Proof. intros [H1 H2] Hs. destruct Hs; simpl in *; try done; by eapply watcher_done_stays. Qed.

Lemma closing_step n n' :
  closing n → nstep n n' →
  closing n' ∧ (resolver_work (cn_pc (n_conn n')) ≤ resolver_work (cn_pc (n_conn n)))%nat.
Proof.
  intros [Hj Hf] Hs. pose proof (joined_step _ _ Hj Hs) as Hj'.
  assert (Hc : n_conn n' = n_conn n ∨ conn_step (n_conn n) (n_conn n')).
  { destruct Hs as [| | | | |p c calls]; simpl in *; auto. right. destruct c. apply cst_stop. }
  destruct Hc as [E|Hc]; [unfold closing; by rewrite E|].
  by destruct (resolver_work_step _ _ Hf Hc).
Qed.

(** The resolving thread of a connector being destroyed only moves towards its end. *)
Lemma closing_moves n n' :
  closing n → moves peer_of max_held Resolver n n' →
  (resolver_work (cn_pc (n_conn n')) < resolver_work (cn_pc (n_conn n)))%nat.
Proof.
  intros [_ Hf] [Hs Hm].
  assert (Hc : conn_step (n_conn n) (n_conn n')) by (destruct Hs; simpl in *; done).
  destruct Hc; simpl in *; try done; try lia. congruence.
Qed.

Lemma watcher_joined k : stopped (n_pool (e k)) → ∃ m, (k ≤ m)%nat ∧ joined (e m).
Proof.
  intros Hstop. destruct (fair_descent nstep e (λ n, reachable (net_initial size idle_timeout) nstep n ∧ stopped (n_pool n))
    joined net_work k) as (m & Hm & Hj); [done| | | |by exists m].
  - intros n n' [Hr Hs] _ Hst. split; [split; [by eapply reach_step|by eapply net_stopped_step]|].
    eapply net_work_step; [done|by eapply net_reachable_ok|by left|done].
  - split; [by eapply execution_reachable|done].
  - intros j Hconst. apply (watcher_never_stuck j). intros m Hm. destruct (Hconst m Hm) as ([_ Hs] & E & Hnj).
    split_and!; [by left|done|]. intros Hd. by apply Hnj.
Qed.

Lemma connector_closing k : joined (e k) → ∃ m, (k ≤ m)%nat ∧ closing (e m).
Proof.
  intros Hj. destruct (resolving_thread_running_ (cn (n_conn (e k)))) eqn:Hrun; [|by exists k].
  apply (fair_leads_to nstep e (λ n, joined n ∧ resolving_thread_running_ (cn (n_conn n)) = true) closing
    (moves peer_of max_held Destroyer)); [done|apply e_fair| | | |done].
  - intros n n' [Hj' Hr] Hs. pose proof (joined_step _ _ Hj' Hs).
    destruct (resolving_thread_running_ (cn (n_conn n'))) eqn:E; [by left|by right].
  - intros [p c calls] [[Hs Hd] Hr]. eexists. split; [by apply net_destroy|]. simpl in *. by rewrite Hr.
  - intros n n' [Hj' Hr] [Hs Hm]. split; [by eapply joined_step|]. rewrite Hr in Hm. by apply not_true_is_false.
Qed.

Lemma closing_destroyed k : closing (e k) → ∃ m, (k ≤ m)%nat ∧ destroyed (e m).
Proof.
  intros Hc. destruct (fair_descent nstep e closing destroyed (λ n, resolver_work (cn_pc (n_conn n))) k)
    as (m & Hm & Hd); [done|intros n n' Hn _; by apply closing_step|done| |by exists m].
  intros j Hconst. assert (Hw : weakly_fair (moves peer_of max_held Resolver) e) by apply e_fair.
  destruct (Hw j) as (m & Hm & Hmv).
  - intros m Hm. destruct (Hconst m Hm) as ([[Hs Hd] Hf] & _ & Hnd).
    apply resolver_enabled, resolver_can; [intros Hr; by apply Hnd|by left].
  - destruct (Hconst m Hm) as (Hcl & E1 & _), (Hconst (Datatypes.S m)) as (_ & E2 & _); [lia|].
    pose proof (closing_moves _ _ Hcl Hmv). lia.
Qed.

Lemma destroyed_stays k m : closing (e k) → destroyed (e k) → (k ≤ m)%nat → destroyed (e m).
Proof.
  intros Hc Hd Hm. apply (execution_keeps nstep e (λ n, closing n ∧ destroyed n) k); [done| |done|done].
  intros n n' [Hc' [Hd1 Hd2]] Hs. destruct (closing_step _ _ Hc' Hs) as [Hc'' Hle]. split; [done|]. split; [apply Hc''|].
  rewrite Hd2 in Hle. simpl in Hle. by destruct (cn_pc (n_conn n')); simpl in Hle; try lia.
Qed.

End Executions.

(** ** Properties *)

Section Claims.
Context {Session St Ep : Type} `{PoolSession Session, PoolStrategy St, pl : Platform}.
Variables (peer_of : Session → Ep) (max_held : nat) (size idle_timeout : Z).

(** C4: the destructor of the pool terminates.  In every execution in which each thread is
    scheduled fairly, whatever the clients do, and wherever the watcher, the adders, their
    calls and the resolving thread are when the flag is cleared, a time comes from which the
    watcher and the resolving thread have ended for good: both joins return. *)
Theorem pool_destructor_terminates (e : nat → net Session St Ep) k :
  (∀ (l : list Session) peer, ∃ s, (s ∉ l) ∧ peer_of s = peer) →
  0 ≤ size < 2 ^ 64 - 2 → size + Z.of_nat max_held < 2 ^ 64 →
  execution (net_step peer_of max_held) e →
  reachable (net_initial size idle_timeout) (net_step peer_of max_held) (e 0%nat) →
  fair peer_of max_held e → stopped (n_pool (e k)) →
  ∃ m, (k ≤ m)%nat ∧ ∀ j, (m ≤ j)%nat → destroyed (e j).
Proof.
  intros Hfresh Hs Hh He Hr Hf Hstop.
  destruct (watcher_joined peer_of max_held size idle_timeout Hfresh Hs Hh e He Hr Hf k Hstop) as (k1 & Hk1 & Hj).
  destruct (connector_closing peer_of max_held e He Hf k1 Hj) as (k2 & Hk2 & Hc).
  destruct (closing_destroyed peer_of max_held e He Hf k2 Hc) as (k3 & Hk3 & Hd).
  exists k3. split; [lia|]. intros j Hj'. apply (destroyed_stays peer_of max_held e He k3 j); [|done..].
  apply (execution_keeps (net_step peer_of max_held) e closing k2); [done| |done|done].
  intros n n' Hn Hst. by apply (closing_step peer_of max_held n n').
Qed.

(** C5: the pool is looked after as long as it lives.  In every execution in which each
    thread is scheduled fairly, whatever the clients do and however many connections fail,
    the watcher completes one round after another: after any time it leaves its critical
    section with no session in the list that has been idle for [idle_timeout] and the
    number of vacant places; when there are any, it enters a refill that starts as many
    adders as the strategy attempts for them; and the refill ends, so that the watcher comes
    back to the head of its loop or sleeps, with nothing else in between. *)
Theorem pool_watched_forever (e : nat → net Session St Ep) k :
  (∀ (l : list Session) peer, ∃ s, (s ∉ l) ∧ peer_of s = peer) →
  0 ≤ size < 2 ^ 64 - 2 → size + Z.of_nat max_held < 2 ^ 64 →
  execution (net_step peer_of max_held) e →
  reachable (net_initial size idle_timeout) (net_step peer_of max_held) (e 0%nat) →
  fair peer_of max_held e → (∀ m, watch_pool_ (s_pool (n_pool (e m))) = true) →
  ∃ m m' v, (k ≤ m)%nat ∧ watcher_round e m m' v ∧
    Forall (λ x, s_clock (n_pool (e m)) -i x.1 < idle_timeout) (sesson_pool_ (s_pool (n_pool (e m)))) ∧
    v = vacant_places size (Z.of_nat (length (sesson_pool_ (s_pool (n_pool (e m)))))) ∧
    (0 < v → refill_starts e m m' v).
Proof.
  intros Hfresh Hs Hh He Hr Hf Hw.
  destruct (round_begins peer_of max_held size idle_timeout Hfresh Hs Hh e He Hr Hf k Hw) as (m & Hm & v & Hpc & Hall & Hv).
  destruct (round_complete peer_of max_held size idle_timeout Hfresh Hs Hh e He Hr Hf m v Hpc) as (m' & Hround & Hrefill).
  exists m, m', v. by split_and!.
Qed.

End Claims.

(** ** Witnesses *)

(** The pool is destroyed before its first refill. *)
Definition closing_pool (pc : watcher_pc) : system (nat * nat) greedy_strategy :=
  mk_system (pool_dtor (pair_pool [])) pc 0 [] [] [] [] 0.

Definition shutdown_run (k : nat) : pair_net :=
  match k with
  | 0%nat => mk_net (closing_pool WLoop) (mk_conn_system toy_conn RLoop ∅ [] 1 0 0) []
  | 1%nat => mk_net (closing_pool WDone) (mk_conn_system toy_conn RLoop ∅ [] 1 0 0) []
  | 2%nat => mk_net (closing_pool WDone) (mk_conn_system (connector_dtor toy_conn) RLoop ∅ [] 1 0 0) []
  | _ => mk_net (closing_pool WDone) (mk_conn_system (connector_dtor toy_conn) RDone ∅ [] 1 0 0) []
  end.

Lemma shutdown_run_quiet r k : (3 ≤ k)%nat → ¬ enabled (moves (Ep := nat) fst 2 r) (shutdown_run k).
Proof.
  intros Hk. do 3 (destruct k as [|k]; [lia|]). cbn [shutdown_run]. intros [n' [Hs Hm]].
  inversion Hs as [p p' c calls Hst Had|p c c' calls Hst Hdom Hrun|p c c' calls i Hlt
    |p p' c calls1 i calls2 peer ec s Hi|p p' c calls1 i calls2 ec Hi|]; subst; simpl in *.
  - destruct r; simpl in *; try lia; try (by destruct Hm); inversion Hst; subst; simpl in *; try lia; try done.
  - destruct r as [| | | |i| |]; simpl in *; try lia; try done.
    + destruct Hm as [Hi _]. rewrite lookup_empty in Hi. by destruct Hi.
    + inversion Hst; subst; simpl in *; done.
  - lia.
  - by rewrite lookup_empty in Hi.
  - by rewrite lookup_empty in Hi.
  - destruct r; simpl in *; try lia; try done. by destruct Hm.
Qed.

Lemma pool_destructor_terminates_witness : ∃ m, destroyed (shutdown_run m).
Proof.
  destruct (pool_destructor_terminates (Ep := nat) fst 2 1 kInfiniteDuration shutdown_run 0) as (m & _ & Hd).
  - exact pair_fresh_session.
  - lia.
  - lia.
  - intros [|[|[|k]]]; [right|right|right|left; reflexivity].
    + apply net_pool; [by apply step_exit|done].
    + by apply net_destroy.
    + by apply net_conn; [apply cst_exit|..].
  - eapply reach_step; [apply reach_init|apply net_pool; [apply step_stop|done]].
    split_and!; [|by exists "localhost", "80", 5000, 5000, 5000|done..]. exists mk_greedy, 5000, 0. by split.
  - split.
    + intros r n Hen. destruct (shutdown_run_quiet r (n + 3)); [lia|]. apply Hen. lia.
    + intros i n Hen. destruct (Hen (n + 3)%nat) as (m & Hm & He); [lia|].
      by destruct (shutdown_run_quiet (Call i) m); [lia|].
  - reflexivity.
  - exists m. apply Hd. lia.
Defined.

(** The adder of the pool of size one has connected, and the watcher goes round. *)
Fixpoint watch_pc (k : nat) : watcher_pc :=
  match k with
  | 0%nat => WLoop
  | 1%nat => WUnlocked 0
  | 2%nat => WSleep
  | Datatypes.S (Datatypes.S (Datatypes.S k)) => watch_pc k
  end.

Definition watching_net (pc : watcher_pc) : pair_net :=
  mk_net (mk_system (pair_pool [(0, (8, 0)%nat)]) pc 0 [] [] [] [(8, 0)%nat] 0)
    (pair_conn {[0%nat := CReturned (Some 8%nat) ec_ok]}) [].

Definition watch_run (k : nat) : pair_net :=
  watching_net (match k with 0%nat => WRefill 0 1 true | Datatypes.S k => watch_pc k end).

Lemma watch_run_step k :
  pair_step (watch_run k) (watch_run (Datatypes.S k)) ∧
  pc_at (s_pc (n_pool (watch_run (Datatypes.S k)))) ≠ pc_at (s_pc (n_pool (watch_run k))).
Proof.
  assert (Hc : ∀ k, pair_step (watching_net (watch_pc k)) (watching_net (watch_pc (Datatypes.S k))) ∧
    pc_at (watch_pc (Datatypes.S k)) ≠ pc_at (watch_pc k)).
  { fix IH 1. intros [|[|[|j]]]; [..|apply (IH j)]; (split; [|done]); apply net_pool; try (cbn; lia).
    - exact (step_evict 2 (pair_pool [(0, (8, 0)%nat)]) 0 [] [] [] [(8, 0)%nat] 0 eq_refl).
    - apply step_full.
    - apply step_wake. }
  destruct k as [|k]; [|apply Hc]. split; [|done]. apply net_pool; [|done].
  exact (step_join 2 (pair_pool [(0, (8, 0)%nat)]) 0 1 true [] [] [(8, 0)%nat] 0 0).
Qed.

Lemma watch_run_quiet r pc : r ≠ Watcher → ¬ enabled (moves (Ep := nat) fst 2 r) (watching_net pc).
Proof.
  intros Hr [n' [Hs Hm]].
  inversion Hs as [p p' c calls Hst Had|p c c' calls Hst Hdom Hrun|p c c' calls i Hlt
    |p p' c calls1 i calls2 peer ec s Hi|p p' c calls1 i calls2 ec Hi|]; subst; simpl in *;
    try lia; try by destruct calls1.
  - destruct r; simpl in *; try lia; try done. by destruct Hm.
  - destruct r as [| | | |i| |]; simpl in *; try lia; try done.
    + destruct Hm as [[cl Hcl] Hne]. destruct (decide (i = 0%nat)) as [->|]; [|by rewrite lookup_singleton_ne in Hcl].
      apply Hne. by rewrite (conn_step_returned _ _ 0%nat (Some 8%nat) ec_ok Hst eq_refl).
    + inversion Hst; subst; simpl in *; done.
  - done.
Qed.

Lemma watch_run_fair : fair (Ep := nat) fst 2 watch_run.
Proof.
  split.
  - intros r n Hen. destruct (decide (r = Watcher)) as [->|Hr]; [exists n; split; [done|apply watch_run_step]|].
    by destruct (watch_run_quiet r (s_pc (n_pool (watch_run n))) Hr (Hen n (le_n n))).
  - intros i n Hen. destruct (Hen n) as (m & _ & He); [done|].
    by destruct (watch_run_quiet (Call i) (s_pc (n_pool (watch_run m)))).
Qed.

Lemma pool_watched_forever_witness : ∃ m m' v, watcher_round watch_run m m' v ∧ (100 ≤ m)%nat.
Proof.
  destruct (pool_watched_forever (Ep := nat) fst 2 1 kInfiniteDuration watch_run 100) as (m & m' & v & Hm & E & _).
  - exact pair_fresh_session.
  - lia.
  - lia.
  - intros k. right. apply watch_run_step.
  - exact filled_net_reachable.
  - exact watch_run_fair.
  - reflexivity.
  - exists m, m', v. split; [exact E|exact Hm].
Defined.
