(* ===== verification/PoolRefill.v ===== *)
(** * The pool is refilled

    Under fair scheduling, and while connecting and appending succeed, every round of the
    watcher puts into the pool exactly the sessions the strategy attempts; with the greedy
    strategy the pool is then full, up to the sessions the clients have taken during the
    round, and again and again there is a session to take. *)

From S2P Require Import Prelude Fairness ErrorCode TimedBase PoolStrategy ConnectionPool PoolSystem.
From S2P Require Import Connector ConnectorSystem PoolConnector PoolLiveness.
From Stdlib Require Import Classical_Prop.
Open Scope sc_scope.

Section Defs.
Context {Session St : Type} `{PoolSession Session, PoolStrategy St, pl : Platform}.
Implicit Types (p : system Session St).

(** A step of an adder that adds nothing: [new_session] throws, or [return_session] gives
    the session back, because it is not open or the mutex was busy for a millisecond. *)
Definition setback p p' : Prop :=
  ((s_adders p' < s_adders p)%nat ∧ s_created p' = s_created p) ∨
  ((length (s_ready p') < length (s_ready p))%nat ∧ pooled p' = pooled p).

(** Whether a client takes a session in this step. *)
Definition takes p p' : bool := (length (s_held p) <? length (s_held p'))%nat.

(** What a refill of [v] vacancies that begins at [t0] attempts, no vacancy being no refill. *)
Definition attempted (t0 v : Z) (st : St) : nat :=
  if decide (0 < v) then Z.to_nat (refill_attempts t0 v st) else 0%nat.

(** The watcher between its critical section, which it left at [t] when [c0] sessions had
    been connected, and the end of the refill. *)
Definition refilling (c0 : nat) (t v : Z) (st : St) p : Prop :=
  reconnection_ (s_pool p) = st ∧
  ((s_pc p = WUnlocked v ∧ length (s_created p) = c0 ∧ t ≤ s_clock p) ∨
   ∃ t0 b, s_pc p = WRefill t0 v b ∧ t ≤ t0 ∧
     (s_adders p + length (s_created p) = c0 + attempted t0 v st)%nat).

Definition refilled (c0 : nat) (t v : Z) (st : St) p : Prop :=
  (s_pc p = WLoop ∨ s_pc p = WSleep) ∧
  ∃ t0, t ≤ t0 ∧ (length (s_created p) = c0 + attempted t0 v st)%nat.

End Defs.

#[local] Arguments return_session : simpl never.
#[local] Arguments pop_front : simpl never.

Section Steps.
Context {Session St : Type} `{PoolSession Session, PoolStrategy St, pl : Platform}.
Variables (max_held : nat) (size idle_timeout : Z).
Implicit Types (p : system Session St).

Lemma refilling_step c0 tl v st p p' :
  adders_idle p → refilling c0 tl v st p → step max_held p p' → ¬ setback p p' →
  refilling c0 tl v st p' ∨ refilled c0 tl v st p'.
Proof.
  unfold adders_idle, refilling, refilled, setback, attempted. intros Hai [Hst Hpc] Hs Hns.
  destruct Hs; simpl in *; destruct Hpc as [(E & Ec & Ht)|(t2 & b2 & E & Ht & Ec)]; simplify_eq;
    try (left; split; [done|]; (left; split_and!; (done || lia)) || (right; do 2 eexists; split_and!; done); fail).
  - right. split; [by right|]. exists tl. rewrite decide_False by lia. split; lia.
  - left. split; [done|]. right. do 2 eexists. split; [done|]. rewrite decide_True by done. split; lia.
  - left. split; [done|]. right. do 2 eexists. split; [done|]. split; lia.
  - exfalso. apply Hns. left. split; [lia|done].
  - right. destruct (refill_settle _ _ _ _ _ _) as [st' []]; simpl; eauto.
Qed.

(** During a round no session leaves the pool but those the clients take, and every session
    connected is with an adder or joins the pool. *)
Lemma round_step v p p' :
  in_round v p → step max_held p p' → ¬ setback p p' →
  (length (pooled p) + length (s_created p') + length (s_ready p) ≤
   length (pooled p') + length (s_created p) + length (s_ready p') + if takes p p' then 1 else 0)%nat.
Proof.
  unfold in_round, takes, setback, pooled. intros Hr Hs Hns.
  destruct Hs; simpl in *; rewrite ?length_app, ?length_map in *; simpl in *; try lia;
    try (by destruct Hr as [?|(? & ? & ?)]).
  - pool_inv. rewrite length_app. simpl. lia.
  - exfalso. apply Hns. right. split; [lia|done].
  - pool_inv. rewrite Hl. simpl. rewrite (proj2 (Nat.ltb_lt _ _)) by lia. lia.
  - pool_inv. rewrite length_app. simpl. lia.
Qed.

(** With nothing in the pool, no session joins it. *)
Lemma empty_pool_step p p' :
  step max_held p p' → ¬ setback p p' → pooled p = [] → pooled p' = [] →
  (length (s_created p') + length (s_ready p) = length (s_created p) + length (s_ready p'))%nat.
Proof.
  intros Hs Hns E E'. unfold setback, pooled in *.
  destruct Hs; simpl in *; try lia.
  - pool_inv. rewrite map_app in E'. by apply app_nil in E' as [_ ?].
  - exfalso. apply Hns. right. split; [|done]. rewrite !length_app. simpl. lia.
Qed.

End Steps.

(** ** Fair executions *)

Section Executions.
Context {Session St Ep : Type} `{PoolSession Session, PoolStrategy St, pl : Platform}.
Variables (peer_of : Session → Ep) (max_held : nat) (size idle_timeout : Z).
Hypothesis fresh_session : ∀ (l : list Session) peer, ∃ s, (s ∉ l) ∧ peer_of s = peer.
Hypothesis size_range : 0 ≤ size < 2 ^ 64 - 2.
Hypothesis held_range : size + Z.of_nat max_held < 2 ^ 64.
Variable e : nat → net Session St Ep.
Hypothesis e_execution : execution (net_step peer_of max_held) e.
Hypothesis e_reachable : reachable (net_initial size idle_timeout) (net_step peer_of max_held) (e 0%nat).
Hypothesis e_fair : fair peer_of max_held e.
Hypothesis e_alive : ∀ m, watch_pool_ (s_pool (n_pool (e m))) = true.

Abbreviation pool_at i := (n_pool (e i)).

Lemma pool_ok i : ownership (pool_at i) ∧ adders_idle (pool_at i).
Proof.
  assert (Hr : reachable (net_initial size idle_timeout) (net_step peer_of max_held) (e i))
    by by eapply execution_reachable.
  split; [by apply net_projections in Hr as [[? _]%reachable_invariants _]|].
  by destruct (net_adders_idle _ _ _ _ _ size_range held_range Hr) as (_ & _ & ? & _).
Qed.

(** The pool's part of the execution. *)
Lemma pool_steps i : pool_at (S i) = pool_at i ∨ step max_held (pool_at i) (pool_at (S i)).
Proof. destruct (e_execution i) as [->|Hs]; [by left|]. by eapply net_pool_step. Qed.

(** Adders are about during a refill only. *)
Lemma nothing_ready i : round_over (pool_at i) ∨ (∃ v, s_pc (pool_at i) = WUnlocked v) → s_ready (pool_at i) = [].
Proof.
  destruct (pool_ok i) as [_ Hai]. unfold adders_idle in Hai.
  intros [[E|E]|[v E]]; rewrite E in Hai; apply Hai.
Qed.

(** The number of times a client takes a session between [m] and [m']. *)
Definition taken (m m' : nat) : nat :=
  length (filter (λ i, takes (pool_at i) (pool_at (S i)) = true) (seq m (m' - m))).

Lemma taken_snoc m j : (m ≤ j)%nat →
  taken m (S j) = (taken m j + if takes (pool_at j) (pool_at (S j)) then 1 else 0)%nat.
Proof.
  intros Hle. unfold taken. rewrite Nat.sub_succ_l, seq_S, filter_app, length_app by done. f_equal.
  replace (m + (j - m))%nat with j by lia. rewrite filter_cons, filter_nil. by destruct (takes _ _).
Qed.

(** What joins the pool during a round is there at its end, or a client took it. *)
Lemma round_balance m j v :
  (m ≤ j)%nat → (∀ i, (m ≤ i < j)%nat → in_round v (pool_at i)) →
  (∀ i, (m ≤ i)%nat → ¬ setback (pool_at i) (pool_at (S i))) →
  (length (pooled (pool_at m)) + length (s_created (pool_at j)) + length (s_ready (pool_at m)) ≤
   length (pooled (pool_at j)) + length (s_created (pool_at m)) + length (s_ready (pool_at j)) + taken m j)%nat.
Proof.
  intros Hle. induction Hle as [|j Hle IH]; intros Hin Hns; [lia|].
  rewrite taken_snoc by done. assert (IH' := IH ltac:(intros i Hi; apply Hin; lia) Hns).
  destruct (pool_steps j) as [->|Hs]; [lia|].
  pose proof (round_step max_held v _ _ (Hin j ltac:(lia)) Hs (Hns j Hle)). lia.
Qed.

(** A round finds its vacancies and puts as many sessions into the pool as the strategy
    attempts. *)
Lemma round_supplies k :
  (∀ i, (k ≤ i)%nat → ¬ setback (pool_at i) (pool_at (S i))) →
  ∃ m m' v t0, (k ≤ m)%nat ∧ watcher_round e m m' v ∧ s_clock (pool_at m) ≤ t0 ∧
    v = vacant_places size (Z.of_nat (length (pooled (pool_at m)))) ∧
    let added := attempted t0 v (reconnection_ (s_pool (pool_at m))) in
    length (s_created (pool_at m')) = (length (s_created (pool_at m)) + added)%nat ∧
    (length (pooled (pool_at m)) + added ≤ length (pooled (pool_at m')) + taken m m')%nat ∧
    ((0 < added)%nat → ∃ i, (m ≤ i ≤ m')%nat ∧ pooled (pool_at i) ≠ []).
Proof.
  intros Hns.
  destruct (round_begins peer_of max_held size idle_timeout fresh_session size_range held_range e e_execution
    e_reachable e_fair k e_alive) as (m & Hm & v & Hpc & _ & Hv).
  destruct (round_complete peer_of max_held size idle_timeout fresh_session size_range held_range e e_execution
    e_reachable e_fair m v Hpc) as (j & (Hmj & _ & Hin & Hover) & _).
  set (c0 := length (s_created (pool_at m))). set (st := reconnection_ (s_pool (pool_at m))).
  destruct (execution_until (net_step peer_of max_held) e (λ n, refilling c0 (s_clock (pool_at m)) v st (n_pool n))
    (λ n, refilled c0 (s_clock (pool_at m)) v st (n_pool n)) m j) as (m' & Hm' & (Hpc' & t0 & Ht & Hc) & _); [done|lia| | | |].
  { intros i Hi Hr _. destruct (pool_steps i) as [->|Hs]; [by left|].
    eapply refilling_step; [apply pool_ok|done..|apply Hns; lia]. }
  { split; [done|]. left. by split_and!. }
  { unfold round_over in Hover. intros [_ [[E _]|(? & ? & E & _)]]; rewrite E in Hover; by destruct Hover. }
  assert (m' = j) as ->.
  { destruct (decide (m' = j)) as [|Hne]; [done|]. destruct (Hin m' ltac:(lia)) as [E|(? & ? & E)]; rewrite E in Hpc'; by destruct Hpc'. }
  exists m, j, v, t0. split; [done|]. split; [by split_and!|]. split; [done|]. unfold pooled at 1. rewrite length_map.
  split; [done|]. fold st. cbv zeta. split; [done|].
  pose proof (nothing_ready m ltac:(eauto)) as Er. pose proof (nothing_ready j ltac:(by left)) as Er'.
  split.
  - pose proof (round_balance m j v ltac:(lia) Hin ltac:(intros i ?; apply Hns; lia)) as Hb.
    rewrite Er, Er' in Hb. simpl in Hb. fold c0 in Hb. lia.
  - intros Hadd. apply NNPP. intros Hno.
    assert (Hempty : ∀ i, (m ≤ i ≤ j)%nat → pooled (pool_at i) = []).
    { intros i Hi. destruct (decide (pooled (pool_at i) = [])); [done|]. exfalso. apply Hno. by exists i. }
    assert (Hsame : ∀ i, (m ≤ i)%nat → (i ≤ j)%nat → length (s_created (pool_at i)) = (c0 + length (s_ready (pool_at i)))%nat).
    { intros i Hle. induction Hle as [|i Hle IH]; [by rewrite Er, Nat.add_0_r|]. intros Hi. specialize (IH ltac:(lia)).
      destruct (pool_steps i) as [->|Hst]; [done|].
      pose proof (empty_pool_step max_held _ _ Hst (Hns i ltac:(lia)) (Hempty i ltac:(lia)) (Hempty (S i) ltac:(lia))). lia. }
    specialize (Hsame j ltac:(lia) ltac:(lia)). rewrite Er' in Hsame. simpl in Hsame. lia.
Qed.

End Executions.

(** ** Properties *)

Section Claims.
Context {Session Ep : Type} `{PoolSession Session, pl : Platform}.
Variables (peer_of : Session → Ep) (max_held : nat) (size idle_timeout : Z).

(** C6: the pool is kept full.  In every fair execution in which a pool with the greedy
    strategy lives, from a time on from which connecting and appending succeed, again and
    again a round of the watcher, from the critical section that counts the vacant places to
    the end of its refill, connects exactly as many sessions as places were vacant and
    leaves the pool with [size] sessions or more, less only those that clients took during
    this very round; and during the round there is a time at which a session is there to
    take. *)
Theorem greedy_pool_kept_full (e : nat → net Session greedy_strategy Ep) k :
  (∀ (l : list Session) peer, ∃ s, (s ∉ l) ∧ peer_of s = peer) →
  0 < size < 2 ^ 64 - 2 → size + Z.of_nat max_held < 2 ^ 64 →
  execution (net_step peer_of max_held) e →
  reachable (net_initial size idle_timeout) (net_step peer_of max_held) (e 0%nat) →
  fair peer_of max_held e → (∀ m, watch_pool_ (s_pool (n_pool (e m))) = true) →
  (∀ i, (k ≤ i)%nat → ¬ setback (n_pool (e i)) (n_pool (e (S i)))) →
  ∃ m m' v, (k ≤ m)%nat ∧ watcher_round e m m' v ∧
    let p := n_pool (e m) in let p' := n_pool (e m') in
    v = Z.max 0 (size - Z.of_nat (length (pooled p))) ∧
    Z.of_nat (length (s_created p')) = Z.of_nat (length (s_created p)) + v ∧
    size - Z.of_nat (taken e m m') ≤ Z.of_nat (length (pooled p')) ∧
    ∃ i, (m ≤ i ≤ m')%nat ∧ pooled (n_pool (e i)) ≠ [].
Proof.
  intros Hfresh Hs Hh He Hr Hf Hw Hns.
  destruct (round_supplies peer_of max_held size idle_timeout Hfresh ltac:(lia) Hh e He Hr Hf Hw k Hns)
    as (m & m' & v & t0 & Hm & Hround & _ & Hv & Hc & Hb & Hi). cbv zeta in Hc, Hb, Hi.
  rewrite vacant_places_spec in Hv by lia. unfold attempted in Hc, Hb, Hi. cbn in Hc, Hb, Hi.
  exists m, m', v. split; [done|]. split; [done|]. cbv zeta. split; [done|].
  destruct (decide (0 < v)) as [Hv0|Hv0]; (split; [lia|]; split; [lia|]).
  - apply Hi. lia.
  - exists m. destruct Hround as (Hlt & _). split; [lia|]. intros E. rewrite E in Hv. simpl in Hv. lia.
Qed.

(** With the conservative strategy a round that begins when no back-off is due connects and
    adds a third of the vacant places, rounded up, or a single session while the last refill
    has failed. *)
Theorem conservative_round_supplies (e : nat → net Session conservative_strategy Ep) k :
  (∀ (l : list Session) peer, ∃ s, (s ∉ l) ∧ peer_of s = peer) →
  0 ≤ size < 2 ^ 64 - 2 → size + Z.of_nat max_held < 2 ^ 64 →
  execution (net_step peer_of max_held) e →
  reachable (net_initial size idle_timeout) (net_step peer_of max_held) (e 0%nat) →
  fair peer_of max_held e → (∀ m, watch_pool_ (s_pool (n_pool (e m))) = true) →
  (∀ i, (k ≤ i)%nat → ¬ setback (n_pool (e i)) (n_pool (e (S i)))) →
  ∃ m m' v, (k ≤ m)%nat ∧ watcher_round e m m' v ∧
    let p := n_pool (e m) in let p' := n_pool (e m') in let st := reconnection_ (s_pool p) in
    let vacant := size - Z.of_nat (length (pooled p)) in
    let added := if decide (current_delay_ms_ st = 0) then (vacant + 2) / 3 else 1 in
    (0 < vacant → wait_until_ st ≤ s_clock p →
     Z.of_nat (length (s_created p')) = Z.of_nat (length (s_created p)) + added ∧
     Z.of_nat (length (pooled p)) + added ≤ Z.of_nat (length (pooled p')) + Z.of_nat (taken e m m')).
Proof.
  intros Hfresh Hs Hh He Hr Hf Hw Hns.
  destruct (round_supplies peer_of max_held size idle_timeout Hfresh ltac:(lia) Hh e He Hr Hf Hw k Hns)
    as (m & m' & v & t0 & Hm & Hround & Ht & Hv & Hc & Hb & _). exists m, m', v. split; [done|]. split; [done|].
  cbv zeta in *. intros Hvac Hw0.
  rewrite vacant_places_spec, Z.max_r in Hv by lia. unfold attempted in Hc, Hb.
  rewrite decide_True in Hc, Hb by lia. cbn in Hc, Hb. rewrite (proj2 (Z.ltb_ge _ _)) in Hc, Hb by lia. subst v.
  pose proof (conservative_attempts_bound (size - Z.of_nat (length (pooled (n_pool (e m)))))
    (reconnection_ (s_pool (n_pool (e m)))) ltac:(lia)) as Ha.
  case_decide as Hd.
  - rewrite conservative_attempts_fresh in Hc, Hb, Ha by (done || lia). lia.
  - rewrite conservative_attempts_failed in Hc, Hb by done. lia.
Qed.

End Claims.

(** ** Witnesses *)

(** The first round fills the pool of size one, the next ones find it full. *)
Definition fill_run (k : nat) : pair_net := if decide (k < 8)%nat then filling_run k else watch_run (k - 8).

Lemma fill_run_step k : pair_step (fill_run k) (fill_run (S k)).
Proof.
  unfold fill_run. destruct (decide (k < 8)%nat).
  - assert (E : (if decide (S k < 8)%nat then filling_run (S k) else watch_run (S k - 8)) = filling_run (S k)).
    { case_decide; [done|]. by replace k with 7%nat by lia. }
    rewrite E. by apply filling_run_step.
  - rewrite decide_False, Nat.sub_succ_l by lia. apply watch_run_step.
Qed.

Lemma fill_run_fair : fair (Ep := nat) fst 2 fill_run.
Proof.
  apply (fair_tail _ _ _ 8). pose proof watch_run_fair as Hf.
  assert (E : ∀ k, fill_run (8 + k) = watch_run k).
  { intros k. unfold fill_run. rewrite decide_False by lia. f_equal. lia. }
  destruct Hf as [Hw Hs]. split.
  - intros r n Hen. destruct (Hw r n) as (m & Hm & Ha); [intros m Hm; rewrite <- E; by apply Hen|].
    exists m. split; [done|]. by rewrite !E.
  - intros i n Hen. destruct (Hs i n) as (m & Hm & Ha).
    + intros j Hj. destruct (Hen j Hj) as (m & ? & ?). exists m. by rewrite <- E.
    + exists m. split; [done|]. by rewrite !E.
Qed.

Lemma fill_run_no_setback k : ¬ setback (n_pool (fill_run k)) (n_pool (fill_run (S k))).
Proof.
  unfold fill_run, setback. destruct (decide (k < 8)%nat) as [Hk|Hk].
  - destruct k as [|[|[|[|[|[|[|[|k]]]]]]]]; [..|lia]; simpl; intros [[? E]|[? E]]; try lia; done.
  - rewrite decide_False, Nat.sub_succ_l by lia. destruct (k - 8)%nat; simpl; lia.
Qed.

Lemma greedy_pool_kept_full_witness : ∃ m, pooled (n_pool (fill_run m)) ≠ [].
Proof.
  destruct (greedy_pool_kept_full (Ep := nat) fst 2 1 kInfiniteDuration fill_run 0)
    as (m & m' & v & _ & _ & _ & _ & _ & i & _ & Hi).
  - exact pair_fresh_session.
  - lia.
  - lia.
  - intros k. right. apply fill_run_step.
  - apply (filling_run_reachable 0). lia.
  - exact fill_run_fair.
  - intros m. unfold fill_run. destruct (decide _) as [Hm|]; [|done].
    by destruct m as [|[|[|[|[|[|[|[|m]]]]]]]].
  - intros i _. apply fill_run_no_setback.
  - by exists i.
Defined.
