(* ===== verification/ExampleUri.v ===== *)
(** * The URLs of the example programs

    Models [struct ParsedURI] of example/http/example_pool.cpp and
    example/http/example_connector.cpp: the regular expression [PARSE_URL], matched the way
    [std::regex_match] matches an ECMAScript expression (backtracking, alternatives from
    left to right, quantifiers greedy, with the captures of the first way to match the whole
    string), and the constructor that reads the captures.  A [std::string] is the list of
    its characters. *)

From S2P Require Import Prelude.
From Stdlib Require Import Strings.Ascii.
From Stdlib Require Strings.String.
Open Scope sc_scope.

Abbreviation chars := (list ascii).

Definition chars_of (s : string) : chars := String.list_ascii_of_string s.

(** ** Regular expressions *)

(** The expressions [PARSE_URL] is made of; [+] is applied to a class of characters only. *)
Inductive regex :=
| Lit (s : chars)                      (** the characters of [s], whatever their case *)
| ClassPlus (P : ascii → bool)         (** [[...]+] *)
| Cat (r1 r2 : regex)
| Alt (r1 r2 : regex)
| Opt (r : regex)                      (** [r?] *)
| Group (n : nat) (r : regex).         (** [(r)], the [n]-th group *)

(** [std::regex_constants::icase], and [boost::algorithm::to_lower_copy]: the classic
    locale's lower case. *)
Definition lower (c : ascii) : ascii :=
  let n := N_of_ascii c in
  if (65 <=? n)%N && (n <=? 90)%N then ascii_of_N (n + 32) else c.

Definition to_lower_copy (s : chars) : chars := map lower s.

(** The captures: what each group has matched. *)
Abbreviation captures := (gmap nat chars).

Fixpoint match_lit {A} (s l : chars) (k : chars → option A) : option A :=
  match s, l with
  | [], _ => k l
  | c :: s, d :: l => if decide (lower c = lower d) then match_lit s l k else None
  | _ :: _, [] => None
  end.

(** As many characters of the class as possible, then fewer and fewer of them. *)
Fixpoint match_star {A} (P : ascii → bool) (l : chars) (k : chars → option A) : option A :=
  match l with
  | [] => k []
  | c :: l' =>
      if P c then match match_star P l' k with Some a => Some a | None => k l end else k l
  end.

Definition match_plus {A} (P : ascii → bool) (l : chars) (k : chars → option A) : option A :=
  match l with
  | c :: l => if P c then match_star P l k else None
  | [] => None
  end.

(** Matching a prefix of [l] and going on with [k] on the rest. *)
Fixpoint rmatch {A} (r : regex) (l : chars) (caps : captures)
    (k : chars → captures → option A) : option A :=
  match r with
  | Lit s => match_lit s l (λ rest, k rest caps)
  | ClassPlus P => match_plus P l (λ rest, k rest caps)
  | Cat r1 r2 => rmatch r1 l caps (λ rest caps, rmatch r2 rest caps k)
  | Alt r1 r2 =>
      match rmatch r1 l caps k with Some a => Some a | None => rmatch r2 l caps k end
  | Opt r =>
      match rmatch r l caps k with Some a => Some a | None => k l caps end
  | Group n r =>
      rmatch r l caps (λ rest caps, k rest (<[n := take (length l - length rest) l]> caps))
  end.

(** [std::regex_match(url, match, re)]. *)
Definition at_end (rest : chars) (caps : captures) : option captures :=
  match rest with [] => Some caps | _ => None end.

Definition regex_match (r : regex) (s : chars) : option captures := rmatch r s ∅ at_end.

(** [match[n]]: empty for a group that has matched nothing. *)
Definition sub_match (m : captures) (n : nat) : chars := default [] (m !! n).

(** ** [PARSE_URL] *)

Definition none_of (s : string) (c : ascii) : bool := bool_decide (c ∉ chars_of s).

Definition is_digit (c : ascii) : bool :=
  let n := N_of_ascii c in (48 <=? n)%N && (n <=? 57)%N.

Definition lit (s : string) : regex := Lit (chars_of s).

(** [((http|https)://)?] *)
Definition re_protocol : regex := Opt (Group 1 (Cat (Group 2 (Alt (lit "http") (lit "https"))) (lit "://"))).
(** [([^/ :]+)] *)
Definition re_domain : regex := Group 3 (ClassPlus (none_of "/ :")).
(** [(:(\d+))?] *)
Definition re_port : regex := Opt (Group 4 (Cat (lit ":") (Group 5 (ClassPlus is_digit)))).
(** [(/([^ ?]+)?)?] *)
Definition re_resource : regex := Opt (Group 6 (Cat (lit "/") (Opt (Group 7 (ClassPlus (none_of " ?")))))).
(** [([^/ ]+\=[^/ ]+)?] *)
Definition re_query : regex :=
  Opt (Group 8 (Cat (ClassPlus (none_of "/ ")) (Cat (lit "=") (ClassPlus (none_of "/ "))))).

Definition PARSE_URL : regex :=
  Cat re_protocol (Cat re_domain (Cat re_port (Cat re_resource
    (Cat (Opt (lit "/")) (Cat (Opt (lit "?")) re_query))))).

(** ** [struct ParsedURI] *)

Record ParsedURI := mk_uri {
  protocol : chars;
  domain : chars;
  port : chars;
  resource : chars;
  query : chars
}.

(** The constructor's [value_or]. *)
Definition value_or (value deflt : chars) : chars :=
  match value with [] => deflt | _ => value end.

(** [ParsedURI(url)]; a match has nine sub-matches, the whole one and the groups. *)
Definition parse_uri (url : chars) : ParsedURI :=
  match regex_match PARSE_URL url with
  | Some m =>
      let protocol := value_or (to_lower_copy (sub_match m 2)) (chars_of "http") in
      mk_uri protocol (sub_match m 3)
        (value_or (sub_match m 5) (if decide (protocol = chars_of "https") then chars_of "443" else chars_of "80"))
        (value_or (sub_match m 6) (chars_of "/"))
        (sub_match m 8)
  | None => mk_uri [] [] [] [] []
  end.

Example parse_full : parse_uri (chars_of "HTTPS://example.com:8080/a/b?k=v") =
  mk_uri (chars_of "https") (chars_of "example.com") (chars_of "8080") (chars_of "/a/b") (chars_of "k=v").
Proof. vm_compute. reflexivity. Qed.

Example parse_bare : parse_uri (chars_of "localhost") =
  mk_uri (chars_of "http") (chars_of "localhost") (chars_of "80") (chars_of "/") [].
Proof. vm_compute. reflexivity. Qed.

(** ** The language of an expression

    The reference definition: which strings an expression describes, whatever the order in
    which the matcher tries them. *)

Fixpoint lang (r : regex) (w : chars) : Prop :=
  match r with
  | Lit s => to_lower_copy w = to_lower_copy s
  | ClassPlus P => w ≠ [] ∧ Forall P w
  | Cat r1 r2 => ∃ u v, w = u ++ v ∧ lang r1 u ∧ lang r2 v
  | Alt r1 r2 => lang r1 w ∨ lang r2 w
  | Opt r => w = [] ∨ lang r w
  | Group _ r => lang r w
  end.

Section Matching.
Context {A : Type}.
Implicit Types (l s u v : chars) (P : ascii → bool).

Lemma match_lit_some s l (k : chars → option A) a :
  match_lit s l k = Some a ↔ ∃ u v, l = u ++ v ∧ to_lower_copy u = to_lower_copy s ∧ k v = Some a.
Proof.
  revert l. induction s as [|c s IH]; intros l; simpl.
  - split; [intros Hk; by exists [], l|]. intros (u & v & -> & Hu & Hk). by destruct u.
  - destruct l as [|d l]; [split; [done|intros ([|x u] & v & E & Hu & _); done]|]. case_decide as Hcd.
    + rewrite IH. split.
      * intros (u & v & -> & Hu & Hk). exists (d :: u), v. simpl. by rewrite Hu, Hcd.
      * intros ([|x u] & v & E & Hu & Hk); [done|]. simpl in E, Hu. simplify_eq. by exists u, v.
    + split; [done|]. intros ([|x u] & v & E & Hu & _); [done|]. simpl in E, Hu. by simplify_eq.
Qed.

(** The star succeeds exactly when some split of the string does. *)
Lemma match_star_is_some P l (k : chars → option A) :
  is_Some (match_star P l k) ↔ ∃ u v, l = u ++ v ∧ Forall P u ∧ is_Some (k v).
Proof.
  induction l as [|c l IH]; simpl.
  - split; [intros Hk; by exists [], []|]. intros (u & v & E & _ & Hk). by destruct u, v.
  - assert (Hcase : is_Some (k (c :: l)) → ∃ u v, c :: l = u ++ v ∧ Forall P u ∧ is_Some (k v)).
    { intros Hk. exists [], (c :: l). done. }
    destruct (P c) eqn:Hc.
    + destruct (match_star P l k) as [a|] eqn:Es.
      * split; [|eauto]. intros _. destruct (proj1 IH) as (u & v & -> & Hu & Hk); [eauto|].
        exists (c :: u), v. split; [done|]. split; [|done]. constructor; [by rewrite Hc|done].
      * split; [done|]. intros ([|x u] & v & E & Hu & Hk); simpl in E; [by subst v|]. simplify_eq.
        apply Forall_cons in Hu as [_ Hu]. assert (is_Some (@None A)) as [? ?] by (apply IH; eauto). done.
    + split; [done|]. intros ([|x u] & v & E & Hu & Hk); simpl in E; [by subst v|]. simplify_eq.
      apply Forall_cons in Hu as [Hx _]. by rewrite Hc in Hx.
Qed.

Lemma match_star_some P l (k : chars → option A) a :
  match_star P l k = Some a → ∃ u v, l = u ++ v ∧ Forall P u ∧ k v = Some a.
Proof.
  induction l as [|c l IH]; simpl; [by exists [], []|].
  assert (Hskip : k (c :: l) = Some a → ∃ u v, c :: l = u ++ v ∧ Forall P u ∧ k v = Some a) by (by exists [], (c :: l)).
  destruct (P c) eqn:Hc; [|done]. destruct (match_star P l k) as [a'|]; [|done].
  intros [= ->]. destruct IH as (u & v & -> & Hu & Hk); [done|]. exists (c :: u), v. split_and!; [done| |done].
  constructor; [by rewrite Hc|done].
Qed.

Lemma match_plus_some P l (k : chars → option A) a :
  match_plus P l k = Some a → ∃ u v, l = u ++ v ∧ u ≠ [] ∧ Forall P u ∧ k v = Some a.
Proof.
  destruct l as [|c l]; simpl; [done|]. destruct (P c) eqn:Hc; [|done].
  intros (u & v & -> & Hu & Hk)%match_star_some. exists (c :: u), v. split_and!; [done..| |done].
  constructor; [by rewrite Hc|done].
Qed.

Lemma match_plus_is_some P l (k : chars → option A) :
  is_Some (match_plus P l k) ↔ ∃ u v, l = u ++ v ∧ u ≠ [] ∧ Forall P u ∧ is_Some (k v).
Proof.
  destruct l as [|c l]; simpl.
  - split; [by intros [? ?]|]. intros (u & v & E & Hu & _). by destruct u.
  - destruct (P c) eqn:Hc.
    + rewrite match_star_is_some. split.
      * intros (u & v & -> & Hu & Hk). exists (c :: u), v. split_and!; [done..| |done].
        constructor; [by rewrite Hc|done].
      * intros ([|x u] & v & E & Hne & Hu & Hk); [done|]. simpl in E. simplify_eq.
        apply Forall_cons in Hu as [_ Hu]. eauto.
    + split; [by intros [? ?]|]. intros ([|x u] & v & E & Hne & Hu & _); [done|]. simpl in E. simplify_eq.
      apply Forall_cons in Hu as [Hx _]. by rewrite Hc in Hx.
Qed.

(** The longest match is tried first. *)
Lemma match_plus_greedy P u v (k : chars → option A) a :
  u ≠ [] → Forall P u → match v with c :: _ => P c = false | [] => True end → k v = Some a →
  match_plus P (u ++ v) k = Some a.
Proof.
  intros Hne Hu Hv Hk. assert (Hs : ∀ u, Forall P u → match_star P (u ++ v) k = Some a).
  { induction 1 as [|c w Hc _ IH]; simpl.
    - destruct v as [|c v]; simpl; [done|]. by rewrite Hv.
    - apply Is_true_true in Hc. by rewrite Hc, IH. }
  destruct u as [|c u]; [done|]. apply Forall_cons in Hu as [Hc Hu]. simpl.
  apply Is_true_true in Hc. rewrite Hc. by apply Hs.
Qed.

(** The matcher, with a continuation whose success does not depend on the captures. *)
Lemma rmatch_is_some r l caps (k : chars → captures → option A) :
  (∀ v c c', is_Some (k v c) → is_Some (k v c')) →
  is_Some (rmatch r l caps k) ↔ ∃ u v, l = u ++ v ∧ lang r u ∧ is_Some (k v caps).
Proof.
  revert l caps k. induction r as [s|P|r1 IH1 r2 IH2|r1 IH1 r2 IH2|r IH|n r IH]; intros l caps k Hk; simpl.
  - split.
    + intros [a Ha]. apply match_lit_some in Ha as (u & v & ? & ? & ?). eauto 10.
    + intros (u & v & -> & Hu & [a Ha]). exists a. apply match_lit_some. eauto.
  - rewrite match_plus_is_some. naive_solver.
  - assert (Hk2 : ∀ v c c', is_Some (rmatch r2 v c k) → is_Some (rmatch r2 v c' k)).
    { intros v c c'. rewrite !IH2 by done. naive_solver. }
    rewrite IH1 by done. split.
    + intros (u & v & -> & Hu & Hv). apply IH2 in Hv as (u' & v' & -> & Hu' & Hv'); [|done].
      exists (u ++ u'), v'. rewrite <- app_assoc. eauto 10.
    + intros (w & v & -> & (u & u' & -> & Hu & Hu') & Hv). exists u, (u' ++ v). rewrite <- app_assoc.
      split_and!; [done..|]. apply IH2; eauto 10.
  - specialize (IH1 l caps k Hk). specialize (IH2 l caps k Hk). destruct (rmatch r1 l caps k) as [a|] eqn:E1.
    + destruct (proj1 IH1) as (u & v & -> & ? & ?); [eauto|]. split; [eauto 10|eauto].
    + rewrite IH2. split; [naive_solver|]. intros (u & v & -> & [Hu|Hu] & Hv); [|eauto].
      assert (is_Some (@None A)) as [? ?] by (apply IH1; eauto). done.
  - specialize (IH l caps k Hk). destruct (rmatch r l caps k) as [a|] eqn:E1.
    + destruct (proj1 IH) as (u & v & -> & ? & ?); [eauto|]. split; [eauto 10|eauto].
    + split; [intros Hl; exists [], l; by auto|]. intros (u & v & -> & [->|Hu] & Hv); [done|].
      assert (is_Some (@None A)) as [? ?] by (apply IH; eauto). done.
  - rewrite IH; [|intros; by eapply Hk]. split; intros (u & v & ? & ? & ?); exists u, v; split_and!; try done; by eapply Hk.
Qed.

End Matching.

(** ** Captures *)

(** The groups of an expression, and those every match sets. *)
Fixpoint groups (r : regex) : list (nat * regex) :=
  match r with
  | Lit _ | ClassPlus _ => []
  | Cat r1 r2 | Alt r1 r2 => groups r1 ++ groups r2
  | Opt r => groups r
  | Group n r => (n, r) :: groups r
  end.

Fixpoint always_set (r : regex) : list nat :=
  match r with
  | Cat r1 r2 => always_set r1 ++ always_set r2
  | Group n r => n :: always_set r
  | _ => []
  end.

Lemma take_consumed (u v : chars) : take (length (u ++ v) - length v) (u ++ v) = u.
Proof. rewrite length_app, Nat.add_sub. apply take_app_length. Qed.

(** The captures a successful match hands to its continuation: each is one it was given or
    a string of the group's language. *)
Definition captures_ok (r : regex) (caps caps' : captures) : Prop :=
  (∀ n w, caps' !! n = Some w → caps !! n = Some w ∨ ∃ r', (n, r') ∈ groups r ∧ lang r' w) ∧
  (∀ n, is_Some (caps !! n) ∨ n ∈ always_set r → is_Some (caps' !! n)).

Lemma captures_ok_none r caps : always_set r = [] → captures_ok r caps caps.
Proof. intros E. split; [auto|]. rewrite E. intros n [?|Hn]; [done|by apply not_elem_of_nil in Hn]. Qed.

Lemma captures_ok_no_groups r caps caps' : groups r = [] → captures_ok r caps caps' → caps' = caps.
Proof.
  intros E [Ho Hs]. apply map_eq. intros n. destruct (caps' !! n) as [w|] eqn:Hn.
  - destruct (Ho n w Hn) as [?|(q & Hq & _)]; [done|]. rewrite E in Hq. by apply not_elem_of_nil in Hq.
  - destruct (caps !! n) eqn:Hc; [|done]. destruct (Hs n) as [? Hn']; [by left; rewrite Hc|]. congruence.
Qed.

Lemma captures_ok_weaken r r' caps caps' :
  groups r ⊆ groups r' → always_set r' ⊆ always_set r → captures_ok r caps caps' → captures_ok r' caps caps'.
Proof.
  intros Hg Ha [Ho Hs]. split.
  - intros n w Hw. destruct (Ho n w Hw) as [?|(q & ? & ?)]; [by left|right]. exists q. auto.
  - intros n [?|?]; auto.
Qed.

Lemma captures_ok_cat r1 r2 caps caps1 caps2 :
  captures_ok r1 caps caps1 → captures_ok r2 caps1 caps2 → captures_ok (Cat r1 r2) caps caps2.
Proof.
  intros [Ho1 Hs1] [Ho2 Hs2]. split; simpl.
  - intros n w Hw. destruct (Ho2 n w Hw) as [Hw1|(q & ? & ?)].
    + destruct (Ho1 n w Hw1) as [?|(q & ? & ?)]; [by left|right]. exists q. rewrite elem_of_app. auto.
    + right. exists q. rewrite elem_of_app. auto.
  - intros n [?|[?|?]%elem_of_app]; apply Hs2; auto.
Qed.

Lemma captures_ok_group n r caps caps' u :
  lang r u → captures_ok r caps caps' → captures_ok (Group n r) caps (<[n := u]> caps').
Proof.
  intros Hu [Ho Hs]. split; simpl.
  - intros m w. destruct (decide (n = m)) as [<-|Hne].
    + rewrite lookup_insert_eq. intros [= <-]. right. exists r. split; [by left|done].
    + rewrite lookup_insert_ne by done. intros Hw. destruct (Ho m w Hw) as [?|(q & ? & ?)]; [by left|].
      right. exists q. split; [by right|done].
  - intros m Hm. destruct (decide (n = m)) as [<-|Hne]; [by rewrite lookup_insert_eq|].
    rewrite lookup_insert_ne by done. apply Hs. destruct Hm as [?|[?|?]%elem_of_cons]; [by left|congruence|by right].
Qed.

Lemma rmatch_captures {A} r l caps (k : chars → captures → option A) a :
  rmatch r l caps k = Some a →
  ∃ u v caps', l = u ++ v ∧ lang r u ∧ k v caps' = Some a ∧ captures_ok r caps caps'.
Proof.
  revert l caps k. induction r as [s|P|r1 IH1 r2 IH2|r1 IH1 r2 IH2|r IH|n r IH]; intros l caps k; simpl.
  - intros (u & v & -> & Hu & Hk)%match_lit_some. exists u, v, caps. auto using captures_ok_none.
  - intros (u & v & -> & ? & ? & Hk)%match_plus_some. exists u, v, caps. auto using captures_ok_none.
  - intros (u & v & caps1 & -> & Hu & (u2 & v2 & caps2 & -> & Hu2 & Hk & Hc2)%IH2 & Hc1)%IH1.
    exists (u ++ u2), v2, caps2. rewrite <- app_assoc. split_and!; [done|eauto 10|done|].
    by eapply captures_ok_cat.
  - destruct (rmatch r1 l caps k) as [a'|] eqn:E1; intros Hm; simplify_eq.
    + destruct (IH1 _ _ _ E1) as (u & v & caps' & -> & Hu & Hk & Hc). exists u, v, caps'.
      split_and!; [done|by left|done|]. eapply captures_ok_weaken; [..|exact Hc]; simpl; [set_solver|apply list_subseteq_nil].
    + destruct (IH2 _ _ _ Hm) as (u & v & caps' & -> & Hu & Hk & Hc). exists u, v, caps'.
      split_and!; [done|by right|done|]. eapply captures_ok_weaken; [..|exact Hc]; simpl; [set_solver|apply list_subseteq_nil].
  - destruct (rmatch r l caps k) as [a'|] eqn:E1; intros Hm; simplify_eq.
    + destruct (IH _ _ _ E1) as (u & v & caps' & -> & Hu & Hk & Hc). exists u, v, caps'.
      split_and!; [done|by right|done|]. eapply captures_ok_weaken; [..|exact Hc]; simpl; [done|apply list_subseteq_nil].
    + exists [], l, caps. auto using captures_ok_none.
  - intros (u & v & caps' & -> & Hu & Hk & Hc)%IH. exists u, v, (<[n:=u]> caps').
    rewrite take_consumed in Hk. split_and!; [done..|]. by apply captures_ok_group.
Qed.

(** ** Printing *)

(** What a parsed URL has in each of its fields. *)
Record uri_ok (u : ParsedURI) : Prop := {
  ok_protocol : protocol u = chars_of "http" ∨ protocol u = chars_of "https";
  ok_domain : domain u ≠ [] ∧ Forall (none_of "/ :") (domain u);
  ok_port : port u ≠ [] ∧ Forall is_digit (port u);
  ok_resource : ∃ path, resource u = chars_of "/" ++ path ∧ Forall (none_of " ?") path;
  ok_query : query u = [] ∨ ∃ key value, query u = key ++ chars_of "=" ++ value ∧
    key ≠ [] ∧ value ≠ [] ∧ Forall (none_of "/ ") (query u)
}.

Definition default_port (protocol : chars) : chars :=
  if decide (protocol = chars_of "https") then chars_of "443" else chars_of "80".

(** What follows the resource in a printed URL, and what the port part is. *)
Definition query_part (q : chars) : chars := match q with [] => [] | _ => chars_of "?" ++ q end.

Definition port_part (with_port : bool) (p : chars) : chars := if with_port then chars_of ":" ++ p else [].

(** A URL for [u]: the protocol as [spelled], the port when [with_port] says so. *)
Definition print_uri (spelled : chars) (with_port : bool) (u : ParsedURI) : chars :=
  spelled ++ chars_of "://" ++ domain u ++ port_part with_port (port u) ++ resource u ++ query_part (query u).

Section Printing.
Implicit Types (u : ParsedURI) (caps : captures).

Lemma match_lit_app {A} s (v : chars) (k : chars → option A) : match_lit (chars_of s) (chars_of s ++ v) k = k v.
Proof. induction s as [|c s IH]; simpl; [done|]. by rewrite decide_True by done. Qed.

Lemma match_lit_spelled {A} (s u v : chars) (k : chars → option A) :
  to_lower_copy u = to_lower_copy s → match_lit s (u ++ v) k = k v.
Proof.
  revert s. induction u as [|c u IH]; intros [|d s]; simpl; try done. intros [= Hc Hs].
  by rewrite decide_True by done; apply IH.
Qed.

Lemma group_capture {A} n r (u v : chars) caps (k : chars → captures → option A) a caps' :
  (∀ k', k' v caps' = Some a → rmatch r (u ++ v) caps k' = Some a) →
  k v (<[n := u]> caps') = Some a → rmatch (Group n r) (u ++ v) caps k = Some a.
Proof. intros Hr Hk. simpl. apply Hr. by rewrite take_consumed. Qed.

Lemma match_query q caps :
  (∃ key value, q = key ++ chars_of "=" ++ value ∧ key ≠ [] ∧ value ≠ []) → Forall (none_of "/ ") q →
  rmatch re_query q caps at_end = Some (<[8%nat := q]> caps).
Proof.
  intros (key & value & E & Hk & Hv) Hq. unfold re_query. cbn [rmatch].
  assert (∃ c, rmatch (Group 8 (Cat (ClassPlus (none_of "/ ")) (Cat (lit "=") (ClassPlus (none_of "/ "))))) q caps at_end
    = Some c) as [c Hc].
  { apply rmatch_is_some; [by intros [|]|]. exists q, []. rewrite app_nil_r. split; [done|]. split; [|done].
    simpl. rewrite E in Hq. rewrite !Forall_app in Hq. destruct Hq as (? & _ & ?).
    exists key, (chars_of "=" ++ value). split_and!; [done..|]. by exists (chars_of "="), value. }
  cbn [rmatch] in Hc |- *. rewrite Hc.
  apply (rmatch_captures (Cat (ClassPlus (none_of "/ ")) (Cat (lit "=") (ClassPlus (none_of "/ "))))) in Hc.
  destruct Hc as (u1 & v & caps' & Eq & _ & Hend & Hcaps). apply captures_ok_no_groups in Hcaps as ->; [|done].
  destruct v; [|done]. injection Hend as <-. by rewrite Nat.sub_0_r, firstn_all.
Qed.

Lemma opt_taken {A} r l caps (k : chars → captures → option A) a :
  rmatch r l caps k = Some a → rmatch (Opt r) l caps k = Some a.
Proof. intros Hr. simpl. by rewrite Hr. Qed.

Lemma opt_skipped {A} r l caps (k : chars → captures → option A) :
  rmatch r l caps k = None → rmatch (Opt r) l caps k = k l caps.
Proof. intros Hr. simpl. by rewrite Hr. Qed.

Lemma cat_some {A} r1 r2 l caps (k : chars → captures → option A) a :
  rmatch r1 l caps (λ rest caps, rmatch r2 rest caps k) = Some a → rmatch (Cat r1 r2) l caps k = Some a.
Proof. done. Qed.

Lemma lit_some {A} s (v : chars) caps (k : chars → captures → option A) a :
  k v caps = Some a → rmatch (lit s) (chars_of s ++ v) caps k = Some a.
Proof. intros Hk. unfold lit. cbn [rmatch]. by rewrite match_lit_app. Qed.

Definition set_query (q : chars) caps : captures :=
  match q with [] => caps | _ => <[8%nat := q]> caps end.

Lemma match_query_part q caps :
  (q = [] ∨ ∃ key value, q = key ++ chars_of "=" ++ value ∧ key ≠ [] ∧ value ≠ [] ∧ Forall (none_of "/ ") q) →
  rmatch (Cat (Opt (lit "/")) (Cat (Opt (lit "?")) re_query)) (query_part q) caps at_end = Some (set_query q caps).
Proof.
  intros Hq. destruct q as [|c q]; [done|].
  destruct Hq as [|(key & value & E & Hk & Hv & Hf)]; [done|].
  unfold query_part, set_query. cbn [rmatch]. unfold lit at 1. cbn [rmatch].
  pose proof (match_query (c :: q) caps) as Hm. unfold lit. cbn [rmatch].
  assert (Hs : ∀ k : chars → option captures, match_lit (chars_of "/") (chars_of "?" ++ c :: q) k = None) by done.
  rewrite !Hs, match_lit_app. rewrite Hm; [done| |done]. eauto 10.
Qed.

Definition set_path (path : chars) caps : captures :=
  match path with [] => caps | _ => <[7%nat := path]> caps end.

Lemma match_resource path q caps (k : chars → captures → option captures) a :
  Forall (none_of " ?") path →
  k (query_part q) (<[6%nat := chars_of "/" ++ path]> (set_path path caps)) = Some a →
  rmatch re_resource ((chars_of "/" ++ path) ++ query_part q) caps k = Some a.
Proof.
  intros Hp Hk. apply opt_taken. eapply group_capture; [|exact Hk]. clear k Hk. intros k Hk.
  apply cat_some. rewrite <- app_assoc. apply lit_some. destruct path as [|c path].
  - simpl. by destruct q.
  - apply opt_taken. apply (group_capture 7 _ (c :: path) _ _ _ _ caps); [|exact Hk]. clear k Hk. intros k Hk. cbn [rmatch].
    apply match_plus_greedy; [done|done|by destruct q|exact Hk].
Qed.

Definition set_port (with_port : bool) (p : chars) caps : captures :=
  if with_port then <[4%nat := chars_of ":" ++ p]> (<[5%nat := p]> caps) else caps.

Lemma match_port with_port p v caps (k : chars → captures → option captures) a :
  p ≠ [] → Forall is_digit p →
  k (chars_of "/" ++ v) (set_port with_port p caps) = Some a →
  rmatch re_port (port_part with_port p ++ chars_of "/" ++ v) caps k = Some a.
Proof.
  intros Hne Hp Hk. destruct with_port; unfold set_port, port_part in *.
  - apply opt_taken. eapply group_capture; [|exact Hk]. clear k Hk. intros k Hk.
    apply cat_some. rewrite <- app_assoc. apply lit_some.
    apply (group_capture 5 (ClassPlus is_digit) p _ _ _ _ caps); [|exact Hk]. clear k Hk. intros k Hk. cbn [rmatch].
    by apply match_plus_greedy.
  - by unfold re_port; rewrite opt_skipped.
Qed.

Lemma match_domain with_port p d v caps (k : chars → captures → option captures) a :
  d ≠ [] → Forall (none_of "/ :") d →
  k (port_part with_port p ++ chars_of "/" ++ v) (<[3%nat := d]> caps) = Some a →
  rmatch re_domain (d ++ port_part with_port p ++ chars_of "/" ++ v) caps k = Some a.
Proof.
  intros Hne Hd Hk. apply (group_capture 3 _ d _ _ _ _ caps); [|exact Hk]. clear k Hk. intros k Hk. cbn [rmatch].
  apply match_plus_greedy; [done|done|by destruct with_port|exact Hk].
Qed.

Lemma match_protocol spelled v caps (k : chars → captures → option captures) a :
  to_lower_copy spelled = chars_of "http" ∨ to_lower_copy spelled = chars_of "https" →
  k v (<[1%nat := spelled ++ chars_of "://"]> (<[2%nat := spelled]> caps)) = Some a →
  rmatch re_protocol (spelled ++ chars_of "://" ++ v) caps k = Some a.
Proof.
  intros Hs Hk. apply opt_taken. rewrite app_assoc. eapply group_capture; [|exact Hk]. clear k Hk. intros k Hk.
  rewrite <- app_assoc. unfold lit. cbn [rmatch].
  assert (Hlen : ∀ v : chars, take (length (spelled ++ v) - length v) (spelled ++ v) = spelled) by apply take_consumed.
  assert (Hk' : match_lit (chars_of "://") (chars_of "://" ++ v)
    (λ rest, k rest (<[2%nat := take (length (spelled ++ chars_of "://" ++ v) - length (chars_of "://" ++ v))
      (spelled ++ chars_of "://" ++ v)]> caps)) = Some a) by (by rewrite match_lit_app, Hlen).
  destruct Hs as [Hs|Hs].
  - rewrite match_lit_spelled by done. by rewrite Hk'.
  - replace (match_lit (chars_of "http") _ _) with (@None captures).
    + by rewrite match_lit_spelled by done.
    + destruct spelled as [|c1 [|c2 [|c3 [|c4 [|c5 [|c6 l]]]]]]; try done. injection Hs as H1 H2 H3 H4 H5.
      cbn [chars_of String.list_ascii_of_string app match_lit].
      rewrite H1, H2, H3, H4. rewrite !decide_True by done. by rewrite decide_False by (by rewrite H5).
Qed.

(** The captures of a printed URL. *)
Lemma match_printed spelled with_port u path :
  uri_ok u → to_lower_copy spelled = protocol u → resource u = chars_of "/" ++ path → Forall (none_of " ?") path →
  regex_match PARSE_URL (print_uri spelled with_port u) =
    Some (set_query (query u) (<[6%nat := resource u]> (set_path path (set_port with_port (port u)
      (<[3%nat := domain u]> (<[1%nat := spelled ++ chars_of "://"]> (<[2%nat := spelled]> ∅))))))).
Proof.
  intros [Hpr [Hd0 Hd] [Hp0 Hp] _ Hq] Hs Er Hpath. unfold regex_match, PARSE_URL, print_uri. rewrite Er.
  apply cat_some, match_protocol; [by rewrite Hs|].
  rewrite <- (app_assoc (chars_of "/")).
  apply cat_some, match_domain; [done|done|]. apply cat_some, match_port; [done|done|].
  rewrite (app_assoc (chars_of "/")). apply cat_some, match_resource; [done|]. by apply match_query_part.
Qed.

End Printing.

(** What a capture of each group of interest looks like. *)
Definition capture_ok (n : nat) (w : chars) : Prop :=
  match n with
  | 2%nat => to_lower_copy w = chars_of "http" ∨ to_lower_copy w = chars_of "https"
  | 3%nat => w ≠ [] ∧ Forall (none_of "/ :") w
  | 5%nat => w ≠ [] ∧ Forall is_digit w
  | 6%nat => ∃ path, w = chars_of "/" ++ path
  | _ => True
  end.

Lemma lower_slash c : lower c = "/"%char → c = "/"%char.
Proof. destruct c as [[] [] [] [] [] [] [] []]; vm_compute; congruence. Qed.

Lemma groups_captures n r w : (n, r) ∈ groups PARSE_URL → lang r w → capture_ok n w.
Proof.
  intros Hin Hl. cbn in Hin. repeat (apply elem_of_cons in Hin as [[= -> ->]|Hin]; [try done|]);
    [..|by apply not_elem_of_nil in Hin].
  destruct Hl as (u & path & -> & Hu & _). exists path. f_equal. simpl in Hu.
  destruct u as [|c [|c' u]]; try done. injection Hu as Hc. by rewrite (lower_slash c Hc).
Qed.

(** The matcher decides the language. *)
Lemma regex_match_lang r url : is_Some (regex_match r url) ↔ lang r url.
Proof.
  unfold regex_match. rewrite rmatch_is_some by (by intros [|]). split.
  - intros (u & [|c v] & -> & Hu & [? ?]); [by rewrite app_nil_r|done].
  - intros Hu. exists url, []. by rewrite app_nil_r.
Qed.

#[export] Instance lang_dec r url : Decision (lang r url).
Proof.
  destruct (regex_match r url) as [m|] eqn:E; [left|right]; rewrite <- regex_match_lang, E; [done|by intros [? ?]].
Defined.

(** The fields of an accepted URL, and of any other. *)
Lemma parse_uri_fields url :
  (¬ lang PARSE_URL url → parse_uri url = mk_uri [] [] [] [] []) ∧
  (lang PARSE_URL url →
     let u := parse_uri url in
     (protocol u = chars_of "http" ∨ protocol u = chars_of "https") ∧
     (domain u ≠ [] ∧ Forall (none_of "/ :") (domain u)) ∧
     (port u ≠ [] ∧ Forall is_digit (port u)) ∧
     ∃ path, resource u = chars_of "/" ++ path).
Proof.
  rewrite <- !regex_match_lang. unfold parse_uri. destruct (regex_match PARSE_URL url) as [m|] eqn:Em.
  2:{ split; [done|]. by intros [? ?]. }
  split; [intros Hn; by destruct Hn|]. intros _. cbv zeta. cbn [protocol domain port resource].
  unfold regex_match in Em. apply rmatch_captures in Em as (u & v & caps' & _ & _ & Hend & Ho & Hset).
  destruct v; [|done]. injection Hend as ->.
  assert (Hg : ∀ n, sub_match m n = [] ∨ capture_ok n (sub_match m n)).
  { intros n. unfold sub_match. destruct (m !! n) as [w|] eqn:Hn; [|by left].
    destruct (Ho n w Hn) as [?|(r' & ? & ?)]; [done|]. right. by eapply groups_captures. }
  split; [|split; [|split]].
  - destruct (Hg 2%nat) as [->|Hp]; [by left|]. by destruct Hp as [->| ->]; [left|right].
  - assert (is_Some (m !! 3%nat)) as [w Hw] by (apply Hset; right; repeat constructor).
    destruct (Ho 3%nat w Hw) as [?|(r' & Hr & Hlr)]; [done|].
    destruct (groups_captures _ _ _ Hr Hlr) as [? ?]. unfold sub_match. by rewrite Hw.
  - destruct (Hg 5%nat) as [->|[Hne Hd]]; [by case_decide; (split; [done|repeat constructor])|].
    by destruct (sub_match m 5).
  - destruct (Hg 6%nat) as [->|[path ->]]; [by exists []|]. by exists path.
Qed.

(** ** Reading a URL

    The reference definition: the parts of a URL, and what each of them means. *)

Definition protocol_part (w p : chars) : Prop :=
  (w = [] ∧ p = chars_of "http") ∨
  ∃ spelled, w = spelled ++ chars_of "://" ∧ to_lower_copy spelled = p ∧ (p = chars_of "http" ∨ p = chars_of "https").

Definition port_read (w proto p : chars) : Prop :=
  (w = [] ∧ p = default_port proto) ∨ (w = chars_of ":" ++ p ∧ p ≠ [] ∧ Forall is_digit p).

Definition resource_read (w r : chars) : Prop :=
  (w = [] ∧ r = chars_of "/") ∨ (w = r ∧ ∃ path, r = chars_of "/" ++ path ∧ Forall (none_of " ?") path).

Definition query_read (q : chars) : Prop :=
  q = [] ∨ ∃ key value, q = key ++ chars_of "=" ++ value ∧ key ≠ [] ∧ value ≠ [] ∧
    Forall (none_of "/ ") key ∧ Forall (none_of "/ ") value.

Definition reads (url : chars) (u : ParsedURI) : Prop :=
  ∃ w1 w2 w3 slash mark, url = w1 ++ domain u ++ w2 ++ w3 ++ slash ++ mark ++ query u ∧
    protocol_part w1 (protocol u) ∧
    (domain u ≠ [] ∧ Forall (none_of "/ :") (domain u)) ∧
    port_read w2 (protocol u) (port u) ∧ resource_read w3 (resource u) ∧
    (slash = [] ∨ slash = chars_of "/") ∧ (mark = [] ∨ mark = chars_of "?") ∧ query_read (query u).

(** The captures of a match, part by part. *)
Inductive matches : regex → chars → captures → captures → Prop :=
| matches_lit s w c : to_lower_copy w = to_lower_copy s → matches (Lit s) w c c
| matches_plus (P : ascii → bool) w c : w ≠ [] → Forall P w → matches (ClassPlus P) w c c
| matches_cat r1 r2 u v c c1 c2 : matches r1 u c c1 → matches r2 v c1 c2 → matches (Cat r1 r2) (u ++ v) c c2
| matches_left r1 r2 w c c' : matches r1 w c c' → matches (Alt r1 r2) w c c'
| matches_right r1 r2 w c c' : matches r2 w c c' → matches (Alt r1 r2) w c c'
| matches_skip r c : matches (Opt r) [] c c
| matches_opt r w c c' : matches r w c c' → matches (Opt r) w c c'
| matches_group n r w c c' : matches r w c c' → matches (Group n r) w c (<[n := w]> c').

Lemma rmatch_matches {A} r l caps (k : chars → captures → option A) a :
  rmatch r l caps k = Some a → ∃ u v caps', l = u ++ v ∧ matches r u caps caps' ∧ k v caps' = Some a.
Proof.
  revert l caps k. induction r as [s|P|r1 IH1 r2 IH2|r1 IH1 r2 IH2|r IH|n r IH]; intros l caps k; simpl.
  - intros (u & v & -> & Hu & Hk)%match_lit_some. eauto 10 using matches.
  - intros (u & v & -> & ? & ? & Hk)%match_plus_some. eauto 10 using matches.
  - intros (u & v & caps1 & -> & Hu & (u2 & v2 & caps2 & -> & Hu2 & Hk)%IH2)%IH1.
    exists (u ++ u2), v2, caps2. rewrite <- app_assoc. eauto using matches.
  - destruct (rmatch r1 l caps k) as [a'|] eqn:E1; intros Hm; simplify_eq.
    + destruct (IH1 _ _ _ E1) as (u & v & caps' & -> & Hu & Hk). eauto 10 using matches.
    + destruct (IH2 _ _ _ Hm) as (u & v & caps' & -> & Hu & Hk). eauto 10 using matches.
  - destruct (rmatch r l caps k) as [a'|] eqn:E1; intros Hm; simplify_eq.
    + destruct (IH _ _ _ E1) as (u & v & caps' & -> & Hu & Hk). eauto 10 using matches.
    + exists [], l, caps. eauto using matches.
  - intros (u & v & caps' & -> & Hu & Hk)%IH. rewrite take_consumed in Hk. eauto 10 using matches.
Qed.

(** One part at a time. *)
Ltac invert_match :=
  match goal with
  | H : matches (Lit _) _ _ _ |- _ => inversion H; clear H; subst
  | H : matches (ClassPlus _) _ _ _ |- _ => inversion H; clear H; subst
  | H : matches (Cat _ _) _ _ _ |- _ => inversion H; clear H; subst
  | H : matches (Alt _ _) _ _ _ |- _ => inversion H; clear H; subst
  | H : matches (Opt _) _ _ _ |- _ => inversion H; clear H; subst
  | H : matches (Group _ _) _ _ _ |- _ => inversion H; clear H; subst
  end.

(** A sign has no case. *)
Definition is_sign (d : ascii) : bool := bool_decide (d ∈ chars_of ":/?=").

Lemma lower_sign c d : is_sign d = true → lower c = lower d → c = d.
Proof.
  unfold is_sign. intros H%bool_decide_eq_true. cbn in H.
  repeat (apply elem_of_cons in H as [->|H]; [destruct c as [[] [] [] [] [] [] [] []]; vm_compute; congruence|]).
  by apply not_elem_of_nil in H.
Qed.

Lemma matches_signs s w c c' :
  forallb is_sign (chars_of s) = true → matches (lit s) w c c' → w = chars_of s ∧ c' = c.
Proof.
  unfold lit. intros Hs Hm. invert_match. split; [|done].
  match goal with H : to_lower_copy _ = _ |- _ => revert Hs w H end. generalize (chars_of s). clear s. induction l as [|d s IH]; intros Hs [|x w] Hl; try done.
  simpl in *. injection Hl as Hc Hl. apply andb_prop in Hs as [Hd Hs]. f_equal; [by apply lower_sign|by apply IH].
Qed.

Lemma matches_protocol w c c' :
  matches re_protocol w c c' →
  (w = [] ∧ c' = c) ∨
  ∃ spelled, w = spelled ++ chars_of "://" ∧
    (to_lower_copy spelled = chars_of "http" ∨ to_lower_copy spelled = chars_of "https") ∧
    c' = <[1%nat := w]> (<[2%nat := spelled]> c).
Proof.
  unfold re_protocol. intros Hm. invert_match; [by left|right]. do 2 invert_match.
  match goal with H : matches (lit "://") _ _ _ |- _ => apply matches_signs in H as [-> ->]; [|done] end.
  invert_match. unfold lit in *. invert_match; invert_match; eexists; split_and!; try done; auto.
Qed.

Lemma matches_domain w c c' :
  matches re_domain w c c' → (w ≠ [] ∧ Forall (none_of "/ :") w) ∧ c' = <[3%nat := w]> c.
Proof. unfold re_domain. intros Hm. by do 2 invert_match. Qed.

Lemma matches_port w c c' :
  matches re_port w c c' →
  (w = [] ∧ c' = c) ∨
  ∃ p, w = chars_of ":" ++ p ∧ p ≠ [] ∧ Forall is_digit p ∧ c' = <[4%nat := w]> (<[5%nat := p]> c).
Proof.
  unfold re_port. intros Hm. invert_match; [by left|right]. do 2 invert_match.
  match goal with H : matches (lit ":") _ _ _ |- _ => apply matches_signs in H as [-> ->]; [|done] end.
  do 2 invert_match. eexists. by split_and!.
Qed.

Lemma matches_resource w c c' :
  matches re_resource w c c' →
  (w = [] ∧ c' = c) ∨
  ∃ path, w = chars_of "/" ++ path ∧ Forall (none_of " ?") path ∧ (c' = <[6%nat := w]> c ∨ c' = <[6%nat := w]> (<[7%nat := path]> c)).
Proof.
  unfold re_resource. intros Hm. invert_match; [by left|right]. do 2 invert_match.
  match goal with H : matches (lit "/") _ _ _ |- _ => apply matches_signs in H as [-> ->]; [|done] end.
  invert_match; [exists []; by auto|]. do 2 invert_match. eexists. by auto.
Qed.

Lemma matches_query w c c' :
  matches re_query w c c' → query_read w ∧ ((w = [] ∧ c' = c) ∨ c' = <[8%nat := w]> c).
Proof.
  unfold re_query. intros Hm. invert_match; [by split; left|]. do 2 invert_match.
  repeat match goal with H : matches (Cat _ _) _ _ _ |- _ => inversion H; clear H; subst end.
  match goal with H : matches (lit "=") _ _ _ |- _ => apply matches_signs in H as [-> ->]; [|done] end.
  do 2 invert_match. split; [right|by right]. eexists _, _. by split_and!.
Qed.

Lemma matches_sign s w c c' :
  forallb is_sign (chars_of s) = true → matches (Opt (lit s)) w c c' → (w = [] ∨ w = chars_of s) ∧ c' = c.
Proof. intros Hs Hm. invert_match; [by auto|].
  match goal with H : matches (lit s) _ _ _ |- _ => apply matches_signs in H as [-> ->]; auto end.
Qed.

Lemma matches_cat_inv r1 r2 w c c' :
  matches (Cat r1 r2) w c c' → ∃ u v c1, w = u ++ v ∧ matches r1 u c c1 ∧ matches r2 v c1 c'.
Proof. intros Hm. invert_match. eauto 10. Qed.

(** The fields of a matched URL are the parts of a way to read it. *)
Lemma match_reads url m :
  regex_match PARSE_URL url = Some m → reads url (parse_uri url).
Proof.
  intros Em. unfold parse_uri. rewrite Em. unfold regex_match, PARSE_URL in Em.
  apply rmatch_matches in Em as (w & v & m' & -> & Hm & Hend). destruct v; [|done]. injection Hend as ->.
  rewrite app_nil_r.
  apply matches_cat_inv in Hm as (w1 & ? & c1 & -> & H1 & Hm). apply matches_cat_inv in Hm as (d & ? & c2 & -> & H2 & Hm).
  apply matches_cat_inv in Hm as (w2 & ? & c3 & -> & H3 & Hm). apply matches_cat_inv in Hm as (w3 & ? & c4 & -> & H4 & Hm).
  apply matches_cat_inv in Hm as (slash & ? & c5 & -> & H5 & Hm). apply matches_cat_inv in Hm as (mark & q & c6 & -> & H6 & H7).
  apply matches_protocol in H1. apply matches_domain in H2 as [Hd ->]. apply matches_port in H3. apply matches_resource in H4.
  apply matches_sign in H5 as [Hslash ->]; [|done]. apply matches_sign in H6 as [Hmark ->]; [|done].
  apply matches_query in H7 as [Hq H7].
  assert (E8 : sub_match m 8 = q).
  { destruct H7 as [[-> ->]| ->]; [|unfold sub_match; by rewrite lookup_insert_eq].
    destruct H1 as [[_ ->]|(? & _ & _ & ->)], H3 as [[_ ->]|(? & _ & _ & _ & ->)],
      H4 as [[_ ->]|(? & _ & _ & [-> | ->])]; unfold sub_match; by simplify_map_eq. }
  assert (E7 : ∀ n : nat, n ≠ 8%nat → sub_match m n = sub_match c4 n).
  { intros n Hn. destruct H7 as [[_ ->]| ->]; [done|]. unfold sub_match. by rewrite lookup_insert_ne. }
  assert (E6 : resource_read w3 (value_or (sub_match c4 6) (chars_of "/"))).
  { destruct H4 as [[-> ->]|(path & -> & Hp & H4)].
    - left. split; [done|].
      destruct H1 as [[_ ->]|(? & _ & _ & ->)], H3 as [[_ ->]|(? & _ & _ & _ & ->)]; unfold sub_match; by simplify_map_eq.
    - right. assert (sub_match c4 6 = chars_of "/" ++ path) as -> by (unfold sub_match; destruct H4 as [-> | ->]; by simplify_map_eq).
      split; [done|]. by exists path. }
  assert (E5 : ∀ n : nat, n ≠ 6%nat → n ≠ 7%nat → sub_match c4 n = sub_match c3 n).
  { intros n H6 H7'. unfold sub_match. destruct H4 as [[_ ->]|(? & _ & _ & [-> | ->])];
      by rewrite ?(lookup_insert_ne _ 6%nat), ?(lookup_insert_ne _ 7%nat) by done. }
  assert (E4 : sub_match c3 5 = [] ∧ w2 = [] ∨ w2 = chars_of ":" ++ sub_match c3 5 ∧ sub_match c3 5 ≠ [] ∧ Forall is_digit (sub_match c3 5)).
  { destruct H3 as [[-> ->]|(p & -> & Hp & Hd' & ->)].
    - left. split; [|done]. destruct H1 as [[_ ->]|(? & _ & _ & ->)]; unfold sub_match; by simplify_map_eq.
    - right. unfold sub_match. by simplify_map_eq. }
  assert (E3 : sub_match c3 3 = d).
  { destruct H3 as [[_ ->]|(? & _ & _ & _ & ->)]; unfold sub_match; by simplify_map_eq. }
  assert (E2 : protocol_part w1 (value_or (to_lower_copy (sub_match c3 2)) (chars_of "http"))).
  { destruct H1 as [[-> ->]|(sp & -> & Hsp & ->)].
    - left. split; [done|]. destruct H3 as [[_ ->]|(? & _ & _ & _ & ->)]; unfold sub_match; by simplify_map_eq.
    - right. exists sp. assert (sub_match c3 2 = sp) as ->.
      { destruct H3 as [[_ ->]|(? & _ & _ & _ & ->)]; unfold sub_match; by simplify_map_eq. }
      split; [done|]. by destruct Hsp as [-> | ->]; auto. }
  exists w1, w2, w3, slash, mark. cbn [protocol domain port resource query].
  rewrite E8, (E7 2%nat), (E7 3%nat), (E7 5%nat), (E7 6%nat), (E5 2%nat), (E5 3%nat), (E5 5%nat), E3 by done. split_and!; try done; [apply Hd..|].
  unfold port_read, default_port. destruct E4 as [[-> ->]|(-> & Hne & Hdg)]; [by left|].
  right. by destruct (sub_match c3 5).
Qed.

(** A URL that can be read is matched. *)
Lemma reads_lang url u : reads url u → lang PARSE_URL url.
Proof.
  intros (w1 & w2 & w3 & slash & mark & -> & H1 & Hd & H2 & H3 & Hs & Hm & Hq). unfold PARSE_URL.
  exists w1. eexists. split; [done|]. split.
  { destruct H1 as [[-> _]|(sp & -> & Hsp & Hp)]; [by left|right]. exists sp, (chars_of "://"). split_and!; try done.
    rewrite <- Hsp in Hp. destruct Hp; [by left|by right]. }
  exists (domain u). eexists. split; [done|]. split; [done|].
  exists w2. eexists. split; [done|]. split.
  { destruct H2 as [[-> _]|(-> & ? & ?)]; [by left|right]. by exists (chars_of ":"), (port u). }
  exists w3. eexists. split; [done|]. split.
  { destruct H3 as [[-> _]|(-> & path & -> & Hp)]; [by left|right]. exists (chars_of "/"), path. split_and!; try done.
    destruct path; [by left|by right]. }
  exists slash. eexists. split; [done|]. split; [by destruct Hs as [-> | ->]; [left|right]|].
  exists mark, (query u). split; [done|]. split; [by destruct Hm as [-> | ->]; [left|right]|].
  destruct Hq as [->|(key & value & -> & ? & ? & ? & ?)]; [by left|right].
  exists key, (chars_of "=" ++ value). split_and!; try done. by exists (chars_of "="), value.
Qed.

(** ** Properties *)

(** C24: [ParsedURI] reads exactly the URLs of the form the regular expression stands for:
    an optional protocol, [http] or [https] in any case, followed by [://]; a domain without
    slash, blank or colon; an optional colon and digits; an optional resource that starts
    with a slash; an optional slash, an optional question mark and an optional query with an
    equals sign in it.  The fields of such a URL are the parts of one way to read it, and of
    the absent ones their defaults: the protocol is then [http], the port 443 or 80 by the
    protocol, the resource a slash; every field of any other URL is left empty. *)
Theorem parse_uri_accepts url :
  (∀ u, reads url u → reads url (parse_uri url)) ∧
  ((∀ u, ¬ reads url u) → parse_uri url = mk_uri [] [] [] [] []).
Proof.
  destruct (regex_match PARSE_URL url) as [m|] eqn:Em.
  - pose proof (match_reads url m Em) as Hr. split; [done|]. intros Hn. by destruct (Hn _ Hr).
  - unfold parse_uri. rewrite Em. split; [|done]. intros u Hu%reads_lang%regex_match_lang. rewrite Em in Hu. by destruct Hu.
Qed.

(** C28: reading a printed URL gives back what was printed: any protocol, domain, port,
    resource and query come back from the URL they make, however the protocol is spelled
    and whether the port is written out or left to its default. *)
Theorem parse_print_uri spelled (with_port : bool) u :
  uri_ok u → to_lower_copy spelled = protocol u →
  (with_port = false → port u = if decide (protocol u = chars_of "https") then chars_of "443" else chars_of "80") →
  parse_uri (print_uri spelled with_port u) = u.
Proof.
  intros Hu Hs Hport. destruct (ok_resource u Hu) as (path & Er & Hpath).
  unfold parse_uri. rewrite (match_printed spelled with_port u path) by done. destruct Hu as [Hpr [Hd0 Hd] [Hp0 Hp] _ Hq].
  set (m := set_query _ _).
  assert (Hm : ∀ n : nat, n ≠ 7%nat → n ≠ 8%nat → m !! n = (<[6%nat := resource u]> (set_port with_port (port u)
    (<[3%nat := domain u]> (<[1%nat := spelled ++ chars_of "://"]> (<[2%nat := spelled]> (∅ : captures)))))) !! n).
  { intros n H7 H8. unfold m, set_query, set_path. destruct (query u); rewrite ?(lookup_insert_ne _ 8%nat) by done;
      (destruct (decide (n = 6%nat)) as [->|]; [by rewrite !lookup_insert_eq|rewrite !(lookup_insert_ne _ 6%nat) by done]);
      destruct path; by rewrite ?(lookup_insert_ne _ 7%nat) by done. }
  assert (sub_match m 2 = spelled) as ->.
  { unfold sub_match. rewrite Hm by done. by destruct with_port; simplify_map_eq. }
  assert (sub_match m 3 = domain u) as ->.
  { unfold sub_match. rewrite Hm by done. by destruct with_port; simplify_map_eq. }
  assert (sub_match m 5 = if with_port then port u else []) as ->.
  { unfold sub_match. rewrite Hm by done. by destruct with_port; simplify_map_eq. }
  assert (sub_match m 6 = resource u) as ->.
  { unfold sub_match. rewrite Hm by done. by simplify_map_eq. }
  assert (sub_match m 8 = query u) as ->.
  { unfold sub_match, m, set_query. destruct (query u) as [|c q]; [|by rewrite lookup_insert_eq].
    unfold set_path, set_port. by destruct path, with_port; simplify_map_eq. }
  assert (value_or (to_lower_copy spelled) (chars_of "http") = protocol u) as ->.
  { rewrite Hs. by destruct Hpr as [->| ->]. }
  rewrite Er. destruct u as [p d po r q]. simpl in *. subst r. f_equal.
  destruct with_port; [by destruct po|]. by rewrite Hport.
Qed.

(** ** What the examples make of other URLs *)

(** Without a path the query ends up in the domain, and a query without [=] makes the
    whole URL unreadable. *)
Lemma query_needs_path_and_value :
  domain (parse_uri (chars_of "http://host?k=v")) = chars_of "host?k=v" ∧
  parse_uri (chars_of "http://host/search?term") = mk_uri [] [] [] [] [].
Proof. split; vm_compute; reflexivity. Qed.

(** ** Witnesses *)

Definition toy_uri : ParsedURI :=
  mk_uri (chars_of "https") (chars_of "example.com") (chars_of "443") (chars_of "/a/b") (chars_of "k=v").

Lemma toy_uri_ok : uri_ok toy_uri.
Proof.
  split.
  - by right.
  - split; [done|]. by apply (bool_decide_unpack _).
  - split; [done|]. by apply (bool_decide_unpack _).
  - exists (chars_of "a/b"). split; [done|]. by apply (bool_decide_unpack _).
  - right. exists (chars_of "k"), (chars_of "v"). split_and!; [done..|]. by apply (bool_decide_unpack _).
Qed.

Lemma parse_print_uri_witness :
  parse_uri (chars_of "HTTPS://example.com/a/b?k=v") = toy_uri.
Proof. apply (parse_print_uri (chars_of "HTTPS") false toy_uri toy_uri_ok); reflexivity. Defined.

(** The other paths: a port that is written out, no path, a query. *)
Lemma parse_uri_accepts_witness :
  reads (chars_of "host:8080/?k=v") (parse_uri (chars_of "host:8080/?k=v")).
Proof.
  apply (parse_uri_accepts (chars_of "host:8080/?k=v"))
    with (u := mk_uri (chars_of "http") (chars_of "host") (chars_of "8080") (chars_of "/") (chars_of "k=v")).
  exists [], (chars_of ":8080"), (chars_of "/"), [], (chars_of "?"). split_and!; [done|by left|done|by apply (bool_decide_unpack _)|..].
  - right. split; [done|]. by apply (bool_decide_unpack _).
  - right. split; [done|]. exists []. by split.
  - by left.
  - by right.
  - right. exists (chars_of "k"), (chars_of "v"). split_and!; try done; by apply (bool_decide_unpack _).
Defined.
