(* ===== verification/ExampleHttp.v ===== *)
(** * The example programs

    Models example/http/example_pool.cpp and example/http/example_connector.cpp over the
    library's parts: [main] with its arguments, the request it builds, and the process: the
    threads as [start_threads] starts them and [main] joins them, interleaved, with what each
    does with its session, and the end of all of them when an exception leaves one.
    Boost.Beast's request object, and what [prepare_payload] adds to it, are a parameter. *)

From S2P Require Import Prelude ErrorCode TimedBase PoolStrategy ConnectionPool Resolver.
From S2P Require Import HttpSocket Connector ExampleUri.
From Stdlib Require Import Strings.Ascii Strings.Byte.
Open Scope sc_scope.

(** [std::atoi], for numbers an [int] holds: blanks, a sign, and the digits that follow. *)
Definition is_space (c : ascii) : bool :=
  let n := N_of_ascii c in (n =? 32)%N || ((9 <=? n)%N && (n <=? 13)%N).

Fixpoint digits_value (acc : Z) (s : chars) : Z :=
  match s with
  | c :: s => if is_digit c then digits_value (10 * acc + (Z.of_N (N_of_ascii c) - 48)) s else acc
  | [] => acc
  end.

Fixpoint atoi (s : chars) : Z :=
  match s with
  | [] => 0
  | c :: s' =>
      if is_space c then atoi s'
      else if decide (c = "-"%char) then - digits_value 0 s'
      else if decide (c = "+"%char) then digits_value 0 s'
      else digits_value 0 s
  end.

(** The request [main] builds, before [prepare_payload()]. *)
Record example_request := mk_request {
  rq_version : Z;
  rq_method : string;
  rq_target : chars;
  rq_host : chars;
  rq_body : string;
  rq_content_type : string;
  rq_accept : string;
  rq_user_agent : string
}.

Definition make_request (uri : ParsedURI) : example_request :=
  mk_request 11 "POST" (resource uri) (domain uri) "{test}" "application/json" "*/*" "beast/stream_client".

(** The template argument of [start_threads]. *)
Inductive component := http_pool | https_pool | http_connector | https_connector.

(** How [main] ends: a message and the exit status 1, or the threads it starts and joins. *)
Inductive main_end :=
| Usage
| BadProtocol
| Threads (T : component) (host port : chars) (request : example_request)
    (threads_num req_per_thread : Z).

(** [main(argc, argv)], [argv] being the program's name and its arguments. *)
Definition example_main (http https : component) (argv : list chars) : main_end :=
  match argv with
  | [_; url; threads; requests] =>
      let num_threads := atoi threads in
      let requests := atoi requests in
      let uri := parse_uri url in
      let req := make_request uri in
      if decide (protocol uri = chars_of "http") then Threads http (domain uri) (port uri) req num_threads requests
      else if decide (protocol uri = chars_of "https") then
        Threads https (domain uri) (port uri) req num_threads requests
      else BadProtocol
  | _ => Usage
  end.

Definition pool_main : list chars → main_end := example_main http_pool https_pool.
Definition connector_main : list chars → main_end := example_main http_connector https_connector.

(** The constants [start_threads] passes on, in nanoseconds. *)
Definition idle_timeout : Z := 500 * 1000000.
Definition example_resolve_timeout : Z := 5000 * 1000000.
Definition example_connect_timeout : Z := 1000 * 1000000.
Definition example_operation_timeout : Z := 500 * 1000000.
Definition example_ip_family : ip_family := ipv4.

(** The size of the pool: the [int] converted to [std::size_t]. *)
Definition pool_size (threads_num : Z) : Z := u64 threads_num.

(** example_connector's [make_shared<T>(host, port, ...)]: the connector and the resolver in
    it, over a fresh asio resolver. *)
Definition example_connector {Ep} (host port : string) : connector Ep :=
  connector_ctor host port example_resolve_timeout example_connect_timeout example_operation_timeout.

Definition example_resolver {R} `{AsioResolver R, tm : AsioTimer} (r : R) (host port : string) (t : Z)
    : resolver R :=
  base_resolver_ctor r host port example_resolve_timeout example_ip_family kDefaultFlags t.

(** example_pool's [make_shared<T>(threads_num, idle_timeout, host, port, ...)]: the pool and
    the connector in it, which is [example_connector]. *)
Definition example_connection_pool {Session} (threads_num : Z) : pool Session greedy_strategy :=
  pool_ctor (pool_size threads_num) idle_timeout mk_greedy example_connect_timeout.

(** What the watcher of the pool has to add at first: one session for each thread; but a
    negative [threads_num], for which no thread is started, is converted to a huge size. *)
Lemma example_pool_vacancies Session n :
  - 2 ^ 31 ≤ n < 2 ^ 31 →
  vacant_places (pool_max_size_ (example_connection_pool (Session := Session) n)) 0 =
    (if 0 <=? n then n else 2 ^ 64 + n).
Proof.
  intros Hn. unfold vacant_places. cbn [pool_max_size_ example_connection_pool pool_ctor].
  assert (E : pool_size n = if 0 <=? n then n else 2 ^ 64 + n).
  { unfold pool_size. destruct (0 <=? n) eqn:E; bool_prop; [apply u64_id; lia|].
    rewrite <- (u64_wrap n 1). rewrite u64_id; lia. }
  rewrite E, Z.sub_0_r, u64_id by (destruct (0 <=? n) eqn:E0; bool_prop; lia).
  destruct (0 <? _) eqn:E1; [done|]. destruct (0 <=? n) eqn:E0; bool_prop; lia.
Qed.

(** What a thread of the pool's example prints for a request: the message of an error, or
    the response; reading the response through an empty [optional] is neither. *)
Inductive printed (Rsp : Type) :=
| Message (ec : error_code)
| Response (r : Rsp)
| EmptyOptional.
Arguments Message {Rsp}.
Arguments Response {Rsp}.
Arguments EmptyOptional {Rsp}.

(** ** The process

    [main] starts the threads one after another and joins them in that order; each goes
    through its function at its own pace; an exception that leaves the function of a thread
    calls [std::terminate], which ends the process with all its threads. *)

Inductive thread_state (T : Type) :=
| Getting                  (** about to get its session *)
| Going (t : T)            (** in its loop *)
| Finished.
Arguments Getting {T}.
Arguments Going {T}.
Arguments Finished {T}.

Inductive process_status :=
| Running
| Exited (code : Z)
| Terminated (thread : nat) (e : system_error).

(** The threads started so far, how many of them are joined, what has been printed and by
    which thread, whatever is printed by one statement being one item. *)
Record process (T Out : Type) := mk_process {
  pr_threads : list (thread_state T);
  pr_joined : nat;
  pr_printed : list (nat * Out);
  pr_status : process_status
}.
Arguments mk_process {T Out}.
Arguments pr_threads {T Out}.
Arguments pr_joined {T Out}.
Arguments pr_printed {T Out}.
Arguments pr_status {T Out}.

Section Process.
Context {T Out : Type}.
(** What getting the session does in each thread; one round of the loop: it does not return,
    or throws, or prints and goes on or leaves the loop and the function. *)
Variables (session : nat → outcome T) (turn : T → option (outcome (option T * list Out))) (threads_num : nat).
Implicit Types (p : process T Out) (st : thread_state T).

Definition thread_turn (i : nat) st : option (outcome (thread_state T * list Out)) :=
  match st with
  | Getting => Some (match session i with Normal t => Normal (Going t, []) | Throw e => Throw e end)
  | Going t =>
      match turn t with
      | None => None
      | Some (Throw e) => Some (Throw e)
      | Some (Normal (Some t', outs)) => Some (Normal (Going t', outs))
      | Some (Normal (None, outs)) => Some (Normal (Finished, outs))
      end
  | Finished => None
  end.

Definition process_init : process T Out := mk_process [] 0 [] Running.

(** [start_threads] and the end of [main]. *)
Inductive process_step p : process T Out → Prop :=
| step_start :
    pr_status p = Running → (length (pr_threads p) < threads_num)%nat →
    process_step p (mk_process (pr_threads p ++ [Getting]) (pr_joined p) (pr_printed p) Running)
| step_thread i st st' outs :
    pr_status p = Running → pr_threads p !! i = Some st → thread_turn i st = Some (Normal (st', outs)) →
    process_step p (mk_process (<[i := st']> (pr_threads p)) (pr_joined p) (pr_printed p ++ map (pair i) outs) Running)
| step_terminate i st e :
    pr_status p = Running → pr_threads p !! i = Some st → thread_turn i st = Some (Throw e) →
    process_step p (mk_process (pr_threads p) (pr_joined p) (pr_printed p) (Terminated i e))
| step_join :
    pr_status p = Running → length (pr_threads p) = threads_num → pr_threads p !! pr_joined p = Some Finished →
    process_step p (mk_process (pr_threads p) (S (pr_joined p)) (pr_printed p) Running)
| step_exit :
    pr_status p = Running → length (pr_threads p) = threads_num → pr_joined p = threads_num →
    process_step p (mk_process (pr_threads p) (pr_joined p) (pr_printed p) (Exited 0)).

(** What thread [i] has printed. *)
Definition printed_by (i : nat) p : list Out := map snd (filter (λ o, o.1 = i) (pr_printed p)).

(** A thread on its own: rounds of the loop, with what they print. *)
Inductive turns (t : T) : list Out → T → Prop :=
| turns_none : turns t [] t
| turns_more outs t1 outs' t2 :
    turns t outs t1 → turn t1 = Some (Normal (Some t2, outs')) → turns t (outs ++ outs') t2.

(** Thread [i] is where a run of it on its own can be, having printed what that prints. *)
Definition thread_ok (i : nat) st (outs : list Out) : Prop :=
  match st with
  | Getting => outs = []
  | Going t => ∃ t0, session i = Normal t0 ∧ turns t0 outs t
  | Finished => ∃ t0 t o1 o2, session i = Normal t0 ∧ turns t0 o1 t ∧ turn t = Some (Normal (None, o2)) ∧ outs = o1 ++ o2
  end.

Definition process_ok p : Prop :=
  (∀ i, (length (pr_threads p) ≤ i)%nat → printed_by i p = []) ∧
  (∀ i st, pr_threads p !! i = Some st → thread_ok i st (printed_by i p)) ∧
  (∀ i, (i < pr_joined p)%nat → pr_threads p !! i = Some Finished) ∧
  (length (pr_threads p) ≤ threads_num)%nat ∧
  match pr_status p with
  | Running => True
  | Exited code => code = 0 ∧ length (pr_threads p) = threads_num ∧ pr_joined p = threads_num
  | Terminated i e => ∃ st, pr_threads p !! i = Some st ∧ thread_turn i st = Some (Throw e)
  end.

Lemma printed_by_app i j outs p th jn status :
  printed_by j (mk_process th jn (pr_printed p ++ map (pair i) outs) status) =
  printed_by j p ++ (if decide (i = j) then outs else []).
Proof.
  unfold printed_by. simpl. rewrite filter_app, map_app. f_equal. case_decide as Hij.
  - rewrite filter_all by (by apply Forall_map, Forall_true). rewrite map_map. simpl. by rewrite map_id.
  - by rewrite filter_none by (by apply Forall_map, Forall_true).
Qed.

Lemma thread_turn_ok i st st' outs outs' :
  thread_ok i st outs → thread_turn i st = Some (Normal (st', outs')) → thread_ok i st' (outs ++ outs').
Proof.
  destruct st as [|t|]; simpl.
  - intros ->. destruct (session i) as [t0|e] eqn:Es; intros E; simplify_eq. exists t0. split; [done|constructor].
  - intros (t0 & Es & Ht). destruct (turn t) as [[[[t'|] o]|e]|] eqn:Et; intros E; simplify_eq; simpl.
    + exists t0. split; [done|]. by econstructor.
    + by exists t0, t, outs, outs'.
  - done.
Qed.

Lemma process_inductive : inductive_invariant (λ p, p = process_init) process_step process_ok.
Proof.
  split.
  { intros p ->. split_and!; simpl; try done; intros; lia. }
  intros p p' (Hn & Ht & Hj & Hl & Hst) Hs. destruct Hs as [Hr Hlt|i st st' outs Hr Hi Hturn|i st e Hr Hi Hturn|Hr Hl' Hf|Hr Hl' Hj'].
  - split_and!; cbn [pr_threads pr_joined pr_status]; try (rewrite length_app; simpl).
    + intros i Hi. apply Hn. lia.
    + intros i st Hi. apply lookup_snoc_Some in Hi as [[? Hi]|[-> <-]]; [by apply Ht|]. by apply Hn.
    + intros i Hi. apply lookup_app_l_Some. by apply Hj.
    + lia.
    + done.
  - split_and!; cbn [pr_threads pr_joined pr_status]; try rewrite length_insert; try done.
    + intros j Hj'. rewrite printed_by_app. apply lookup_lt_Some in Hi. rewrite decide_False by lia.
      by rewrite app_nil_r; apply Hn.
    + intros j st1. rewrite printed_by_app. destruct (decide (i = j)) as [<-|Hne].
      * rewrite list_lookup_insert_eq by (by eapply lookup_lt_Some). intros [= <-].
        eapply thread_turn_ok; [by apply Ht|done].
      * rewrite list_lookup_insert_ne by done. rewrite app_nil_r. apply Ht.
    + intros j Hjn. rewrite list_lookup_insert_ne; [by apply Hj|]. intros ->. rewrite (Hj j Hjn) in Hi. by simplify_eq.
  - split_and!; cbn [pr_threads pr_joined pr_status]; try done. by exists st.
  - split_and!; cbn [pr_threads pr_joined pr_status]; try done.
    intros i Hi. destruct (decide (i = pr_joined p)) as [->|]; [done|]. apply Hj. lia.
  - by split_and!.
Qed.

(** A thread that can go on can do so in the process, until the process has ended. *)
Lemma process_progress p :
  process_ok p → pr_status p = Running →
  (∃ p', process_step p p') ∨ ∃ i t, pr_threads p !! i = Some (Going t) ∧ turn t = None.
Proof.
  intros (_ & Ht & Hj & Hl & _) Hr.
  destruct (decide (length (pr_threads p) < threads_num)%nat) as [?|Hge]; [left; eexists; by apply step_start|].
  assert (Hl' : length (pr_threads p) = threads_num) by lia.
  destruct (pr_threads p !! pr_joined p) as [st|] eqn:Hi.
  - destruct (thread_turn (pr_joined p) st) as [[[st' outs]|e]|] eqn:Hturn.
    + left. eexists. by eapply step_thread.
    + left. eexists. by eapply step_terminate.
    + destruct st as [|t|]; simpl in Hturn; [done| |left; eexists; by apply step_join].
      right. exists (pr_joined p), t. split; [done|]. by destruct (turn t) as [[[[?|] ?]|?]|].
  - left. eexists. apply step_exit; [done..|]. apply lookup_ge_None in Hi.
    destruct (decide (pr_joined p = threads_num)); [done|].
    assert (Hlast : pr_threads p !! Nat.pred (pr_joined p) = Some Finished) by (apply Hj; lia).
    apply lookup_lt_Some in Hlast. lia.
Qed.

Lemma process_ended p p' : process_step p p' → pr_status p = Running.
Proof. by destruct 1. Qed.

(** The process ends: every step takes something from what is left to do. *)
Variable rounds : T → nat.
Variable most : nat.
Hypothesis session_rounds : ∀ i t, session i = Normal t → (rounds t ≤ most)%nat.
Hypothesis turn_rounds : ∀ t t' outs, turn t = Some (Normal (Some t', outs)) → (rounds t' < rounds t)%nat.

Definition thread_left st : nat :=
  match st with Getting => S (S most) | Going t => S (rounds t) | Finished => 0 end.

Definition process_left p : nat :=
  (threads_num - length (pr_threads p)) * S (S (S most)) + sum_list_with thread_left (pr_threads p) +
  (threads_num - pr_joined p) + match pr_status p with Running => 1 | _ => 0 end.

Lemma sum_left_insert l i st st' :
  l !! i = Some st → (sum_list_with thread_left (<[i := st']> l) + thread_left st =
    sum_list_with thread_left l + thread_left st')%nat.
Proof.
  revert i. induction l as [|x l IH]; intros [|i] Hi; simplify_eq/=; [lia|]. specialize (IH i Hi). lia.
Qed.

Lemma thread_turn_left i st st' outs :
  thread_turn i st = Some (Normal (st', outs)) → (thread_left st' < thread_left st)%nat.
Proof.
  destruct st as [|t|]; simpl; [| |done].
  - destruct (session i) as [t0|] eqn:Es; intros E; simplify_eq/=. specialize (session_rounds _ _ Es). lia.
  - destruct (turn t) as [[[[t'|] o]|e]|] eqn:Et; intros E; simplify_eq/=; [|lia]. specialize (turn_rounds _ _ _ Et). lia.
Qed.

Lemma process_step_left p p' : process_ok p → process_step p p' → (process_left p' < process_left p)%nat.
Proof.
  intros (_ & _ & Hj & Hl & _) Hs. unfold process_left.
  destruct Hs as [Hr Hlt|i st st' outs Hr Hi Hturn|i st e Hr Hi Hturn|Hr Hl' Hf|Hr Hl' Hj']; cbn [pr_threads pr_joined pr_status]; rewrite Hr.
  - rewrite length_app, sum_list_with_app. cbn [length sum_list_with thread_left].
    replace (threads_num - length (pr_threads p))%nat with (S (threads_num - (length (pr_threads p) + 1))) by lia. simpl. lia.
  - rewrite length_insert. pose proof (sum_left_insert _ _ _ st' Hi) as Hsum.
    apply thread_turn_left in Hturn. lia.
  - lia.
  - apply lookup_lt_Some in Hf. lia.
  - lia.
Qed.

End Process.

Section Threads.
Context {W Rq Rsp Sr Ps B : Type} `{HttpStream W, Beast Rq Rsp Sr Ps B, pl : Platform}.
Variables (fuel : nat) (request : Rq).
Implicit Types (h : http_socket W B) (err : error_code) (session : outcome (http_socket W B)).

(** example_pool: [for (j = 0; j < req_per_thread; ++j)], with [n] requests left. *)
Fixpoint pool_requests (n : nat) err h : option (list (printed Rsp) * error_code * http_socket W B) :=
  match n with
  | O => Some ([], err, h)
  | S n =>
      '(resp, err, h) ← perform_default fuel request err h;
      let out := if ec_failed err then Message err
                 else match resp with Some r => Response r | None => EmptyOptional end in
      '(outs, err, h) ← pool_requests n err h;
      Some (out :: outs, err, h)
  end.

(** A round of its loop in a thread that has [n] requests left, or the return of its session
    when it has none. *)
Definition pool_turn (t : nat * error_code * http_socket W B)
    : option (outcome (option (nat * error_code * http_socket W B) * list (printed Rsp))) :=
  let '(n, err, h) := t in
  match n with
  | O => Some (Normal (None, []))
  | S n =>
      '(resp, err, h) ← perform_default fuel request err h;
      let out := if ec_failed err then Message err
                 else match resp with Some r => Response r | None => EmptyOptional end in
      Some (Normal (Some (n, err, h), [out]))
  end.

(** [connection_pool->get_session()] in each thread, then [req_per_thread] requests. *)
Definition pool_session (sessions : nat → outcome (http_socket W B)) (req_per_thread : Z) (i : nat)
    : outcome (nat * error_code * http_socket W B) :=
  match sessions i with Normal h => Normal (Z.to_nat req_per_thread, ec_ok, h) | Throw e => Throw e end.

(** example_connector: [perform(request)] throws.  The loop of a thread that no exception
    leaves: the responses it prints. *)
Fixpoint connector_requests (n : nat) h : option (list Rsp * http_socket W B) :=
  match n with
  | O => Some ([], h)
  | S n =>
      '(r, h) ← perform_throw fuel request h;
      match r with
      | Throw _ => None
      | Normal resp => '(outs, h) ← connector_requests n h; Some (resp :: outs, h)
      end
  end.

Definition connector_turn (t : nat * http_socket W B)
    : option (outcome (option (nat * http_socket W B) * list Rsp)) :=
  let '(n, h) := t in
  match n with
  | O => Some (Normal (None, []))
  | S n =>
      '(r, h) ← perform_throw fuel request h;
      Some (match r with Throw e => Throw e | Normal resp => Normal (Some (n, h), [resp]) end)
  end.

(** [connector->new_session()] in each thread, which owns its session. *)
Definition connector_session (sessions : nat → outcome (http_socket W B)) (req_per_thread : Z) (i : nat)
    : outcome (nat * http_socket W B) :=
  match sessions i with Normal h => Normal (Z.to_nat req_per_thread, h) | Throw e => Throw e end.

(** The two programs from the start of their threads on. *)
Definition pool_process_step (sessions : nat → outcome (http_socket W B)) (threads_num req_per_thread : Z) :=
  process_step (pool_session sessions req_per_thread) pool_turn (Z.to_nat threads_num).

Definition connector_process_step (sessions : nat → outcome (http_socket W B)) (threads_num req_per_thread : Z) :=
  process_step (connector_session sessions req_per_thread) connector_turn (Z.to_nat threads_num).

End Threads.

Section Claims.
Context {W Rq Rsp Sr Ps B : Type}.
Context `{HttpStream W, !HttpStreamLaws W, !HttpPeer W, bb : Beast Rq Rsp Sr Ps B,
  !BeastLaws Rq Rsp Sr Ps B, pl : Platform}.
Implicit Types (h : http_socket W B).

(** A session as the library constructs it, and enough fuel for its exchanges. *)
Definition session_ready (fuel : nat) (request : Rq) h : Prop :=
  fb_max_size (buffer_ h) = kBodyLimit + kHeaderLimit ∧ exchange_fuel fuel request (stream_ h).

(** An exchange of a ready session that returns leaves it ready. *)
Lemma perform_ready fuel request err dl h r err' h' :
  session_ready fuel request h → perform fuel request err dl h = Some (r, err', h') →
  (r = None ↔ ec_failed err' = true) ∧ session_ready fuel request h'.
Proof.
  intros (Hm & Hf & Hfi) E. destruct (perform_sound fuel request err dl h r err' h' Hm Hf E) as (Hr & _ & Hm' & Hl).
  unfold session_ready, exchange_fuel. split_and!; (done || lia || apply Hr).
Qed.

(** The throwing [perform] on a ready session. *)
Lemma perform_throw_ready fuel request h :
  session_ready fuel request h →
  match perform_throw fuel request h with
  | Some (Normal _, h') => session_ready fuel request h'
  | Some (Throw e, h') => ∃ ec, perform_default fuel request ec_ok h = Some (None, ec, h') ∧
      ec_failed ec = true ∧ e = mk_se ec ""
  | None => parser_stalls (hp_input (stream_ h))
  end.
Proof.
  intros Hh. unfold perform_throw, perform_default, perform_timeout.
  set (dl := hs_now (stream_ h) +i hs_io_timeout (stream_ h)).
  destruct (perform fuel request ec_ok dl h) as [[[r ec] h']|] eqn:E.
  - destruct (perform_ready _ _ _ _ _ _ _ _ Hh E) as [Hr Hh']. destruct (ec_failed ec) eqn:Ef.
    + exists ec. by rewrite (proj2 Hr eq_refl).
    + destruct r as [resp|]; [done|]. by specialize (proj1 Hr eq_refl).
  - destruct (perform_returns fuel request ec_ok dl h) as [[? Hs]|]; [apply Hh..|congruence|done].
Qed.

(** A thread's loop, one round at a time, is the loop. *)
Lemma pool_requests_snoc fuel request n err h outs err1 h1 r err2 h2 :
  pool_requests fuel request n err h = Some (outs, err1, h1) →
  perform_default fuel request err1 h1 = Some (r, err2, h2) →
  pool_requests fuel request (Datatypes.S n) err h =
    Some (outs ++ [if ec_failed err2 then Message err2
                   else match r with Some r => Response r | None => EmptyOptional end], err2, h2).
Proof.
  revert err h outs. induction n as [|n IH]; intros err h outs.
  - intros [= <- <- <-] E. simpl. by rewrite E.
  - cbn [pool_requests]. destruct (perform_default fuel request err h) as [[[r0 err0] h0]|]; [|done].
    cbn [mbind option_bind]. destruct (pool_requests fuel request n err0 h0) as [[[o e] h']|] eqn:E0; [|done].
    cbn [mbind option_bind]. intros [= <- <- <-] E. specialize (IH _ _ _ E0 E). cbn [pool_requests] in IH.
    rewrite IH. done.
Qed.

Lemma connector_requests_snoc fuel request n h outs h1 resp h2 :
  connector_requests fuel request n h = Some (outs, h1) →
  perform_throw fuel request h1 = Some (Normal resp, h2) →
  connector_requests fuel request (Datatypes.S n) h = Some (outs ++ [resp], h2).
Proof.
  revert h outs. induction n as [|n IH]; intros h outs.
  - intros [= <- <-] E. simpl. by rewrite E.
  - cbn [connector_requests]. destruct (perform_throw fuel request h) as [[[r0|] h0]|]; [|done..].
    cbn [mbind option_bind]. destruct (connector_requests fuel request n h0) as [[o h']|] eqn:E0; [|done].
    cbn [mbind option_bind]. intros [= <- <-] E. specialize (IH _ _ E0 E). cbn [connector_requests] in IH.
    rewrite IH. done.
Qed.

Lemma pool_turns_requests fuel request n err h outs t :
  turns (pool_turn (Rsp := Rsp) fuel request) (n, err, h) outs t →
  n = (length outs + t.1.1)%nat ∧ pool_requests fuel request (length outs) err h = Some (outs, t.1.2, t.2).
Proof.
  induction 1 as [|outs t1 outs' t2 Ht [IHn IH] Hturn]; [done|].
  destruct t1 as [[[|n1] err1] h1]; [done|]. cbn in Hturn.
  destruct (perform_default fuel request err1 h1) as [[[r err2] h2]|] eqn:E; [|done].
  cbn [mbind option_bind] in Hturn. injection Hturn as <- <-.
  rewrite length_app, Nat.add_1_r. cbn [fst snd] in *. split; [lia|]. by eapply pool_requests_snoc.
Qed.

Lemma connector_turns_requests fuel request n h outs t :
  turns (connector_turn (Rsp := Rsp) fuel request) (n, h) outs t →
  n = (length outs + t.1)%nat ∧ connector_requests fuel request (length outs) h = Some (outs, t.2).
Proof.
  induction 1 as [|outs t1 outs' t2 Ht [IHn IH] Hturn]; [done|].
  destruct t1 as [[|n1] h1]; [done|]. cbn in Hturn.
  destruct (perform_throw fuel request h1) as [[[r|e] h2]|] eqn:E; [|done..].
  cbn [mbind option_bind] in Hturn. injection Hturn as <- <-.
  rewrite length_app, Nat.add_1_r. cbn [fst snd] in *. split; [lia|]. by eapply connector_requests_snoc.
Qed.

Lemma connector_requests_ready fuel request n h outs h' :
  session_ready fuel request h → connector_requests fuel request n h = Some (outs, h') → session_ready fuel request h'.
Proof.
  revert h outs. induction n as [|n IH]; intros h outs Hh; [by intros [= _ <-]|]. cbn [connector_requests].
  pose proof (perform_throw_ready _ _ _ Hh) as Hp.
  destruct (perform_throw fuel request h) as [[[r|] h1]|]; [|done..]. cbn [mbind option_bind].
  destruct (connector_requests fuel request n h1) as [[o h2]|] eqn:E; [|done]. intros [= _ <-]. by eapply IH.
Qed.

Lemma pool_requests_outcome fuel request n err h :
  session_ready fuel request h →
  match pool_requests fuel request n err h with
  | Some (outs, err', h') =>
      length outs = n ∧ session_ready fuel request h' ∧
      Forall (λ o, match o with Message ec => ec_failed ec = true | Response _ => True | EmptyOptional => False end) outs
  | None => ∃ k outs err' h', pool_requests fuel request k err h = Some (outs, err', h') ∧
      parser_stalls (hp_input (stream_ h'))
  end.
Proof.
  revert err h. induction n as [|n IH]; intros err h Hh; [done|]. cbn [pool_requests].
  destruct (perform_default fuel request err h) as [[[r err1] h1]|] eqn:E; cbn [mbind option_bind].
  2:{ exists 0%nat, [], err, h. split; [done|]. unfold perform_default, perform_timeout in E.
      destruct (perform_returns fuel request err (hs_now (stream_ h) +i hs_io_timeout (stream_ h)) h) as [[? Hs]|];
        [apply Hh..|congruence|done]. }
  destruct (perform_ready _ _ _ _ _ _ _ _ Hh E) as [Hr Hh1]. specialize (IH err1 h1 Hh1).
  destruct (pool_requests fuel request n err1 h1) as [[[outs err'] h']|]; cbn [mbind option_bind].
  - destruct IH as (Hl & Hh' & Hall). simpl. split_and!; [by rewrite Hl|apply Hh'..|]. constructor; [|done].
    destruct (ec_failed err1) eqn:Ee; [done|]. destruct r; [done|]. destruct Hr as [Hr _]. by specialize (Hr eq_refl).
  - destruct IH as (k & outs & err' & h' & E' & Hst). eexists (Datatypes.S k), _, err', h'. split; [|exact Hst].
    cbn [pool_requests]. rewrite E. cbn [mbind option_bind]. by rewrite E'.
Qed.

(** Where thread [i] of the connector's example is. *)
Lemma connector_thread_at fuel request sessions n i h st outs :
  sessions i = Normal h → thread_ok (connector_session sessions n) (connector_turn (Rsp := Rsp) fuel request) i st outs →
  ∃ k h', connector_requests fuel request (length outs) h = Some (outs, h') ∧ Z.to_nat n = (length outs + k)%nat ∧
    match st with Getting => True | Going t => t = (k, h') | Finished => k = 0%nat end.
Proof.
  intros Es Ht.
  assert (Hs : ∀ t, connector_session sessions n i = Normal t → t = (Z.to_nat n, h)).
  { unfold connector_session. rewrite Es. by intros t [= <-]. }
  destruct st as [|t|]; simpl in Ht.
  - rewrite Ht. by exists (Z.to_nat n), h.
  - destruct Ht as (t0 & ->%Hs & Ht). apply connector_turns_requests in Ht as [Hk E]. exists t.1, t.2. by destruct t.
  - destruct Ht as (t0 & [k h1] & o1 & o2 & ->%Hs & Ht & Hturn & ->). apply connector_turns_requests in Ht as [Hk E].
    destruct k; cbn in Hturn; [|by destruct (perform_throw fuel request h1) as [[[?|?] ?]|]].
    injection Hturn as <-. rewrite app_nil_r. by exists 0%nat, h1.
Qed.

(** A thread of it that cannot go on, or throws. *)
Lemma connector_turn_stuck fuel request k h :
  session_ready fuel request h →
  match connector_turn (Rsp := Rsp) fuel request (k, h) with
  | None => parser_stalls (hp_input (stream_ h))
  | Some (Throw e) => (0 < k)%nat ∧ ∃ h'' ec, perform_default fuel request ec_ok h = Some (None, ec, h'') ∧
      ec_failed ec = true ∧ e = mk_se ec ""
  | Some (Normal _) => True
  end.
Proof.
  intros Hh. destruct k; [done|]. cbn [connector_turn]. pose proof (perform_throw_ready _ _ _ Hh) as Hp.
  destruct (perform_throw fuel request h) as [[[r|e] h1]|]; cbn [mbind option_bind]; [done| |done].
  destruct Hp as (ec & ? & ? & ?). split; [lia|]. by exists h1, ec.
Qed.

(** [main] of either example ends in its usage message unless it is given three
    arguments, and in the complaint about the protocol exactly when the URL is not one
    [PARSE_URL] describes; otherwise it starts the component of the URL's protocol with
    the URL's host and port, and requests the URL's resource from that host. *)
Theorem example_main_outcome http https argv :
  http ≠ https →
  match example_main http https argv with
  | Usage => length argv ≠ 4%nat
  | BadProtocol => ∃ name url threads requests, argv = [name; url; threads; requests] ∧ ¬ lang PARSE_URL url
  | Threads T host port request threads_num req_per_thread =>
      ∃ name url threads requests, argv = [name; url; threads; requests] ∧ lang PARSE_URL url ∧
        (T = https ↔ protocol (parse_uri url) = chars_of "https") ∧
        (T = http ↔ protocol (parse_uri url) = chars_of "http") ∧
        host = domain (parse_uri url) ∧ host ≠ [] ∧ port = ExampleUri.port (parse_uri url) ∧ port ≠ [] ∧
        rq_host request = host ∧ rq_target request = resource (parse_uri url)
  end.
Proof.
  intros Hne. unfold example_main. assert (Hpp : chars_of "http" ≠ chars_of "https") by done.
  destruct argv as [|name [|url [|threads [|requests [|]]]]]; try (simpl; lia).
  pose proof (parse_uri_fields url) as (Hno & Hyes). destruct (decide (lang PARSE_URL url)) as [Hl|Hl].
  - specialize (Hyes Hl) as (Hp & [Hd _] & [Hport _] & _). destruct Hp as [Hp|Hp]; rewrite Hp.
    + rewrite decide_True by done. exists name, url, threads, requests.
      split_and!; try done; split; congruence.
    + rewrite decide_False by done. rewrite decide_True by done. exists name, url, threads, requests.
      split_and!; try done; split; congruence.
  - rewrite (Hno Hl). cbn. by exists name, url, threads, requests.
Qed.

(** A thread of the pool's example that got a session makes as many requests as it was
    told (none for a negative number), unless the parser stalls in one; it prints for each a
    response or the message of an error, whichever [perform] reported, and never reads an
    empty optional; the session it then gives back to the pool is ready for further use. *)
Theorem pool_thread_outcome fuel (request : Rq) h n :
  session_ready fuel request h →
  match pool_requests fuel request (Z.to_nat n) ec_ok h with
  | Some (outs, _, h') =>
      Z.of_nat (length outs) = Z.max 0 n ∧ session_ready fuel request h' ∧
      ∀ o, o ∈ outs → (∃ ec, o = Message ec ∧ ec_failed ec = true) ∨ ∃ r, o = Response r
  | None => ∃ k outs err h', pool_requests fuel request k ec_ok h = Some (outs, err, h') ∧
      parser_stalls (hp_input (stream_ h'))
  end.
Proof.
  intros Hh. pose proof (pool_requests_outcome fuel request (Z.to_nat n) ec_ok h Hh) as Ho.
  destruct (pool_requests fuel request (Z.to_nat n) ec_ok h) as [[[outs err] h']|]; [|done].
  destruct Ho as (Hl & Hh' & Hall). split_and!; [lia|apply Hh'..|]. intros o Hin. rewrite Forall_forall in Hall.
  specialize (Hall o Hin). destruct o; [left|right|done]; eauto.
Qed.

(** In the process of the pool's example, every thread prints what its loop prints on its
    own, however the threads are interleaved; an exception of [get_session] is the only one
    that ends the process. *)
Theorem pool_process_outcome fuel (request : Rq) sessions threads_num n p :
  reachable (λ p, p = process_init) (pool_process_step (Rsp := Rsp) fuel request sessions threads_num n) p →
  (∀ i h, sessions i = Normal h → ∃ err h', pool_requests fuel request (length (printed_by i p)) ec_ok h =
     Some (printed_by i p, err, h')) ∧
  (∀ i e, pr_status p = Terminated i e → sessions i = Throw e ∧ printed_by i p = []) ∧
  (∀ code, pr_status p = Exited code → code = 0 ∧
     ∀ i, (i < Z.to_nat threads_num)%nat → Z.of_nat (length (printed_by i p)) = Z.max 0 n).
Proof.
  intros Hr. apply (inductive_invariant_holds _ _ _ (process_inductive _ _ _)) in Hr as (Hn & Ht & Hj & Hl & Hst).
  assert (Hs : ∀ i h t, sessions i = Normal h → pool_session sessions n i = Normal t → t = (Z.to_nat n, ec_ok, h)).
  { intros i h t Es. unfold pool_session. rewrite Es. by intros [= <-]. }
  split_and!.
  - intros i h Es. destruct (pr_threads p !! i) as [st|] eqn:Hi.
    2:{ apply lookup_ge_None in Hi. rewrite Hn by done. by eexists _, _. }
    specialize (Ht i st Hi). destruct st as [|t|]; simpl in Ht.
    + rewrite Ht. by eexists _, _.
    + destruct Ht as (t0 & E0 & Ht). apply (Hs _ _ _ Es) in E0 as ->. apply pool_turns_requests in Ht as [_ ->]. by eexists _, _.
    + destruct Ht as (t0 & [[k e1] h1] & o1 & o2 & E0 & Ht & Hturn & ->). apply (Hs _ _ _ Es) in E0 as ->.
      apply pool_turns_requests in Ht as [_ E1]. destruct k; cbn in Hturn.
      * injection Hturn as <-. rewrite app_nil_r, E1. by eexists _, _.
      * by destruct (perform_default fuel request e1 h1) as [[[? ?] ?]|].
  - intros i e E. rewrite E in Hst. destruct Hst as (st & Hi & Hturn). specialize (Ht i st Hi).
    destruct st as [|[[k e1] h1]|]; simpl in Hturn; [| |done].
    + simpl in Ht. split; [|done]. unfold pool_session in Hturn. by destruct (sessions i) as [h|e'] eqn:Es; simplify_eq.
    + destruct k; [done|]. cbn in Hturn. by destruct (perform_default fuel request e1 h1) as [[[? ?] ?]|].
  - intros code E. rewrite E in Hst. destruct Hst as (-> & Hlen & Hjn). split; [done|]. intros i Hi.
    specialize (Ht i _ (Hj i ltac:(lia))). destruct Ht as (t0 & [[k e1] h1] & o1 & o2 & E0 & Ht & Hturn & ->).
    unfold pool_session in E0. destruct (sessions i) as [h|] eqn:Es; [|done]. injection E0 as <-.
    apply pool_turns_requests in Ht as [Hk _]. destruct k; cbn in Hturn.
    + injection Hturn as <-. rewrite app_nil_r. cbn [fst] in Hk. lia.
    + by destruct (perform_default fuel request e1 h1) as [[[? ?] ?]|].
Qed.

(** C37: however the threads of the connector's example are interleaved, each prints the
    responses of its own session to as many successive requests, at most the number it was
    told.  While the process runs, something can happen in it, unless the response of a
    thread's exchange stalls its parser, and everything that happens leaves less to do.  It
    exits, with status 0, only when every thread has printed a response to each of its
    requests.  It is cut off, all threads with it, exactly by an exception of one thread:
    the one that kept it from getting a session, or the error that [perform] reported for
    the request after those whose responses that thread has printed. *)
Theorem connector_threads_outcome fuel (request : Rq) sessions threads_num n p :
  (∀ i h, sessions i = Normal h → session_ready fuel request h) →
  reachable (λ p, p = process_init) (connector_process_step (Rsp := Rsp) fuel request sessions threads_num n) p →
  (∀ i h, sessions i = Normal h →
     ∃ h', connector_requests fuel request (length (printed_by i p)) h = Some (printed_by i p, h') ∧
       Z.of_nat (length (printed_by i p)) ≤ Z.max 0 n) ∧
  match pr_status p with
  | Running =>
      ((∃ p', connector_process_step fuel request sessions threads_num n p p') ∨
       ∃ i h h', sessions i = Normal h ∧
         connector_requests fuel request (length (printed_by i p)) h = Some (printed_by i p, h') ∧
         parser_stalls (hp_input (stream_ h'))) ∧
      ∀ p', connector_process_step fuel request sessions threads_num n p p' →
        (process_left (Z.to_nat threads_num) fst (Z.to_nat n) p' < process_left (Z.to_nat threads_num) fst (Z.to_nat n) p)%nat
  | Exited code =>
      code = 0 ∧ ∀ i, (i < Z.to_nat threads_num)%nat → Z.of_nat (length (printed_by i p)) = Z.max 0 n
  | Terminated i e =>
      (∀ p', ¬ connector_process_step fuel request sessions threads_num n p p') ∧
      ((sessions i = Throw e ∧ printed_by i p = []) ∨
       ∃ h h' h'' ec, sessions i = Normal h ∧ Z.of_nat (length (printed_by i p)) < n ∧
         connector_requests fuel request (length (printed_by i p)) h = Some (printed_by i p, h') ∧
         perform_default fuel request ec_ok h' = Some (None, ec, h'') ∧ ec_failed ec = true ∧ e = mk_se ec "")
  end.
Proof.
  intros Hready Hr. apply (inductive_invariant_holds _ _ _ (process_inductive _ _ _)) in Hr.
  pose proof Hr as (Hn & Ht & Hj & Hl & Hst).
  assert (Hat : ∀ i h, sessions i = Normal h → ∃ k h',
    connector_requests fuel request (length (printed_by i p)) h = Some (printed_by i p, h') ∧
    Z.to_nat n = (length (printed_by i p) + k)%nat ∧
    ∀ st, pr_threads p !! i = Some st → match st with Getting => True | Going t => t = (k, h') | Finished => k = 0%nat end).
  { intros i h Es. destruct (pr_threads p !! i) as [st|] eqn:Hi.
    - destruct (connector_thread_at _ _ _ _ _ _ _ _ Es (Ht i st Hi)) as (k & h' & E & Hk & Hat).
      exists k, h'. split_and!; [done..|]. by intros st' [= <-].
    - apply lookup_ge_None in Hi. rewrite (Hn i Hi). by exists (Z.to_nat n), h. }
  split.
  { intros i h Es. destruct (Hat i h Es) as (k & h' & E & Hk & _). exists h'. split; [done|]. lia. }
  destruct (pr_status p) as [|code|i e] eqn:Est.
  - split.
    + destruct (process_progress _ _ _ p Hr Est) as [?|(i & t & Hi & Hturn)]; [by left|right].
      pose proof (Ht i _ Hi) as Hok. simpl in Hok. destruct Hok as (t0 & E0 & _).
      unfold connector_session in E0. destruct (sessions i) as [h|] eqn:Es; [|done].
      destruct (Hat i h Es) as (k & h' & E & Hk & Hgo). rewrite (Hgo _ Hi) in Hturn. exists i, h, h'. split_and!; [done..|].
      assert (Hh' : session_ready fuel request h') by (eapply connector_requests_ready; [by eapply Hready|done]).
      pose proof (connector_turn_stuck fuel request k h' Hh') as Hstuck. by rewrite Hturn in Hstuck.
    + intros p' Hs. eapply process_step_left; [..|exact Hr|exact Hs].
      * intros i t. unfold connector_session. destruct (sessions i); [by intros [= <-]|done].
      * intros [[|k] h] [k' h'] outs; cbn; [done|]. destruct (perform_throw fuel request h) as [[[r|e] h1]|]; [|done..].
        intros [= <- _ _]. simpl. lia.
  - destruct Hst as (-> & Hlen & Hjn). split; [done|]. intros i Hi.
    pose proof (Hj i ltac:(lia)) as Hfin. pose proof (Ht i _ Hfin) as Hok. simpl in Hok. destruct Hok as (t0 & _ & _ & _ & E0 & _).
    unfold connector_session in E0. destruct (sessions i) as [h|] eqn:Es; [|done].
    destruct (Hat i h Es) as (k & h' & _ & Hk & Hgo). rewrite (Hgo _ Hfin) in Hk. lia.
  - split; [intros p' Hs%process_ended; by rewrite Est in Hs|]. destruct Hst as (st & Hi & Hturn).
    pose proof (Ht i st Hi) as Hok. destruct (sessions i) as [h|e'] eqn:Es.
    + right. destruct (Hat i h Es) as (k & h' & E & Hk & Hgo). specialize (Hgo st Hi).
      destruct st as [|t|]; simpl in Hturn; [unfold connector_session in Hturn; by rewrite Es in Hturn| |done].
      subst t. assert (Hh' : session_ready fuel request h') by (eapply connector_requests_ready; [by eapply Hready|done]).
      pose proof (connector_turn_stuck fuel request k h' Hh') as Hstuck.
      destruct (connector_turn fuel request (k, h')) as [[[[t'|] o]|e1]|]; simplify_eq.
      destruct Hstuck as (Hk0 & h'' & ec & Ep & Hf & He). exists h, h', h'', ec. split_and!; (done || lia).
    + left. destruct st as [|t|]; simpl in Hturn, Hok; [| |done].
      * unfold connector_session in Hturn. rewrite Es in Hturn. by simplify_eq.
      * destruct Hok as (t0 & E0 & _). unfold connector_session in E0. by rewrite Es in E0.
Qed.

End Claims.

(** ** Witnesses *)

Lemma example_main_outcome_witness :
  ∃ name url threads requests,
    [chars_of "pool"; chars_of "http://localhost:8080/x"; chars_of "2"; chars_of "3"] = [name; url; threads; requests] ∧
    lang PARSE_URL url.
Proof.
  pose proof (example_main_outcome http_pool https_pool
    [chars_of "pool"; chars_of "http://localhost:8080/x"; chars_of "2"; chars_of "3"]) as Hm.
  assert (E : pool_main [chars_of "pool"; chars_of "http://localhost:8080/x"; chars_of "2"; chars_of "3"] =
    Threads http_pool (chars_of "localhost") (chars_of "8080")
      (make_request (parse_uri (chars_of "http://localhost:8080/x"))) 2 3) by (vm_compute; reflexivity).
  unfold pool_main in E. rewrite E in Hm. destruct Hm as (name & url & threads & requests & Ea & Hl & _); [discriminate|].
  exists name, url, threads, requests. split; [exact Ea|exact Hl].
Defined.

Definition toy_session : http_socket toy_http toy_buffer :=
  http_socket_ctor (mk_toy_http [] [x0a; x0b; x0c; x0d; x0e; x0f]).

Lemma toy_session_ready : session_ready 20 [x01; x02] toy_session.
Proof. split; [reflexivity|]. split; simpl; lia. Qed.

Lemma pool_thread_outcome_witness :
  ∃ outs err h', pool_requests (Rsp := list byte) 20 [x01; x02] 2 ec_ok toy_session = Some (outs, err, h') ∧
    Z.of_nat (length outs) = 2.
Proof.
  pose proof (pool_thread_outcome 20 [x01; x02] toy_session 2 toy_session_ready) as Hp.
  destruct (pool_requests 20 [x01; x02] (Z.to_nat 2) ec_ok toy_session) as [[[outs err] h']|] eqn:E.
  - exists outs, err, h'. split; [exact E|apply Hp].
  - vm_compute in E. discriminate E.
Defined.

(** Two threads; the second gets no session after the first has printed its response. *)
Definition toy_sessions (i : nat) : outcome (http_socket toy_http toy_buffer) :=
  match i with O => Normal toy_session | _ => Throw (mk_se timed_out "") end.

Definition toy_process : process (nat * http_socket toy_http toy_buffer) (list byte) :=
  mk_process [Going (1%nat, match perform_throw (Rsp := list byte) 20 [x01; x02] toy_session with Some (_, h) => h | None => toy_session end);
    Getting] 0 [(0%nat, [x0a; x0b])] (Terminated 1 (mk_se timed_out "")).

Lemma connector_threads_outcome_witness :
  printed_by 0 toy_process = [[x0a; x0b]] ∧
  toy_sessions 1 = Throw (mk_se timed_out "") ∧ printed_by 1 toy_process = [].
Proof.
  assert (Hr : ∃ p, reachable (λ p, p = process_init)
    (connector_process_step (Rsp := list byte) 20 [x01; x02] toy_sessions 2 2) p ∧ p = toy_process).
  { eexists. split.
    - eapply reach_step; [eapply reach_step; [eapply reach_step; [eapply reach_step; [eapply reach_step; [by apply reach_init|]|]|]|]|].
      + apply step_start; [done|simpl; lia].
      + by apply (step_thread _ _ _ _ 0 Getting (Going (2%nat, toy_session)) []).
      + apply step_start; [done|simpl; lia].
      + eapply (step_thread _ _ _ _ 0); [done|done|vm_compute; reflexivity].
      + by apply (step_terminate _ _ _ _ 1 Getting).
    - vm_compute. reflexivity. }
  destruct Hr as (p & Hr & ->).
  destruct (connector_threads_outcome 20 [x01; x02] toy_sessions 2 2 toy_process) as [_ H].
  - intros [|i] h [= <-]. exact toy_session_ready.
  - exact Hr.
  - split; [reflexivity|]. destruct H as [_ [H|(h & _ & _ & _ & H & _)]]; [exact H|discriminate H].
Defined.
